(* ===== verification/_CoqProject ===== *)
-Q . S2P
Prelude.v
Text.v
Logging.v
Net.v
Dns.v
Config.v
Spec.v
HttpUtil.v
Backpressure.v
Metrics.v
HealthServer.v
Transport.v
Dial.v
ZenohUtil.v
Relay.v
KeySpace.v
ImportBridge.v
RequestSetup.v
ExportBridge.v
Meters.v
Election.v
ExportLoop.v
Roster.v
Fleet.v
Failover.v
Recovery.v
ExportDrain.v
Bus.v
EndToEnd.v
Heads.v
Routing.v
Multiroute.v
RequestPipe.v
Accounting.v
Accept.v
Doors.v
Routed.v
TlsConfig.v
Exports.v
Args.v
Main.v
Drain.v
