(* ===== verification/Prelude.v ===== *)
(** * zenoh-bridge-tcp: a verification development

    The program bridges TCP connections over a Zenoh session.  An import bridge
    ([src/src/import/]) accepts clients, finds out which host each one wants,
    announces it with a liveliness token and relays its bytes over a pair of keys;
    an export bridge ([src/src/export/]) watches for such tokens, dials a backend
    for each and relays the other end of the same keys.  Several exporters of one
    service elect one that serves.

    ** Files

    - [Prelude]: results, oracle-driven runs ([run]), list lemmas, tactics, hints.
    - [Text], [Net]: strings as [list ascii] and the part of the standard library's
      text functions and socket-address grammar that the source calls.
    - [Dns] ([dns.rs]): routing keys, on the operator's side and the client's.
    - [Config] ([config.rs]), [Spec] ([spec.rs]): configuration; the [--listen] and
      [--backend] grammars and their printers.
    - [Logging] ([logging.rs]): the [--log-target] grammar, the filter directives and the
      sinks that [build_with_env] assembles.
    - [HttpUtil] ([http_util.rs]): the canned responses.
    - [Backpressure] ([backpressure.rs]): the non-blocking reception callback; the
      channel is the class [Mpsc] with [MpscLaws].
    - [Metrics], [HealthServer] ([metrics.rs]): registry with 64-bit wrap-around,
      connection guards, the exposition and one connection of the health endpoint; the
      accept loop around it ([serve_on]).  [Meters]: the relayed connections of a process
      on the registry they share.
    - [Transport] ([transport.rs]): readers and writers; [TransportWriterLaws] is
      what the relays rely on, and the TCP and WebSocket writers satisfy it.
    - [Dial] ([export/tcp.rs], [export/ws.rs]): dialling a backend, over the class
      [Backon] with [BackonLaws].
    - [ZenohUtil] ([zenoh_util.rs]): the publishing gate, the error signal and the task
      that holds it.
    - [Relay]: the two tasks that both planes spawn, as a step relation.  A task's
      state says at which await it stands; an event is the completion of an await or
      a call of the session, so a list of events is an interleaving.
    - [KeySpace]: every key expression of both planes.
    - [ImportBridge] ([import/bridge.rs], [bridge_import_connection]) and
      [ExportBridge] ([export/bridge.rs], [handle_client_bridge], [run_bridge],
      [run_client]): set-up, relay, join and outcome of one connection.
    - [Bus]: two nodes joined by a bus that keeps each side's order, delivers late and
      loses samples; what either promises the other is the class [BusSide] with
      [BusSideLaws].  [EndToEnd]: an import and an export of one connection on it.
    - [Election] ([export/election.rs]), [ExportLoop] ([export/bridge.rs],
      [run_export_loop], [serve_active], [drain_all_clients]): claims, the client
      table and the standby, serve and drain loop.  [Roster]: that loop with the client
      tokens of its scope and what the bus reports of them.  [Fleet]: any number of such
      loops that share a scope, with the claims on their way between them.  [Failover]:
      both in lock step; [Recovery]: the schedules on which all of that comes to rest.
      [ExportDrain]: how long the drain waits, and how long the
      teardown of each client takes.
    - [Heads] ([import/connection.rs]): reading an HTTP/1, HTTP/2 or TLS head; the
      parser library is the class [Flowscope] with [FlowscopeLaws].
    - [Routing] ([import/connection.rs], [auto.rs], [tls.rs], [ws.rs]): what a door
      decides for a connection, and [resolve_backend].
    - [Multiroute] ([import/multiroute.rs]): a keep-alive connection whose requests
      are routed one by one.  [RequestSetup]: the entities of one such
      request.  [Accounting]: what such a connection adds to the metrics.  [RequestPipe]:
      one exchange with its reception channel, on the [Bus] with an exported client.
    - [Accept] ([import/mod.rs], [listener.rs], [accept.rs]): which door a listener
      starts, the accept loop, its permits and its drain.  [Doors]: the mode runners
      between the two, which bind, report readiness and name each connection's handler.
      [Routed]: such a handler, the key space and both sides of the relay together.
      [TlsConfig] ([tls_config.rs]): the TLS material that decides whether a terminating
      listener starts.
    - [Exports] ([export/mod.rs]): the entry points of the export side and the start of
      its loop.
    - [Args] ([args.rs]): validation of the command line, and the specs, options and
      [BridgeConfig] taken from it.
    - [Main] ([main.rs]): start-up as a fallible function over [Args], [Logging] and
      [Config]; then the process as a step relation over its listeners, backends, health
      server, signals and timers.  [Drain]: the accept loop's timers against the
      budget that [Main] gives it.

    ** Theorems

    - Byte pipes.  [byte_pipe_prefix], [byte_pipe_exact]: over every interleaving of
      both bridges and the bus, what reaches one end is a selection of what the other
      end sent, in order; in byte-exact mode, as long as the connection was not reset and
      no loss went unreported, a prefix of it, and all of it when the pipe closes cleanly.
      [routed_connection_is_a_pipe]: the same from the first byte that a listener's handler
      reads, to the backend it routes the connection to; [request_pipe]: the same for one
      routed request.  Each side alone: [import_completed_exact],
      [export_completed_exact], and what either publishes ([import_publishes_faithfully], [export_publishes_faithfully]).
      [rx_stream_lossless] is the reception callback's part.
    - Routing.  [doors_route_soundly], [auto_tunnels_only_opaque],
      [resolve_backend_correct], [head_readers_faithful]: a relayed connection goes to
      the backend its own head names, with every byte that was read.
      [registration_matches_clients] ties the keys of clients, in any letter case, to those
      of operators; [connection_keys_isolated] keeps connections apart.
    - Requests.  [exchange_faithful], [multiroute_routes_each_request]: what one
      exchange moves in each direction, also when a write to the client breaks off; and that
      each request is served on the route of its own head, and how its end decides about
      the next.
    - Exporters.  [no_double_service]: only an elected exporter serves.
      [failover_settles]: a fleet and its clients that are left alone come to rest on every
      schedule, with exactly one exporter that serves, the one the election names, and a
      task there for every declared client.  [failover_keeps_clients]: what holds when the
      fleet has settled and changes of tokens are still on their way.
      [exporter_follows_clients], [one_task_per_client], [drain_leaves_nothing]: the
      client table against the tokens, the tasks and the drain.
    - Process.  [startup_outcome]: the first stage that fails decides a failed start, with
      all before it passed, and what a started process holds; [validated_args_start]: what
      validation establishes, which are lower bounds and no upper ones;
      [printed_args_agree].
      [readiness_truthful], [shutdown_ordered], [process_ends]: the readiness endpoint,
      the order of the shutdown, and that it ends whatever the tasks do.
    - Bounds.  [accept_loop_bounded], [serve_bounded], [listener_drains_in_budget],
      [drain_lets_clients_end], [dial_bounded], [request_setup_bounded],
      [error_signal_held].  [serve_bounded] also says what is not bounded: the writing of an
      answer.
    - Metrics.  [registry_adds_up]: the counters of a process are the sums of what its
      relayed connections did; an import's initial buffer is the one thing it publishes
      without counting.
    - Ends.  [head_readers_terminate]: a head read ends with its stream.
      [cancelled_client_finishes]: from every state after the cancel, a client's task can
      end by its own steps.  [import_error_signal_resets]: an error signal waits for its
      monitor, which is there, and from then on only a reset can come of the connection.
    - Beside these, as lemmas of their files: round trips of both specs and of metric
      labels, framing of the canned responses, the filter's levels, agreement of the
      export forms, [listener_reports_when_accepting], [between_requests_return],
      [elect_exactly_one], [wait_until_active_correct], [client_signals_unless_clean],
      [fleet_settles], [terminating_listener_starts], [sinks_built],
      [gauge_counts_live_connections], [attached_backend_serves_its_clients],
      [connection_accounted].

    Theorems outside this list record where the code departs from its intent:
    [ImportBridge.overflow_delivers_gap], [ExportBridge.export_completes_with_gap],
    [ExportBridge.reset_half_closes_backend], [KeySpace.host_called_clients],
    [Multiroute.Examples.response_tail_overwritten], [RequestSetup.unlike_a_connection],
    [Logging.Examples.appender_panics_past_the_probe],
    [Main.Examples.drain_timeout_panics], [Drain.export_drain_outlives_budget],
    [RequestPipe.Examples.lost_response_sample], [Roster.redelivered_put_redials],
    [ExportDrain.long_availability_loses_signal],
    [ExportDrain.stalled_setup_loses_signal].

    ** Modelling choices

    - Errors are values of [result]; an asynchronous function is a state with the
      await it stands at, and its oracle arguments are the results of the awaits.  A write
      that fails has written any part of its bytes.
    - An abort is a request: the task ends at its next await ([Accept]), or at the event
      that aborts it where nothing else is between ([Relay]).  What a task does after its
      last effect (logging, returning) is part of that step.
    - In the data planes time is an event (a deadline that passes), and no theorem
      depends on durations.  Where durations are the point ([HealthServer], [Dial],
      [ZenohUtil], [ExportDrain], [Main], [Drain]) there is a clock in milliseconds, and
      time never passes a timer that is due.
    - The bus.  Data samples of one key keep their order ([Bus]); they may be lost, and
      whether a loss was reported is part of the event.  The changes of one liveliness
      token keep their order and reach every subscriber that lives, those of different
      tokens may overtake each other; a query for tokens answers with those there are
      ([Fleet], [Roster]).
    - Counters are [N], wrapped at 64 bits where the source wraps; lengths of buffers
      are [nat] or [N].
    - Fuel.  [Heads.feed] has one unit per byte, and [feed_done] shows it enough;
      [scan_all] and [Multiroute.drain] have one per waiting event, by
      [event_measure]; the two loops between requests return with one unit per byte
      and read ([between_requests_return]); [gate_loop] returns given one query per
      millisecond ([gate_bounded]).  All other recursion is structural.
    - Libraries (tokio's channel, flowscope, Zenoh's key expressions, backon, rustls, the
      tracing filter, the Unicode case tables) are classes with laws; each is
      instantiated by a concrete function where a witness evaluates it.
    - A Unix path is its text; [Logging] writes out the component rules of [std::path].

    ** Not modelled

    The flag parser that clap generates; the bodies of the layers, sockets and sessions
    that other crates implement; the variants for other operating systems than Linux.
    Log lines and tracing spans are left out everywhere. *)

From stdpp Require Export prelude list strings gmap.
From Stdlib Require Export Ascii Lia ZArith NArith.

Declare Scope bridge_scope.
Delimit Scope bridge_scope with bridge.
Open Scope bridge_scope.

(** ** Fallible computations

    [anyhow::Result<T>]: the source's errors are values of a type [E] that names
    the place where the code returns them. *)
Inductive result (E A : Type) : Type :=
| Ok (a : A)
| Err (e : E).
Arguments Ok {E A} a.
Arguments Err {E A} e.

#[export] Instance result_ret E : MRet (result E) := fun A a => Ok a.
#[export] Instance result_bind E : MBind (result E) := fun A B f m =>
  match m with Ok a => f a | Err e => Err e end.
#[export] Instance result_fmap E : FMap (result E) := fun A B f m =>
  match m with Ok a => Ok (f a) | Err e => Err e end.
#[export] Instance result_eq_dec E A `{EqDecision E, EqDecision A} :
  EqDecision (result E A).
Proof. solve_decision. Defined.

(** [Option::ok_or_else] and [Result::map_err]. *)
Definition ok_or {E A} (o : option A) (e : E) : result E A :=
  match o with Some a => Ok a | None => Err e end.

Definition map_err {E F A} (f : E -> F) (m : result E A) : result F A :=
  match m with Ok a => Ok a | Err e => Err (f e) end.

Definition is_ok {E A} (m : result E A) : bool :=
  match m with Ok _ => true | Err _ => false end.

(** An early return: [if !b { return Err(e) }]. *)
Definition ensure {E} (b : bool) (e : E) : result E unit :=
  if b then Ok tt else Err e.

Lemma ok_or_Ok {E A} (o : option A) (e : E) a : ok_or o e = Ok a <-> o = Some a.
Proof. destruct o; simpl; split; congruence. Qed.

Lemma map_err_Ok {E F A} (f : E -> F) (m : result E A) a :
  map_err f m = Ok a <-> m = Ok a.
Proof. destruct m; simpl; split; congruence. Qed.

Lemma ensure_Ok {E} b (e : E) u : ensure b e = Ok u <-> b = true.
Proof. destruct b, u; simpl; split; congruence. Qed.

Lemma bind_Ok {E A B} (m : result E A) (f : A -> result E B) b :
  m ≫= f = Ok b <-> exists a, m = Ok a /\ f a = Ok b.
Proof.
  destruct m as [a|e]; cbn; split.
  - intros H; exists a; auto.
  - intros (a' & Ha & Hf); congruence.
  - discriminate.
  - intros (a' & Ha & _); discriminate.
Qed.

(** [iter().map(f).collect::<Result<Vec<_>>>()]: the first error wins. *)
Fixpoint collect {E A B} (f : A -> result E B) (l : list A) : result E (list B) :=
  match l with
  | [] => Ok []
  | x :: l' => y ← f x; ys ← collect f l'; Ok (y :: ys)
  end.

Lemma collect_Ok {E A B} (f : A -> result E B) l ys :
  collect f l = Ok ys <-> Forall2 (fun x y => f x = Ok y) l ys.
Proof.
  revert ys. induction l as [|x l IH]; intros ys; simpl.
  - split; [intros [= <-]; constructor | inversion 1; done].
  - rewrite bind_Ok. setoid_rewrite bind_Ok. setoid_rewrite IH. split.
    + intros (y & Hy & ys' & Hys & [= <-]). by constructor.
    + inversion 1; subst. eauto 10.
Qed.

(** ** Runs of an executable transition function

    A concurrent component is an executable step: [step s e = Some s'] when the
    event [e] is enabled in [s].  The environment (sockets, the bus, the timer,
    the scheduler) chooses the events. *)
Section Runs.
Context {S E : Type} (step : S -> E -> option S).

Fixpoint run (s : S) (es : list E) : option S :=
  match es with
  | [] => Some s
  | e :: es' => s' ← step s e; run s' es'
  end.

Inductive reachable (s0 : S) : S -> Prop :=
| reach_init : reachable s0 s0
| reach_step s e s' : reachable s0 s -> step s e = Some s' -> reachable s0 s'.

Lemma run_app s es1 es2 : run s (es1 ++ es2) = (s' ← run s es1; run s' es2).
Proof.
  revert s. induction es1 as [|e es1 IH]; intros s; simpl; [done|].
  destruct (step s e); simpl; auto.
Qed.

Lemma run_snoc s es e : run s (es ++ [e]) = (s' ← run s es; step s' e).
Proof.
  rewrite run_app. destruct (run s es) as [s'|]; simpl; [|done].
  by destruct (step s' e).
Qed.

Lemma run_reachable s0 es s : run s0 es = Some s -> reachable s0 s.
Proof.
  revert s. induction es as [|e es IH] using rev_ind; intros s.
  - intros [= <-]. constructor.
  - rewrite run_snoc. intros (s' & Hs' & He)%bind_Some.
    econstructor; eauto.
Qed.

Lemma reachable_run s0 s : reachable s0 s -> exists es, run s0 es = Some s.
Proof.
  induction 1 as [|s e s' _ [es Hes] He]; [by exists []|].
  exists (es ++ [e]). by rewrite run_snoc, Hes.
Qed.

(** Rule induction on reachability, as the components use it. *)
Lemma reachable_invariant (P : S -> Prop) s0 :
  P s0 -> (forall s e s', P s -> step s e = Some s' -> P s') ->
  forall s, reachable s0 s -> P s.
Proof. intros H0 Hstep s. induction 1; eauto. Qed.

Lemma run_invariant (P : S -> Prop) s0 :
  P s0 -> (forall s e s', P s -> step s e = Some s' -> P s') ->
  forall es s, run s0 es = Some s -> P s.
Proof.
  intros H0 Hstep es s Hr%run_reachable.
  by apply (reachable_invariant P s0).
Qed.

(** Every step lowers a measure: runs are no longer than the measure. *)
Lemma run_measure (m : S -> nat) s es s' :
  (forall s e s', step s e = Some s' -> m s' < m s) ->
  run s es = Some s' -> length es + m s' <= m s.
Proof.
  intros Hm. revert s. induction es as [|e es IH]; intros s; simpl.
  - intros [= <-]. lia.
  - intros (s1 & H1 & Hr)%bind_Some. apply Hm in H1. apply IH in Hr. lia.
Qed.
End Runs.

(** No execution of [R] goes on for ever from where [P] holds, when every step keeps [P]
    and lowers a measure in a well-founded order. *)
Lemma sn_measure {A B} (R : relation A) (P : A -> Prop) (order : relation B) (m : A -> B) :
  well_founded order -> (forall x y, P x -> R x y -> P y /\ order (m y) (m x)) -> forall x, P x -> sn R x.
Proof.
  intros Hwf HR x. remember (m x) as b eqn:E. revert x E. induction (Hwf b) as [b _ IH]. intros x -> Hx.
  constructor. intros y Hy. destruct (HR x y Hx Hy) as [HP Hlt]. by eapply IH.
Qed.

(** Lexicographic pairs of numbers. *)
Definition lex {A B} (ra : relation A) (rb : relation B) : relation (A * B) :=
  fun p q => ra p.1 q.1 \/ p.1 = q.1 /\ rb p.2 q.2.

Lemma lex_wf {A B} (ra : relation A) (rb : relation B) : well_founded ra -> well_founded rb -> well_founded (lex ra rb).
Proof.
  intros Ha Hb [a b]. revert b. induction (Ha a) as [a _ IHa]. intros b. induction (Hb b) as [b _ IHb].
  constructor. intros [a' b'] [Hlt|[E Hlt]]; simpl in *; [by apply IHa|]. subst. by apply IHb.
Qed.

(** ** Tactics *)

(** Split the boolean guards and monadic binds of a hypothesis. *)
Ltac inv_guards :=
  repeat match goal with
  | H : _ ≫= _ = Ok _ |- _ =>
      apply bind_Ok in H; let a := fresh "a" in let Ha := fresh "Ha" in
      destruct H as (a & Ha & H)
  | H : mbind _ _ = Some _ |- _ =>
      apply bind_Some in H; let a := fresh "a" in let Ha := fresh "Ha" in
      destruct H as (a & Ha & H)
  | H : ok_or _ _ = Ok _ |- _ => apply ok_or_Ok in H
  | H : map_err _ _ = Ok _ |- _ => apply map_err_Ok in H
  | H : ensure _ _ = Ok _ |- _ => apply ensure_Ok in H
  | H : Ok _ = Ok _ |- _ => injection H as H
  | H : Some _ = Some _ |- _ => injection H as H
  | H : Err _ = Ok _ |- _ => discriminate H
  | H : None = Some _ |- _ => discriminate H
  | H : _ && _ = true |- _ => apply andb_prop in H as [??]
  | H : negb _ = true |- _ => apply negb_true_iff in H
  | H : bool_decide _ = true |- _ => apply bool_decide_eq_true in H
  | H : bool_decide _ = false |- _ => apply bool_decide_eq_false in H
  end.

(** Case analysis on the discriminees of a hypothesis, closing the impossible
    branches. *)
Ltac crush_step H :=
  repeat (case_match; simplify_eq/=; inv_guards; simplify_eq/=; try done).

(** Open the pairs that a tuple-binding [let] left in the context. *)
Ltac destruct_and_pairs :=
  repeat match goal with p : (_ * _)%type |- _ => destruct p end.

(** Runs together with the events that produced them. *)
Section History.
Context {S E : Type} (step : S -> E -> option S).

Lemma run_history_invariant (P : list E -> S -> Prop) s0 :
  P [] s0 ->
  (forall es s e s', run step s0 es = Some s -> P es s -> step s e = Some s' -> P (es ++ [e]) s') ->
  forall es s, run step s0 es = Some s -> P es s.
Proof.
  intros H0 Hstep es. induction es as [|e es IH] using rev_ind; intros s.
  - by intros [= <-].
  - rewrite run_snoc. intros (s' & Hs' & He)%bind_Some. eauto.
Qed.
End History.

(** ** Sequences of chunks *)

(** The data chunks before the first empty one, which is the end-of-stream marker. *)
Fixpoint until_eof {A} (l : list (list A)) : list (list A) :=
  match l with
  | [] => []
  | [] :: _ => []
  | x :: l' => x :: until_eof l'
  end.

Definition no_eof {A} (l : list (list A)) : Prop := Forall (fun x => x <> []) l.

Lemma until_eof_no_eof {A} (l : list (list A)) : no_eof (until_eof l).
Proof. induction l as [|[|x y] l IH]; constructor; try done. Qed.

Lemma until_eof_id {A} (l : list (list A)) : no_eof l -> until_eof l = l.
Proof. induction 1 as [|x l Hx _ IH]; simpl; [done|]. destruct x; [done|]. by rewrite IH. Qed.

Lemma until_eof_app {A} (l k : list (list A)) :
  no_eof l -> until_eof (l ++ k) = l ++ until_eof k.
Proof. induction 1 as [|x l Hx _ IH]; simpl; [done|]. destruct x; [done|]. by rewrite IH. Qed.

Lemma until_eof_marker {A} (l k : list (list A)) : no_eof l -> until_eof (l ++ [] :: k) = l.
Proof. intros H. rewrite until_eof_app by done. simpl. by rewrite app_nil_r. Qed.

Lemma concat_snoc {A} (l : list (list A)) x : concat (l ++ [x]) = concat l ++ x.
Proof. rewrite concat_app. simpl. by rewrite app_nil_r. Qed.
