(* ===== verification/Text.v ===== *)
(** * Text: the parts of Rust's [str], [String] and integer formatting that the
    bridge uses

    A Rust [str] is its UTF-8 byte sequence, here a list of bytes.  Every pattern
    the source searches for is ASCII, and no byte of a multi-byte UTF-8 character
    is below 128, so splitting, counting and prefix tests on characters are the
    same tests on bytes. *)

From S2P Require Import Prelude.

Abbreviation str := (list ascii).
Abbreviation bytes := (list ascii).

Definition lit (s : string) : str := String.list_ascii_of_string s.
Coercion lit : string >-> list.

Create HintDb text discriminated.
Create Rewrite HintDb text.

(** ** Characters *)

Definition code (c : ascii) : N := N_of_ascii c.

Definition in_range (lo hi : ascii) (c : ascii) : bool :=
  (code lo <=? code c)%N && (code c <=? code hi)%N.

Definition is_ascii_digit (c : ascii) : bool := in_range "0" "9" c.
Definition is_ascii_lower (c : ascii) : bool := in_range "a" "z" c.
Definition is_ascii_upper (c : ascii) : bool := in_range "A" "Z" c.
Definition is_ascii_alphanumeric (c : ascii) : bool :=
  is_ascii_digit c || is_ascii_lower c || is_ascii_upper c.
Definition is_ascii_char (c : ascii) : bool := (code c <? 128)%N.
Definition is_ascii (s : str) : bool := forallb is_ascii_char s.

(** [to_ascii_lowercase] on one byte. *)
Definition ascii_lower (c : ascii) : ascii :=
  if is_ascii_upper c then ascii_of_N (code c + 32) else c.

(** [char::to_digit(radix)] for radix 10 and 16. *)
Definition digit_value (c : ascii) : option N :=
  if is_ascii_digit c then Some (code c - 48)%N
  else if is_ascii_lower c then Some (code c - 87)%N
  else if is_ascii_upper c then Some (code c - 55)%N
  else None.

Definition to_digit (radix : N) (c : ascii) : option N :=
  v ← digit_value c; if (v <? radix)%N then Some v else None.

(** The digit of a value below 16, lower case as [{:x}] prints it. *)
Definition digit_char (d : N) : ascii :=
  if (d <? 10)%N then ascii_of_N (48 + d) else ascii_of_N (87 + d).

(** A property of all 256 bytes, checked by evaluation. *)
Definition all_ascii : list ascii := ascii_of_nat <$> seq 0 256.

Lemma forall_ascii (P : ascii -> Prop) `{!forall c, Decision (P c)} :
  forallb (fun c => bool_decide (P c)) all_ascii = true -> forall c, P c.
Proof.
  rewrite forallb_forall. intros Hall c. apply (bool_decide_eq_true_1 (P c)), Hall.
  rewrite <- (ascii_nat_embedding c). apply in_map, in_seq.
  pose proof (nat_ascii_bounded c). lia.
Qed.

(** Decide a statement about one byte by evaluating it at all of them. *)
Ltac by_bytes :=
  match goal with
  | |- forall c : ascii, @?P c => apply (forall_ascii P); vm_compute; reflexivity
  end.

Lemma ascii_lower_idemp : forall c, ascii_lower (ascii_lower c) = ascii_lower c.
Proof. by_bytes. Qed.

Lemma ascii_lower_alnum :
  forall c, is_ascii_alphanumeric (ascii_lower c) = is_ascii_alphanumeric c.
Proof. by_bytes. Qed.

Lemma small_N (n : N) (k : nat) : (n < N.of_nat k)%N -> In n (N.of_nat <$> seq 0 k).
Proof.
  intros H. apply list_elem_of_In, list_elem_of_fmap. exists (N.to_nat n).
  rewrite N2Nat.id, elem_of_seq. split; [done | lia].
Qed.

Lemma digit_value_char d : (d < 16)%N -> digit_value (digit_char d) = Some d.
Proof.
  intros H%(small_N _ 16). revert d H. apply List.Forall_forall.
  repeat constructor.
Qed.

Lemma digit_char_to_digit radix d :
  (d < radix)%N -> (radix <= 16)%N -> to_digit radix (digit_char d) = Some d.
Proof.
  intros Hd Hr. unfold to_digit. rewrite digit_value_char by lia. simpl.
  by rewrite (proj2 (N.ltb_lt _ _) Hd).
Qed.

(** ** White space

    [char::is_whitespace], on the UTF-8 bytes of one character. *)
Definition is_whitespace (c : ascii) : bool :=
  existsb (Ascii.eqb c) (ascii_of_N <$> [9; 10; 11; 12; 13; 32]%N).

Definition is_whitespace2 (c d : ascii) : bool :=
  (code c =? 194)%N && ((code d =? 133)%N || (code d =? 160)%N).

Definition is_whitespace3 (c d e : ascii) : bool :=
  let tail x y := (code d =? x)%N && (code e =? y)%N in
  ((code c =? 225)%N && tail 154%N 128%N) ||
  ((code c =? 226)%N &&
     ((code d =? 128)%N && ((128 <=? code e)%N && (code e <=? 138)%N) ||
      tail 128%N 168%N || tail 128%N 169%N || tail 128%N 175%N || tail 129%N 159%N)) ||
  ((code c =? 227)%N && tail 128%N 128%N).

(** [s.trim_start()]. *)
Fixpoint trim_start (s : str) : str :=
  match s with
  | [] => []
  | c :: s1 =>
      if is_whitespace c then trim_start s1
      else match s1 with
           | [] => s
           | d :: s2 =>
               if is_whitespace2 c d then trim_start s2
               else match s2 with
                    | [] => s
                    | e :: s3 => if is_whitespace3 c d e then trim_start s3 else s
                    end
           end
  end.

(** [s.trim_end()], on the reversed bytes. *)
Fixpoint trim_end_rev (s : str) : str :=
  match s with
  | [] => []
  | c :: s1 =>
      if is_whitespace c then trim_end_rev s1
      else match s1 with
           | [] => s
           | d :: s2 =>
               if is_whitespace2 d c then trim_end_rev s2
               else match s2 with
                    | [] => s
                    | e :: s3 => if is_whitespace3 e d c then trim_end_rev s3 else s
                    end
           end
  end.

Definition trim (s : str) : str := rev (trim_end_rev (rev (trim_start s))).

(** [s.split_whitespace()]. *)
Fixpoint words_aux (acc : str) (s : str) : list str :=
  let word := if decide (acc = []) then [] else [acc] in
  match s with
  | [] => word
  | c :: s1 =>
      if is_whitespace c then word ++ words_aux [] s1
      else match s1 with
           | [] => [acc ++ [c]]
           | d :: s2 =>
               if is_whitespace2 c d then word ++ words_aux [] s2
               else match s2 with
                    | [] => words_aux (acc ++ [c]) s1
                    | e :: s3 =>
                        if is_whitespace3 c d e then word ++ words_aux [] s3
                        else words_aux (acc ++ [c]) s1
                    end
           end
  end.

Definition split_whitespace (s : str) : list str := words_aux [] s.

(** ** Searching *)

Definition count_char (c : ascii) (s : str) : nat := length (List.filter (fun x => Ascii.eqb x c) s).

Definition contains_char (c : ascii) (s : str) : bool := existsb (fun x => Ascii.eqb x c) s.

(** [s.split_once(c)]: at the first occurrence. *)
Fixpoint split_once (c : ascii) (s : str) : option (str * str) :=
  match s with
  | [] => None
  | x :: s' =>
      if Ascii.eqb x c then Some ([], s')
      else match split_once c s' with
           | Some (a, b) => Some (x :: a, b)
           | None => None
           end
  end.

(** [s.split(c)]: always at least one part. *)
Fixpoint split (c : ascii) (s : str) : str * list str :=
  match s with
  | [] => ([], [])
  | x :: s' =>
      let (h, t) := split c s' in
      if Ascii.eqb x c then ([], h :: t) else (x :: h, t)
  end.

Definition split_list (c : ascii) (s : str) : list str :=
  let (h, t) := split c s in h :: t.

(** [s.rsplit(c).next()]: the text after the last occurrence. *)
Definition rsplit_first (c : ascii) (s : str) : str :=
  default [] (last (split_list c s)).

(** [s.strip_prefix(p)] and [s.starts_with(p)]. *)
Fixpoint strip_prefix (p s : str) : option str :=
  match p, s with
  | [], _ => Some s
  | x :: p', y :: s' => if Ascii.eqb x y then strip_prefix p' s' else None
  | _ :: _, [] => None
  end.

Definition starts_with (p s : str) : bool :=
  match strip_prefix p s with Some _ => true | None => false end.

(** [[a, b, c].join(sep)] with a one-byte separator. *)
Fixpoint join (c : ascii) (h : str) (t : list str) : str :=
  match t with
  | [] => h
  | x :: t' => h ++ c :: join c x t'
  end.

Lemma contains_char_elem c s : contains_char c s = true <-> c ∈ s.
Proof.
  unfold contains_char. rewrite existsb_exists. setoid_rewrite Ascii.eqb_eq.
  rewrite list_elem_of_In. split; [intros (? & ? & ->)|]; eauto.
Qed.

Lemma contains_char_not_elem c s : contains_char c s = false <-> c ∉ s.
Proof. rewrite <- contains_char_elem. by destruct (contains_char c s). Qed.

Lemma split_once_Some c s a b :
  split_once c s = Some (a, b) <-> s = a ++ c :: b /\ c ∉ a.
Proof.
  revert a b. induction s as [|x s IH]; intros a b; simpl.
  - split; [done|]. intros [H _]. by destruct a.
  - destruct (Ascii.eqb_spec x c) as [->|Hx].
    + split.
      * intros [= <- <-]. split; [done | by apply not_elem_of_nil].
      * intros [H Ha]. destruct a as [|y a]; simplify_eq/=; [done|].
        by apply not_elem_of_cons in Ha as [[] _].
    + destruct (split_once c s) as [[a' b']|] eqn:Hs; split.
      * intros [= <- <-].
        destruct (proj1 (IH a' b') eq_refl) as [-> Ha']. split; [done|].
        rewrite not_elem_of_cons. auto.
      * intros [H Ha]. destruct a as [|y a]; simplify_eq/=.
        apply not_elem_of_cons in Ha as [_ Ha].
        by pose proof (proj2 (IH a b) (conj eq_refl Ha)) as [= -> ->].
      * done.
      * intros [H Ha]. destruct a as [|y a]; simplify_eq/=.
        apply not_elem_of_cons in Ha as [_ Ha].
        pose proof (proj2 (IH a b) (conj eq_refl Ha)). done.
Qed.

Lemma split_once_app c a b : c ∉ a -> split_once c (a ++ c :: b) = Some (a, b).
Proof. intros. by apply split_once_Some. Qed.

Lemma split_once_None c s : split_once c s = None <-> c ∉ s.
Proof.
  induction s as [|x s IH]; simpl; [split; [intros _; apply not_elem_of_nil | done]|].
  rewrite not_elem_of_cons.
  destruct (Ascii.eqb_spec x c) as [->|Hx]; [split; [done | by intros [[] _]]|].
  destruct (split_once c s) as [[??]|]; split; try done.
  - intros [_ H]. by apply IH in H.
  - intros _. split; [done | by apply IH].
Qed.

Lemma split_app c a s :
  c ∉ a -> split c (a ++ c :: s) = (a, fst (split c s) :: snd (split c s)).
Proof.
  induction a as [|x a IH]; simpl; intros Ha.
  - destruct (split c s). by rewrite Ascii.eqb_refl.
  - apply not_elem_of_cons in Ha as [Hx Ha]. rewrite IH by done.
    by rewrite (proj2 (Ascii.eqb_neq x c)).
Qed.

Lemma split_none c s : c ∉ s -> split c s = (s, []).
Proof.
  induction s as [|x s IH]; simpl; [done|]. intros [Hx Hs]%not_elem_of_cons.
  rewrite IH by done. by rewrite (proj2 (Ascii.eqb_neq x c)).
Qed.

Lemma split_join c h t :
  c ∉ h -> Forall (fun x => c ∉ x) t -> split c (join c h t) = (h, t).
Proof.
  revert h. induction t as [|x t IH]; intros h Hh Ht; simpl.
  - by apply split_none.
  - inversion_clear Ht. by rewrite split_app, IH.
Qed.

Lemma join_split c s : join c (fst (split c s)) (snd (split c s)) = s.
Proof.
  induction s as [|x s IH]; simpl; [done|].
  destruct (split c s) as [h t]; simpl in *.
  destruct (Ascii.eqb_spec x c) as [->|Hx]; simpl; [by rewrite IH|].
  by destruct t; simpl in *; rewrite IH.
Qed.

(** No part of a split holds the separator. *)
Lemma split_parts c s : Forall (fun x => c ∉ x) (split_list c s).
Proof.
  unfold split_list. induction s as [|x s IH]; simpl.
  - repeat constructor. apply not_elem_of_nil.
  - destruct (split c s) as [h t]. inversion_clear IH.
    destruct (Ascii.eqb_spec x c) as [->|Hx]; constructor; auto.
    + apply not_elem_of_nil.
    + set_solver.
Qed.

Lemma split_list_snoc c a b : c ∉ b -> split_list c (a ++ c :: b) = split_list c a ++ [b].
Proof.
  intros Hb. unfold split_list. induction a as [|x a IH]; simpl.
  - by rewrite (split_none c b), Ascii.eqb_refl by done.
  - destruct (split c (a ++ c :: b)) as [h t], (split c a) as [h' t']. simplify_eq/=.
    by destruct (Ascii.eqb x c).
Qed.

Lemma split_last c a b :
  c ∉ b -> last (split_list c (a ++ c :: b)) = Some b.
Proof. intros Hb. by rewrite split_list_snoc, last_snoc. Qed.

Lemma rsplit_first_app c a b : c ∉ b -> rsplit_first c (a ++ c :: b) = b.
Proof. intros H. unfold rsplit_first. by rewrite split_last. Qed.

Lemma strip_prefix_Some p s r : strip_prefix p s = Some r <-> s = p ++ r.
Proof.
  revert s. induction p as [|x p IH]; intros s; simpl.
  - split; congruence.
  - destruct s as [|y s]; [done|]. destruct (Ascii.eqb_spec x y) as [->|Hx].
    + rewrite IH. split; congruence.
    + split; congruence.
Qed.

Lemma strip_prefix_app p r : strip_prefix p (p ++ r) = Some r.
Proof. by apply strip_prefix_Some. Qed.

Lemma starts_with_app p r : starts_with p (p ++ r) = true.
Proof. unfold starts_with. by rewrite strip_prefix_app. Qed.

Lemma starts_with_ne c p x s : c <> x -> starts_with (c :: p) (x :: s) = false.
Proof.
  intros H. unfold starts_with. cbn [strip_prefix].
  by rewrite (proj2 (Ascii.eqb_neq c x) H).
Qed.

Lemma starts_with_spec p s : starts_with p s = true <-> exists r, s = p ++ r.
Proof.
  unfold starts_with. destruct (strip_prefix p s) as [r|] eqn:H.
  - apply strip_prefix_Some in H. naive_solver.
  - split; [done|]. intros [r ->]. by rewrite strip_prefix_app in H.
Qed.

#[export] Hint Rewrite strip_prefix_app starts_with_app : text.
#[export] Hint Resolve split_once_app rsplit_first_app split_join : text.

(** ** Integers

    [Display] of an unsigned integer in base [radix] ([{}] and [{:x}]): digits of
    the quotient, then the last digit.  The fuel bounds the number of digits by
    the number of bits. *)
Section Radix.
Context (radix : N) (Hradix : (2 <= radix <= 16)%N).

Fixpoint show_aux (fuel : nat) (n : N) : str :=
  match fuel with
  | 0 => []
  | S f =>
      if (n <? radix)%N then [digit_char n]
      else show_aux f (n / radix)%N ++ [digit_char (n mod radix)]
  end.

Definition show_radix (n : N) : str := show_aux (S (N.to_nat (N.log2 n))) n.

(** Reading digits up to the first character that is not one; [None] when
    there is no digit at all. *)
Definition push_digit (acc : option N) (c : ascii) : option N :=
  a ← acc; d ← to_digit radix c; Some (a * radix + d)%N.

Definition parse_digits (s : str) : option N :=
  match s with [] => None | _ => foldl push_digit (Some 0%N) s end.

Lemma log2_div_lt n : (radix <= n)%N -> (N.log2 (n / radix) < N.log2 n)%N.
Proof.
  intros H. assert (n / radix <= n / 2)%N as Hle by (apply N.div_le_compat_l; lia).
  apply N.log2_le_mono in Hle.
  assert (N.log2 (n / 2) = N.pred (N.log2 n))%N as E.
  { rewrite <- (N.div2_div n), N.div2_spec, N.log2_shiftr. lia. }
  assert (1 <= N.log2 n)%N by (apply (N.log2_le_mono 2); lia). lia.
Qed.

Lemma show_aux_fuel f g n :
  N.to_nat (N.log2 n) < f -> N.to_nat (N.log2 n) < g -> show_aux f n = show_aux g n.
Proof using Hradix.
  revert g n. induction f as [|f IH]; intros [|g] n Hf Hg; try lia. simpl.
  destruct (N.ltb_spec n radix); [done|]. pose proof (log2_div_lt n ltac:(done)).
  rewrite (IH g) by lia. done.
Qed.

Lemma show_small n : (n < radix)%N -> show_radix n = [digit_char n].
Proof. intros H. unfold show_radix. simpl. by rewrite (proj2 (N.ltb_lt _ _) H). Qed.

Lemma show_step n :
  (radix <= n)%N -> show_radix n = show_radix (n / radix) ++ [digit_char (n mod radix)].
Proof using Hradix.
  intros H. unfold show_radix at 1. simpl. rewrite (proj2 (N.ltb_ge _ _) H).
  pose proof (log2_div_lt n H). unfold show_radix. f_equal. apply show_aux_fuel; lia.
Qed.

(** Induction along the digits. *)
Lemma digits_ind (P : N -> Prop) :
  (forall n, (n < radix)%N -> P n) ->
  (forall n, (radix <= n)%N -> P (n / radix)%N -> P n) -> forall n, P n.
Proof using Hradix.
  intros H0 H1 n. induction n as [n IH] using (well_founded_induction N.lt_wf_0).
  destruct (N.lt_ge_cases n radix) as [H|H]; [by apply H0|].
  apply H1; [done|]. apply IH. apply N.div_lt; lia.
Qed.

Lemma show_digits n : Forall (fun c => is_Some (to_digit radix c)) (show_radix n).
Proof using Hradix.
  induction n as [n H|n H IH] using digits_ind.
  - rewrite show_small by done. constructor; [|constructor].
    rewrite digit_char_to_digit by lia. eauto.
  - rewrite show_step by done. apply Forall_app. split; [done|].
    constructor; [|constructor]. pose proof (N.mod_lt n radix).
    rewrite digit_char_to_digit by lia. eauto.
Qed.

Lemma show_nonempty n : show_radix n <> [].
Proof using Hradix.
  destruct (N.lt_ge_cases n radix) as [H|H].
  - by rewrite show_small.
  - rewrite show_step by done. by destruct (show_radix (n / radix)).
Qed.

Lemma fold_show n : foldl push_digit (Some 0%N) (show_radix n) = Some n.
Proof using Hradix.
  induction n as [n H|n H IH] using digits_ind.
  - rewrite show_small by done. simpl. unfold push_digit. simpl.
    by rewrite digit_char_to_digit by lia.
  - rewrite show_step by done. rewrite foldl_app, IH. simpl. unfold push_digit. simpl.
    pose proof (N.mod_lt n radix). rewrite digit_char_to_digit by lia. simpl.
    f_equal. pose proof (N.div_mod n radix). lia.
Qed.

Lemma parse_show n : parse_digits (show_radix n) = Some n.
Proof using Hradix.
  unfold parse_digits. pose proof (show_nonempty n). pose proof (fold_show n).
  by destruct (show_radix n).
Qed.

(** A printed number does not start with 0 unless it is 0. *)
Lemma show_head n c l : show_radix n = c :: l -> c = digit_char 0 -> n = 0%N.
Proof using Hradix.
  revert c l. induction n as [n H|n H IH] using digits_ind; intros c l Hs ->.
  - rewrite show_small in Hs by done. injection Hs as Hs _.
    assert (Some n = Some 0%N) as [= ->]; [|done].
    rewrite <- (digit_value_char n), <- (digit_value_char 0) by lia. by rewrite Hs.
  - rewrite show_step in Hs by done. pose proof (show_nonempty (n / radix)).
    destruct (show_radix (n / radix)) as [|x s] eqn:E; [done|]. injection Hs as -> _.
    pose proof (IH _ _ eq_refl eq_refl) as Hz. apply N.div_small_iff in Hz; lia.
Qed.

Lemma show_length_le k n : (n < radix ^ N.of_nat k)%N -> 0 < k -> length (show_radix n) <= k.
Proof using Hradix.
  revert n. induction k as [|k IH]; intros n Hn Hk; [lia|].
  destruct (N.lt_ge_cases n radix) as [H|H].
  - rewrite show_small by done. simpl. lia.
  - rewrite show_step by done. rewrite length_app. simpl.
    destruct k as [|k]; [simpl in Hn; rewrite N.pow_1_r in Hn; lia|].
    assert (length (show_radix (n / radix)) <= S k); [|lia].
    apply IH; [|lia]. apply N.Div0.div_lt_upper_bound.
    rewrite Nat2N.inj_succ, N.pow_succ_r' in Hn. lia.
Qed.
End Radix.

Definition show_N (n : N) : str := show_radix 10 n.
Definition show_nat (n : nat) : str := show_N (N.of_nat n).
Definition show_hex (n : N) : str := show_radix 16 n.

(** [s.parse::<uN>()]: an optional ['+'], at least one digit, no overflow. *)
Definition parse_uint (max : N) (s : str) : option N :=
  let body := match s with
              | c :: s' => if Ascii.eqb c "+" then s' else s
              | [] => s
              end in
  v ← parse_digits 10 body; if (v <=? max)%N then Some v else None.

Definition u16_max : N := 65535.
Definition u32_max : N := 4294967295.
Definition parse_u16 : str -> option N := parse_uint u16_max.

Lemma digit_not_plus radix c : is_Some (to_digit radix c) -> c <> "+"%char.
Proof. intros [d Hd] ->. by vm_compute in Hd. Qed.

Lemma parse_uint_show max n : (n <= max)%N -> parse_uint max (show_N n) = Some n.
Proof.
  intros Hn. unfold parse_uint, show_N. pose proof (show_digits 10 ltac:(lia) n) as Hd.
  destruct (show_radix 10 n) as [|c s] eqn:E; [by apply show_nonempty in E; [|lia]|].
  inversion Hd as [|?? Hc _]; subst.
  rewrite (proj2 (Ascii.eqb_neq c "+")) by (by eapply digit_not_plus).
  rewrite <- E, parse_show by lia. simpl. by rewrite (proj2 (N.leb_le _ _) Hn).
Qed.

Lemma show_N_inj n m : show_N n = show_N m -> n = m.
Proof.
  intros H. assert (Some n = Some m) as [= ->]; [|done].
  rewrite <- (parse_show 10 ltac:(lia) n), <- (parse_show 10 ltac:(lia) m).
  unfold show_N in H. by rewrite H.
Qed.

Lemma show_N_digits n : Forall (fun c => is_ascii_digit c = true) (show_N n).
Proof.
  eapply Forall_impl; [apply (show_digits 10); lia|].
  intros c. unfold is_Some. revert c.
  assert (forall c, bool_decide (to_digit 10 c = None) || is_ascii_digit c = true) as H by by_bytes.
  intros c [d Hd]. specialize (H c). apply orb_prop in H as [H|H]; [|done].
  apply bool_decide_eq_true in H. congruence.
Qed.

(** A character that is no digit does not occur in a printed integer. *)
Lemma show_N_not_in c n : is_ascii_digit c = false -> c ∉ show_N n.
Proof.
  intros Hc Hin. pose proof (show_N_digits n) as H.
  rewrite Forall_forall in H. apply H in Hin. congruence.
Qed.
#[export] Hint Resolve show_N_not_in : text.

(** ** The byte order of strings *)

(** [Ord] on [str]: lexicographic on bytes. *)
Fixpoint str_compare (a b : str) : comparison :=
  match a, b with
  | [], [] => Eq
  | [], _ :: _ => Lt
  | _ :: _, [] => Gt
  | x :: a', y :: b' =>
      match (code x ?= code y)%N with
      | Eq => str_compare a' b'
      | r => r
      end
  end.

(** First by one comparison, then by the next. *)
Definition then_cmp (r s : comparison) : comparison :=
  match r with Eq => s | _ => r end.

Definition str_lt (a b : str) : Prop := str_compare a b = Lt.

Lemma code_inj x y : code x = code y -> x = y.
Proof.
  intros H. rewrite <- (ascii_N_embedding x), <- (ascii_N_embedding y). by f_equal.
Qed.

Lemma str_compare_refl a : str_compare a a = Eq.
Proof. induction a; simpl; [done|]. by rewrite N.compare_refl. Qed.

Lemma str_compare_eq a b : str_compare a b = Eq <-> a = b.
Proof.
  split; [|intros ->; apply str_compare_refl].
  revert b. induction a as [|x a IH]; intros [|y b]; simpl; try done.
  destruct (N.compare_spec (code x) (code y)) as [H|H|H]; try done.
  apply code_inj in H as ->. intros H. f_equal. by apply IH.
Qed.

Lemma str_compare_antisym a b : str_compare b a = CompOpp (str_compare a b).
Proof.
  revert b. induction a as [|x a IH]; intros [|y b]; simpl; try done.
  rewrite N.compare_antisym. destruct (code x ?= code y)%N; simpl; auto.
Qed.

Lemma str_lt_trans a b c : str_lt a b -> str_lt b c -> str_lt a c.
Proof.
  unfold str_lt. revert b c.
  induction a as [|x a IH]; intros [|y b] [|z c]; simpl; try done.
  destruct (N.compare_spec (code x) (code y)), (N.compare_spec (code y) (code z)),
    (N.compare_spec (code x) (code z)); try done; try lia; eauto.
Qed.

#[export] Instance str_lt_strict : StrictOrder str_lt.
Proof.
  split.
  - intros a. red. unfold str_lt. by rewrite str_compare_refl.
  - intros a b c. apply str_lt_trans.
Qed.

#[export] Instance str_lt_dec : RelDecision str_lt.
Proof. intros a b. unfold str_lt. solve_decision. Defined.

Lemma str_lt_total a b : str_lt a b \/ a = b \/ str_lt b a.
Proof.
  unfold str_lt. rewrite (str_compare_antisym a b), <- str_compare_eq.
  destruct (str_compare a b); auto.
Qed.

Lemma str_compare_app a b x y :
  length a = length b ->
  str_compare (a ++ x) (b ++ y) = then_cmp (str_compare a b) (str_compare x y).
Proof.
  revert b. induction a as [|u a IH]; intros [|v b] H; simplify_eq/=; [done|].
  destruct (code u ?= code v)%N; [auto|done|done].
Qed.

(** [{:0w$}]: pad with zeros on the left. *)
Definition pad_zero (w : nat) (s : str) : str := replicate (w - length s) "0"%char ++ s.

(** The [k] low decimal digits of a number. *)
Fixpoint fixed_dec (k : nat) (n : N) : str :=
  match k with
  | 0 => []
  | S k' => fixed_dec k' (n / 10) ++ [digit_char (n mod 10)]
  end.

Lemma fixed_dec_length k n : length (fixed_dec k n) = k.
Proof. revert n. induction k; intros n; simpl; [done|]. rewrite length_app, IHk. simpl. lia. Qed.

Lemma fixed_dec_zero k : fixed_dec k 0 = replicate k "0"%char.
Proof.
  induction k as [|k IH]; [done|]. simpl fixed_dec.
  change (0 / 10)%N with 0%N. rewrite IH. by rewrite <- replicate_S_end.
Qed.

Lemma pad_show k n :
  (n < 10 ^ N.of_nat k)%N -> 0 < k -> pad_zero k (show_N n) = fixed_dec k n.
Proof.
  revert n. induction k as [|k IH]; intros n Hn Hk; [lia|].
  assert (length (show_N n) <= S k) as Hlen by (by apply show_length_le; [lia|..]).
  unfold pad_zero, show_N in *. destruct (N.lt_ge_cases n 10) as [H|H].
  - rewrite show_small by lia. simpl. rewrite Nat.sub_0_r.
    rewrite N.div_small, N.mod_small by lia. by rewrite fixed_dec_zero.
  - rewrite show_step in * by lia. rewrite length_app in *. simpl in Hlen |- *.
    destruct k as [|k]; [simpl in Hn; lia|].
    rewrite <- IH; [| apply N.Div0.div_lt_upper_bound;
      rewrite Nat2N.inj_succ, N.pow_succ_r' in Hn; lia | lia].
    replace (S (S k) - (length (show_radix 10 (n / 10)) + 1))
      with (S k - length (show_radix 10 (n / 10))) by lia.
    by rewrite app_assoc.
Qed.

Lemma digit_char_compare d e :
  (d < 10)%N -> (e < 10)%N -> (code (digit_char d) ?= code (digit_char e))%N = (d ?= e)%N.
Proof.
  intros Hd Hdd%(small_N _ 10). revert e Hdd. apply List.Forall_forall.
  apply (small_N _ 10) in Hd. revert d Hd. apply List.Forall_forall.
  repeat constructor.
Qed.

Lemma compare_div_mod n m :
  (n ?= m)%N = then_cmp (n / 10 ?= m / 10)%N (n mod 10 ?= m mod 10)%N.
Proof.
  pose proof (N.div_mod n 10 ltac:(done)). pose proof (N.div_mod m 10 ltac:(done)).
  pose proof (N.mod_lt n 10 ltac:(done)). pose proof (N.mod_lt m 10 ltac:(done)).
  generalize dependent (n mod 10)%N. generalize dependent (m mod 10)%N.
  generalize (n / 10)%N (m / 10)%N. intros p q r Hm Hr s -> Hs. subst m.
  destruct (N.compare_spec p q); simpl; [destruct (N.compare_spec s r)|..];
    rewrite ?N.compare_eq_iff, ?N.compare_lt_iff, ?N.compare_gt_iff; lia.
Qed.

Lemma fixed_dec_compare k n m :
  (n < 10 ^ N.of_nat k)%N -> (m < 10 ^ N.of_nat k)%N ->
  str_compare (fixed_dec k n) (fixed_dec k m) = (n ?= m)%N.
Proof.
  revert n m. induction k as [|k IH]; intros n m Hn Hm.
  - simpl in *. symmetry. apply N.compare_eq_iff. lia.
  - simpl fixed_dec. rewrite str_compare_app by (by rewrite !fixed_dec_length).
    rewrite Nat2N.inj_succ, N.pow_succ_r' in Hn, Hm.
    rewrite IH by (apply N.Div0.div_lt_upper_bound; lia).
    rewrite (compare_div_mod n m). f_equal. simpl.
    rewrite digit_char_compare by (apply N.mod_lt; done).
    by destruct (n mod 10 ?= m mod 10)%N.
Qed.

(** Zero-padded numbers of one width order as strings the way they order as
    numbers. *)
Lemma pad_show_compare k n m :
  (n < 10 ^ N.of_nat k)%N -> (m < 10 ^ N.of_nat k)%N -> 0 < k ->
  str_compare (pad_zero k (show_N n)) (pad_zero k (show_N m)) = (n ?= m)%N.
Proof. intros. rewrite !pad_show by done. by apply fixed_dec_compare. Qed.

(** ** Counting and mapping *)

Lemma count_char_app c a b : count_char c (a ++ b) = count_char c a + count_char c b.
Proof. unfold count_char. by rewrite List.filter_app, length_app. Qed.

Lemma count_char_cons c x s :
  count_char c (x :: s) = (if Ascii.eqb x c then 1 else 0) + count_char c s.
Proof. unfold count_char. simpl. by destruct (Ascii.eqb x c). Qed.

Lemma count_char_zero c s : count_char c s = 0 <-> c ∉ s.
Proof.
  induction s as [|x s IH]; [split; [intros _; apply not_elem_of_nil | done]|].
  rewrite count_char_cons, not_elem_of_cons, <- IH.
  destruct (Ascii.eqb_spec x c) as [->|Hx]; simpl; naive_solver lia.
Qed.

(** A map on characters that fixes a separator. *)
Definition fixes (f : ascii -> ascii) (c : ascii) : Prop :=
  forall x, Ascii.eqb (f x) c = Ascii.eqb x c.

Lemma fixes_elem f c (s : str) : fixes f c -> c ∈ f <$> s <-> c ∈ s.
Proof.
  intros Hf. rewrite list_elem_of_fmap. split.
  - intros (x & Hx & Hin). symmetry in Hx. apply Ascii.eqb_eq in Hx. rewrite Hf in Hx.
    by apply Ascii.eqb_eq in Hx as ->.
  - intros Hin. exists c. split; [|done]. symmetry. apply Ascii.eqb_eq.
    rewrite Hf. apply Ascii.eqb_refl.
Qed.

Lemma count_char_fmap f c (s : str) : fixes f c -> count_char c (f <$> s) = count_char c s.
Proof.
  intros Hf. induction s as [|x s IH]; [done|].
  rewrite fmap_cons, !count_char_cons. by rewrite Hf, IH.
Qed.

Lemma split_once_fmap f c (s : str) :
  fixes f c ->
  split_once c (f <$> s) =
  match split_once c s with
  | Some (a, b) => Some (f <$> a, f <$> b)
  | None => None
  end.
Proof.
  intros Hf. induction s as [|x s IH]; [done|].
  rewrite fmap_cons. cbn [split_once]. rewrite Hf, IH.
  destruct (Ascii.eqb x c); [done|]. by destruct (split_once c s) as [[??]|].
Qed.

Lemma ascii_lower_fixes : forall c, is_ascii_lower c || is_ascii_upper c = false -> fixes ascii_lower c.
Proof.
  intros c Hc x. destruct (is_ascii_upper x) eqn:E.
  - assert (forall y, is_ascii_upper y = true -> is_ascii_lower (ascii_lower y) = true) as Hl.
    { intros y. apply implb_true_iff. revert y. by_bytes. }
    apply Hl in E as E'. apply orb_false_iff in Hc as [Hc1 Hc2].
    rewrite !(proj2 (Ascii.eqb_neq _ _)) by congruence. done.
  - unfold ascii_lower. by rewrite E.
Qed.

Lemma to_digit_lower : forall c, to_digit 10 (ascii_lower c) = to_digit 10 c.
Proof. by_bytes. Qed.

Lemma parse_digits_lower (s : str) : parse_digits 10 (ascii_lower <$> s) = parse_digits 10 s.
Proof.
  unfold parse_digits. destruct s as [|c s]; [done|]. rewrite fmap_cons.
  change (ascii_lower c :: (ascii_lower <$> s)) with (ascii_lower <$> (c :: s)).
  generalize (Some 0%N) as acc. generalize (c :: s) as l. clear.
  induction l as [|c l IH]; intros acc; [done|]. simpl. rewrite <- IH. f_equal.
  unfold push_digit. by rewrite to_digit_lower.
Qed.

Lemma parse_u16_lower (s : str) : parse_u16 (ascii_lower <$> s) = parse_u16 s.
Proof.
  unfold parse_u16, parse_uint. destruct s as [|c s]; [done|].
  rewrite fmap_cons, (ascii_lower_fixes "+") by done.
  destruct (Ascii.eqb c "+"); [by rewrite parse_digits_lower|].
  rewrite <- fmap_cons. by rewrite parse_digits_lower.
Qed.
