(* ===== verification/Logging.v ===== *)
(** * Logging: log sinks and the default filter ([src/logging.rs])

    [--log-target] values, their printer, the filter directives, and the sinks that
    [build_with_env] assembles.  A [PathBuf] is the text it was built from, with
    the component rules of [std::path] on Unix.  The layers, the file system and the
    filter engine are other code: a layer is the data it is built from, and the
    rest are parameters. *)

From S2P Require Import Prelude Text.

(** ** Data *)

Definition SELF_TARGET : str := lit "zenoh_bridge_tcp".

Definition NOISY_DEPENDENCIES : list str :=
  [lit "zenoh"; lit "zenoh_ext"; lit "zenoh_transport"; lit "zenoh_link"; lit "zenoh_link_commons";
   lit "zenoh_runtime"; lit "zenoh_util"; lit "rustls"; lit "tungstenite"; lit "tokio_tungstenite"].

Inductive Rotation : Type := Never | Daily | Hourly | Minutely.

Inductive Facility : Type :=
| Daemon | User | Local0 | Local1 | Local2 | Local3 | Local4 | Local5 | Local6 | Local7.

Inductive LogTarget : Type :=
| Stdout
| Stderr
| File (path : str) (rotation : Rotation)
| Journald
| Syslog (ident : str) (facility : Facility).

Inductive ColorChoice : Type := ColorAuto | ColorAlways | ColorNever.
Inductive LogFormat : Type := Pretty | Full | Compact | Json.

#[export] Instance Rotation_eq_dec : EqDecision Rotation.
Proof. solve_decision. Defined.
#[export] Instance Facility_eq_dec : EqDecision Facility.
Proof. solve_decision. Defined.
#[export] Instance LogTarget_eq_dec : EqDecision LogTarget.
Proof. solve_decision. Defined.
#[export] Instance ColorChoice_eq_dec : EqDecision ColorChoice.
Proof. solve_decision. Defined.
#[export] Instance LogFormat_eq_dec : EqDecision LogFormat.
Proof. solve_decision. Defined.

Record LogOptions : Type := {
  level : str;
  format : LogFormat;
  color : ColorChoice;
  targets : list LogTarget;
}.

(** One constructor per place that refuses a value. *)
Inductive LogError : Type :=
| EmptyLogOption
| LogOptionNoEquals (opt : str)
| EmptyLogValue (name : str)
| DuplicateLogOption (name : str)
| TakesNoValue (kind : str)
| TakesNoOptions (kind name : str)
| FileNeedsPath
| InvalidRotation (value : str)
| UnknownFileOption (name : str)
| IdentHasNul
| InvalidFacility (value : str)
| UnknownSyslogOption (name : str)
| UnknownTarget (kind : str)
| InvalidColor (value : str)
| SubscriberInstalled
| InvalidFormat (value : str)
| NoFileName (path : str)
| CannotCreateDir (dir : str)
| NotWritable (dir : str)
| JournaldUnreachable
| SyslogUnreachable.

Definition rotation_str (r : Rotation) : str :=
  match r with
  | Never => lit "never" | Daily => lit "daily" | Hourly => lit "hourly" | Minutely => lit "minutely"
  end.

Definition facility_str (f : Facility) : str :=
  match f with
  | Daemon => lit "daemon" | User => lit "user"
  | Local0 => lit "local0" | Local1 => lit "local1" | Local2 => lit "local2" | Local3 => lit "local3"
  | Local4 => lit "local4" | Local5 => lit "local5" | Local6 => lit "local6" | Local7 => lit "local7"
  end.

Definition DEFAULT_SYSLOG_IDENT : str := lit "zenoh-bridge-tcp".

Definition show_log_target (t : LogTarget) : str :=
  match t with
  | Stdout => lit "stdout"
  | Stderr => lit "stderr"
  | File path rotation =>
      "file=" ++ path ++ (if decide (rotation = Never) then [] else ",rotation=" ++ rotation_str rotation)
  | Journald => lit "journald"
  | Syslog ident facility =>
      "syslog" ++ (if decide (ident = DEFAULT_SYSLOG_IDENT) then [] else ",ident=" ++ ident)
      ++ (if decide (facility = Daemon) then [] else ",facility=" ++ facility_str facility)
  end.

(** ** Parsing *)

(** A [match] on string literals: the first entry that spells the value. *)
Definition match_str {A} (table : list (str * A)) (value : str) : option A :=
  snd <$> List.find (fun kv => bool_decide (kv.1 = value)) table.

Definition rotations : list (str * Rotation) := (fun r => (rotation_str r, r)) <$> [Never; Daily; Hourly; Minutely].

Definition facilities : list (str * Facility) :=
  (fun f => (facility_str f, f)) <$> [Daemon; User; Local0; Local1; Local2; Local3; Local4; Local5; Local6; Local7].

(** The loop over the comma-separated options; [opts] keeps their order. *)
Fixpoint log_target_options (opts : list (str * str)) (parts : list str) : result LogError (list (str * str)) :=
  match parts with
  | [] => Ok opts
  | opt :: parts' =>
      _ ← ensure (negb (bool_decide (opt = []))) EmptyLogOption;
      '(name, value) ← ok_or (split_once "=" opt) (LogOptionNoEquals opt);
      _ ← ensure (negb (bool_decide (value = []))) (EmptyLogValue name);
      _ ← ensure (negb (existsb (fun nv => bool_decide (nv.1 = name)) opts)) (DuplicateLogOption name);
      log_target_options (opts ++ [(name, value)]) parts'
  end.

Definition reject_extra (opts : list (str * str)) (kind : str) : result LogError unit :=
  match opts with (name, _) :: _ => Err (TakesNoOptions kind name) | [] => Ok tt end.

Definition reject_value (head_value : option str) (kind : str) : result LogError unit :=
  match head_value with Some _ => Err (TakesNoValue kind) | None => Ok tt end.

Fixpoint file_options (rotation : Rotation) (opts : list (str * str)) : result LogError Rotation :=
  match opts with
  | [] => Ok rotation
  | (name, value) :: opts' =>
      if decide (name = lit "rotation") then
        rotation ← ok_or (match_str rotations value) (InvalidRotation value);
        file_options rotation opts'
      else Err (UnknownFileOption name)
  end.

Definition nul : ascii := ascii_of_N 0.

Fixpoint syslog_options (ident : str) (facility : Facility) (opts : list (str * str))
    : result LogError (str * Facility) :=
  match opts with
  | [] => Ok (ident, facility)
  | (name, value) :: opts' =>
      if decide (name = lit "ident") then
        _ ← ensure (negb (contains_char nul value)) IdentHasNul;
        syslog_options value facility opts'
      else if decide (name = lit "facility") then
        facility ← ok_or (match_str facilities value) (InvalidFacility value);
        syslog_options ident facility opts'
      else Err (UnknownSyslogOption name)
  end.

Definition parse_log_target (spec : str) : result LogError LogTarget :=
  let (head, parts) := split "," spec in
  let (kind, head_value) :=
    match split_once "=" head with Some (k, v) => (k, Some v) | None => (head, None) end in
  opts ← log_target_options [] parts;
  if decide (kind = lit "stdout") then
    _ ← reject_value head_value kind; _ ← reject_extra opts kind; Ok Stdout
  else if decide (kind = lit "stderr") then
    _ ← reject_value head_value kind; _ ← reject_extra opts kind; Ok Stderr
  else if decide (kind = lit "file") then
    path ← ok_or (v ← head_value; if decide (v = []) then None else Some v) FileNeedsPath;
    rotation ← file_options Never opts;
    Ok (File path rotation)
  else if decide (kind = lit "journald") then
    _ ← reject_value head_value kind; _ ← reject_extra opts kind; Ok Journald
  else if decide (kind = lit "syslog") then
    _ ← reject_value head_value kind;
    '(ident, facility) ← syslog_options DEFAULT_SYSLOG_IDENT Daemon opts;
    Ok (Syslog ident facility)
  else Err (UnknownTarget kind).

Definition parse_color (s : str) : result LogError ColorChoice :=
  ok_or (match_str [(lit "auto", ColorAuto); (lit "always", ColorAlways); (lit "never", ColorNever)] s)
        (InvalidColor s).

Definition parse_format (s : str) : result LogError LogFormat :=
  ok_or (match_str [(lit "pretty", Full); (lit "full", Full); (lit "verbose", Pretty);
                    (lit "compact", Compact); (lit "json", Json)] s)
        (InvalidFormat s).

(** ** The filter *)

Definition default_directives (level : str) : str :=
  let dep_level := if bool_decide (level ∈ [lit "trace"; lit "debug"; lit "info"]) then lit "warn" else level in
  if decide (dep_level = level) then level
  else level ++ concat ((fun dep => "," ++ dep ++ "=" ++ dep_level) <$> NOISY_DEPENDENCIES)
             ++ "," ++ SELF_TARGET ++ "=" ++ level.

(** [tracing_subscriber]'s engine: [EnvFilter::new], [try_new], and the level at
    which a target is enabled. *)
Class FilterEngine : Type := {
  EnvFilter : Type;
  filter_new : str -> EnvFilter;
  filter_try_new : str -> option EnvFilter;
  enabled_level : EnvFilter -> str -> str;
}.

Section Filter.
Context {FE : FilterEngine}.

Definition build_filter_from (level : str) (rust_log : option str) : EnvFilter :=
  match rust_log with
  | Some value =>
      if decide (trim value = []) then filter_new (default_directives level)
      else match filter_try_new value with
           | Some filter => filter
           | None => filter_new (default_directives level)
           end
  | None => filter_new (default_directives level)
  end.
End Filter.

(** ** Sinks *)

Definition use_ansi (color : ColorChoice) (is_terminal : bool) : bool :=
  match color with ColorAuto => is_terminal | ColorAlways => true | ColorNever => false end.

Inductive Writer : Type :=
| ToStdout
| ToStderr
| ToFile (dir prefix : str) (rotation : Rotation)
| ToSyslog (ident : str) (facility : Facility).

(** A [fmt] layer, by what it was configured with. *)
Record FmtLayer : Type := {
  style : LogFormat;
  ansi : bool;
  timestamps : bool;
  writer : Writer;
}.

Inductive BoxedLayer : Type :=
| FmtBoxed (l : FmtLayer)
| JournaldBoxed (field_prefix : option str).

Definition fmt_layer (f : LogFormat) (ansi : bool) (w : Writer) : BoxedLayer :=
  FmtBoxed {| style := f; ansi := (match f with Json => false | _ => ansi end); timestamps := true; writer := w |}.

(** [Path::file_name] and [Path::parent].  A path is a front ([/], a leading [.],
    or nothing) and a body of segments; empty and [.] segments of the body are no
    components. *)
Definition split_front (path : str) : str * str :=
  match path with
  | c :: p =>
      if decide (c = "/"%char) then ([c], p)
      else if Ascii.eqb c "." && (bool_decide (p = []) || starts_with "/" p) then ([c], p)
      else ([], path)
  | [] => ([], [])
  end.

Definition no_component (s : str) : bool := bool_decide (s = []) || bool_decide (s = lit ".").

(** The segments of a body, last first, from its last component on. *)
Fixpoint trim_right (rev_segs : list str) : list str :=
  match rev_segs with
  | s :: segs => if no_component s then trim_right segs else rev_segs
  | [] => []
  end.

Definition path_text (front : str) (rev_segs : list str) : str :=
  match rev rev_segs with [] => front | s :: segs => front ++ join "/" s segs end.

Definition file_name (path : str) : option str :=
  match trim_right (rev (split_list "/" (snd (split_front path)))) with
  | s :: _ => if decide (s = lit "..") then None else Some s
  | [] => None
  end.

Definition parent (path : str) : option str :=
  let (front, body) := split_front path in
  match trim_right (rev (split_list "/" body)) with
  | _ :: segs => Some (path_text front (trim_right segs))
  | [] => if decide (front = lit ".") then Some [] else None
  end.

Definition split_log_path (path : str) : result LogError (str * str) :=
  prefix ← ok_or (file_name path) (NoFileName path);
  let dir := match parent path with
             | Some p => if decide (p = []) then lit "." else p
             | None => lit "."
             end in
  Ok (dir, prefix).

(** [dir.join(name)] of a relative name. *)
Definition path_join (dir name : str) : str :=
  if decide (dir = []) then name
  else if decide (last dir = Some "/"%char) then dir ++ name
  else dir ++ "/"%char :: name.

Section Build.
Context {FS : Type}.
(** The file system's operations; [rolling] opens the log file itself, and panics
    where it cannot. *)
Context (create_dir_all : str -> FS -> option FS) (open_append : str -> FS -> option FS)
        (remove_file : str -> FS -> FS) (rolling : Rotation -> str -> str -> FS -> option FS).
Context (stdout_is_terminal stderr_is_terminal : bool) (journald_socket : bool)
        (syslog_open : str -> Facility -> bool).

Definition journald_layer : result LogError BoxedLayer :=
  _ ← ensure journald_socket JournaldUnreachable; Ok (JournaldBoxed None).

(** syslog stamps and prefixes each record itself, on one line. *)
Definition syslog_layer (ident : str) (facility : Facility) (f : LogFormat) : result LogError BoxedLayer :=
  _ ← ensure (negb (contains_char nul ident)) IdentHasNul;
  _ ← ensure (syslog_open ident facility) SyslogUnreachable;
  Ok (FmtBoxed match f with
      | Json => {| style := Json; ansi := false; timestamps := true; writer := ToSyslog ident facility |}
      | _ => {| style := Compact; ansi := false; timestamps := false; writer := ToSyslog ident facility |}
      end).

(** A worker guard is named by the file it writes. *)
Definition Guard : Type := (str * str)%type.

Inductive BuildOutcome (A : Type) : Type :=
| Built (a : A)
| BuildError (e : LogError)
| AppenderPanics (path : str).
Arguments Built {A} a.
Arguments BuildError {A} e.
Arguments AppenderPanics {A} path.

Definition or_error {A B} (m : result LogError A) (k : A -> BuildOutcome B) : BuildOutcome B :=
  match m with Ok a => k a | Err e => BuildError e end.

Definition add_sink (opts : LogOptions) (t : LogTarget) (fs : FS)
    : BuildOutcome (BoxedLayer * list Guard * FS) :=
  match t with
  | Stdout => Built (fmt_layer (format opts) (use_ansi (color opts) stdout_is_terminal) ToStdout, [], fs)
  | Stderr => Built (fmt_layer (format opts) (use_ansi (color opts) stderr_is_terminal) ToStderr, [], fs)
  | File path rotation =>
      or_error (split_log_path path) (fun '(dir, prefix) =>
      or_error (ok_or (create_dir_all dir fs) (CannotCreateDir dir)) (fun fs =>
      let probe := path_join dir ".zenoh-bridge-log.probe" in
      or_error (ok_or (open_append probe fs) (NotWritable dir)) (fun fs =>
      match rolling rotation dir prefix (remove_file probe fs) with
      | Some fs =>
          Built (fmt_layer (format opts) (bool_decide (color opts = ColorAlways)) (ToFile dir prefix rotation),
                 [(dir, prefix)], fs)
      | None => AppenderPanics path
      end)))
  | Journald => or_error journald_layer (fun l => Built (l, [], fs))
  | Syslog ident facility => or_error (syslog_layer ident facility (format opts)) (fun l => Built (l, [], fs))
  end.

Fixpoint add_sinks (opts : LogOptions) (ts : list LogTarget) (fs : FS)
    : BuildOutcome (list BoxedLayer * list Guard * FS) :=
  match ts with
  | [] => Built ([], [], fs)
  | t :: ts' =>
      match add_sink opts t fs with
      | Built (l, g, fs) =>
          match add_sinks opts ts' fs with
          | Built (ls, gs, fs) => Built (l :: ls, g ++ gs, fs)
          | BuildError e => BuildError e
          | AppenderPanics p => AppenderPanics p
          end
      | BuildError e => BuildError e
      | AppenderPanics p => AppenderPanics p
      end
  end.

Definition build_with_env {FE : FilterEngine} (opts : LogOptions) (rust_log : option str) (fs : FS)
    : BuildOutcome (list BoxedLayer * EnvFilter * list Guard * FS) :=
  match add_sinks opts (targets opts) fs with
  | Built (layers, guards, fs) => Built (layers, build_filter_from (level opts) rust_log, guards, fs)
  | BuildError e => BuildError e
  | AppenderPanics p => AppenderPanics p
  end.

(** [try_init] fails where a global subscriber is installed already. *)
Definition init {FE : FilterEngine} (opts : LogOptions) (rust_log : option str) (try_init : bool) (fs : FS)
    : BuildOutcome (list Guard * FS) :=
  match build_with_env opts rust_log fs with
  | Built (_, _, guards, fs) => if try_init then Built (guards, fs) else BuildError SubscriberInstalled
  | BuildError e => BuildError e
  | AppenderPanics p => AppenderPanics p
  end.
End Build.
Arguments Built {A} a.
Arguments BuildError {A} e.
Arguments AppenderPanics {A} path.

(** ** Round trip of the sinks *)

(** What the grammar can carry in a value. *)
Definition value_ok (s : str) : Prop := s <> [] /\ ","%char ∉ s.

Definition target_ok (t : LogTarget) : Prop :=
  match t with
  | File path _ => value_ok path
  | Syslog ident _ => value_ok ident /\ nul ∉ ident
  | _ => True
  end.

Definition options_ok (opts : list (str * str)) : Prop := Forall (fun nv => value_ok nv.2) opts.

Lemma match_rotation r : match_str rotations (rotation_str r) = Some r.
Proof. by destruct r. Qed.

Lemma match_facility f : match_str facilities (facility_str f) = Some f.
Proof. by destruct f. Qed.

Lemma log_target_options_ok opts parts opts' :
  log_target_options opts parts = Ok opts' -> options_ok opts -> Forall (fun x => ","%char ∉ x) parts ->
  options_ok opts'.
Proof.
  revert opts. induction parts as [|opt parts IH]; intros opts H Ho Hp; simpl in H; [by simplify_eq|].
  inv_guards. destruct_and_pairs. inv_guards. inversion_clear Hp as [|?? Hc Hp'].
  match goal with H : split_once _ _ = Some _ |- _ => apply split_once_Some in H as [-> _] end.
  eapply IH; [done| |done]. apply Forall_app. split; [done|]. repeat constructor; [done|]. set_solver.
Qed.

Lemma syslog_options_ok ident facility opts r :
  syslog_options ident facility opts = Ok r -> options_ok opts -> value_ok ident /\ nul ∉ ident ->
  value_ok r.1 /\ nul ∉ r.1.
Proof.
  revert ident facility. induction opts as [|[n v] opts IH]; intros ident facility H Ho Hi; simpl in H;
    [by simplify_eq|].
  inversion_clear Ho as [|?? Hv Ho'].
  repeat case_decide; inv_guards; [eapply IH; [done..|]|eapply IH; done].
  split; [done|]. by apply contains_char_not_elem.
Qed.

Lemma default_ident_ok : value_ok DEFAULT_SYSLOG_IDENT /\ nul ∉ DEFAULT_SYSLOG_IDENT.
Proof. split; [split; [done|]|]; by apply contains_char_not_elem. Qed.

Lemma parse_log_target_ok s t : parse_log_target s = Ok t -> target_ok t.
Proof.
  unfold parse_log_target. pose proof (split_parts "," s) as Hp. unfold split_list in Hp.
  destruct (split "," s) as [head parts]. inversion_clear Hp as [|?? Hh Hparts].
  destruct (split_once "=" head) as [[k v]|] eqn:Es; intros H; inv_guards;
    match goal with H : log_target_options _ _ = Ok _ |- _ =>
      apply log_target_options_ok in H; [|constructor|done] end;
    repeat case_decide; inv_guards; simplify_eq/=; try done; inv_guards; try case_decide; simplify_eq/=;
    try (destruct_and_pairs; inv_guards; simplify_eq/=;
         match goal with H : syslog_options _ _ _ = Ok _ |- _ =>
           apply syslog_options_ok in H; [done|done|apply default_ident_ok] end).
  apply split_once_Some in Es as [-> _]. split; [done|]. set_solver.
Qed.

(** The parts that [Display] writes after the first. *)
Definition display_parts (t : LogTarget) : str * list str :=
  match t with
  | File path rotation =>
      ("file=" ++ path, if decide (rotation = Never) then [] else ["rotation=" ++ rotation_str rotation])
  | Syslog ident facility =>
      (lit "syslog", (if decide (ident = DEFAULT_SYSLOG_IDENT) then [] else ["ident=" ++ ident]) ++
                     (if decide (facility = Daemon) then [] else ["facility=" ++ facility_str facility]))
  | _ => (show_log_target t, [])
  end.

Lemma show_log_target_join t : show_log_target t = join "," (fst (display_parts t)) (snd (display_parts t)).
Proof. destruct t; simpl; repeat case_decide; simpl; rewrite ?app_nil_r, <- ?app_assoc; done. Qed.

Lemma display_parts_no_comma t :
  target_ok t -> ","%char ∉ fst (display_parts t) /\ Forall (fun p => ","%char ∉ p) (snd (display_parts t)).
Proof.
  assert (forall p s, contains_char "," p = false -> ","%char ∉ s -> ","%char ∉ p ++ s) as Happ.
  { intros p s Hp%contains_char_not_elem Hs. by rewrite not_elem_of_app. }
  destruct t as [| |path r| |ident f]; simpl; try (split; [by apply contains_char_not_elem|constructor]).
  - intros [_ Hp]. split; [by apply (Happ "file=")|]. case_decide; repeat constructor.
    apply (Happ "rotation="); [done|]. destruct r; by apply contains_char_not_elem.
  - intros [[_ Hi] _]. split; [by apply contains_char_not_elem|]. apply Forall_app. split.
    + case_decide; repeat constructor. by apply (Happ "ident=").
    + case_decide; repeat constructor. apply (Happ "facility="); [done|]. destruct f; by apply contains_char_not_elem.
Qed.

Lemma parse_show_log_target t : target_ok t -> parse_log_target (show_log_target t) = Ok t.
Proof.
  intros Ht. destruct (display_parts_no_comma t Ht) as [Hh Hp].
  unfold parse_log_target. rewrite show_log_target_join, split_join by done.
  destruct t as [| |path r| |ident f]; [done|done| |done|].
  - destruct Ht as [Hne _]. cbn [display_parts fst snd].
    change ("file=" ++ path) with (lit "file" ++ "="%char :: path).
    rewrite split_once_app by (by apply contains_char_not_elem).
    destruct path as [|c path]; [done|]. by destruct r.
  - destruct Ht as [[Hne _] Hn]. apply contains_char_not_elem in Hn. cbn [display_parts fst snd].
    destruct ident as [|c ident]; [done|].
    destruct (decide (c :: ident = DEFAULT_SYSLOG_IDENT)) as [->|]; [by destruct f|].
    destruct f; simpl in Hn |- *; rewrite Hn; done.
Qed.

(** ** What the default filter enables *)

(** The six levels, quietest first. *)
Definition levels : list str := [lit "off"; lit "error"; lit "warn"; lit "info"; lit "debug"; lit "trace"].

Fixpoint position (l : list str) (x : str) : nat :=
  match l with [] => 0 | y :: l' => if decide (y = x) then 0 else S (position l' x) end.

Definition quieter (a b : str) : str := if position levels a <=? position levels b then a else b.

(** A directive: a target prefix, or every target, and a level. *)
Definition Directive : Type := (option str * str)%type.

Definition show_directive (d : Directive) : str :=
  match d with (Some t, l) => t ++ "=" ++ l | (None, l) => l end.

Definition render (ds : list Directive) : str :=
  match ds with [] => [] | d :: ds' => join "," (show_directive d) (show_directive <$> ds') end.

Definition applies (d : Directive) (target : str) : bool := starts_with (default [] d.1) target.
Definition specificity (d : Directive) : nat := length (default [] d.1).

Definition is_target_char (c : ascii) : bool := is_ascii_alphanumeric c || Ascii.eqb c "_".

Definition directive_ok (d : Directive) : Prop :=
  d.2 ∈ levels /\ match d.1 with Some t => t <> [] /\ Forall (fun c => is_target_char c = true) t | None => True end.

(** What [EnvFilter] documents: of the directives that apply to a target, the most
    specific one decides. *)
Class FilterLaws (FE : FilterEngine) : Prop :=
  most_specific_wins : forall ds d t,
    Forall directive_ok ds -> d ∈ ds -> applies d t = true ->
    (forall d', d' ∈ ds -> applies d' t = true -> d' = d \/ specificity d' < specificity d) ->
    enabled_level (filter_new (render ds)) t = d.2.

Definition default_list (level : str) : list Directive :=
  if bool_decide (level ∈ [lit "trace"; lit "debug"; lit "info"])
  then (None, level) :: ((fun dep => (Some dep, lit "warn")) <$> NOISY_DEPENDENCIES) ++ [(Some SELF_TARGET, level)]
  else [(None, level)].

Lemma levels_ind (P : str -> Prop) : Forall P levels -> forall l, l ∈ levels -> P l.
Proof. intros H l. by apply Forall_forall. Qed.

Lemma default_directives_render : forall level, level ∈ levels -> default_directives level = render (default_list level).
Proof. apply levels_ind. repeat constructor. Qed.

Lemma default_list_ok : forall level, level ∈ levels -> Forall directive_ok (default_list level).
Proof.
  assert (forall ds, forallb (fun d => bool_decide (d.2 ∈ levels) &&
    match d.1 with Some t => negb (bool_decide (t = [])) && forallb is_target_char t | None => true end) ds = true ->
    Forall directive_ok ds) as Hb.
  { intros ds H. apply Forall_forall. intros [[t|] l] Hd%list_elem_of_In; rewrite forallb_forall in H;
      specialize (H _ Hd); simpl in H; inv_guards; [|by split].
    split; [done|]. split; [done|]. apply Forall_forall. intros c Hc%list_elem_of_In.
    match goal with H : forallb _ _ = true |- _ => rewrite forallb_forall in H; by apply H end. }
  intros level Hl. apply Hb. revert level Hl. apply levels_ind. repeat constructor.
Qed.

Lemma same_length_prefix (a b t : str) :
  starts_with a t = true -> starts_with b t = true -> length a = length b -> a = b.
Proof.
  intros [r ->]%starts_with_spec [r' Hr]%starts_with_spec Hl. by apply app_inj_1 in Hr as [-> _].
Qed.

Lemma longest_prefix (l : list str) t :
  existsb (fun p => starts_with p t) l = true ->
  exists p, p ∈ l /\ starts_with p t = true /\
    forall p', p' ∈ l -> starts_with p' t = true -> p' = p \/ length p' < length p.
Proof.
  induction l as [|q l IH]; simpl; [done|]. intros H.
  destruct (existsb (fun p => starts_with p t) l) eqn:E.
  - destruct (IH eq_refl) as (p & Hp & Hs & Hmax).
    destruct (starts_with q t) eqn:Eq, (decide (length p < length q)).
    + exists q. split_and!; [by left|done|]. intros p' [->|Hp']%elem_of_cons Hs'; [by left|].
      destruct (Hmax p' Hp' Hs') as [->|?]; right; lia.
    + exists p. split_and!; [by right|done|]. intros p' [->|Hp']%elem_of_cons Hs'; [|auto].
      destruct (decide (length q = length p)); [left; by apply (same_length_prefix _ _ t)|right; lia].
    + exists p. split_and!; [by right|done|]. intros p' [->|Hp']%elem_of_cons Hs'; [congruence|auto].
    + exists p. split_and!; [by right|done|]. intros p' [->|Hp']%elem_of_cons Hs'; [congruence|auto].
  - rewrite orb_false_r in H. exists q. split_and!; [by left|done|]. intros p' [->|Hp']%elem_of_cons Hs'; [by left|].
    apply not_true_iff_false in E. destruct E. apply existsb_exists. exists p'. by rewrite <- list_elem_of_In.
Qed.

(** Only [zenoh] collides with the bridge's own target. *)
Lemma shorter_than_self dep t :
  dep ∈ NOISY_DEPENDENCIES -> starts_with dep t = true -> starts_with SELF_TARGET t = true ->
  length dep < length SELF_TARGET.
Proof.
  intros Hd [r ->]%starts_with_spec [r' Hr]%starts_with_spec.
  destruct (decide (length dep < length SELF_TARGET)) as [|Hge]; [done|exfalso].
  assert (starts_with SELF_TARGET dep = true) as Hs.
  { apply starts_with_spec. exists (drop (length SELF_TARGET) dep).
    rewrite <- (take_drop (length SELF_TARGET) dep) at 1. f_equal.
    assert (take (length SELF_TARGET) (dep ++ r) = SELF_TARGET) as Ht by (rewrite Hr; by apply take_app_length).
    rewrite take_app_le in Ht by lia. done. }
  revert Hs. apply not_true_iff_false. revert Hd. clear. revert dep. apply Forall_forall. repeat constructor.
Qed.

Lemma dep_nonempty dep (level : str) : dep ∈ NOISY_DEPENDENCIES -> specificity (None, level) < specificity (Some dep, lit "warn").
Proof. unfold specificity. simpl. revert dep. apply Forall_forall. unfold NOISY_DEPENDENCIES. repeat constructor; simpl; lia. Qed.

Section FilterLevels.
Context {FE : FilterEngine} {FL : FilterLaws FE}.

Definition damped (target : str) : bool := existsb (fun dep => starts_with dep target) NOISY_DEPENDENCIES.

Lemma quiet_levels level t :
  level ∈ levels -> level ∉ [lit "trace"; lit "debug"; lit "info"] ->
  enabled_level (filter_new (default_directives level)) t = level.
Proof using FL.
  intros Hl Hq. rewrite default_directives_render by done. pose proof (default_list_ok _ Hl) as Hok.
  unfold default_list in *. rewrite bool_decide_eq_false_2 in * by done.
  apply (most_specific_wins _ (None, level)); [done|by left|done|].
  intros d' ->%list_elem_of_singleton _. by left.
Qed.

Lemma verbose_levels level t :
  level ∈ levels -> level ∈ [lit "trace"; lit "debug"; lit "info"] ->
  enabled_level (filter_new (default_directives level)) t =
    if starts_with SELF_TARGET t then level else if damped t then lit "warn" else level.
Proof using FL.
  intros Hl Hv. rewrite default_directives_render by done. pose proof (default_list_ok _ Hl) as Hok.
  unfold default_list in *. rewrite bool_decide_eq_true_2 in * by done.
  set (deps := (fun dep => (Some dep, lit "warn")) <$> NOISY_DEPENDENCIES : list Directive) in *.
  assert (forall d', d' ∈ (None, level) :: deps ++ [(Some SELF_TARGET, level)] ->
    d' = (None, level) \/ d' = (Some SELF_TARGET, level) \/
    exists dep, dep ∈ NOISY_DEPENDENCIES /\ d' = (Some dep, lit "warn")) as Hcases.
  { intros d'. rewrite elem_of_cons, elem_of_app, list_elem_of_singleton. unfold deps.
    rewrite list_elem_of_fmap. naive_solver. }
  destruct (starts_with SELF_TARGET t) eqn:Es; [|destruct (damped t) eqn:Ed].
  - apply (most_specific_wins _ (Some SELF_TARGET, level)); [done| |done|].
    { right. apply elem_of_app. right. by left. }
    intros d' [->|[->|(dep & Hd & ->)]]%Hcases Ha; [right; unfold specificity; simpl; lia|by left|].
    right. by apply (shorter_than_self _ t).
  - destruct (longest_prefix _ _ Ed) as (dep & Hd & Hs & Hmax).
    apply (most_specific_wins _ (Some dep, lit "warn")); [done| |done|].
    { right. apply elem_of_app. left. apply list_elem_of_fmap. by exists dep. }
    intros d' [->|[->|(dep' & Hd' & ->)]]%Hcases Ha.
    + right. by apply dep_nonempty.
    + unfold applies in Ha. simpl in Ha. congruence.
    + destruct (Hmax dep' Hd' Ha) as [->|?]; [by left|by right].
  - apply (most_specific_wins _ (None, level)); [done|by left|done|].
    intros d' [->|[->|(dep & Hd & ->)]]%Hcases Ha; [by left| |]; unfold applies in Ha; simpl in Ha; [congruence|].
    apply not_true_iff_false in Ed. destruct Ed. apply existsb_exists. exists dep. by rewrite <- list_elem_of_In.
Qed.
End FilterLevels.

(** ** Where a file sink writes *)

Definition component (s : str) : Prop := s <> [] /\ s <> lit "." /\ "/"%char ∉ s.

Lemma trim_right_incl segs s : s ∈ trim_right segs -> s ∈ segs.
Proof. induction segs as [|x segs IH]; simpl; [done|]. destruct (no_component x); [|done]. intros H. right. auto. Qed.

Lemma trim_right_head segs s rest : trim_right segs = s :: rest -> no_component s = false.
Proof. induction segs as [|x segs IH]; simpl; [done|]. destruct (no_component x) eqn:E; [done|]. by intros [= <- _]. Qed.

Lemma no_component_false s : no_component s = false -> s <> [] /\ s <> lit ".".
Proof. unfold no_component. intros [?%bool_decide_eq_false ?%bool_decide_eq_false]%orb_false_iff. done. Qed.

(** A log file's name is one segment: it never leaves its directory. *)
Lemma file_name_component path name : file_name path = Some name -> component name /\ name <> lit "..".
Proof.
  unfold file_name, component. pose proof (split_parts "/" (snd (split_front path))) as Hp.
  destruct (trim_right _) as [|s rest] eqn:E; [done|]. case_decide as Hd; [done|]. intros [= <-].
  pose proof (no_component_false _ (trim_right_head _ _ _ E)) as [Hne Hdot]. split_and!; try done.
  eapply Forall_forall in Hp; [exact Hp|]. apply list_elem_of_In, in_rev, list_elem_of_In.
  apply trim_right_incl. rewrite E. by left.
Qed.

Lemma no_component_name name : component name -> no_component name = false.
Proof. intros (? & ? & _). unfold no_component. by rewrite !bool_decide_eq_false_2. Qed.

(** A directory that ends in a component, and a file name below it, come apart
    again; a bare name goes to the working directory. *)
Lemma split_log_path_dir dir name :
  component name -> name <> lit ".." -> dir <> [] ->
  no_component (rsplit_first "/" (snd (split_front dir))) = false ->
  split_log_path (dir ++ "/"%char :: name) = Ok (dir, name).
Proof.
  intros Hn Hdd Hne Hd.
  assert (split_front (dir ++ "/"%char :: name) =
    (fst (split_front dir), snd (split_front dir) ++ "/"%char :: name)) as Hf.
  { destruct dir as [|c dir]; [done|]. unfold split_front. simpl. case_decide; [done|].
    destruct dir as [|c' dir]; simpl; [by destruct (Ascii.eqb c ".")|].
    unfold starts_with. cbn -[Ascii.eqb]. by destruct (Ascii.eqb c "."), (Ascii.eqb "/" c'). }
  assert (fst (split_front dir) ++ snd (split_front dir) = dir) as Hdir.
  { destruct dir as [|c dir]; [done|]. unfold split_front. case_decide; [done|]. by destruct (_ && _). }
  destruct (split_front dir) as [front body]. simpl in *.
  assert (rev (split_list "/" (body ++ "/"%char :: name)) = name :: rev (split_list "/" body)) as Hs.
  { rewrite split_list_snoc by apply Hn. by rewrite rev_app_distr. }
  assert (trim_right (rev (split_list "/" body)) = rev (split_list "/" body)) as Ht.
  { unfold rsplit_first in Hd. destruct (rev (split_list "/" body)) as [|x l] eqn:E; [done|].
    assert (split_list "/" body = rev l ++ [x]) as Hl by (rewrite <- (rev_involutive (split_list "/" body)), E; done).
    rewrite Hl, last_snoc in Hd. simpl in *. by rewrite Hd. }
  unfold split_log_path, file_name, parent. rewrite Hf. simpl. rewrite Hs. simpl.
  rewrite no_component_name by done. rewrite Ht.
  unfold path_text. rewrite rev_involutive. unfold split_list.
  pose proof (join_split "/" body) as Hj. destruct (split "/" body) as [h t]. simpl in Hj. simpl. rewrite Hj, Hdir.
  by repeat case_decide.
Qed.

(** ** Sinks *)

Section Sinks.
Context {FS : Type}.
Context (create_dir_all : str -> FS -> option FS) (open_append : str -> FS -> option FS)
        (remove_file : str -> FS -> FS) (rolling : Rotation -> str -> str -> FS -> option FS).
Context (stdout_is_terminal stderr_is_terminal : bool) (journald_socket : bool)
        (syslog_open : str -> Facility -> bool).

Abbreviation add_sink := (add_sink create_dir_all open_append remove_file rolling stdout_is_terminal
  stderr_is_terminal journald_socket syslog_open).
Abbreviation add_sinks := (add_sinks create_dir_all open_append remove_file rolling stdout_is_terminal
  stderr_is_terminal journald_socket syslog_open).
Abbreviation build := (build_with_env create_dir_all open_append remove_file rolling stdout_is_terminal
  stderr_is_terminal journald_socket syslog_open).

Definition is_terminal (w : Writer) : bool :=
  match w with ToStdout => stdout_is_terminal | ToStderr => stderr_is_terminal | _ => false end.

(** No escape sequence where none was asked for, and none inside JSON. *)
Definition plain_unless_asked (opts : LogOptions) (l : FmtLayer) : Prop :=
  (style l = Json -> ansi l = false) /\
  (ansi l = true -> use_ansi (color opts) (is_terminal (writer l)) = true).

Definition sink_of (opts : LogOptions) (t : LogTarget) (l : BoxedLayer) : Prop :=
  match t, l with
  | Stdout, FmtBoxed l => writer l = ToStdout /\ style l = format opts /\ plain_unless_asked opts l
  | Stderr, FmtBoxed l => writer l = ToStderr /\ style l = format opts /\ plain_unless_asked opts l
  | File path rotation, FmtBoxed l =>
      style l = format opts /\ plain_unless_asked opts l /\
      exists dir name, split_log_path path = Ok (dir, name) /\ component name /\ name <> lit ".." /\
        writer l = ToFile dir name rotation
  | Journald, JournaldBoxed prefix => prefix = None
  | Syslog ident facility, FmtBoxed l =>
      writer l = ToSyslog ident facility /\ ansi l = false /\ (style l = Json \/ style l = Compact /\ timestamps l = false)
  | _, _ => False
  end.

Definition guard_of (t : LogTarget) : option Guard :=
  match t with
  | File path _ => match split_log_path path with Ok g => Some g | Err _ => None end
  | _ => None
  end.

Lemma split_log_path_name path dir name :
  split_log_path path = Ok (dir, name) -> component name /\ name <> lit "..".
Proof using Type. unfold split_log_path. intros H. inv_guards. simplify_eq. by eapply file_name_component. Qed.

Lemma fmt_layer_sink opts f w a :
  (a = true -> use_ansi (color opts) (is_terminal w) = true) ->
  exists l, fmt_layer f a w = FmtBoxed l /\ writer l = w /\ style l = f /\ plain_unless_asked opts l.
Proof using Type.
  intros Ha. eexists. split_and!; [reflexivity|done|done|]. split; simpl; [by intros ->|]. by destruct f.
Qed.

Lemma add_sink_of opts t fs l g fs' :
  add_sink opts t fs = Built (l, g, fs') -> sink_of opts t l /\ g = option_list (guard_of t).
Proof using Type.
  unfold Logging.add_sink, or_error. destruct t as [| |path r| |ident f].
  - intros [= <- <- <-]. split; [|done]. by destruct (fmt_layer_sink opts (format opts) ToStdout
      (use_ansi (color opts) stdout_is_terminal)) as (l & [= <-] & ?).
  - intros [= <- <- <-]. split; [|done]. by destruct (fmt_layer_sink opts (format opts) ToStderr
      (use_ansi (color opts) stderr_is_terminal)) as (l & [= <-] & ?).
  - simpl. destruct (split_log_path path) as [[dir name]|] eqn:Ep; [|done].
    destruct (create_dir_all dir fs) as [fs1|]; simpl; [|done].
    destruct (open_append _ fs1) as [fs2|]; simpl; [|done].
    destruct (rolling r dir name _) as [fs3|]; [|done]. intros [= <- <- <-]. split; [|done].
    destruct (fmt_layer_sink opts (format opts) (ToFile dir name r) (bool_decide (color opts = ColorAlways)))
      as (l & [= <-] & Hw & Hs & Hp).
    { intros ->%bool_decide_eq_true. done. }
    split; [done|]. split; [done|]. exists dir, name.
    pose proof (split_log_path_name _ _ _ Ep) as [? ?]. done.
  - unfold journald_layer. destruct journald_socket; simpl; [|done]. by intros [= <- <- <-].
  - unfold syslog_layer. destruct (negb _); simpl; [|done]. destruct (syslog_open ident f); simpl; [|done].
    intros [= <- <- <-]. split; [|done]. destruct (format opts); simpl; auto.
Qed.

Lemma add_sinks_of opts ts fs ls gs fs' :
  add_sinks opts ts fs = Built (ls, gs, fs') -> Forall2 (sink_of opts) ts ls /\ gs = omap guard_of ts.
Proof using Type.
  revert fs ls gs. induction ts as [|t ts IH]; intros fs ls gs; simpl; [by intros [= <- <- _]|].
  destruct (add_sink opts t fs) as [[[l g] fs1]| |] eqn:E; [|done|done].
  destruct (add_sinks opts ts fs1) as [[[ls' gs'] fs2]| |] eqn:E'; [|done|done]. intros [= <- <- <-].
  apply add_sink_of in E as [Hs ->]. apply IH in E' as [Hf ->]. split; [by constructor|].
  by destruct (guard_of t).
Qed.

(** The sinks that logging installs.  Each [--log-target] gets exactly one layer,
    in order: it writes where the target says, in the requested format, without
    escape sequences unless asked for (and never inside JSON); a file sink writes a
    single segment below the directory its path names, and keeps one worker guard; a
    syslog record stays on one line.  [RUST_LOG] decides the filter only when it is set,
    not blank and well formed. *)
Theorem sinks_built {FE : FilterEngine} opts rust_log fs layers filter guards fs' :
  build opts rust_log fs = Built (layers, filter, guards, fs') ->
  Forall2 (sink_of opts) (targets opts) layers /\ guards = omap guard_of (targets opts) /\
  filter = match rust_log with
           | Some value => if decide (trim value = []) then filter_new (default_directives (level opts))
                           else default (filter_new (default_directives (level opts))) (filter_try_new value)
           | None => filter_new (default_directives (level opts))
           end.
Proof using Type.
  unfold build_with_env. destruct (add_sinks _ _ _) as [[[ls gs] fs1]| |] eqn:E; [|done|done].
  intros [= <- <- <- _]. apply add_sinks_of in E as [? ->]. split_and!; [done|done|].
  unfold build_filter_from. destruct rust_log as [v|]; [|done]. case_decide; [done|]. by destruct (filter_try_new v).
Qed.

End Sinks.

(** The default filter never silences the bridge and never makes a dependency
    louder than it.  Of the six levels, each is the bridge's own; a target of a noisy
    dependency gets the quieter of that level and [warn]; any other target gets the
    level. *)
Theorem filter_levels {FE : FilterEngine} {FL : FilterLaws FE} level target :
  level ∈ levels ->
  enabled_level (build_filter_from level None) target =
    if starts_with SELF_TARGET target then level
    else if damped target then quieter level (lit "warn") else level.
Proof.
  intros Hl. unfold build_filter_from.
  destruct (decide (level ∈ [lit "trace"; lit "debug"; lit "info"])) as [Hv|Hq].
  - rewrite (verbose_levels _ _ Hl Hv). destruct (starts_with _ _); [done|]. destruct (damped _); [|done].
    revert level Hv Hl. refine (proj1 (Forall_forall _ _) _). repeat constructor.
  - rewrite (quiet_levels _ _ Hl Hq). destruct (starts_with _ _); [done|]. destruct (damped _); [|done].
    revert level Hl Hq. refine (proj1 (Forall_forall _ _) _).
    repeat constructor; intros Hn; try done; exfalso; apply Hn; set_solver.
Qed.

(** ** A filter engine and a file system, to evaluate the properties on *)

Module Examples.
Definition read_directive (part : str) : Directive :=
  match split_once "=" part with Some (t, l) => (Some t, l) | None => (None, part) end.

Fixpoint best (t : str) (ds : list Directive) : option Directive :=
  match ds with
  | [] => None
  | d :: ds' =>
      if applies d t then
        match best t ds' with
        | Some b => if specificity d <? specificity b then Some b else Some d
        | None => Some d
        end
      else best t ds'
  end.

Definition longest_engine : FilterEngine := {|
  EnvFilter := list Directive;
  filter_new s := read_directive <$> split_list "," s;
  filter_try_new s := if contains_char "!" s then None else Some (read_directive <$> split_list "," s);
  enabled_level ds t := match best t ds with Some d => d.2 | None => lit "off" end;
|}.

Lemma best_spec t ds :
  match best t ds with
  | Some b => b ∈ ds /\ applies b t = true /\
      forall d, d ∈ ds -> applies d t = true -> specificity d <= specificity b
  | None => forall d, d ∈ ds -> applies d t = false
  end.
Proof.
  induction ds as [|d ds IH]; simpl; [by intros d Hd%not_elem_of_nil|].
  destruct (applies d t) eqn:Ea; destruct (best t ds) as [b|].
  - destruct IH as (Hb & Hab & Hmax). destruct (Nat.ltb_spec (specificity d) (specificity b)).
    + split_and!; [by right|done|]. intros d' [->|Hd']%elem_of_cons ?; [lia|auto].
    + split_and!; [by left|done|]. intros d' [->|Hd']%elem_of_cons Ha'; [lia|]. specialize (Hmax _ Hd' Ha'). lia.
  - split_and!; [by left|done|]. intros d' [->|Hd']%elem_of_cons Ha'; [lia|]. by rewrite IH in Ha'.
  - destruct IH as (Hb & Hab & Hmax). split_and!; [by right|done|].
    intros d' [->|Hd']%elem_of_cons ?; [congruence|auto].
  - intros d' [->|Hd']%elem_of_cons; auto.
Qed.

Lemma target_char_not c : is_target_char c = false -> forall t, Forall (fun c => is_target_char c = true) t -> c ∉ t.
Proof. intros Hc t Ht Hin. eapply Forall_forall in Ht; [|done]. simpl in Ht. congruence. Qed.

Lemma read_show_directive d : directive_ok d -> read_directive (show_directive d) = d /\ ","%char ∉ show_directive d.
Proof.
  destruct d as [t l]. intros [Hl Ht]. simpl in *.
  assert (contains_char "=" l = false /\ contains_char "," l = false) as [He Hc].
  { revert l Hl. refine (proj1 (Forall_forall _ _) _). repeat constructor. }
  apply contains_char_not_elem in He, Hc. unfold read_directive. destruct t as [t|]; simpl.
  - destruct Ht as [_ Ht]. split.
    + rewrite split_once_app by (by apply target_char_not). done.
    + rewrite not_elem_of_app, not_elem_of_cons. split_and!; [by apply target_char_not|done|done].
  - by rewrite (proj2 (split_once_None _ _) He).
Qed.

#[local] Instance longest_laws : FilterLaws longest_engine.
Proof.
  intros ds d t Hok Hd Ha Hmax. simpl.
  assert (read_directive <$> split_list "," (render ds) = ds) as ->.
  { destruct ds as [|d0 ds]; [by apply not_elem_of_nil in Hd|]. unfold render, split_list.
    rewrite split_join.
    - simpl. inversion_clear Hok as [|?? H0 Hds]. rewrite (proj1 (read_show_directive _ H0)). f_equal.
      clear Hd Hmax. induction Hds as [|d1 ds H1 _ IH]; simpl; [done|].
      rewrite (proj1 (read_show_directive _ H1)). f_equal. exact IH.
    - inversion_clear Hok as [|?? H0 _]. by apply read_show_directive.
    - inversion_clear Hok as [|?? _ Hds]. apply Forall_fmap. eapply Forall_impl; [exact Hds|].
      intros d1 H1. by apply read_show_directive. }
  pose proof (best_spec t ds) as Hb. destruct (best t ds) as [b|]; [|by rewrite Hb in Ha].
  destruct Hb as (Hin & Hab & Hall). destruct (Hmax b Hin Hab) as [->|Hlt]; [done|]. specialize (Hall d Hd Ha). lia.
Qed.

Lemma filter_levels_witness :
  lit "info" ∈ levels /\
  enabled_level (FilterEngine := longest_engine) (build_filter_from (FE := longest_engine) "info" None) "zenoh_bridge_tcp::import"
    = lit "info" /\
  enabled_level (FilterEngine := longest_engine) (build_filter_from (FE := longest_engine) "info" None) "zenoh::transport"
    = lit "warn".
Proof.
  assert (lit "info" ∈ levels) as Hl by (apply (bool_decide_eq_true_1 _); vm_compute; reflexivity).
  split; [done|].
  rewrite !(filter_levels (FE := longest_engine) (FL := longest_laws) "info" _ Hl). split; vm_compute; reflexivity.
Defined.

Definition web_options : LogOptions :=
  {| level := lit "info"; format := Json; color := ColorAlways;
     targets := [Stderr; File "/var/log/zb.log" Daily; Syslog "bridge" Local3] |}.

Definition any_dir (dir : str) (made : list str) : option (list str) := Some (made ++ [dir]).

Lemma sinks_built_witness :
  exists layers filter,
    build_with_env any_dir any_dir (fun _ made => made) (fun _ _ _ made => Some made) false true true
      (fun _ _ => true) (FE := longest_engine) web_options (Some (lit " ")) [] =
      Built (layers, filter, [(lit "/var/log", lit "zb.log")],
             [lit "/var/log"; lit "/var/log/.zenoh-bridge-log.probe"]) /\
    length layers = 3 /\ filter = filter_new (FilterEngine := longest_engine) (default_directives "info").
Proof.
  eexists _, _. split; [vm_compute; reflexivity|].
  split; [reflexivity|].
  refine (proj2 (proj2 (sinks_built any_dir any_dir (fun _ made => made) (fun _ _ _ made => Some made) false true true
    (fun _ _ => true) (FE := longest_engine) web_options (Some (lit " ")) [] _ _ _ _ _))).
  vm_compute. reflexivity.
Defined.

(** The probe covers the directory, not the file: a path that names an existing
    directory passes it, and the appender then panics. *)
Theorem appender_panics_past_the_probe :
  build_with_env any_dir any_dir (fun _ made => made)
    (fun _ dir name made => if decide (path_join dir name = lit "/var/log") then None else Some made)
    false true true (fun _ _ => true) (FE := longest_engine)
    {| level := lit "info"; format := Full; color := ColorNever; targets := [File "/var/log/" Never] |} None [] =
  AppenderPanics "/var/log/".
Proof. vm_compute. reflexivity. Qed.
End Examples.
