(* ===== verification/Net.v ===== *)
(** * Net: [std::net::SocketAddr] as the bridge reads and prints it

    Spec strings hold socket addresses, which the source parses with
    [str::parse::<SocketAddr>()] and prints with [Display].  This file writes out
    the standard library's recursive-descent parser ([core::net::parser]) and its
    printer for IPv4 and IPv6 addresses, and proves that printing then parsing
    gives the address back. *)

From S2P Require Import Prelude Text.

(** ** Data *)

Inductive SocketAddr : Type :=
| V4 (a b c d : N) (port : N)
| V6 (segs : list N) (scope_id : N) (port : N).

#[export] Instance SocketAddr_eq_dec : EqDecision SocketAddr.
Proof. solve_decision. Defined.

Definition byte_ok (n : N) : Prop := (n <= 255)%N.
Definition u16_ok (n : N) : Prop := (n <= u16_max)%N.

(** What the Rust type guarantees: octets and segments fit their width. *)
Definition addr_wf (x : SocketAddr) : Prop :=
  match x with
  | V4 a b c d p => byte_ok a /\ byte_ok b /\ byte_ok c /\ byte_ok d /\ u16_ok p
  | V6 segs sc p => length segs = 8 /\ Forall u16_ok segs /\ (sc <= u32_max)%N /\ u16_ok p
  end.

(** ** The parser *)

Definition parser (A : Type) : Type := str -> option (A * str).

Definition read_given_char (c : ascii) : parser unit := fun s =>
  match s with
  | x :: s' => if Ascii.eqb x c then Some (tt, s') else None
  | [] => None
  end.

(** The separator is read before every item but the first. *)
Definition read_separator {A} (c : ascii) (i : nat) (p : parser A) : parser A := fun s =>
  match i with
  | 0 => p s
  | S _ => '(_, s1) ← read_given_char c s; p s1
  end.

Fixpoint span_digits (radix : N) (s : str) : str * str :=
  match s with
  | [] => ([], [])
  | c :: s' =>
      match to_digit radix c with
      | Some _ => let (ds, r) := span_digits radix s' in (c :: ds, r)
      | None => ([], s)
      end
  end.

Definition read_number (radix : N) (max_digits : option nat) (allow_zero_prefix : bool)
    (max : N) : parser N := fun s =>
  let (ds, rest) := span_digits radix s in
  if match max_digits with Some k => k <? length ds | None => false end then None
  else if negb allow_zero_prefix && starts_with ["0"%char] ds && (1 <? length ds) then None
  else v ← parse_digits radix ds; if (v <=? max)%N then Some (v, rest) else None.

Definition read_octet (i : nat) : parser N :=
  read_separator "." i (read_number 10 (Some 3) false 255).

Definition read_ipv4_addr : parser (N * N * N * N) := fun s =>
  '(a, s) ← read_octet 0 s;
  '(b, s) ← read_octet 1 s;
  '(c, s) ← read_octet 2 s;
  '(d, s) ← read_octet 3 s;
  Some (a, b, c, d, s).

Definition read_group (i : nat) : parser N :=
  read_separator ":" i (read_number 16 (Some 4) true u16_max).

(** The groups read, whether an embedded IPv4 address ended them, the rest. *)
Fixpoint read_groups (remaining i : nat) (s : str) : list N * bool * str :=
  match remaining with
  | 0 => ([], false, s)
  | S remaining' =>
      match (if 0 <? remaining' then read_separator ":" i read_ipv4_addr s else None) with
      | Some (a, b, c, d, s') => ([a * 256 + b; c * 256 + d]%N, true, s')
      | None =>
          match read_group i s with
          | Some (g, s') =>
              let '(gs, v4, s'') := read_groups remaining' (S i) s' in (g :: gs, v4, s'')
          | None => ([], false, s)
          end
      end
  end.

Definition read_ipv6_addr : parser (list N) := fun s =>
  let '(hd, hd_v4, s1) := read_groups 8 0 s in
  if length hd =? 8 then Some (hd, s1)
  else if hd_v4 then None
  else
    '(_, s2) ← read_given_char ":" s1;
    '(_, s3) ← read_given_char ":" s2;
    let '(tl, _, s4) := read_groups (8 - (length hd + 1)) 0 s3 in
    Some (hd ++ replicate (8 - length hd - length tl) 0%N ++ tl, s4).

Definition read_port : parser N := fun s =>
  '(_, s1) ← read_given_char ":" s; read_number 10 None true u16_max s1.

Definition read_scope_id : parser N := fun s =>
  '(_, s1) ← read_given_char "%" s; read_number 10 None true u32_max s1.

Definition read_socket_addr_v4 : parser SocketAddr := fun s =>
  '(a, b, c, d, s1) ← read_ipv4_addr s;
  '(p, s2) ← read_port s1;
  Some (V4 a b c d p, s2).

Definition read_socket_addr_v6 : parser SocketAddr := fun s =>
  '(_, s1) ← read_given_char "[" s;
  '(ip, s2) ← read_ipv6_addr s1;
  let '(sc, s3) := default (0%N, s2) (read_scope_id s2) in
  '(_, s4) ← read_given_char "]" s3;
  '(p, s5) ← read_port s4;
  Some (V6 ip sc p, s5).

Definition parse_socket_addr (s : str) : option SocketAddr :=
  match (match read_socket_addr_v4 s with
         | Some r => Some r
         | None => read_socket_addr_v6 s
         end) with
  | Some (x, []) => Some x
  | _ => None
  end.

(** ** The printer *)

Definition show_ipv4 (a b c d : N) : str :=
  show_N a ++ "."%char :: show_N b ++ "."%char :: show_N c ++ "."%char :: show_N d.

(** The first longest run of zero segments: its start and its length. *)
Fixpoint longest_run (i : nat) (cur best : nat * nat) (zs : list bool) : nat * nat :=
  match zs with
  | [] => best
  | true :: zs' =>
      let cur' := (if snd cur =? 0 then i else fst cur, S (snd cur)) in
      longest_run (S i) cur' (if snd best <? snd cur' then cur' else best) zs'
  | false :: zs' => longest_run (S i) (0, 0) best zs'
  end.

Definition zero_run (segs : list N) : nat * nat :=
  longest_run 0 (0, 0) (0, 0) ((fun g => (g =? 0)%N) <$> segs).

(** Groups separated by [':']; every group but the first of a part carries one. *)
Fixpoint show_more (gs : list N) : str :=
  match gs with
  | [] => []
  | g :: gs' => ":"%char :: show_hex g ++ show_more gs'
  end.

Definition show_groups (gs : list N) : str :=
  match gs with
  | [] => []
  | g :: gs' => show_hex g ++ show_more gs'
  end.

Definition show_compressed (segs : list N) : str :=
  let (start, len) := zero_run segs in
  if 1 <? len
  then show_groups (take start segs) ++ "::" ++ show_groups (drop (start + len) segs)
  else show_groups segs.

(** An IPv4-mapped address prints its last two segments in dotted form. *)
Definition show_ipv6 (segs : list N) : str :=
  match drop 6 segs with
  | [ab; cd] =>
      if bool_decide (take 6 segs = [0; 0; 0; 0; 0; 65535]%N)
      then "::ffff:" ++ show_ipv4 (ab / 256) (ab mod 256) (cd / 256) (cd mod 256)
      else show_compressed segs
  | _ => show_compressed segs
  end.

Definition show_socket_addr (x : SocketAddr) : str :=
  match x with
  | V4 a b c d p => show_ipv4 a b c d ++ ":"%char :: show_N p
  | V6 segs sc p =>
      "["%char :: show_ipv6 segs ++ (if (sc =? 0)%N then [] else "%"%char :: show_N sc)
        ++ "]"%char :: ":"%char :: show_N p
  end.

(** ** Round trip *)

#[local] Arguments read_octet : simpl never.
#[local] Arguments read_group : simpl never.
#[local] Arguments read_number : simpl never.
#[local] Arguments read_ipv4_addr : simpl never.
#[local] Arguments show_ipv4 : simpl never.

(** The text [r] does not continue a number of this radix. *)
Definition ends_number (radix : N) (r : str) : Prop :=
  match r with [] => True | c :: _ => to_digit radix c = None end.

Lemma span_digits_app radix ds r :
  Forall (fun c => is_Some (to_digit radix c)) ds -> ends_number radix r ->
  span_digits radix (ds ++ r) = (ds, r).
Proof.
  intros Hds Hr. induction Hds as [|c ds [d Hc] _ IH]; simpl.
  - destruct r; simpl in *; [done|]. by rewrite Hr.
  - by rewrite Hc, IH.
Qed.

Lemma read_number_show radix md zp max n r :
  (2 <= radix <= 16)%N -> ends_number radix r -> (n <= max)%N ->
  match md with Some k => 0 < k /\ (n < radix ^ N.of_nat k)%N | None => True end ->
  read_number radix md zp max (show_radix radix n ++ r) = Some (n, r).
Proof.
  intros Hrad Hr Hn Hmd. unfold read_number.
  rewrite span_digits_app by (auto using show_digits).
  destruct (match md with Some k => k <? length (show_radix radix n) | None => false end) eqn:E.
  { destruct md as [k|]; [|done]. apply Nat.ltb_lt in E. destruct Hmd as [Hk Hlt].
    pose proof (show_length_le radix Hrad k n Hlt Hk). lia. }
  destruct (negb zp && starts_with ["0"%char] (show_radix radix n)
            && (1 <? length (show_radix radix n))) eqn:E'.
  { inv_guards. apply Nat.ltb_lt in H0.
    match goal with H : starts_with _ _ = true |- _ => apply starts_with_spec in H as [l Hl] end.
    assert (n = 0%N) as -> by (eapply show_head; [done|exact Hl|done]).
    rewrite show_small in H0 by lia. simpl in H0. lia. }
  rewrite parse_show by done. simpl. by rewrite (proj2 (N.leb_le _ _) Hn).
Qed.

Lemma read_octet_first n r :
  byte_ok n -> ends_number 10 r -> read_octet 0 (show_N n ++ r) = Some (n, r).
Proof.
  intros Hn Hr. unfold byte_ok in *. apply read_number_show; [lia|done|done|].
  split; [lia|]. change (10 ^ N.of_nat 3)%N with 1000%N. lia.
Qed.

Lemma read_octet_next i n r :
  byte_ok n -> ends_number 10 r ->
  read_octet (S i) ("."%char :: show_N n ++ r) = Some (n, r).
Proof. intros. by apply (read_octet_first n r). Qed.

Lemma read_ipv4_show a b c d r :
  byte_ok a -> byte_ok b -> byte_ok c -> byte_ok d -> ends_number 10 r ->
  read_ipv4_addr (show_ipv4 a b c d ++ r) = Some (a, b, c, d, r).
Proof.
  intros. unfold read_ipv4_addr, show_ipv4.
  rewrite <- !app_assoc. simpl. rewrite <- !app_assoc. simpl. rewrite <- !app_assoc.
  rewrite read_octet_first by done. simpl.
  rewrite read_octet_next by done. simpl.
  rewrite read_octet_next by done. simpl.
  by rewrite read_octet_next.
Qed.

Lemma read_port_show p :
  u16_ok p -> read_port (":"%char :: show_N p) = Some (p, []).
Proof.
  intros Hp. unfold read_port. simpl.
  rewrite <- (app_nil_r (show_N p)). by apply read_number_show.
Qed.

Lemma parse_show_v4 a b c d p :
  addr_wf (V4 a b c d p) ->
  parse_socket_addr (show_socket_addr (V4 a b c d p)) = Some (V4 a b c d p).
Proof.
  intros (Ha & Hb & Hc & Hd & Hp). unfold parse_socket_addr, read_socket_addr_v4.
  simpl. rewrite read_ipv4_show by done. simpl. by rewrite read_port_show.
Qed.

(** *** IPv6 *)

Definition hex_digits : str -> Prop := Forall (fun c => is_Some (to_digit 16 c)).

(** The text that follows a group of a printed address. *)
Definition after_group (r : str) : Prop :=
  match r with [] => True | c :: _ => c = ":"%char \/ c = "]"%char \/ c = "%"%char end.

(** The text that follows a complete part: the end, or the ["::"] gap. *)
Definition after_part (r : str) : Prop :=
  match r with
  | [] => True
  | c :: r' =>
      c = "]"%char \/ c = "%"%char \/ (c = ":"%char /\ exists r'', r' = ":"%char :: r'')
  end.

Lemma after_part_group r : after_part r -> after_group r.
Proof. destruct r; simpl; naive_solver. Qed.

Lemma after_group_ends r : after_group r -> ends_number 16 r.
Proof. destruct r as [|c r]; simpl; [done|]. intros [-> | [-> | ->]]; done. Qed.

Lemma show_more_after gs r : after_group r -> after_group (show_more gs ++ r).
Proof. destruct gs; simpl; auto. Qed.

Lemma span_no_dot x r :
  hex_digits x -> after_group r -> head (snd (span_digits 10 (x ++ r))) <> Some "."%char.
Proof.
  intros Hx Hr. induction Hx as [|c x [d Hc] _ IH]; simpl.
  - destruct r as [|c r]; simpl in *; [done|].
    destruct Hr as [-> | [-> | ->]]; done.
  - destruct (to_digit 10 c); simpl.
    + by destruct (span_digits 10 (x ++ r)).
    + by intros [= ->].
Qed.

Lemma read_number_rest radix md zp max s v r :
  read_number radix md zp max s = Some (v, r) -> r = snd (span_digits radix s).
Proof. unfold read_number. destruct (span_digits radix s). intros. crush_step H. Qed.

(** A group is never taken for a dotted address. *)
Lemma read_ipv4_group x r :
  hex_digits x -> after_group r -> read_ipv4_addr (x ++ r) = None.
Proof.
  intros Hx Hr. unfold read_ipv4_addr.
  destruct (read_octet 0 (x ++ r)) as [[a s]|] eqn:E; [|done]. simpl.
  apply read_number_rest in E. pose proof (span_no_dot x r Hx Hr) as Hd.
  rewrite <- E in Hd. clear E.
  assert (read_octet 1 s = None) as ->; [|done].
  unfold read_octet, read_separator, read_given_char.
  destruct s as [|c s]; [done|]. simpl in Hd.
  by rewrite (proj2 (Ascii.eqb_neq c ".")) by congruence.
Qed.

Lemma show_hex_digits g : hex_digits (show_hex g).
Proof. by apply show_digits. Qed.

Lemma read_group_first g r :
  u16_ok g -> after_group r -> read_group 0 (show_hex g ++ r) = Some (g, r).
Proof.
  unfold u16_ok, u16_max. intros Hg Hr.
  apply read_number_show; [lia | by apply after_group_ends | done |].
  split; [lia|]. change (16 ^ N.of_nat 4)%N with 65536%N. lia.
Qed.

Lemma read_group_next i g r :
  u16_ok g -> after_group r -> read_group (S i) (":"%char :: show_hex g ++ r) = Some (g, r).
Proof. intros. by apply (read_group_first g r). Qed.

Lemma read_groups_stop n i r : after_part r -> read_groups n i r = ([], false, r).
Proof.
  intros Hr. destruct n as [|n]; [done|]. simpl.
  assert (forall i, read_separator ":" i read_ipv4_addr r = None) as H4.
  { intros [|j]; simpl.
    - apply (read_ipv4_group []); [constructor | by apply after_part_group].
    - destruct r as [|c r]; [done|]. simpl in *.
      by destruct Hr as [-> | [-> | [-> [r' ->]]]]. }
  assert (read_group i r = None) as ->.
  { unfold read_group. destruct i as [|j]; simpl.
    - destruct r as [|c r]; [done|]. by destruct Hr as [-> | [-> | [-> _]]].
    - destruct r as [|c r]; [done|]. by destruct Hr as [-> | [-> | [-> [r' ->]]]]. }
  destruct (0 <? n); [by rewrite H4 | done].
Qed.

Lemma read_groups_more gs n i r :
  Forall u16_ok gs -> length gs <= n -> after_part r ->
  read_groups n (S i) (show_more gs ++ r) = (gs, false, r).
Proof.
  intros Hgs. revert n i. induction Hgs as [|g gs Hg _ IH]; intros n i Hn Hr; simpl in *.
  - by apply read_groups_stop.
  - destruct n as [|n]; [lia|]. simpl. rewrite <- app_assoc.
    pose proof (show_more_after gs r (after_part_group r Hr)).
    rewrite read_ipv4_group by auto using show_hex_digits.
    rewrite read_group_next by done. rewrite IH by (done || lia).
    by destruct (0 <? n).
Qed.

Lemma read_groups_show gs n r :
  Forall u16_ok gs -> length gs <= n -> after_part r ->
  read_groups n 0 (show_groups gs ++ r) = (gs, false, r).
Proof.
  intros Hgs Hn Hr. destruct Hgs as [|g gs Hg Hgs]; simpl in *.
  - by apply read_groups_stop.
  - destruct n as [|n]; [lia|]. simpl. rewrite <- app_assoc.
    pose proof (show_more_after gs r (after_part_group r Hr)).
    rewrite read_ipv4_group by auto using show_hex_digits.
    rewrite read_group_first by done. rewrite read_groups_more by (done || lia).
    by destruct (0 <? n).
Qed.

Lemma zero_run_bools zs :
  length zs = 8 ->
  let (s, l) := longest_run 0 (0, 0) (0, 0) zs in
  forallb id (take l (drop s zs)) && (s + l <=? 8) = true.
Proof.
  intros H. do 8 (destruct zs as [|[] zs]; [done|..]); destruct zs; done.
Qed.

(** The run that the printer elides is a run of zeros. *)
Lemma zero_run_split segs start len :
  length segs = 8 -> zero_run segs = (start, len) ->
  start + len <= 8 /\ segs = take start segs ++ replicate len 0%N ++ drop (start + len) segs.
Proof.
  intros H8 Hrun. unfold zero_run in Hrun.
  pose proof (zero_run_bools ((fun g => (g =? 0)%N) <$> segs)) as Hb.
  rewrite length_fmap, Hrun in Hb. specialize (Hb H8). inv_guards.
  apply Nat.leb_le in H0. split; [done|].
  rewrite <- (take_drop start segs) at 1. f_equal.
  rewrite <- (take_drop len (drop start segs)) at 1. rewrite drop_drop. f_equal.
  rewrite <- fmap_drop, <- fmap_take in H.
  assert (length (take len (drop start segs)) = len) as Hl
    by (rewrite length_take, length_drop; lia).
  revert Hl H. generalize (take len (drop start segs)) as l. clear.
  intros l <-. induction l as [|g l IH]; simpl; [done|].
  intros [Hg%N.eqb_eq Hl]%andb_prop. by rewrite <- IH, Hg.
Qed.

Lemma read_ipv6_show segs r :
  length segs = 8 -> Forall u16_ok segs -> after_part r ->
  read_ipv6_addr (show_compressed segs ++ r) = Some (segs, r).
Proof.
  intros H8 Hu Hr. unfold read_ipv6_addr, show_compressed.
  destruct (zero_run segs) as [start len] eqn:E.
  destruct (zero_run_split _ _ _ H8 E) as [Hle Hsplit].
  destruct (Nat.ltb_spec 1 len) as [Hlen|Hlen].
  - rewrite <- !app_assoc.
    assert (Forall u16_ok (take start segs)) by (by apply Forall_take).
    assert (Forall u16_ok (drop (start + len) segs)) by (by apply Forall_drop).
    rewrite read_groups_show; [|done|rewrite length_take; lia|simpl; eauto 6].
    assert (length (take start segs) = start) as Hs by (rewrite length_take; lia).
    rewrite Hs, (proj2 (Nat.eqb_neq start 8)) by lia. simpl.
    rewrite read_groups_show; [|done|rewrite length_drop; lia|done].
    rewrite length_drop, H8. simpl.
    replace (8 - start - (8 - (start + len))) with len by lia. by rewrite <- Hsplit.
  - rewrite read_groups_show by (done || lia). by rewrite H8.
Qed.

Lemma read_groups_dotted n g a b c d r :
  u16_ok g -> byte_ok a -> byte_ok b -> byte_ok c -> byte_ok d -> ends_number 10 r ->
  read_groups (S (S (S n))) 0 (show_hex g ++ ":"%char :: show_ipv4 a b c d ++ r)
  = ([g; a * 256 + b; c * 256 + d]%N, true, r).
Proof.
  intros. simpl. rewrite read_ipv4_group by (apply show_hex_digits || simpl; auto).
  rewrite read_group_first by (done || simpl; auto). simpl.
  by rewrite read_ipv4_show.
Qed.

Lemma read_mapped_show ab cd r :
  u16_ok ab -> u16_ok cd -> after_part r -> ends_number 10 r ->
  read_ipv6_addr (("::ffff:" ++ show_ipv4 (ab / 256) (ab mod 256) (cd / 256) (cd mod 256)) ++ r)
  = Some ([0; 0; 0; 0; 0; 65535; ab; cd]%N, r).
Proof.
  unfold u16_ok, u16_max. intros Hab Hcd Hr H10. unfold read_ipv6_addr.
  rewrite <- app_assoc.
  rewrite (read_groups_stop 8 0) by (simpl; eauto). cbn -[read_groups].
  assert (forall n, u16_ok n -> byte_ok (n / 256) /\ byte_ok (n mod 256)) as Hb.
  { unfold u16_ok, u16_max, byte_ok. intros n Hn. split.
    - assert (n / 256 < 256)%N by (by apply N.Div0.div_lt_upper_bound; lia). lia.
    - pose proof (N.mod_lt n 256). lia. }
  destruct (Hb ab Hab), (Hb cd Hcd).
  change (read_groups 7 0 _) with (read_groups 7 0 (show_hex 65535 ++ ":"%char ::
    show_ipv4 (ab / 256) (ab mod 256) (cd / 256) (cd mod 256) ++ r)).
  rewrite read_groups_dotted by done. cbn -[N.div N.modulo N.mul N.add].
  pose proof (N.div_mod ab 256 ltac:(done)). pose proof (N.div_mod cd 256 ltac:(done)).
  do 2 f_equal. repeat f_equal; lia.
Qed.

Lemma show_ipv6_read segs r :
  length segs = 8 -> Forall u16_ok segs -> after_part r -> ends_number 10 r ->
  read_ipv6_addr (show_ipv6 segs ++ r) = Some (segs, r).
Proof.
  intros H8 Hu Hr H10. unfold show_ipv6.
  assert (length (drop 6 segs) = 2) as Hd by (rewrite length_drop; lia).
  destruct (drop 6 segs) as [|ab [|cd [|??]]] eqn:E; try done.
  case_bool_decide as Hm; [|by apply read_ipv6_show].
  assert (segs = [0; 0; 0; 0; 0; 65535; ab; cd]%N) as ->.
  { rewrite <- (take_drop 6 segs), E, Hm. done. }
  decompose_Forall. by apply read_mapped_show.
Qed.

(** *** The whole address *)

(** A printed IPv4-style address is not read off a bracketed one. *)
Lemma read_v4_bracket s : read_socket_addr_v4 ("["%char :: s) = None.
Proof. done. Qed.

Lemma read_scope_show sc r :
  (sc <= u32_max)%N ->
  default (0%N, (if (sc =? 0)%N then [] else "%"%char :: show_N sc) ++ "]"%char :: r)
    (read_scope_id ((if (sc =? 0)%N then [] else "%"%char :: show_N sc) ++ "]"%char :: r))
  = (sc, "]"%char :: r).
Proof.
  intros Hsc. destruct (N.eqb_spec sc 0) as [->|Hne]; [done|].
  unfold read_scope_id. simpl.
  rewrite (read_number_show 10) by done. done.
Qed.

Lemma parse_show_v6 segs sc p :
  addr_wf (V6 segs sc p) ->
  parse_socket_addr (show_socket_addr (V6 segs sc p)) = Some (V6 segs sc p).
Proof.
  intros (H8 & Hu & Hsc & Hp). unfold parse_socket_addr. simpl show_socket_addr.
  rewrite read_v4_bracket. unfold read_socket_addr_v6.
  cbn -[read_ipv6_addr show_ipv6 read_scope_id read_port show_N].
  rewrite show_ipv6_read; [|done|done|by destruct (sc =? 0)%N; simpl; auto|by destruct (sc =? 0)%N].
  cbn -[read_scope_id read_port show_N].
  rewrite read_scope_show by done. cbn -[read_port show_N].
  by rewrite read_port_show.
Qed.

(** Printing a socket address and parsing it back is the identity. *)
Lemma parse_show_socket_addr x :
  addr_wf x -> parse_socket_addr (show_socket_addr x) = Some x.
Proof. destruct x; [apply parse_show_v4 | apply parse_show_v6]. Qed.
#[export] Hint Resolve parse_show_socket_addr : text.

(** ** What the parser returns is well formed *)

Lemma read_number_bound radix md zp max s v r :
  read_number radix md zp max s = Some (v, r) -> (v <= max)%N.
Proof.
  unfold read_number. destruct (span_digits radix s). intros H. crush_step H;
  match goal with H : (_ <=? _)%N = true |- _ => by apply N.leb_le in H end.
Qed.

Lemma read_separator_inv {A} c i (p : parser A) s v r :
  read_separator c i p s = Some (v, r) -> exists s', p s' = Some (v, r).
Proof. destruct i; simpl; [eauto|]. intros H. inv_guards. destruct a. eauto. Qed.

Lemma read_ipv4_wf s a b c d r :
  read_ipv4_addr s = Some (a, b, c, d, r) -> byte_ok a /\ byte_ok b /\ byte_ok c /\ byte_ok d.
Proof.
  unfold read_ipv4_addr, read_octet, byte_ok. intros H.
  repeat match goal with
  | H : (_ ≫= _) = Some _ |- _ => apply bind_Some in H as ([? ?] & ? & H)
  | H : mbind _ _ = Some _ |- _ => apply bind_Some in H as ([? ?] & ? & H)
  end. simplify_eq.
  repeat match goal with
  | H : read_separator _ _ _ _ = Some _ |- _ =>
      apply read_separator_inv in H as (? & H); apply read_number_bound in H
  end. done.
Qed.

Lemma read_groups_wf n i s gs v4 r :
  read_groups n i s = (gs, v4, r) -> length gs <= n /\ Forall u16_ok gs.
Proof.
  revert i s gs v4 r. induction n as [|n IH]; intros i s gs v4 r; simpl.
  - intros [= <- <- <-]. auto.
  - destruct (if 0 <? n then _ else _) as [[[[[a b] c] d] s']|] eqn:E.
    + destruct (Nat.ltb_spec 0 n); [|done].
      apply read_separator_inv in E as (? & E). apply read_ipv4_wf in E.
      unfold byte_ok in E. intros [= <- <- <-]. unfold u16_ok, u16_max.
      split; [simpl; lia|]. repeat constructor; lia.
    + destruct (read_group i s) as [[g s']|] eqn:Eg; [|intros [= <- <- <-]; split; [simpl; lia|done]].
      unfold read_group in Eg. apply read_separator_inv in Eg as (? & Eg).
      apply read_number_bound in Eg.
      destruct (read_groups n (S i) s') as [[gs' v4'] r'] eqn:E'.
      intros [= <- <- <-]. apply IH in E' as [??]. split; [simpl; lia|]. by constructor.
Qed.

Lemma read_ipv6_wf s segs r :
  read_ipv6_addr s = Some (segs, r) -> length segs = 8 /\ Forall u16_ok segs.
Proof.
  unfold read_ipv6_addr. destruct (read_groups 8 0 s) as [[hd v4] s1] eqn:E1.
  apply read_groups_wf in E1 as [Hl Hu].
  destruct (Nat.eqb_spec (length hd) 8); [intros [= <- <-]; auto|].
  destruct v4; [done|]. intros H.
  apply bind_Some in H as ([? s2] & _ & H). apply bind_Some in H as ([? s3] & _ & H).
  destruct (read_groups (8 - (length hd + 1)) 0 s3) as [[tl ?] s4] eqn:E2.
  apply read_groups_wf in E2 as [Hl2 Hu2]. injection H as <- <-.
  rewrite !length_app, length_replicate. split; [lia|].
  rewrite !Forall_app. split_and!; [done| |done].
  apply Forall_replicate. by unfold u16_ok.
Qed.

Lemma parse_socket_addr_wf s x : parse_socket_addr s = Some x -> addr_wf x.
Proof.
  unfold parse_socket_addr. destruct (read_socket_addr_v4 s) as [[y r]|] eqn:E4.
  - destruct r; [|done]. intros [= ->]. unfold read_socket_addr_v4 in E4.
    apply bind_Some in E4 as ([[[[a b] c] d] s1] & H4 & E4).
    apply bind_Some in E4 as ([p s2] & Hp & E4). simplify_eq.
    apply read_ipv4_wf in H4 as (?&?&?&?). unfold read_port in Hp.
    apply bind_Some in Hp as ([? ?] & _ & Hp). apply read_number_bound in Hp. done.
  - destruct (read_socket_addr_v6 s) as [[y r]|] eqn:E6; [|done].
    destruct r; [|done]. intros [= ->]. unfold read_socket_addr_v6 in E6.
    apply bind_Some in E6 as ([? ?] & _ & E6).
    apply bind_Some in E6 as ([ip s2] & H6 & E6). apply read_ipv6_wf in H6 as [??].
    destruct (default (0%N, s2) (read_scope_id s2)) as [sc s3] eqn:Es.
    apply bind_Some in E6 as ([? ?] & _ & E6).
    apply bind_Some in E6 as ([p s5] & Hp & E6). simplify_eq.
    unfold read_port in Hp. apply bind_Some in Hp as ([? ?] & _ & Hp).
    apply read_number_bound in Hp. split_and!; try done.
    destruct (read_scope_id s2) as [[? ?]|] eqn:Esc; simplify_eq/=; [|done].
    unfold read_scope_id in Esc. apply bind_Some in Esc as ([? ?] & _ & Esc).
    by apply read_number_bound in Esc.
Qed.
#[export] Hint Resolve parse_socket_addr_wf : text.

(** The printed form holds no ['/'] and no [',']: the spec separators. *)
Definition addr_char (c : ascii) : bool :=
  is_ascii_digit c || is_ascii_lower c || existsb (Ascii.eqb c) [".";":";"[";"]";"%"]%char.

Lemma show_radix_chars radix n :
  (2 <= radix <= 16)%N -> Forall (fun c => addr_char c = true) (show_radix radix n).
Proof.
  intros Hr. induction n as [n H|n H IH] using (digits_ind radix Hr).
  - rewrite show_small by done. constructor; [|done].
    assert (n < 16)%N as Hn%(small_N _ 16) by lia. clear H. revert n Hn.
    apply List.Forall_forall. by repeat constructor.
  - rewrite show_step by done. apply Forall_app. split; [done|]. constructor; [|done].
    assert (n mod radix < 16)%N as Hn%(small_N _ 16) by (pose proof (N.mod_lt n radix); lia).
    revert Hn. generalize (n mod radix)%N as m. clear.
    apply List.Forall_forall. by repeat constructor.
Qed.

Definition addr_text : str -> Prop := Forall (fun c => addr_char c = true).

Lemma show_groups_chars gs : addr_text (show_more gs) /\ addr_text (show_groups gs).
Proof.
  assert (addr_text (show_more gs)) as Hm.
  { induction gs as [|g gs IH]; simpl; [constructor|].
    constructor; [done|]. apply Forall_app. split; [by apply show_radix_chars | done]. }
  split; [done|]. destruct gs as [|g gs]; simpl in *; [done|].
  apply Forall_app. split; [by apply show_radix_chars|].
  by inversion Hm as [|?? _ H]; apply Forall_app in H as [_ ?].
Qed.

Lemma show_ipv4_chars a b c d : addr_text (show_ipv4 a b c d).
Proof.
  unfold show_ipv4, addr_text.
  repeat first [ apply Forall_app; split | constructor; [done|] ]; by apply show_radix_chars.
Qed.

Lemma show_ipv6_chars segs : addr_text (show_ipv6 segs).
Proof.
  assert (addr_text (show_compressed segs)) as Hc.
  { unfold show_compressed. destruct (zero_run segs) as [s l].
    destruct (1 <? l); [|apply show_groups_chars].
    repeat (apply Forall_app; split); try apply show_groups_chars. by repeat constructor. }
  unfold show_ipv6. destruct (drop 6 segs) as [|? [|? [|??]]]; try done.
  case_bool_decide; [|done]. apply Forall_app. split; [by repeat constructor|].
  apply show_ipv4_chars.
Qed.

Lemma show_addr_chars x : addr_text (show_socket_addr x).
Proof.
  destruct x as [a b c d p|segs sc p]; simpl.
  - apply Forall_app. split; [apply show_ipv4_chars|].
    constructor; [done|]. by apply show_radix_chars.
  - constructor; [done|]. apply Forall_app. split; [apply show_ipv6_chars|].
    apply Forall_app. split.
    + destruct (sc =? 0)%N; [constructor|]. constructor; [done|]. by apply show_radix_chars.
    + do 2 (constructor; [done|]). by apply show_radix_chars.
Qed.

Lemma addr_text_not_in c s : addr_char c = false -> addr_text s -> c ∉ s.
Proof. intros Hc Hs Hin. eapply Forall_forall in Hs; [|exact Hin]. simpl in Hs. congruence. Qed.
#[export] Hint Resolve show_addr_chars addr_text_not_in : text.
