(* ===== verification/Dns.v ===== *)
(** * Dns: routing keys ([src/dns.rs])

    Both sides of the bus turn a host name into a key-expression segment here:
    the listener from a [Host] header, an SNI or an [:authority] ([routing_key]),
    the backend from its [@host] ([spec_host_key]).

    [str::to_lowercase] maps ASCII letters byte by byte; on a string with other
    characters it follows the Unicode tables, which are a parameter
    ([lower_unicode]) since the bridge does not hold them. *)

From S2P Require Import Prelude Text.

(** The Unicode part of the standard library's lower-case mapping. *)
Class UnicodeCase : Type := { lower_unicode : str -> str }.

Section Dns.
Context {U : UnicodeCase}.

Definition to_lowercase (s : str) : str :=
  if is_ascii s then ascii_lower <$> s else lower_unicode s.

(** [tail.is_empty() || tail.strip_prefix(':').is_some_and(parse::<u16>)]. *)
Definition port_suffix (tail : str) : bool :=
  match tail with
  | [] => true
  | c :: p => Ascii.eqb c ":" && (match parse_u16 p with Some _ => true | None => false end)
  end.

Definition unbracket (host : str) : option str :=
  rest ← strip_prefix "[" host;
  '(inner, tail) ← split_once "]" rest;
  if contains_char ":" inner && port_suffix tail then Some inner else None.

Definition normalize_dns (host0 : str) : str :=
  let host := to_lowercase host0 in
  match unbracket host with
  | Some inner => inner
  | None =>
      if 1 <? count_char ":" host then host
      else
        match split_once ":" host with
        | Some (name, port_str) =>
            match parse_u16 port_str with Some _ => name | None => host end
        | None => host
        end
  end.

Definition has_explicit_port (host : str) : bool :=
  match strip_prefix "[" host with
  | Some rest =>
      match split_once "]" rest with
      | Some (_, c :: p) =>
          Ascii.eqb c ":" && (match parse_u16 p with Some _ => true | None => false end)
      | _ => false
      end
  | None =>
      (count_char ":" host =? 1) &&
      match split_once ":" host with
      | Some (_, p) => match parse_u16 p with Some _ => true | None => false end
      | None => false
      end
  end.

Definition is_valid_key_char (c : ascii) : bool :=
  is_ascii_alphanumeric c || existsb (Ascii.eqb c) ["-"; "_"; "."; ":"]%char.

(** The error values name the check that failed. *)
Inductive DnsError : Type :=
| EmptyHost
| StrayColon
| InvalidKeyChar (c : ascii)
| CarriesPort (host : str).

Definition routing_key (host : str) : result DnsError str :=
  let dns := normalize_dns host in
  _ ← ensure (negb (bool_decide (dns = []))) EmptyHost;
  _ ← ensure (negb (count_char ":" dns =? 1)) StrayColon;
  match List.find (fun c => negb (is_valid_key_char c)) dns with
  | Some c => Err (InvalidKeyChar c)
  | None => Ok dns
  end.

Definition spec_host_key (host : str) : result DnsError str :=
  if has_explicit_port host then Err (CarriesPort host) else routing_key host.

(** ** Normalization *)

Definition no_upper (s : str) : Prop := Forall (fun c => is_ascii_upper c = false) s.

Lemma ascii_lower_fix s : no_upper s -> ascii_lower <$> s = s.
Proof.
  induction 1 as [|c s Hc _ IH]; [done|]. rewrite fmap_cons, IH. f_equal.
  unfold ascii_lower. by rewrite Hc.
Qed.

Lemma ascii_lower_no_upper (s : str) : no_upper (ascii_lower <$> s).
Proof.
  assert (forall c, is_ascii_upper (ascii_lower c) = false) as Hl by by_bytes.
  induction s as [|c s IH]; [constructor|]. rewrite fmap_cons. by constructor.
Qed.

Lemma to_lowercase_ascii s : is_ascii s = true -> to_lowercase s = ascii_lower <$> s.
Proof. unfold to_lowercase. by intros ->. Qed.

(** The name inside a well-formed bracketed host, with or without a port. *)
Lemma unbracket_spec host inner :
  unbracket host = Some inner <->
  exists tail, host = "["%char :: inner ++ "]"%char :: tail /\ "]"%char ∉ inner /\
    ":"%char ∈ inner /\ port_suffix tail = true.
Proof.
  unfold unbracket. split.
  - intros H. apply bind_Some in H as (rest & Hr & H).
    apply strip_prefix_Some in Hr as ->.
    apply bind_Some in H as ([i tail] & Hs & H). apply split_once_Some in Hs as [-> Hn].
    crush_step H. exists tail. split_and!; try done. by apply contains_char_elem.
  - intros (tail & -> & Hn & Hc & Hp). simpl.
    rewrite split_once_app by done. simpl. apply contains_char_elem in Hc.
    by rewrite Hc, Hp.
Qed.

Lemma unbracket_none host : "["%char ∉ host -> unbracket host = None.
Proof.
  intros H. destruct (unbracket host) eqn:E; [|done].
  apply unbracket_spec in E as (tail & -> & _). set_solver.
Qed.

(** A host that is already a bare name or a bare IPv6 literal stays. *)
Lemma normalize_bare h :
  is_ascii h = true -> no_upper h -> "["%char ∉ h -> count_char ":" h <> 1 ->
  normalize_dns h = h.
Proof.
  intros Ha Hu Hb Hc. unfold normalize_dns.
  rewrite to_lowercase_ascii, ascii_lower_fix, unbracket_none by done.
  destruct (Nat.ltb_spec 1 (count_char ":" h)); [done|].
  assert (":"%char ∉ h) as Hn by (apply count_char_zero; lia).
  by rewrite (proj2 (split_once_None _ _) Hn).
Qed.

(** ** Keys *)

Definition key_char_ok (k : str) : Prop := Forall (fun c => is_valid_key_char c = true) k.

Lemma routing_key_Ok h k :
  routing_key h = Ok k <->
  k = normalize_dns h /\ k <> [] /\ count_char ":" k <> 1 /\ key_char_ok k.
Proof.
  unfold routing_key. rewrite bind_Ok. setoid_rewrite bind_Ok. split.
  - intros ([] & H1 & [] & H2 & H3). inv_guards. apply Nat.eqb_neq in H2.
    destruct (List.find _ (normalize_dns h)) eqn:E; simplify_eq. split_and!; auto.
    apply Forall_forall. intros c Hc%list_elem_of_In.
    pose proof (List.find_none _ _ E _ Hc) as Hv. by apply negb_false_iff in Hv.
  - intros (-> & Hne & Hc & Hv). exists tt. split.
    { apply ensure_Ok. by apply negb_true_iff, bool_decide_eq_false. }
    exists tt. split; [by apply ensure_Ok, negb_true_iff, Nat.eqb_neq|].
    destruct (List.find _ (normalize_dns h)) eqn:E; [|done].
    apply List.find_some in E as [Hin%list_elem_of_In Hb].
    eapply Forall_forall in Hv; [|exact Hin]. simpl in Hv. by rewrite Hv in Hb.
Qed.

Lemma key_char_ascii c : is_valid_key_char c = true -> is_ascii_char c = true.
Proof. apply implb_true_iff. revert c. by_bytes. Qed.

Lemma key_ascii k : key_char_ok k -> is_ascii k = true.
Proof.
  intros H. apply forallb_forall. intros c Hc%list_elem_of_In.
  eapply Forall_forall in H; [|exact Hc]. by apply key_char_ascii.
Qed.

Lemma key_no_char c k : is_valid_key_char c = false -> key_char_ok k -> c ∉ k.
Proof. intros Hc Hk Hin. eapply Forall_forall in Hk; [|exact Hin]. simpl in Hk. congruence. Qed.

(** A key in canonical form is its own key. *)
Lemma routing_key_canonical k :
  k <> [] -> count_char ":" k <> 1 -> key_char_ok k -> no_upper k -> routing_key k = Ok k.
Proof.
  intros Hne Hc Hk Hu. apply routing_key_Ok. split_and!; try done.
  symmetry. apply normalize_bare; [by apply key_ascii|done|by apply (key_no_char "[")|done].
Qed.

(** The port a client writes after a name is dropped. *)
Lemma normalize_name_port h p :
  is_ascii h = true -> "["%char ∉ h -> ":"%char ∉ h -> (p <= u16_max)%N ->
  normalize_dns (h ++ ":"%char :: show_N p) = ascii_lower <$> h.
Proof.
  intros Ha Hb Hc Hp. unfold normalize_dns.
  assert (is_ascii (h ++ ":"%char :: show_N p) = true) as Hall.
  { unfold is_ascii. rewrite forallb_app. simpl. rewrite andb_true_iff. split; [done|].
    apply forallb_forall. intros c Hin%list_elem_of_In.
    pose proof (show_N_digits p) as Hd. eapply Forall_forall in Hd; [|exact Hin].
    simpl in Hd. revert Hd. apply implb_true_iff. clear. revert c. by_bytes. }
  rewrite to_lowercase_ascii, fmap_app, fmap_cons by done.
  change (ascii_lower ":"%char) with ":"%char.
  assert (fixes ascii_lower "[") as Fb by (by apply ascii_lower_fixes).
  assert (fixes ascii_lower ":") as Fc by (by apply ascii_lower_fixes).
  rewrite unbracket_none.
  2:{ rewrite not_elem_of_app, not_elem_of_cons, !(fixes_elem _ _ _ Fb).
      split_and!; [done|done|by apply show_N_not_in]. }
  rewrite count_char_app, count_char_cons, !(count_char_fmap _ _ _ Fc).
  rewrite (proj2 (count_char_zero ":" h) Hc).
  rewrite (proj2 (count_char_zero ":" (show_N p))) by (by apply show_N_not_in).
  simpl. rewrite split_once_app by (by rewrite (fixes_elem _ _ _ Fc)).
  rewrite parse_u16_lower. unfold parse_u16. by rewrite parse_uint_show.
Qed.

(** A bracketed IPv6 literal is unwrapped, and its port dropped. *)
Lemma normalize_bracketed v6 tail :
  is_ascii v6 = true -> is_ascii tail = true -> "]"%char ∉ v6 -> ":"%char ∈ v6 ->
  port_suffix (ascii_lower <$> tail) = true ->
  normalize_dns ("["%char :: v6 ++ "]"%char :: tail) = ascii_lower <$> v6.
Proof.
  intros Ha Ht Hb Hc Hp. unfold normalize_dns.
  rewrite to_lowercase_ascii.
  2:{ unfold is_ascii in *. simpl. rewrite forallb_app. simpl. by rewrite Ha, Ht. }
  rewrite fmap_cons, fmap_app, fmap_cons.
  change (ascii_lower "["%char) with "["%char. change (ascii_lower "]"%char) with "]"%char.
  rewrite (proj2 (unbracket_spec _ (ascii_lower <$> v6))); [done|].
  exists (ascii_lower <$> tail). split_and!; try done.
  - rewrite fixes_elem; [done|]. by apply ascii_lower_fixes.
  - rewrite fixes_elem; [done|]. by apply ascii_lower_fixes.
Qed.
End Dns.

(** What the bridge relies on in the Unicode tables: a lower-cased string has no
    upper-case ASCII letter left. *)
Class UnicodeCaseLaws (U : UnicodeCase) : Prop :=
  lower_unicode_no_upper : forall s, no_upper (lower_unicode s).

(** The table that leaves every non-ASCII character alone. *)
Definition ascii_case : UnicodeCase := {| lower_unicode s := ascii_lower <$> s |}.

#[export] Instance ascii_case_laws : UnicodeCaseLaws ascii_case.
Proof. intros s. apply ascii_lower_no_upper. Qed.

Section Agreement.
Context {U : UnicodeCase} {L : UnicodeCaseLaws U}.

Lemma to_lowercase_no_upper s : no_upper (to_lowercase s).
Proof.
  unfold to_lowercase. destruct (is_ascii s);
    [apply ascii_lower_no_upper | apply lower_unicode_no_upper].
Qed.

Lemma normalize_no_upper h : no_upper (normalize_dns h).
Proof.
  unfold normalize_dns. pose proof (to_lowercase_no_upper h) as Hu.
  destruct (unbracket (to_lowercase h)) as [inner|] eqn:E.
  - apply unbracket_spec in E as (tail & E & _). rewrite E in Hu.
    inversion_clear Hu as [|?? _ Hu']. by apply Forall_app in Hu' as [? _].
  - destruct (1 <? _); [done|].
    destruct (split_once ":" (to_lowercase h)) as [[name p]|] eqn:Es; [|done].
    destruct (parse_u16 p); [|done]. apply split_once_Some in Es as [Es _].
    rewrite Es in Hu. by apply Forall_app in Hu as [? _].
Qed.

Lemma routing_key_no_upper h k : routing_key h = Ok k -> no_upper k.
Proof. intros (-> & _)%routing_key_Ok. apply normalize_no_upper. Qed.

(** A host in key form carries no port. *)
Lemma has_explicit_port_key k :
  count_char ":" k <> 1 -> "["%char ∉ k -> has_explicit_port k = false.
Proof.
  intros Hc Hb. unfold has_explicit_port.
  destruct (strip_prefix "[" k) eqn:E.
  - apply strip_prefix_Some in E as ->. set_solver.
  - by rewrite (proj2 (Nat.eqb_neq _ 1)).
Qed.

(** A registered key passes the operator's parser unchanged. *)
Lemma spec_host_key_idem h k : spec_host_key h = Ok k -> spec_host_key k = Ok k.
Proof.
  unfold spec_host_key at 1. destruct (has_explicit_port h); [done|]. intros Hr.
  pose proof (routing_key_no_upper h k Hr) as Hu.
  apply routing_key_Ok in Hr as (_ & Hne & Hc & Hk). unfold spec_host_key.
  rewrite has_explicit_port_key by (auto; by apply (key_no_char "[")).
  by apply routing_key_canonical.
Qed.

Lemma spec_host_key_chars h k : spec_host_key h = Ok k -> k <> [] /\ key_char_ok k.
Proof.
  unfold spec_host_key. destruct (has_explicit_port h); [done|].
  by intros (_ & ? & _ & ?)%routing_key_Ok.
Qed.

(** How a client may write the host a backend registered, letter case apart: bare, or
    with the listener's port, an IPv6 literal in brackets. *)
Definition client_authority (k : str) (port : option N) : str :=
  let host := if 1 <? count_char ":" k then "["%char :: k ++ ["]"%char] else k in
  host ++ match port with Some p => ":"%char :: show_N p | None => [] end.

Lemma count_char_elem c s : 0 < count_char c s -> c ∈ s.
Proof.
  intros H. destruct (decide (c ∈ s)) as [|Hn]; [done|].
  apply count_char_zero in Hn. lia.
Qed.

Lemma digits_lower_port p :
  (p <= u16_max)%N -> port_suffix (ascii_lower <$> (":"%char :: show_N p)) = true.
Proof.
  intros Hp. rewrite fmap_cons. change (ascii_lower ":"%char) with ":"%char.
  unfold port_suffix. rewrite Ascii.eqb_refl, parse_u16_lower. unfold parse_u16.
  by rewrite parse_uint_show.
Qed.

Lemma show_N_ascii n : is_ascii (show_N n) = true.
Proof.
  apply forallb_forall. intros c Hin%list_elem_of_In.
  pose proof (show_N_digits n) as Hd. eapply Forall_forall in Hd; [|exact Hin].
  simpl in Hd. revert Hd. apply implb_true_iff. clear. revert c. by_bytes.
Qed.

Lemma client_authority_normal k port :
  key_char_ok k -> no_upper k -> count_char ":" k <> 1 ->
  (forall p, port = Some p -> (p <= u16_max)%N) ->
  normalize_dns (client_authority k port) = k.
Proof.
  intros Hk Hu Hc Hp. pose proof (key_ascii k Hk) as Ha.
  pose proof (key_no_char "[" k eq_refl Hk). pose proof (key_no_char "]" k eq_refl Hk).
  unfold client_authority. destruct (Nat.ltb_spec 1 (count_char ":" k)) as [H6|H6].
  - simpl. rewrite <- app_assoc. simpl.
    assert (":"%char ∈ k) by (apply count_char_elem; lia).
    destruct port as [p|]; rewrite normalize_bracketed by
      first [ done | apply digits_lower_port; by apply Hp | simpl; apply show_N_ascii ];
      by apply ascii_lower_fix.
  - assert (":"%char ∉ k) by (apply count_char_zero; lia).
    destruct port as [p|].
    + rewrite normalize_name_port by (auto; by apply Hp). by apply ascii_lower_fix.
    + rewrite app_nil_r. by apply normalize_bare.
Qed.

(** Letter case apart, two ASCII spellings are one host. *)
Lemma ascii_lower_is_ascii s : is_ascii (ascii_lower <$> s) = is_ascii s.
Proof using Type.
  assert (forall c, is_ascii_char (ascii_lower c) = is_ascii_char c) as Hl.
  { intros c. apply eqb_prop. revert c. by_bytes. }
  induction s as [|c s IH]; [done|]. rewrite fmap_cons. unfold is_ascii in *. simpl. by rewrite Hl, IH.
Qed.

Lemma normalize_same_letters a b :
  is_ascii b = true -> ascii_lower <$> a = ascii_lower <$> b -> normalize_dns a = normalize_dns b.
Proof using Type.
  intros Hb E. assert (is_ascii a = true) as Ha by (by rewrite <- ascii_lower_is_ascii, E, ascii_lower_is_ascii).
  unfold normalize_dns. by rewrite !to_lowercase_ascii, E.
Qed.

Lemma client_authority_ascii k port : is_ascii k = true -> is_ascii (client_authority k port) = true.
Proof using Type.
  intros Hk. unfold client_authority, is_ascii in *.
  rewrite forallb_app. apply andb_true_intro. split.
  - destruct (1 <? _); [|done]. simpl. by rewrite forallb_app, Hk.
  - destruct port as [p|]; [|done]. simpl. apply show_N_ascii.
Qed.
End Agreement.

(** ** Properties *)

(** A routing key minted from any client-supplied host is a single non-empty
    key-expression segment: only letters, digits, [-], [_], [.] and [:] occur in
    it, so no separator or wildcard character reaches the key space, and it never
    holds exactly one colon. *)
Theorem routing_key_safe {U : UnicodeCase} (h k : str) :
  routing_key h = Ok k ->
  k <> [] /\ key_char_ok k /\ count_char ":" k <> 1 /\
  Forall (fun c => c ∉ k) ["/"; "*"; "$"; "?"; "#"; "@"; " "; "["; "]"; ","]%char.
Proof.
  intros (_ & Hne & Hc & Hk)%routing_key_Ok. split_and!; try done.
  repeat constructor; by apply key_no_char.
Qed.

Lemma routing_key_safe_witness :
  let U := ascii_case in
  routing_key "[2001:DB8::1]:9090" = Ok (lit "2001:db8::1") /\ lit "2001:db8::1" <> [].
Proof.
  intros U. split; [by vm_compute|].
  by apply (routing_key_safe "[2001:DB8::1]:9090" "2001:db8::1").
Defined.

(** C35: the key an operator's [@host] registers is in lower case, however the operator
    wrote it, and is the key every client spelling of that host reaches: the bare name,
    and the name or bracketed IPv6 literal followed by any port number, each in any mixture of
    upper and lower case; a registered key is also its own routing key. *)
Theorem registration_matches_clients {U : UnicodeCase} {L : UnicodeCaseLaws U}
    (h k : str) (port : option N) (spelled : str) :
  spec_host_key h = Ok k ->
  (forall p, port = Some p -> (p <= u16_max)%N) ->
  ascii_lower <$> spelled = ascii_lower <$> client_authority k port ->
  no_upper k /\ routing_key h = Ok k /\ routing_key spelled = Ok k /\ spec_host_key k = Ok k.
Proof.
  intros Hs Hp Hsp. pose proof (spec_host_key_idem h k Hs) as Hidem.
  unfold spec_host_key in Hs. destruct (has_explicit_port h); [done|].
  pose proof (routing_key_no_upper h k Hs) as Hu.
  pose proof (proj1 (routing_key_Ok h k) Hs) as (_ & Hne & Hc & Hk).
  split_and!; [done|done| |done]. apply routing_key_Ok.
  rewrite (normalize_same_letters _ (client_authority k port)), client_authority_normal; try done.
  by apply client_authority_ascii, key_ascii.
Qed.

Lemma registration_matches_clients_witness :
  let U := ascii_case in
  spec_host_key "API.local" = Ok (lit "api.local") /\
  routing_key "Api.LOCAL:8080" = Ok (lit "api.local").
Proof.
  intros U. split; [by vm_compute|].
  apply (registration_matches_clients (L := ascii_case_laws) "API.local" "api.local" (Some 8080%N) "Api.LOCAL:8080");
    [by vm_compute | by intros p [= <-] | by vm_compute].
Defined.

(** An operator's [@host] is never silently shortened: a registered key is
    the lower-cased host itself or the inside of its brackets, and a host written
    with a port is refused. *)
Theorem spec_host_key_exact {U : UnicodeCase} (h k : str) :
  is_ascii h = true -> spec_host_key h = Ok k ->
  ascii_lower <$> h = k \/ ascii_lower <$> h = "["%char :: k ++ ["]"%char].
Proof.
  unfold spec_host_key. intros Ha. destruct (has_explicit_port h) eqn:Hport; [done|].
  intros (Hn & _ & Hc & Hk)%routing_key_Ok. unfold normalize_dns in Hn.
  rewrite to_lowercase_ascii in Hn by done.
  assert (fixes ascii_lower "[") as Fb by (by apply ascii_lower_fixes).
  assert (fixes ascii_lower "]") as Fe by (by apply ascii_lower_fixes).
  assert (fixes ascii_lower ":") as Fc by (by apply ascii_lower_fixes).
  destruct (unbracket (ascii_lower <$> h)) as [inner|] eqn:E.
  - subst inner. right. apply unbracket_spec in E as (tail & E & Hb & _ & Ht).
    rewrite E. destruct tail as [|c p]; [done|]. exfalso.
    unfold has_explicit_port in Hport. destruct h as [|x h]; [done|].
    rewrite fmap_cons in E. injection E as Ex E.
    apply Ascii.eqb_eq in Ex. rewrite Fb in Ex. apply Ascii.eqb_eq in Ex as ->. simpl in Hport.
    pose proof (split_once_fmap _ _ h Fe) as Hs. rewrite E, split_once_app in Hs by done.
    destruct (split_once "]" h) as [[a b]|]; [|done].
    injection Hs as Hk1 Hs. destruct b as [|y b]; [done|]. rewrite fmap_cons in Hs.
    injection Hs as Hy Hb'. unfold port_suffix in Ht. subst c p.
    rewrite Fc, parse_u16_lower in Ht. by rewrite Ht in Hport.
  - destruct (1 <? _) eqn:E1; [by left|].
    destruct (split_once ":" (ascii_lower <$> h)) as [[name p]|] eqn:Es; [|by left].
    destruct (parse_u16 p) eqn:Ep; [|by left]. exfalso.
    unfold has_explicit_port in Hport. rewrite (split_once_fmap _ _ h Fc) in Es.
    destruct (strip_prefix "[" h) as [r|] eqn:Eb.
    + apply strip_prefix_Some in Eb as ->. simplify_eq.
      destruct (split_once ":" (lit "[" ++ r)) as [[a b]|] eqn:Ea; [|done]. simplify_eq.
      destruct a as [|x a]; [by apply split_once_Some in Ea as [[=] _]|].
      apply split_once_Some in Ea as [[= <- _] _].
      rewrite fmap_cons in Hk. apply (key_no_char "[") in Hk; [|done]. set_solver.
    + destruct (split_once ":" h) as [[a b]|] eqn:Ea; [|done]. simplify_eq.
      rewrite parse_u16_lower in Ep. rewrite Ep, andb_true_r in Hport.
      apply Nat.eqb_neq in Hport. rewrite (count_char_fmap _ _ _ Fc) in E1.
      apply Nat.ltb_ge in E1. apply split_once_Some in Ea as [-> _].
      rewrite count_char_app, count_char_cons in *. simpl in *. lia.
Qed.

Lemma spec_host_key_exact_witness :
  let U := ascii_case in
  spec_host_key "[::1]" = Ok (lit "::1") /\
  (ascii_lower <$> lit "[::1]" = lit "::1" \/
   ascii_lower <$> lit "[::1]" = "["%char :: lit "::1" ++ ["]"%char]).
Proof.
  intros U. split; [by vm_compute|].
  apply (spec_host_key_exact "[::1]" "::1"); by vm_compute.
Defined.
