(* ===== verification/Config.v ===== *)
(** * Config: the bridge's tunables ([src/config.rs])

    Durations are in milliseconds. *)

From S2P Require Import Prelude Text.

(** ** Reliability posture *)

Inductive ReliabilityMode : Type := Stream | Telemetry.

#[export] Instance ReliabilityMode_eq_dec : EqDecision ReliabilityMode.
Proof. solve_decision. Defined.

(** [impl Default]: byte-stream fidelity. *)
Definition ReliabilityMode_default : ReliabilityMode := Stream.

Definition parse_reliability (s : str) : result str ReliabilityMode :=
  let l := ascii_lower <$> s in
  if decide (l = lit "stream") then Ok Stream
  else if decide (l = lit "telemetry") then Ok Telemetry
  else Err l.

(** ** Tunables *)

Record BridgeConfig : Type := {
  buffer_size : N;
  reliability : ReliabilityMode;
  max_connections : N;
  cache_size : N;
  max_header_size : N;
  read_timeout : N;
  heartbeat_interval : N;
  availability_timeout : N;
  drain_timeout : N;
  max_response_size : N;
  response_idle_timeout : N;
  connect_timeout : N;
  rx_channel_capacity : N;
}.

Definition from_secs (n : N) : N := (n * 1000)%N.
Definition from_millis (n : N) : N := n.

Definition BridgeConfig_default : BridgeConfig := {|
  buffer_size := 65536;
  reliability := Stream;
  max_connections := 1024;
  cache_size := 256;
  max_header_size := 16 * 1024;
  read_timeout := from_secs 10;
  heartbeat_interval := from_millis 500;
  availability_timeout := from_millis 1000;
  drain_timeout := from_secs 5;
  max_response_size := 10 * 1024 * 1024;
  response_idle_timeout := from_secs 30;
  connect_timeout := from_secs 10;
  rx_channel_capacity := 256;
|}%N.

Definition BridgeConfig_new (buffer read_timeout_secs drain_timeout_secs : N) : BridgeConfig := {|
  buffer_size := buffer;
  read_timeout := from_secs read_timeout_secs;
  drain_timeout := from_secs drain_timeout_secs;
  reliability := reliability BridgeConfig_default;
  max_connections := max_connections BridgeConfig_default;
  cache_size := cache_size BridgeConfig_default;
  max_header_size := max_header_size BridgeConfig_default;
  heartbeat_interval := heartbeat_interval BridgeConfig_default;
  availability_timeout := availability_timeout BridgeConfig_default;
  max_response_size := max_response_size BridgeConfig_default;
  response_idle_timeout := response_idle_timeout BridgeConfig_default;
  connect_timeout := connect_timeout BridgeConfig_default;
  rx_channel_capacity := rx_channel_capacity BridgeConfig_default;
|}.

(** ** Service names *)

Inductive NameError : Type :=
| EmptyName
| InvalidNameChar (name : str) (c : ascii).

Definition is_name_char (c : ascii) : bool :=
  is_ascii_alphanumeric c || existsb (Ascii.eqb c) ["-"; "_"; "."]%char.

Definition validate_service_name (name : str) : result NameError unit :=
  if bool_decide (name = []) then Err EmptyName
  else match List.find (fun c => negb (is_name_char c)) name with
       | Some c => Err (InvalidNameChar name c)
       | None => Ok tt
       end.

Definition name_ok (name : str) : Prop :=
  name <> [] /\ Forall (fun c => is_name_char c = true) name.

Lemma validate_service_name_Ok name u : validate_service_name name = Ok u <-> name_ok name.
Proof.
  unfold validate_service_name, name_ok. destruct u. case_bool_decide as Hn.
  - split; [done | by intros []].
  - destruct (List.find _ name) eqn:E.
    + apply List.find_some in E as [Hin%list_elem_of_In Hb]. split; [done|].
      intros [_ Hf]. eapply Forall_forall in Hf; [|exact Hin]. simpl in Hf. by rewrite Hf in Hb.
    + split; [|done]. intros _. split; [done|]. apply Forall_forall.
      intros c Hc%list_elem_of_In. pose proof (List.find_none _ _ E _ Hc) as Hv.
      by apply negb_false_iff in Hv.
Qed.

(** No separator of the spec grammar or of the key space occurs in a name. *)
Lemma name_no_char c name : is_name_char c = false -> name_ok name -> c ∉ name.
Proof.
  intros Hc [_ Hn] Hin. eapply Forall_forall in Hn; [|exact Hin]. simpl in Hn. congruence.
Qed.
#[export] Hint Resolve name_no_char : text.

(** ** Zenoh session configuration

    [zenoh::Config] is another crate's: its default value and [insert_json5] are
    parameters. *)
Section ZenohConfig.
Context {Config ZErr : Type} (config_default : Config)
        (insert_json5 : Config -> str -> str -> result ZErr Config).

Inductive ZenohConfigError : Type :=
| SetMode (e : ZErr)
| InvalidMode (mode : str)
| SetConnect (e : ZErr)
| SetListen (e : ZErr).

(** [format!("[\"{}\"]", endpoint)]. *)
Definition quote : ascii := ascii_of_N 34.
Definition endpoint_json (endpoint : str) : str :=
  "["%char :: quote :: endpoint ++ [quote; "]"%char].

Definition set_endpoint (key : str) (wrap : ZErr -> ZenohConfigError)
    (endpoint : option str) (c : Config) : result ZenohConfigError Config :=
  match endpoint with
  | Some e => map_err wrap (insert_json5 c key (endpoint_json e))
  | None => Ok c
  end.

Definition create_zenoh_config (mode : str) (connect listen : option str)
    : result ZenohConfigError Config :=
  c ← (if bool_decide (mode ∈ [lit "peer"; lit "client"; lit "router"])
       then map_err SetMode (insert_json5 config_default "mode" (quote :: mode ++ [quote]))
       else Err (InvalidMode mode));
  c ← set_endpoint "connect/endpoints" SetConnect connect c;
  set_endpoint "listen/endpoints" SetListen listen c.

(** [Config::from_file] and [Config::from_json5]. *)
Inductive ZenohFileError : Type :=
| LoadFile (e : ZErr)
| ParseJson5 (e : ZErr).

Definition create_zenoh_config_from_file (from_file : str -> result ZErr Config) (path : str)
    : result ZenohFileError Config :=
  map_err LoadFile (from_file path).

Definition create_zenoh_config_from_json5 (from_json5 : str -> result ZErr Config) (json5 : str)
    : result ZenohFileError Config :=
  map_err ParseJson5 (from_json5 json5).
End ZenohConfig.
