(* ===== verification/Spec.v ===== *)
(** * Spec: the [--listen] and [--backend] grammar ([src/spec.rs])

    [ListenSpec::from_str], [BackendSpec::from_str] and their [Display] forms.
    A [PathBuf] is the text it was built from.  The error values name the
    place in the parser that returns them. *)

From S2P Require Import Prelude Text Net Dns Config.

(** ** Data *)

Inductive ProtoMode : Type := Auto | Raw.
Inductive TlsMode : Type := Passthrough | Terminate (cert key : str).
Inductive RouteMode : Type := Connection | Request.

#[export] Instance ProtoMode_eq_dec : EqDecision ProtoMode.
Proof. solve_decision. Defined.
#[export] Instance TlsMode_eq_dec : EqDecision TlsMode.
Proof. solve_decision. Defined.
#[export] Instance RouteMode_eq_dec : EqDecision RouteMode.
Proof. solve_decision. Defined.

Record ListenSpec : Type := {
  l_service : str;
  l_addr : SocketAddr;
  l_proto : ProtoMode;
  l_tls : TlsMode;
  l_route : RouteMode;
}.

Inductive BackendTarget : Type := Tcp (addr : SocketAddr) | Ws (url : str).

Record BackendSpec : Type := {
  b_service : str;
  b_host : option str;
  b_target : BackendTarget;
}.


Inductive SpecError : Type :=
| NoSlash
| BadService (e : NameError)
| BadAddress (text : str)
| EmptyOption
| NoEquals (opt : str)
| EmptyValue (name : str)
| DuplicateOption (name : str)
| InvalidProto (value : str)
| InvalidRoute (value : str)
| UnknownOption (name : str)
| CertWithoutKey
| KeyWithoutCert
| RawRequest
| RawTerminate
| RequestTerminate
| EmptySpecHost
| BadHost (e : DnsError)
| HostNormalizesEmpty.

(** ** Display *)

Definition show_listen (x : ListenSpec) : str :=
  l_service x ++ "/"%char :: show_socket_addr (l_addr x)
  ++ (if decide (l_proto x = Raw) then lit ",proto=raw" else [])
  ++ (match l_tls x with
      | Terminate cert key => ",cert=" ++ cert ++ ",key=" ++ key
      | Passthrough => []
      end)
  ++ (if decide (l_route x = Request) then lit ",route=request" else []).

Definition show_target (t : BackendTarget) : str :=
  match t with Tcp addr => show_socket_addr addr | Ws url => url end.

Definition show_backend (x : BackendSpec) : str :=
  (match b_host x with
   | Some host => b_service x ++ "@"%char :: host
   | None => b_service x
   end) ++ "/"%char :: show_target (b_target x).

(** ** Parsing a listener *)

(** The locals of the option loop. *)
Record ListenOpts : Type := {
  o_proto : option ProtoMode;
  o_route : option RouteMode;
  o_cert : option str;
  o_key : option str;
}.

Definition no_opts : ListenOpts :=
  {| o_proto := None; o_route := None; o_cert := None; o_key := None |}.

Definition is_none {A} (o : option A) : bool := match o with None => true | Some _ => false end.

(** One named option: the duplicate check, then the value. *)
Definition set_option (st : ListenOpts) (name value : str) : result SpecError ListenOpts :=
  if decide (name = lit "proto") then
    _ ← ensure (is_none (o_proto st)) (DuplicateOption name);
    p ← (if decide (value = lit "auto") then Ok Auto
         else if decide (value = lit "raw") then Ok Raw
         else Err (InvalidProto value));
    Ok {| o_proto := Some p; o_route := o_route st; o_cert := o_cert st; o_key := o_key st |}
  else if decide (name = lit "route") then
    _ ← ensure (is_none (o_route st)) (DuplicateOption name);
    r ← (if decide (value = lit "connection") then Ok Connection
         else if decide (value = lit "request") then Ok Request
         else Err (InvalidRoute value));
    Ok {| o_proto := o_proto st; o_route := Some r; o_cert := o_cert st; o_key := o_key st |}
  else if decide (name = lit "cert") then
    _ ← ensure (is_none (o_cert st)) (DuplicateOption name);
    Ok {| o_proto := o_proto st; o_route := o_route st; o_cert := Some value; o_key := o_key st |}
  else if decide (name = lit "key") then
    _ ← ensure (is_none (o_key st)) (DuplicateOption name);
    Ok {| o_proto := o_proto st; o_route := o_route st; o_cert := o_cert st; o_key := Some value |}
  else Err (UnknownOption name).

(** One comma-separated part. *)
Definition listen_option (st : ListenOpts) (opt : str) : result SpecError ListenOpts :=
  _ ← ensure (negb (bool_decide (opt = []))) EmptyOption;
  '(name, value) ← ok_or (split_once "=" opt) (NoEquals opt);
  _ ← ensure (negb (bool_decide (value = []))) (EmptyValue name);
  set_option st name value.

Fixpoint listen_options (st : ListenOpts) (opts : list str) : result SpecError ListenOpts :=
  match opts with
  | [] => Ok st
  | opt :: opts' => st' ← listen_option st opt; listen_options st' opts'
  end.

(** [cert=] and [key=] together mean termination; a lone half is refused. *)
Definition tls_of (cert key : option str) : result SpecError TlsMode :=
  match cert, key with
  | Some c, Some k => Ok (Terminate c k)
  | None, None => Ok Passthrough
  | Some _, None => Err CertWithoutKey
  | None, Some _ => Err KeyWithoutCert
  end.

Definition terminates (t : TlsMode) : bool :=
  match t with Terminate _ _ => true | Passthrough => false end.

Definition check_combination (p : ProtoMode) (t : TlsMode) (r : RouteMode)
    : result SpecError unit :=
  _ ← ensure (negb (bool_decide (p = Raw) && bool_decide (r = Request))) RawRequest;
  _ ← ensure (negb (bool_decide (p = Raw) && terminates t)) RawTerminate;
  ensure (negb (bool_decide (r = Request) && terminates t)) RequestTerminate.

Definition parse_listen (spec : str) : result SpecError ListenSpec :=
  '(service, rest) ← ok_or (split_once "/" spec) NoSlash;
  _ ← map_err BadService (validate_service_name service);
  let (addr_part, opts) := split "," rest in
  addr ← ok_or (parse_socket_addr addr_part) (BadAddress addr_part);
  st ← listen_options no_opts opts;
  tls ← tls_of (o_cert st) (o_key st);
  let proto := default Auto (o_proto st) in
  let route := default Connection (o_route st) in
  _ ← check_combination proto tls route;
  Ok {| l_service := service; l_addr := addr; l_proto := proto; l_tls := tls; l_route := route |}.

(** ** Parsing a backend *)

Section Backend.
Context {U : UnicodeCase}.

Definition parse_backend_head (head : str) : result SpecError (str * option str) :=
  match split_once "@" head with
  | Some (service, host) =>
      _ ← ensure (negb (bool_decide (host = []))) EmptySpecHost;
      key ← map_err BadHost (spec_host_key host);
      Ok (service, Some key)
  | None => Ok (head, None)
  end.

Definition parse_target (target : str) : result SpecError BackendTarget :=
  if starts_with "ws://" target || starts_with "wss://" target then Ok (Ws target)
  else addr ← ok_or (parse_socket_addr target) (BadAddress target); Ok (Tcp addr).

Definition parse_backend (spec : str) : result SpecError BackendSpec :=
  '(head, target_part) ← ok_or (split_once "/" spec) NoSlash;
  '(service, host) ← parse_backend_head head;
  _ ← map_err BadService (validate_service_name service);
  _ ← ensure (match host with Some h => negb (bool_decide (h = [])) | None => true end)
        HostNormalizesEmpty;
  target ← parse_target target_part;
  Ok {| b_service := service; b_host := host; b_target := target |}.
End Backend.

(** ** Well-formed specs *)

(** The combinations that [ListenSpec] parsing admits. *)
Definition combination_ok (p : ProtoMode) (t : TlsMode) (r : RouteMode) : Prop :=
  ~ (p = Raw /\ r = Request) /\ ~ (p = Raw /\ terminates t = true) /\
  ~ (r = Request /\ terminates t = true).

(** A path that can be written as an option value. *)
Definition path_ok (p : str) : Prop := p <> [] /\ ","%char ∉ p.

Definition tls_ok (t : TlsMode) : Prop :=
  match t with Terminate c k => path_ok c /\ path_ok k | Passthrough => True end.

Definition listen_ok (x : ListenSpec) : Prop :=
  name_ok (l_service x) /\ addr_wf (l_addr x) /\ tls_ok (l_tls x) /\
  combination_ok (l_proto x) (l_tls x) (l_route x).

Definition opt_path_ok (o : option str) : Prop := forall p, o = Some p -> path_ok p.

Lemma set_option_paths st name value st' :
  set_option st name value = Ok st' -> path_ok value ->
  opt_path_ok (o_cert st) /\ opt_path_ok (o_key st) ->
  opt_path_ok (o_cert st') /\ opt_path_ok (o_key st').
Proof.
  unfold set_option, opt_path_ok. intros H Hv [Hc Hk].
  repeat case_decide; inv_guards; simplify_eq/=; split; naive_solver.
Qed.

Lemma listen_options_paths st opts st' :
  listen_options st opts = Ok st' -> Forall (fun x => ","%char ∉ x) opts ->
  opt_path_ok (o_cert st) /\ opt_path_ok (o_key st) ->
  opt_path_ok (o_cert st') /\ opt_path_ok (o_key st').
Proof.
  revert st. induction opts as [|opt opts IH]; intros st H Ho Hst; simpl in H.
  - by simplify_eq.
  - inv_guards. inversion_clear Ho as [|?? Hc Ho']. eapply IH; [done|done|].
    unfold listen_option in Ha. inv_guards. destruct_and_pairs. inv_guards.
    match goal with H : split_once _ _ = Some _ |- _ => apply split_once_Some in H as [-> _] end.
    eapply set_option_paths; [done| |done]. split; [done|]. set_solver.
Qed.

Lemma check_combination_Ok p t r u : check_combination p t r = Ok u -> combination_ok p t r.
Proof.
  unfold check_combination, combination_ok. intros H. inv_guards.
  destruct p, t, r; simpl in *; naive_solver.
Qed.

Lemma combination_check p t r : combination_ok p t r -> check_combination p t r = Ok tt.
Proof. unfold combination_ok. destruct p, t, r; simpl; naive_solver. Qed.

Lemma parse_listen_ok s x : parse_listen s = Ok x -> listen_ok x.
Proof.
  unfold parse_listen. intros H. inv_guards. destruct a as [service rest].
  inv_guards. pose proof (split_parts "," rest) as Hp. unfold split_list in Hp.
  destruct (split "," rest) as [addr_part opts]. inversion_clear Hp as [|?? _ Ho].
  inv_guards. subst x. split_and!; simpl.
  - by eapply validate_service_name_Ok.
  - eauto with text.
  - match goal with H : listen_options _ _ = Ok _ |- _ =>
      apply listen_options_paths in H as [Hc Hk]; [|done|by split] end.
    unfold tls_of in *. repeat case_match; simplify_eq/=; auto.
  - by eapply check_combination_Ok.
Qed.

(** ** Round trips *)

(** The options that [Display] writes, as separate parts. *)
Definition option_parts (x : ListenSpec) : list str :=
  (if decide (l_proto x = Raw) then [lit "proto=raw"] else []) ++
  (match l_tls x with
   | Terminate cert key => ["cert=" ++ cert; "key=" ++ key]
   | Passthrough => []
   end) ++
  (if decide (l_route x = Request) then [lit "route=request"] else []).

Lemma show_listen_join x :
  show_listen x = l_service x ++ "/"%char :: join "," (show_socket_addr (l_addr x)) (option_parts x).
Proof.
  unfold show_listen, option_parts. destruct x as [s a [] [|c k] []]; simpl;
    rewrite ?app_nil_r; do 2 f_equal; rewrite <- ?app_assoc; done.
Qed.

Lemma option_parts_no_comma x :
  tls_ok (l_tls x) -> Forall (fun p => ","%char ∉ p) (option_parts x).
Proof.
  intros Ht. unfold option_parts. rewrite !Forall_app. split_and!.
  - case_decide; repeat constructor. by apply contains_char_not_elem.
  - destruct (l_tls x) as [|c k]; [constructor|]. destruct Ht as [[_ Hc] [_ Hk]].
    repeat constructor; rewrite not_elem_of_app; split; try done;
      by apply contains_char_not_elem.
  - case_decide; repeat constructor. by apply contains_char_not_elem.
Qed.

Lemma listen_options_parts x :
  listen_ok x ->
  exists st, listen_options no_opts (option_parts x) = Ok st /\
    default Auto (o_proto st) = l_proto x /\ default Connection (o_route st) = l_route x /\
    tls_of (o_cert st) (o_key st) = Ok (l_tls x).
Proof.
  intros (_ & _ & Ht & Hc). destruct x as [s a p t r]; simpl in *.
  unfold option_parts; simpl. destruct t as [|cert key].
  - destruct p, r; simpl; try (eexists; split_and!; reflexivity).
  - destruct Ht as [[Hc1 _] [Hk1 _]]. destruct p, r;
      try (exfalso; destruct Hc as (? & ? & ?); naive_solver).
    destruct cert as [|c1 cert]; [done|]. destruct key as [|k1 key]; [done|].
    simpl. eexists. split_and!; reflexivity.
Qed.

Lemma parse_show_listen x : listen_ok x -> parse_listen (show_listen x) = Ok x.
Proof.
  intros Hx. pose proof Hx as (Hn & Ha & Ht & Hc).
  unfold parse_listen. rewrite show_listen_join.
  rewrite split_once_app by (by apply (name_no_char "/")). simpl.
  rewrite (proj2 (validate_service_name_Ok _ tt) Hn). simpl.
  rewrite split_join; [|by eapply addr_text_not_in, show_addr_chars|by apply option_parts_no_comma].
  rewrite parse_show_socket_addr by done. simpl.
  destruct (listen_options_parts x Hx) as (st & Ho & Hp & Hr & Htls).
  rewrite Ho. simpl. rewrite Htls. simpl. rewrite Hp, Hr.
  rewrite combination_check by done. by destruct x.
Qed.

Section BackendRoundTrip.
Context {U : UnicodeCase} {L : UnicodeCaseLaws U}.

(** What [BackendSpec] parsing guarantees. *)
Definition backend_ok (x : BackendSpec) : Prop :=
  name_ok (b_service x) /\
  (forall h, b_host x = Some h -> h <> [] /\ key_char_ok h /\ spec_host_key h = Ok h) /\
  match b_target x with
  | Tcp addr => addr_wf addr
  | Ws url => starts_with "ws://" url || starts_with "wss://" url = true
  end.

Lemma parse_backend_ok s x : parse_backend s = Ok x -> backend_ok x.
Proof using L.
  unfold parse_backend, parse_target. intros H. inv_guards. destruct_and_pairs. inv_guards.
  destruct_and_pairs. inv_guards. subst x. split_and!; simpl.
  - match goal with H : validate_service_name _ = Ok _ |- _ =>
      by apply validate_service_name_Ok in H end.
  - intros h ->.
    match goal with H : parse_backend_head _ = Ok _ |- _ => unfold parse_backend_head in H;
      destruct (split_once "@" _) as [[??]|]; inv_guards; simplify_eq end.
    match goal with H : spec_host_key _ = Ok _ |- _ =>
      pose proof (spec_host_key_chars _ _ H) as [??]; apply spec_host_key_idem in H end.
    done.
  - match goal with H : (if ?b then _ else _) = Ok _ |- _ => destruct b eqn:E end;
      inv_guards; simplify_eq; eauto with text.
Qed.

(** A socket address is not mistaken for a WebSocket URL. *)
Lemma show_addr_not_ws x : starts_with "ws" (show_socket_addr x) = false.
Proof.
  destruct x as [a b c d p|]; [|done]. unfold show_socket_addr, show_ipv4.
  pose proof (show_N_digits a) as Hd. pose proof (show_nonempty 10 ltac:(lia) a) as Hne.
  unfold show_N in *. destruct (show_radix 10 a) as [|ch s]; [done|].
  inversion_clear Hd as [|?? Hch _]. apply (starts_with_ne "w" ["s"%char] ch).
  by intros <-.
Qed.

Lemma starts_with_weaken p q s : starts_with (p ++ q) s = true -> starts_with p s = true.
Proof.
  rewrite !starts_with_spec. intros [r ->]. exists (q ++ r). by rewrite app_assoc.
Qed.

Lemma parse_show_target t :
  match t with
  | Tcp addr => addr_wf addr
  | Ws url => starts_with "ws://" url || starts_with "wss://" url = true
  end -> parse_target (show_target t) = Ok t.
Proof.
  unfold parse_target. destruct t as [a|url]; cbn [show_target]; intros Ht; [|by rewrite Ht].
  pose proof (show_addr_not_ws a) as Hw.
  destruct (starts_with "ws://" (show_socket_addr a)
            || starts_with "wss://" (show_socket_addr a)) eqn:E.
  - apply orb_prop in E as [E|E].
    + apply (starts_with_weaken "ws" "://") in E. congruence.
    + apply (starts_with_weaken "ws" "s://") in E. congruence.
  - by rewrite parse_show_socket_addr.
Qed.

Lemma parse_show_backend x : backend_ok x -> parse_backend (show_backend x) = Ok x.
Proof.
  intros (Hn & Hh & Ht). unfold parse_backend, show_backend.
  pose proof (name_no_char "@" _ eq_refl Hn). pose proof (name_no_char "/" _ eq_refl Hn).
  destruct x as [svc [h|] tgt]; simpl in *.
  - destruct (Hh h eq_refl) as (Hne & Hk & Hs).
    rewrite split_once_app.
    2:{ rewrite not_elem_of_app, not_elem_of_cons. split_and!; try done.
        by apply (key_no_char "/"). }
    simpl. unfold parse_backend_head. rewrite split_once_app by done. simpl.
    rewrite (bool_decide_eq_false_2 (h = [])), Hs by done. simpl.
    rewrite (proj2 (validate_service_name_Ok _ tt) Hn). simpl.
    rewrite bool_decide_eq_false_2 by done. simpl. by rewrite parse_show_target.
  - rewrite split_once_app by done. simpl. unfold parse_backend_head.
    rewrite (proj2 (split_once_None _ _)) by done. simpl.
    rewrite (proj2 (validate_service_name_Ok _ tt) Hn). simpl.
    by rewrite parse_show_target.
Qed.
End BackendRoundTrip.

(** ** Properties *)

(** Every listener spec the parser accepts prints to a spec that parses back
    to the same value, for IPv4 and IPv6 addresses and every option. *)
Theorem listen_display_roundtrip (s : str) (x : ListenSpec) :
  parse_listen s = Ok x -> parse_listen (show_listen x) = Ok x.
Proof. intros H. by eapply parse_show_listen, parse_listen_ok. Qed.

Lemma listen_display_roundtrip_witness :
  exists x, parse_listen "web/[2001:db8::1%7]:8443,key=/k=1.pem,cert=/c.pem" = Ok x /\
    l_tls x = Terminate "/c.pem" "/k=1.pem" /\ parse_listen (show_listen x) = Ok x.
Proof.
  eexists. split; [vm_compute; reflexivity|]. split; [reflexivity|].
  apply (listen_display_roundtrip "web/[2001:db8::1%7]:8443,key=/k=1.pem,cert=/c.pem").
  vm_compute. reflexivity.
Defined.

(** Every backend spec the parser accepts prints to a spec that parses back to
    the same value: the registered host is a fixed point of host parsing, and a
    WebSocket URL is kept verbatim. *)
Theorem backend_display_roundtrip {U : UnicodeCase} {L : UnicodeCaseLaws U}
    (s : str) (x : BackendSpec) :
  parse_backend s = Ok x -> parse_backend (show_backend x) = Ok x.
Proof. intros H. by eapply parse_show_backend, parse_backend_ok. Qed.

Lemma backend_display_roundtrip_witness :
  let U := ascii_case in
  exists x, parse_backend "edge@[2001:DB8::1]/wss://user@b.example:443/p" = Ok x /\
    b_host x = Some (lit "2001:db8::1") /\ parse_backend (show_backend x) = Ok x.
Proof.
  intros U. eexists. split; [vm_compute; reflexivity|]. split; [reflexivity|].
  apply (backend_display_roundtrip (L := ascii_case_laws)
           "edge@[2001:DB8::1]/wss://user@b.example:443/p").
  vm_compute. reflexivity.
Defined.

(** An accepted listener spec is never self-contradictory: it has a valid
    service name; a raw listener neither terminates TLS nor routes per request; a
    per-request listener does not terminate; key material comes in pairs, with
    non-empty paths. *)
Theorem listen_spec_consistent (s : str) (x : ListenSpec) :
  parse_listen s = Ok x ->
  name_ok (l_service x) /\ addr_wf (l_addr x) /\
  combination_ok (l_proto x) (l_tls x) (l_route x) /\
  forall cert key, l_tls x = Terminate cert key -> cert <> [] /\ key <> [].
Proof.
  intros (Hn & Ha & Ht & Hc)%parse_listen_ok. split_and!; try done.
  intros cert key E. rewrite E in Ht. by destruct Ht as [[? _] [? _]].
Qed.

Lemma listen_spec_consistent_witness :
  exists x, parse_listen "smtp/[::]:2525,proto=raw" = Ok x /\ l_route x = Connection /\
    name_ok (l_service x).
Proof.
  eexists. split; [vm_compute; reflexivity|]. split; [reflexivity|].
  apply (listen_spec_consistent "smtp/[::]:2525,proto=raw"). vm_compute. reflexivity.
Defined.
