(* ===== verification/HttpUtil.v ===== *)
(** * HttpUtil: the canned error responses ([src/http_util.rs])

    The four byte templates the listener writes to a client, and a reader of
    HTTP/1.1 messages that says what a client makes of them. *)

From S2P Require Import Prelude Text.

(** ** The templates *)

Definition CR : ascii := ascii_of_N 13.
Definition LF : ascii := ascii_of_N 10.
Definition crlf : str := [CR; LF].

(** One header line. *)
Definition line (l : str) : str := l ++ crlf.

Definition http_400_response (reason : str) : bytes :=
  let body := "400 Bad Request: " ++ reason in
  line "HTTP/1.1 400 Bad Request" ++
  line "Content-Type: text/plain" ++
  line ("Content-Length: " ++ show_nat (length body)) ++
  line "Connection: close" ++
  crlf ++ body.

Definition http_502_body (dns : str) (close : bool) : bytes :=
  let body := "502 Bad Gateway: No backend available for " ++ dns in
  let connection := if close then line "Connection: close" else line "Connection: keep-alive" in
  line "HTTP/1.1 502 Bad Gateway" ++
  line "Content-Type: text/plain" ++
  line ("Content-Length: " ++ show_nat (length body)) ++
  connection ++
  crlf ++ body.

Definition http_502_response (dns : str) : bytes := http_502_body dns true.
Definition http_502_response_keep_alive (dns : str) : bytes := http_502_body dns false.

Definition http_504_response : bytes :=
  let body := lit "504 Gateway Timeout" in
  line "HTTP/1.1 504 Gateway Timeout" ++
  line "Content-Type: text/plain" ++
  line ("Content-Length: " ++ show_nat (length body)) ++
  line "Connection: close" ++
  crlf ++ body.

(** ** A client's reading of a response *)

(** The text up to the first CRLF, and what follows it. *)
Fixpoint read_line (s : bytes) : option (str * bytes) :=
  match s with
  | [] => None
  | x :: s' =>
      match (if Ascii.eqb x CR then strip_prefix [LF] s' else None) with
      | Some r => Some ([], r)
      | None => '(l, r) ← read_line s'; Some (x :: l, r)
      end
  end.

(** Header lines up to the empty one; the fuel bounds their number. *)
Fixpoint read_head (fuel : nat) (s : bytes) : option (list str * bytes) :=
  match fuel with
  | 0 => None
  | S f =>
      '(l, r) ← read_line s;
      match l with
      | [] => Some ([], r)
      | _ => '(ls, b) ← read_head f r; Some (l :: ls, b)
      end
  end.

Fixpoint header (name : str) (ls : list str) : option str :=
  match ls with
  | [] => None
  | l :: ls' =>
      match strip_prefix (name ++ ": ") l with Some v => Some v | None => header name ls' end
  end.

Record Message : Type := { status : str; headers : list str; body : bytes }.

Definition read_message (s : bytes) : option Message :=
  '(ls, b) ← read_head (S (length s)) s;
  match ls with
  | st :: hs => Some {| status := st; headers := hs; body := b |}
  | [] => None
  end.

(** The message carries its own length: a client that keeps the connection knows
    where the next response starts. *)
Definition framed (m : Message) : Prop :=
  header "Content-Length" (headers m) = Some (show_nat (length (body m))).

Definition closes (m : Message) : bool :=
  bool_decide (header "Connection" (headers m) = Some (lit "close")).

(** ** Reading back *)

Lemma read_line_app l r : CR ∉ l -> read_line (l ++ crlf ++ r) = Some (l, r).
Proof.
  induction l as [|x l IH]; intros Hl; [done|].
  apply not_elem_of_cons in Hl as [Hx Hl]. cbn [read_line app].
  rewrite (proj2 (Ascii.eqb_neq x CR)) by done.
  specialize (IH Hl). simpl in IH |- *. by rewrite IH.
Qed.

Lemma read_head_lines ls b fuel :
  Forall (fun l => l <> [] /\ CR ∉ l) ls -> length ls < fuel ->
  read_head fuel (concat (line <$> ls) ++ crlf ++ b) = Some (ls, b).
Proof.
  intros Hls. revert fuel. induction Hls as [|l ls [Hne Hl] _ IH]; intros [|f] Hf; simpl in Hf; try lia.
  - done.
  - rewrite fmap_cons. cbn [concat]. unfold line at 1. rewrite <- !app_assoc. cbn [read_head].
    rewrite read_line_app by done. simpl. destruct l; [done|].
    specialize (IH f ltac:(lia)). simpl in IH. by rewrite IH.
Qed.

Lemma length_lines (ls : list str) : length ls <= length (concat (line <$> ls)).
Proof.
  induction ls as [|l ls IH]; [done|]. rewrite fmap_cons. cbn [concat length].
  unfold line at 1. rewrite !length_app. simpl. lia.
Qed.

Lemma read_message_lines st hs b :
  Forall (fun l => l <> [] /\ CR ∉ l) (st :: hs) ->
  read_message (concat (line <$> (st :: hs)) ++ crlf ++ b) =
  Some {| status := st; headers := hs; body := b |}.
Proof.
  intros H. unfold read_message. rewrite read_head_lines; [done|done|].
  rewrite length_app. pose proof (length_lines (st :: hs)). lia.
Qed.

(** The lines of every template: no CR inside, none empty. *)
Lemma template_lines st n conn :
  st <> [] -> CR ∉ st -> conn <> [] -> CR ∉ conn ->
  Forall (fun l => l <> [] /\ CR ∉ l)
    [st; lit "Content-Type: text/plain"; "Content-Length: " ++ show_nat n; conn].
Proof.
  intros. repeat constructor; try done.
  - by apply contains_char_not_elem.
  - rewrite not_elem_of_app. split; [by apply contains_char_not_elem|].
    by apply show_N_not_in.
Qed.

Definition template (st : str) (b : bytes) (conn : str) : bytes :=
  concat (line <$> [st; lit "Content-Type: text/plain";
                    "Content-Length: " ++ show_nat (length b); conn]) ++ crlf ++ b.

Lemma template_lines_app st b conn :
  template st b conn =
  line st ++ line "Content-Type: text/plain" ++
  line ("Content-Length: " ++ show_nat (length b)) ++ line conn ++ crlf ++ b.
Proof.
  unfold template. rewrite !fmap_cons, fmap_nil. cbn [concat].
  by rewrite app_nil_r, <- !app_assoc.
Qed.

Lemma read_template st b conn :
  st <> [] -> CR ∉ st -> conn <> [] -> CR ∉ conn ->
  exists m, read_message (template st b conn) = Some m /\ status m = st /\ body m = b /\
    framed m /\ headers m = [lit "Content-Type: text/plain";
                             "Content-Length: " ++ show_nat (length b); conn].
Proof.
  intros. eexists. split; [by apply read_message_lines, template_lines|].
  split_and!; try done.
Qed.

(** ** Properties *)

(** Every error response the bridge writes, whatever the reason or host name in
    its body, is one complete HTTP/1.1 message: a client reads back its status
    line, a [Content-Length] equal to the size of the body, and exactly that body;
    only the keep-alive 502 leaves the connection open. *)
Theorem error_responses_framed (reason dns : str) :
  (exists m, read_message (http_400_response reason) = Some m /\ framed m /\
     closes m = true /\ status m = "HTTP/1.1 400 Bad Request" /\
     body m = "400 Bad Request: " ++ reason) /\
  (exists m, read_message (http_502_response dns) = Some m /\ framed m /\
     closes m = true /\ status m = "HTTP/1.1 502 Bad Gateway" /\
     body m = "502 Bad Gateway: No backend available for " ++ dns) /\
  (exists m, read_message (http_502_response_keep_alive dns) = Some m /\ framed m /\
     closes m = false /\ status m = "HTTP/1.1 502 Bad Gateway" /\
     body m = "502 Bad Gateway: No backend available for " ++ dns) /\
  (exists m, read_message http_504_response = Some m /\ framed m /\
     closes m = true /\ status m = "HTTP/1.1 504 Gateway Timeout").
Proof.
  assert (forall st b conn r,
    r = line st ++ line "Content-Type: text/plain" ++
        line ("Content-Length: " ++ show_nat (length b)) ++ line conn ++ crlf ++ b ->
    st <> [] -> CR ∉ st -> conn <> [] -> CR ∉ conn ->
    exists m, read_message r = Some m /\ framed m /\
      closes m = bool_decide (header "Connection" [conn] = Some (lit "close")) /\
      status m = st /\ body m = b) as H.
  { intros st b conn r -> Hs Hc Hn Hcn. rewrite <- template_lines_app.
    destruct (read_template st b conn Hs Hc Hn Hcn) as (m & Hm & Hst & Hb & Hf & Hh).
    exists m. split_and!; try done. unfold closes. by rewrite Hh. }
  split_and!.
  - apply (H "HTTP/1.1 400 Bad Request" _ "Connection: close"); try done;
      by apply contains_char_not_elem.
  - apply (H "HTTP/1.1 502 Bad Gateway" _ "Connection: close"); try done;
      by apply contains_char_not_elem.
  - apply (H "HTTP/1.1 502 Bad Gateway" _ "Connection: keep-alive"); try done;
      by apply contains_char_not_elem.
  - destruct (H "HTTP/1.1 504 Gateway Timeout" "504 Gateway Timeout" "Connection: close"
      http_504_response) as (m & ? & ? & ? & ? & _); try done;
      [by apply contains_char_not_elem .. | by exists m].
Qed.
