(* ===== verification/Backpressure.v ===== *)
(** * Backpressure: the bounded, non-blocking reception channel
    ([src/backpressure.rs])

    Zenoh's reception thread hands each sample to [rx_callback], which offers it to
    a bounded channel without blocking; the connection's relay task drains the
    channel.  The channel is [tokio::sync::mpsc], another crate's: the class [Mpsc]
    holds the operations the bridge calls and [MpscLaws] their documented
    behaviour, against which everything here is proved; [list_mpsc] is one
    implementation. *)

From S2P Require Import Prelude Text Config.

(** ** The channel *)

Inductive TrySend : Type := Sent | Full | Closed.

Class Mpsc (A : Type) : Type := {
  chan : Type;
  channel : nat -> chan;
  try_send : A -> chan -> TrySend * chan;
  (** Take the oldest item, when there is one. *)
  try_recv : chan -> option (A * chan);
  (** The receiver is dropped. *)
  close : chan -> chan;
  (** What a channel holds, for the laws. *)
  contents : chan -> list A;
  capacity : chan -> nat;
  is_closed : chan -> bool;
}.
Arguments chan A {_}.

Class MpscLaws {A} (M : Mpsc A) : Prop := {
  channel_new n : contents (channel n) = [] /\ capacity (channel n) = n /\
    is_closed (channel n) = false;
  try_send_spec x c :
    try_send x c =
      if is_closed c then (Closed, c)
      else if length (contents c) <? capacity c then (Sent, snd (try_send x c))
      else (Full, c);
  try_send_contents x c :
    is_closed c = false -> length (contents c) < capacity c ->
    contents (snd (try_send x c)) = contents c ++ [x];
  try_send_capacity x c : capacity (snd (try_send x c)) = capacity c;
  try_send_closed x c : is_closed (snd (try_send x c)) = is_closed c;
  try_recv_none c : contents c = [] -> try_recv c = None;
  try_recv_some x xs c :
    contents c = x :: xs ->
    exists c', try_recv c = Some (x, c') /\ contents c' = xs /\ capacity c' = capacity c /\
      is_closed c' = is_closed c;
  close_spec c : is_closed (close c) = true /\ contents (close c) = contents c /\
    capacity (close c) = capacity c;
}.

(** The reference channel: a list, a bound, and whether the receiver is gone. *)
Record ListChan (A : Type) : Type := { lc_items : list A; lc_cap : nat; lc_closed : bool }.
Arguments lc_items {A}.
Arguments lc_cap {A}.
Arguments lc_closed {A}.

#[export] Instance list_mpsc (A : Type) : Mpsc A := {
  chan := ListChan A;
  channel n := {| lc_items := []; lc_cap := n; lc_closed := false |};
  try_send x c :=
    if lc_closed c then (Closed, c)
    else if length (lc_items c) <? lc_cap c
    then (Sent, {| lc_items := lc_items c ++ [x]; lc_cap := lc_cap c; lc_closed := lc_closed c |})
    else (Full, c);
  try_recv c :=
    match lc_items c with
    | [] => None
    | x :: xs => Some (x, {| lc_items := xs; lc_cap := lc_cap c; lc_closed := lc_closed c |})
    end;
  close c := {| lc_items := lc_items c; lc_cap := lc_cap c; lc_closed := true |};
  contents := lc_items;
  capacity := lc_cap;
  is_closed := lc_closed;
}.

#[export] Instance list_mpsc_laws A : MpscLaws (list_mpsc A).
Proof.
  split; simpl; intros.
  - done.
  - destruct (lc_closed c); [done|]. by destruct (length (lc_items c) <? lc_cap c).
  - rewrite H. by rewrite (proj2 (Nat.ltb_lt _ _)).
  - destruct (lc_closed c) eqn:E; [done|]. by destruct (length (lc_items c) <? lc_cap c).
  - destruct (lc_closed c) eqn:E; [done|]. by destruct (length (lc_items c) <? lc_cap c).
  - by rewrite H.
  - rewrite H. eauto.
  - done.
Qed.

(** ** The reception side of one connection *)

Inductive RxWarning : Type :=
| BufferFullReset
| BufferFullShed (total : N).

(** The channel, the connection's cancellation token, the shed counter, the log. *)
Record RxState {A} {M : Mpsc A} : Type := {
  rx : chan A;
  cancelled : bool;
  shed : N;
  warnings : list RxWarning;
}.
Arguments RxState A {M}.

Definition u64_mod : N := 18446744073709551616.

Definition is_power_of_two (n : N) : bool := (n =? 2 ^ N.log2 n)%N && negb (n =? 0)%N.

Section Rx.
Context {A : Type} {M : Mpsc A}.

Definition rx_channel (cap : nat) : RxState A :=
  {| rx := channel cap; cancelled := false; shed := 0; warnings := [] |}.

(** [CancellationToken::cancel]: idempotent. *)
Definition cancel (st : RxState A) : RxState A :=
  {| rx := rx st; cancelled := true; shed := shed st; warnings := warnings st |}.

Definition warn (w : RxWarning) (st : RxState A) : RxState A :=
  {| rx := rx st; cancelled := cancelled st; shed := shed st; warnings := warnings st ++ [w] |}.

Definition with_rx (c : chan A) (st : RxState A) : RxState A :=
  {| rx := c; cancelled := cancelled st; shed := shed st; warnings := warnings st |}.

Definition add_shed (st : RxState A) : RxState A :=
  {| rx := rx st; cancelled := cancelled st; shed := (shed st + 1) mod u64_mod;
     warnings := warnings st |}.

(** The callback installed on the subscriber. *)
Definition rx_callback (mode : ReliabilityMode) (sample : A) (st : RxState A) : RxState A :=
  let (r, c) := try_send sample (rx st) in
  let st := with_rx c st in
  match r with
  | Sent => st
  | Full =>
      match mode with
      | Stream => if cancelled st then st else cancel (warn BufferFullReset st)
      | Telemetry =>
          let st := add_shed st in
          if is_power_of_two (shed st) then warn (BufferFullShed (shed st)) st else st
      end
  | Closed => st
  end.
End Rx.

(** ** One sample *)

Section Laws.
Context {A : Type} {M : Mpsc A} {L : MpscLaws M}.

Lemma try_send_room x c :
  is_closed c = false -> length (contents c) < capacity c ->
  exists c', try_send x c = (Sent, c') /\ contents c' = contents c ++ [x] /\
    capacity c' = capacity c /\ is_closed c' = false.
Proof using L.
  intros Hc Hl. pose proof (try_send_spec x c) as E. rewrite Hc in E.
  rewrite (proj2 (Nat.ltb_lt _ _) Hl) in E. eexists. split; [exact E|].
  rewrite try_send_contents, try_send_capacity, try_send_closed by done. auto.
Qed.

Lemma try_send_full x c :
  is_closed c = false -> capacity c <= length (contents c) -> try_send x c = (Full, c).
Proof using L.
  intros Hc Hl. rewrite try_send_spec, Hc. by rewrite (proj2 (Nat.ltb_ge _ _) Hl).
Qed.

Lemma try_send_gone x c : is_closed c = true -> try_send x c = (Closed, c).
Proof using L. intros Hc. by rewrite try_send_spec, Hc. Qed.

Lemma try_recv_inv x c c' :
  try_recv c = Some (x, c') ->
  contents c = x :: contents c' /\ capacity c' = capacity c /\ is_closed c' = is_closed c.
Proof using L.
  intros H. destruct (contents c) as [|y ys] eqn:E.
  - by rewrite (try_recv_none c E) in H.
  - destruct (try_recv_some y ys c E) as (c'' & H' & <- & ? & ?). rewrite H in H'.
    by simplify_eq.
Qed.

(** A channel with room takes the sample, in either mode. *)
Lemma rx_callback_room mode x (st : RxState A) :
  is_closed (rx st) = false -> length (contents (rx st)) < capacity (rx st) ->
  exists c, rx_callback mode x st = with_rx c st /\
    contents c = contents (rx st) ++ [x] /\ capacity c = capacity (rx st) /\
    is_closed c = false.
Proof using L.
  intros Hc Hl. unfold rx_callback.
  destruct (try_send_room x (rx st) Hc Hl) as (c & -> & ?). by exists c.
Qed.

Lemma with_rx_id (st : RxState A) : with_rx (rx st) st = st.
Proof. by destruct st. Qed.

(** A full channel leaves its contents alone; the mode decides the rest. *)
Lemma rx_callback_full mode x (st : RxState A) :
  is_closed (rx st) = false -> capacity (rx st) <= length (contents (rx st)) ->
  rx (rx_callback mode x st) = rx st /\
  (mode = Stream -> cancelled (rx_callback mode x st) = true /\
                    shed (rx_callback mode x st) = shed st) /\
  (mode = Telemetry -> cancelled (rx_callback mode x st) = cancelled st /\
                       shed (rx_callback mode x st) = ((shed st + 1) mod u64_mod)%N).
Proof using L.
  intros Hc Hl. unfold rx_callback. rewrite try_send_full, with_rx_id by done.
  destruct mode.
  - destruct (cancelled st) eqn:E; (split_and!; [done| intros _; by rewrite ?E | done]).
  - cbn zeta. by destruct (is_power_of_two _).
Qed.

Lemma rx_callback_gone mode x (st : RxState A) :
  is_closed (rx st) = true -> rx_callback mode x st = st.
Proof using L. intros Hc. unfold rx_callback. by rewrite try_send_gone, with_rx_id. Qed.

(** What the relay proofs need of one delivered sample in byte-exact mode: either
    it is queued and the connection's fate is unchanged, or the connection is
    reset. *)
Lemma rx_callback_stream x (st : RxState A) :
  is_closed (rx st) = false ->
  let st' := rx_callback Stream x st in
  is_closed (rx st') = false /\ capacity (rx st') = capacity (rx st) /\
  ((contents (rx st') = contents (rx st) ++ [x] /\ cancelled st' = cancelled st) \/
   (contents (rx st') = contents (rx st) /\ cancelled st' = true)).
Proof using L.
  intros Hc st'. destruct (Nat.lt_ge_cases (length (contents (rx st))) (capacity (rx st))) as [H|H].
  - destruct (rx_callback_room Stream x st Hc H) as (c & E & Hcont & Hcap & Hcl).
    subst st'. rewrite E. simpl. auto.
  - destruct (rx_callback_full Stream x st Hc H) as (E & Hs & _).
    destruct (Hs eq_refl) as [Hcan _]. subst st'. rewrite E. auto.
Qed.

Lemma rx_callback_cancelled mode x (st : RxState A) :
  cancelled st = true -> cancelled (rx_callback mode x st) = true.
Proof.
  intros H. unfold rx_callback. destruct (try_send x (rx st)) as [[] c], mode; simpl; try done.
  - by rewrite H.
  - cbn zeta. by destruct (is_power_of_two _).
Qed.

(** In either mode the queue ends up as it was, or with the sample appended. *)
Lemma rx_callback_any mode x (st : RxState A) :
  contents (rx (rx_callback mode x st)) = contents (rx st) \/
  contents (rx (rx_callback mode x st)) = contents (rx st) ++ [x].
Proof using L.
  destruct (is_closed (rx st)) eqn:Hc; [left; by rewrite rx_callback_gone|].
  destruct (Nat.lt_ge_cases (length (contents (rx st))) (capacity (rx st))) as [H|H].
  - right. destruct (rx_callback_room mode x st Hc H) as (c & -> & ? & _). done.
  - left. destruct (rx_callback_full mode x st Hc H) as (E & _). by rewrite E.
Qed.
End Laws.

(** ** The reception side as a transition system *)

Inductive RxEvent (A : Type) : Type :=
| Deliver (x : A)        (** the bus delivers a sample: the callback runs *)
| Drain                  (** the relay task takes the oldest sample *)
| DropReceiver.          (** the connection tears down *)
Arguments Deliver {A} x.
Arguments Drain {A}.
Arguments DropReceiver {A}.

Section RxSystem.
Context {A : Type} {M : Mpsc A} {L : MpscLaws M} (mode : ReliabilityMode).

(** The state and the samples the relay task has taken. *)
Definition rx_step (s : RxState A * list A) (e : RxEvent A) : option (RxState A * list A) :=
  let (st, got) := s in
  match e with
  | Deliver x => Some (rx_callback mode x st, got)
  | Drain => '(x, c) ← try_recv (rx st); Some (with_rx c st, got ++ [x])
  | DropReceiver => Some (with_rx (close (rx st)) st, got)
  end.

Definition rx_init (cap : nat) : RxState A * list A := (rx_channel cap, []).

Fixpoint delivered (es : list (RxEvent A)) : list A :=
  match es with
  | [] => []
  | Deliver x :: es' => x :: delivered es'
  | _ :: es' => delivered es'
  end.

Fixpoint receiver_dropped (es : list (RxEvent A)) : bool :=
  match es with
  | [] => false
  | DropReceiver :: _ => true
  | _ :: es' => receiver_dropped es'
  end.

Lemma delivered_app es1 es2 : delivered (es1 ++ es2) = delivered es1 ++ delivered es2.
Proof. induction es1 as [|[] es1 IH]; simpl; [done|by rewrite IH|done|done]. Qed.

Lemma receiver_dropped_app es1 es2 :
  receiver_dropped (es1 ++ es2) = receiver_dropped es1 || receiver_dropped es2.
Proof. induction es1 as [|[] es1 IH]; simpl; done. Qed.

Definition reset_warnings (ws : list RxWarning) : nat :=
  length (List.filter (fun w => match w with BufferFullReset => true | _ => false end) ws).

(** The queue never outgrows its bound, whatever the mode. *)
Lemma rx_bounded cap es s :
  run rx_step (rx_init cap) es = Some s ->
  length (contents (rx (fst s))) <= cap /\ capacity (rx (fst s)) = cap.
Proof using L.
  apply (run_invariant rx_step
    (fun s => length (contents (rx (fst s))) <= cap /\ capacity (rx (fst s)) = cap)).
  - simpl. destruct (channel_new cap) as (-> & -> & _). simpl. lia.
  - intros [st got] e s' [Hl Hc] He. simpl in *. destruct e as [x| |]; simpl in He.
    + simplify_eq. simpl. destruct (is_closed (rx st)) eqn:Hcl.
      { by rewrite rx_callback_gone. }
      destruct (Nat.lt_ge_cases (length (contents (rx st))) (capacity (rx st))) as [H|H].
      * destruct (rx_callback_room mode x st Hcl H) as (c & -> & Hcont & Hcap & _). simpl.
        rewrite Hcont, length_app. simpl. lia.
      * destruct (rx_callback_full mode x st Hcl H) as (-> & _). done.
    + apply bind_Some in He as ([x c] & Hr & He). simplify_eq. simpl.
      apply try_recv_inv in Hr as (Hcont & Hcap & _). rewrite Hcont in Hl. simpl in Hl. lia.
    + simplify_eq. simpl. destruct (close_spec (rx st)) as (_ & -> & ->). done.
Qed.
End RxSystem.

Section RxProperties.
Context {A : Type} {M : Mpsc A} {L : MpscLaws M}.

(** Byte-exact mode: while the connection is not reset, nothing is lost. *)
Definition stream_inv (es : list (RxEvent A)) (s : RxState A * list A) : Prop :=
  let (st, got) := s in
  is_closed (rx st) = receiver_dropped es /\
  shed st = 0%N /\
  reset_warnings (warnings st) = (if cancelled st then 1 else 0) /\
  (receiver_dropped es = false -> cancelled st = false ->
   got ++ contents (rx st) = delivered es).

Lemma stream_inv_init cap : stream_inv [] (rx_init cap).
Proof using L. simpl. destruct (channel_new cap) as (-> & _ & ->). done. Qed.

Lemma stream_inv_step es s e s' :
  stream_inv es s -> rx_step Stream s e = Some s' -> stream_inv (es ++ [e]) s'.
Proof using L.
  destruct s as [st got]. intros (Hcl & Hshed & Hw & Heq) He.
  unfold stream_inv. destruct s' as [st' got'].
  rewrite receiver_dropped_app, delivered_app. destruct e as [x| |]; simpl in He |- *.
  - simplify_eq. rewrite orb_false_r. destruct (is_closed (rx st)) eqn:E.
    { rewrite rx_callback_gone, E by done. split_and!; try done. by rewrite <- Hcl. }
    destruct (Nat.lt_ge_cases (length (contents (rx st))) (capacity (rx st))) as [H|H].
    + destruct (rx_callback_room Stream x st E H) as (c & -> & Hcont & _ & Hc'). simpl.
      split_and!; [congruence|done|done|]. intros H1 H2.
      by rewrite Hcont, app_assoc, Heq.
    + pose proof (rx_callback_full Stream x st E H) as (Hrx & Hs & _).
      destruct (Hs eq_refl) as [Hcan Hshed']. rewrite Hrx, Hcan, Hshed'.
      split_and!; [congruence|done| |done].
      unfold rx_callback. rewrite try_send_full, with_rx_id by done.
      destruct (cancelled st); simpl; [done|].
      unfold reset_warnings in *. rewrite List.filter_app, length_app, Hw. done.
  - apply bind_Some in He as ([x c] & Hr & He). simplify_eq. simpl.
    apply try_recv_inv in Hr as (Hcont & _ & Hc'). rewrite orb_false_r, app_nil_r.
    split_and!; [congruence|done|done|]. intros H1 H2.
    rewrite <- (Heq H1 H2), Hcont. by rewrite <- app_assoc.
  - simplify_eq. simpl. destruct (close_spec (rx st)) as (-> & _). rewrite orb_true_r.
    split_and!; done.
Qed.

Lemma stream_inv_run cap es s : run (rx_step Stream) (rx_init cap) es = Some s -> stream_inv es s.
Proof using L.
  apply (run_history_invariant (rx_step Stream) stream_inv (rx_init cap)).
  - apply stream_inv_init.
  - intros ?????. apply stream_inv_step.
Qed.

(** Loss-tolerant mode never resets. *)
Lemma telemetry_not_cancelled cap es s :
  run (rx_step Telemetry) (rx_init cap) es = Some s -> cancelled (fst s) = false.
Proof using L.
  apply (run_invariant (rx_step Telemetry) (fun s => cancelled (fst s) = false)).
  - done.
  - intros [st got] e s' Hc He. destruct e as [x| |]; simpl in *.
    + simplify_eq. simpl. unfold rx_callback. destruct (try_send x (rx st)) as [[] c]; try done.
      cbn zeta. by destruct (is_power_of_two _).
    + apply bind_Some in He as ([x c] & _ & He). by simplify_eq.
    + by simplify_eq.
Qed.
End RxProperties.

(** ** Properties *)

(** C26: in byte-exact mode the reception channel never loses a sample silently: as
    long as the connection has not been reset, what the relay took followed by what
    is queued is exactly what the bus delivered, in order; the queue never exceeds
    the configured capacity; nothing is ever shed; and the reset is announced once. *)
Theorem rx_stream_lossless {A} {M : Mpsc A} {L : MpscLaws M}
    (cap : nat) (es : list (RxEvent A)) (st : RxState A) (got : list A) :
  run (rx_step Stream) (rx_init cap) es = Some (st, got) -> receiver_dropped es = false ->
  (cancelled st = false -> got ++ contents (rx st) = delivered es) /\
  length (contents (rx st)) <= cap /\ shed st = 0%N /\
  reset_warnings (warnings st) = (if cancelled st then 1 else 0).
Proof.
  intros Hr Hd. pose proof (stream_inv_run cap es _ Hr) as (_ & Hs & Hw & Heq).
  pose proof (rx_bounded Stream cap es _ Hr) as [Hl _]. auto.
Qed.

Lemma rx_stream_lossless_witness :
  let es := [Deliver 1; Deliver 2; Drain; Deliver 3] in
  exists st, run (rx_step (M := list_mpsc nat) Stream) (rx_init 2) es = Some (st, [1]) /\
    [1] ++ contents (rx st) = [1; 2; 3].
Proof.
  eexists. split; [vm_compute; reflexivity|].
  apply (rx_stream_lossless (L := list_mpsc_laws nat) 2
           [Deliver 1; Deliver 2; Drain; Deliver 3]); vm_compute; reflexivity.
Defined.

(** An overflowing sample never blocks: in byte-exact mode it trips the
    connection's token and is not queued, in loss-tolerant mode it is counted and
    dropped without touching the token; after the receiver is gone it is ignored. *)
Theorem rx_overflow_policy {A} {M : Mpsc A} {L : MpscLaws M} (x : A) (st : RxState A) :
  capacity (rx st) <= length (contents (rx st)) ->
  (is_closed (rx st) = false ->
     (cancelled (rx_callback Stream x st) = true /\ rx (rx_callback Stream x st) = rx st) /\
     (cancelled (rx_callback Telemetry x st) = cancelled st /\
      rx (rx_callback Telemetry x st) = rx st /\
      shed (rx_callback Telemetry x st) = ((shed st + 1) mod u64_mod)%N)) /\
  (is_closed (rx st) = true -> forall mode, rx_callback mode x st = st).
Proof.
  intros Hfull. split.
  - intros Hc. destruct (rx_callback_full Stream x st Hc Hfull) as (E1 & H1 & _).
    destruct (rx_callback_full Telemetry x st Hc Hfull) as (E2 & _ & H2).
    destruct (H1 eq_refl), (H2 eq_refl). auto.
  - intros Hc mode. by apply rx_callback_gone.
Qed.

Lemma rx_overflow_policy_witness :
  let c := {| lc_items := [1; 2]; lc_cap := 2; lc_closed := false |} in
  let st := {| rx := c : @chan nat (list_mpsc nat); cancelled := false; shed := 3; warnings := [] |} in
  cancelled (rx_callback Stream 7 st) = true /\ shed (rx_callback Telemetry 7 st) = 4%N.
Proof.
  intros c st.
  destruct (rx_overflow_policy (L := list_mpsc_laws nat) 7 st ltac:(simpl; lia)) as [H _].
  destruct (H eq_refl) as [[H1 _] [_ [_ H2]]]. split; [exact H1|].
  rewrite H2. vm_compute. reflexivity.
Defined.
