(* ===== verification/Metrics.v ===== *)
(** * Metrics: the counters, their exposition and the health endpoints
    ([src/metrics.rs])

    Counters are 64-bit and wrap.  The registry is a map from service names to
    counters; a connection's guard is an entry of a second map, there from
    [conn_start] until it is dropped. *)

From stdpp Require Import sorting.
From S2P Require Import Prelude Text Backpressure.

(** ** Counters *)

Definition fetch_add (n x : N) : N := ((x + n) mod u64_mod)%N.
Definition fetch_sub (n x : N) : N := ((x + (u64_mod - n mod u64_mod)) mod u64_mod)%N.

Record Counters : Type := {
  active : N;
  total : N;
  bytes_up : N;
  bytes_down : N;
  completed : N;
  resets : N;
  failed : N;
}.

Definition no_counters : Counters :=
  {| active := 0; total := 0; bytes_up := 0; bytes_down := 0; completed := 0; resets := 0; failed := 0 |}.

Inductive ConnOutcome : Type := ConnCompleted | ConnReset | ConnFailed.

#[export] Instance ConnOutcome_eq_dec : EqDecision ConnOutcome.
Proof. solve_decision. Defined.

Definition outcome_str (o : ConnOutcome) : str :=
  match o with
  | ConnCompleted => lit "completed"
  | ConnReset => lit "reset"
  | ConnFailed => lit "failed"
  end.

Definition start_counters (c : Counters) : Counters :=
  {| active := fetch_add 1 (active c); total := fetch_add 1 (total c); bytes_up := bytes_up c;
     bytes_down := bytes_down c; completed := completed c; resets := resets c; failed := failed c |}.

Definition drop_counters (c : Counters) : Counters :=
  {| active := fetch_sub 1 (active c); total := total c; bytes_up := bytes_up c;
     bytes_down := bytes_down c; completed := completed c; resets := resets c; failed := failed c |}.

Definition add_up (n : N) (c : Counters) : Counters :=
  {| active := active c; total := total c; bytes_up := fetch_add n (bytes_up c);
     bytes_down := bytes_down c; completed := completed c; resets := resets c; failed := failed c |}.

Definition add_down (n : N) (c : Counters) : Counters :=
  {| active := active c; total := total c; bytes_up := bytes_up c;
     bytes_down := fetch_add n (bytes_down c); completed := completed c; resets := resets c;
     failed := failed c |}.

Definition set_outcome (o : ConnOutcome) (c : Counters) : Counters :=
  {| active := active c; total := total c; bytes_up := bytes_up c; bytes_down := bytes_down c;
     completed := match o with ConnCompleted => fetch_add 1 (completed c) | _ => completed c end;
     resets := match o with ConnReset => fetch_add 1 (resets c) | _ => resets c end;
     failed := match o with ConnFailed => fetch_add 1 (failed c) | _ => failed c end |}.

(** ** The registry *)

Record Metrics : Type := {
  services : gmap str Counters;
  grpc_statuses : gmap (str * N) N;
  ready : bool;
}.

Definition Metrics_new : Metrics := {| services := ∅; grpc_statuses := ∅; ready := false |}.

(** [entry(name).or_default()]. *)
Definition service (name : str) (m : Metrics) : Counters := default no_counters (services m !! name).

Definition update_service (name : str) (f : Counters -> Counters) (m : Metrics) : Metrics :=
  {| services := <[name := f (service name m)]> (services m); grpc_statuses := grpc_statuses m;
     ready := ready m |}.

Definition record_grpc_status (name : str) (code : N) (m : Metrics) : Metrics :=
  {| services := services m;
     grpc_statuses := <[(name, code) := fetch_add 1 (default 0%N (grpc_statuses m !! (name, code)))]>
                        (grpc_statuses m);
     ready := ready m |}.

Definition set_ready (b : bool) (m : Metrics) : Metrics :=
  {| services := services m; grpc_statuses := grpc_statuses m; ready := b |}.

(** A connection's own tally. *)
Record ConnGuard : Type := { guard_service : str; up : N; down : N }.

Record MetricsState : Type := { registry : Metrics; guards : gmap nat ConnGuard }.

Inductive MetricsEvent : Type :=
| ConnStart (id : nat) (name : str)
| AddUp (id : nat) (n : N)
| AddDown (id : nat) (n : N)
| Finish (id : nat) (o : ConnOutcome)
| DropGuard (id : nat).

Definition metrics_step (s : MetricsState) (e : MetricsEvent) : option MetricsState :=
  match e with
  | ConnStart id name =>
      match guards s !! id with
      | Some _ => None
      | None =>
          Some {| registry := update_service name start_counters (registry s);
                  guards := <[id := {| guard_service := name; up := 0; down := 0 |}]> (guards s) |}
      end
  | AddUp id n =>
      g ← guards s !! id;
      Some {| registry := update_service (guard_service g) (add_up n) (registry s);
              guards := <[id := {| guard_service := guard_service g; up := fetch_add n (up g);
                                   down := down g |}]> (guards s) |}
  | AddDown id n =>
      g ← guards s !! id;
      Some {| registry := update_service (guard_service g) (add_down n) (registry s);
              guards := <[id := {| guard_service := guard_service g; up := up g;
                                   down := fetch_add n (down g) |}]> (guards s) |}
  | Finish id o =>
      g ← guards s !! id;
      Some {| registry := update_service (guard_service g) (set_outcome o) (registry s); guards := guards s |}
  | DropGuard id =>
      g ← guards s !! id;
      Some {| registry := update_service (guard_service g) drop_counters (registry s);
              guards := delete id (guards s) |}
  end.

Definition metrics_init : MetricsState := {| registry := Metrics_new; guards := ∅ |}.

(** ** Exposition *)

Definition quote : ascii := ascii_of_N 34.
Definition backslash : ascii := ascii_of_N 92.
Definition newline : ascii := ascii_of_N 10.

(** [v.replace(c, with)]. *)
Definition replace_char (c : ascii) (by_ : str) (v : str) : str :=
  concat ((fun x => if decide (x = c) then by_ else [x]) <$> v).

Definition escape_label (v : str) : str :=
  replace_char newline [backslash; "n"%char]
    (replace_char quote [backslash; quote]
      (replace_char backslash [backslash; backslash] v)).

Definition label (k v : str) : str := k ++ "="%char :: quote :: v ++ [quote].

Definition metric_line (name svc : str) (extra : option (str * str)) (value : N) : str :=
  name ++ "{"%char :: label (lit "service") (escape_label svc) ++
  match extra with
  | Some (k, v) => ","%char :: label k (escape_label v)
  | None => []
  end ++ "}"%char :: " "%char :: show_N value ++ [newline].

(** [sort_by(|a, b| a.0.cmp(&b.0))]. *)
Definition str_le (a b : str) : Prop := a = b \/ str_lt a b.
#[export] Instance str_le_dec : RelDecision str_le.
Proof. intros a b. unfold str_le. apply _. Defined.

Definition by_key (a b : str * Counters) : Prop := str_le (fst a) (fst b).
#[export] Instance by_key_dec : RelDecision by_key.
Proof. intros a b. unfold by_key. apply _. Defined.

Definition sorted_services (m : Metrics) : list (str * Counters) := merge_sort by_key (map_to_list (services m)).

Definition status_key_le (a b : (str * N) * N) : Prop :=
  str_lt (fst (fst a)) (fst (fst b)) \/
  (fst (fst a) = fst (fst b) /\ (snd (fst a) <= snd (fst b))%N).
#[export] Instance status_key_le_dec : RelDecision status_key_le.
Proof. intros a b. unfold status_key_le. apply _. Defined.

Definition header_lines (name help ty : str) : list str :=
  [lit "# HELP " ++ name ++ " "%char :: help ++ [newline];
   lit "# TYPE " ++ name ++ " "%char :: ty ++ [newline]].

Definition family (name help ty : str) (m : Metrics) (rows : str * Counters -> list str) : list str :=
  header_lines name help ty ++ concat (rows <$> sorted_services m).

Definition direction (d : str) : option (str * str) := Some (lit "direction", d).
Definition outcome_label (o : ConnOutcome) : option (str * str) := Some (lit "outcome", outcome_str o).

Definition grpc_lines (m : Metrics) : list str :=
  let rows := merge_sort status_key_le (map_to_list (grpc_statuses m)) in
  if decide (rows = []) then []
  else header_lines (lit "zbridge_grpc_status_total")
         (lit "Terminated gRPC calls by grpc-status code.") (lit "counter") ++
       ((fun '((svc, code), count) =>
           metric_line (lit "zbridge_grpc_status_total") svc (Some (lit "code", show_N code)) count) <$> rows).

Definition render_lines (m : Metrics) : list str :=
  header_lines (lit "zbridge_ready") (lit "Whether the bridge is ready to serve (1) or not (0).")
    (lit "gauge") ++
  [lit "zbridge_ready " ++ (if ready m then lit "1" else lit "0") ++ [newline]] ++
  family (lit "zbridge_active_connections") (lit "Currently open connections.") (lit "gauge") m
    (fun '(svc, c) => [metric_line (lit "zbridge_active_connections") svc None (active c)]) ++
  family (lit "zbridge_connections_total") (lit "Connections ever opened.") (lit "counter") m
    (fun '(svc, c) => [metric_line (lit "zbridge_connections_total") svc None (total c)]) ++
  family (lit "zbridge_bytes_total") (lit "Bytes relayed, by direction.") (lit "counter") m
    (fun '(svc, c) =>
       [metric_line (lit "zbridge_bytes_total") svc (direction (lit "up")) (bytes_up c);
        metric_line (lit "zbridge_bytes_total") svc (direction (lit "down")) (bytes_down c)]) ++
  family (lit "zbridge_connections_outcome_total") (lit "Connections by how they ended.") (lit "counter") m
    (fun '(svc, c) =>
       [metric_line (lit "zbridge_connections_outcome_total") svc (outcome_label ConnCompleted) (completed c);
        metric_line (lit "zbridge_connections_outcome_total") svc (outcome_label ConnReset) (resets c);
        metric_line (lit "zbridge_connections_outcome_total") svc (outcome_label ConnFailed) (failed c)]) ++
  grpc_lines m.

Definition render_prometheus (m : Metrics) : str := concat (render_lines m).

(** ** The health server *)

Fixpoint contains_sub (p s : str) : bool :=
  starts_with p s || match s with [] => false | _ :: s' => contains_sub p s' end.

Definition crlfcrlf : str := ascii_of_N <$> [13; 10; 13; 10]%N.

(** The head of a request: what the socket reads give, until the blank line, the
    cap, or the end of the stream; [None] while more is awaited, [Some None] on a
    read error.  Only the tail can complete a CRLFCRLF that spans two reads. *)
Fixpoint read_head (got : str) (scanned : nat) (reads : list (result unit str)) : option (option str) :=
  match reads with
  | [] => None
  | Err _ :: _ => Some None
  | Ok [] :: _ => Some (Some got)
  | Ok chunk :: reads' =>
      let got := got ++ chunk in
      let from := scanned - 3 in
      if contains_sub crlfcrlf (drop from got) || (8192 <? length got) then Some (Some got)
      else read_head got (length got) reads'
  end.

(** [lines().next()], then [split_whitespace().nth(1)]. *)
Definition first_line (s : str) : str := hd [] (split_list newline s).

Definition request_path (got : str) : str :=
  default (lit "/") (split_whitespace (first_line got) !! 1).

Definition route (m : Metrics) (path : str) : str * str * str :=
  let path := hd path (split_list "?" path) in
  if decide (path = lit "/healthz") then (lit "200 OK", lit "text/plain", lit "ok" ++ [newline])
  else if decide (path = lit "/readyz") then
    if ready m then (lit "200 OK", lit "text/plain", lit "ready" ++ [newline])
    else (lit "503 Service Unavailable", lit "text/plain", lit "not ready" ++ [newline])
  else if decide (path = lit "/metrics") then
    (lit "200 OK", lit "text/plain; version=0.0.4", render_prometheus m)
  else (lit "404 Not Found", lit "text/plain", lit "not found" ++ [newline]).

Definition health_crlf : str := ascii_of_N <$> [13; 10]%N.

Definition health_response (r : str * str * str) : str :=
  let '(status, ctype, body) := r in
  lit "HTTP/1.1 " ++ status ++ health_crlf ++
  lit "content-type: " ++ ctype ++ health_crlf ++
  lit "content-length: " ++ show_nat (length body) ++ health_crlf ++
  lit "connection: close" ++ health_crlf ++ health_crlf ++ body.

(** What is written before the socket is shut down; [None]: the connection is
    dropped without a response. *)
Definition handle_conn (m : Metrics) (reads : list (result unit str)) : option str :=
  match read_head [] 0 reads with
  | Some (Some got) => Some (health_response (route m (request_path got)))
  | _ => None
  end.

(** ** Scanning *)

Lemma contains_sub_spec p s : contains_sub p s = true <-> exists a b, s = a ++ p ++ b.
Proof.
  induction s as [|x s IH].
  - simpl. rewrite orb_false_r, starts_with_spec. split.
    + intros [r E]. by exists [], r.
    + intros (a & b & E). destruct a; [|done]. eauto.
  - cbn [contains_sub]. rewrite orb_true_iff, starts_with_spec, IH. split.
    + intros [[r ->]|(a & b & ->)]; [by exists [], r|by exists (x :: a), b].
    + intros (a & b & E). destruct a as [|y a]; [left; eauto|].
      right. injection E as -> ->. eauto.
Qed.

Lemma contains_sub_drop p n s : contains_sub p (drop n s) = true -> contains_sub p s = true.
Proof.
  rewrite !contains_sub_spec. intros (a & b & E). exists (take n s ++ a), b.
  by rewrite <- app_assoc, <- E, take_drop.
Qed.

(** An occurrence that is not in the part already scanned starts at most
    [length p - 1] before its end. *)
Lemma scan_tail p got chunk :
  p <> [] -> contains_sub p got = false ->
  contains_sub p (drop (length got - (length p - 1)) (got ++ chunk)) = contains_sub p (got ++ chunk).
Proof.
  intros Hp Hno. apply eq_true_iff_eq. split; [apply contains_sub_drop|].
  rewrite !contains_sub_spec. intros (a & b & E).
  assert (length got < length a + length p) as Hlen.
  { destruct (Nat.lt_ge_cases (length got) (length a + length p)) as [H|H]; [done|].
    assert (contains_sub p got = true) as Hyes; [|congruence].
    apply contains_sub_spec.
    assert ((a ++ p) `prefix_of` got) as [k ->]; [|exists a, k; by rewrite <- app_assoc].
    destruct (prefix_weak_total (a ++ p) got (got ++ chunk)) as [?|[k Hk]]; [|by apply prefix_app_r|done|].
    - exists b. by rewrite E, app_assoc.
    - assert (k = []) as ->; [|rewrite app_nil_r in Hk; by rewrite Hk].
      apply (f_equal length) in Hk. rewrite !length_app in Hk. apply length_zero_iff_nil. lia. }
  exists (drop (length got - (length p - 1)) a), b.
  rewrite E, drop_app_le by lia. done.
Qed.

(** The same loop, looking at everything read so far each time. *)
Fixpoint read_head_spec (got : str) (reads : list (result unit str)) : option (option str) :=
  match reads with
  | [] => None
  | Err _ :: _ => Some None
  | Ok [] :: _ => Some (Some got)
  | Ok chunk :: reads' =>
      let got := got ++ chunk in
      if contains_sub crlfcrlf got || (8192 <? length got) then Some (Some got)
      else read_head_spec got reads'
  end.

Lemma read_head_exact got reads :
  contains_sub crlfcrlf got = false -> read_head got (length got) reads = read_head_spec got reads.
Proof.
  revert got. induction reads as [|[chunk|e] reads IH]; intros got Hno; [done| |done].
  destruct chunk as [|c chunk]; [done|]. cbn [read_head read_head_spec].
  rewrite (scan_tail crlfcrlf got) by done.
  destruct (contains_sub crlfcrlf (got ++ c :: chunk)) eqn:E; [done|]. cbn [orb].
  destruct (8192 <? length (got ++ c :: chunk)); [done|]. by apply IH.
Qed.

Lemma read_head_bounded k got reads h :
  length got <= 8192 -> Forall (fun r => forall chunk, r = Ok chunk -> length chunk <= k) reads ->
  read_head_spec got reads = Some (Some h) -> length h <= 8192 + k.
Proof.
  intros Hg Hf. revert got Hg. induction Hf as [|r reads Hr _ IH]; intros got Hg; [done|].
  destruct r as [chunk|e]; [|done]. specialize (Hr chunk eq_refl).
  destruct chunk as [|c chunk]; simpl read_head_spec; [intros [= <-]; lia|].
  destruct (_ || _) eqn:E.
  - intros [= <-]. rewrite length_app. lia.
  - apply orb_false_iff in E as [_ E%Nat.ltb_ge]. by apply IH.
Qed.

(** ** Labels *)

Definition escape_char (c : ascii) : str :=
  if decide (c = backslash) then [backslash; backslash]
  else if decide (c = quote) then [backslash; quote]
  else if decide (c = newline) then [backslash; "n"%char]
  else [c].

Lemma replace_char_app c b u v : replace_char c b (u ++ v) = replace_char c b u ++ replace_char c b v.
Proof. unfold replace_char. by rewrite fmap_app, concat_app. Qed.

Lemma replace_char_single c b x : replace_char c b [x] = if decide (x = c) then b else [x].
Proof. unfold replace_char. simpl. apply app_nil_r. Qed.

Lemma escape_label_chars v : escape_label v = concat (escape_char <$> v).
Proof.
  unfold escape_label. induction v as [|c v IH]; [done|].
  change (c :: v) with ([c] ++ v). rewrite !replace_char_app, IH, fmap_app, concat_app. f_equal.
  replace (concat (escape_char <$> [c])) with (escape_char c) by (simpl; by rewrite app_nil_r).
  rewrite replace_char_single. unfold escape_char.
  destruct (decide (c = backslash)) as [->|H1]; [done|].
  rewrite replace_char_single. destruct (decide (c = quote)) as [->|H2]; [done|].
  by rewrite replace_char_single.
Qed.

(** How a scraper reads a label value: up to the first quote that is not escaped. *)
Fixpoint read_label (s : str) : option (str * str) :=
  match s with
  | [] => None
  | c :: s' =>
      if decide (c = quote) then Some ([], s')
      else if decide (c = backslash) then
        match s' with
        | [] => None
        | x :: s'' =>
            '(v, rest) ← read_label s'';
            Some ((if decide (x = "n"%char) then newline else x) :: v, rest)
        end
      else '(v, rest) ← read_label s'; Some (c :: v, rest)
  end.

Lemma read_escaped c s :
  read_label (escape_char c ++ s) = ('(v, rest) ← read_label s; Some (c :: v, rest)).
Proof.
  unfold escape_char. repeat case_decide; subst; try done.
  simpl. by rewrite !decide_False.
Qed.

Lemma read_escape_label v rest : read_label (escape_label v ++ quote :: rest) = Some (v, rest).
Proof.
  rewrite escape_label_chars. induction v as [|c v IH]; [done|].
  rewrite fmap_cons. cbn [concat]. by rewrite <- app_assoc, read_escaped, IH.
Qed.

Lemma escape_label_one_line v : newline ∉ escape_label v.
Proof.
  rewrite escape_label_chars. induction v as [|c v IH]; simpl; [apply not_elem_of_nil|].
  rewrite elem_of_app. intros [Hin|Hin]; [|done]. revert Hin. unfold escape_char.
  repeat case_decide; rewrite ?elem_of_cons, ?elem_of_nil; naive_solver.
Qed.

(** ** The gauge *)

Definition live (svc : str) (gs : gmap nat ConnGuard) : nat :=
  size (filter (fun p => guard_service (snd p) = svc) gs).

Lemma live_insert svc id g gs :
  gs !! id = None ->
  live svc (<[id := g]> gs) = (if decide (guard_service g = svc) then 1 else 0) + live svc gs.
Proof.
  intros Hn. unfold live. case_decide as H.
  - rewrite map_filter_insert_True by done. rewrite map_size_insert_None; [done|].
    apply map_lookup_filter_None. by left.
  - rewrite map_filter_insert_False by done. by rewrite delete_id.
Qed.

Lemma live_update svc id g g' gs :
  gs !! id = Some g -> guard_service g' = guard_service g ->
  live svc (<[id := g']> gs) = live svc gs.
Proof.
  intros Hg Hs. rewrite <- (insert_delete_id gs id g Hg) at 2. rewrite <- insert_delete_eq.
  rewrite !live_insert by apply lookup_delete_eq. by rewrite Hs.
Qed.

Lemma live_delete svc id g gs :
  gs !! id = Some g ->
  live svc gs = (if decide (guard_service g = svc) then 1 else 0) + live svc (delete id gs).
Proof.
  intros Hg. rewrite <- (insert_delete_id gs id g Hg) at 1. by rewrite live_insert by apply lookup_delete_eq.
Qed.

Fixpoint started (svc : str) (es : list MetricsEvent) : nat :=
  match es with
  | [] => 0
  | ConnStart _ name :: es' => (if decide (name = svc) then 1 else 0) + started svc es'
  | _ :: es' => started svc es'
  end.

Lemma started_app svc es1 es2 : started svc (es1 ++ es2) = started svc es1 + started svc es2.
Proof. induction es1 as [|[] es1 IH]; simpl; rewrite ?IH; lia. Qed.

Lemma service_update svc name f m :
  service svc (update_service name f m) =
  if decide (name = svc) then f (service svc m) else service svc m.
Proof.
  unfold service, update_service. simpl. case_decide as H; subst.
  - by rewrite lookup_insert_eq.
  - by rewrite lookup_insert_ne.
Qed.

Definition gauge_inv (es : list MetricsEvent) (s : MetricsState) : Prop :=
  forall svc, active (service svc (registry s)) = (N.of_nat (live svc (guards s)) mod u64_mod)%N /\
    total (service svc (registry s)) = (N.of_nat (started svc es) mod u64_mod)%N.

Lemma fetch_add_count n : fetch_add 1 (N.of_nat n mod u64_mod) = (N.of_nat (1 + n) mod u64_mod)%N.
Proof.
  unfold fetch_add. rewrite N.Div0.add_mod_idemp_l. f_equal. lia.
Qed.

Lemma fetch_sub_count n : fetch_sub 1 (N.of_nat (1 + n) mod u64_mod) = (N.of_nat n mod u64_mod)%N.
Proof.
  unfold fetch_sub. rewrite N.Div0.add_mod_idemp_l.
  assert ((N.of_nat (1 + n) + (u64_mod - 1 mod u64_mod) = N.of_nat n + 1 * u64_mod)%N) as ->.
  { unfold u64_mod. rewrite N.mod_small by lia. lia. }
  apply N.Div0.mod_add.
Qed.

Lemma gauge_inv_step es s e s' : gauge_inv es s -> metrics_step s e = Some s' -> gauge_inv (es ++ [e]) s'.
Proof.
  intros Hi Hs svc. destruct (Hi svc) as [Ha Ht]. rewrite started_app.
  destruct e as [id name|id n|id n|id o|id]; simpl in Hs; try apply bind_Some in Hs as (g & Hg & [= <-]).
  - destruct (guards s !! id) eqn:Hn; [done|]. injection Hs as <-. cbn [registry guards].
    rewrite service_update, live_insert by done. cbn [guard_service started].
    case_decide; cbn [active total start_counters]; rewrite Ha, Ht.
    + rewrite (Nat.add_comm (started svc es)). split; apply fetch_add_count.
    + simpl. by rewrite Nat.add_0_r.
  - cbn [registry guards]. rewrite service_update, (live_update svc id g) by done. simpl. rewrite Nat.add_0_r.
    by case_decide.
  - cbn [registry guards]. rewrite service_update, (live_update svc id g) by done. simpl. rewrite Nat.add_0_r.
    by case_decide.
  - cbn [registry guards]. rewrite service_update. simpl. rewrite Nat.add_0_r. by case_decide.
  - cbn [registry guards]. rewrite service_update. simpl. rewrite Nat.add_0_r.
    rewrite (live_delete svc id g) in Ha by done. case_decide; [|done].
    cbn [active total drop_counters]. rewrite Ha, Ht. split; [apply fetch_sub_count|done].
Qed.

Lemma run_gauge es s : run metrics_step metrics_init es = Some s -> gauge_inv es s.
Proof.
  apply (run_history_invariant metrics_step gauge_inv).
  - intros svc. done.
  - intros ?????. apply gauge_inv_step.
Qed.

(** ** Properties *)

(** The connection gauge never drifts: in every reachable state each service's
    [active] is the number of its guards that are alive and [total] the number of
    connections it ever started (both modulo 2^64), so once every guard is dropped
    the gauge reads zero. *)
Theorem gauge_counts_live_connections es s svc :
  run metrics_step metrics_init es = Some s ->
  active (service svc (registry s)) = (N.of_nat (live svc (guards s)) mod u64_mod)%N /\
  total (service svc (registry s)) = (N.of_nat (started svc es) mod u64_mod)%N /\
  (guards s = ∅ -> active (service svc (registry s)) = 0%N).
Proof.
  intros Hr. destruct (run_gauge es s Hr svc) as [Ha Ht]. split_and!; [done|done|].
  intros Hg. rewrite Ha, Hg. unfold live. by rewrite map_filter_empty, map_size_empty.
Qed.

Lemma gauge_counts_live_connections_witness :
  exists s, run metrics_step metrics_init
      [ConnStart 0 (lit "web"); ConnStart 1 (lit "web"); AddUp 0 5; Finish 1 ConnReset; DropGuard 1] = Some s /\
    active (service (lit "web") (registry s)) = 1%N /\ total (service (lit "web") (registry s)) = 2%N.
Proof.
  eexists. split; [vm_compute; reflexivity|].
  match goal with |- active (service _ (registry ?s)) = _ /\ _ =>
    destruct (gauge_counts_live_connections
      [ConnStart 0 (lit "web"); ConnStart 1 (lit "web"); AddUp 0 5; Finish 1 ConnReset; DropGuard 1] s
      (lit "web")) as (H1 & H2 & _); [vm_compute; reflexivity|] end.
  split; [exact H1|exact H2].
Defined.

(** The health server's head reader, which rescans only the last three bytes of
    what it had, stops exactly where a reader that rescans everything would: at the
    first read that completes a blank line or passes the cap; and it never holds
    more than the cap and one read. *)
Theorem head_scan_exact (reads : list (result unit str)) :
  read_head [] 0 reads = read_head_spec [] reads /\
  (Forall (fun r => forall chunk, r = Ok chunk -> length chunk <= 1024) reads ->
   forall h, read_head [] 0 reads = Some (Some h) -> length h <= 8192 + 1024).
Proof.
  assert (read_head [] 0 reads = read_head_spec [] reads) as E by (by apply (read_head_exact [])).
  split; [done|]. intros Hf h. rewrite E. apply read_head_bounded; [simpl; lia|done].
Qed.

(** A label value survives the exposition: whatever bytes a service name has, a
    scraper that reads the escaped value up to its closing quote recovers exactly
    the name, and the escaped value never breaks the line. *)
Theorem escape_label_roundtrip (v rest : str) :
  read_label (escape_label v ++ quote :: rest) = Some (v, rest) /\ newline ∉ escape_label v.
Proof. split; [apply read_escape_label|apply escape_label_one_line]. Qed.
