(* ===== verification/HealthServer.v ===== *)
(** * HealthServer: the accept loop of the health endpoint ([src/metrics.rs], [serve],
    [bind], [serve_on])

    One request is [Metrics.handle_conn]; here its reads arrive one event at a time,
    next to those of the other connections.  Time is in milliseconds, and a [Tick] never
    passes a timer that is due. *)

From S2P Require Import Prelude Text Net Config Metrics.

Definition MAX_CONCURRENT : nat := 64.

Definition accept_backoff : N := from_millis 100.

(** A spawned handler: in [timeout(request_timeout, read_head)], or in [write_all]. *)
Inductive Handler : Type :=
| Reading (reads : list (result unit str)) (deadline : N)
| Responding (response : str).

Inductive ServePhase : Type := Listening | BackingOff (until : N) | ServerStopped.

#[export] Instance ServePhase_eq_dec : EqDecision ServePhase.
Proof. solve_decision. Defined.

(** [shed]: connections dropped at capacity. *)
Record Server : Type := {
  phase : ServePhase;
  permits : nat;
  handlers : gmap nat Handler;
  next_id : nat;
  shed : nat;
  now : N;
  cancelled : bool;
}.

Inductive ServeEvent : Type :=
| Accepts
| AcceptFails
| BackoffOver
| Reads (id : nat) (r : result unit str)   (** [stream.read] *)
| HeadTimeout (id : nat)
| Responded (id : nat)                     (** [write_all] and [shutdown] return *)
| Cancel                                   (** the token, from outside *)
| SawCancel
| Tick (d : N).

Definition in_time (t : N) (h : Handler) : Prop :=
  match h with Reading _ deadline => (t <= deadline)%N | Responding _ => True end.

#[export] Instance in_time_dec t h : Decision (in_time t h).
Proof. destruct h; simpl; apply _. Defined.

Definition phase_in_time (t : N) (p : ServePhase) : Prop :=
  match p with BackingOff until => (t <= until)%N | _ => True end.

#[export] Instance phase_in_time_dec t p : Decision (phase_in_time t p).
Proof. destruct p; simpl; apply _. Defined.

(** The handler [id] is now [h], or over ([None], which drops its permit). *)
Definition set_handler (id : nat) (h : option Handler) (s : Server) : Server := {|
  phase := phase s;
  permits := match h with Some _ => permits s | None => S (permits s) end;
  handlers := match h with Some h => <[id := h]> (handlers s) | None => delete id (handlers s) end;
  next_id := next_id s; shed := shed s; now := now s; cancelled := cancelled s;
|}.

Definition with_phase (p : ServePhase) (s : Server) : Server := {|
  phase := p; permits := permits s; handlers := handlers s; next_id := next_id s; shed := shed s;
  now := now s; cancelled := cancelled s;
|}.

Section Serve.
(** The registry at each time, and [--read-timeout]. *)
Context (registry : N -> Metrics) (request_timeout : N).

Definition server_init : Server := {|
  phase := Listening; permits := MAX_CONCURRENT; handlers := ∅; next_id := 0; shed := 0; now := 0; cancelled := false;
|}.

(** After one more read: still reading, answering, or dropped. *)
Definition after_read (t : N) (reads : list (result unit str)) (deadline : N) : option Handler :=
  match read_head [] 0 reads with
  | None => Some (Reading reads deadline)
  | Some (Some got) => Some (Responding (health_response (route (registry t) (request_path got))))
  | Some None => None
  end.

Definition serve_step (s : Server) (e : ServeEvent) : option Server :=
  match e with
  | Accepts =>
      if decide (phase s = Listening) then
        match permits s with
        | S p => Some {| phase := Listening; permits := p;
                         handlers := <[next_id s := Reading [] (now s + request_timeout)%N]> (handlers s);
                         next_id := S (next_id s); shed := shed s; now := now s; cancelled := cancelled s |}
        | O => Some {| phase := Listening; permits := 0; handlers := handlers s; next_id := next_id s;
                       shed := S (shed s); now := now s; cancelled := cancelled s |}
        end
      else None
  | AcceptFails =>
      if decide (phase s = Listening) then Some (with_phase (BackingOff (now s + accept_backoff)) s) else None
  | BackoffOver =>
      match phase s with
      | BackingOff until => if (until <=? now s)%N then Some (with_phase Listening s) else None
      | _ => None
      end
  | Reads id r =>
      match handlers s !! id with
      | Some (Reading reads deadline) =>
          Some (set_handler id (after_read (now s) (reads ++ [r]) deadline) s)
      | _ => None
      end
  | HeadTimeout id =>
      match handlers s !! id with
      | Some (Reading _ deadline) => if (deadline <=? now s)%N then Some (set_handler id None s) else None
      | _ => None
      end
  | Responded id =>
      match handlers s !! id with
      | Some (Responding _) => Some (set_handler id None s)
      | _ => None
      end
  | Cancel =>
      Some {| phase := phase s; permits := permits s; handlers := handlers s; next_id := next_id s; shed := shed s;
              now := now s; cancelled := true |}
  | SawCancel =>
      if decide (cancelled s = true /\ phase s = Listening) then Some (with_phase ServerStopped s) else None
  | Tick d =>
      if decide (map_Forall (fun _ h => in_time (now s + d) h) (handlers s) /\ phase_in_time (now s + d) (phase s)) then
        Some {| phase := phase s; permits := permits s; handlers := handlers s; next_id := next_id s; shed := shed s;
                now := (now s + d)%N; cancelled := cancelled s |}
      else None
  end.
End Serve.

(** [TcpListener::bind], and the server on it. *)
Definition bind {E} (tcp_bind : SocketAddr -> result E unit) (addr : SocketAddr) : result E unit := tcp_bind addr.

Definition serve {E} (tcp_bind : SocketAddr -> result E unit) (addr : SocketAddr) : result E Server :=
  _ ← bind tcp_bind addr; Ok server_init.

(** ** Its invariant *)

Section Invariant.
Context (registry : N -> Metrics) (request_timeout : N).
Abbreviation step := (serve_step registry request_timeout).

Definition handler_ok (t : N) (h : Handler) : Prop :=
  match h with
  | Reading reads deadline => (t <= deadline <= t + request_timeout)%N /\ read_head [] 0 reads = None
  | Responding response => exists t' reads, (t' <= t)%N /\ handle_conn (registry t') reads = Some response
  end.

Definition serve_inv (s : Server) : Prop :=
  permits s + size (handlers s) = MAX_CONCURRENT /\
  (forall id h, handlers s !! id = Some h -> id < next_id s /\ handler_ok (now s) h).

Lemma set_handler_inv s id h0 h :
  serve_inv s -> handlers s !! id = Some h0 -> (forall h', h = Some h' -> handler_ok (now s) h') ->
  serve_inv (set_handler id h s).
Proof using Type.
  intros [Hp Hh] Hid Hok. unfold serve_inv, set_handler. simpl. split.
  - pose proof (map_size_delete id (handlers s)) as Hd. rewrite Hid in Hd. simpl in Hd.
    assert (0 < size (handlers s)) by (apply Nat.neq_0_lt_0; intros E%map_size_empty_inv; by rewrite E, lookup_empty in Hid).
    destruct h; [|lia]. rewrite map_size_insert, Hid. simpl. done.
  - intros id' h' Hl. destruct h as [h1|].
    + apply lookup_insert_Some in Hl as [[<- <-]|[_ Hl]]; [|by apply Hh]. split; [by eapply Hh|by apply Hok].
    + apply lookup_delete_Some in Hl as [_ Hl]. by apply Hh.
Qed.

Lemma after_read_ok t reads deadline h :
  (t <= deadline <= t + request_timeout)%N -> after_read registry t reads deadline = Some h -> handler_ok t h.
Proof using Type.
  unfold after_read. destruct (read_head [] 0 reads) as [[got|]|] eqn:E; [|done|]; intros Ht [= <-]; simpl.
  - exists t, reads. unfold handle_conn. by rewrite E.
  - done.
Qed.

Lemma serve_inv_step s e s' : serve_inv s -> step s e = Some s' -> serve_inv s'.
Proof using Type.
  intros Hi H. pose proof Hi as [Hp Hh]. destruct e as [| | |id r|id|id| | |d]; simpl in H.
  - case_decide; [|done]. destruct (permits s) as [|p] eqn:Ep; injection H as <-; [by split|].
    assert (handlers s !! next_id s = None) as Hnew.
    { destruct (handlers s !! next_id s) eqn:E; [|done]. apply Hh in E as [? _]. lia. }
    split; simpl; [rewrite map_size_insert, Hnew; lia|].
    intros id h [[<- <-]|[_ Hl%Hh]]%lookup_insert_Some; [|split; [lia|tauto]].
    split; [lia|]. simpl. split; [lia|done].
  - case_decide; [|done]. by injection H as <-.
  - destruct (phase s); try done. case_match; [|done]. by injection H as <-.
  - destruct (handlers s !! id) as [[reads dl|]|] eqn:E; try done. injection H as <-.
    eapply set_handler_inv; [done..|]. intros h' Hh'. apply Hh in E as [_ [Ht _]]. by eapply after_read_ok.
  - destruct (handlers s !! id) as [[reads dl|]|] eqn:E; try done. case_match; [|done]. injection H as <-.
    by eapply set_handler_inv.
  - destruct (handlers s !! id) as [[|]|] eqn:E; try done. injection H as <-. by eapply set_handler_inv.
  - by injection H as <-.
  - case_decide; [|done]. by injection H as <-.
  - case_decide as Hd; [|done]. destruct Hd as [Hd _]. injection H as <-. split; simpl; [done|].
    intros id h Hl. destruct (Hh _ _ Hl) as [Hlt Hok]. split; [done|]. apply Hd in Hl.
    destruct h as [reads dl|resp]; simpl in *; [split; [lia|tauto]|]. destruct Hok as (t' & rs & ? & ?). exists t', rs. split; [lia|done].
Qed.

Lemma serve_inv_init : serve_inv server_init.
Proof using Type. split; [reflexivity|]. intros id h Hl. simpl in Hl. by rewrite lookup_empty in Hl. Qed.

(** A handler keeps the deadline it was accepted with. *)
Lemma deadlines_kept s es s' id reads deadline :
  (forall i rs dl, handlers s !! i = Some (Reading rs dl) -> dl <= now s + request_timeout)%N ->
  run step s es = Some s' -> id < next_id s ->
  handlers s' !! id = Some (Reading reads deadline) -> (deadline <= now s + request_timeout)%N.
Proof using Type.
  intros H0 Hr Hid Hl.
  cut (next_id s <= next_id s' /\ forall i rs dl, i < next_id s -> handlers s' !! i = Some (Reading rs dl) ->
    (dl <= now s + request_timeout)%N); [naive_solver|]. clear Hid Hl reads deadline id.
  revert s' Hr. apply (run_invariant step (fun s' => next_id s <= next_id s' /\ forall i rs dl, i < next_id s ->
    handlers s' !! i = Some (Reading rs dl) -> (dl <= now s + request_timeout)%N) s); [split; [lia|naive_solver]|].
  intros x e x' [Hn Hx] H.
  assert (forall i h, (forall rs dl, h = Some (Reading rs dl) -> exists rs', handlers x !! i = Some (Reading rs' dl)) ->
    next_id s <= next_id (set_handler i h x) /\ forall j rs dl, j < next_id s ->
      handlers (set_handler i h x) !! j = Some (Reading rs dl) -> (dl <= now s + request_timeout)%N) as Hset.
  { intros i h Hh. split; [done|]. intros j rs dl Hj Hl. destruct h as [h|]; simpl in Hl.
    - apply lookup_insert_Some in Hl as [[<- ->]|[_ Hl]]; [|by eapply Hx]. destruct (Hh rs dl eq_refl) as [rs' E]. by eapply Hx.
    - apply lookup_delete_Some in Hl as [_ Hl]. by eapply Hx. }
  destruct e as [| | |id r|id|id| | |d]; simpl in H.
  - case_decide; [|done]. destruct (permits x); injection H as <-; [done|]. simpl. split; [lia|].
    intros i rs dl Hi [[<- _]|[_ Hl]]%lookup_insert_Some; [lia|by eapply Hx].
  - case_decide; [|done]. by injection H as <-.
  - destruct (phase x); try done. case_match; [|done]. by injection H as <-.
  - destruct (handlers x !! id) as [[reads dl|]|] eqn:E; try done. injection H as <-. apply Hset.
    intros rs dl'. unfold after_read. destruct (read_head _ _ _) as [[]|]; try done. intros [= _ <-]. eauto.
  - destruct (handlers x !! id) as [[reads dl|]|] eqn:E; try done. case_match; [|done]. injection H as <-. by apply Hset.
  - destruct (handlers x !! id) as [[|]|] eqn:E; try done. injection H as <-. by apply Hset.
  - by injection H as <-.
  - case_decide; [|done]. by injection H as <-.
  - case_decide; [|done]. by injection H as <-.
Qed.

Lemma stopped_stays s e s' : phase s = ServerStopped -> step s e = Some s' ->
  phase s' = ServerStopped /\ next_id s' = next_id s.
Proof using Type.
  intros Hs H. destruct e as [| | |id r|id|id| | |d]; simpl in H; rewrite ?Hs in H; try done.
  - destruct (handlers s !! id) as [[|]|]; try done. by injection H as <-.
  - destruct (handlers s !! id) as [[|]|]; try done. case_match; [|done]. by injection H as <-.
  - destruct (handlers s !! id) as [[|]|]; try done. by injection H as <-.
  - by injection H as <-.
  - case_decide as E; [naive_solver|done].
  - case_decide; [|done]. by injection H as <-.
Qed.

(** ** Properties *)

(** C25: the health endpoint bounds its requests in flight and the time a client may take
    over its request head.  Under every interleaving of clients, reads, timers and the shutdown, at most 64 requests are in flight, each holding exactly
    one permit; a connection beyond them is dropped at once and disturbs no other; a
    client that has not sent its request head within [--read-timeout] of being accepted
    is gone by then, whatever the others do; an answer being written is the one
    [handle_conn] gives for some registry of the past; and once the server saw its token
    it accepts nothing more.  The writing of an answer, however, has no deadline: while only
    answers are being written any time may pass with every permit still held, so clients
    that do not read theirs pin the endpoint. *)
Theorem serve_bounded es s :
  run step server_init es = Some s ->
  permits s + size (handlers s) = MAX_CONCURRENT /\
  (permits s = 0 -> phase s = Listening -> exists s',
     step s Accepts = Some s' /\ handlers s' = handlers s /\ permits s' = 0 /\ shed s' = S (shed s)) /\
  (forall es' s' id reads deadline, run step s es' = Some s' -> (now s + request_timeout < now s')%N ->
     handlers s' !! id = Some (Reading reads deadline) -> next_id s <= id) /\
  (forall id response, handlers s !! id = Some (Responding response) ->
     exists t reads, (t <= now s)%N /\ handle_conn (registry t) reads = Some response) /\
  (cancelled s = true -> phase s = Listening -> exists s', step s SawCancel = Some s' /\
     forall es' s'', run step s' es' = Some s'' -> phase s'' = ServerStopped /\ next_id s'' = next_id s) /\
  (phase s = Listening -> map_Forall (fun _ h => exists response, h = Responding response) (handlers s) ->
     forall d, exists s', step s (Tick d) = Some s' /\ now s' = (now s + d)%N /\
       handlers s' = handlers s /\ permits s' = permits s).
Proof using Type.
  intros Hr. assert (serve_inv s) as [Hp Hh].
  { revert Hr. apply run_invariant; [apply serve_inv_init|apply serve_inv_step]. }
  split_and!; [done|..].
  - intros Hz Hl. simpl. rewrite decide_True by done. rewrite Hz. eauto.
  - intros es' s' id reads dl Hr' Hlt Hl. destruct (Nat.lt_ge_cases id (next_id s)) as [Hid|]; [exfalso|done].
    assert (serve_inv s') as [_ Hh'].
    { revert Hr'. apply run_invariant; [by split|apply serve_inv_step]. }
    apply Hh' in Hl as Hok. destruct Hok as [_ [Hok _]].
    assert (dl <= now s + request_timeout)%N; [|lia].
    eapply deadlines_kept; [|done..]. intros i rs dl' Hi%Hh. simpl in Hi. lia.
  - intros id resp Hl%Hh. apply Hl.
  - intros Hc Hl. simpl. rewrite decide_True by done. eexists. split; [done|].
    intros es' s''. apply (run_invariant step (fun x => phase x = ServerStopped /\ next_id x = next_id s)); [done|].
    intros x e x' [Hx Hn] H. apply stopped_stays in H as [? ?]; [|done]. split; [done|congruence].
  - intros Hl Hall d. simpl. rewrite decide_True; [by eexists|]. split; [|by rewrite Hl].
    intros id h [response ->]%Hall. done.
Qed.
End Invariant.

(** ** Examples *)

(** Sixty-five silent clients: one is dropped. *)
#[local] Notation silent := (replicate 65 Accepts).

Lemma serve_bounded_witness :
  exists s, run (serve_step (fun _ => Metrics_new) 10) server_init silent = Some s /\
    shed s = 1 /\ permits s + size (handlers s) = 64.
Proof.
  destruct (run (serve_step (fun _ => Metrics_new) 10) server_init silent) as [s|] eqn:E; [|vm_compute in E; discriminate].
  exists s. split; [done|]. split.
  - assert (shed <$> run (serve_step (fun _ => Metrics_new) 10) server_init silent = Some 1) as H by (vm_compute; reflexivity).
    rewrite E in H. by injection H.
  - exact (proj1 (serve_bounded (fun _ => Metrics_new) 10 silent s E)).
Defined.

Example head_then_answer :
  (fun s => handlers s !! 0) <$> run (serve_step (fun t => set_ready (5 <? t)%N Metrics_new) 10) server_init
    [Accepts; Reads 0 (Ok (lit "GET /readyz HT")); Tick 6; Reads 0 (Ok crlfcrlf)] =
  Some (Some (Responding (health_response (lit "200 OK", lit "text/plain", lit "ready" ++ [newline])))).
Proof. vm_compute. reflexivity. Qed.
