(* ===== verification/Transport.v ===== *)
(** * Transport: the two transports behind one reader and one writer interface
    ([src/transport.rs])

    What a socket or a peer does is an oracle: the bytes a read returns, the
    messages a WebSocket stream yields, how far a write gets.  The classes
    [TransportReader] and [TransportWriter] are the source's traits with the
    contract the relay relies on; the TCP and WebSocket types implement both. *)

From S2P Require Import Prelude Text.

Inductive IoError : Type :=
| SocketError
| WsReadError
| WsSendError
| WsCloseError
| WsShutdownError.

#[export] Instance IoError_eq_dec : EqDecision IoError.
Proof. solve_decision. Defined.

(** ** Readers *)

(** One call: the oracle is what the inner stream has to give. *)
Class TransportReader (R I : Type) : Type := {
  read_data : R -> I -> result IoError bytes * R;
}.

(** TCP: [buffer] is reused across reads, [cap] bytes are reserved for each. *)
Record TcpReader : Type := { buffer : bytes; cap : nat }.

Definition TcpReader_new (buf_size : nat) : TcpReader := {| buffer := []; cap := buf_size |}.

(** [inner] is what [read_buf] puts into the spare room, of at least [cap] bytes. *)
Definition tcp_read_data (r : TcpReader) (inner : result IoError bytes)
    : result IoError bytes * TcpReader :=
  match inner with
  | Err e => (Err e, r)
  | Ok got =>
      let filled := buffer r ++ got in
      if length got =? 0 then (Ok [], {| buffer := filled; cap := cap r |})
      else (Ok filled, {| buffer := []; cap := cap r |})
  end.

#[export] Instance tcp_reader : TransportReader TcpReader (result IoError bytes) :=
  {| read_data := tcp_read_data |}.

(** tungstenite's message type, which the WebSocket reader takes apart. *)
Inductive Message : Type :=
| Binary (data : bytes)
| TextMessage (text : str)
| Ping (data : bytes)
| Pong (data : bytes)
| CloseMessage
| Frame.

(** The inner stream: the items still to come; past the last, [next()] is [None]. *)
Definition WsStream : Type := list (result IoError Message).

Fixpoint ws_read_data (inner : WsStream) : result IoError bytes * WsStream :=
  match inner with
  | [] => (Ok [], [])
  | Err e :: inner' => (Err WsReadError, inner')
  | Ok msg :: inner' =>
      match msg with
      | Binary data => if decide (data = []) then ws_read_data inner' else (Ok data, inner')
      | TextMessage text => if decide (text = []) then ws_read_data inner' else (Ok text, inner')
      | CloseMessage => (Ok [], inner')
      | Ping _ | Pong _ | Frame => ws_read_data inner'
      end
  end.

#[export] Instance ws_reader : TransportReader WsStream unit :=
  {| read_data r _ := ws_read_data r |}.

(** ** Writers *)

(** How a write ends: completely, after some bytes, or in the flush that follows. *)
Inductive WriteOutcome : Type :=
| Written
| Broken (sent : nat)
| FlushFailed.

Class TransportWriter (W : Type) : Type := {
  write_data : W -> bytes -> WriteOutcome -> result IoError unit * W;
  send_eof : W -> bool -> result IoError unit * W;
  shutdown : W -> bool -> result IoError unit * W;
  (** The bytes handed to the peer. *)
  wire : W -> bytes;
  (** The peer has been told that no more bytes follow. *)
  half_closed : W -> bool;
}.

Class TransportWriterLaws {W} (T : TransportWriter W) : Prop := {
  write_ok w data o u w' : write_data w data o = (Ok u, w') -> wire w' = wire w ++ data;
  write_any w data o r w' : write_data w data o = (r, w') ->
    wire w `prefix_of` wire w' /\ wire w' `prefix_of` wire w ++ data;
  write_done w data : fst (write_data w data Written) = Ok tt;
  write_half_closed w data o : half_closed (snd (write_data w data o)) = half_closed w;
  eof_ok w ok u w' : send_eof w ok = (Ok u, w') -> half_closed w' = true;
  eof_wire w ok : wire (snd (send_eof w ok)) = wire w;
  eof_done w : fst (send_eof w true) = Ok tt;
  shutdown_wire w ok : wire (snd (shutdown w ok)) = wire w;
}.

(** TCP: the bytes accepted by the kernel and whether the write half is shut. *)
Record TcpWriter : Type := { tcp_wire : bytes; tcp_fin : bool }.

Definition tcp_write_data (w : TcpWriter) (data : bytes) (o : WriteOutcome)
    : result IoError unit * TcpWriter :=
  match o with
  | Written => (Ok tt, {| tcp_wire := tcp_wire w ++ data; tcp_fin := tcp_fin w |})
  | Broken sent =>
      (Err SocketError, {| tcp_wire := tcp_wire w ++ take sent data; tcp_fin := tcp_fin w |})
  | FlushFailed =>
      (Err SocketError, {| tcp_wire := tcp_wire w ++ data; tcp_fin := tcp_fin w |})
  end.

(** [AsyncWriteExt::shutdown]: the FIN that both operations send. *)
Definition tcp_shutdown (w : TcpWriter) (ok : bool) : result IoError unit * TcpWriter :=
  if ok then (Ok tt, {| tcp_wire := tcp_wire w; tcp_fin := true |}) else (Err SocketError, w).

Definition tcp_send_eof (w : TcpWriter) (ok : bool) : result IoError unit * TcpWriter :=
  tcp_shutdown w ok.

#[export] Instance tcp_writer : TransportWriter TcpWriter := {|
  write_data := tcp_write_data;
  send_eof := tcp_send_eof;
  shutdown := tcp_shutdown;
  wire := tcp_wire;
  half_closed := tcp_fin;
|}.

(** WebSocket: the messages sent, and whether the sink is closed. *)
Record WsWriter : Type := { ws_sent : list Message; ws_closed : bool }.

Definition ws_send (w : WsWriter) (m : Message) : WsWriter :=
  {| ws_sent := ws_sent w ++ [m]; ws_closed := ws_closed w |}.

Definition ws_write_data (w : WsWriter) (data : bytes) (o : WriteOutcome)
    : result IoError unit * WsWriter :=
  match o with
  | Written => (Ok tt, ws_send w (Binary data))
  | Broken _ => (Err WsSendError, w)
  | FlushFailed => (Err WsSendError, ws_send w (Binary data))
  end.

Definition ws_send_eof (w : WsWriter) (ok : bool) : result IoError unit * WsWriter :=
  if ok then (Ok tt, ws_send w CloseMessage) else (Err WsCloseError, w).

Definition ws_shutdown (w : WsWriter) (ok : bool) : result IoError unit * WsWriter :=
  if ok then (Ok tt, {| ws_sent := ws_sent w; ws_closed := true |}) else (Err WsShutdownError, w).

Definition message_payload (m : Message) : bytes :=
  match m with Binary data => data | TextMessage text => text | _ => [] end.

Definition is_close (m : Message) : bool :=
  match m with CloseMessage => true | _ => false end.

#[export] Instance ws_writer : TransportWriter WsWriter := {|
  write_data := ws_write_data;
  send_eof := ws_send_eof;
  shutdown := ws_shutdown;
  wire w := concat (message_payload <$> ws_sent w);
  half_closed w := existsb is_close (ws_sent w) || ws_closed w;
|}.

(** ** The contract *)

Lemma take_prefix {A} n (l : list A) : take n l `prefix_of` l.
Proof. exists (drop n l). by rewrite take_drop. Qed.

#[export] Instance tcp_writer_laws : TransportWriterLaws tcp_writer.
Proof.
  split; simpl.
  - intros w data [] u w'; simpl; intros; by simplify_eq.
  - intros w data [] r w'; simpl; intros; simplify_eq/=;
      (split; [by apply prefix_app_r|]); auto using prefix_app, take_prefix.
  - done.
  - by intros w data [].
  - intros w [] u w'; simpl; intros; by simplify_eq.
  - by intros w [].
  - done.
  - by intros w [].
Qed.

Lemma ws_send_wire w m :
  concat (message_payload <$> ws_sent (ws_send w m)) =
  concat (message_payload <$> ws_sent w) ++ message_payload m.
Proof. unfold ws_send. cbn [ws_sent]. rewrite fmap_app. apply concat_snoc. Qed.

#[export] Instance ws_writer_laws : TransportWriterLaws ws_writer.
Proof.
  split; cbn [wire half_closed write_data send_eof shutdown ws_writer].
  - intros w data [] u w'; simpl; intros; simplify_eq. by rewrite ws_send_wire.
  - intros w data [] r w'; simpl; intros; simplify_eq; rewrite ?ws_send_wire;
      cbn [message_payload]; split; eauto using prefix_app_r.
  - done.
  - intros w data []; cbn [ws_write_data snd ws_send ws_sent ws_closed]; try done;
      by rewrite existsb_app, orb_false_r.
  - intros w [] u w'; simpl; intros; simplify_eq/=. by rewrite existsb_app, orb_true_r.
  - intros w []; cbn [ws_send_eof snd]; [|done]. rewrite ws_send_wire. apply app_nil_r.
  - done.
  - by intros w [].
Qed.

(** ** Reading a stream to its end *)

(** TCP: every call from a fresh reader hands off exactly what the socket gave, and
    leaves it fresh; an empty chunk is the socket's end. *)
Lemma tcp_read_exact r got res r' :
  buffer r = [] -> tcp_read_data r (Ok got) = (res, r') ->
  res = Ok got /\ buffer r' = [] /\ cap r' = cap r.
Proof.
  intros Hb. unfold tcp_read_data. rewrite Hb. cbn [app].
  destruct (length got =? 0) eqn:E; intros ?; simplify_eq/=; [|done].
  by apply Nat.eqb_eq, length_zero_iff_nil in E as ->.
Qed.

(** What a WebSocket peer says, message by message, up to its close. *)
Fixpoint ws_data (inner : WsStream) : list bytes :=
  match inner with
  | [] => []
  | Err _ :: _ => []
  | Ok CloseMessage :: _ => []
  | Ok m :: inner' =>
      if decide (message_payload m = []) then ws_data inner'
      else match m with
           | Binary d | TextMessage d => d :: ws_data inner'
           | _ => ws_data inner'
           end
  end.

(** Repeated reads: the chunks before the first empty one, or the error. *)
Fixpoint ws_read_all (fuel : nat) (inner : WsStream) : option (result (list bytes) (list bytes)) :=
  match fuel with
  | 0 => None
  | S fuel' =>
      match ws_read_data inner with
      | (Ok [], _) => Some (Ok [])
      | (Err _, _) => Some (Err [])
      | (Ok data, inner') =>
          r ← ws_read_all fuel' inner';
          Some (match r with Ok l => Ok (data :: l) | Err l => Err (data :: l) end)
      end
  end.

Definition chunks_of (r : result (list bytes) (list bytes)) : list bytes :=
  match r with Ok l => l | Err l => l end.

(** One read consumes at least one item, or the stream is at its end. *)
Lemma ws_read_data_shorter inner data inner' :
  ws_read_data inner = (Ok data, inner') -> data <> [] -> length inner' < length inner.
Proof.
  induction inner as [|[m|e] inner IH]; simpl; intros H Hd; simplify_eq.
  destruct m as [d|d|d|d| |]; try case_decide; simplify_eq; try (specialize (IH H Hd)); lia.
Qed.

Lemma ws_read_data_chunk inner data inner' :
  ws_read_data inner = (Ok data, inner') -> data <> [] ->
  ws_data inner = data :: ws_data inner'.
Proof.
  induction inner as [|[m|e] inner IH]; simpl; intros H Hd; simplify_eq.
  destruct m as [d|d|d|d| |]; simpl in *; repeat case_decide; simplify_eq; auto.
Qed.

Lemma ws_read_data_stop inner inner' :
  ws_read_data inner = (Ok [], inner') -> ws_data inner = [].
Proof.
  induction inner as [|[m|e] inner IH]; simpl; intros H; simplify_eq; [done|].
  destruct m as [d|d|d|d| |]; simpl in *; repeat case_decide; simplify_eq; auto.
Qed.

Lemma ws_read_data_error inner e inner' :
  ws_read_data inner = (Err e, inner') -> ws_data inner = [] /\ e = WsReadError.
Proof.
  induction inner as [|[m|e'] inner IH]; simpl; intros H; simplify_eq; [|done].
  destruct m as [d|d|d|d| |]; simpl in *; repeat case_decide; simplify_eq; auto.
Qed.

(** Where the first of close, error and end of stream is a clean one. *)
Fixpoint ws_clean (inner : WsStream) : bool :=
  match inner with
  | [] => true
  | Err _ :: _ => false
  | Ok CloseMessage :: _ => true
  | Ok _ :: inner' => ws_clean inner'
  end.

Lemma ws_read_data_clean inner r inner' :
  ws_read_data inner = (r, inner') ->
  match r with
  | Ok [] => ws_clean inner = true
  | Ok _ => ws_clean inner = ws_clean inner'
  | Err _ => ws_clean inner = false
  end.
Proof.
  induction inner as [|[m|e'] inner IH]; simpl; intros H; simplify_eq; try done.
  destruct m as [d|d|d|d| |]; simpl in *; repeat case_decide; simplify_eq; first [exact (IH H) | done | by destruct d].
Qed.

(** ** Property *)

(** Reading a WebSocket to its end terminates and yields exactly the peer's
    non-empty data messages in order, ending cleanly exactly when the stream closed
    or ended before any error; empty data frames and keep-alives are never taken
    for the end of the stream. *)
Theorem ws_read_all_exact (inner : WsStream) :
  exists r, ws_read_all (S (length inner)) inner = Some r /\
    chunks_of r = ws_data inner /\ is_ok r = ws_clean inner /\
    Forall (fun d => d <> []) (chunks_of r).
Proof.
  assert (forall n, length inner <= n -> exists r, ws_read_all (S n) inner = Some r /\
    chunks_of r = ws_data inner /\ is_ok r = ws_clean inner /\
    Forall (fun d => d <> []) (chunks_of r)) as H; [|by apply H].
  intros n. revert inner. induction n as [n IH] using lt_wf_ind. intros inner Hle.
  destruct (ws_read_data inner) as [[d|e] inner'] eqn:E;
    pose proof (ws_read_data_clean _ _ _ E) as Hc; cbn [ws_read_all]; rewrite E.
  - destruct d as [|c d].
    + exists (Ok []). rewrite (ws_read_data_stop _ _ E). by repeat constructor.
    + pose proof (ws_read_data_shorter _ _ _ E ltac:(done)) as Hs.
      destruct n as [|n]; [lia|].
      destruct (IH n ltac:(lia) inner' ltac:(lia)) as (r & -> & Hr & Hok & Hne).
      rewrite (ws_read_data_chunk _ _ _ E ltac:(done)). simpl.
      eexists. split; [reflexivity|]. destruct r; simpl in *; subst;
        split_and!; try congruence; by constructor.
  - exists (Err []). rewrite (proj1 (ws_read_data_error _ _ _ E)). by repeat constructor.
Qed.
