(* ===== verification/Dial.v ===== *)
(** * Dial: dialling a backend ([src/export/tcp.rs], [src/export/ws.rs])

    Each attempt is bounded by [connect_timeout]; the retries are backon's.  Times are
    in milliseconds. *)

From S2P Require Import Prelude Text Config Transport.

(** The outcome of one attempt: a connection, a refusal, or silence. *)
Inductive Connect (C : Type) : Type :=
| Connected (c : C) (took : N)
| Refused (reason : str) (took : N)
| Hangs.
Arguments Connected {C} c took.
Arguments Refused {C} reason took.
Arguments Hangs {C}.

Inductive DialError : Type :=
| ConnectTimedOut
| ConnectFailed (reason : str).

(** [timeout(connect_timeout, connect(..))], and how long it took. *)
Definition attempt {C} (connect_timeout : N) (c : Connect C) : result DialError C * N :=
  match c with
  | Connected c took => if (took <=? connect_timeout)%N then (Ok c, took) else (Err ConnectTimedOut, connect_timeout)
  | Refused reason took =>
      if (took <=? connect_timeout)%N then (Err (ConnectFailed reason), took) else (Err ConnectTimedOut, connect_timeout)
  | Hangs => (Err ConnectTimedOut, connect_timeout)
  end.

(** backon's [ExponentialBuilder] and [Retryable::retry]: the result, and the delays
    slept between the attempts. *)
Record ExponentialBuilder : Type := { min_delay : N; max_delay : N; max_times : nat }.

Class Backon : Type :=
  retry : forall E A, ExponentialBuilder -> (nat -> result E A) -> result E A * list N.
Arguments retry {_ E A}.

(** A successful attempt, or the last one allowed, ends it. *)
Class BackonLaws (B : Backon) : Prop :=
  retry_stops : forall E A policy (f : nat -> result E A),
    exists k, k <= max_times policy /\ (forall i, i < k -> is_ok (f i) = false) /\
      fst (retry policy f) = f k /\ (is_ok (f k) = true \/ k = max_times policy) /\
      length (snd (retry policy f)) = k /\ Forall (fun d => d <= max_delay policy)%N (snd (retry policy f)).
Arguments retry_stops {B _} {E A}.

Definition dial_policy : ExponentialBuilder :=
  {| min_delay := from_millis 100; max_delay := from_secs 5; max_times := 5 |}.

Definition sum_N (l : list N) : N := foldr N.add 0%N l.

Section Dial.
Context {B : Backon}.

(** The connection, and the time from the first attempt to the end. *)
Definition dial_with {C} (config : BridgeConfig) (attempts : nat -> Connect C) : result DialError C * N :=
  let tries i := attempt (connect_timeout config) (attempts i) in
  let (r, delays) := retry dial_policy (fun i => fst (tries i)) in
  (r, (sum_N ((fun i => snd (tries i)) <$> seq 0 (S (length delays))) + sum_N delays)%N).

Definition dial_tcp (config : BridgeConfig) (attempts : nat -> Connect unit)
    : result DialError (TcpReader * TcpWriter) * N :=
  let (r, t) := dial_with config attempts in
  ((fun _ => (TcpReader_new (N.to_nat (buffer_size config)), {| tcp_wire := []; tcp_fin := false |})) <$> r, t).

(** [ws_stream.split()]: the messages still to come, and the sink. *)
Definition dial_ws (config : BridgeConfig) (attempts : nat -> Connect WsStream)
    : result DialError (WsStream * WsWriter) * N :=
  let (r, t) := dial_with config attempts in
  ((fun receiver => (receiver, {| ws_sent := []; ws_closed := false |})) <$> r, t).

Context {BL : BackonLaws B}.

Lemma attempt_bounded {C} timeout (c : Connect C) : (snd (attempt timeout c) <= timeout)%N.
Proof using Type. destruct c as [c t|r t|]; simpl; [destruct (N.leb_spec t timeout)..|]; simpl; lia. Qed.

Lemma attempt_Ok {C} timeout (c : Connect C) x :
  fst (attempt timeout c) = Ok x <-> exists took, c = Connected x took /\ (took <= timeout)%N.
Proof using Type.
  destruct c as [c t|r t|]; simpl; [destruct (N.leb_spec t timeout)..|]; simpl; split; try naive_solver.
  - intros (t' & [= -> ->] & ?). lia.
Qed.

Lemma sum_N_bound l b n : Forall (fun d => d <= b)%N l -> length l <= n -> (sum_N l <= N.of_nat n * b)%N.
Proof using Type.
  intros Hf Hl. assert (sum_N l <= N.of_nat (length l) * b)%N as H.
  { clear Hl. induction Hf as [|d l Hd _ IH]; simpl; [lia|]. nia. }
  nia.
Qed.

(** Six attempts and five pauses at most. *)
Lemma dial_with_spec {C} config (attempts : nat -> Connect C) :
  let '(r, t) := dial_with config attempts in
  (t <= 6 * connect_timeout config + 5 * from_secs 5)%N /\
  match r with
  | Ok c => exists k took, k <= 5 /\ attempts k = Connected c took /\ (took <= connect_timeout config)%N /\
      forall i, i < k -> is_ok (fst (attempt (connect_timeout config) (attempts i))) = false
  | Err _ => forall i, i <= 5 -> is_ok (fst (attempt (connect_timeout config) (attempts i))) = false
  end.
Proof using BL.
  unfold dial_with. set (tries i := attempt (connect_timeout config) (attempts i)).
  destruct (retry_stops dial_policy (fun i => fst (tries i))) as (k & Hk & Hbefore & Hr & Hend & Hl & Hd).
  destruct (retry dial_policy _) as [r delays]. cbn [fst snd max_times max_delay dial_policy] in *. split.
  - assert (sum_N delays <= 5 * from_secs 5)%N by (apply (sum_N_bound delays (from_secs 5) 5); [done|lia]).
    assert (sum_N ((fun i => snd (tries i)) <$> seq 0 (S (length delays))) <= 6 * connect_timeout config)%N.
    { apply (sum_N_bound _ _ 6); [|rewrite length_fmap, length_seq; lia].
      apply Forall_fmap, Forall_forall. intros i _. apply attempt_bounded. }
    by apply N.add_le_mono.
  - subst r. destruct (fst (tries k)) as [c|e] eqn:E.
    + apply attempt_Ok in E as (took & Ha & Ht). by exists k, took.
    + destruct Hend as [|Hk5]; [done|]. intros i Hi. destruct (decide (i = k)) as [->|]; [|apply Hbefore; lia].
      fold (tries k). by rewrite E.
Qed.

(** C30: dialling a backend is bounded.  Whatever the addresses do, a dial ends within
    six times [connect_timeout] and five pauses of at most five seconds; it succeeds exactly
    with the first of its six attempts that connects in time, and hands over a fresh,
    open writer with nothing written. *)
Theorem dial_bounded config (tcp : nat -> Connect unit) (ws : nat -> Connect WsStream) :
  let '(rt, tt') := dial_tcp config tcp in
  let '(rw, tw) := dial_ws config ws in
  (tt' <= 6 * connect_timeout config + 25000)%N /\ (tw <= 6 * connect_timeout config + 25000)%N /\
  (is_ok rt = true <-> exists k took, k <= 5 /\ tcp k = Connected tt took /\ (took <= connect_timeout config)%N) /\
  (forall r w, rt = Ok (r, w) -> buffer r = [] /\ wire w = [] /\ half_closed w = false) /\
  (is_ok rw = true <-> exists k took c, k <= 5 /\ ws k = Connected c took /\ (took <= connect_timeout config)%N) /\
  (forall r w, rw = Ok (r, w) -> wire w = [] /\ half_closed w = false /\
     exists k took, k <= 5 /\ ws k = Connected r took /\
       forall i, i < k -> is_ok (fst (attempt (connect_timeout config) (ws i))) = false).
Proof using BL.
  unfold dial_tcp, dial_ws.
  pose proof (dial_with_spec config tcp) as Ht. pose proof (dial_with_spec config ws) as Hw.
  destruct (dial_with config tcp) as [rt t1], (dial_with config ws) as [rw t2].
  destruct Ht as [Ht Hrt], Hw as [Hw Hrw]. unfold from_secs in *. split_and!; [lia|lia|..].
  - destruct rt as [[]|e]; simpl; [naive_solver|]. split; [done|]. intros (k & took & Hk & Hc & Hb).
    specialize (Hrt k Hk). rewrite Hc in Hrt. simpl in Hrt. rewrite (proj2 (N.leb_le _ _) Hb) in Hrt. done.
  - destruct rt as [[]|e]; simpl; [|done]. by intros r w [= <- <-].
  - destruct rw as [c|e]; simpl; [naive_solver|]. split; [done|]. intros (k & took & c & Hk & Hc & Hb).
    specialize (Hrw k Hk). rewrite Hc in Hrw. simpl in Hrw. rewrite (proj2 (N.leb_le _ _) Hb) in Hrw. done.
  - destruct rw as [c|e]; simpl; [|done]. intros r w [= <- <-]. naive_solver.
Qed.
End Dial.

(** ** A retry without pauses, to evaluate dials on *)

Fixpoint retry_from {E A} (left i : nat) (f : nat -> result E A) (delays : list N) : result E A * list N :=
  match f i, left with
  | Err _, S left' => retry_from left' (S i) f (delays ++ [0%N])
  | r, _ => (r, delays)
  end.

#[local] Instance eager : Backon := fun E A policy f => retry_from (max_times policy) 0 f [].

Lemma retry_from_spec {E A} left i (f : nat -> result E A) delays :
  exists k, k <= left /\ (forall j, j < k -> is_ok (f (i + j)) = false) /\
    retry_from left i f delays = (f (i + k), delays ++ replicate k 0%N) /\ (is_ok (f (i + k)) = true \/ k = left).
Proof.
  revert i delays. induction left as [|left IH]; intros i delays; simpl.
  - exists 0. rewrite Nat.add_0_r. split_and!; [lia|lia| |by right]. simpl. rewrite app_nil_r. by destruct (f i).
  - destruct (f i) as [a|e] eqn:Ef.
    + exists 0. rewrite Nat.add_0_r, Ef. split_and!; [lia|lia| |by left]. simpl. by rewrite app_nil_r.
    + destruct (IH (S i) (delays ++ [0%N])) as (k & Hk & Hb & Hr & He). exists (S k).
      rewrite <- Nat.add_succ_comm in *. split_and!; [lia| | |naive_solver].
      * intros [|j] Hj; [by rewrite Nat.add_0_r, Ef|]. rewrite <- Nat.add_succ_comm. apply Hb. lia.
      * rewrite Hr. simpl. by rewrite <- app_assoc.
Qed.

#[local] Instance eager_laws : BackonLaws eager.
Proof.
  intros E A policy f. destruct (retry_from_spec (max_times policy) 0 f []) as (k & Hk & Hb & Hr & He).
  exists k. unfold retry, eager. rewrite Hr. simpl. split_and!; try done.
  - by rewrite length_replicate.
  - apply Forall_forall. intros d Hd. apply elem_of_replicate in Hd as [-> _]. lia.
Qed.

Lemma dial_bounded_witness :
  (snd (dial_tcp BridgeConfig_default (fun _ => Hangs)) <= 6 * connect_timeout BridgeConfig_default + 25000)%N.
Proof.
  pose proof (dial_bounded BridgeConfig_default (fun _ => Hangs) (fun _ => Hangs)) as H.
  destruct (dial_tcp _ _) as [rt t], (dial_ws _ _). exact (proj1 H).
Defined.

(** The third attempt connects. *)
Example third_time :
  dial_tcp BridgeConfig_default (fun i => if i <? 2 then Hangs else Connected tt 7%N) =
  (Ok (TcpReader_new 65536, {| tcp_wire := []; tcp_fin := false |}), 20007%N).
Proof.
  unfold dial_tcp. assert (dial_with BridgeConfig_default (fun i => if i <? 2 then Hangs else Connected tt 7%N) =
    (Ok tt, 20007%N)) as -> by (vm_compute; reflexivity). reflexivity.
Qed.
