(* ===== verification/ZenohUtil.v ===== *)
(** * ZenohUtil: the publishing gate and the error signal ([src/zenoh_util.rs])

    A clock in milliseconds runs along: an await is how long the session takes to
    answer it, or that it never does, and a time-out ends it at its deadline. *)

From S2P Require Import Prelude Text Config.

(** ** [await_matching_subscriber] *)

(** One [matching_status()] query: its answer ([None] is an error) and the time it
    took, or no answer at all. *)
Inductive Query : Type :=
| Answered (matching : option bool) (took : N)
| Stalled.

Inductive GateEnd : Type := NotGated | Attached | GaveUp.

#[export] Instance GateEnd_eq_dec : EqDecision GateEnd.
Proof. solve_decision. Defined.

(** [timeout(remaining, ..)]: the answer, if it comes in time, and the clock. *)
Definition timed_query (deadline now : N) (q : Query) : option bool * N :=
  let remaining := (deadline - now)%N in
  match q with
  | Answered m took => if (took <=? remaining)%N then (m, now + took)%N else (None, now + remaining)%N
  | Stalled => (None, now + remaining)%N
  end.

(** [None] while the queries run out before the loop ends. *)
Fixpoint gate_loop (deadline now : N) (queries : list Query) : option (GateEnd * N) :=
  match queries with
  | [] => None
  | q :: queries' =>
      let (status, now) := timed_query deadline now q in
      if bool_decide (status = Some true) then Some (Attached, now)
      else if (deadline <=? now)%N then Some (GaveUp, now)
      else gate_loop deadline (now + 1) queries'
  end.

Definition await_matching_subscriber (mode : ReliabilityMode) (timeout now : N) (queries : list Query)
    : option (GateEnd * N) :=
  if decide (mode = Stream) then gate_loop (now + timeout) now queries else Some (NotGated, now).

Lemma timed_query_clock deadline now q :
  (now <= deadline)%N -> (now <= snd (timed_query deadline now q) <= deadline)%N.
Proof. intros Hn. unfold timed_query. destruct q as [m took|]; simpl; [destruct (N.leb_spec took (deadline - now)); simpl|]; lia. Qed.

(** A query that counts was answered, with a match, by the deadline. *)
Lemma timed_query_match deadline now q t :
  timed_query deadline now q = (Some true, t) -> exists took, q = Answered (Some true) took /\ t = (now + took)%N.
Proof.
  unfold timed_query. destruct q as [m took|]; [|done]. destruct (_ <=? _)%N; [|done]. intros [= -> <-]. by exists took.
Qed.

Lemma gate_loop_returns queries deadline now :
  (now <= deadline)%N -> (deadline - now < N.of_nat (length queries))%N ->
  exists e t, gate_loop deadline now queries = Some (e, t).
Proof.
  revert now. induction queries as [|q queries IH]; intros now Hn Hl; simpl in *; [lia|].
  pose proof (timed_query_clock deadline now q Hn) as Ht. destruct (timed_query deadline now q) as [s t]. simpl in Ht.
  case_bool_decide; [eauto|]. destruct (N.leb_spec deadline t); [eauto|]. apply IH; lia.
Qed.

Lemma gate_loop_spec queries deadline now e t :
  (now <= deadline)%N -> gate_loop deadline now queries = Some (e, t) ->
  (now <= t <= deadline)%N /\
  match e with
  | NotGated => False
  | Attached => exists took, Answered (Some true) took ∈ queries
  | GaveUp => t = deadline
  end.
Proof.
  revert now. induction queries as [|q queries IH]; intros now Hn; simpl; [done|].
  pose proof (timed_query_clock deadline now q Hn) as Ht.
  destruct (timed_query deadline now q) as [s t1] eqn:Eq. simpl in Ht.
  case_bool_decide as Hs.
  - intros [= <- <-]. split; [done|]. subst s. apply timed_query_match in Eq as (took & -> & _). exists took. by left.
  - destruct (N.leb_spec deadline t1); [intros [= <- <-]; split; lia|].
    intros Hg. apply IH in Hg as [Hb He]; [|lia]. split; [lia|]. destruct e; [done| |done].
    destruct He as [took Ha]. exists took. by right.
Qed.

(** ** [publish_error_signal] *)

(** An await of the session: its result and how long it took, or never. *)
Definition Await : Type := option (bool * N).

Record SignalEnv : Type := {
  key_valid : bool;
  declare : Await;
  gate_queries : list Query;
  put_signal : Await;
}.

Inductive SignalError : Type := InvalidErrorKey | DeclareFailed | PutFailed | SignalTimeout.

(** [max(availability_timeout, 1 s) * 3]. *)
Definition budget (availability_timeout : N) : N := N.max availability_timeout (from_secs 1) * 3.

Definition await (now : N) (a : Await) : option (bool * N) := '(ok, took) ← a; Some (ok, now + took)%N.

(** The result and when it is there; [None] when some await never ends. *)
Definition publish_error_signal_inner (availability_timeout now : N) (env : SignalEnv)
    : option (result SignalError unit * N) :=
  if key_valid env then
    '(declared, now) ← await now (declare env);
    if declared : bool then
      '(_, now) ← await_matching_subscriber Stream availability_timeout now (gate_queries env);
      '(put, now) ← await now (put_signal env);
      Some (ensure put PutFailed, now)
    else Some (Err DeclareFailed, now)
  else Some (Err InvalidErrorKey, now).

Definition publish_error_signal (availability_timeout now : N) (env : SignalEnv) : result SignalError unit * N :=
  let deadline := (now + budget availability_timeout)%N in
  match publish_error_signal_inner availability_timeout now env with
  | Some (r, t) => if (t <=? deadline)%N then (r, t) else (Err SignalTimeout, deadline)
  | None => (Err SignalTimeout, deadline)
  end.

(** What a success says of the session. *)
Definition signal_put (env : SignalEnv) : Prop :=
  key_valid env = true /\ exists d p, declare env = Some (true, d) /\ put_signal env = Some (true, p).

Lemma publish_error_signal_Ok availability now env t :
  publish_error_signal availability now env = (Ok tt, t) -> signal_put env.
Proof.
  unfold publish_error_signal.
  destruct (publish_error_signal_inner _ _ _) as [[r' t']|] eqn:Ei; [|done]. destruct (_ <=? _)%N; [|done]. intros E. simplify_eq.
  unfold publish_error_signal_inner, await in Ei. destruct (key_valid env) eqn:Ek; [|done]. split; [done|].
  destruct (declare env) as [[[] d]|]; simpl in Ei; [|done|done].
  destruct (await_matching_subscriber _ _ _ _) as [[e t1]|]; simpl in Ei; [|done].
  destruct (put_signal env) as [[[] p]|]; simpl in Ei; [|done|done]. by exists d, p.
Qed.

(** The declaration and the put are answered, each within a third of the budget. *)
Definition prompt (availability : N) (env : SignalEnv) (od op : bool) : Prop :=
  key_valid env = true /\ (availability < N.of_nat (length (gate_queries env)))%N /\
  exists d p, declare env = Some (od, d) /\ put_signal env = Some (op, p) /\
    (d <= N.max availability 1000)%N /\ (p <= N.max availability 1000)%N.

Lemma publish_error_signal_prompt availability now env od op :
  prompt availability env od op ->
  fst (publish_error_signal availability now env) = if od then ensure op PutFailed else Err DeclareFailed.
Proof.
  intros (Hk & Hq & d & p & Hd & Hp & Hdb & Hpb). unfold publish_error_signal, publish_error_signal_inner, await.
  rewrite Hk, Hd, Hp. unfold budget, from_secs. destruct od; simpl.
  - destruct (gate_loop_returns (gate_queries env) (now + d + availability) (now + d)) as (e & t1 & Eg); [lia|lia|].
    unfold await_matching_subscriber. rewrite decide_True by done. rewrite Eg. simpl.
    destruct (gate_loop_spec (gate_queries env) (now + d + availability) (now + d) e t1 ltac:(lia) Eg) as [Hb _].
    destruct (N.leb_spec (t1 + p) (now + N.max availability (1 * 1000) * 3)); [done|lia].
  - destruct (N.leb_spec (now + d) (now + N.max availability (1 * 1000) * 3)); [done|lia].
Qed.

(** ** The holder of the cached signal *)

Inductive SampleKind : Type := Put | Delete.

#[export] Instance SampleKind_eq_dec : EqDecision SampleKind.
Proof. solve_decision. Defined.

Definition ERROR_HOLD_CAP : N := from_secs 60.

Inductive HolderPhase : Type := Declaring | Probing | Holding | Released.

#[export] Instance HolderPhase_eq_dec : EqDecision HolderPhase.
Proof. solve_decision. Defined.

(** [arrived]: samples of the token's subscriber not yet received. *)
Record Holder : Type := { h_phase : HolderPhase; arrived : list SampleKind; sub_closed : bool }.

Definition holder_init : Holder := {| h_phase := Declaring; arrived := []; sub_closed := false |}.

Inductive HolderEvent : Type :=
| WatchDeclared (ok : bool)
| ProbeReply (reply : option bool)  (** a reply, none, or the query failed *)
| ProbeTimeout
| Arrives (k : SampleKind)
| SubscriberCloses
| Receive
| CapExpires.

Definition set_phase (p : HolderPhase) (h : Holder) : Holder :=
  {| h_phase := p; arrived := arrived h; sub_closed := sub_closed h |}.

Definition holder_step (h : Holder) (e : HolderEvent) : option Holder :=
  match h_phase h, e with
  | Released, _ => None
  | _, CapExpires => Some (set_phase Released h)
  | Declaring, WatchDeclared ok => Some (set_phase (if ok then Probing else Released) h)
  | Declaring, _ => None
  | _, Arrives k =>
      if sub_closed h then None
      else Some {| h_phase := h_phase h; arrived := arrived h ++ [k]; sub_closed := false |}
  | _, SubscriberCloses => Some {| h_phase := h_phase h; arrived := arrived h; sub_closed := true |}
  | Probing, ProbeReply reply =>
      (* a failed query says nothing about the token: treat it as alive *)
      Some (set_phase (if default true reply then Holding else Released) h)
  | Probing, ProbeTimeout => Some (set_phase Holding h)
  | Holding, Receive =>
      match arrived h with
      | Delete :: rest => Some {| h_phase := Released; arrived := rest; sub_closed := sub_closed h |}
      | Put :: rest => Some {| h_phase := Holding; arrived := rest; sub_closed := sub_closed h |}
      | [] => if sub_closed h then Some (set_phase Released h) else None
      end
  | _, _ => None
  end.

(** The signal is kept for as long as nothing says that the client is gone. *)
Definition gone_event (e : HolderEvent) : bool :=
  match e with
  | WatchDeclared false | ProbeReply (Some false) | Arrives Delete | SubscriberCloses | CapExpires => true
  | _ => false
  end.

Definition holder_inv (es : list HolderEvent) (h : Holder) : Prop :=
  existsb gone_event es = false -> h_phase h <> Released /\ Delete ∉ arrived h /\ sub_closed h = false.

Lemma holder_inv_step es h e h' : holder_inv es h -> holder_step h e = Some h' -> holder_inv (es ++ [e]) h'.
Proof.
  unfold holder_inv. intros Hi Hs. rewrite existsb_app, orb_false_iff. simpl. rewrite orb_false_r. intros [He Hg].
  destruct (Hi He) as (Hp & Hd & Hc). unfold holder_step in Hs.
  destruct h as [p a c], e as [[]|[[]|]| |[]| | |]; simpl in *; try done; destruct p; simpl in *; simplify_eq/=;
    try done.
  - rewrite not_elem_of_app, not_elem_of_cons. split_and!; [done|done|done|apply not_elem_of_nil|done].
  - rewrite not_elem_of_app, not_elem_of_cons. split_and!; [done|done|done|apply not_elem_of_nil|done].
  - destruct a as [|[] a]; simplify_eq/=; [|set_solver]. split_and!; [done|set_solver|done].
Qed.

Lemma run_holder_inv es h : run holder_step holder_init es = Some h -> holder_inv es h.
Proof.
  apply (run_history_invariant holder_step holder_inv).
  - intros _. split_and!; [done|apply not_elem_of_nil|done].
  - intros es' s e s' _. apply holder_inv_step.
Qed.

(** Once a [Delete] has arrived, receiving ends the hold. *)
Lemma holder_receives h :
  h_phase h = Holding -> Delete ∈ arrived h \/ sub_closed h = true ->
  exists n h', n <= S (length (arrived h)) /\ run holder_step h (replicate n Receive) = Some h' /\ h_phase h' = Released.
Proof.
  destruct h as [p a c]. simpl. intros -> . induction a as [|[] a IH]; intros Hd; simpl.
  - destruct Hd as [Hd| ->]; [by apply not_elem_of_nil in Hd|]. exists 1. eexists. split_and!; [lia|reflexivity|done].
  - destruct IH as (n & h' & Hn & Hr & Hp); [destruct Hd as [Hd|]; [set_solver|by right]|].
    exists (S n), h'. split_and!; [lia| |done]. simpl. exact Hr.
  - exists 1. eexists. split_and!; [lia|reflexivity|done].
Qed.

(** ** Properties *)

(** The gate before the first publication is bounded and honest.  A telemetry
    publisher is never gated.  A stream publisher waits for at most the time-out, however
    the session stalls, after at most one query per millisecond; it reports a subscriber
    only when a query answered with one, and gives up only at the deadline. *)
Theorem gate_bounded mode timeout now queries :
  (timeout < N.of_nat (length queries))%N ->
  exists e t, await_matching_subscriber mode timeout now queries = Some (e, t) /\ (now <= t <= now + timeout)%N /\
    match e with
    | NotGated => mode = Telemetry /\ t = now
    | Attached => mode = Stream /\ exists took, Answered (Some true) took ∈ queries
    | GaveUp => mode = Stream /\ t = (now + timeout)%N
    end.
Proof.
  intros Hl. unfold await_matching_subscriber. case_decide as Hm.
  - destruct (gate_loop_returns queries (now + timeout) now) as (e & t & E); [lia|lia|].
    exists e, t. destruct (gate_loop_spec queries (now + timeout) now e t ltac:(lia) E) as [Hb He].
    split_and!; [done|lia|lia|]. by destruct e.
  - exists NotGated, now. destruct mode; [done|]. split_and!; [done|lia|lia|done|done].
Qed.

Lemma gate_bounded_witness :
  exists e t, await_matching_subscriber Stream 3 10 [Answered None 1; Answered (Some false) 0; Stalled; Stalled] = Some (e, t) /\
    e = GaveUp /\ (t <= 13)%N.
Proof.
  destruct (gate_bounded Stream 3 10 [Answered None 1; Answered (Some false) 0; Stalled; Stalled]) as (e & t & E & Hb & _);
    [vm_compute; reflexivity|].
  exists e, t. split; [exact E|]. split; [|apply Hb]. vm_compute in E. by injection E as <- <-.
Defined.

(** C31: the teardown signal is bounded, truthful and held.  Publishing returns within
    its budget whatever stalls, and reports success only when the declaration and the put
    succeeded; when each of them takes no longer than the budget's third, no time-out hides
    their result.  The cached signal is then held until the watch fails, the client's token
    is known to be gone, or the cap expires (a failed or unanswered probe does not release
    it), and a token's [Delete] does. *)
Theorem error_signal_held availability now env es h :
  run holder_step holder_init es = Some h ->
  let '(r, t) := publish_error_signal availability now env in
  (t <= now + budget availability)%N /\
  (r = Ok tt -> key_valid env = true /\ exists d p, declare env = Some (true, d) /\ put_signal env = Some (true, p)) /\
  (forall od d op p, key_valid env = true -> declare env = Some (od, d) -> put_signal env = Some (op, p) ->
     (availability < N.of_nat (length (gate_queries env)))%N ->
     (d <= N.max availability 1000)%N -> (p <= N.max availability 1000)%N ->
     r = if od then ensure op PutFailed else Err DeclareFailed) /\
  (h_phase h = Released -> existsb gone_event es = true) /\
  (h_phase h <> Released -> run holder_step h [CapExpires] = Some (set_phase Released h)) /\
  (h_phase h = Holding -> Delete ∈ arrived h \/ sub_closed h = true ->
     exists n h', n <= S (length (arrived h)) /\ run holder_step h (replicate n Receive) = Some h' /\
       h_phase h' = Released).
Proof.
  intros Hrun. destruct (publish_error_signal availability now env) as [r t] eqn:E. split_and!.
  - unfold publish_error_signal in E. destruct (publish_error_signal_inner _ _ _) as [[r' t']|]; [|simplify_eq; lia].
    destruct (N.leb_spec t' (now + budget availability)); simplify_eq; lia.
  - intros ->. by eapply publish_error_signal_Ok.
  - intros od d op p Hk Hd Hp Hq Hdb Hpb.
    rewrite <- (publish_error_signal_prompt availability now env od op), E; [done|]. split_and!; [done|done|by exists d, p].
  - intros Hr. apply not_false_iff_true. intros Hg. by destruct (run_holder_inv _ _ Hrun Hg).
  - intros Hp. destruct h as [[] a c]; done.
  - apply holder_receives.
Qed.

Definition late_delete : list HolderEvent :=
  [WatchDeclared true; Arrives Put; ProbeReply None; Receive; Arrives Delete].

Definition slow_session : SignalEnv :=
  {| key_valid := true; declare := Some (true, 40%N); gate_queries := replicate 1500 (Answered (Some false) 5%N);
     put_signal := Some (true, 3%N) |}.

Lemma error_signal_held_witness :
  let '(r, t) := publish_error_signal 1000 0 slow_session in
  r = Ok tt /\ (t <= 3000)%N /\
  exists h, run holder_step holder_init late_delete = Some h /\ h_phase h = Holding /\
    exists n h', n <= 2 /\ run holder_step h (replicate n Receive) = Some h' /\ h_phase h' = Released.
Proof.
  destruct (run holder_step holder_init late_delete) as [h|] eqn:E; [|vm_compute in E; discriminate].
  pose proof (error_signal_held 1000 0 slow_session late_delete h E) as H.
  destruct (publish_error_signal 1000 0 slow_session) as [r t] eqn:Er.
  destruct H as (Ht & _ & _ & _ & _ & Hd).
  split; [vm_compute in Er; by injection Er as <- _|]. split; [exact Ht|].
  exists h. split; [done|]. injection E as <-. split; [done|]. apply Hd; [done|]. left. by left.
Defined.
