(* ===== verification/Relay.v ===== *)
(** * Relay: the two relay loops of one connection ([src/export/bridge.rs],
    [src/import/bridge.rs])

    Each side of the bridge runs two tasks per connection: one takes samples from
    the reception channel and writes them to the socket, the other reads the socket
    and publishes samples.  They share the connection's cancellation token.  The
    two files hold the same pair of loops with the roles of client and backend
    exchanged, so they are modelled once, as an executable transition system whose
    events are the completions of the awaited operations; a write, a put and a
    half-close are each two steps, so that deliveries, misses, resets and aborts
    interleave with them as they do under the scheduler.  [ImportBridge] and
    [ExportBridge] instantiate it. *)

From S2P Require Import Prelude Text Config Backpressure Transport.

(** How one direction ended.  The import's loops break without a value; theirs
    are the ends the mirror-image loop of the export gives. *)
Inductive DirectionEnd : Type := Eof | Reset | Error.

#[export] Instance DirectionEnd_eq_dec : EqDecision DirectionEnd.
Proof. solve_decision. Defined.

(** The task from the bus to the socket: at its [select!], or inside the arm it
    took, awaiting the named operation. *)
Inductive BusTask : Type :=
| BIdle
| BWriting (payload : bytes)
| BHalfClosing
| BShutting
| BDone (e : DirectionEnd)
| BAborted.

(** The task from the socket to the bus. *)
Inductive SocketTask : Type :=
| SIdle
| SPutting (data : bytes)
| SPuttingEof
| SDone (e : DirectionEnd)
| SAborted.

Definition bus_running (t : BusTask) : bool :=
  match t with BDone _ | BAborted => false | _ => true end.

Definition socket_running (t : SocketTask) : bool :=
  match t with SDone _ | SAborted => false | _ => true end.

(** ** State *)

(** The reception side with the connection's token ([rxs]), the two tasks, the
    writer, the state of the response tap, the samples the publisher accepted, and
    what was added to the byte counters. *)
Record Relay {M : Mpsc bytes} {W T : Type} : Type := {
  rxs : RxState bytes;
  session_gone : bool;
  miss_listening : bool;
  bus_task : BusTask;
  sink : W;
  tapped : T;
  socket_task : SocketTask;
  published : list bytes;
  counted_out : N;
  counted_in : N;
}.
Arguments Relay {M} W T.

Inductive RelayEvent : Type :=
| Sample (payload : bytes)               (** the bus delivers a sample *)
| ListenMisses                           (** the miss listener is registered *)
| Miss                                   (** the subscriber reports a lost sample *)
| Trip                                   (** another task cancels the token *)
| SessionGone                            (** the subscriber, and its callback, are gone *)
| Take                                   (** [rx.recv()] gives a sample *)
| TakeNone                               (** [rx.recv()] gives [None] *)
| SeeCancelBus                           (** the bus task's [cancelled()] arm *)
| WriteDone (o : WriteOutcome)
| EofDone (ok : bool)
| ShutdownDone (ok : bool)
| Read (res : result IoError bytes)      (** [read_data()] completes *)
| SeeCancelSocket                        (** the socket task's [cancelled()] arm *)
| PutDone (ok : bool)
| AbortBus (o : WriteOutcome) (ok : bool)    (** the watchdog, and how far it got *)
| AbortSocket (ok : bool).

Section Steps.
Context {M : Mpsc bytes} {W T : Type} {TW : TransportWriter W}.
Context (mode : ReliabilityMode) (tap : option (bytes -> T -> T)).
Implicit Types r : Relay W T.

Definition set_rxs (s : RxState bytes) r : Relay W T :=
  {| rxs := s; session_gone := session_gone r; miss_listening := miss_listening r;
     bus_task := bus_task r; sink := sink r; tapped := tapped r;
     socket_task := socket_task r; published := published r;
     counted_out := counted_out r; counted_in := counted_in r |}.

Definition set_bus (t : BusTask) (w : W) r : Relay W T :=
  {| rxs := rxs r; session_gone := session_gone r; miss_listening := miss_listening r;
     bus_task := t; sink := w; tapped := tapped r;
     socket_task := socket_task r; published := published r;
     counted_out := counted_out r; counted_in := counted_in r |}.

Definition set_socket (t : SocketTask) (pub : list bytes) r : Relay W T :=
  {| rxs := rxs r; session_gone := session_gone r; miss_listening := miss_listening r;
     bus_task := bus_task r; sink := sink r; tapped := tapped r;
     socket_task := t; published := pub;
     counted_out := counted_out r; counted_in := counted_in r |}.

Definition lose_session r : Relay W T :=
  {| rxs := rxs r; session_gone := true; miss_listening := miss_listening r;
     bus_task := bus_task r; sink := sink r; tapped := tapped r;
     socket_task := socket_task r; published := published r;
     counted_out := counted_out r; counted_in := counted_in r |}.

Definition listen_misses r : Relay W T :=
  {| rxs := rxs r; session_gone := session_gone r; miss_listening := true;
     bus_task := bus_task r; sink := sink r; tapped := tapped r;
     socket_task := socket_task r; published := published r;
     counted_out := counted_out r; counted_in := counted_in r |}.

(** [add_up] or [add_down] on the way out, and the read-only tap. *)
Definition count_out (payload : bytes) r : Relay W T :=
  {| rxs := rxs r; session_gone := session_gone r; miss_listening := miss_listening r;
     bus_task := bus_task r; sink := sink r;
     tapped := match tap with Some f => f payload (tapped r) | None => tapped r end;
     socket_task := socket_task r; published := published r;
     counted_out := (counted_out r + N.of_nat (length payload))%N;
     counted_in := counted_in r |}.

Definition count_in (data : bytes) r : Relay W T :=
  {| rxs := rxs r; session_gone := session_gone r; miss_listening := miss_listening r;
     bus_task := bus_task r; sink := sink r; tapped := tapped r;
     socket_task := socket_task r; published := published r;
     counted_out := counted_out r;
     counted_in := (counted_in r + N.of_nat (length data))%N |}.

Definition reset r : Relay W T := set_rxs (cancel (rxs r)) r.

(** The task's end drops the receiver it owns. *)
Definition end_bus (t : BusTask) (w : W) r : Relay W T :=
  set_rxs (with_rx (close (rx (rxs r))) (rxs r)) (set_bus t w r).

(** The [Some(sample)] arm, up to its await. *)
Definition on_sample (payload : bytes) r : Relay W T :=
  if decide (payload = []) then set_bus BHalfClosing (sink r) r
  else set_bus (BWriting payload) (sink r) (count_out payload r).

Definition on_written (payload : bytes) (o : WriteOutcome) r : Relay W T :=
  let (res, w) := write_data (sink r) payload o in
  match res with
  | Ok _ => set_bus BIdle w r
  | Err _ => end_bus (BDone Error) w (reset r)
  end.

Definition on_half_closed (ok : bool) r : Relay W T :=
  let (res, w) := send_eof (sink r) ok in
  match res with
  | Ok _ => end_bus (BDone Eof) w r
  | Err _ => end_bus (BDone Error) w (reset r)
  end.

Definition on_shutdown (ok : bool) r : Relay W T :=
  end_bus (BDone Reset) (snd (shutdown (sink r) ok)) r.

(** The arms of [read_data()], up to their await. *)
Definition on_read (res : result IoError bytes) r : Relay W T :=
  match res with
  | Ok data =>
      if decide (data = []) then set_socket SPuttingEof (published r) r
      else set_socket (SPutting data) (published r) (count_in data r)
  | Err _ => set_socket (SDone Error) (published r) (reset r)
  end.

Definition on_put (data : bytes) (ok : bool) r : Relay W T :=
  if ok then set_socket SIdle (published r ++ [data]) r
  else set_socket (SDone Error) (published r) (reset r).

Definition on_put_eof (ok : bool) r : Relay W T :=
  if ok then set_socket (SDone Eof) (published r ++ [[]]) r
  else set_socket (SDone Error) (published r) (reset r).

(** [abort()] drops the task at the await it stands at; the operation may have had
    its effect, in part or in full. *)
Definition abort_bus (o : WriteOutcome) (ok : bool) r : option (Relay W T) :=
  match bus_task r with
  | BIdle => Some (end_bus BAborted (sink r) r)
  | BWriting p => Some (end_bus BAborted (snd (write_data (sink r) p o)) r)
  | BHalfClosing => Some (end_bus BAborted (snd (send_eof (sink r) ok)) r)
  | BShutting => Some (end_bus BAborted (snd (shutdown (sink r) ok)) r)
  | _ => None
  end.

Definition abort_socket (ok : bool) r : option (Relay W T) :=
  match socket_task r with
  | SIdle => Some (set_socket SAborted (published r) r)
  | SPutting data =>
      Some (set_socket SAborted (if ok then published r ++ [data] else published r) r)
  | SPuttingEof =>
      Some (set_socket SAborted (if ok then published r ++ [[]] else published r) r)
  | _ => None
  end.

(** A miss trips the token if somebody listens. *)
Definition on_miss r : Relay W T := if miss_listening r then reset r else r.

Definition bus_step r (e : RelayEvent) : option (Relay W T) :=
  match bus_task r, e with
  | BIdle, Take => '(p, c) ← try_recv (rx (rxs r));
                   Some (on_sample p (set_rxs (with_rx c (rxs r)) r))
  | BIdle, TakeNone =>
      match try_recv (rx (rxs r)) with
      | None => if session_gone r then Some (end_bus (BDone Error) (sink r) (reset r)) else None
      | Some _ => None
      end
  | BIdle, SeeCancelBus => if cancelled (rxs r) then Some (set_bus BShutting (sink r) r) else None
  | BWriting p, WriteDone o => Some (on_written p o r)
  | BHalfClosing, EofDone ok => Some (on_half_closed ok r)
  | BShutting, ShutdownDone ok => Some (on_shutdown ok r)
  | _, _ => None
  end.

Definition socket_step r (e : RelayEvent) : option (Relay W T) :=
  match socket_task r, e with
  | SIdle, Read res => Some (on_read res r)
  | SIdle, SeeCancelSocket =>
      if cancelled (rxs r) then Some (set_socket (SDone Reset) (published r) r) else None
  | SPutting data, PutDone ok => Some (on_put data ok r)
  | SPuttingEof, PutDone ok => Some (on_put_eof ok r)
  | _, _ => None
  end.

Definition relay_step r (e : RelayEvent) : option (Relay W T) :=
  match e with
  | Sample p => if session_gone r then None else Some (set_rxs (rx_callback mode p (rxs r)) r)
  | ListenMisses => Some (listen_misses r)
  | Miss => if session_gone r then None else Some (on_miss r)
  | Trip => Some (reset r)
  | SessionGone => Some (lose_session r)
  | Take | TakeNone | SeeCancelBus | WriteDone _ | EofDone _ | ShutdownDone _ => bus_step r e
  | Read _ | SeeCancelSocket | PutDone _ => socket_step r e
  | AbortBus o ok => if cancelled (rxs r) then abort_bus o ok r else None
  | AbortSocket ok => if cancelled (rxs r) then abort_socket ok r else None
  end.

Definition relay_init (cap : nat) (w : W) (t : T) : Relay W T :=
  {| rxs := rx_channel cap; session_gone := false; miss_listening := false;
     bus_task := BIdle; sink := w; tapped := t; socket_task := SIdle; published := [];
     counted_out := 0; counted_in := 0 |}.

(** Both tasks have been joined. *)
Definition relay_over r : bool := negb (bus_running (bus_task r)) && negb (socket_running (socket_task r)).
End Steps.

(** ** What happened *)

Fixpoint samples (es : list RelayEvent) : list bytes :=
  match es with
  | [] => []
  | Sample p :: es' => p :: samples es'
  | _ :: es' => samples es'
  end.

(** The chunks the reader returned; an empty one is its end of stream. *)
Fixpoint reads (es : list RelayEvent) : list bytes :=
  match es with
  | [] => []
  | Read (Ok d) :: es' => d :: reads es'
  | _ :: es' => reads es'
  end.

Lemma samples_app es1 es2 : samples (es1 ++ es2) = samples es1 ++ samples es2.
Proof. induction es1 as [|[] es1 IH]; simpl; by rewrite ?IH. Qed.

Lemma reads_app es1 es2 : reads (es1 ++ es2) = reads es1 ++ reads es2.
Proof.
  induction es1 as [|e es1 IH]; [done|]. destruct e as [| | | | | | | | | | |[]| | | |]; simpl; by rewrite ?IH.
Qed.

(** ** Invariants *)
Section Invariants.
Context {M : Mpsc bytes} {L : MpscLaws M} {W T : Type}.
Context {TW : TransportWriter W} {TL : TransportWriterLaws TW}.
Context (mode : ReliabilityMode) (tap : option (bytes -> T -> T)).
Context (cap : nat) (w0 : W) (t0 : T).
Implicit Types r : Relay W T.

Abbreviation step := (relay_step (TW := TW) mode tap).
Abbreviation init := (relay_init (M := M) cap w0 t0).

(** A step of one task leaves the other's part of the state alone, apart from the
    token. *)
Definition bus_event (e : RelayEvent) : bool :=
  match e with
  | Sample _ | Take | TakeNone | SeeCancelBus | WriteDone _ | EofDone _ | ShutdownDone _
  | AbortBus _ _ => true
  | _ => false
  end.

Definition socket_event (e : RelayEvent) : bool :=
  match e with
  | Read _ | SeeCancelSocket | PutDone _ | AbortSocket _ => true
  | _ => false
  end.

Lemma bus_event_frame r e r' :
  socket_event e = false -> step r e = Some r' ->
  socket_task r' = socket_task r /\ published r' = published r /\ counted_in r' = counted_in r.
Proof using Type.
  intros He Hs. destruct e; try done; unfold relay_step, bus_step, on_sample, on_written,
    on_half_closed, on_miss, abort_bus in Hs; crush_step Hs; destruct_and_pairs; by simplify_eq/=.
Qed.

Lemma socket_event_frame r e r' :
  bus_event e = false -> step r e = Some r' ->
  bus_task r' = bus_task r /\ sink r' = sink r /\ rx (rxs r') = rx (rxs r) /\
  tapped r' = tapped r /\ counted_out r' = counted_out r.
Proof using Type.
  intros He Hs. destruct e; try done; unfold relay_step, socket_step, on_read, on_put,
    on_put_eof, on_miss, abort_socket in Hs; crush_step Hs; by simplify_eq/=.
Qed.

(** The token is never untripped. *)
Lemma cancelled_monotone r e r' :
  step r e = Some r' -> cancelled (rxs r) = true -> cancelled (rxs r') = true.
Proof using Type.
  intros Hs Hc. destruct e; unfold relay_step, bus_step, socket_step, on_sample, on_written,
    on_half_closed, on_shutdown, on_read, on_put, on_put_eof, on_miss, abort_bus, abort_socket in Hs;
    try (crush_step Hs; destruct_and_pairs; by simplify_eq/=).
  destruct (session_gone r); [done|]. simplify_eq/=. by apply rx_callback_cancelled.
Qed.
(** What the bus task holds between taking a sample and finishing with it. *)
Definition hand (t : BusTask) : list bytes :=
  match t with BWriting p => [p] | BHalfClosing => [[]] | _ => [] end.

(** The steps of the bus direction, as the proofs see them: all the ways a task
    ends other than a clean half-close are one. *)
Inductive bus_view r r' : RelayEvent -> Prop :=
| ViewSample p :
    rxs r' = rx_callback mode p (rxs r) -> bus_task r' = bus_task r -> sink r' = sink r ->
    bus_view r r' (Sample p)
| ViewTake p :
    bus_task r = BIdle -> contents (rx (rxs r)) = p :: contents (rx (rxs r')) ->
    is_closed (rx (rxs r')) = is_closed (rx (rxs r)) -> cancelled (rxs r') = cancelled (rxs r) ->
    sink r' = sink r -> bus_task r' = (if decide (p = []) then BHalfClosing else BWriting p) ->
    bus_view r r' Take
| ViewSeeCancel :
    bus_task r = BIdle -> cancelled (rxs r) = true -> rxs r' = rxs r -> sink r' = sink r ->
    bus_task r' = BShutting -> bus_view r r' SeeCancelBus
| ViewWritten p o :
    bus_task r = BWriting p -> wire (sink r') = wire (sink r) ++ p -> rxs r' = rxs r ->
    bus_task r' = BIdle -> bus_view r r' (WriteDone o)
| ViewHalfClosed ok :
    bus_task r = BHalfClosing -> wire (sink r') = wire (sink r) -> half_closed (sink r') = true ->
    contents (rx (rxs r')) = contents (rx (rxs r)) -> cancelled (rxs r') = cancelled (rxs r) ->
    bus_task r' = BDone Eof -> bus_view r r' (EofDone ok)
| ViewEnded e :
    samples [e] = [] -> bus_running (bus_task r) = true -> cancelled (rxs r') = true ->
    bus_task r' ∈ [BDone Error; BDone Reset; BAborted] ->
    contents (rx (rxs r')) = contents (rx (rxs r)) ->
    wire (sink r) `prefix_of` wire (sink r') ->
    wire (sink r') `prefix_of` wire (sink r) ++ concat (hand (bus_task r)) ->
    bus_view r r' e.

Definition contents_close (c : chan bytes) : contents (close c) = contents c :=
  proj1 (proj2 (close_spec c)).

(** The three operations that end the task otherwise: its wire grew by a part of
    what it held, and the token is tripped. *)
Lemma end_bus_view t r r0 w e :
  samples [e] = [] -> bus_running (bus_task r) = true -> cancelled (rxs r0) = true ->
  rx (rxs r0) = rx (rxs r) -> t ∈ [BDone Error; BDone Reset; BAborted] ->
  wire (sink r) `prefix_of` wire w /\
    wire w `prefix_of` wire (sink r) ++ concat (hand (bus_task r)) ->
  bus_view r (end_bus t w r0) e.
Proof using L.
  intros ??? E ? [??]. apply ViewEnded; try done. simpl. by rewrite contents_close, E.
Qed.

Lemma same_wire (w w' : W) l : wire w' = wire w -> wire w `prefix_of` wire w' /\ wire w' `prefix_of` wire w ++ l.
Proof using Type. intros ->. split; [done|by apply prefix_app_r]. Qed.

Lemma write_wire (w : W) p o : wire w `prefix_of` wire (snd (write_data w p o)) /\
  wire (snd (write_data w p o)) `prefix_of` wire w ++ concat [p].
Proof using TL.
  destruct (write_data w p o) as [res w'] eqn:E. simpl. rewrite app_nil_r. by eapply write_any.
Qed.

Lemma abort_bus_view r o ok r' :
  cancelled (rxs r) = true -> abort_bus o ok r = Some r' -> bus_view r r' (AbortBus o ok).
Proof using L TL.
  intros Hc. unfold abort_bus. destruct (bus_task r) as [|p| | | |] eqn:E; intros [= <-];
    (apply end_bus_view; [done|by rewrite E|done|done|set_solver|]); rewrite ?E;
    first [apply write_wire | apply same_wire; first [done | apply eof_wire | apply shutdown_wire]].
Qed.

(** A task shuts its writer down only after it saw the token tripped. *)
Definition shutting_inv r : Prop := bus_task r = BShutting -> cancelled (rxs r) = true.

Lemma bus_step_view r e r' :
  shutting_inv r -> bus_event e = true -> step r e = Some r' -> bus_view r r' e.
Proof using L TL.
  intros Hsh He Hs. destruct e as [p| | | | | | | |o|ok|ok| | | |o ok|]; try done; simpl in Hs.
  - destruct (session_gone r); simplify_eq. by constructor.
  - unfold bus_step in Hs. destruct (bus_task r) eqn:E; try done. inv_guards. destruct a as [p c].
    simplify_eq. apply try_recv_inv in Ha as (Hc & _ & Hcl). unfold on_sample.
    eapply (ViewTake _ _ p); try done; by case_decide.
  - unfold bus_step in Hs. destruct (bus_task r) eqn:E; try done.
    destruct (try_recv _); [done|]. destruct (session_gone r); simplify_eq.
    apply end_bus_view; try done; [by rewrite E|set_solver|by apply same_wire].
  - unfold bus_step in Hs. destruct (bus_task r) eqn:E; try done.
    destruct (cancelled (rxs r)) eqn:Ec; simplify_eq. by apply ViewSeeCancel.
  - unfold bus_step in Hs. destruct (bus_task r) as [|p| | | |] eqn:E; try done. simplify_eq.
    pose proof (write_wire (sink r) p o) as Hw. unfold on_written.
    destruct (write_data (sink r) p o) as [[u|err] w] eqn:Ew.
    + eapply ViewWritten; try done. simpl. by eapply write_ok.
    + apply end_bus_view; try done; [by rewrite E|set_solver|by rewrite E].
  - unfold bus_step in Hs. destruct (bus_task r) eqn:E; try done. simplify_eq.
    pose proof (eof_wire (sink r) ok) as Hw. unfold on_half_closed.
    destruct (send_eof (sink r) ok) as [[u|err] w] eqn:Ew; simpl in Hw.
    + apply ViewHalfClosed; try done; simpl; [by eapply eof_ok|apply contents_close].
    + apply end_bus_view; try done; [by rewrite E|set_solver|by apply same_wire].
  - unfold bus_step in Hs. destruct (bus_task r) eqn:E; try done. simplify_eq.
    apply end_bus_view; try done; [by rewrite E|by apply Hsh|set_solver|].
    apply same_wire, shutdown_wire.
  - destruct (cancelled (rxs r)) eqn:Ec; [|done]. by apply abort_bus_view.
Qed.

(** *** The bus direction *)

Lemma run_cancelled r es r' :
  run step r es = Some r' -> cancelled (rxs r) = true -> cancelled (rxs r') = true.
Proof using Type.
  intros Hr Hc. revert es r' Hr.
  apply (run_invariant step (fun r' => cancelled (rxs r') = true)); [done|].
  intros r1 e r2 H1 Hs. by eapply cancelled_monotone.
Qed.

(** The receiver lives as long as its task; the token is tripped before the writer
    is shut down; an empty payload is never written. *)
Definition shape_inv r : Prop :=
  (bus_running (bus_task r) = true -> is_closed (rx (rxs r)) = false) /\
  shutting_inv r /\ (forall p, bus_task r = BWriting p -> p <> []).

(** In either mode: the writer got the concatenation of a selection of the
    delivered samples, in order, cut short at most where a write broke; the queue
    holds samples delivered after those. *)
Definition selection_inv (es : list RelayEvent) r : Prop :=
  exists taken, no_eof taken /\
    (taken ++ hand (bus_task r) ++ contents (rx (rxs r))) `sublist_of` samples es /\
    wire (sink r) `prefix_of` wire w0 ++ concat taken /\
    (bus_running (bus_task r) = true -> wire (sink r) = wire w0 ++ concat taken).

(** In byte-exact mode, while the token is not tripped: nothing is missing. *)
Definition exact_inv (es : list RelayEvent) r : Prop :=
  cancelled (rxs r) = false ->
  exists taken, no_eof taken /\ wire (sink r) = wire w0 ++ concat taken /\
    match bus_task r with
    | BIdle | BWriting _ | BHalfClosing =>
        samples es = taken ++ hand (bus_task r) ++ contents (rx (rxs r))
    | BDone Eof =>
        half_closed (sink r) = true /\ exists rest, samples es = taken ++ [] :: rest
    | _ => False
    end.

Lemma samples_bus e : bus_event e = false -> samples [e] = [].
Proof. by destruct e. Qed.

Lemma ended_bus_task t : t ∈ [BDone Error; BDone Reset; BAborted] ->
  bus_running t = false /\ hand t = [] /\ t <> BShutting /\ t <> BDone Eof.
Proof. rewrite !elem_of_cons, elem_of_nil. by intros [->|[->|[->|[]]]]. Qed.

(** The hand and the queue move together when a sample is taken. *)
Lemma hand_take p : hand (if decide (p = []) then BHalfClosing else BWriting p) = [p].
Proof. case_decide; subst; done. Qed.

Lemma rx_callback_closed p (st : RxState bytes) :
  is_closed (rx (rx_callback mode p st)) = is_closed (rx st).
Proof using L.
  unfold rx_callback. pose proof (try_send_closed p (rx st)) as H.
  destruct (try_send p (rx st)) as [[] c], mode; simpl in *; try done; cbn zeta.
  - by destruct (cancelled st).
  - by destruct (is_power_of_two _).
Qed.

Lemma shape_inv_init : shape_inv init.
Proof using L.
  split_and!; [simpl; intros _; by destruct (channel_new cap) as (_ & _ & ->)|done|done].
Qed.

Lemma shape_inv_step r e r' : shape_inv r -> step r e = Some r' -> shape_inv r'.
Proof using L TL.
  intros (Ho & Hsh & Hwr) Hs. unfold shape_inv, shutting_inv in *.
  destruct (bus_event e) eqn:He.
  2:{ pose proof (cancelled_monotone _ _ _ Hs) as Hm.
      apply socket_event_frame in Hs as (E1 & E2 & E3 & _); [|done]. rewrite E1, E3. auto. }
  apply bus_step_view in Hs; [|done|done].
  destruct Hs as [p Hrx Ht Hw|p Ht Hc Hcl Hcan Hw Ht'|Ht Hcan Hrx Hw Ht'|p o Ht Hw Hrx Ht'
    |ok Ht Hw _ Hc Hcan Ht'|e Hsam Hr Hcan Hend Hc Hp1 Hp2].
  - rewrite Ht, Hrx, rx_callback_closed. auto using rx_callback_cancelled.
  - rewrite Hcl, Hcan, Ht'. rewrite Ht in *. case_decide; split_and!; naive_solver.
  - rewrite Hrx, Ht'. rewrite Ht in *. auto.
  - rewrite Hrx, Ht'. rewrite Ht in *. split_and!; auto; done.
  - rewrite Ht'. done.
  - destruct (ended_bus_task _ Hend) as (-> & Hh & ? & ?). rewrite Hcan.
    split_and!; [done|done|]. intros p Hp. by rewrite Hp in Hh.
Qed.

Lemma selection_inv_init : selection_inv [] init.
Proof using L.
  exists []. simpl. rewrite app_nil_r. destruct (channel_new cap) as (-> & _).
  split_and!; try done. constructor.
Qed.

Lemma selection_inv_step es r e r' :
  shape_inv r -> selection_inv es r -> step r e = Some r' -> selection_inv (es ++ [e]) r'.
Proof using L TL.
  intros (Ho & Hsh & Hwr) (taken & Hne & Hsub & Hpre & Hrun) Hs.
  unfold selection_inv. rewrite samples_app. destruct (bus_event e) eqn:He.
  2:{ apply socket_event_frame in Hs as (E1 & E2 & E3 & _); [|done].
      rewrite E1, E2, E3, samples_bus, app_nil_r by done. eauto. }
  apply bus_step_view in Hs; [|done|done].
  destruct Hs as [p Hrx Ht Hw|p Ht Hc Hcl Hcan Hw Ht'|Ht Hcan Hrx Hw Ht'|p o Ht Hw Hrx Ht'
    |ok Ht Hw _ Hc Hcan Ht'|e Hsam Hr Hcan Hend Hc Hp1 Hp2].
  - rewrite Ht, Hrx, Hw. exists taken; split_and!; try done.
    destruct (rx_callback_any mode p (rxs r)) as [-> | ->].
    + by apply sublist_inserts_r.
    + rewrite !app_assoc in *. by apply sublist_app.
  - rewrite Hw, Ht', hand_take. rewrite Ht in *. cbn [hand] in Hsub. rewrite Hc in Hsub.
    exists taken. rewrite app_nil_r. split_and!; auto.
  - rewrite Hrx, Hw, Ht'. rewrite Ht in *. exists taken. rewrite app_nil_r. split_and!; auto.
  - rewrite Ht in *. rewrite Hrx, Hw, Ht', app_nil_r, (Hrun eq_refl). exists (taken ++ [p]).
    cbn [hand app] in *. rewrite concat_snoc, <- !app_assoc. split_and!; try done.
    apply Forall_app_2; [done|]. constructor; [by apply Hwr|done].
  - rewrite Ht in *. rewrite Hc, Ht', Hw. exists taken. rewrite app_nil_r. split_and!; try done.
    etrans; [|exact Hsub]. apply sublist_app; [done|]. by apply sublist_inserts_l.
  - destruct (ended_bus_task _ Hend) as (-> & -> & _). rewrite Hsam, Hc, app_nil_r.
    rewrite (Hrun Hr) in Hp2. destruct (bus_task r) as [|p| | | |]; try done; cbn [hand app] in *.
    + exists taken. simpl in Hp2. rewrite app_nil_r in Hp2. by split_and!.
    + exists (taken ++ [p]). rewrite concat_snoc. simpl in Hp2. rewrite app_nil_r, <- app_assoc in Hp2.
      rewrite <- app_assoc. split_and!; try done. apply Forall_app_2; [done|].
      constructor; [by apply Hwr|done].
    + exists taken. simpl in Hp2. rewrite app_nil_r in Hp2. split_and!; try done.
      etrans; [|exact Hsub]. apply sublist_app; [done|]. by apply sublist_cons.
    + exists taken. simpl in Hp2. rewrite app_nil_r in Hp2. by split_and!.
Qed.

(** *** Byte-exact mode *)

Lemma exact_inv_init : exact_inv [] init.
Proof using L.
  intros _. exists []. simpl. rewrite app_nil_r. destruct (channel_new cap) as (-> & _).
  split_and!; try done. constructor.
Qed.

Lemma exact_inv_step es r e r' :
  mode = Stream ->
  shape_inv r -> exact_inv es r -> step r e = Some r' -> exact_inv (es ++ [e]) r'.
Proof using L TL.
  intros Hmode (Ho & Hsh & Hwr) Hex Hs Hc'.
  assert (cancelled (rxs r) = false) as Hc0.
  { destruct (cancelled (rxs r)) eqn:E; [|done]. by rewrite (cancelled_monotone _ _ _ Hs E) in Hc'. }
  destruct (Hex Hc0) as (taken & Hne & Hw0 & Hcase). clear Hex. rewrite samples_app.
  destruct (bus_event e) eqn:He.
  2:{ apply socket_event_frame in Hs as (E1 & E2 & E3 & _); [|done].
      rewrite E1, E2, E3, samples_bus, app_nil_r by done. eauto. }
  apply bus_step_view in Hs; [|done|done].
  destruct Hs as [p Hrx Ht Hw|p Ht Hc Hcl Hcan Hw Ht'|Ht Hcan Hrx Hw Ht'|p o Ht Hw Hrx Ht'
    |ok Ht Hw Hhc Hc Hcan Ht'|e Hsam Hr Hcan Hend Hc Hp1 Hp2].
  - rewrite Ht, Hrx, Hw in *. exists taken. split_and!; try done.
    assert (bus_running (bus_task r) = true -> contents (rx (rx_callback mode p (rxs r))) =
      contents (rx (rxs r)) ++ [p]) as Hq.
    { intros Hr. subst mode. destruct (rx_callback_stream p (rxs r) (Ho Hr)) as (_ & _ & [[? _]|[_ ?]]);
        [done|congruence]. }
    destruct (bus_task r) as [| | | |[]|]; try done; try (rewrite Hq, Hcase by done; simpl;
      rewrite <- ?app_assoc; simpl; by rewrite <- ?app_assoc).
    destruct Hcase as [? [rest ->]]. split; [done|]. exists (rest ++ [p]). by rewrite <- app_assoc.
  - rewrite Hw, Ht'. rewrite Ht in Hcase. exists taken. rewrite hand_take, app_nil_r.
    split_and!; try done. rewrite Hcase, Hc. case_decide; done.
  - congruence.
  - rewrite Hrx, Hw, Ht', app_nil_r. rewrite Ht in *. exists (taken ++ [p]).
    rewrite concat_snoc, Hw0, Hcase, <- !app_assoc. split_and!; try done.
    apply Forall_app_2; [done|]. constructor; [by apply Hwr|done].
  - rewrite Ht in *. rewrite Ht', Hw, Hcase, app_nil_r. exists taken. split_and!; eauto.
  - congruence.
Qed.

Lemma run_shape es r : run step init es = Some r -> shape_inv r.
Proof using L TL.
  apply (run_invariant step shape_inv); [apply shape_inv_init|]. intros ???. apply shape_inv_step.
Qed.

Lemma run_selection es r : run step init es = Some r -> selection_inv es r.
Proof using L TL.
  apply (run_history_invariant step selection_inv); [apply selection_inv_init|].
  intros ?????%run_shape. by apply selection_inv_step.
Qed.

Lemma run_exact es r : mode = Stream -> run step init es = Some r -> exact_inv es r.
Proof using L TL.
  intros Hm. apply (run_history_invariant step exact_inv); [apply exact_inv_init|].
  intros ?????%run_shape. by apply exact_inv_step.
Qed.
(** *** The socket direction *)

(** What was published against what was read.  The end-of-stream marker is
    published only after a read that reported a clean end. *)
Definition publish_inv (es : list RelayEvent) r : Prop :=
  match socket_task r with
  | SIdle => reads es = published r /\ no_eof (published r)
  | SPutting d => reads es = published r ++ [d] /\ no_eof (published r) /\ d <> []
  | SPuttingEof => reads es = published r ++ [[]] /\ no_eof (published r)
  | SDone Eof => exists chunks, published r = chunks ++ [[]] /\ reads es = published r /\ no_eof chunks
  | SDone Reset => reads es = published r /\ no_eof (published r) /\ cancelled (rxs r) = true
  | SDone Error => published r `prefix_of` reads es /\ no_eof (published r) /\ cancelled (rxs r) = true
  | SAborted => published r `prefix_of` reads es /\ cancelled (rxs r) = true /\
      (no_eof (published r) \/
       exists chunks, published r = chunks ++ [[]] /\ reads es = published r /\ no_eof chunks)
  end.

Lemma reads_socket e : socket_event e = false -> reads [e] = [].
Proof. by destruct e. Qed.

Lemma no_eof_snoc (l : list bytes) d : no_eof l -> d <> [] -> no_eof (l ++ [d]).
Proof. intros. apply Forall_app_2; [done|]. by constructor. Qed.

Lemma publish_inv_frame es r e r' :
  socket_event e = false -> publish_inv es r -> step r e = Some r' -> publish_inv (es ++ [e]) r'.
Proof using Type.
  intros He Hp Hs. pose proof (cancelled_monotone _ _ _ Hs) as Hm.
  apply bus_event_frame in Hs as (E1 & E2 & _); [|done].
  unfold publish_inv in *. rewrite E1, E2, reads_app, reads_socket, app_nil_r by done.
  destruct (socket_task r) as [| | |[]|]; naive_solver.
Qed.

Lemma publish_inv_abort es r ok r' :
  publish_inv es r -> cancelled (rxs r) = true -> abort_socket ok r = Some r' ->
  publish_inv (es ++ [AbortSocket ok]) r'.
Proof using Type.
  intros Hp Hc Hs. unfold publish_inv, abort_socket in *. rewrite reads_app. simpl reads.
  rewrite app_nil_r. destruct (socket_task r) as [|d| |[]|]; try done; simplify_eq; simpl.
  - destruct Hp as [-> ?]. auto.
  - destruct Hp as (-> & ? & ?). destruct ok; split_and!; auto using prefix_app_r, no_eof_snoc.
  - destruct Hp as [-> ?]. destruct ok; split_and!; eauto using prefix_app_r.
Qed.

Lemma publish_inv_step es r e r' :
  publish_inv es r -> step r e = Some r' -> publish_inv (es ++ [e]) r'.
Proof using Type.
  intros Hp Hs. destruct (socket_event e) eqn:He; [|by eapply publish_inv_frame].
  destruct e as [| | | | | | | | | | |res| |ok| |ok]; try done; simpl in Hs.
  4: { destruct (cancelled (rxs r)) eqn:Hc; [|done]. by apply publish_inv_abort with r. }
  all: unfold publish_inv in *; rewrite reads_app; unfold socket_step in Hs;
    destruct (socket_task r) as [|d| |[]|] eqn:E; try done; simplify_eq.
  - destruct Hp as [-> Hn]. unfold on_read. destruct res as [d|err]; simpl; [case_decide; subst|];
      simpl; rewrite ?app_nil_r; auto.
  - destruct (cancelled (rxs r)) eqn:Hc; simplify_eq. simpl. destruct Hp as [-> ?].
    by rewrite app_nil_r.
  - simpl. rewrite app_nil_r. destruct Hp as (-> & ? & ?). unfold on_put.
    destruct ok; simpl; auto using prefix_app_r, no_eof_snoc.
  - simpl. rewrite app_nil_r. destruct Hp as (-> & ?). unfold on_put_eof.
    destruct ok; simpl; eauto using prefix_app_r.
Qed.

Lemma run_publish es r : run step init es = Some r -> publish_inv es r.
Proof using Type.
  apply (run_history_invariant step publish_inv); [by repeat constructor|].
  intros ?????. by apply publish_inv_step.
Qed.

Lemma run_published_prefix es r : run step init es = Some r -> published r `prefix_of` reads es.
Proof using Type.
  intros Hr%run_publish. unfold publish_inv in Hr. destruct (socket_task r) as [|d| |[]|].
  - by destruct Hr as [-> _].
  - destruct Hr as [-> _]. by apply prefix_app_r.
  - destruct Hr as [-> _]. by apply prefix_app_r.
  - by destruct Hr as (? & _ & -> & _).
  - by destruct Hr as [-> _].
  - by destruct Hr.
  - by destruct Hr.
Qed.

Lemma no_eof_elem (l : list bytes) : no_eof l -> [] ∈ l -> False.
Proof. intros Hl Hin. eapply Forall_forall in Hl; [|exact Hin]. done. Qed.

Lemma run_published_eof es r :
  run step init es = Some r -> [] ∈ published r ->
  exists chunks, published r = chunks ++ [[]] /\ reads es = published r /\ no_eof chunks.
Proof using Type.
  intros Hr%run_publish Hin. unfold publish_inv in Hr.
  destruct (socket_task r) as [|d| |[]|]; try done;
    try (destruct (no_eof_elem (published r)); [apply Hr|done]).
  destruct Hr as (_ & _ & [Hne|?]); [|done]. by destruct (no_eof_elem _ Hne).
Qed.

Lemma published_grows r e r' : step r e = Some r' -> published r `prefix_of` published r'.
Proof using Type.
  intros Hs. destruct (socket_event e) eqn:He.
  2:{ by apply bus_event_frame in Hs as (_ & -> & _). }
  destruct e as [| | | | | | | | | | |res| |ok| |ok]; try done; simpl in Hs;
    [| | |destruct (cancelled (rxs r)); [|done]]; unfold socket_step, abort_socket in Hs;
    destruct (socket_task r); try done; simplify_eq.
  - unfold on_read. destruct res as [d|]; simpl; [|done]. by case_decide.
  - by destruct (cancelled (rxs r)); simplify_eq.
  - unfold on_put. destruct ok; simpl; by try apply prefix_app_r.
  - unfold on_put_eof. destruct ok; simpl; by try apply prefix_app_r.
  - done.
  - simpl. destruct ok; by try apply prefix_app_r.
  - simpl. destruct ok; by try apply prefix_app_r.
Qed.

Lemma run_published_grows r es r' : run step r es = Some r' -> published r `prefix_of` published r'.
Proof using Type.
  apply (run_invariant step (fun r' => published r `prefix_of` published r')); [done|].
  intros r1 e r2 H1 H2%published_grows. by etrans.
Qed.

(** *** How a connection ends *)

(** A direction that did not end on a clean half-close left the token tripped. *)
Lemma run_ended_cancelled es r :
  run step init es = Some r ->
  bus_task r ∈ [BDone Error; BDone Reset; BAborted] \/
  socket_task r ∈ [SDone Error; SDone Reset; SAborted] -> cancelled (rxs r) = true.
Proof using L TL.
  intros Hr [Hb|Hs].
  - revert es r Hr Hb. apply (run_history_invariant step (fun _ r =>
      bus_task r ∈ [BDone Error; BDone Reset; BAborted] -> cancelled (rxs r) = true)).
    { simpl. by rewrite !elem_of_cons, elem_of_nil; intros [|[|[|[]]]]. }
    intros es r e r' Hr IH Hs Hb. destruct (bus_event e) eqn:He.
    2:{ pose proof (cancelled_monotone _ _ _ Hs) as Hm.
        apply socket_event_frame in Hs as (E & _); [|done]. rewrite E in Hb. auto. }
    pose proof (cancelled_monotone _ _ _ Hs) as Hm.
    apply bus_step_view in Hs; [|by apply run_shape in Hr as (_ & ? & _)|done].
    destruct (ended_bus_task _ Hb) as (Hrun & Hh & Hns & Hne).
    destruct Hs as [p Hrx Ht Hw|p Ht Hc Hcl Hcan Hw Ht'|Ht Hcan Hrx Hw Ht'|p o Ht Hw Hrx Ht'
      |ok Ht Hw Hhc Hc Hcan Ht'|e Hsam Hr' Hcan Hend Hc Hp1 Hp2]; try done.
    + rewrite Ht in Hb. auto.
    + rewrite Ht' in Hrun. by case_decide.
    + by rewrite Ht' in Hrun.
  - apply run_publish in Hr. unfold publish_inv in Hr.
    rewrite !elem_of_cons, elem_of_nil in Hs. destruct Hs as [E|[E|[E|[]]]]; rewrite E in Hr; tauto.
Qed.

(** Both tasks joined and the token still untripped: both ended on a half-close. *)
Lemma run_over_clean es r :
  run step init es = Some r -> relay_over r = true -> cancelled (rxs r) = false ->
  bus_task r = BDone Eof /\ socket_task r = SDone Eof.
Proof using L TL.
  intros Hr Ho Hc. unfold relay_over in Ho.
  pose proof (run_ended_cancelled es r Hr) as H. rewrite !elem_of_cons, !elem_of_nil in H.
  destruct (bus_task r) as [| | | |[]|]; try done; destruct (socket_task r) as [| | |[]|]; try done;
    exfalso; rewrite H in Hc; try done; naive_solver.
Qed.

(** Once the token is tripped the watchdog's aborts end both tasks. *)
Definition aborts (r : Relay W T) : list RelayEvent :=
  (if bus_running (bus_task r) then [AbortBus Written true] else []) ++
  (if socket_running (socket_task r) then [AbortSocket true] else []).

Lemma cancelled_can_finish r :
  cancelled (rxs r) = true -> exists r', run step r (aborts r) = Some r' /\ relay_over r' = true.
Proof using Type.
  intros Hc. unfold aborts.
  assert (exists r1, run step r (if bus_running (bus_task r) then [AbortBus Written true] else []) = Some r1 /\
    bus_running (bus_task r1) = false /\ cancelled (rxs r1) = true /\ socket_task r1 = socket_task r)
    as (r1 & H1 & Hb & Hc1 & Hst).
  { destruct (bus_running (bus_task r)) eqn:E; [|by exists r]. simpl. rewrite Hc. unfold abort_bus.
    destruct (bus_task r); try done; eexists; (split; [reflexivity|]); done. }
  rewrite run_app, H1. simpl. rewrite <- Hst. unfold relay_over.
  destruct (socket_running (socket_task r1)) eqn:E; simpl; [rewrite Hc1; unfold abort_socket|].
  - destruct (socket_task r1); try done; eexists; (split; [reflexivity|]); simpl; by rewrite Hb.
  - exists r1. by rewrite Hb, E.
Qed.

(** ** Against the other side's samples *)

(** In either mode the writer got a selection of what the other side published, in
    order, cut short at most where a write broke. *)
Lemma relay_selected es r (other : list bytes) :
  run step init es = Some r -> samples es `sublist_of` other ->
  exists taken, taken `sublist_of` other /\ wire (sink r) `prefix_of` wire w0 ++ concat taken.
Proof using L TL.
  intros (taken & _ & Hsub & Hw & _)%run_selection Ho. exists taken. split; [|done].
  etrans; [|exact Ho]. etrans; [|exact Hsub]. by apply sublist_inserts_r.
Qed.

(** In byte-exact mode, untripped, a prefix of it; and all of it up to the
    end-of-stream marker once the task has ended there. *)
Lemma relay_taken es r (other : list bytes) :
  mode = Stream -> run step init es = Some r -> cancelled (rxs r) = false ->
  samples es `prefix_of` other ->
  exists taken, no_eof taken /\ wire (sink r) = wire w0 ++ concat taken /\ taken `prefix_of` other /\
    (bus_task r = BDone Eof -> half_closed (sink r) = true /\ exists rest, taken ++ [] :: rest `prefix_of` other).
Proof using L TL.
  intros Hm Hr Hc Ho. destruct (run_exact _ _ Hm Hr Hc) as (taken & Hne & Hw & Hcase). exists taken.
  split; [done|]. split; [done|].
  destruct (bus_task r) as [| | | |[]|]; try done.
  1-3: split; [|done]; etrans; [|exact Ho]; rewrite Hcase; by apply prefix_app_r.
  destruct Hcase as [Hh [rest Hs]]. rewrite Hs in Ho. split; [|eauto].
  etrans; [|exact Ho]. by apply prefix_app_r.
Qed.
End Invariants.
