(* ===== verification/KeySpace.v ===== *)
(** * KeySpace: the Zenoh keys the two sides meet on ([src/import/bridge.rs],
    [src/export/bridge.rs], [src/export/election.rs], [src/import/connection.rs])

    The import builds a connection's keys with [scoped_key]; the export builds the
    same keys with its own format strings.  Matching a key against a subscription is
    Zenoh's: the class [KeyExprs] holds the test and the one law of its [*]
    wildcard the bridge relies on. *)

From S2P Require Import Prelude Text Config Dns.

(** ** Keys of the import side *)

Definition sep : ascii := "/"%char.

Definition scoped_key (service_name : str) (dns : option str) (tail : str) : str :=
  match dns with
  | Some dns => service_name ++ sep :: dns ++ sep :: tail
  | None => service_name ++ sep :: tail
  end.

Definition import_error_key s d client_id := scoped_key s d (lit "error/" ++ client_id).
Definition import_rx_key s d client_id := scoped_key s d (lit "rx/" ++ client_id).
Definition import_tx_key s d client_id := scoped_key s d (lit "tx/" ++ client_id).
Definition import_token_key s d client_id := scoped_key s d (lit "clients/" ++ client_id).

(** The two tokens [resolve_backend] looks for. *)
Definition default_available_key (service_name : str) : str := service_name ++ lit "/available".
Definition host_available_key (service_name dns : str) : str :=
  service_name ++ sep :: dns ++ lit "/available".

(** ** Keys of the export side *)

(** [dns_suffix.map(|d| format!("/{d}")).unwrap_or_default()]. *)
Definition dns_part (dns_suffix : option str) : str :=
  match dns_suffix with Some d => sep :: d | None => [] end.

Definition export_sub_key s d client_id := s ++ dns_part d ++ lit "/tx/" ++ client_id.
Definition export_pub_key s d client_id := s ++ dns_part d ++ lit "/rx/" ++ client_id.
Definition export_error_key s d client_id := s ++ dns_part d ++ lit "/error/" ++ client_id.
Definition export_clients_key s d client_id := s ++ dns_part d ++ lit "/clients/" ++ client_id.

Definition liveliness_key (service_name : str) (dns_suffix : option str) : str :=
  match dns_suffix with
  | Some dns => service_name ++ sep :: dns ++ lit "/clients/*"
  | None => service_name ++ lit "/clients/*"
  end.

Definition service_key (service_name : str) (dns_suffix : option str) : str :=
  match dns_suffix with
  | Some dns => service_name ++ sep :: dns ++ lit "/available"
  | None => service_name ++ lit "/available"
  end.

Definition scope (service_name : str) (dns_suffix : option str) : str :=
  match dns_suffix with
  | Some dns => service_name ++ sep :: dns
  | None => service_name
  end.

(** The client a liveliness sample is about: [key.rsplit('/').next()], not empty. *)
Definition client_of_key (key : str) : option str :=
  let client_id := rsplit_first sep key in
  if decide (client_id = []) then None else Some client_id.

(** ** Zenoh's matching *)

Class KeyExprs : Type := { key_matches : str -> str -> bool }.

(** A trailing [*] stands for exactly one non-empty chunk. *)
Class KeyExprLaws (K : KeyExprs) : Prop := {
  match_star p k : "*"%char ∉ p ->
    (key_matches (p ++ lit "/*") k = true <-> exists c, k = p ++ sep :: c /\ c <> [] /\ sep ∉ c);
}.

(** The test by chunks, for literal patterns ending in one [*]. *)
Definition star_matches (pattern key : str) : bool :=
  match strip_prefix (take (length pattern - 1) pattern) key with
  | Some c => negb (bool_decide (c = [])) && negb (contains_char sep c)
  | None => false
  end.

Definition star_exprs : KeyExprs := {| key_matches := star_matches |}.

Lemma star_prefix p : take (length (p ++ lit "/*") - 1) (p ++ lit "/*") = p ++ [sep].
Proof.
  rewrite length_app. change (length (lit "/*")) with 2.
  rewrite take_app, take_ge by lia. by replace (length p + 2 - 1 - length p) with 1 by lia.
Qed.

#[export] Instance star_exprs_laws : KeyExprLaws star_exprs.
Proof.
  split. intros p k _. cbn [key_matches star_exprs]. unfold star_matches. rewrite star_prefix.
  split.
  - destruct (strip_prefix _ k) as [c|] eqn:E; [|done]. apply strip_prefix_Some in E as ->.
    intros [H1%negb_true_iff H2%negb_true_iff]%andb_prop. apply bool_decide_eq_false in H1.
    exists c. rewrite <- app_assoc. split_and!; try done. by apply contains_char_not_elem.
  - intros (c & -> & Hne & Hs). change (sep :: c) with ([sep] ++ c).
    rewrite app_assoc, (proj2 (strip_prefix_Some _ _ c) eq_refl).
    rewrite bool_decide_eq_false_2 by done. by rewrite (proj2 (contains_char_not_elem _ _) Hs).
Qed.

(** ** Segments *)

Definition segment (s : str) : Prop := sep ∉ s.

Lemma literal_segments :
  segment (lit "clients") /\ segment (lit "available") /\ segment (lit "tx") /\
  segment (lit "rx") /\ segment (lit "error").
Proof. unfold segment. vm_compute. set_solver. Qed.

Lemma name_segment s : name_ok s -> segment s.
Proof. by apply name_no_char. Qed.

Lemma host_segment d : key_char_ok d -> segment d.
Proof. by apply key_no_char. Qed.

Definition scope_ok (s : str) (d : option str) : Prop :=
  name_ok s /\ (forall h, d = Some h -> h <> [] /\ key_char_ok h).

(** The chunks of a connection's key. *)
Definition key_parts (s : str) (d : option str) (plane c : str) : list str :=
  s :: (match d with Some h => [h] | None => [] end) ++ [plane; c].

Lemma split_chunks (h : str) (t : list str) :
  Forall segment (h :: t) -> split sep (join sep h t) = (h, t).
Proof. inversion 1; subst. by apply split_join. Qed.

Lemma scoped_key_join s d plane c :
  scoped_key s d (plane ++ sep :: c) = join sep s (tl (key_parts s d plane c)).
Proof. destruct d; simpl; done. Qed.

Lemma key_parts_segments s d plane c :
  scope_ok s d -> segment plane -> segment c -> Forall segment (key_parts s d plane c).
Proof.
  intros [Hs Hd] Hp Hc. unfold key_parts. constructor; [by apply name_segment|].
  destruct d as [h|]; simpl; repeat constructor; try done.
  apply host_segment. by destruct (Hd h eq_refl).
Qed.

Lemma scoped_key_split s d plane c :
  scope_ok s d -> segment plane -> segment c ->
  split sep (scoped_key s d (plane ++ sep :: c)) = (s, tl (key_parts s d plane c)).
Proof.
  intros Hs Hp Hc. rewrite scoped_key_join. apply split_chunks. by apply (key_parts_segments s d plane c).
Qed.

(** The key determines service, host, plane and client. *)
Lemma scoped_key_inj s1 d1 p1 c1 s2 d2 p2 c2 :
  scope_ok s1 d1 -> scope_ok s2 d2 -> segment p1 -> segment p2 -> segment c1 -> segment c2 ->
  scoped_key s1 d1 (p1 ++ sep :: c1) = scoped_key s2 d2 (p2 ++ sep :: c2) ->
  s1 = s2 /\ d1 = d2 /\ p1 = p2 /\ c1 = c2.
Proof.
  intros Hs1 Hs2 Hp1 Hp2 Hc1 Hc2 E. apply (f_equal (split sep)) in E.
  rewrite !scoped_key_split in E by done. injection E as -> E.
  destruct d1, d2; simpl in E; naive_solver.
Qed.

(** Both sides write the same key strings. *)
Lemma keys_agree s d c :
  import_tx_key s d c = export_sub_key s d c /\ import_rx_key s d c = export_pub_key s d c /\
  import_error_key s d c = export_error_key s d c /\
  import_token_key s d c = export_clients_key s d c.
Proof.
  unfold import_tx_key, import_rx_key, import_error_key, import_token_key, export_sub_key,
    export_pub_key, export_error_key, export_clients_key, scoped_key, dns_part.
  destruct d; simpl; by rewrite <- ?app_assoc.
Qed.

Lemma client_of_token s d c :
  segment c -> c <> [] -> client_of_key (import_token_key s d c) = Some c.
Proof.
  intros Hc Hne. unfold client_of_key, import_token_key, scoped_key.
  assert (forall a, rsplit_first sep (a ++ sep :: lit "clients/" ++ c) = c) as H.
  { intros a. replace (a ++ sep :: lit "clients/" ++ c) with ((a ++ lit "/clients") ++ sep :: c).
    - by apply rsplit_first_app.
    - rewrite <- app_assoc. done. }
  destruct d as [h|].
  - replace (s ++ sep :: h ++ sep :: lit "clients/" ++ c)
      with ((s ++ sep :: h) ++ sep :: lit "clients/" ++ c) by (by rewrite <- app_assoc).
    rewrite H. by rewrite decide_False.
  - rewrite H. by rewrite decide_False.
Qed.

Lemma liveliness_key_scope s d : liveliness_key s d = (scope s d ++ lit "/clients") ++ lit "/*".
Proof. destruct d; simpl; by rewrite <- !app_assoc. Qed.

Lemma token_key_scope s d c : import_token_key s d c = (scope s d ++ lit "/clients") ++ sep :: c.
Proof. destruct d; unfold import_token_key; simpl; by rewrite <- !app_assoc. Qed.

Lemma scope_no_star s d : scope_ok s d -> "*"%char ∉ scope s d ++ lit "/clients".
Proof.
  intros [Hs Hd]. assert ("*"%char ∉ s) by by apply name_no_char.
  rewrite elem_of_app. intros [H1|H1]; [|revert H1; vm_compute; set_solver].
  destruct d as [h|]; simpl in H1; [|done].
  apply elem_of_app in H1 as [|[|]%elem_of_cons]; try done.
  destruct (Hd h eq_refl) as [_ Hh]. by apply (key_no_char "*"%char h) in Hh.
Qed.

Section Properties.
Context {K : KeyExprs} {KL : KeyExprLaws K}.

(** An exporter's subscription sees exactly its own scope's tokens. *)
Lemma liveliness_sees s1 d1 s2 d2 c :
  scope_ok s1 d1 -> scope_ok s2 d2 -> segment c -> c <> [] ->
  key_matches (liveliness_key s1 d1) (import_token_key s2 d2 c) = true <-> s1 = s2 /\ d1 = d2.
Proof using KL.
  intros H1 H2 Hc Hne. rewrite liveliness_key_scope, match_star by by apply scope_no_star. split.
  - intros (c' & E & Hne' & Hs'). rewrite <- token_key_scope in E.
    apply (scoped_key_inj _ _ (lit "clients") _ _ _ (lit "clients")) in E;
      [naive_solver|done|done|apply literal_segments..|done|done].
  - intros [-> ->]. exists c. by rewrite token_key_scope.
Qed.

(** A host's availability token is seen by the default exporter's client
    subscription exactly when the host is called [clients]. *)
Lemma available_seen_as_client s1 s2 h :
  scope_ok s1 None -> scope_ok s2 (Some h) ->
  key_matches (liveliness_key s1 None) (service_key s2 (Some h)) = true <->
  s1 = s2 /\ h = lit "clients".
Proof using KL.
  intros H1 H2. rewrite liveliness_key_scope, match_star by by apply scope_no_star.
  pose proof (host_segment h (proj2 (proj2 H2 h eq_refl))) as Hh.
  assert (service_key s2 (Some h) = scoped_key s2 None (h ++ sep :: lit "available")) as Ek by done.
  split.
  - intros (c & E & Hne & Hs). rewrite Ek in E. cbn [scope] in E. rewrite <- app_assoc in E.
    apply (f_equal (split sep)) in E. symmetry in E.
    change (s1 ++ lit "/clients" ++ sep :: c)
      with (scoped_key s1 None (lit "clients" ++ sep :: c)) in E.
    rewrite !scoped_key_split in E by (done || apply literal_segments || (split; [apply H2|done])).
    by injection E as <- <- _.
  - intros [-> ->]. exists (lit "available"). rewrite Ek. simpl. rewrite <- app_assoc.
    split_and!; [done|done|apply literal_segments].
Qed.
End Properties.

(** ** Properties *)

(** C34: the import and the export derive the same keys for a connection, and two
    connections that differ in service, host or client id share no key on any
    plane, nor do two planes of one connection: no connection's bytes, error signal
    or token can reach another. *)
Theorem connection_keys_isolated s1 d1 c1 s2 d2 c2 :
  scope_ok s1 d1 -> scope_ok s2 d2 -> segment c1 -> segment c2 ->
  let keys s d c := [import_tx_key s d c; import_rx_key s d c; import_error_key s d c;
                     import_token_key s d c] in
  keys s1 d1 c1 = [export_sub_key s1 d1 c1; export_pub_key s1 d1 c1; export_error_key s1 d1 c1;
                   export_clients_key s1 d1 c1] /\
  forall i j k, keys s1 d1 c1 !! i = Some k -> keys s2 d2 c2 !! j = Some k ->
    i = j /\ s1 = s2 /\ d1 = d2 /\ c1 = c2.
Proof.
  intros H1 H2 Hc1 Hc2 keys. split.
  { unfold keys. by destruct (keys_agree s1 d1 c1) as (-> & -> & -> & ->). }
  pose proof literal_segments as (? & ? & ? & ? & ?).
  set (plane (i : nat) := match i with 0 => lit "tx" | 1 => lit "rx" | 2 => lit "error" | _ => lit "clients" end).
  assert (forall s d c i k, keys s d c !! i = Some k ->
    k = scoped_key s d (plane i ++ sep :: c) /\ i < 4 /\ segment (plane i)) as Hk.
  { intros s d c i k Hi. do 4 (destruct i as [|i]; [simplify_eq/=; split_and!; [done|lia|done]|]). done. }
  intros i j k (E1 & Hi & Hpi)%Hk (E2 & Hj & Hpj)%Hk. subst k.
  apply scoped_key_inj in E2 as (-> & -> & Ep & ->); try done. split; [|done].
  do 4 (destruct i as [|i]; [do 4 (destruct j as [|j]; [done|]); lia|]). lia.
Qed.

Lemma connection_keys_isolated_witness :
  import_tx_key (lit "web") (Some (lit "a.local")) (lit "c1") <>
  import_rx_key (lit "web") (Some (lit "a.local")) (lit "c1") /\
  import_tx_key (lit "web") (Some (lit "a.local")) (lit "c1") = lit "web/a.local/tx/c1".
Proof.
  assert (scope_ok (lit "web") (Some (lit "a.local"))) as Hs.
  { split; [split; [done|repeat constructor]|]. intros h [= <-]. split; [done|repeat constructor]. }
  assert (segment (lit "c1")) as Hc by (apply contains_char_not_elem; reflexivity).
  split; [|reflexivity]. intros E.
  destruct (connection_keys_isolated _ _ _ _ _ _ Hs Hs Hc Hc) as [_ H].
  destruct (H 0 1 _ eq_refl (f_equal Some (eq_sym E))) as [[=] _].
Defined.

(** An exporter's client subscription matches a connection's liveliness token
    exactly when the connection is of its own scope, the default scope and the host
    scopes included, and the client id it extracts from the token is the
    connection's. *)
Theorem exporter_sees_own_clients {K : KeyExprs} {KL : KeyExprLaws K} s1 d1 s2 d2 c :
  scope_ok s1 d1 -> scope_ok s2 d2 -> segment c -> c <> [] ->
  (key_matches (liveliness_key s1 d1) (import_token_key s2 d2 c) = true <-> s1 = s2 /\ d1 = d2) /\
  client_of_key (import_token_key s2 d2 c) = Some c.
Proof. intros. split; [by apply liveliness_sees|by apply client_of_token]. Qed.

Lemma exporter_sees_own_clients_witness :
  key_matches (KeyExprs := star_exprs) (liveliness_key (lit "web") None)
    (import_token_key (lit "web") None (lit "c1")) = true.
Proof.
  assert (scope_ok (lit "web") None) as Hs by (split; [split; [done|repeat constructor]|done]).
  assert (segment (lit "c1")) as Hc by (apply contains_char_not_elem; reflexivity).
  apply (exporter_sees_own_clients (KL := star_exprs_laws) _ _ _ _ (lit "c1") Hs Hs Hc ltac:(done)).
  split; reflexivity.
Defined.

(** The host name [clients] is accepted for a backend although the token it
    registers lies in the default exporter's client key space: that exporter sees a
    client called [available] appear, which no import ever announced.  No other
    host name is taken for a client. *)
Theorem host_called_clients {K : KeyExprs} {KL : KeyExprLaws K} {U : UnicodeCase}
    {UL : UnicodeCaseLaws U} s h :
  name_ok s -> spec_host_key h = Ok h ->
  (key_matches (liveliness_key s None) (service_key s (Some h)) = true <-> h = lit "clients") /\
  (h = lit "clients" -> client_of_key (service_key s (Some h)) = Some (lit "available")).
Proof.
  intros Hs Hh. apply spec_host_key_chars in Hh.
  assert (scope_ok s (Some h)) as Hsc by (split; [done|by intros ? [= <-]]).
  split.
  - rewrite available_seen_as_client by (try done; by split). naive_solver.
  - intros _. unfold client_of_key, service_key.
    assert (s ++ sep :: h ++ lit "/available" = (s ++ sep :: h) ++ sep :: lit "available") as ->
      by (by rewrite <- app_assoc).
    rewrite rsplit_first_app by apply literal_segments. by rewrite decide_False.
Qed.

Lemma host_called_clients_witness :
  key_matches (KeyExprs := star_exprs) (liveliness_key (lit "web") None)
    (service_key (lit "web") (Some (lit "clients"))) = true.
Proof.
  apply (host_called_clients (KL := star_exprs_laws) (UL := ascii_case_laws) (lit "web") (lit "clients"));
    [split; [done|repeat constructor]|vm_compute; reflexivity|reflexivity].
Defined.
