(* ===== verification/ImportBridge.v ===== *)
(** * ImportBridge: one import connection, from setup to outcome
    ([bridge_import_connection] of [src/import/bridge.rs])

    The function declares four Zenoh entities, waits for the export, publishes the
    bytes already read, registers the miss listener, spawns the error monitor and
    the two relay tasks of [Relay], and joins them.  Its awaits are the phases
    below; the environment's events include those of the relay. *)

From S2P Require Import Prelude Text Config Backpressure Transport Relay KeySpace.

(** ** Setup *)

(** The entities, in the order the setup block declares them. *)
Inductive Entity : Type :=
| ErrorSubscriber (key : str)
| RxSubscriber (key : str)
| TxPublisher (key : str) (block : bool)
| LivelinessToken (key : str).

#[export] Instance Entity_eq_dec : EqDecision Entity.
Proof. solve_decision. Defined.

(** What the setup block declares: publishing blocks on a full queue in byte-exact
    mode only. *)
Definition setup_entities (mode : ReliabilityMode) (service_name : str) (dns : option str)
    (client_id : str) : list Entity :=
  [ErrorSubscriber (import_error_key service_name dns client_id);
   RxSubscriber (import_rx_key service_name dns client_id);
   TxPublisher (import_tx_key service_name dns client_id) (bool_decide (mode = Stream));
   LivelinessToken (import_token_key service_name dns client_id)].

Inductive ImportError : Type :=
| SetupFailed (stage : nat)
| SetupTimeout
| InitialPutFailed
| MissListenerFailed.

Inductive ConnOutcome : Type := Completed | WasReset | Failed.

#[export] Instance ConnOutcome_eq_dec : EqDecision ConnOutcome.
Proof. solve_decision. Defined.

(** ** State *)

Inductive Phase : Type :=
| SettingUp                       (** inside the [setup] block *)
| AwaitingMatch                   (** [await_matching_subscriber] *)
| PublishingInitial (buffer : bytes)
| RegisteringListener
| Relaying                        (** [join!] of the two tasks *)
| Returned (res : result ImportError ConnOutcome).

Inductive Monitor : Type := NotSpawned | Waiting | MonitorEnded.

(** [declared]: the entities alive; [signals]: error samples not yet received;
    [initial_sent]: what was published before the relay started. *)
Record Import {M : Mpsc bytes} {W T : Type} : Type := {
  phase : Phase;
  declared : list Entity;
  signals : nat;
  monitor : Monitor;
  initial_sent : list bytes;
  relay : Relay W T;
}.
Arguments Import {M} W T.

Inductive ImportEvent : Type :=
| EntityDeclared (ok : bool)              (** the setup's next declaration completes *)
| SetupDeadline                    (** [read_timeout] elapses during the setup *)
| Matched
| InitialPut (ok : bool)
| ListenerRegistered (ok : bool)
| ErrorSignal                      (** the bus delivers an error sample *)
| MonitorReceives
| ShutdownDeadline                 (** the listener's token, parent of the connection's *)
| InRelay (e : RelayEvent)
| Join.                            (** both tasks are joined *)

Section ImportSteps.
Context {M : Mpsc bytes} {W T : Type} {TW : TransportWriter W}.
Context (config : BridgeConfig) (tap : option (bytes -> T -> T)).
Context (service_name : str) (dns : option str) (client_id : str).
Context (initial_buffer : option bytes).
Implicit Types s : Import W T.

Abbreviation mode := (reliability config).
Abbreviation entities := (setup_entities mode service_name dns client_id).

Definition set_phase (p : Phase) s : Import W T :=
  {| phase := p; declared := declared s; signals := signals s; monitor := monitor s;
     initial_sent := initial_sent s; relay := relay s |}.

Definition set_relay (r : Relay W T) s : Import W T :=
  {| phase := phase s; declared := declared s; signals := signals s; monitor := monitor s;
     initial_sent := initial_sent s; relay := r |}.

Definition set_signals (n : nat) (m : Monitor) s : Import W T :=
  {| phase := phase s; declared := declared s; signals := n; monitor := m;
     initial_sent := initial_sent s; relay := relay s |}.

(** Leaving the function drops every entity that is left, and the monitor with it. *)
Definition return_with (res : result ImportError ConnOutcome) s : Import W T :=
  {| phase := Returned res; declared := []; signals := signals s; monitor := MonitorEnded;
     initial_sent := initial_sent s; relay := relay s |}.

Definition import_init (w : W) (t : T) : Import W T :=
  {| phase := SettingUp; declared := []; signals := 0; monitor := NotSpawned;
     initial_sent := [];
     relay := relay_init (N.to_nat (rx_channel_capacity config)) w t |}.

(** One declaration of the setup block; the fourth ends it. *)
Definition on_declare (ok : bool) s : option (Import W T) :=
  let stage := length (declared s) in
  entity ← entities !! stage;
  Some (if ok then
          {| phase := if decide (stage = 3) then AwaitingMatch else SettingUp;
             declared := declared s ++ [entity]; signals := signals s; monitor := monitor s;
             initial_sent := initial_sent s; relay := relay s |}
        else return_with (Err (SetupFailed stage)) s).

(** Past the gate: the initial buffer, then the miss listener, which exists in
    byte-exact mode only, then the tasks. *)
Definition enable_listener s : Import W T := set_relay (listen_misses (relay s)) s.

Definition spawn_tasks s : Import W T := set_phase Relaying (set_signals (signals s) Waiting s).

Definition after_initial s : Import W T :=
  if decide (mode = Stream) then set_phase RegisteringListener s else spawn_tasks s.

Definition on_matched s : Import W T :=
  match initial_buffer with
  | Some buffer => set_phase (PublishingInitial buffer) s
  | None => after_initial s
  end.

Definition on_initial_put (buffer : bytes) (ok : bool) s : Import W T :=
  if ok then
    after_initial {| phase := phase s; declared := declared s; signals := signals s;
                     monitor := monitor s; initial_sent := initial_sent s ++ [buffer];
                     relay := relay s |}
  else return_with (Err InitialPutFailed) s.

Definition on_listener (ok : bool) s : Import W T :=
  if ok then spawn_tasks (enable_listener s) else return_with (Err MissListenerFailed) s.

(** The error monitor takes one sample, trips the token and ends. *)
Definition on_monitor s : option (Import W T) :=
  match monitor s, signals s with
  | Waiting, S n => Some (set_signals n MonitorEnded (set_relay (reset (relay s)) s))
  | _, _ => None
  end.

(** A tripped token is a reset; otherwise both directions half-closed. *)
Definition outcome s : ConnOutcome :=
  if cancelled (rxs (relay s)) then WasReset else Completed.

Definition on_join s : option (Import W T) :=
  if relay_over (relay s) then Some (return_with (Ok (outcome s)) s) else None.

(** The subscriber's callback runs as soon as it is declared; the tasks run once
    they are spawned.  Trips and the listener are other events of the function. *)
Definition relay_event_enabled (e : RelayEvent) s : bool :=
  match phase s with
  | Returned _ => false
  | Relaying => match e with Trip | ListenMisses => false | _ => true end
  | _ =>
      match e with
      | Sample _ | Miss | SessionGone => 1 <? length (declared s)
      | _ => false
      end
  end.

Definition import_step s (e : ImportEvent) : option (Import W T) :=
  match phase s, e with
  | Returned _, _ => None
  | SettingUp, EntityDeclared ok => on_declare ok s
  | SettingUp, SetupDeadline => Some (return_with (Err SetupTimeout) s)
  | AwaitingMatch, Matched => Some (on_matched s)
  | PublishingInitial buffer, InitialPut ok => Some (on_initial_put buffer ok s)
  | RegisteringListener, ListenerRegistered ok => Some (on_listener ok s)
  | Relaying, MonitorReceives => on_monitor s
  | Relaying, Join => on_join s
  | _, ErrorSignal =>
      if 0 <? length (declared s) then Some (set_signals (S (signals s)) (monitor s) s) else None
  | _, ShutdownDeadline => Some (set_relay (reset (relay s)) s)
  | _, InRelay e =>
      if relay_event_enabled e s then
        r ← relay_step mode tap (relay s) e; Some (set_relay r s)
      else None
  | _, _ => None
  end.

(** Everything the connection published on its tx key. *)
Definition tx_samples s : list bytes := initial_sent s ++ published (relay s).
End ImportSteps.

(** The relay events of a run, with the trips the rest of the function makes. *)
Definition relay_events_of (e : ImportEvent) : list RelayEvent :=
  match e with
  | InRelay e => [e]
  | ListenerRegistered true => [ListenMisses]
  | MonitorReceives | ShutdownDeadline => [Trip]
  | _ => []
  end.

Definition relay_events (es : list ImportEvent) : list RelayEvent := concat (relay_events_of <$> es).

(** The events by which a connection tears itself down: its monitor's, its watchdog's, and
    the join. *)
Definition teardown_event (e : ImportEvent) : Prop :=
  match e with MonitorReceives | Join | InRelay (AbortBus _ _) | InRelay (AbortSocket _) => True | _ => False end.

(** ** Invariants *)
Section Invariants.
Context {M : Mpsc bytes} {L : MpscLaws M} {W T : Type}.
Context {TW : TransportWriter W} {TL : TransportWriterLaws TW}.
Context (config : BridgeConfig) (tap : option (bytes -> T -> T)).
Context (service_name : str) (dns : option str) (client_id : str).
Context (initial_buffer : option bytes) (w0 : W) (t0 : T).
Implicit Types s : Import W T.

Abbreviation mode := (reliability config).
Abbreviation entities := (setup_entities mode service_name dns client_id).
Abbreviation step := (import_step (TW := TW) config tap service_name dns client_id initial_buffer).
Abbreviation init := (import_init (M := M) config w0 t0).
Abbreviation relay_cap := (N.to_nat (rx_channel_capacity config)).
Abbreviation relay_run es := (run (relay_step mode tap) (relay_init (M := M) relay_cap w0 t0) es).

Lemma relay_events_snoc es e : relay_events (es ++ [e]) = relay_events es ++ relay_events_of e.
Proof. unfold relay_events. rewrite fmap_app. apply concat_snoc. Qed.

(** One step of the function is some steps of its relay. *)
Lemma import_step_relay s e s' :
  step s e = Some s' -> run (relay_step mode tap) (relay s) (relay_events_of e) = Some (relay s').
Proof using Type.
  unfold import_step. intros Hs.
  destruct e as [ok| | |ok|ok| | | |e|]; destruct (phase s); try done;
    unfold on_declare, on_initial_put, on_listener, on_monitor, on_join, on_matched, after_initial in Hs;
    crush_step Hs; simpl; inv_guards; subst; simpl; try done.
  all: by rewrite Ha.
Qed.

Lemma import_relay_run es s : run step init es = Some s -> relay_run (relay_events es) = Some (relay s).
Proof using Type.
  apply (run_history_invariant step (fun es s => relay_run (relay_events es) = Some (relay s))).
  { done. }
  intros es' s' e s'' _ IH Hs%import_step_relay.
  by rewrite relay_events_snoc, run_app, IH.
Qed.
(** What each phase has behind it. *)
Definition phase_inv s : Prop :=
  match phase s with
  | SettingUp =>
      (exists k, k < 4 /\ declared s = take k entities) /\ initial_sent s = []
  | AwaitingMatch => declared s = entities /\ initial_sent s = []
  | PublishingInitial b =>
      declared s = entities /\ initial_sent s = [] /\ initial_buffer = Some b
  | RegisteringListener | Relaying =>
      declared s = entities /\ initial_sent s = option_list initial_buffer
  | Returned (Ok o) =>
      declared s = [] /\ initial_sent s = option_list initial_buffer /\
      relay_over (relay s) = true /\ o = outcome s
  | Returned (Err _) =>
      declared s = [] /\ initial_sent s `prefix_of` option_list initial_buffer /\
      published (relay s) = []
  end.

(** The tasks do not run before the last phase. *)
Definition idle_inv s : Prop :=
  match phase s with
  | Relaying | Returned _ => True
  | _ => bus_task (relay s) = BIdle /\ socket_task (relay s) = SIdle /\ published (relay s) = []
  end.

Lemma phase_inv_init : phase_inv init.
Proof using Type. split; [exists 0; split; [lia|done]|done]. Qed.

Lemma idle_event r e r' :
  match e with Sample _ | Miss | SessionGone => True | _ => False end ->
  relay_step mode tap r e = Some r' ->
  bus_task r' = bus_task r /\ socket_task r' = socket_task r /\ published r' = published r.
Proof using Type.
  intros He Hs. destruct e; try done; simpl in Hs; unfold on_miss in Hs; crush_step Hs; by simplify_eq/=.
Qed.

Lemma in_relay_idle s e s' :
  idle_inv s -> step s (InRelay e) = Some s' -> idle_inv s' /\ phase s' = phase s /\
  declared s' = declared s /\ initial_sent s' = initial_sent s /\ signals s' = signals s /\
  monitor s' = monitor s.
Proof using Type.
  intros Hi Hs. assert (relay_event_enabled e s = true /\ exists r,
      relay_step mode tap (relay s) e = Some r /\ s' = set_relay r s) as (He & r & Hr & ->).
  { unfold import_step in Hs. destruct (phase s); try done;
      destruct (relay_event_enabled e s); try done; inv_guards; eauto. }
  split; [|done]. unfold idle_inv, relay_event_enabled in *. simpl.
  destruct (phase s); try done; (apply idle_event in Hr as (-> & -> & ->); [done|by destruct e]).
Qed.

Lemma idle_inv_step s e s' : idle_inv s -> step s e = Some s' -> idle_inv s'.
Proof using Type.
  intros Hi Hs. destruct e as [ok| | |ok|ok| | | |e|]; try (by apply in_relay_idle with s e);
    unfold import_step, idle_inv in *; destruct (phase s) eqn:E; try done;
    unfold on_declare, on_initial_put, on_listener, on_monitor, on_join, on_matched, after_initial in Hs;
    crush_step Hs; simpl; rewrite ?E; inv_guards; subst; simpl; solve [done | congruence].
Qed.
Lemma entities_length : length entities = 4.
Proof. done. Qed.

Lemma declare_next k entity :
  k < 4 -> entities !! k = Some entity -> take k entities ++ [entity] = take (S k) entities.
Proof. intros _ H. by rewrite (take_S_r _ _ _ H). Qed.

Lemma phase_inv_declare ok s s' :
  phase s = SettingUp -> phase_inv s -> idle_inv s -> on_declare config service_name dns client_id ok s = Some s' ->
  phase_inv s'.
Proof using Type.
  intros E Hp Hi Hs. unfold phase_inv, idle_inv in Hp, Hi. rewrite E in Hp, Hi.
  destruct Hp as ((k & Hk & Hd) & Hi0). unfold on_declare in Hs.
  assert (length (declared s) = k) as Hl by (rewrite Hd, length_take, entities_length; lia).
  rewrite Hl in Hs. apply bind_Some in Hs as (entity & He & [= <-]). destruct ok.
  - unfold phase_inv. cbn [phase declared initial_sent]. rewrite Hd, (declare_next k) by done.
    case_decide as H3.
    + rewrite H3. by split.
    + split; [|done]. exists (S k). split; [lia|done].
  - unfold phase_inv. simpl. rewrite Hi0. split_and!; try done; [apply prefix_nil|apply Hi].
Qed.

(** The events that leave the phase alone. *)
Lemma phase_inv_frame s s' :
  phase_inv s -> match phase s with Returned _ => False | _ => True end ->
  phase s' = phase s -> declared s' = declared s -> initial_sent s' = initial_sent s ->
  phase_inv s'.
Proof using Type.
  unfold phase_inv. intros Hp Hn -> -> ->. by destruct (phase s).
Qed.

Lemma after_initial_inv s :
  declared s = entities -> initial_sent s = option_list initial_buffer ->
  phase_inv (after_initial config s).
Proof using Type. intros. unfold after_initial, phase_inv. case_decide; simpl; done. Qed.

Lemma on_matched_inv s :
  declared s = entities -> initial_sent s = [] -> phase_inv (on_matched config initial_buffer s).
Proof using Type.
  intros Hd Hi. unfold on_matched. destruct initial_buffer as [b|] eqn:Eb.
  - unfold phase_inv. simpl. auto.
  - unfold after_initial, phase_inv. rewrite Eb. case_decide; simpl; done.
Qed.

Lemma return_err_inv s e :
  initial_sent s `prefix_of` option_list initial_buffer -> published (relay s) = [] ->
  phase_inv (return_with (Err e) s).
Proof using Type. by intros. Qed.

Lemma phase_inv_step s e s' :
  idle_inv s -> phase_inv s -> step s e = Some s' -> phase_inv s'.
Proof using Type.
  intros Hi Hp Hs. destruct e as [ok| | |ok|ok| | | |e|].
  9: { pose proof (in_relay_idle _ _ _ Hi Hs) as (_ & E1 & E2 & E3 & _).
       apply (phase_inv_frame s); try done. unfold import_step in Hs. by destruct (phase s). }
  all: unfold import_step in Hs; destruct (phase s) eqn:E; try done.
  all: try (by apply (phase_inv_declare ok s)).
  (* an error sample, a tripped parent token *)
  all: try (repeat case_match; simplify_eq; apply (phase_inv_frame s); [done|by rewrite E|done..]).
  all: unfold phase_inv, idle_inv in Hp, Hi; rewrite E in Hp, Hi; simplify_eq.
  - apply return_err_inv; [|apply Hi]. destruct Hp as [_ ->]. apply prefix_nil.
  - apply on_matched_inv; apply Hp.
  - destruct Hp as (Hd & Hs0 & Hb). unfold on_initial_put. destruct ok.
    + apply after_initial_inv; [done|]. simpl. by rewrite Hs0, Hb.
    + apply return_err_inv; [|apply Hi]. rewrite Hs0. apply prefix_nil.
  - unfold on_listener. destruct ok; [by unfold phase_inv|].
    apply return_err_inv; [|apply Hi]. by rewrite (proj2 Hp).
  - unfold on_monitor in Hs. repeat case_match; simplify_eq. unfold phase_inv. simpl. by rewrite E.
  - unfold on_join in Hs. destruct (relay_over (relay s)) eqn:Ho; [|done]. simplify_eq.
    unfold phase_inv. simpl. split_and!; try done. apply Hp.
Qed.

Lemma run_phase es s : run step init es = Some s -> phase_inv s /\ idle_inv s.
Proof using Type.
  apply (run_invariant step (fun s => phase_inv s /\ idle_inv s)).
  - split; [apply phase_inv_init|done].
  - intros s0 e s1 [Hp Hi] Hs. split; [by eapply phase_inv_step|by eapply idle_inv_step].
Qed.

Lemma initial_first s :
  phase_inv s -> idle_inv s ->
  initial_sent s `prefix_of` option_list initial_buffer /\
  (published (relay s) <> [] -> initial_sent s = option_list initial_buffer).
Proof using Type.
  unfold phase_inv, idle_inv. intros Hp Hi.
  destruct (phase s) as [| | | | |[o|e]].
  - destruct Hp as [_ ->], Hi as (_ & _ & ->). split; [apply prefix_nil|done].
  - destruct Hp as [_ ->], Hi as (_ & _ & ->). split; [apply prefix_nil|done].
  - destruct Hp as (_ & -> & _), Hi as (_ & _ & ->). split; [apply prefix_nil|done].
  - by destruct Hp as [_ ->].
  - by destruct Hp as [_ ->].
  - by destruct Hp as (_ & -> & _).
  - by destruct Hp as (_ & Hpre & ->).
Qed.

(** ** What a connection that completed did *)

Lemma completed_over es s :
  run step init es = Some s -> phase s = Returned (Ok Completed) ->
  relay_over (relay s) = true /\ cancelled (rxs (relay s)) = false /\
  initial_sent s = option_list initial_buffer.
Proof using Type.
  intros Hr E. destruct (run_phase es s Hr) as [Hp _]. unfold phase_inv in Hp. rewrite E in Hp.
  destruct Hp as (_ & Hi & Ho & Hc). unfold outcome in Hc.
  by destruct (cancelled (rxs (relay s))).
Qed.

(** A tripped token ends the connection as a reset, two aborts later at most. *)
Lemma in_relay_step s e r' :
  phase s = Relaying -> e <> Trip -> e <> ListenMisses ->
  relay_step mode tap (relay s) e = Some r' -> step s (InRelay e) = Some (set_relay r' s).
Proof using Type.
  intros E H1 H2 Hr. unfold import_step, relay_event_enabled. rewrite E.
  destruct e; try done; by rewrite Hr.
Qed.

Lemma in_relay_run es s r' :
  phase s = Relaying -> Forall (fun e => e <> Trip /\ e <> ListenMisses) es ->
  run (relay_step mode tap) (relay s) es = Some r' ->
  run step s (InRelay <$> es) = Some (set_relay r' s).
Proof using Type.
  revert s. induction es as [|e es IH]; intros s E Hf Hr.
  - simpl in *. simplify_eq. by destruct s.
  - apply Forall_cons in Hf as [[H1 H2] Hf]. simpl in Hr. apply bind_Some in Hr as (r1 & Hr1 & Hr).
    simpl. rewrite (in_relay_step s e r1) by done. by apply (IH (set_relay r1 s)).
Qed.

Lemma reset_returns s :
  phase s = Relaying -> cancelled (rxs (relay s)) = true ->
  exists es s', run step s es = Some s' /\ Forall teardown_event es /\ length es <= 3 /\ phase s' = Returned (Ok WasReset).
Proof using Type.
  intros E Hc. destruct (cancelled_can_finish mode tap (relay s) Hc) as (r & Hr & Ho).
  exists ((InRelay <$> aborts (relay s)) ++ [Join]).
  assert (cancelled (rxs r) = true) as Hc'. by by eapply run_cancelled.
  rewrite run_app, (in_relay_run _ s r); [|done| |done].
  - eexists. split_and!.
    + simpl. unfold import_step. simpl. rewrite E. unfold on_join. simpl. by rewrite Ho.
    + apply Forall_app. split; [|by constructor]. unfold aborts. do 2 case_match; by repeat constructor.
    + rewrite length_app, length_fmap. unfold aborts. do 2 case_match; simpl; lia.
    + simpl. unfold outcome. simpl. by rewrite Hc'.
  - unfold aborts. do 2 case_match; by repeat constructor.
Qed.

(** ** The error monitor *)

Lemma step_cancelled s e s' :
  cancelled (rxs (relay s)) = true -> step s e = Some s' -> cancelled (rxs (relay s')) = true.
Proof using Type. intros Hc Hs%import_step_relay. by eapply run_cancelled. Qed.

(** While the tasks run the monitor waits for a signal, or the token is tripped. *)
Definition monitored s : Prop := phase s = Relaying -> monitor s = Waiting \/ cancelled (rxs (relay s)) = true.

Lemma monitored_step s e s' : monitored s -> step s e = Some s' -> monitored s'.
Proof using Type.
  intros Hm Hs E'. pose proof (fun H => step_cancelled s e s' H Hs) as Hc. unfold monitored in Hm.
  destruct (phase s) eqn:E; unfold import_step in Hs; rewrite E in Hs.
  5: { destruct (Hm eq_refl) as [Hw|Ht]; [|right; by apply Hc]. destruct e; try done;
         unfold on_monitor, on_join in Hs; repeat case_match; simplify_eq/=; try (by left); try (by right).
       apply bind_Some in Hs as (r & _ & [= <-]). by left. }
  all: destruct e; try done; unfold on_declare, on_matched, on_initial_put, on_listener, after_initial in Hs;
    crush_step Hs; simplify_eq/=; try congruence; by left.
Qed.

(** A signal that was delivered is there until the monitor takes it, which trips the
    token. *)
Lemma signals_kept s e s' :
  step s e = Some s' -> signals s <= signals s' \/ e = MonitorReceives /\ cancelled (rxs (relay s')) = true.
Proof using Type.
  intros Hs. unfold import_step in Hs. destruct (phase s), e; try done;
    unfold on_declare, on_matched, on_initial_put, on_listener, after_initial, on_monitor, on_join in Hs;
    repeat case_match; inv_guards; subst; simplify_eq/=; try (by left); try (left; lia); by right.
Qed.

Lemma run_monitored es s :
  run step init es = Some s -> monitored s /\ (MonitorReceives ∈ es -> cancelled (rxs (relay s)) = true).
Proof using Type.
  apply (run_history_invariant step (fun es s => monitored s /\ (MonitorReceives ∈ es -> cancelled (rxs (relay s)) = true))).
  - split; [done|]. by intros ?%not_elem_of_nil.
  - intros es' x e x' _ [Hm Hc] Hs. split; [by eapply monitored_step|].
    intros [Hin|Hin%list_elem_of_singleton]%elem_of_app; [eapply step_cancelled; [by apply Hc|done]|subst e].
    unfold import_step in Hs. destruct (phase x); try done.
    unfold on_monitor in Hs. destruct (monitor x), (signals x); try done. by simplify_eq/=.
Qed.
End Invariants.

(** ** Properties *)
Section Properties.
Context {M : Mpsc bytes} {L : MpscLaws M} {W T : Type}.
Context {TW : TransportWriter W} {TL : TransportWriterLaws TW}.

(** C6: in byte-exact mode an import connection reported as completed relayed both
    directions exactly: the client was written the concatenation of every sample the
    bus delivered before the backend's end-of-stream marker, and its write side was
    half-closed after it; everything read from the client was published in order
    after the initial buffer, followed by the end-of-stream marker, which the client
    had given by a clean end of its stream. *)
Theorem import_completed_exact config (tap : option (bytes -> T -> T)) service dns client initial
    (w : W) t es (s : Import W T) :
  reliability config = Stream ->
  run (import_step config tap service dns client initial) (import_init config w t) es = Some s ->
  phase s = Returned (Ok Completed) ->
  (exists down rest, samples (relay_events es) = down ++ [] :: rest /\ no_eof down /\
    wire (sink (relay s)) = wire w ++ concat down /\ half_closed (sink (relay s)) = true) /\
  (exists chunks, reads (relay_events es) = chunks ++ [[]] /\ no_eof chunks /\
    tx_samples s = option_list initial ++ chunks ++ [[]]).
Proof using L TL.
  intros Hm Hr E. destruct (completed_over _ _ _ _ _ _ _ _ _ _ Hr E) as (Ho & Hc & Hi).
  apply import_relay_run in Hr.
  destruct (run_over_clean _ _ _ _ _ _ _ Hr Ho Hc) as [Hb Hs]. split.
  - destruct (run_exact _ _ _ _ _ _ _ Hm Hr Hc) as (taken & Hne & Hw & Hcase). rewrite Hb in Hcase.
    destruct Hcase as (Hh & rest & Hsam). by exists taken, rest.
  - apply run_publish in Hr. unfold publish_inv in Hr. rewrite Hs in Hr.
    destruct Hr as (chunks & Hp & Hrd & Hne). exists chunks. unfold tx_samples.
    rewrite Hi, Hrd, Hp. done.
Qed.

(** C8: in either mode and at every point of a connection, what was published is
    the initial buffer followed by the first chunks read from the client, unchanged
    and in order; the end-of-stream marker is among them only as the last one, after
    the client ended its stream cleanly and everything it sent was published.  A
    client that fails never looks complete to the backend. *)
Theorem import_publishes_faithfully config (tap : option (bytes -> T -> T)) service dns client initial
    (w : W) t es (s : Import W T) :
  run (import_step config tap service dns client initial) (import_init config w t) es = Some s ->
  initial_sent s `prefix_of` option_list initial /\
  published (relay s) `prefix_of` reads (relay_events es) /\
  ([] ∈ published (relay s) -> published (relay s) = reads (relay_events es) /\
     exists chunks, published (relay s) = chunks ++ [[]] /\ no_eof chunks) /\
  (published (relay s) <> [] -> initial_sent s = option_list initial).
Proof using L TL.
  intros Hr. destruct (run_phase _ _ _ _ _ _ _ _ _ _ Hr) as [Hp Hi].
  apply import_relay_run in Hr. destruct (initial_first _ _ _ _ _ s Hp Hi) as [H1 H2].
  split_and!; [done|by eapply run_published_prefix| |done].
  intros Hin. destruct (run_published_eof _ _ _ _ _ _ _ Hr Hin) as (chunks & E1 & E2 & Hne). eauto.
Qed.

(** The import announces a client only when it can hear about it: the liveliness
    token, which makes the export dial, is alive only together with the error
    subscriber, the response subscriber and the publisher, each on its own key; no
    byte of the client is published before that; and nothing stays declared once
    the connection has returned. *)
Theorem import_announces_last config (tap : option (bytes -> T -> T)) service dns client initial
    (w : W) t es (s : Import W T) :
  run (import_step config tap service dns client initial) (import_init config w t) es = Some s ->
  (LivelinessToken (import_token_key service dns client) ∈ declared s ->
   declared s = setup_entities (reliability config) service dns client) /\
  match phase s with
  | Returned _ => declared s = []
  | _ => tx_samples s <> [] -> declared s = setup_entities (reliability config) service dns client
  end.
Proof using L TL.
  intros Hr. destruct (run_phase _ _ _ _ _ _ _ _ _ _ Hr) as [Hp Hi]. unfold tx_samples.
  unfold phase_inv, idle_inv in *. destruct (phase s) as [| | | | |[]].
  - destruct Hp as ((k & Hk & ->) & Hs), Hi as (_ & _ & ->). rewrite Hs. split; [|done].
    intros Hin. do 4 (destruct k as [|k]; [simpl in Hin; exfalso; set_solver|]). lia.
  - destruct Hp as [-> ->]. done.
  - by destruct Hp as (-> & -> & _).
  - by destruct Hp as [-> _].
  - by destruct Hp as [-> _].
  - destruct Hp as (-> & _). split; [|done]. by intros ?%elem_of_nil.
  - destruct Hp as (-> & _). split; [|done]. by intros ?%elem_of_nil.
Qed.

(** C37: an error signal from the export resets the connection.  Once the bus has
    delivered it, to a subscriber that is there from the first declaration on, it is lost
    to nothing but the monitor that takes it and trips the token.  While the connection
    relays the monitor is waiting for it, unless the token is tripped already; and with a
    signal delivered, the monitor, the watchdog's aborts and the join alone, in at most four
    steps, return the connection as a reset.  From the moment the monitor has taken one, no
    other outcome is possible: a connection reported as completed had both directions
    end cleanly before it was taken. *)
Theorem import_error_signal_resets config (tap : option (bytes -> T -> T)) service dns client initial
    (w : W) t es (s : Import W T) :
  let step := import_step config tap service dns client initial in
  run step (import_init config w t) es = Some s ->
  (declared s <> [] -> exists s', step s ErrorSignal = Some s' /\ signals s' = S (signals s)) /\
  (forall e s', step s e = Some s' ->
     signals s <= signals s' \/ e = MonitorReceives /\ cancelled (rxs (relay s')) = true) /\
  (phase s = Relaying -> monitor s = Waiting \/ cancelled (rxs (relay s)) = true) /\
  (phase s = Relaying -> 0 < signals s -> exists es' s',
     run step s es' = Some s' /\ Forall teardown_event es' /\ length es' <= 4 /\ phase s' = Returned (Ok WasReset)) /\
  (MonitorReceives ∈ es -> cancelled (rxs (relay s)) = true /\ forall o, phase s = Returned (Ok o) -> o = WasReset).
Proof using L TL.
  intros step Hr. destruct (run_monitored _ _ _ _ _ _ _ _ _ _ Hr) as [Hm Hc].
  destruct (run_phase _ _ _ _ _ _ _ _ _ _ Hr) as [Hp _]. unfold phase_inv in Hp. split_and!.
  - intros Hd. unfold step, import_step. destruct (phase s) as [| | | | |[]]; try (by destruct Hp);
      destruct (declared s); simpl; try done; by eexists.
  - apply signals_kept.
  - done.
  - intros E Hs. destruct (Hm E) as [Hw|Ht].
    + destruct (signals s) as [|n] eqn:En; [lia|].
      assert (step s MonitorReceives = Some (set_signals n MonitorEnded (set_relay (reset (relay s)) s))) as H1.
      { unfold step, import_step. rewrite E. unfold on_monitor. by rewrite Hw, En. }
      destruct (reset_returns config tap service dns client initial (set_signals n MonitorEnded (set_relay (reset (relay s)) s)))
        as (es' & s' & Hr' & Hf & Hl & Ho); [done|done|].
      exists (MonitorReceives :: es'), s'. cbn [run]. rewrite H1. split_and!; [done|by constructor|simpl; lia|done].
    + destruct (reset_returns config tap service dns client initial s E Ht) as (es' & s' & Hr' & Hf & Hl & Ho).
      exists es', s'. split_and!; [done..|lia|done].
  - intros Hin. split; [by apply Hc|]. intros o E. rewrite E in Hp. destruct Hp as (_ & _ & _ & ->).
    unfold outcome. by rewrite Hc.
Qed.

(** Whatever happens to a connection, in either mode, the client is written a
    selection of the samples the bus delivered before any end-of-stream marker was
    acted on, in their order, the last one possibly cut short by a failing write:
    bytes are never invented, duplicated or reordered. *)
Theorem import_writes_selection config (tap : option (bytes -> T -> T)) service dns client initial
    (w : W) t es (s : Import W T) :
  run (import_step config tap service dns client initial) (import_init config w t) es = Some s ->
  exists taken, no_eof taken /\ taken `sublist_of` samples (relay_events es) /\
    wire (sink (relay s)) `prefix_of` wire w ++ concat taken.
Proof using L TL.
  intros Hr%import_relay_run%run_selection. destruct Hr as (taken & Hne & Hsub & Hpre & _).
  exists taken. split_and!; try done. etrans; [|exact Hsub]. by apply sublist_inserts_r.
Qed.
End Properties.

(** ** Concrete runs *)

Definition with_rx_capacity (n : N) (c : BridgeConfig) : BridgeConfig := {|
  buffer_size := buffer_size c; reliability := reliability c;
  max_connections := max_connections c; cache_size := cache_size c;
  max_header_size := max_header_size c; read_timeout := read_timeout c;
  heartbeat_interval := heartbeat_interval c; availability_timeout := availability_timeout c;
  drain_timeout := drain_timeout c; max_response_size := max_response_size c;
  response_idle_timeout := response_idle_timeout c; connect_timeout := connect_timeout c;
  rx_channel_capacity := n;
|}.

Definition fresh_tcp : TcpWriter := {| tcp_wire := []; tcp_fin := false |}.

Definition example_run (config : BridgeConfig) (initial : option bytes) (es : list ImportEvent)
    : option (Import (M := list_mpsc bytes) TcpWriter unit) :=
  run (import_step config None (lit "web") None (lit "c1") initial)
    (import_init config fresh_tcp tt) es.

Definition setup_done : list ImportEvent := [EntityDeclared true; EntityDeclared true; EntityDeclared true; EntityDeclared true; Matched].

(** An exchange: a buffered head, one more chunk up, one chunk down, both ends
    half-closed. *)
Definition exchange : list ImportEvent :=
  setup_done ++ [InitialPut true; ListenerRegistered true] ++
  (InRelay <$> [Read (Ok (lit "body")); Sample (lit "reply"); PutDone true; Take; WriteDone Written;
                Sample []; Read (Ok []); PutDone true; Take; EofDone true]) ++ [Join].

Lemma import_completed_exact_witness :
  exists s, example_run BridgeConfig_default (Some (lit "head")) exchange = Some s /\
    tx_samples s = [lit "head"; lit "body"; []] /\ wire (sink (relay s)) = lit "reply".
Proof.
  eexists. split; [vm_compute; reflexivity|].
  match goal with |- tx_samples ?s = _ /\ _ =>
    destruct (import_completed_exact (L := list_mpsc_laws bytes) (TL := tcp_writer_laws)
      BridgeConfig_default None (lit "web") None (lit "c1") (Some (lit "head")) fresh_tcp tt exchange s)
      as [_ (chunks & E & _ & Htx)]; [reflexivity|vm_compute; reflexivity|reflexivity|] end.
  change ([lit "body"] ++ [[]] = chunks ++ [[]]) in E. apply app_inj_tail in E as [<- _].
  split; [exact Htx|reflexivity].
Defined.

Lemma import_publishes_faithfully_witness :
  exists s, example_run BridgeConfig_default None
      (setup_done ++ [ListenerRegistered true] ++ (InRelay <$> [Read (Ok (lit "ab")); PutDone true;
         Read (Err SocketError)])) = Some s /\ ([] ∈ published (relay s) -> False) /\
    published (relay s) = [lit "ab"].
Proof.
  eexists. split; [vm_compute; reflexivity|]. split; [|reflexivity].
  match goal with |- _ ∈ published (relay ?s) -> _ =>
    destruct (import_publishes_faithfully (L := list_mpsc_laws bytes) (TL := tcp_writer_laws)
      BridgeConfig_default None (lit "web") None (lit "c1") None fresh_tcp tt
      (setup_done ++ [ListenerRegistered true] ++ (InRelay <$> [Read (Ok (lit "ab")); PutDone true;
         Read (Err SocketError)])) s) as (_ & _ & H & _); [vm_compute; reflexivity|] end.
  intros Hin. destruct (H Hin) as (_ & chunks & E & Hne).
  by destruct chunks as [|x [|]].
Defined.

Lemma import_announces_last_witness :
  exists s, example_run BridgeConfig_default None setup_done = Some s /\
    declared s = setup_entities Stream (lit "web") None (lit "c1").
Proof.
  eexists. split; [vm_compute; reflexivity|].
  match goal with |- declared ?s = _ =>
    destruct (import_announces_last (L := list_mpsc_laws bytes) (TL := tcp_writer_laws)
      BridgeConfig_default None (lit "web") None (lit "c1") None fresh_tcp tt setup_done s) as [H _];
      [vm_compute; reflexivity|] end.
  apply H, (bool_decide_unpack _). vm_compute. exact I.
Defined.

Lemma import_error_signal_resets_witness :
  exists s es s', example_run BridgeConfig_default None
      (setup_done ++ [ErrorSignal; ListenerRegistered true]) = Some s /\
    run (import_step BridgeConfig_default None (lit "web") None (lit "c1") None) s es = Some s' /\
    length es <= 4 /\ phase s' = Returned (Ok WasReset).
Proof.
  assert ((fun s => (phase s, signals s)) <$> example_run BridgeConfig_default None
      (setup_done ++ [ErrorSignal; ListenerRegistered true]) = Some (Relaying, 1)) as H by (vm_compute; reflexivity).
  destruct (example_run BridgeConfig_default None (setup_done ++ [ErrorSignal; ListenerRegistered true])) as [s|] eqn:E;
    [|discriminate H].
  injection H as Hp Hn.
  destruct (import_error_signal_resets (L := list_mpsc_laws bytes) (TL := tcp_writer_laws)
      BridgeConfig_default None (lit "web") None (lit "c1") None fresh_tcp tt _ s E) as (_ & _ & _ & H & _).
  destruct (H Hp) as (es & s' & Hr & _ & Hl & Ho); [rewrite Hn; lia|].
  exists s, es, s'. split; [reflexivity|]. split; [exact Hr|]. split; [exact Hl|exact Ho].
Defined.

Lemma import_writes_selection_witness :
  exists s, example_run BridgeConfig_default None
      (setup_done ++ [ListenerRegistered true] ++
       (InRelay <$> [Sample (lit "ab"); Take; WriteDone (Broken 1)])) = Some s /\
    exists taken, taken `sublist_of` [lit "ab"] /\ wire (sink (relay s)) `prefix_of` concat taken.
Proof.
  eexists. split; [vm_compute; reflexivity|].
  match goal with |- context [relay ?s] =>
    destruct (import_writes_selection (L := list_mpsc_laws bytes) (TL := tcp_writer_laws)
      BridgeConfig_default None (lit "web") None (lit "c1") None fresh_tcp tt
      (setup_done ++ [ListenerRegistered true] ++
       (InRelay <$> [Sample (lit "ab"); Take; WriteDone (Broken 1)])) s)
      as (taken & _ & H1 & H2); [vm_compute; reflexivity|] end.
  exists taken. split; [exact H1|exact H2].
Defined.

(** After an overflow the bus task may go on draining: with a one-sample buffer
    in byte-exact mode, three samples are delivered, the second overflows and trips
    the token, and the client is written the first and the third before the reset is
    acted on: a stream with a gap, although the mode promises none is delivered. *)
Theorem overflow_delivers_gap :
  exists s, example_run (with_rx_capacity 1 BridgeConfig_default) None
      (setup_done ++ [ListenerRegistered true] ++
       (InRelay <$> [Sample (lit "A"); Sample (lit "B"); Take; Sample (lit "C"); WriteDone Written;
                     Take; WriteDone Written; SeeCancelBus; ShutdownDone true; SeeCancelSocket]) ++
       [Join]) = Some s /\
    phase s = Returned (Ok WasReset) /\ wire (sink (relay s)) = lit "AC" /\
    half_closed (sink (relay s)) = true.
Proof. eexists. split; [vm_compute; reflexivity|]. done. Qed.
