(* ===== verification/RequestSetup.v ===== *)
(** * RequestSetup: the entities of one routed request ([src/import/multiroute.rs],
    the head of [run_exchange])

    Before [Multiroute.exchange_start], an exchange declares its liveliness token, its
    subscriber and its publisher within [read_timeout] and passes the publishing gate.
    Times are in milliseconds. *)

From S2P Require Import Prelude Text Config Dns KeySpace ZenohUtil Relay ImportBridge.

Inductive SetupError : Type :=
| InvalidKey (key : str)
| DeclareFailed (e : Entity)
| SetupTimedOut.

(** A fresh key per request on the same connection. *)
Definition sub_request_id (request_id uuid : str) : str := request_id ++ "_"%char :: uuid.

(** [format!("{}{}/rx/{}", service_name, dns_suffix, sub_request_id)], and so on. *)
Definition request_rx_key (s : str) (d : option str) (id : str) : str := s ++ dns_part d ++ lit "/rx/" ++ id.
Definition request_tx_key (s : str) (d : option str) (id : str) : str := s ++ dns_part d ++ lit "/tx/" ++ id.
Definition request_token_key (s : str) (d : option str) (id : str) : str := s ++ dns_part d ++ lit "/clients/" ++ id.

(** In the order of the set-up; the publisher keeps the default congestion control. *)
Definition request_entities (service_name : str) (route_dns : option str) (sub_id : str) : list Entity :=
  [LivelinessToken (request_token_key service_name route_dns sub_id);
   RxSubscriber (request_rx_key service_name route_dns sub_id);
   TxPublisher (request_tx_key service_name route_dns sub_id) false].

(** What the set-up block holds, and what is declared on the session. *)
Record Scope : Type := { locals : list Entity; on_session : list Entity }.

Definition declared_in (e : Entity) (o : Scope) : Scope :=
  {| locals := locals o ++ [e]; on_session := on_session o ++ [e] |}.

(** A dropped entity undeclares itself. *)
Definition drop_entity (e : Entity) (l : list Entity) : list Entity := filter (.≠ e) l.

(** Leaving the block early, by [?] or because the time-out drops it, drops what it
    holds, last first. *)
Definition drop_locals (o : Scope) : Scope :=
  {| locals := []; on_session := foldr drop_entity (on_session o) (locals o) |}.

(** Declaring one after the other, under one deadline: the result, when, and what is
    held and declared then. *)
Fixpoint declare_until (deadline now : N) (todo : list (Entity * Await)) (o : Scope)
    : result SetupError unit * N * Scope :=
  match todo with
  | [] => (Ok tt, now, o)
  | (e, a) :: todo' =>
      match await now a with
      | Some (ok, t) =>
          if (t <=? deadline)%N then
            if ok : bool then declare_until deadline t todo' (declared_in e o)
            else (Err (DeclareFailed e), t, drop_locals o)
          else (Err SetupTimedOut, deadline, drop_locals o)
      | None => (Err SetupTimedOut, deadline, drop_locals o)
      end
  end.

(** What the session does: the three declarations and the gate's queries. *)
Record SessionEnv : Type := {
  token_declared : Await;
  subscriber_declared : Await;
  publisher_declared : Await;
  matching : list Query;
}.

Definition declarations (entities : list Entity) (env : SessionEnv) : list (Entity * Await) :=
  zip entities [token_declared env; subscriber_declared env; publisher_declared env].

Section Setup.
(** [KeyExpr::try_from] *)
Context (key_valid : str -> bool) (config : BridgeConfig).

(** The result, the time, and the entities, on a session that has those of others. *)
Definition request_setup (service_name : str) (route_dns : option str) (sub_id : str) (now : N) (env : SessionEnv)
    (others : list Entity) : option (result SetupError GateEnd * N * Scope) :=
  let rx_key := request_rx_key service_name route_dns sub_id in
  let tx_key := request_tx_key service_name route_dns sub_id in
  let o := {| locals := []; on_session := others |} in
  if negb (key_valid rx_key) then Some (Err (InvalidKey rx_key), now, o)
  else if negb (key_valid tx_key) then Some (Err (InvalidKey tx_key), now, o)
  else
    match declare_until (now + read_timeout config) now
            (declarations (request_entities service_name route_dns sub_id) env) o with
    | (Err e, t, o) => Some (Err e, t, o)
    | (Ok _, t, o) =>
        '(g, t) ← await_matching_subscriber (reliability config) (availability_timeout config) t (matching env);
        Some (Ok g, t, o)
    end.

(** ** What it leaves *)

Lemma filter_keep (P : Entity -> Prop) `{forall x, Decision (P x)} l : Forall P l -> filter P l = l.
Proof using Type. induction 1 as [|x l Hx _ IH]; [done|]. by rewrite filter_cons_True, IH. Qed.

Lemma filter_drop (P : Entity -> Prop) `{forall x, Decision (P x)} l : Forall (fun x => ~ P x) l -> filter P l = [].
Proof using Type. induction 1 as [|x l Hx _ IH]; [done|]. by rewrite filter_cons_False. Qed.

Lemma drop_entities xs l : foldr drop_entity l xs = filter (.∉ xs) l.
Proof using Type.
  induction xs as [|x xs IH]; simpl.
  - rewrite filter_keep; [done|]. apply Forall_forall. intros ?? ?%not_elem_of_nil. done.
  - rewrite IH. unfold drop_entity. rewrite list_filter_filter. apply list_filter_iff. intros y. rewrite not_elem_of_cons. done.
Qed.

(** What the block holds is what it has added to the session. *)
Definition scoped (others : list Entity) (o : Scope) : Prop := on_session o = others ++ locals o.

Lemma drop_locals_scoped others o :
  scoped others o -> (forall e, e ∈ locals o -> e ∉ others) -> on_session (drop_locals o) = others.
Proof using Type.
  intros Ho Hd. simpl. rewrite drop_entities, Ho, filter_app, filter_keep.
  - rewrite filter_drop, app_nil_r; [done|]. apply Forall_forall. tauto.
  - apply Forall_forall. intros e He Hl. by apply (Hd e).
Qed.

Lemma declare_until_spec deadline now todo others o :
  (now <= deadline)%N -> scoped others o -> (forall e, e ∈ locals o ++ todo.*1 -> e ∉ others) ->
  let '(r, t, o') := declare_until deadline now todo o in
  (now <= t <= deadline)%N /\
  match r with
  | Ok _ => scoped others o' /\ locals o' = locals o ++ todo.*1
  | Err e => on_session o' = others /\ (e = SetupTimedOut -> t = deadline)
  end.
Proof using Type.
  revert now o. induction todo as [|[e a] todo IH]; intros now o Hn Ho Hd; simpl; [rewrite app_nil_r; split; [lia|done]|].
  assert (on_session (drop_locals o) = others) as Hdrop.
  { apply drop_locals_scoped; [done|]. intros x Hx. apply Hd, elem_of_app. by left. }
  destruct a as [[ok took]|]; simpl; [|split; [lia|done]].
  destruct (N.leb_spec (now + took) deadline); [|split; [lia|done]].
  destruct ok; [|split; [lia|done]].
  specialize (IH (now + took)%N (declared_in e o) ltac:(lia)).
  destruct (declare_until _ _ _ _) as [[r t] o']. destruct IH as [Ht Hr].
  - unfold scoped in *. simpl. by rewrite Ho, app_assoc.
  - simpl. by rewrite <- app_assoc.
  - split; [lia|]. destruct r; [|done]. simpl in Hr. by rewrite <- app_assoc in Hr.
Qed.

Lemma request_keys_agree s d id :
  request_rx_key s d id = import_rx_key s d id /\ request_tx_key s d id = import_tx_key s d id /\
  request_token_key s d id = import_token_key s d id.
Proof using Type.
  unfold request_rx_key, request_tx_key, request_token_key, import_rx_key, import_tx_key, import_token_key, scoped_key, dns_part.
  destruct d; simpl; by rewrite <- ?app_assoc.
Qed.

Lemma sub_request_id_segment r u : segment r -> segment u -> segment (sub_request_id r u).
Proof using Type.
  unfold segment, sub_request_id. rewrite elem_of_app, elem_of_cons. intros Hr Hu [|[|]]; try done.
Qed.

(** Two requests of one connection declare nothing in common, whichever hosts they are
    for. *)
Lemma requests_apart s d d' r u1 u2 e :
  scope_ok s d -> scope_ok s d' -> segment r -> segment u1 -> segment u2 -> u1 <> u2 ->
  e ∈ request_entities s d (sub_request_id r u1) -> e ∉ request_entities s d' (sub_request_id r u2).
Proof using Type.
  intros Hs Hs' Hr H1 H2 Hne Hin Hin'.
  pose proof (sub_request_id_segment r u1 Hr H1) as Hg1. pose proof (sub_request_id_segment r u2 Hr H2) as Hg2.
  pose proof literal_segments as (? & ? & ? & ? & ?).
  assert (sub_request_id r u1 = sub_request_id r u2 -> False) as Hid.
  { unfold sub_request_id. intros E%app_inv_head. by injection E. }
  unfold request_entities in *.
  destruct (request_keys_agree s d (sub_request_id r u1)) as (F1 & F2 & F3). rewrite F1, F2, F3 in Hin.
  destruct (request_keys_agree s d' (sub_request_id r u2)) as (E1 & E2 & E3). rewrite E1, E2, E3 in Hin'.
  rewrite !elem_of_cons in Hin, Hin'.
  assert (forall p, segment p -> scoped_key s d (p ++ sep :: sub_request_id r u1) = scoped_key s d' (p ++ sep :: sub_request_id r u2) -> False)
    as Hkey by (intros p Hp E; apply scoped_key_inj in E as (_ & _ & _ & E); auto).
  destruct Hin as [->|[->|[->|?%not_elem_of_nil]]]; [..|done];
    destruct Hin' as [[= E]|[[= E]|[[= E]|?%not_elem_of_nil]]]; try done.
  - by apply (Hkey (lit "clients")).
  - by apply (Hkey (lit "rx")).
  - by apply (Hkey (lit "tx")).
Qed.

(** ** Properties *)

End Setup.

(** ** Examples *)

(** A declaration that stalls, and a set-up of two seconds. *)
#[local] Notation stalled := {| token_declared := Some (true, 5%N); subscriber_declared := None;
  publisher_declared := Some (true, 0%N); matching := replicate 1001 Stalled |}.
#[local] Notation quick := {| token_declared := Some (true, 5%N); subscriber_declared := Some (true, 1000%N);
  publisher_declared := Some (true, 995%N); matching := [Answered (Some true) 3] |}.

(** Next to another request of the connection, for another host. *)
#[local] Notation other := (request_entities "web" (Some (lit "b.local")) (sub_request_id "c1" "u2")).


Example quick_setup :
  request_setup (fun _ => true) BridgeConfig_default "web" None "c1_u1" 0 quick [] =
  Some (Ok Attached, 2003%N, {| locals := request_entities "web" None "c1_u1"; on_session := request_entities "web" None "c1_u1" |}).
Proof. vm_compute. reflexivity. Qed.

(** Where it departs from the set-up of a whole connection: the token comes first, the
    publisher may drop under congestion in stream mode, and nothing listens for the
    exporter's error signal. *)
Example unlike_a_connection service_name d id :
  head (request_entities service_name d id) = Some (LivelinessToken (request_token_key service_name d id)) /\
  last (setup_entities Stream service_name d id) = Some (LivelinessToken (import_token_key service_name d id)) /\
  TxPublisher (import_tx_key service_name d id) true ∈ setup_entities Stream service_name d id /\
  TxPublisher (request_tx_key service_name d id) true ∉ request_entities service_name d id /\
  forall k, ErrorSubscriber k ∉ request_entities service_name d id.
Proof. unfold request_entities, setup_entities. split_and!; try done; set_solver. Qed.
