(* ===== verification/ExportBridge.v ===== *)
(** * ExportBridge: one exported client, from dial to outcome ([fold_outcome],
    [handle_client_bridge], [run_bridge] and [run_client] of [src/export/bridge.rs])

    [handle_client_bridge] is the mirror image of the import's function: it declares
    two Zenoh entities and the miss listener, spawns the two relay tasks and the task
    that turns the dispatcher's cancel message into a tripped token, and folds the
    ends of the two directions into an outcome.  [run_client] wraps it in the dial
    and in the error signal. *)

From S2P Require Import Prelude Text Config Backpressure Transport Relay.

(** ** Outcomes *)

Inductive ConnectionOutcome : Type := Completed | Reset | Failed.

#[export] Instance ConnectionOutcome_eq_dec : EqDecision ConnectionOutcome.
Proof. solve_decision. Defined.

Definition failed_end (e : option DirectionEnd) : bool :=
  match e with None | Some Error => true | _ => false end.

Definition reset_end (e : option DirectionEnd) : bool :=
  match e with Some Relay.Reset => true | _ => false end.

Definition fold_outcome (b2z z2b : option DirectionEnd) : ConnectionOutcome :=
  let ends := [b2z; z2b] in
  if existsb failed_end ends then Failed
  else if existsb reset_end ends then Reset
  else Completed.

(** The value a task joins with; an aborted one does not join cleanly. *)
Definition bus_end (t : BusTask) : option DirectionEnd :=
  match t with BDone e => Some e | _ => None end.

Definition socket_end (t : SocketTask) : option DirectionEnd :=
  match t with SDone e => Some e | _ => None end.

(** ** [handle_client_bridge] *)

Inductive BridgeError : Type := BridgeSetupFailed (stage : nat) | BridgeSetupTimeout.

Inductive BridgePhase : Type :=
| BridgeSetup
| BridgeRelaying
| BridgeReturned (res : result BridgeError ConnectionOutcome).

(** [stage]: the declarations of the setup block made so far (subscriber, publisher
    and, in byte-exact mode, the miss listener); [cancel_sent]: the dispatcher's
    message is in the cancel channel; [ext_waiting]: the task that receives it. *)
Record Bridge {M : Mpsc bytes} {W : Type} : Type := {
  b_phase : BridgePhase;
  stage : nat;
  cancel_sent : bool;
  ext_waiting : bool;
  b_relay : Relay W unit;
}.
Arguments Bridge {M} W.

Inductive BridgeEvent : Type :=
| BridgeDeclare (ok : bool)
| BridgeSetupDeadline
| CancelMessage                  (** the dispatcher sends on the cancel channel *)
| ExtReceives                    (** the external-teardown task takes it *)
| BridgeRelay (e : RelayEvent)
| BridgeJoin.

Section Bridge.
Context {M : Mpsc bytes} {W : Type} {TW : TransportWriter W}.
Context (config : BridgeConfig).
Implicit Types b : Bridge W.

Abbreviation mode := (reliability config).

Definition setup_stages : nat := if decide (mode = Stream) then 3 else 2.

Definition set_bridge_phase (p : BridgePhase) b : Bridge W :=
  {| b_phase := p; stage := stage b; cancel_sent := cancel_sent b;
     ext_waiting := ext_waiting b; b_relay := b_relay b |}.

Definition set_bridge_relay (r : Relay W unit) b : Bridge W :=
  {| b_phase := b_phase b; stage := stage b; cancel_sent := cancel_sent b;
     ext_waiting := ext_waiting b; b_relay := r |}.

Definition bridge_init (cancel : bool) (w : W) : Bridge W :=
  {| b_phase := BridgeSetup; stage := 0; cancel_sent := cancel; ext_waiting := false;
     b_relay := relay_init (N.to_nat (rx_channel_capacity config)) w tt |}.

(** One declaration; the third is the miss listener.  The last one starts the tasks. *)
Definition on_bridge_declare (ok : bool) b : Bridge W :=
  if ok then
    let n := S (stage b) in
    {| b_phase := if decide (n = setup_stages) then BridgeRelaying else BridgeSetup;
       stage := n; cancel_sent := cancel_sent b;
       ext_waiting := bool_decide (n = setup_stages);
       b_relay := if decide (n = 3) then listen_misses (b_relay b) else b_relay b |}
  else set_bridge_phase (BridgeReturned (Err (BridgeSetupFailed (stage b)))) b.

Definition on_ext b : option (Bridge W) :=
  if ext_waiting b && cancel_sent b then
    Some {| b_phase := b_phase b; stage := stage b; cancel_sent := false; ext_waiting := false;
            b_relay := reset (b_relay b) |}
  else None.

Definition bridge_outcome b : ConnectionOutcome :=
  fold_outcome (socket_end (socket_task (b_relay b))) (bus_end (bus_task (b_relay b))).

Definition on_bridge_join b : option (Bridge W) :=
  if relay_over (b_relay b)
  then Some {| b_phase := BridgeReturned (Ok (bridge_outcome b)); stage := stage b;
               cancel_sent := cancel_sent b; ext_waiting := false; b_relay := b_relay b |}
  else None.

Definition bridge_relay_enabled (e : RelayEvent) b : bool :=
  match b_phase b with
  | BridgeReturned _ => false
  | BridgeRelaying => match e with Trip | ListenMisses => false | _ => true end
  | BridgeSetup => match e with Sample _ | Miss | SessionGone => 0 <? stage b | _ => false end
  end.

Definition bridge_step b (e : BridgeEvent) : option (Bridge W) :=
  match b_phase b, e with
  | BridgeReturned _, _ => None
  | BridgeSetup, BridgeDeclare ok => Some (on_bridge_declare ok b)
  | BridgeSetup, BridgeSetupDeadline =>
      Some (set_bridge_phase (BridgeReturned (Err BridgeSetupTimeout)) b)
  | BridgeRelaying, ExtReceives => on_ext b
  | BridgeRelaying, BridgeJoin => on_bridge_join b
  | _, CancelMessage =>
      if cancel_sent b then None
      else Some {| b_phase := b_phase b; stage := stage b; cancel_sent := true;
                   ext_waiting := ext_waiting b; b_relay := b_relay b |}
  | _, BridgeRelay e =>
      if bridge_relay_enabled e b then
        r ← relay_step mode None (b_relay b) e; Some (set_bridge_relay r b)
      else None
  | _, _ => None
  end.
End Bridge.

(** ** [run_bridge] and [run_client] *)

(** Whether the bridge ended cleanly. *)
Definition run_bridge (res : result BridgeError ConnectionOutcome) : bool :=
  match res with Ok Completed => true | _ => false end.

Inductive ClientPhase {M : Mpsc bytes} {W : Type} : Type :=
| Dialing (cancel : bool)               (** in the dial's [select!] *)
| Bridging (b : Bridge W)
| Signalling                            (** in [publish_error_signal] *)
| RemovingSelf
| ClientGone.
Arguments ClientPhase {M} W.

(** What the dial and the bridge came to. *)
Inductive ClientResult : Type :=
| NoResult
| DialAborted
| DialFailed
| BridgeEnded (res : result BridgeError ConnectionOutcome).

(** The task, its result so far, and whether the error signal it published, if it
    did, was put. *)
Record Client {M : Mpsc bytes} {W : Type} : Type := {
  c_phase : ClientPhase W;
  c_result : ClientResult;
  signalled : option bool;
}.
Arguments Client {M} W.

Inductive ClientEvent {W : Type} : Type :=
| DialDone (dialed : option W)          (** the backend's writer, or the dial's failure *)
| DialCancelled
| ClientCancel                          (** the dispatcher's message *)
| InBridge (e : BridgeEvent)
| BridgeResult
| SignalDone (ok : bool)
| RemoveSelf.
Arguments ClientEvent W : clear implicits.

Section RunClient.
Context {M : Mpsc bytes} {W : Type} {TW : TransportWriter W}.
Context (config : BridgeConfig).
Implicit Types c : Client W.

Definition client_init : Client W := {| c_phase := Dialing false; c_result := NoResult; signalled := None |}.

Definition set_client (p : ClientPhase W) c : Client W :=
  {| c_phase := p; c_result := c_result c; signalled := signalled c |}.

Definition with_result (p : ClientPhase W) (res : ClientResult) c : Client W :=
  {| c_phase := p; c_result := res; signalled := signalled c |}.

(** [signal_error]: anything but a clean completion. *)
Definition after_bridge (res : result BridgeError ConnectionOutcome) c : Client W :=
  let signal_error := negb (run_bridge res) in
  with_result (if signal_error then Signalling else RemovingSelf) (BridgeEnded res) c.

Definition run_client c (e : ClientEvent W) : option (Client W) :=
  match c_phase c, e with
  | Dialing cancel, DialDone (Some w) => Some (set_client (Bridging (bridge_init config cancel w)) c)
  | Dialing _, DialDone None => Some (with_result Signalling DialFailed c)
  | Dialing true, DialCancelled => Some (with_result RemovingSelf DialAborted c)
  | Dialing false, ClientCancel => Some (set_client (Dialing true) c)
  | Bridging b, ClientCancel =>
      Some (match bridge_step config b CancelMessage with
            | Some b' => set_client (Bridging b') c
            | None => c
            end)
  | Bridging _, InBridge CancelMessage => None
  | Bridging b, InBridge e => b' ← bridge_step config b e; Some (set_client (Bridging b') c)
  | Bridging b, BridgeResult =>
      match b_phase b with BridgeReturned res => Some (after_bridge res c) | _ => None end
  | Signalling, SignalDone ok => 
      Some {| c_phase := RemovingSelf; c_result := c_result c; signalled := Some ok |}
  | RemovingSelf, RemoveSelf => Some (set_client ClientGone c)
  | Signalling, ClientCancel | RemovingSelf, ClientCancel | ClientGone, ClientCancel => Some c
  | _, _ => None
  end.
End RunClient.

(** What a cancelled task does by itself, whatever the backend, the bus and the client do:
    the dial's cancel arm, the end of the set-up's time, the external-teardown task, the
    watchdog's aborts, the join, and what follows the bridge. *)
Definition teardown_step (e : BridgeEvent) : Prop :=
  match e with
  | BridgeSetupDeadline | ExtReceives | BridgeJoin
  | BridgeRelay (AbortBus _ _) | BridgeRelay (AbortSocket _) => True
  | _ => False
  end.

Definition cancel_step {W} (e : ClientEvent W) : Prop :=
  match e with
  | DialCancelled | BridgeResult | SignalDone _ | RemoveSelf => True
  | InBridge e => teardown_step e
  | _ => False
  end.

(** ** Invariants *)

(** The relay's own events among a bridge's. *)
Definition bridge_relay_event (e : BridgeEvent) : list RelayEvent :=
  match e with BridgeRelay e => [e] | _ => [] end.

Definition bridge_relay_events (es : list BridgeEvent) : list RelayEvent :=
  concat (bridge_relay_event <$> es).

(** *** Outcomes *)

Lemma fold_outcome_Completed x y : fold_outcome x y = Completed <-> x = Some Eof /\ y = Some Eof.
Proof. destruct x as [[]|], y as [[]|]; simpl; split; naive_solver. Qed.

Lemma fold_outcome_Failed x y :
  fold_outcome x y = Failed <-> x ∈ [None; Some Error] \/ y ∈ [None; Some Error].
Proof. destruct x as [[]|], y as [[]|]; unfold fold_outcome; simpl; split; try done; set_solver. Qed.

Lemma fold_outcome_comm x y : fold_outcome x y = fold_outcome y x.
Proof. by destruct x as [[]|], y as [[]|]. Qed.

Section Invariants.
Context {M : Mpsc bytes} {L : MpscLaws M} {W : Type}.
Context {TW : TransportWriter W} {TL : TransportWriterLaws TW}.
Context (config : BridgeConfig) (cancel0 : bool) (w0 : W).
Implicit Types b : Bridge W.

Abbreviation mode := (reliability config).
Abbreviation step := (bridge_step (TW := TW) config).
Abbreviation init := (bridge_init (M := M) config cancel0 w0).
Abbreviation relay_cap := (N.to_nat (rx_channel_capacity config)).
Abbreviation relay_run es := (run (relay_step mode None) (relay_init (M := M) relay_cap w0 tt) es).

Lemma bridge_relay_events_snoc es e :
  bridge_relay_events (es ++ [e]) = bridge_relay_events es ++ bridge_relay_event e.
Proof. unfold bridge_relay_events. rewrite fmap_app. apply concat_snoc. Qed.

(** One step of the bridge is at most one of its relay; a declaration and the
    cancel message add events that carry no data. *)
Lemma bridge_step_relay b e b' :
  step b e = Some b' ->
  exists res, run (relay_step mode None) (b_relay b) res = Some (b_relay b') /\
    samples res = samples (bridge_relay_event e) /\ reads res = reads (bridge_relay_event e).
Proof using Type.
  unfold bridge_step. intros Hs.
  destruct e as [ok| | | |e|]; destruct (b_phase b); try done; simpl.
  - simplify_eq. unfold on_bridge_declare. destruct ok; [|by exists []]. simpl.
    case_decide; [by exists [ListenMisses]|by exists []].
  - simplify_eq. by exists [].
  - exists []. destruct (cancel_sent b); by simplify_eq.
  - exists []. destruct (cancel_sent b); by simplify_eq.
  - exists [Trip]. unfold on_ext in Hs. destruct (ext_waiting b && cancel_sent b); by simplify_eq.
  - exists [e]. destruct (bridge_relay_enabled e b); [|done].
    apply bind_Some in Hs as (r & Hr & [= <-]). simpl. by rewrite Hr.
  - exists [e]. destruct (bridge_relay_enabled e b); [|done].
    apply bind_Some in Hs as (r & Hr & [= <-]). simpl. by rewrite Hr.
  - exists []. unfold on_bridge_join in Hs. destruct (relay_over (b_relay b)); by simplify_eq.
Qed.

Lemma bridge_relay_run es b :
  run step init es = Some b ->
  exists res, relay_run res = Some (b_relay b) /\
    samples res = samples (bridge_relay_events es) /\ reads res = reads (bridge_relay_events es).
Proof using Type.
  apply (run_history_invariant step (fun es b => exists res, relay_run res = Some (b_relay b) /\
    samples res = samples (bridge_relay_events es) /\ reads res = reads (bridge_relay_events es))).
  { by exists []. }
  intros es' b' e b'' _ (res & Hr & H1 & H2) Hs.
  apply bridge_step_relay in Hs as (res' & Hr' & H1' & H2'). exists (res ++ res').
  rewrite run_app, Hr. rewrite !samples_app, !reads_app, bridge_relay_events_snoc, samples_app,
    reads_app, H1, H2, H1', H2'. done.
Qed.

(** What a returned bridge says. *)
Definition returned_inv b : Prop :=
  forall o, b_phase b = BridgeReturned (Ok o) -> relay_over (b_relay b) = true /\ o = bridge_outcome b.

Lemma run_returned es b : run step init es = Some b -> returned_inv b.
Proof using Type.
  apply (run_invariant step returned_inv); [done|].
  intros b0 e b1 _ Hs o Ho. unfold bridge_step in Hs.
  destruct e as [ok| | | |e|]; destruct (b_phase b0) eqn:E; try done;
    unfold on_bridge_declare, on_ext, on_bridge_join in Hs; repeat case_match; simplify_eq/=;
    try congruence; try (apply bind_Some in Hs as (r & _ & [= <-]); simpl in Ho; congruence).
  by split.
Qed.

Lemma completed_ends es b :
  run step init es = Some b -> b_phase b = BridgeReturned (Ok Completed) ->
  bus_task (b_relay b) = BDone Eof /\ socket_task (b_relay b) = SDone Eof.
Proof using Type.
  intros Hr E. destruct (run_returned es b Hr _ E) as [_ Ho]. symmetry in Ho.
  apply fold_outcome_Completed in Ho as [H1 H2].
  destruct (bus_task (b_relay b)), (socket_task (b_relay b)); simpl in *; naive_solver.
Qed.

(** The external-teardown task waits until it has tripped the token. *)
Definition ext_inv b : Prop :=
  b_phase b = BridgeRelaying -> ext_waiting b = false -> cancelled (rxs (b_relay b)) = true.

Lemma ext_inv_step b e b' : ext_inv b -> step b e = Some b' -> ext_inv b'.
Proof using Type.
  intros Hi Hs Hp Hx. pose proof (bridge_step_relay b e b' Hs) as (res & Hr & _).
  pose proof (run_cancelled _ _ _ _ _ Hr) as Hm.
  unfold bridge_step in Hs. destruct e as [ok| | | |e|]; destruct (b_phase b) eqn:E; try done;
    unfold on_bridge_declare, on_ext, on_bridge_join in Hs; repeat case_match; simplify_eq/=;
    try (apply bind_Some in Hs as (r & _ & [= <-]); simpl in *); try congruence;
    try (by apply Hm, Hi).
  all: by apply bool_decide_eq_false in Hx.
Qed.

Lemma run_ext es b : run step init es = Some b -> ext_inv b.
Proof using Type. apply (run_invariant step ext_inv); [done|]. intros ???. apply ext_inv_step. Qed.

(** *** A bridge whose token is tripped returns *)

Lemma bridge_relay_step b e r :
  b_phase b = BridgeRelaying -> e <> Trip -> e <> ListenMisses ->
  relay_step mode None (b_relay b) e = Some r -> step b (BridgeRelay e) = Some (set_bridge_relay r b).
Proof using Type.
  intros E H1 H2 Hr. unfold bridge_step, bridge_relay_enabled. rewrite E. destruct e; try done; by rewrite Hr.
Qed.

Lemma bridge_relay_lift es b r :
  b_phase b = BridgeRelaying -> Forall (fun e => e <> Trip /\ e <> ListenMisses) es ->
  run (relay_step mode None) (b_relay b) es = Some r ->
  run step b (BridgeRelay <$> es) = Some (set_bridge_relay r b).
Proof using Type.
  revert b. induction es as [|e es IH]; intros b E Hf Hr.
  - simpl in *. simplify_eq. by destruct b.
  - apply Forall_cons in Hf as [[H1 H2] Hf]. simpl in Hr. apply bind_Some in Hr as (r1 & Hr1 & Hr).
    simpl. rewrite (bridge_relay_step b e r1) by done. by apply (IH (set_bridge_relay r1 b)).
Qed.

Lemma tripped_bridge_returns b :
  b_phase b = BridgeRelaying -> cancelled (rxs (b_relay b)) = true ->
  exists es b' o, run step b es = Some b' /\ length es <= 3 /\ b_phase b' = BridgeReturned (Ok o) /\
    Forall teardown_step es.
Proof using Type.
  intros E Hc. destruct (cancelled_can_finish mode None (b_relay b) Hc) as (r & Hr & Ho).
  exists ((BridgeRelay <$> aborts (b_relay b)) ++ [BridgeJoin]).
  rewrite run_app, (bridge_relay_lift _ b r); [|done| |done].
  - do 2 eexists. split_and!.
    + simpl. unfold bridge_step. simpl. rewrite E. unfold on_bridge_join. simpl. by rewrite Ho.
    + rewrite length_app, length_fmap. unfold aborts. do 2 case_match; simpl; lia.
    + done.
    + apply Forall_app. split; [|by constructor]. unfold aborts. do 2 case_match; by repeat constructor.
  - unfold aborts. do 2 case_match; by repeat constructor.
Qed.

(** The cancel has reached the bridge: its message is in the channel, or the token is
    tripped. *)
Definition bridge_going b : Prop :=
  match b_phase b with
  | BridgeSetup => cancel_sent b = true
  | BridgeRelaying => cancel_sent b = true \/ cancelled (rxs (b_relay b)) = true
  | BridgeReturned _ => True
  end.

Lemma bridge_going_step b e b' : bridge_going b -> step b e = Some b' -> bridge_going b'.
Proof using Type.
  intros Hg Hs. pose proof (bridge_step_relay b e b' Hs) as (res & Hr & _).
  pose proof (run_cancelled _ _ _ _ _ Hr) as Hm. unfold bridge_going in *.
  unfold bridge_step in Hs. destruct (b_phase b) eqn:E; [| |done]; destruct e as [[]| | | |e|]; try done;
    unfold on_bridge_declare, on_ext, on_bridge_join in Hs; repeat case_match; simplify_eq/=;
    try (apply bind_Some in Hs as (r & _ & [= <-]); simpl in * ); try congruence; try done; try (by left); try (by right).
  all: destruct Hg as [Hg|Hg]; [by left|right; by apply Hm].
Qed.

Lemma cancelled_bridge_returns b :
  ext_inv b -> bridge_going b ->
  exists es b' res, run step b es = Some b' /\ length es <= 4 /\ b_phase b' = BridgeReturned res /\
    Forall teardown_step es.
Proof using Type.
  unfold bridge_going. intros Hx Hg. destruct (b_phase b) as [| |res] eqn:E.
  - exists [BridgeSetupDeadline]. simpl. unfold bridge_step. rewrite E. simpl.
    do 2 eexists. split_and!; [done|lia|done|by repeat constructor].
  - destruct (cancelled (rxs (b_relay b))) eqn:Ec.
    { destruct (tripped_bridge_returns b E Ec) as (es & b' & o & Hr & Hl & Hp & Hf).
      exists es, b', (Ok o). split_and!; [done|lia|done|done]. }
    destruct Hg as [Hc|Hc]; [|done]. destruct (ext_waiting b) eqn:Ew; [|by rewrite (Hx E Ew) in Ec].
    destruct (tripped_bridge_returns {| b_phase := b_phase b; stage := stage b;
      cancel_sent := false; ext_waiting := false; b_relay := reset (b_relay b) |})
      as (es & b' & o & Hr & Hl & Hp & Hf); [done|done|].
    exists (ExtReceives :: es), b', (Ok o). split_and!; [|simpl; lia|done|by constructor].
    assert (step b ExtReceives = on_ext b) as Hs by (unfold bridge_step; by rewrite E).
    simpl. rewrite Hs. unfold on_ext. rewrite Ew, Hc. exact Hr.
  - exists [], b, res. split_and!; [done|simpl; lia|done|done].
Qed.
End Invariants.

(** ** One client's task *)
Section ClientTask.
Context {M : Mpsc bytes} {L : MpscLaws M} {W : Type}.
Context {TW : TransportWriter W} {TL : TransportWriterLaws TW}.
Context (config : BridgeConfig).
Implicit Types c : Client W.

Abbreviation cstep := (run_client (TW := TW) config).

(** The results that need no error signal. *)
Definition silent_result (r : ClientResult) : bool :=
  match r with DialAborted => true | BridgeEnded res => run_bridge res | _ => false end.

Definition client_inv c : Prop :=
  match c_phase c with
  | Dialing _ | Bridging _ => c_result c = NoResult /\ signalled c = None
  | Signalling => silent_result (c_result c) = false /\ c_result c <> NoResult /\ signalled c = None
  | RemovingSelf | ClientGone =>
      c_result c <> NoResult /\ (signalled c = None <-> silent_result (c_result c) = true)
  end.

(** The bridge inside the task keeps its invariant. *)
Definition client_ext_inv c : Prop :=
  match c_phase c with Bridging b => ext_inv b | _ => True end.

Lemma client_inv_step c e c' : client_inv c -> cstep c e = Some c' -> client_inv c'.
Proof using Type.
  unfold client_inv. intros Hi Hs. unfold run_client in Hs. destruct (c_phase c) as [cc|b| | |] eqn:E.
  - destruct Hi as [Hr Hg]. destruct e as [[w|]| | | | | |]; destruct cc; simplify_eq; simpl; auto.
    all: by rewrite Hg.
  - destruct Hi as [Hr Hg].
    assert ((exists b', c' = set_client (Bridging b') c) \/ c' = c \/
            exists res, c' = after_bridge res c) as [(b' & ->)|[->|(res & ->)]].
    { destruct e as [[w|]| | |[]| | |]; try done;
        try (apply bind_Some in Hs as (b' & _ & [= <-]); eauto).
      - case_match; simplify_eq; eauto.
      - destruct (b_phase b); simplify_eq; eauto. }
    + done.
    + by rewrite E.
    + unfold after_bridge. destruct (run_bridge res) eqn:Er; simpl; rewrite ?Er, ?Hg; naive_solver.
  - destruct Hi as (Hr & Hn & Hg). destruct e; simplify_eq; simpl; rewrite ?E; [auto|].
    split; [done|]. rewrite Hr. done.
  - destruct e; simplify_eq; simpl; rewrite ?E; done.
  - destruct e; simplify_eq; simpl; rewrite ?E; done.
Qed.

(** A step from the bridging phase is one of the bridge, its end, or nothing. *)
Lemma bridging_step c b e c' :
  c_phase c = Bridging b -> cstep c e = Some c' ->
  (exists e' b', bridge_step config b e' = Some b' /\ c' = set_client (Bridging b') c) \/ c' = c \/
  exists res, b_phase b = BridgeReturned res /\ c' = after_bridge res c.
Proof using Type.
  intros E Hs. unfold run_client in Hs. rewrite E in Hs.
  destruct e as [[w|]| | |e| |ok|]; try done.
  - destruct (bridge_step config b CancelMessage) as [b'|] eqn:Eb; simplify_eq; eauto 6.
  - left. destruct e; try done; apply bind_Some in Hs as (b' & ? & [= <-]); eauto.
  - destruct (b_phase b) as [| |res]; simplify_eq. eauto 6.
Qed.

Lemma after_bridge_phase res c :
  c_phase (after_bridge (M := M) (W := W) res c) = if run_bridge res then RemovingSelf else Signalling.
Proof. unfold after_bridge. simpl. by destruct (run_bridge res). Qed.

Lemma client_ext_step c e c' : client_ext_inv c -> cstep c e = Some c' -> client_ext_inv c'.
Proof using Type.
  unfold client_ext_inv. intros Hi Hs. destruct (c_phase c) as [cc|b| | |] eqn:E.
  2:{ apply (bridging_step c b) in Hs as [(e' & b' & Hb & ->)|[->|(res & _ & ->)]]; [| | |done].
      - simpl. by eapply ext_inv_step.
      - by rewrite E.
      - rewrite after_bridge_phase. by destruct (run_bridge res). }
  all: unfold run_client in Hs; rewrite E in Hs; destruct e as [[w|]| | |e| |ok|]; try done;
    try (destruct cc); simplify_eq; simpl; rewrite ?E; done.
Qed.

Lemma run_client_inv es c :
  run cstep client_init es = Some c -> client_inv c /\ client_ext_inv c.
Proof using Type.
  apply (run_invariant cstep (fun c => client_inv c /\ client_ext_inv c)); [done|].
  intros c0 e c1 [H1 H2] Hs. split; [by eapply client_inv_step|by eapply client_ext_step].
Qed.

(** Whether the dispatcher's cancel has reached the task and is not yet spent. *)
Definition cancel_pending c : Prop :=
  match c_phase c with
  | Dialing cancel => cancel = true
  | Bridging b => match b_phase b with BridgeReturned _ => True | _ => cancel_sent b = true end
  | _ => True
  end.

(** It has reached the task, which has acted on it or will. *)
Definition going c : Prop :=
  match c_phase c with Dialing cancel => cancel = true | Bridging b => bridge_going b | _ => True end.

Lemma cancel_pending_going c : cancel_pending c -> going c.
Proof using Type.
  unfold cancel_pending, going, bridge_going. destruct (c_phase c) as [|b| | |]; try done. destruct (b_phase b); auto.
Qed.

Lemma going_step c e c' : going c -> cstep c e = Some c' -> going c'.
Proof using Type.
  unfold going. intros Hg Hs. destruct (c_phase c) as [cc|b| | |] eqn:E.
  2:{ apply (bridging_step c b) in Hs as [(e' & b' & Hb & ->)|[->|(res & _ & ->)]]; [| | |done].
      - simpl. by eapply bridge_going_step.
      - by rewrite E.
      - rewrite after_bridge_phase. by destruct (run_bridge res). }
  all: unfold run_client in Hs; rewrite E in Hs; destruct e as [[w|]| | |e| |ok|]; try done;
    try (destruct cc); simplify_eq; simpl; rewrite ?E; done.
Qed.

Lemma in_bridge_run es b b' c :
  c_phase c = Bridging b -> Forall teardown_step es ->
  run (bridge_step config) b es = Some b' ->
  run cstep c (InBridge <$> es) = Some (set_client (Bridging b') c).
Proof using Type.
  revert b c. induction es as [|e es IH]; intros b c E Hf Hr.
  - simpl in *. simplify_eq. destruct c. simpl in E. by rewrite <- E.
  - apply Forall_cons in Hf as [H1 Hf]. simpl in Hr. apply bind_Some in Hr as (b1 & Hb & Hr).
    assert (cstep c (InBridge e) = Some (set_client (Bridging b1) c)) as Hs.
    { unfold run_client. rewrite E. destruct e; try done; by rewrite Hb. }
    simpl. rewrite Hs. by apply (IH b1 (set_client (Bridging b1) c)).
Qed.

(** From the end of the bridge on, the task runs to its end by itself. *)
Lemma finish_from c :
  match c_phase c with Dialing _ | Bridging _ => False | _ => True end ->
  exists es c', run cstep c es = Some c' /\ length es <= 2 /\ c_phase c' = ClientGone /\ Forall cancel_step es.
Proof using Type.
  intros Hp. destruct (c_phase c) eqn:E; try done.
  - exists [SignalDone true; RemoveSelf].
    assert (cstep c (SignalDone true) =
      Some {| c_phase := RemovingSelf; c_result := c_result c; signalled := Some true |}) as Hs
      by (unfold run_client; by rewrite E).
    simpl. rewrite Hs. simpl. eexists. split_and!; [done|lia|done|by repeat constructor].
  - exists [RemoveSelf].
    assert (cstep c RemoveSelf = Some (set_client ClientGone c)) as Hs by (unfold run_client; by rewrite E).
    simpl. rewrite Hs. simpl. eexists. split_and!; [done|lia|done|by repeat constructor].
  - exists [], c. split_and!; [done|simpl; lia|done|done].
Qed.

Lemma finish_bridged c b res :
  c_phase c = Bridging b -> b_phase b = BridgeReturned res ->
  exists es c', run cstep c es = Some c' /\ length es <= 3 /\ c_phase c' = ClientGone /\ Forall cancel_step es.
Proof using Type.
  intros E Eb. destruct (finish_from (after_bridge res c)) as (es & c' & Hr & Hl & Hg & Hf).
  { rewrite after_bridge_phase. by destruct (run_bridge res). }
  exists (BridgeResult :: es), c'. split_and!; [|simpl; lia|done|by constructor].
  assert (cstep c BridgeResult = Some (after_bridge res c)) as Hs
    by (unfold run_client; by rewrite E, Eb).
  simpl. by rewrite Hs.
Qed.

(** A task that the cancel has reached ends by its own steps. *)
Lemma going_finishes c :
  client_ext_inv c -> going c ->
  exists es c', run cstep c es = Some c' /\ length es <= 7 /\ c_phase c' = ClientGone /\ Forall cancel_step es.
Proof using Type.
  intros Hx Hc. unfold going, client_ext_inv in *.
  destruct (c_phase c) as [cc|b| | |] eqn:E.
  2:{ destruct (cancelled_bridge_returns config b Hx Hc) as (es1 & b' & res & H1 & Hl & Hp & Hf).
      pose proof (in_bridge_run es1 b b' c E Hf H1) as H2.
      destruct (finish_bridged (set_client (Bridging b') c) b' res eq_refl Hp) as (es2 & c' & H3 & Hl2 & Hg & Hf2).
      exists ((InBridge <$> es1) ++ es2), c'. rewrite run_app, H2, length_app, length_fmap.
      split_and!; [done|lia|done|]. apply Forall_app. split; [|done]. by apply Forall_fmap. }
  1:{ subst cc. destruct (finish_from (with_result RemovingSelf DialAborted c)) as (es' & c' & H1 & Hl & Hg & Hf); [done|].
      exists (DialCancelled :: es'), c'. split_and!; [|simpl; lia|done|by constructor].
      assert (cstep c DialCancelled = Some (with_result RemovingSelf DialAborted c)) as Hs by (unfold run_client; by rewrite E).
      simpl. by rewrite Hs. }
  all: destruct (finish_from c) as (es' & c' & H1 & Hl & Hg & Hf); [by rewrite E|];
    exists es', c'; split_and!; [done|lia|done|done].
Qed.
End ClientTask.

(** ** Properties *)
Section Properties.
Context {M : Mpsc bytes} {L : MpscLaws M} {W : Type}.
Context {TW : TransportWriter W} {TL : TransportWriterLaws TW}.

(** C7: in byte-exact mode an exported connection reported as completed whose token
    was never tripped relayed both directions exactly: the backend was written the
    concatenation of every sample delivered before the client's end-of-stream
    marker and was half-closed after it; everything the backend sent was published
    in order, followed by the marker, after the backend ended its stream cleanly. *)
Theorem export_completed_exact config cancel (w : W) es (b : Bridge W) :
  reliability config = Stream ->
  run (bridge_step config) (bridge_init config cancel w) es = Some b ->
  b_phase b = BridgeReturned (Ok Completed) -> cancelled (rxs (b_relay b)) = false ->
  (exists up rest, samples (bridge_relay_events es) = up ++ [] :: rest /\ no_eof up /\
    wire (sink (b_relay b)) = wire w ++ concat up /\ half_closed (sink (b_relay b)) = true) /\
  (exists chunks, published (b_relay b) = chunks ++ [[]] /\ no_eof chunks /\
    reads (bridge_relay_events es) = published (b_relay b)).
Proof using L TL.
  intros Hm Hr E Hc. destruct (completed_ends _ _ _ _ _ Hr E) as [Hb Hs].
  apply bridge_relay_run in Hr as (res & Hr & <- & <-). split.
  - destruct (run_exact _ _ _ _ _ _ _ Hm Hr Hc) as (up & Hne & Hw & Hcase). rewrite Hb in Hcase.
    destruct Hcase as (Hh & rest & Hsam). by exists up, rest.
  - apply run_publish in Hr. unfold publish_inv in Hr. rewrite Hs in Hr.
    destruct Hr as (chunks & Hp & Hrd & Hne). by exists chunks.
Qed.

(** C9: in either mode and at every point, what an exporter published for a client
    is the first chunks read from the backend, unchanged and in order, and the
    end-of-stream marker is among them only as the last one, after the backend ended
    its stream cleanly and all of it was published: a backend that fails never looks
    complete to the client. *)
Theorem export_publishes_faithfully config cancel (w : W) es (b : Bridge W) :
  run (bridge_step config) (bridge_init config cancel w) es = Some b ->
  published (b_relay b) `prefix_of` reads (bridge_relay_events es) /\
  ([] ∈ published (b_relay b) -> published (b_relay b) = reads (bridge_relay_events es) /\
     exists chunks, published (b_relay b) = chunks ++ [[]] /\ no_eof chunks).
Proof using L TL.
  intros Hr. apply bridge_relay_run in Hr as (res & Hr & _ & <-).
  split; [by eapply run_published_prefix|]. intros Hin.
  destruct (run_published_eof _ _ _ _ _ _ _ Hr Hin) as (chunks & E1 & E2 & Hne). eauto.
Qed.

(** A client's task that has ended either published the error signal (whether
    or not the put succeeded) or needed none: its dial was cancelled by the client's
    own departure, or its bridge completed; and it never does both. *)
Theorem client_signals_unless_clean config es (c : Client W) :
  run (run_client config) client_init es = Some c -> c_phase c = ClientGone ->
  c_result c <> NoResult /\
  (signalled c = None <->
   c_result c = DialAborted \/ c_result c = BridgeEnded (Ok Completed)).
Proof using L TL.
  intros Hr E. destruct (run_client_inv _ _ _ Hr) as [Hi _]. unfold client_inv in Hi.
  rewrite E in Hi. destruct Hi as [Hn Hi]. split; [done|]. rewrite Hi.
  destruct (c_result c) as [| | |[[]|]]; simpl; naive_solver.
Qed.

(** C38: a client that leaves never leaves its task behind.  Once the dispatcher's cancel
    has reached the task, in whatever phase, and whatever the backend, the bus and the client
    do afterwards, the task can always end without them: at most seven steps of its own
    (the dial's cancel arm; or the external-teardown task's trip, the watchdog's aborts of
    both directions and the join; in the set-up, its time-out; then the error signal and
    the self-removal) leave nothing of it. *)
Theorem cancelled_client_finishes config es (c : Client W) es1 c1 :
  run (run_client config) client_init es = Some c -> cancel_pending c ->
  run (run_client config) c es1 = Some c1 ->
  exists es2 c2, run (run_client config) c1 es2 = Some c2 /\ Forall cancel_step es2 /\ length es2 <= 7 /\
    c_phase c2 = ClientGone.
Proof using L TL.
  intros Hr Hc Hr1. assert (run (run_client config) client_init (es ++ es1) = Some c1) as Hall by (by rewrite run_app, Hr).
  destruct (run_client_inv _ _ _ Hall) as [_ Hx].
  assert (going c1) as Hg.
  { revert es1 c1 Hr1 Hall Hx. intros es1 c1 Hr1 _ _. revert Hr1.
    apply (run_invariant (run_client config) going); [by apply cancel_pending_going|]. intros ???. apply going_step. }
  destruct (going_finishes config c1 Hx Hg) as (es2 & c2 & H1 & H2 & H3 & H4). by exists es2, c2.
Qed.
End Properties.

(** The outcome of a connection is completed exactly when both directions ended
    on a half-close, failed exactly when one failed or its task did not join, and
    the order of the directions does not matter. *)
Theorem fold_outcome_spec (b2z z2b : option DirectionEnd) :
  (fold_outcome b2z z2b = Completed <-> b2z = Some Eof /\ z2b = Some Eof) /\
  (fold_outcome b2z z2b = Failed <-> b2z ∈ [None; Some Error] \/ z2b ∈ [None; Some Error]) /\
  fold_outcome b2z z2b = fold_outcome z2b b2z.
Proof.
  split_and!; [apply fold_outcome_Completed|apply fold_outcome_Failed|apply fold_outcome_comm].
Qed.


(** ** Concrete runs *)

Definition fresh_backend : TcpWriter := {| tcp_wire := []; tcp_fin := false |}.

Definition declared_stream : list BridgeEvent :=
  [BridgeDeclare true; BridgeDeclare true; BridgeDeclare true].

Definition example_bridge (config : BridgeConfig) (es : list BridgeEvent)
    : option (Bridge (M := list_mpsc bytes) TcpWriter) :=
  run (bridge_step config) (bridge_init config false fresh_backend) es.

(** A request up, a reply down, both ends half-closed. *)
Definition served : list BridgeEvent :=
  declared_stream ++
  (BridgeRelay <$> [Sample (lit "ask"); Take; WriteDone Written; Sample []; Take; EofDone true;
                    Read (Ok (lit "answer")); PutDone true; Read (Ok []); PutDone true]) ++ [BridgeJoin].

Lemma export_completed_exact_witness :
  exists b, example_bridge BridgeConfig_default served = Some b /\
    b_phase b = BridgeReturned (Ok Completed) /\
    exists up rest, [lit "ask"; []] = up ++ [] :: rest /\ wire (sink (b_relay b)) = concat up.
Proof.
  eexists. split; [vm_compute; reflexivity|]. split; [reflexivity|].
  match goal with |- context [b_relay ?b] =>
    destruct (export_completed_exact (L := list_mpsc_laws bytes) (TL := tcp_writer_laws)
      BridgeConfig_default false fresh_backend served b) as [(up & rest & H1 & _ & H2 & _) _];
      [reflexivity|vm_compute; reflexivity|reflexivity|reflexivity|] end.
  exists up, rest. split; [exact H1|exact H2].
Defined.

Lemma export_publishes_faithfully_witness :
  exists b, example_bridge BridgeConfig_default
      (declared_stream ++ (BridgeRelay <$> [Read (Ok (lit "par")); PutDone true; Read (Err SocketError)]))
      = Some b /\ published (b_relay b) = [lit "par"] /\ ([] ∈ published (b_relay b) -> False).
Proof.
  eexists. split; [vm_compute; reflexivity|]. split; [reflexivity|].
  match goal with |- context [b_relay ?b] =>
    destruct (export_publishes_faithfully (L := list_mpsc_laws bytes) (TL := tcp_writer_laws)
      BridgeConfig_default false fresh_backend
      (declared_stream ++ (BridgeRelay <$> [Read (Ok (lit "par")); PutDone true; Read (Err SocketError)])) b)
      as [_ H]; [vm_compute; reflexivity|] end.
  intros Hin. destruct (H Hin) as (_ & chunks & E & Hne). by destruct chunks as [|x [|]].
Defined.

Definition example_client (es : list (ClientEvent TcpWriter)) : option (Client (M := list_mpsc bytes) TcpWriter) :=
  run (run_client BridgeConfig_default) client_init es.

Definition refused : list (ClientEvent TcpWriter) := [DialDone None; SignalDone true; RemoveSelf].

Lemma client_signals_unless_clean_witness :
  exists c, example_client refused = Some c /\ (signalled c = None -> False) /\ signalled c = Some true.
Proof.
  eexists. split; [vm_compute; reflexivity|]. split; [|reflexivity].
  match goal with |- signalled ?c = _ -> _ =>
    destruct (client_signals_unless_clean (L := list_mpsc_laws bytes) (TL := tcp_writer_laws)
      BridgeConfig_default refused c) as [_ H]; [vm_compute; reflexivity|reflexivity|] end.
  intros Hs. by destruct (proj1 H Hs) as [?|?].
Defined.

(** A backend that takes no more bytes when its client leaves. *)
Definition stalled : list (ClientEvent TcpWriter) :=
  [DialDone (Some fresh_backend); InBridge (BridgeDeclare true); InBridge (BridgeDeclare true);
   InBridge (BridgeDeclare true); InBridge (BridgeRelay (Sample (lit "x"))); InBridge (BridgeRelay Take);
   ClientCancel].

Definition still_reading : list (ClientEvent TcpWriter) := [InBridge (BridgeRelay (Read (Ok (lit "late"))))].

Lemma cancelled_client_finishes_witness :
  exists c c1, example_client stalled = Some c /\ run (run_client BridgeConfig_default) c still_reading = Some c1 /\
    exists es c2, run (run_client BridgeConfig_default) c1 es = Some c2 /\ Forall cancel_step es /\ c_phase c2 = ClientGone.
Proof.
  assert (match example_client stalled with
          | Some c => cancel_pending c /\ is_Some (run (run_client BridgeConfig_default) c still_reading) | None => False end) as H
    by (vm_compute; split; [reflexivity|eexists; reflexivity]).
  destruct (example_client stalled) as [c|] eqn:E; [|destruct H]. destruct H as [Hc [c1 Hc1]].
  exists c, c1. split; [reflexivity|]. split; [exact Hc1|].
  destruct (cancelled_client_finishes (L := list_mpsc_laws bytes) (TL := tcp_writer_laws)
    BridgeConfig_default stalled c still_reading c1 E Hc Hc1) as (es & c2 & H1 & Hf & _ & H2).
  exists es, c2. split; [exact H1|]. split; [exact Hf|exact H2].
Defined.

Definition small_buffer : BridgeConfig := {|
  buffer_size := 65536; reliability := Stream; max_connections := 1024; cache_size := 256;
  max_header_size := 16384; read_timeout := 10000; heartbeat_interval := 500;
  availability_timeout := 1000; drain_timeout := 5000; max_response_size := 10485760;
  response_idle_timeout := 30000; connect_timeout := 10000; rx_channel_capacity := 1;
|}%N.

(** The outcome does not look at the token.  With a one-sample buffer in
    byte-exact mode, a backend that has already half-closed, an overflowing upload and
    a bus task that keeps taking samples until the end-of-stream marker, the
    backend is written a request with a hole in it and half-closed, the bridge is
    reported as completed, and so no error signal is published. *)
Theorem export_completes_with_gap :
  exists b, example_bridge small_buffer
      (declared_stream ++
       (BridgeRelay <$> [Read (Ok []); PutDone true;
                         Sample (lit "A"); Sample (lit "B"); Take; Sample (lit "C"); WriteDone Written;
                         Take; Sample []; WriteDone Written; Take; EofDone true]) ++ [BridgeJoin]) = Some b /\
    b_phase b = BridgeReturned (Ok Completed) /\ run_bridge (Ok Completed) = true /\
    cancelled (rxs (b_relay b)) = true /\
    wire (sink (b_relay b)) = lit "AC" /\ half_closed (sink (b_relay b)) = true.
Proof. eexists. split; [vm_compute; reflexivity|]. done. Qed.

(** A reset ends the backend's stream like a clean half-close: after part of a
    request the client is gone, the token is tripped, and the shutdown of the
    writer sends the same FIN as the end-of-stream marker would, although the
    truncated request was deliberately given no such marker. *)
Theorem reset_half_closes_backend :
  exists b, example_bridge BridgeConfig_default
      (declared_stream ++
       (BridgeRelay <$> [Sample (lit "trunc"); Take; WriteDone Written]) ++ [CancelMessage; ExtReceives] ++
       (BridgeRelay <$> [SeeCancelBus; ShutdownDone true; SeeCancelSocket]) ++ [BridgeJoin]) = Some b /\
    b_phase b = BridgeReturned (Ok Reset) /\
    wire (sink (b_relay b)) = lit "trunc" /\ half_closed (sink (b_relay b)) = true.
Proof. eexists. split; [vm_compute; reflexivity|]. done. Qed.
