(* ===== verification/Meters.v ===== *)
(** * Meters: the relayed connections of a process on its one metrics registry
    (the calls of [conn_start], [add_up], [add_down] and [finish] in
    [src/import/bridge.rs] and [src/export/bridge.rs])

    [ImportBridge] and [ExportBridge] keep a connection's own counters; here is what each
    of their steps does to the registry that all connections of the process share, next to
    any number of others.  A connection whose task the shutdown aborts leaves the model
    with the process. *)

From S2P Require Import Prelude Text Config Backpressure Transport Relay Metrics ImportBridge ExportBridge.

(** ** A relay's counters against its wires *)
Section Relays.
Context {M : Mpsc bytes} {W T : Type} {TW : TransportWriter W} {TL : TransportWriterLaws TW}.
Context (mode : ReliabilityMode) (tap : option (bytes -> T -> T)).
Implicit Types r : Relay W T.

Definition size_of (b : bytes) : N := N.of_nat (length b).

(** What was written has been counted, and what is counted is written but for the chunk
    in hand, unless the direction ended otherwise than cleanly. *)
Definition out_counted (w0 : W) r : Prop :=
  (size_of (wire (sink r)) <= size_of (wire w0) + counted_out r)%N /\
  match bus_task r with
  | BIdle | BHalfClosing | BShutting | BDone Eof => size_of (wire (sink r)) = (size_of (wire w0) + counted_out r)%N
  | BWriting p => (size_of (wire (sink r)) + size_of p = size_of (wire w0) + counted_out r)%N
  | _ => True
  end.

(** And likewise what was published. *)
Definition in_counted r : Prop :=
  (size_of (concat (published r)) <= counted_in r)%N /\
  match socket_task r with
  | SIdle | SPuttingEof | SDone Eof => size_of (concat (published r)) = counted_in r
  | SPutting data => (size_of (concat (published r)) + size_of data = counted_in r)%N
  | _ => True
  end.

Lemma size_of_app (a b : bytes) : size_of (a ++ b) = (size_of a + size_of b)%N.
Proof using Type. unfold size_of. rewrite length_app. lia. Qed.

Lemma size_of_snoc (l : list bytes) (b : bytes) : size_of (concat (l ++ [b])) = (size_of (concat l) + size_of b)%N.
Proof using Type. by rewrite concat_snoc, size_of_app. Qed.

Lemma size_of_prefix (a b : bytes) : a `prefix_of` b -> (size_of a <= size_of b)%N.
Proof using Type. intros ?%prefix_length. unfold size_of. lia. Qed.

Lemma relay_init_counted cap (w : W) (t : T) : out_counted w (relay_init cap w t) /\ in_counted (relay_init cap w t).
Proof using Type. unfold out_counted, in_counted. simpl. split; (split; [|]); simpl; unfold size_of; simpl; lia. Qed.

Lemma out_counted_step w0 r e r' : out_counted w0 r -> relay_step mode tap r e = Some r' -> out_counted w0 r'.
Proof using TL.
  intros [Hle Hc] Hs.
  assert (forall r1 : Relay W T, counted_out r1 = counted_out r ->
    (size_of (wire (sink r1)) <= size_of (wire w0) + counted_out r)%N ->
    match bus_task r1 with BDone Error | BDone Relay.Reset | BAborted => True | _ => False end -> out_counted w0 r1) as Hend.
  { intros r1 Hcnt Hw Ht. unfold out_counted. rewrite Hcnt. split; [done|]. by destruct (bus_task r1) as [| | | |[]|]. }
  assert (forall (w : W) p, (size_of (wire (sink r)) + size_of p <= size_of (wire w0) + counted_out r)%N ->
    wire w `prefix_of` wire (sink r) ++ p -> (size_of (wire w) <= size_of (wire w0) + counted_out r)%N) as Hpre.
  { intros w p Hp Hw%size_of_prefix. rewrite size_of_app in Hw. lia. }
  destruct (bus_event e) eqn:He.
  2:{ destruct (socket_event_frame mode tap _ _ _ He Hs) as (Hb & Hk & _ & _ & Ho). unfold out_counted. by rewrite Hb, Hk, Ho. }
  destruct e as [p| | | | | | | |o|ok|ok| | | |o ok|]; try done; simpl in Hs.
  - destruct (session_gone r); [done|]. injection Hs as <-. by split.
  - unfold bus_step in Hs. destruct (bus_task r) eqn:E; try done. apply bind_Some in Hs as ([p c] & _ & [= <-]).
    unfold out_counted, on_sample. case_decide as Hp; simpl; [by split|]. fold (size_of p). split; [lia|]. rewrite Hc. lia.
  - unfold bus_step in Hs. destruct (bus_task r) eqn:E; try done. destruct (try_recv _); [done|].
    destruct (session_gone r); [|done]. injection Hs as <-. by apply Hend.
  - unfold bus_step in Hs. destruct (bus_task r) eqn:E; try done. destruct (cancelled _); [|done]. injection Hs as <-. by split.
  - unfold bus_step in Hs. destruct (bus_task r) as [|p| | | |] eqn:E; try done. injection Hs as <-. unfold on_written.
    destruct (write_data (sink r) p o) as [[u|err] w] eqn:Ew.
    + unfold out_counted. simpl. apply write_ok in Ew as ->. rewrite size_of_app. split; lia.
    + apply Hend; try done; simpl. apply write_any in Ew as [_ Ew]. eapply Hpre; [|exact Ew]. lia.
  - unfold bus_step in Hs. destruct (bus_task r) eqn:E; try done. injection Hs as <-. unfold on_half_closed.
    pose proof (eof_wire (sink r) ok) as Hw. destruct (send_eof (sink r) ok) as [[u|err] w]; simpl in Hw.
    + unfold out_counted. simpl. by rewrite Hw.
    + apply Hend; try done; simpl. by rewrite Hw.
  - unfold bus_step in Hs. destruct (bus_task r) eqn:E; try done. injection Hs as <-. unfold on_shutdown.
    apply Hend; try done; simpl. by rewrite shutdown_wire.
  - destruct (cancelled _); [|done]. unfold abort_bus in Hs. destruct (bus_task r) as [|p| | | |] eqn:E; try done; injection Hs as <-.
    + by apply Hend.
    + apply Hend; try done; simpl. destruct (write_data (sink r) p o) as [res w] eqn:Ew. apply write_any in Ew as [_ Ew].
      eapply Hpre; [|exact Ew]. lia.
    + apply Hend; try done; simpl. by rewrite eof_wire.
    + apply Hend; try done; simpl. by rewrite shutdown_wire.
Qed.

Lemma in_counted_step r e r' : in_counted r -> relay_step mode tap r e = Some r' -> in_counted r'.
Proof using Type.
  intros [Hle Hc] Hs. destruct (socket_event e) eqn:He.
  2:{ destruct (bus_event_frame mode tap _ _ _ He Hs) as (Hb & Hk & Hi). unfold in_counted. by rewrite Hb, Hk, Hi. }
  assert (size_of [] = 0%N) as Hz by done. unfold in_counted.
  destruct e as [| | | | | | | | | | |res| |ok| |ok]; try done; simpl in Hs.
  - unfold socket_step in Hs. destruct (socket_task r) eqn:E; try done. injection Hs as <-. unfold on_read.
    destruct res as [data|err]; [case_decide; simpl; rewrite ?Hc; fold (size_of data)|simpl; rewrite ?Hc];
      split; try done; lia.
  - unfold socket_step in Hs. destruct (socket_task r) eqn:E; try done. destruct (cancelled _); [|done]. by injection Hs as <-.
  - unfold socket_step in Hs. destruct (socket_task r) eqn:E; try done; injection Hs as <-;
      unfold on_put, on_put_eof; destruct ok; simpl; rewrite ?size_of_snoc; split; try done; lia.
  - destruct (cancelled _); [|done]. unfold abort_socket in Hs.
    destruct (socket_task r) eqn:E; try done; injection Hs as <-; simpl; destruct ok; rewrite ?size_of_snoc; split; try done; lia.
Qed.

Lemma counted_run w0 cap t es r :
  run (relay_step mode tap) (relay_init cap w0 t) es = Some r -> out_counted w0 r /\ in_counted r.
Proof using TL.
  apply (run_invariant (relay_step mode tap) (fun r => out_counted w0 r /\ in_counted r)); [apply relay_init_counted|].
  intros r0 e r1 [Ho Hi] Hs. split; [by eapply out_counted_step|by eapply in_counted_step].
Qed.
End Relays.

(** ** Connections and their registry *)
Section Process.
Context {M : Mpsc bytes} {W1 W2 T : Type} {TW1 : TransportWriter W1} {TW2 : TransportWriter W2}.
Context (config : BridgeConfig).

(** What an import connection was started with. *)
Record ImportArgs : Type := {
  ia_dns : option str;
  ia_client : str;
  ia_initial : option bytes;
  ia_tap : option (bytes -> T -> T);
  ia_writer : W1;
}.

Inductive Side : Type :=
| Importing (a : ImportArgs) (i : Import W1 T)
| Exporting (w : W2) (b : Bridge W2).

Record MeteredConn : Type := { c_service : str; c_side : Side }.

Inductive ConnEvent : Type := ByImport (e : ImportEvent) | ByExport (e : BridgeEvent).

Definition conn_step (c : MeteredConn) (e : ConnEvent) : option MeteredConn :=
  match c_side c, e with
  | Importing a i, ByImport e =>
      i ← import_step config (ia_tap a) (c_service c) (ia_dns a) (ia_client a) (ia_initial a) i e;
      Some {| c_service := c_service c; c_side := Importing a i |}
  | Exporting w b, ByExport e =>
      b ← bridge_step config b e; Some {| c_service := c_service c; c_side := Exporting w b |}
  | _, _ => None
  end.

(** The guard lives from the spawn of the two tasks to the return. *)
Definition conn_open (c : MeteredConn) : bool :=
  match c_side c with
  | Importing _ i => match phase i with Relaying => true | _ => false end
  | Exporting _ b => match b_phase b with BridgeRelaying => true | _ => false end
  end.

(** The outcome that [finish] records. *)
Definition import_outcome (o : ImportBridge.ConnOutcome) : Metrics.ConnOutcome :=
  match o with ImportBridge.Completed => ConnCompleted | WasReset => ConnReset | ImportBridge.Failed => ConnFailed end.

Definition export_outcome (o : ConnectionOutcome) : Metrics.ConnOutcome :=
  match o with Completed => ConnCompleted | Reset => ConnReset | Failed => ConnFailed end.

Definition conn_outcome (c : MeteredConn) : option Metrics.ConnOutcome :=
  match c_side c with
  | Importing _ i => match phase i with Returned (Ok o) => Some (import_outcome o) | _ => None end
  | Exporting _ b => match b_phase b with BridgeReturned (Ok o) => Some (export_outcome o) | _ => None end
  end.

(** Up is towards the backend: an import counts what it reads, an export what it
    writes. *)
Definition conn_up (c : MeteredConn) : N :=
  match c_side c with Importing _ i => counted_in (relay i) | Exporting _ b => counted_out (b_relay b) end.

Definition conn_down (c : MeteredConn) : N :=
  match c_side c with Importing _ i => counted_out (relay i) | Exporting _ b => counted_in (b_relay b) end.

(** The adds of one relay step: before the chunk that was taken is written, and before
    the chunk that was read is published. *)
Definition relay_meters {W S} (out into : N -> MetricsEvent) (e : RelayEvent) (r' : Relay W S) : list MetricsEvent :=
  match e with
  | Take => match bus_task r' with BWriting payload => [out (size_of payload)] | _ => [] end
  | Read (Ok data) => if decide (data = []) then [] else [into (size_of data)]
  | _ => []
  end.

(** [conn_start] at the spawn, [finish] at the join, and the guard's drop with the return. *)
Definition ends_meters (id : nat) (c c' : MeteredConn) : list MetricsEvent :=
  match conn_open c, conn_open c' with
  | false, true => [ConnStart id (c_service c)]
  | true, false => match conn_outcome c' with Some o => [Finish id o; DropGuard id] | None => [] end
  | _, _ => []
  end.

Definition conn_meters (id : nat) (c : MeteredConn) (e : ConnEvent) (c' : MeteredConn) : list MetricsEvent :=
  match e, c_side c' with
  | ByImport (InRelay e), Importing _ i => relay_meters (AddDown id) (AddUp id) e (relay i)
  | ByExport (BridgeRelay e), Exporting _ b => relay_meters (AddUp id) (AddDown id) e (b_relay b)
  | _, _ => ends_meters id c c'
  end.

(** The process: a connection is its position. *)
Record Host : Type := { conns : list MeteredConn; metrics : MetricsState }.

Inductive Opening : Type :=
| OpenImport (a : ImportArgs) (t : T)
| OpenExport (cancel : bool) (w : W2).

Inductive HostEvent : Type :=
| Open (service : str) (o : Opening)
| Step (id : nat) (e : ConnEvent).

Definition open_conn (service : str) (o : Opening) : MeteredConn := {|
  c_service := service;
  c_side := match o with
            | OpenImport a t => Importing a (import_init config (ia_writer a) t)
            | OpenExport cancel w => Exporting w (bridge_init config cancel w)
            end;
|}.

Definition host_step (p : Host) (e : HostEvent) : option Host :=
  match e with
  | Open service o => Some {| conns := conns p ++ [open_conn service o]; metrics := metrics p |}
  | Step id e =>
      c ← conns p !! id; c' ← conn_step c e; m ← run metrics_step (metrics p) (conn_meters id c e c');
      Some {| conns := <[id := c']> (conns p); metrics := m |}
  end.

Definition empty_host : Host := {| conns := []; metrics := metrics_init |}.

(** ** What the registry should hold *)

(** A connection's share of its service's counters. *)
Definition share (c : MeteredConn) : Counters := {|
  active := if conn_open c then 1 else 0;
  total := if conn_open c || bool_decide (conn_outcome c <> None) then 1 else 0;
  bytes_up := conn_up c;
  bytes_down := conn_down c;
  completed := if decide (conn_outcome c = Some ConnCompleted) then 1 else 0;
  resets := if decide (conn_outcome c = Some ConnReset) then 1 else 0;
  failed := if decide (conn_outcome c = Some ConnFailed) then 1 else 0;
|}.

Definition plus (a b : Counters) : Counters := {|
  active := active a + active b; total := total a + total b; bytes_up := bytes_up a + bytes_up b;
  bytes_down := bytes_down a + bytes_down b; completed := completed a + completed b;
  resets := resets a + resets b; failed := failed a + failed b;
|}.

(** The counters are 64 bits wide. *)
Definition wrapped (c : Counters) : Counters := {|
  active := active c mod u64_mod; total := total c mod u64_mod; bytes_up := bytes_up c mod u64_mod;
  bytes_down := bytes_down c mod u64_mod; completed := completed c mod u64_mod;
  resets := resets c mod u64_mod; failed := failed c mod u64_mod;
|}.

Definition share_of (svc : str) (c : MeteredConn) : Counters := if decide (c_service c = svc) then share c else no_counters.

Definition tally (svc : str) (cs : list MeteredConn) : Counters := foldr (fun c n => plus (share_of svc c) n) no_counters cs.

Definition guard_of (c : MeteredConn) : option ConnGuard :=
  if conn_open c
  then Some {| guard_service := c_service c; up := conn_up c mod u64_mod; down := conn_down c mod u64_mod |} else None.

Record host_inv (p : Host) : Prop := {
  pi_registry svc : service svc (registry (metrics p)) = wrapped (tally svc (conns p));
  pi_guards id : guards (metrics p) !! id = c ← conns p !! id; guard_of c;
}.

(** ** One step of a connection *)

Lemma relay_meters_spec {W S} {TW : TransportWriter W} mode (tap : option (bytes -> S -> S)) out into (r r' : Relay W S) e :
  relay_step mode tap r e = Some r' ->
  relay_meters out into e r' = [] /\ counted_out r' = counted_out r /\ counted_in r' = counted_in r \/
  (exists n, relay_meters out into e r' = [out n] /\ counted_out r' = (counted_out r + n)%N /\ counted_in r' = counted_in r) \/
  (exists n, relay_meters out into e r' = [into n] /\ counted_out r' = counted_out r /\ counted_in r' = (counted_in r + n)%N).
Proof using Type.
  intros Hs. destruct e as [p| | | | | | | |o|ok|ok|res| |ok|o ok|ok]; simpl in Hs; unfold bus_step, socket_step in Hs.
  6: { destruct (bus_task r) eqn:E; try done. apply bind_Some in Hs as ([p c] & _ & [= <-]). unfold on_sample.
       case_decide as Hp; simpl; [by left|]. right; left. by exists (size_of p). }
  11: { destruct (socket_task r) eqn:E; try done. injection Hs as <-. unfold on_read. destruct res as [d|err]; [|by left].
        simpl. case_decide; simpl; [by left|]. right; right. by exists (size_of d). }
  all: left; split; [done|]; unfold on_miss, on_written, on_half_closed, on_shutdown, on_put, on_put_eof, abort_bus, abort_socket in Hs;
    crush_step Hs; destruct_and_pairs; by simplify_eq/=.
Qed.

(** Nothing is counted before the tasks run. *)
Definition unstarted (c : MeteredConn) : Prop :=
  conn_open c = false -> conn_outcome c = None -> conn_up c = 0%N /\ conn_down c = 0%N.

(** What a step is for the registry. *)
Inductive metered (id : nat) (c c' : MeteredConn) : list MetricsEvent -> Prop :=
| MeteredNot : conn_open c' = conn_open c -> conn_outcome c' = conn_outcome c -> conn_up c' = conn_up c ->
    conn_down c' = conn_down c -> metered id c c' []
| MeteredStart : conn_open c = false -> conn_outcome c = None -> conn_open c' = true -> conn_outcome c' = None ->
    conn_up c' = conn_up c -> conn_down c' = conn_down c -> metered id c c' [ConnStart id (c_service c)]
| MeteredUp n : conn_open c = true -> conn_open c' = true -> conn_outcome c' = conn_outcome c ->
    conn_up c' = (conn_up c + n)%N -> conn_down c' = conn_down c -> metered id c c' [AddUp id n]
| MeteredDown n : conn_open c = true -> conn_open c' = true -> conn_outcome c' = conn_outcome c ->
    conn_up c' = conn_up c -> conn_down c' = (conn_down c + n)%N -> metered id c c' [AddDown id n]
| MeteredEnd o : conn_open c = true -> conn_outcome c = None -> conn_open c' = false -> conn_outcome c' = Some o ->
    conn_up c' = conn_up c -> conn_down c' = conn_down c -> metered id c c' [Finish id o; DropGuard id].

Lemma import_metered id svc a i e i' :
  let c := {| c_service := svc; c_side := Importing a i |} in
  let c' := {| c_service := svc; c_side := Importing a i' |} in
  import_step config (ia_tap a) svc (ia_dns a) (ia_client a) (ia_initial a) i e = Some i' ->
  metered id c c' (conn_meters id c (ByImport e) c').
Proof using Type.
  intros c c' Hs. unfold import_step in Hs.
  assert (forall e0, e = InRelay e0 -> metered id c c' (conn_meters id c (ByImport e) c')) as Hrelay.
  { intros e0 ->. cbn [conn_meters c_side c'].
    assert (exists r, relay_event_enabled e0 i = true /\ relay_step (reliability config) (ia_tap a) (relay i) e0 = Some r /\
      i' = set_relay r i) as (r & He & Hr & ->).
    { destruct (phase i); try done; (destruct (relay_event_enabled e0 i); [|done]); apply bind_Some in Hs as (r & Hr & [= <-]); eauto. }
    pose proof (relay_meters_spec _ _ (AddDown id) (AddUp id) _ _ _ Hr) as Hm. cbn [relay set_relay].
    destruct (phase i) eqn:Ep.
    5: destruct Hm as [(-> & ? & ?)|[(n & -> & ? & ?)|(n & -> & ? & ?)]]; constructor; unfold conn_open, conn_outcome; simpl; by rewrite ?Ep.
    all: unfold relay_event_enabled in He; rewrite Ep in He; destruct e0; try done;
      destruct Hm as [(-> & ? & ?)|[(n & [=] & _)|(n & [=] & _)]]; constructor; unfold conn_open, conn_outcome; simpl; by rewrite ?Ep. }
  destruct e as [ok| | |ok|ok| | | |e|]; try (by apply (Hrelay e)); clear Hrelay; cbn [conn_meters c_side c']; unfold ends_meters, conn_open;
    destruct (phase i) eqn:E; try done; cbn [c_side c c'];
    unfold on_declare, on_matched, on_initial_put, on_listener, on_monitor, on_join, after_initial in Hs;
    rewrite ?E in *; repeat (case_match; simplify_eq/=; try done); inv_guards; simplify_eq/=.
  all: try (by constructor; unfold conn_open, conn_outcome; simpl; rewrite ?E).
Qed.

Lemma export_metered id svc w b e b' :
  let c := {| c_service := svc; c_side := Exporting w b |} in
  let c' := {| c_service := svc; c_side := Exporting w b' |} in
  bridge_step config b e = Some b' -> metered id c c' (conn_meters id c (ByExport e) c').
Proof using Type.
  intros c c' Hs. unfold bridge_step in Hs.
  assert (forall e0, e = BridgeRelay e0 -> metered id c c' (conn_meters id c (ByExport e) c')) as Hrelay.
  { intros e0 ->. cbn [conn_meters c_side c'].
    assert (exists r, bridge_relay_enabled e0 b = true /\ relay_step (reliability config) None (b_relay b) e0 = Some r /\
      b' = set_bridge_relay r b) as (r & He & Hr & ->).
    { destruct (b_phase b); try done; (destruct (bridge_relay_enabled e0 b); [|done]); apply bind_Some in Hs as (r & Hr & [= <-]); eauto. }
    pose proof (relay_meters_spec _ _ (AddUp id) (AddDown id) _ _ _ Hr) as Hm. cbn [b_relay set_bridge_relay].
    destruct (b_phase b) eqn:Ep.
    2: destruct Hm as [(-> & ? & ?)|[(n & -> & ? & ?)|(n & -> & ? & ?)]]; constructor; unfold conn_open, conn_outcome; simpl; by rewrite ?Ep.
    all: unfold bridge_relay_enabled in He; rewrite Ep in He; destruct e0; try done;
      destruct Hm as [(-> & ? & ?)|[(n & [=] & _)|(n & [=] & _)]]; constructor; unfold conn_open, conn_outcome; simpl; by rewrite ?Ep. }
  destruct e as [ok| | | |e|]; try (by apply (Hrelay e)); clear Hrelay; cbn [conn_meters c_side c']; unfold ends_meters, conn_open;
    destruct (b_phase b) eqn:E; try done; cbn [c_side c c'];
    unfold on_bridge_declare, on_ext, on_bridge_join in Hs;
    rewrite ?E in *; repeat (case_match; simplify_eq/=; try done); inv_guards; simplify_eq/=.
  all: subst c c'; repeat case_decide; constructor; unfold conn_open, conn_outcome, conn_up, conn_down; simpl; by rewrite ?E.
Qed.

Lemma conn_metered id c e c' :
  conn_step c e = Some c' -> c_service c' = c_service c /\ metered id c c' (conn_meters id c e c').
Proof using Type.
  destruct c as [svc [a i|w b]], e as [e|e]; unfold conn_step; cbn [c_side c_service]; try done;
    intros H; apply bind_Some in H as (x & Hx & [= <-]); (split; [done|]).
  - by apply import_metered.
  - by apply export_metered.
Qed.

Lemma unstarted_step c e c' : unstarted c -> conn_step c e = Some c' -> unstarted c'.
Proof using Type.
  intros Hu (_ & Hm)%(conn_metered 0). unfold unstarted in *. intros Ho Hn.
  inversion Hm as [Ho' Hn' Eu Ed|? ? ? ? Eu Ed|n ? ? ? Eu Ed|n ? ? ? Eu Ed|o ? ? ? ? Eu Ed]; try congruence.
  rewrite Eu, Ed. apply Hu; congruence.
Qed.

(** ** Sums *)

Lemma counters_eq (a b : Counters) :
  active a = active b -> total a = total b -> bytes_up a = bytes_up b -> bytes_down a = bytes_down b ->
  completed a = completed b -> resets a = resets b -> failed a = failed b -> a = b.
Proof using Type. destruct a, b. simpl. by intros -> -> -> -> -> -> ->. Qed.

Ltac counters := apply counters_eq; simpl; lia.

Lemma tally_app svc cs cs' : tally svc (cs ++ cs') = plus (tally svc cs) (tally svc cs').
Proof using Type.
  induction cs as [|c cs IH]; simpl; [by destruct (tally svc cs')|]. rewrite IH. counters.
Qed.

(** One connection's share against the rest. *)
Lemma tally_split svc cs id c :
  cs !! id = Some c ->
  exists k, tally svc cs = plus k (share_of svc c) /\ forall c', tally svc (<[id := c']> cs) = plus k (share_of svc c').
Proof using Type.
  revert id. induction cs as [|x cs IH]; intros [|id] Hi; simplify_eq/=.
  - exists (tally svc cs). split; [|intros c']; counters.
  - destruct (IH id Hi) as (k & Hk & Hi'). exists (plus (share_of svc x) k).
    rewrite Hk. split; [counters|]. intros c'. rewrite Hi'. counters.
Qed.

Lemma fetch_add_wrapped n x : fetch_add n (x mod u64_mod) = ((x + n) mod u64_mod)%N.
Proof using Type. unfold fetch_add. by rewrite N.Div0.add_mod_idemp_l. Qed.

Lemma fetch_sub_wrapped x : fetch_sub 1 ((x + 1) mod u64_mod) = (x mod u64_mod)%N.
Proof using Type.
  replace (x + 1)%N with (N.of_nat (1 + N.to_nat x)) by lia. rewrite fetch_sub_count. by rewrite N2Nat.id.
Qed.

Ltac count_field := simpl; rewrite ?N.add_0_r, ?fetch_add_wrapped, ?fetch_sub_wrapped, ?N.add_assoc; done.

(** Updates that replace one connection's share. *)
Lemma update_share svc k c c' f m :
  c_service c' = c_service c -> (forall k, f (wrapped (plus k (share c))) = wrapped (plus k (share c'))) ->
  service svc m = wrapped (plus k (share_of svc c)) ->
  service svc (update_service (c_service c) f m) = wrapped (plus k (share_of svc c')).
Proof using Type. unfold share_of. intros -> Hf Hs. rewrite service_update, Hs. by case_decide. Qed.

(** What the calls of each step make of the share. *)
Lemma start_share k c c' :
  conn_open c = false -> conn_outcome c = None -> conn_open c' = true -> conn_outcome c' = None ->
  conn_up c' = conn_up c -> conn_down c' = conn_down c ->
  start_counters (wrapped (plus k (share c))) = wrapped (plus k (share c')).
Proof using Type. intros Ho Hn Ho' Hn' Eu Ed. unfold share. rewrite Ho, Hn, Ho', Hn', Eu, Ed. apply counters_eq; count_field. Qed.

Lemma up_share k n c c' :
  conn_open c' = conn_open c -> conn_outcome c' = conn_outcome c -> conn_up c' = (conn_up c + n)%N ->
  conn_down c' = conn_down c -> add_up n (wrapped (plus k (share c))) = wrapped (plus k (share c')).
Proof using Type. intros Ho Hn Eu Ed. unfold share. rewrite Ho, Hn, Eu, Ed. apply counters_eq; count_field. Qed.

Lemma down_share k n c c' :
  conn_open c' = conn_open c -> conn_outcome c' = conn_outcome c -> conn_up c' = conn_up c ->
  conn_down c' = (conn_down c + n)%N -> add_down n (wrapped (plus k (share c))) = wrapped (plus k (share c')).
Proof using Type. intros Ho Hn Eu Ed. unfold share. rewrite Ho, Hn, Eu, Ed. apply counters_eq; count_field. Qed.

Lemma end_share k o c c' :
  conn_open c = true -> conn_outcome c = None -> conn_open c' = false -> conn_outcome c' = Some o ->
  conn_up c' = conn_up c -> conn_down c' = conn_down c ->
  drop_counters (set_outcome o (wrapped (plus k (share c)))) = wrapped (plus k (share c')).
Proof using Type.
  intros Ho Hn Ho' Hn' Eu Ed. unfold share. rewrite Ho, Hn, Ho', Hn', Eu, Ed. destruct o; apply counters_eq; count_field.
Qed.

(** A step's calls go through, and move its connection's share and guard alone. *)
Lemma meters_run id c c' ms m :
  unstarted c -> c_service c' = c_service c -> metered id c c' ms -> guards m !! id = guard_of c ->
  exists m', run metrics_step m ms = Some m' /\ guards m' !! id = guard_of c' /\
    (forall j, j <> id -> guards m' !! j = guards m !! j) /\
    forall svc k, service svc (registry m) = wrapped (plus k (share_of svc c)) ->
      service svc (registry m') = wrapped (plus k (share_of svc c')).
Proof using Type.
  intros Hu Hsvc Hm Hg. unfold guard_of in *.
  destruct Hm as [Ho Hn Eu Ed|Ho Hn Ho' Hn' Eu Ed|n Ho Ho' Hn Eu Ed|n Ho Ho' Hn Eu Ed|o Ho Hn Ho' Hn' Eu Ed].
  - exists m. unfold share_of, share. rewrite Ho, Hn, Eu, Ed, Hsvc. by split_and!.
  - rewrite Ho in Hg. destruct (Hu Ho Hn) as [H1 H2].
    eexists. split_and!; [simpl; by rewrite Hg| | |intros svc k; apply update_share; [done|intros ?; by apply start_share]].
    + cbn [guards]. by rewrite lookup_insert_eq, Ho', Hsvc, Eu, Ed, H1, H2.
    + intros j Hj. cbn [guards]. by rewrite lookup_insert_ne.
  - rewrite Ho in Hg. 
    eexists. split_and!; [simpl; by rewrite Hg| | |intros svc k; apply update_share; [done|intros ?; apply up_share; congruence]].
    + cbn [guards]. rewrite lookup_insert_eq, Ho', Hsvc, Eu, Ed. cbn [up down guard_service]. by rewrite fetch_add_wrapped.
    + intros j Hj. cbn [guards]. by rewrite lookup_insert_ne.
  - rewrite Ho in Hg. 
    eexists. split_and!; [simpl; by rewrite Hg| | |intros svc k; apply update_share; [done|intros ?; apply down_share; congruence]].
    + cbn [guards]. rewrite lookup_insert_eq, Ho', Hsvc, Eu, Ed. cbn [up down guard_service]. by rewrite fetch_add_wrapped.
    + intros j Hj. cbn [guards]. by rewrite lookup_insert_ne.
  - rewrite Ho in Hg.
    eexists. split_and!; [simpl; rewrite Hg; simpl; rewrite Hg; simpl; reflexivity| | |].
    + cbn [guards]. by rewrite lookup_delete_eq, Ho'.
    + intros j Hj. cbn [guards]. by rewrite lookup_delete_ne.
    + intros svc k Hs. cbn [registry guard_service]. 
      rewrite !service_update, Hs. unfold share_of. rewrite Hsvc. case_decide; [by apply end_share|done].
Qed.

(** ** The invariant *)
Definition well_metered (p : Host) : Prop := host_inv p /\ Forall unstarted (conns p).

(** The registry never stops a connection. *)
Lemma step_metered p id c e c' :
  well_metered p -> conns p !! id = Some c -> conn_step c e = Some c' ->
  exists m, host_step p (Step id e) = Some {| conns := <[id := c']> (conns p); metrics := m |} /\
    well_metered {| conns := <[id := c']> (conns p); metrics := m |}.
Proof using Type.
  intros [[Hr Hg] Hu] Hc Hs. destruct (conn_metered id c e c' Hs) as [Hsvc Hm].
  assert (unstarted c) as Huc by (eapply Forall_lookup_1; [exact Hu|exact Hc]).
  pose proof (Hg id) as Hgi. rewrite Hc in Hgi. simpl in Hgi.
  destruct (meters_run id c c' _ (metrics p) Huc Hsvc Hm Hgi) as (m & Hrun & Hid & Hj & Hreg).
  exists m. split; [unfold host_step; rewrite Hc; simpl; rewrite Hs; simpl; by rewrite Hrun|].
  split; [split|].
  - intros svc. cbn [metrics conns]. destruct (tally_split svc _ _ _ Hc) as (k & Hk & Hk'). rewrite Hk'. apply Hreg. by rewrite Hr, Hk.
  - intros j. cbn [metrics conns]. destruct (decide (j = id)) as [->|Hne].
    + rewrite Hid, list_lookup_insert_eq by (by eapply lookup_lt_Some). done.
    + rewrite Hj, list_lookup_insert_ne by done. apply Hg.
  - cbn [conns]. apply Forall_insert; [done|]. by eapply unstarted_step.
Qed.

Lemma open_unstarted service o : unstarted (open_conn service o) /\ guard_of (open_conn service o) = None /\
  share (open_conn service o) = no_counters.
Proof using Type. by destruct o. Qed.

Lemma open_metered p svc o : well_metered p ->
  exists p', host_step p (Open svc o) = Some p' /\ well_metered p'.
Proof using Type.
  intros [[Hr Hg] Hu]. destruct (open_unstarted svc o) as (Ho & Hog & Hos).
  eexists. split; [done|]. split; [split|]; cbn [conns metrics].
  - intros s. rewrite tally_app, Hr. simpl. f_equal. unfold share_of. rewrite Hos. case_decide; counters.
  - intros id. rewrite Hg. destruct (decide (id < length (conns p))) as [Hlt|Hge].
    + by rewrite lookup_app_l.
    + rewrite lookup_app_r by lia. rewrite lookup_ge_None_2 by lia.
      destruct (id - length (conns p)) as [|n]; simpl; [by rewrite Hog|done].
  - apply Forall_app. split; [done|]. by constructor.
Qed.

Lemma step_well_metered p e p' : well_metered p -> host_step p e = Some p' -> well_metered p'.
Proof using Type.
  intros Hw Hs. destruct e as [svc o|id e].
  - destruct (open_metered p svc o Hw) as (p1 & H1 & H2). congruence.
  - pose proof Hs as Hs'. simpl in Hs. apply bind_Some in Hs as (c & Hc & Hs). apply bind_Some in Hs as (c' & Hc' & _).
    destruct (step_metered p id c e c' Hw Hc Hc') as (m & H1 & H2). congruence.
Qed.

Lemma run_well_metered es p : run host_step empty_host es = Some p -> well_metered p.
Proof using Type.
  apply (run_invariant host_step well_metered).
  - split; [split|by constructor]; intros; simpl; [done|by rewrite lookup_empty].
  - intros p0 e p1. apply step_well_metered.
Qed.

(** ** A connection of the process, alone *)
Definition conn_runs (c : MeteredConn) : Prop :=
  match c_side c with
  | Importing a i => exists t es, run (import_step config (ia_tap a) (c_service c) (ia_dns a) (ia_client a) (ia_initial a))
      (import_init config (ia_writer a) t) es = Some i
  | Exporting w b => exists cancel es, run (bridge_step config) (bridge_init config cancel w) es = Some b
  end.

Lemma conn_runs_step c e c' : conn_runs c -> conn_step c e = Some c' -> conn_runs c'.
Proof using Type.
  destruct c as [svc [a i|w b]], e as [e|e]; unfold conn_runs, conn_step; cbn [c_side c_service]; try done;
    intros (x & es & Hr) Hs; apply bind_Some in Hs as (y & Hy & [= <-]); cbn [c_side c_service]; exists x, (es ++ [e]);
    rewrite run_app, Hr; simpl; by rewrite Hy.
Qed.

Lemma run_conns es p : run host_step empty_host es = Some p -> Forall conn_runs (conns p).
Proof using Type.
  apply (run_invariant host_step (fun p => Forall conn_runs (conns p))); [by constructor|].
  intros p0 [svc o|id e] p1 Hf Hs; simpl in Hs.
  - injection Hs as <-. apply Forall_app. split; [done|]. constructor; [|done].
    destruct o as [a t|c w]; [by exists t, []|by exists c, []].
  - apply bind_Some in Hs as (c & Hc & Hs). apply bind_Some in Hs as (c' & Hc' & Hs).
    apply bind_Some in Hs as (m & _ & [= <-]). apply Forall_insert; [done|].
    eapply conn_runs_step; [|exact Hc']. by eapply Forall_lookup_1.
Qed.

(** Its counted bytes against all it put on its key ([sent]), of which [first] was put
    before the relay, and against what it wrote to its socket. *)
Definition accounted {W S} {TW : TransportWriter W} (w0 : W) (first : bytes) (sent : list bytes) (r : Relay W S)
    (done : Prop) : Prop :=
  (size_of (concat sent) <= size_of first + counted_in r)%N /\
  (size_of (wire (sink r)) <= size_of (wire w0) + counted_out r)%N /\
  (done -> size_of (concat sent) = (size_of first + counted_in r)%N /\
           size_of (wire (sink r)) = (size_of (wire w0) + counted_out r)%N).

Definition bytes_accounted (c : MeteredConn) : Prop :=
  let completed := conn_outcome c = Some ConnCompleted in
  match c_side c with
  | Importing a i => accounted (ia_writer a) (default [] (ia_initial a)) (tx_samples i) (relay i) completed
  | Exporting w b => accounted w [] (published (b_relay b)) (b_relay b) completed
  end.

Lemma counted_accounted {W S} {TW : TransportWriter W} (w0 : W) (before : list bytes) first (r : Relay W S) (done : Prop) :
  out_counted w0 r -> in_counted r -> (size_of (concat before) <= size_of first)%N ->
  (done -> bus_task r = BDone Eof /\ socket_task r = SDone Eof /\ concat before = first) ->
  accounted w0 first (before ++ published r) r done.
Proof using Type.
  intros [Ho Ho'] [Hi Hi'] Hb Hd. unfold accounted. rewrite concat_app, size_of_app. split_and!; [lia|done|].
  intros (Hbus & Hs & Hf)%Hd. rewrite Hbus in Ho'. rewrite Hs in Hi'. rewrite Hf. split; [lia|done].
Qed.

(** What an import put before its relay is its initial buffer, or nothing yet. *)
Lemma initial_size (l : list bytes) ob : l `prefix_of` option_list ob -> (size_of (concat l) <= size_of (default [] ob))%N.
Proof using Type.
  intros [k E]. destruct ob as [b|]; destruct l as [|x l]; try done; [unfold size_of; simpl; lia|].
  simpl in E. injection E as <- E. destruct l; [|done]. simpl. by rewrite app_nil_r.
Qed.

Lemma runs_accounted {L : MpscLaws M} {TL1 : TransportWriterLaws TW1} {TL2 : TransportWriterLaws TW2} c :
  conn_runs c -> bytes_accounted c.
Proof using Type.
  destruct c as [svc [a i|w b]]; unfold conn_runs, bytes_accounted; cbn [c_side c_service]; intros (x & es & Hr).
  - pose proof (import_relay_run _ _ _ _ _ _ _ _ _ _ Hr) as Hrel. destruct (counted_run _ _ _ _ _ _ _ Hrel) as [Ho Hi].
    destruct (run_phase _ _ _ _ _ _ _ _ _ _ Hr) as [Hph Hid]. destruct (initial_first _ _ _ _ _ _ Hph Hid) as [Hfst _].
    apply counted_accounted; [done|done|by apply initial_size|]. unfold conn_outcome. cbn [c_side]. intros Hd.
    assert (phase i = Returned (Ok ImportBridge.Completed)) as E by (destruct (phase i) as [| | | | |[[]|]]; try done; simplify_eq/=).
    destruct (completed_over _ _ _ _ _ _ _ _ _ _ Hr E) as (H1 & H2 & H3).
    destruct (run_over_clean _ _ _ _ _ _ _ Hrel H1 H2). split_and!; [done|done|]. rewrite H3.
    destruct (ia_initial a); simpl; [by rewrite app_nil_r|done].
  - pose proof (bridge_relay_run _ _ _ _ _ Hr) as (res & Hrel & _). destruct (counted_run _ _ _ _ _ _ _ Hrel) as [Ho Hi].
    apply (counted_accounted w []); [done|done|done|]. unfold conn_outcome. cbn [c_side]. intros Hd.
    assert (b_phase b = BridgeReturned (Ok Completed)) as E by (destruct (b_phase b) as [| |[[]|]]; try done; simplify_eq/=).
    destruct (completed_ends _ _ _ _ _ Hr E) as [? ?]. by split_and!.
Qed.
End Process.

(** ** Properties *)

(** C40: the registry is what the connections of the process did.  Over any number of
    import and export connections, interleaved in any way, each service's counters are,
    modulo 2^64, the sums of its connections' shares: one in the gauge while a connection
    relays, one in the total from then on, one under its outcome once it has returned,
    and the bytes it counted.  A guard exists exactly for the connections that relay.  Each
    connection runs as it would alone, the registry never stops one.  The bytes it counted
    bound the bytes it wrote to its socket and, together with its initial buffer, the bytes
    it published on its key: an import publishes that buffer without counting it.  Once it
    is recorded as completed both bounds are equalities. *)
Theorem registry_adds_up {M : Mpsc bytes} {L : MpscLaws M} {W1 W2 T : Type}
    {TW1 : TransportWriter W1} {TL1 : TransportWriterLaws TW1} {TW2 : TransportWriter W2} {TL2 : TransportWriterLaws TW2}
    (config : BridgeConfig) (es : list (HostEvent (W1 := W1) (W2 := W2) (T := T))) p :
  run (host_step config) empty_host es = Some p ->
  (forall svc, service svc (registry (metrics p)) = wrapped (tally svc (conns p))) /\
  (forall id, guards (metrics p) !! id = c ← conns p !! id; guard_of c) /\
  (forall id c, conns p !! id = Some c ->
    conn_runs config c /\ bytes_accounted c /\
    forall e c', conn_step config c e = Some c' ->
      exists m, host_step config p (Step id e) = Some {| conns := <[id := c']> (conns p); metrics := m |}).
Proof.
  intros Hr. pose proof (run_well_metered _ _ _ Hr) as Hw. pose proof (run_conns _ _ _ Hr) as Hc.
  split; [apply Hw|]. split; [apply Hw|]. intros id c Hid.
  assert (conn_runs config c) as Hrun by (by eapply Forall_lookup_1).
  split; [done|]. split; [by eapply runs_accounted|]. intros e c' Hs.
  destruct (step_metered _ _ _ _ _ _ Hw Hid Hs) as (m & Hm & _). by exists m.
Qed.

(** ** A concrete run *)

(** Two connections of one service that complete, an import and an export, step by step in
    turn, and an import that is still relaying. *)
Module Examples.
Definition web_import (initial : option bytes) : ImportArgs (W1 := TcpWriter) (T := unit) :=
  {| ia_dns := None; ia_client := lit "c1"; ia_initial := initial; ia_tap := None; ia_writer := fresh_tcp |}.

Fixpoint interleave {A} (xs ys : list A) : list A :=
  match xs, ys with x :: xs, y :: ys => x :: y :: interleave xs ys | [], ys => ys | xs, [] => xs end.

Definition busy : list (HostEvent (W1 := TcpWriter) (W2 := TcpWriter) (T := unit)) :=
  [Open (lit "web") (OpenImport (web_import (Some (lit "head"))) tt); Open (lit "web") (OpenExport false fresh_backend);
   Open (lit "web") (OpenImport (web_import None) tt)] ++
  interleave (Step 0 ∘ ByImport <$> exchange) (Step 1 ∘ ByExport <$> served) ++
  (Step 2 ∘ ByImport <$> setup_done ++ [ListenerRegistered true; InRelay (Read (Ok (lit "ab")))]).

#[local] Notation busy_run := (run (host_step (M := list_mpsc bytes) BridgeConfig_default) empty_host busy) (only parsing).

Lemma busy_runs : match busy_run with
  | Some p => wrapped (tally (lit "web") (conns p)) =
      {| active := 1; total := 3; bytes_up := 9; bytes_down := 11; completed := 2; resets := 0; failed := 0 |}%N
  | None => False
  end.
Proof. vm_compute. reflexivity. Qed.

Lemma registry_adds_up_witness :
  exists p, busy_run = Some p /\ service (lit "web") (registry (metrics p)) =
    {| active := 1; total := 3; bytes_up := 9; bytes_down := 11; completed := 2; resets := 0; failed := 0 |}%N.
Proof.
  pose proof busy_runs as H. destruct (busy_run) as [p|] eqn:E; [|destruct H].
  exists p. split; [reflexivity|]. rewrite <- H.
  exact (proj1 (registry_adds_up (L := list_mpsc_laws bytes) (TL1 := tcp_writer_laws) (TL2 := tcp_writer_laws)
    BridgeConfig_default busy p E) (lit "web")).
Defined.
End Examples.
