(* ===== verification/Election.v ===== *)
(** * Election: one active exporter per scope ([src/export/election.rs])

    Every exporter of a scope declares a claim token and keeps the set of claims it
    sees; the smallest claim is active.  The claim set is an ordered set of strings,
    ordered by bytes. *)

From S2P Require Import Prelude Text KeySpace.

(** ** Claims *)

Definition dash : ascii := "-"%char.

(** [format!("{ts:020}-{}-{}", zid, uuid)]. *)
Definition claim_segment (ts : N) (zid uuid : str) : str :=
  pad_zero 20 (show_N ts) ++ dash :: zid ++ dash :: uuid.

Definition claim_key (scope segment : str) : str := scope ++ lit "/exporter-claim/" ++ segment.

Inductive SampleKind : Type := Put | Delete.

#[export] Instance SampleKind_eq_dec : EqDecision SampleKind.
Proof. solve_decision. Defined.

Record ClaimSample : Type := { kind : SampleKind; claim_sample_key : str }.

(** [BTreeSet::first]. *)
Definition smaller (x : str) (acc : option str) : option str :=
  match acc with
  | None => Some x
  | Some y => Some (if decide (str_lt x y) then x else y)
  end.

Definition first (claims : gset str) : option str := foldr smaller None (elements claims).

Definition elect (claims : gset str) (own : str) : bool := bool_decide (first claims = Some own).

(** [pending]: samples the subscriber holds; [died]: the subscriber is gone. *)
Record Claim : Type := {
  own : str;
  claims : gset str;
  pending : list ClaimSample;
  died : bool;
}.

(** Our own token is in the set from the start. *)
Definition establish (ts : N) (zid uuid : str) (history : list ClaimSample) : Claim :=
  let own := claim_segment ts zid uuid in
  {| own := own; claims := {[own]}; pending := history; died := false |}.

Definition with_claims (cs : gset str) (p : list ClaimSample) (c : Claim) : Claim :=
  {| own := own c; claims := cs; pending := p; died := died c |}.

Definition apply_claim (cs : gset str) (s : ClaimSample) : gset str :=
  let segment := rsplit_first sep (claim_sample_key s) in
  match kind s with
  | Put => {[segment]} ∪ cs
  | Delete => cs ∖ {[segment]}
  end.

Definition drain_pending (c : Claim) : Claim :=
  with_claims (fold_left apply_claim (pending c) (claims c)) [] c.

Definition is_active (c : Claim) : bool * Claim :=
  let c := drain_pending c in (elect (claims c) (own c), c).

Definition current_active (c : Claim) : option str * Claim :=
  let c := drain_pending c in (first (claims c), c).

(** What wakes a waiting claimant: a sample (with others that arrived by then), the
    end of the subscriber, or a shutdown. *)
Inductive Arrival : Type :=
| Received (s : ClaimSample) (more : list ClaimSample)
| SubscriberDied
| ShutdownRequested.

Inductive WaitOutcome : Type := Active | WaitShutdown.

(** [recv_async] gives one sample, which is applied. *)
Definition receive (s : ClaimSample) (more : list ClaimSample) (c : Claim) : Claim :=
  with_claims (apply_claim (claims c) s) more c.

(** The wait, over the arrivals to come; [None] while it blocks. *)
Fixpoint wait_until_active (c : Claim) (arrivals : list Arrival) : option (WaitOutcome * Claim) :=
  let (active, c) := is_active c in
  if active then Some (Active, c)
  else match arrivals with
       | [] => None
       | Received s more :: arrivals' => wait_until_active (receive s more c) arrivals'
       | SubscriberDied :: _ =>
           Some (Active, {| own := own c; claims := claims c; pending := pending c; died := true |})
       | ShutdownRequested :: _ => Some (WaitShutdown, c)
       end.

(** The select arm while serving: the next change, and whether we are still active. *)
Definition changed_still_active (c : Claim) (next : option (ClaimSample * list ClaimSample))
    : bool * Claim :=
  match next with
  | Some (s, more) => is_active (receive s (pending c ++ more) c)
  | None => (true, {| own := own c; claims := claims c; pending := pending c; died := true |})
  end.

(** ** The smallest claim *)

Definition least (m : str) (l : list str) : Prop := m ∈ l /\ forall x, x ∈ l -> x = m \/ str_lt m x.

Lemma foldr_smaller l :
  match foldr smaller None l with
  | None => l = []
  | Some m => least m l
  end.
Proof.
  induction l as [|x l IH]; simpl; [done|].
  destruct (foldr smaller None l) as [m|]; simpl.
  - destruct IH as [Hm Hmin]. case_decide as Hlt; (split; [set_solver|]); intros y [->|Hy]%elem_of_cons.
    + by left.
    + destruct (Hmin y Hy) as [->|?]; right; [done|by etrans].
    + destruct (str_lt_total m x) as [?|[->|?]]; [by right|by left|done].
    + by apply Hmin.
  - subst l. split; [set_solver|]. intros y [->|Hy]%elem_of_cons; [by left|by apply elem_of_nil in Hy].
Qed.

Lemma least_unique m m' l : least m l -> least m' l -> m = m'.
Proof.
  intros [Hm Hmin] [Hm' Hmin']. destruct (Hmin m' Hm') as [?|H1]; [done|].
  destruct (Hmin' m Hm) as [?|H2]; [done|]. exfalso. apply (irreflexivity str_lt m). by etrans.
Qed.

Lemma first_Some cs m :
  first cs = Some m <-> m ∈ cs /\ forall x, x ∈ cs -> x = m \/ str_lt m x.
Proof.
  unfold first. pose proof (foldr_smaller (elements cs)) as H.
  assert (forall m, least m (elements cs) <-> m ∈ cs /\ forall x, x ∈ cs -> x = m \/ str_lt m x) as Hl.
  { intros m'. unfold least. setoid_rewrite elem_of_elements. done. }
  rewrite <- Hl. destruct (foldr smaller None (elements cs)) as [m'|].
  - split; [by intros [= <-]|]. intros Hm. f_equal. by apply (least_unique _ _ (elements cs)).
  - split; [done|]. rewrite H. by intros [?%elem_of_nil _].
Qed.

Lemma first_None cs : first cs = None <-> cs = ∅.
Proof.
  unfold first. pose proof (foldr_smaller (elements cs)) as H. split.
  - intros E. rewrite E in H. by apply elements_empty_inv, leibniz_equiv in H.
  - intros ->. by rewrite elements_empty.
Qed.

Lemma elect_spec cs o : elect cs o = true <-> o ∈ cs /\ forall x, x ∈ cs -> x = o \/ str_lt o x.
Proof. unfold elect. by rewrite bool_decide_eq_true, first_Some. Qed.

(** Two exporters that see the same claims elect the same one. *)
Lemma elect_agree cs o1 o2 : elect cs o1 = true -> elect cs o2 = true -> o1 = o2.
Proof. unfold elect. rewrite !bool_decide_eq_true. intros ->. by intros [= ->]. Qed.

Lemma elect_nonempty cs : cs <> ∅ -> exists o, o ∈ cs /\ elect cs o = true.
Proof.
  intros Hne. destruct (first cs) as [m|] eqn:E; [|by apply first_None in E].
  exists m. split; [by apply first_Some in E as [? _]|]. unfold elect. by rewrite E, bool_decide_eq_true.
Qed.

(** ** Age decides *)

(** Timestamps that fit the padding: milliseconds for three billion years. *)
Definition ts_ok (ts : N) : Prop := (ts < 10 ^ 20)%N.

Lemma pad_length ts : ts_ok ts -> length (pad_zero 20 (show_N ts)) = 20.
Proof. intros H. rewrite pad_show by (done || lia). apply fixed_dec_length. Qed.

Lemma claim_compare ts1 z1 u1 ts2 z2 u2 :
  ts_ok ts1 -> ts_ok ts2 ->
  str_compare (claim_segment ts1 z1 u1) (claim_segment ts2 z2 u2) =
  then_cmp (ts1 ?= ts2)%N (str_compare (dash :: z1 ++ dash :: u1) (dash :: z2 ++ dash :: u2)).
Proof.
  intros H1 H2. unfold claim_segment. rewrite str_compare_app by (by rewrite !pad_length).
  by rewrite pad_show_compare by (done || lia).
Qed.

Lemma older_claim_lt ts1 z1 u1 ts2 z2 u2 :
  ts_ok ts1 -> ts_ok ts2 -> (ts1 < ts2)%N ->
  str_lt (claim_segment ts1 z1 u1) (claim_segment ts2 z2 u2).
Proof.
  intros H1 H2 H. unfold str_lt. rewrite claim_compare by done.
  by rewrite (proj2 (N.compare_lt_iff _ _) H).
Qed.

(** Two claims of one session differ as soon as their UUIDs do. *)
Lemma claim_segment_inj ts1 z u1 ts2 u2 :
  ts_ok ts1 -> ts_ok ts2 -> claim_segment ts1 z u1 = claim_segment ts2 z u2 -> ts1 = ts2 /\ u1 = u2.
Proof.
  intros H1 H2 E. assert (str_compare (claim_segment ts1 z u1) (claim_segment ts2 z u2) = Eq) as Ec
    by by apply str_compare_eq.
  rewrite claim_compare in Ec by done. destruct (N.compare_spec ts1 ts2) as [->| |]; try done.
  split; [done|]. apply str_compare_eq in Ec. by simplify_list_eq.
Qed.

(** ** Waiting *)

Lemma is_active_own c : own (snd (is_active c)) = own c.
Proof. done. Qed.

Lemma wait_until_active_spec arrivals c out c' :
  wait_until_active c arrivals = Some (out, c') ->
  own c' = own c /\
  match out with
  | Active => died c' = true \/ (elect (claims c') (own c') = true /\ pending c' = [])
  | WaitShutdown => ShutdownRequested ∈ arrivals
  end.
Proof.
  revert c. induction arrivals as [|a arrivals IH]; intros c; simpl;
    destruct (elect _ (own c)) eqn:E; intros H; simplify_eq/=; auto.
  destruct a as [s more| |]; simplify_eq/=.
  - apply IH in H as [-> H]. split; [done|]. destruct out; [done|]. by right.
  - auto.
  - split; [done|]. by left.
Qed.

(** It returns as soon as one of the views it passes through elects it. *)
Fixpoint views (cs : gset str) (pend : list ClaimSample) (arrivals : list Arrival) : list (gset str) :=
  let cs := fold_left apply_claim pend cs in
  cs :: match arrivals with
        | Received s more :: arrivals' => views (apply_claim cs s) more arrivals'
        | _ => []
        end.

Lemma wait_until_active_wakes arrivals c :
  Exists (fun cs => elect cs (own c) = true) (views (claims c) (pending c) arrivals) ->
  exists c', wait_until_active c arrivals = Some (Active, c').
Proof.
  revert c. induction arrivals as [|a arrivals IH]; intros c; simpl;
    destruct (elect _ (own c)) eqn:E; eauto; intros H; inversion H as [? ? He|? ? He]; subst;
    try congruence; [by inversion He|].
  destruct a as [s more| |]; [|by inversion He|by inversion He].
  apply (IH (receive s more (drain_pending c))). exact He.
Qed.

(** ** Properties *)

(** Over any non-empty set of claims exactly one claimant is active, it is one
    of the claimants, and no other claimant compares below it; when its claim is
    withdrawn and others remain, exactly one of those takes over. *)
Theorem elect_exactly_one (cs : gset str) :
  cs <> ∅ ->
  exists o, o ∈ cs /\ (forall o', elect cs o' = true <-> o' = o) /\
    (forall x, x ∈ cs -> str_lt x o -> False) /\
    (cs ∖ {[o]} <> ∅ -> exists o2, o2 ∈ cs /\ o2 <> o /\ elect (cs ∖ {[o]}) o2 = true).
Proof.
  intros Hne. destruct (elect_nonempty cs Hne) as (o & Hin & He). exists o. split_and!.
  - done.
  - intros o'. split; [intros He'; by apply (elect_agree cs)|by intros ->].
  - intros x Hx Hlt. apply elect_spec in He as [_ Hmin].
    destruct (Hmin x Hx) as [->|H2]; apply (irreflexivity str_lt o); [done|by etrans].
  - intros Hne2. destruct (elect_nonempty _ Hne2) as (o2 & Hin2 & He2). exists o2. set_solver.
Qed.

Lemma elect_exactly_one_witness :
  exists o, (forall o', elect {[claim_segment 5 (lit "b") (lit "u"); claim_segment 7 (lit "a") (lit "v")]} o' = true
     <-> o' = o) /\ o = claim_segment 5 (lit "b") (lit "u").
Proof.
  destruct (elect_exactly_one {[claim_segment 5 (lit "b") (lit "u"); claim_segment 7 (lit "a") (lit "v")]})
    as (o & _ & H & _).
  { intros E. apply (f_equal (fun X : gset str => bool_decide (claim_segment 5 (lit "b") (lit "u") ∈ X))) in E.
    vm_compute in E. discriminate E. }
  exists o. split; [exact H|]. symmetry. apply H. vm_compute. reflexivity.
Defined.

(** An established active exporter is never preempted by a newcomer: whatever
    the session ids and UUIDs, a claim with a later timestamp leaves the active one
    active and is not elected itself, and an older claim that appears demotes it. *)
Theorem newcomer_never_preempts (cs : gset str) ts z u ts' z' u' :
  ts_ok ts -> ts_ok ts' -> elect cs (claim_segment ts z u) = true ->
  let own := claim_segment ts z u in
  let new := claim_segment ts' z' u' in
  ((ts < ts')%N -> elect ({[new]} ∪ cs) own = true /\ elect ({[new]} ∪ cs) new = false) /\
  ((ts' < ts)%N -> elect ({[new]} ∪ cs) new = true /\ elect ({[new]} ∪ cs) own = false).
Proof.
  intros H1 H2 He own new. pose proof He as [Hin Hmin]%elect_spec.
  assert (forall a b, elect ({[new]} ∪ cs) a = true -> a <> b -> elect ({[new]} ∪ cs) b = false) as Hother.
  { intros a b Ha Hab. destruct (elect ({[new]} ∪ cs) b) eqn:Eb; [|done].
    by rewrite (elect_agree _ a b Ha Eb) in Hab. }
  assert (forall a b, str_lt a b -> a <> b) as Hne.
  { intros a b Hlt ->. by apply (irreflexivity str_lt b). }
  split; intros Hts.
  - pose proof (older_claim_lt ts z u ts' z' u' H1 H2 Hts) as Hlt. assert (elect ({[new]} ∪ cs) own = true) as Ho.
    { apply elect_spec. split; [set_solver|]. intros x [->%elem_of_singleton|Hx]%elem_of_union; auto. }
    split; [done|]. apply (Hother own); [done|by apply Hne].
  - pose proof (older_claim_lt ts' z' u' ts z u H2 H1 Hts) as Hlt. assert (elect ({[new]} ∪ cs) new = true) as Ho.
    { apply elect_spec. split; [set_solver|]. intros x [->%elem_of_singleton|Hx]%elem_of_union; [by left|].
      right. destruct (Hmin x Hx) as [->|]; [done|by etrans]. }
    split; [done|]. apply (Hother new); [done|by apply Hne].
Qed.

Lemma newcomer_never_preempts_witness :
  let own := claim_segment 9 (lit "zz") (lit "u") in
  elect ({[claim_segment 10 (lit "aa") (lit "v")]} ∪ {[own]}) own = true.
Proof.
  intros own. destruct (newcomer_never_preempts {[own]} 9 (lit "zz") (lit "u") 10 (lit "aa") (lit "v"))
    as [H _]; [vm_compute; reflexivity..|]. apply H. lia.
Defined.

(** A standby exporter's wait ends as soon as one of the claim views it passes
    through elects it, and not before: when it reports the active role, either its
    view at that moment elects it with no sample left unread, or the claim
    subscriber died; when it reports a shutdown, one was requested. *)
Theorem wait_until_active_correct (c : Claim) (arrivals : list Arrival) :
  (Exists (fun cs => elect cs (own c) = true) (views (claims c) (pending c) arrivals) ->
   exists c', wait_until_active c arrivals = Some (Active, c')) /\
  (forall out c', wait_until_active c arrivals = Some (out, c') ->
   own c' = own c /\
   match out with
   | Active => died c' = true \/ (elect (claims c') (own c') = true /\ pending c' = [])
   | WaitShutdown => ShutdownRequested ∈ arrivals
   end).
Proof. split; [apply wait_until_active_wakes|intros out c'; apply wait_until_active_spec]. Qed.
