(* ===== verification/ExportLoop.v ===== *)
(** * ExportLoop: the exporter's role loop and its table of clients
    ([run_export_loop], [serve_active], [dispatch_client_connect],
    [remove_if_current], [handle_client_disconnect] and [drain_all_clients] of
    [src/export/bridge.rs])

    The table maps a client id to the cancel channel of its task.  A channel is a
    number, fresh for every task, and [same_channel] is its equality.  A task is
    here only what the table's code can tell of it: whose it is, whether its cancel
    was sent; [ExportBridge] models its inside. *)

From S2P Require Import Prelude Text KeySpace Election.

(** ** The table *)

Record Task : Type := { t_client : str; t_cancelled : bool }.

(** [table]: the shared map; [tasks]: the spawned tasks that have not ended. *)
Record Clients : Type := {
  table : gmap str nat;
  tasks : gmap nat Task;
  next_channel : nat;
}.

Definition no_clients : Clients := {| table := ∅; tasks := ∅; next_channel := 0 |}.

(** The dedupe check and the insert are one step, under the lock. *)
Definition dispatch_client_connect (client_id : str) (s : Clients) : Clients :=
  match table s !! client_id with
  | Some _ => s
  | None =>
      let ch := next_channel s in
      {| table := <[client_id := ch]> (table s);
         tasks := <[ch := {| t_client := client_id; t_cancelled := false |}]> (tasks s);
         next_channel := S ch |}
  end.

Definition remove_if_current (client_id : str) (own : nat) (m : gmap str nat) : bool * gmap str nat :=
  if bool_decide (m !! client_id = Some own) then (true, delete client_id m) else (false, m).

Definition send_cancel (ch : nat) (ts : gmap nat Task) : gmap nat Task :=
  alter (fun t => {| t_client := t_client t; t_cancelled := true |}) ch ts.

Definition handle_client_disconnect (client_id : str) (s : Clients) : Clients :=
  match table s !! client_id with
  | Some ch =>
      {| table := delete client_id (table s); tasks := send_cancel ch (tasks s);
         next_channel := next_channel s |}
  | None => s
  end.

(** The end of a task: it frees its own entry, then is gone.  These are one step since
    [remove_self] is the last thing a task does: once it has released the lock it logs and
    returns, touches nothing shared, and is in the table no more. *)
Definition task_ends (ch : nat) (s : Clients) : option Clients :=
  t ← tasks s !! ch;
  Some {| table := snd (remove_if_current (t_client t) ch (table s));
          tasks := delete ch (tasks s); next_channel := next_channel s |}.

(** The first half of [drain_all_clients]: take every entry, send every cancel. *)
Definition drain_start (s : Clients) : list nat * Clients :=
  let entries := (map_to_list (table s)).*2 in
  (entries, {| table := ∅; tasks := foldr send_cancel (tasks s) entries;
               next_channel := next_channel s |}).

(** A handle whose deadline passed is aborted. *)
Definition abort_task (ch : nat) (s : Clients) : Clients :=
  {| table := table s; tasks := delete ch (tasks s); next_channel := next_channel s |}.

(** ** The role loop *)

Inductive ServeEnd : Type := EndShutdown | EndDemoted.

#[export] Instance ServeEnd_eq_dec : EqDecision ServeEnd.
Proof. solve_decision. Defined.

(** Standing by; declaring the client subscriber; replaying the query of existing clients; following the live
    stream; awaiting the handles taken by the drain. *)
Inductive LoopPhase : Type :=
| Standby
| Subscribing
| Replaying
| Serving
| Draining (why : ServeEnd) (handles : list nat)
| LoopStopped
| LoopFailed.

#[export] Instance LoopPhase_eq_dec : EqDecision LoopPhase.
Proof. solve_decision. Defined.

Record Loop : Type := {
  l_phase : LoopPhase;
  claim : Claim;
  clients : Clients;
}.

Inductive LoopEvent : Type :=
| ClaimArrives (s : ClaimSample)      (** the claim subscriber buffers a sample *)
| ClaimSubscriberDies
| StandbyPoll                         (** [is_active], at the loop's top or after a wake *)
| StandbyShutdown
| Subscribe (ok : bool)               (** liveliness subscriber and query of [serve_active] *)
| ReplayReply (key : str)
| ReplayEnds                          (** the query's channel closes, or a shutdown *)
| LivePut (key : str)
| LiveDelete (key : str)
| LiveError
| ClaimChanged                        (** the [changed_still_active] arm *)
| ServeShutdown
| TaskEnds (ch : nat)
| HandleJoined
| HandleDeadline.

Definition set_loop (p : LoopPhase) (c : Claim) (cl : Clients) : Loop :=
  {| l_phase := p; claim := c; clients := cl |}.

(** A liveliness key's last chunk, when it is not empty. *)
Definition on_client (f : str -> Clients -> Clients) (key : str) (s : Clients) : Clients :=
  match client_of_key key with Some client_id => f client_id s | None => s end.

Definition buffer_claim (s : ClaimSample) (c : Claim) : Claim :=
  with_claims (claims c) (pending c ++ [s]) c.

Definition claim_dies (c : Claim) : Claim :=
  {| own := own c; claims := claims c; pending := pending c; died := true |}.

(** [is_active], or the dead subscriber that assumes the role. *)
Definition poll (c : Claim) : bool * Claim :=
  let (active, c) := is_active c in (active || died c, c).

Definition begin_drain (why : ServeEnd) (c : Claim) (cl : Clients) : Loop :=
  let (handles, cl) := drain_start cl in set_loop (Draining why handles) c cl.

Definition after_drain (why : ServeEnd) : LoopPhase :=
  match why with EndShutdown => LoopStopped | EndDemoted => Standby end.

(** [timeout_at(deadline, handle)] on the next handle. *)
Definition next_handle (why : ServeEnd) (handles : list nat) : LoopPhase :=
  match handles with [] => after_drain why | _ => Draining why handles end.

Definition on_claim_changed (l : Loop) : option Loop :=
  match pending (claim l) with
  | s :: more =>
      let (still, c) := changed_still_active (with_claims (claims (claim l)) [] (claim l)) (Some (s, more)) in
      Some (if still then set_loop Serving c (clients l) else begin_drain EndDemoted c (clients l))
  | [] => if died (claim l) then Some l else None
  end.

(** [wait_until_active] or a falling through of the loop's first [if]. *)
Definition on_standby_poll (l : Loop) : Loop :=
  let (active, c) := poll (claim l) in
  set_loop (if active then Subscribing else Standby) c (clients l).

Definition loop_step (l : Loop) (e : LoopEvent) : option Loop :=
  match e with
  | ClaimArrives s => Some (set_loop (l_phase l) (buffer_claim s (claim l)) (clients l))
  | ClaimSubscriberDies => Some (set_loop (l_phase l) (claim_dies (claim l)) (clients l))
  | TaskEnds ch => cl ← task_ends ch (clients l); Some (set_loop (l_phase l) (claim l) cl)
  | _ =>
      match l_phase l, e with
      | Standby, StandbyPoll => Some (on_standby_poll l)
      | Standby, StandbyShutdown => Some (set_loop LoopStopped (claim l) (clients l))
      | Subscribing, Subscribe ok =>
          Some (set_loop (if ok then Replaying else LoopFailed) (claim l) (clients l))
      | Replaying, ReplayReply key =>
          Some (set_loop Replaying (claim l) (on_client dispatch_client_connect key (clients l)))
      | Replaying, ReplayEnds => Some (set_loop Serving (claim l) (clients l))
      | Serving, LivePut key =>
          Some (set_loop Serving (claim l) (on_client dispatch_client_connect key (clients l)))
      | Serving, LiveDelete key =>
          Some (set_loop Serving (claim l) (on_client handle_client_disconnect key (clients l)))
      | Serving, LiveError => Some l
      | Serving, ClaimChanged => on_claim_changed l
      | Serving, ServeShutdown => Some (begin_drain EndShutdown (claim l) (clients l))
      | Draining why (ch :: rest), HandleJoined =>
          if decide (tasks (clients l) !! ch = None)
          then Some (set_loop (Draining why rest) (claim l) (clients l)) else None
      | Draining why (ch :: rest), HandleDeadline =>
          Some (set_loop (Draining why rest) (claim l) (abort_task ch (clients l)))
      | Draining why [], HandleJoined => Some (set_loop (after_drain why) (claim l) (clients l))
      | _, _ => None
      end
  end.

Definition loop_init (c : Claim) : Loop := set_loop Standby c no_clients.

(** Phases in which clients are dispatched. *)
Definition serving (l : Loop) : bool :=
  match l_phase l with Replaying | Serving => true | _ => false end.

(** ** The table's invariant *)

(** The entries are exactly the live tasks whose cancel was not sent, each under its
    own client. *)
Definition table_inv (s : Clients) : Prop :=
  (forall c ch, table s !! c = Some ch <->
     tasks s !! ch = Some {| t_client := c; t_cancelled := false |}) /\
  (forall ch, next_channel s <= ch -> tasks s !! ch = None).

Lemma table_inv_empty : table_inv no_clients.
Proof. split; [|done]. intros c ch. simpl. by rewrite !lookup_empty. Qed.

Lemma table_inv_inj s c1 c2 ch : table_inv s -> table s !! c1 = Some ch -> table s !! c2 = Some ch -> c1 = c2.
Proof. intros [H _] H1%H H2%H. congruence. Qed.

Lemma table_inv_connect c s : table_inv s -> table_inv (dispatch_client_connect c s).
Proof.
  intros [H Hn]. unfold dispatch_client_connect. destruct (table s !! c) as [ch|] eqn:E; [by split|].
  assert (forall c', table s !! c' = Some (next_channel s) -> False) as Hfresh.
  { intros c' Hc'%H. by rewrite Hn in Hc'. }
  split; simpl.
  - intros c' ch'. destruct (decide (c' = c)) as [->|Hc], (decide (ch' = next_channel s)) as [->|Hch];
      rewrite ?lookup_insert_eq, ?lookup_insert_ne by done.
    + split; done.
    + rewrite <- H, E. split; congruence.
    + split; [intros Hc'; by apply Hfresh in Hc'|intros [= ->]; done].
    + apply H.
  - intros ch' Hle. rewrite lookup_insert_ne by lia. apply Hn. lia.
Qed.

Lemma send_cancel_lookup ch ch' ts t :
  send_cancel ch ts !! ch' = Some t ->
  exists t0, ts !! ch' = Some t0 /\ t_client t = t_client t0 /\
    t_cancelled t = (if decide (ch' = ch) then true else t_cancelled t0).
Proof.
  unfold send_cancel. destruct (decide (ch' = ch)) as [->|Hne].
  - rewrite lookup_alter_eq. intros (t0 & -> & ->)%fmap_Some. by exists t0.
  - rewrite lookup_alter_ne by done. intros ->. by exists t.
Qed.

Lemma send_cancel_none ch ch' ts : send_cancel ch ts !! ch' = None <-> ts !! ch' = None.
Proof.
  unfold send_cancel. destruct (decide (ch' = ch)) as [->|Hne].
  - rewrite lookup_alter_eq. by rewrite fmap_None.
  - by rewrite lookup_alter_ne.
Qed.

Lemma send_cancel_live ch ch' ts c :
  send_cancel ch ts !! ch' = Some {| t_client := c; t_cancelled := false |} <->
  ch' <> ch /\ ts !! ch' = Some {| t_client := c; t_cancelled := false |}.
Proof.
  unfold send_cancel. destruct (decide (ch' = ch)) as [->|Hne].
  - rewrite lookup_alter_eq, fmap_Some. split; [by intros (t & _ & [=])|by intros []].
  - rewrite lookup_alter_ne by done. naive_solver.
Qed.

Lemma table_inv_disconnect c s : table_inv s -> table_inv (handle_client_disconnect c s).
Proof.
  intros Hi. pose proof Hi as [H Hn]. unfold handle_client_disconnect.
  destruct (table s !! c) as [ch|] eqn:E; [|done]. split; simpl.
  - intros c' ch'. rewrite lookup_delete_Some, send_cancel_live, <- H. split.
    + intros [Hne Hc']. split; [|done]. intros ->. by rewrite (table_inv_inj s c c' ch Hi E Hc') in Hne.
    + intros [Hne Hc']. split; [|done]. intros ->. congruence.
  - intros ch' Hle. apply send_cancel_none. by apply Hn.
Qed.

Lemma table_inv_ends ch s s' : table_inv s -> task_ends ch s = Some s' -> table_inv s'.
Proof.
  intros Hi Hs. pose proof Hi as [H Hn]. unfold task_ends in Hs.
  apply bind_Some in Hs as ([c b] & Ht & [= <-]). split; simpl.
  - intros c' ch'. unfold remove_if_current. rewrite lookup_delete_Some, <- H.
    case_bool_decide as E; simpl.
    + rewrite lookup_delete_Some. split.
      * intros [Hne Hc']. split; [|done]. intros ->. by rewrite (table_inv_inj s c c' ch' Hi E Hc') in Hne.
      * intros [Hne Hc']. split; [|done]. intros ->. congruence.
    + split; [|naive_solver]. intros Hc'. split; [|done]. intros ->.
      apply E. rewrite H in Hc'. rewrite Hc' in Ht. simplify_eq. by apply H.
  - intros ch' Hle. rewrite lookup_delete_None. right. by apply Hn.
Qed.

Lemma cancel_all_live chs ts ch c :
  foldr send_cancel ts chs !! ch = Some {| t_client := c; t_cancelled := false |} <->
  ch ∉ chs /\ ts !! ch = Some {| t_client := c; t_cancelled := false |}.
Proof.
  induction chs as [|x chs IH]; simpl; [set_solver|]. rewrite send_cancel_live, IH. set_solver.
Qed.

Lemma cancel_all_none chs ts ch : foldr send_cancel ts chs !! ch = None <-> ts !! ch = None.
Proof. induction chs as [|x chs IH]; simpl; [done|]. by rewrite send_cancel_none. Qed.

Lemma drain_handles s ch : ch ∈ fst (drain_start s) <-> exists c, table s !! c = Some ch.
Proof.
  simpl. rewrite list_elem_of_fmap. split.
  - intros ([c ch'] & -> & Hin). exists c. by apply elem_of_map_to_list in Hin.
  - intros [c Hc]. exists (c, ch). split; [done|]. by apply elem_of_map_to_list.
Qed.

Lemma table_inv_drain s : table_inv s -> table_inv (snd (drain_start s)).
Proof.
  intros [H Hn]. split; simpl.
  - intros c ch. rewrite cancel_all_live, <- H. split; [by rewrite lookup_empty|].
    intros [Hno Hc]. destruct Hno. apply drain_handles. eauto.
  - intros ch Hle. apply cancel_all_none. by apply Hn.
Qed.

Lemma table_inv_abort ch s : table s = ∅ -> table_inv s -> table_inv (abort_task ch s).
Proof.
  intros He [H Hn]. split; simpl.
  - intros c ch'. rewrite lookup_delete_Some, <- H, He, lookup_empty. naive_solver.
  - intros ch' Hle. rewrite lookup_delete_None. right. by apply Hn.
Qed.

Lemma table_inv_on_client f key s :
  (forall c s, table_inv s -> table_inv (f c s)) -> table_inv s -> table_inv (on_client f key s).
Proof. intros Hf Hi. unfold on_client. destruct (client_of_key key); auto. Qed.

(** ** The loop's invariant *)

(** While serving, the last view polled elected this exporter, or its claim
    subscriber died; while draining, the table is empty. *)
Definition loop_inv (l : Loop) : Prop :=
  table_inv (clients l) /\
  match l_phase l with
  | Subscribing | Replaying | Serving => elect (claims (claim l)) (own (claim l)) = true \/ died (claim l) = true
  | Draining _ _ => table (clients l) = ∅
  | _ => True
  end.

Lemma poll_active c c' : poll c = (true, c') -> elect (claims c') (own c') = true \/ died c' = true.
Proof. unfold poll. simpl. intros [= H <-]. by apply orb_prop in H as [?|?]; [left|right]. Qed.

Lemma loop_inv_drain why c cl : table_inv cl -> loop_inv (begin_drain why c cl).
Proof. intros H. split; [by apply table_inv_drain|done]. Qed.

Lemma loop_inv_changed l l' :
  loop_inv l -> l_phase l = Serving -> on_claim_changed l = Some l' -> loop_inv l'.
Proof.
  intros [Ht Hp] E Hs. unfold on_claim_changed in Hs. destruct (pending (claim l)) as [|s more].
  - assert (l' = l) as -> by (by destruct (died (claim l)); simplify_eq). by split.
  - destruct (changed_still_active _ _) as [still c] eqn:Ec. simplify_eq. destruct still.
    + split; [done|]. simpl. left. unfold changed_still_active in Ec. simpl in Ec.
      injection Ec as Ha <-. exact Ha.
    + by apply loop_inv_drain.
Qed.

Lemma loop_inv_step l e l' : loop_inv l -> loop_step l e = Some l' -> loop_inv l'.
Proof.
  intros Hi Hs. pose proof Hi as [Ht Hp].
  destruct e as [s| | | |ok|key| |key|key| | | |ch| |]; simpl in Hs.
  1-2: simplify_eq; split; [done|]; simpl; destruct (l_phase l); try done; simpl; tauto.
  11: { apply bind_Some in Hs as (cl & Hcl & [= <-]). split; [by eapply table_inv_ends|].
        simpl. destruct (l_phase l); try done. unfold task_ends in Hcl.
        apply bind_Some in Hcl as (t & _ & [= <-]). simpl. unfold remove_if_current.
        case_bool_decide; simpl; rewrite Hp; [apply delete_empty|done]. }
  all: destruct (l_phase l) as [| | | |why [|ch rest]| |] eqn:E; try done; simplify_eq.
  - unfold on_standby_poll. destruct (poll (claim l)) as [[] c] eqn:Ep; (split; [done|]); [|done].
    by apply poll_active in Ep.
  - by split.
  - split; [done|]. by destruct ok.
  - split; [|exact Hp]. apply table_inv_on_client; [|done]. intros. by apply table_inv_connect.
  - by split.
  - split; [|exact Hp]. apply table_inv_on_client; [|done]. intros. by apply table_inv_connect.
  - split; [|exact Hp]. apply table_inv_on_client; [|done]. intros. by apply table_inv_disconnect.
  - done.
  - by eapply loop_inv_changed.
  - by apply loop_inv_drain.
  - split; [done|]. by destruct why.
  - case_decide; simplify_eq. by split.
  - split; [by apply table_inv_abort|]. simpl. done.
Qed.

Lemma run_loop_inv c es l : run loop_step (loop_init c) es = Some l -> loop_inv l.
Proof.
  apply (run_invariant loop_step loop_inv).
  - split; [apply table_inv_empty|done].
  - intros ???. apply loop_inv_step.
Qed.

(** A task's end removes its own entry, if it still has one, and no other. *)
Lemma task_ends_table ch s s' c ch' :
  table_inv s -> task_ends ch s = Some s' -> table s' !! c = Some ch' <-> table s !! c = Some ch' /\ ch' <> ch.
Proof.
  intros Hi Hs. unfold task_ends in Hs. apply bind_Some in Hs as ([c0 b] & Ht & [= <-]). simpl.
  unfold remove_if_current. case_bool_decide as E; simpl.
  - rewrite lookup_delete_Some. split.
    + intros [Hne Hc]. split; [done|]. intros ->. by rewrite (table_inv_inj s c c0 ch Hi Hc E) in Hne.
    + intros [Hc Hne]. split; [|done]. intros ->. congruence.
  - split; [|by intros []]. intros Hc. split; [done|]. intros ->.
    pose proof Hc as Hc'. apply (proj1 Hi) in Hc'. rewrite Ht in Hc'. by simplify_eq.
Qed.

(** Before a tenure the table is empty. *)
Definition idle (l : Loop) : bool := match l_phase l with Standby | Subscribing => true | _ => false end.

Lemma idle_table l e l' :
  loop_inv l -> (idle l = true -> table (clients l) = ∅) -> loop_step l e = Some l' ->
  idle l' = true -> table (clients l') = ∅.
Proof.
  unfold idle. intros [_ Hd] Ht Hs. destruct e as [s| | | |ok|key| |key|key| | | |ch| |]; simpl in Hs; try (by simplify_eq/=).
  11: { apply bind_Some in Hs as (cl & Hcl & [= <-]). simpl. intros E. specialize (Ht E).
        unfold task_ends in Hcl. apply bind_Some in Hcl as (t & _ & [= <-]). simpl. unfold remove_if_current.
        rewrite Ht. by rewrite bool_decide_false by (by rewrite lookup_empty). }
  all: destruct (l_phase l) as [| | | |why [|ch rest]| |] eqn:E; try done; simplify_eq/=; try done.
  - by intros _; apply Ht.
  - by destruct ok.
  - by rewrite E.
  - unfold on_claim_changed in Hs. destruct (pending (claim l)) as [|s more].
    + destruct (died (claim l)); simplify_eq. by rewrite E.
    + simpl in Hs. injection Hs as <-. clear Hd. by destruct (elect _ _).
  - by case_decide; simplify_eq.
Qed.

(** ** Properties *)

(** C18: whatever the order of announcements, departures, replies, task ends and role
    changes, the table holds exactly the live tasks whose cancel was not sent, each
    under its own client: a client has at most one task that was not told to stop.  (A
    cancelled task may still be tearing down when its client is announced again, and then
    runs next to the new one.)  Announcing a tracked client again changes nothing; a departure cancels exactly
    its own task; a task that ends frees its own entry and never one that replaced
    it. *)
Theorem one_task_per_client c0 es l :
  run loop_step (loop_init c0) es = Some l ->
  (forall c ch, table (clients l) !! c = Some ch <->
     tasks (clients l) !! ch = Some {| t_client := c; t_cancelled := false |}) /\
  (forall c ch1 ch2,
     tasks (clients l) !! ch1 = Some {| t_client := c; t_cancelled := false |} ->
     tasks (clients l) !! ch2 = Some {| t_client := c; t_cancelled := false |} -> ch1 = ch2) /\
  (forall c ch, table (clients l) !! c = Some ch ->
     dispatch_client_connect c (clients l) = clients l /\
     table (handle_client_disconnect c (clients l)) = delete c (table (clients l)) /\
     tasks (handle_client_disconnect c (clients l)) !! ch = Some {| t_client := c; t_cancelled := true |}) /\
  (forall ch s' c ch', task_ends ch (clients l) = Some s' ->
     table s' !! c = Some ch' <-> table (clients l) !! c = Some ch' /\ ch' <> ch).
Proof.
  intros Hr. destruct (run_loop_inv _ _ _ Hr) as [Hi _]. pose proof Hi as [H _]. split_and!.
  - exact H.
  - intros c ch1 ch2 H1%H H2%H. congruence.
  - intros c ch Hc. unfold dispatch_client_connect, handle_client_disconnect. rewrite Hc.
    split_and!; [done|done|]. simpl. unfold send_cancel. apply H in Hc.
    by rewrite lookup_alter_eq, Hc.
  - intros. by apply task_ends_table.
Qed.

Definition example_claim : Claim := establish 5 (lit "zid") (lit "u1") [].

Definition one_client : list LoopEvent :=
  [StandbyPoll; Subscribe true; ReplayReply (lit "web/clients/c1"); ReplayEnds].

Lemma one_task_per_client_witness :
  exists l, run loop_step (loop_init example_claim) one_client = Some l /\
    dispatch_client_connect (lit "c1") (clients l) = clients l.
Proof.
  assert ((fun l => table (clients l) !! lit "c1") <$> run loop_step (loop_init example_claim) one_client = Some (Some 0))
    as Ht by (vm_compute; reflexivity).
  destruct (run loop_step (loop_init example_claim) one_client) as [l|] eqn:E; [|discriminate Ht].
  exists l. split; [reflexivity|]. destruct (one_task_per_client example_claim one_client l E) as (_ & _ & H & _).
  apply (H _ 0). by injection Ht.
Defined.

(** A client that left and came back: the cancelled task has not ended yet, and the table
    follows the new one. *)
Example cancelled_task_lingers :
  (fun l => (table (clients l) !! lit "c1", tasks (clients l) !! 0, tasks (clients l) !! 1)) <$>
    run loop_step (loop_init example_claim)
      (one_client ++ [LiveDelete (lit "web/clients/c1"); LivePut (lit "web/clients/c1")]) =
  Some (Some 1, Some {| t_client := lit "c1"; t_cancelled := true |}, Some {| t_client := lit "c1"; t_cancelled := false |}).
Proof. vm_compute. reflexivity. Qed.

(** C16: an exporter serves only while elected: in every reachable state in which it
    dispatches clients, the claim view it last polled elects it or its claim
    subscriber died.  So two exporters of a scope that have the same view of the
    claims never both serve. *)
Theorem no_double_service c1 c2 es1 es2 l1 l2 :
  run loop_step (loop_init c1) es1 = Some l1 -> run loop_step (loop_init c2) es2 = Some l2 ->
  serving l1 = true -> serving l2 = true ->
  died (claim l1) = false -> died (claim l2) = false ->
  claims (claim l1) = claims (claim l2) ->
  own (claim l1) = own (claim l2) /\ elect (claims (claim l1)) (own (claim l1)) = true.
Proof.
  intros H1 H2 S1 S2 D1 D2 E. apply run_loop_inv in H1 as [_ H1], H2 as [_ H2].
  assert (forall l, serving l = true -> died (claim l) = false ->
    match l_phase l with
    | Subscribing | Replaying | Serving =>
        elect (claims (claim l)) (own (claim l)) = true \/ died (claim l) = true
    | Draining _ _ => table (clients l) = ∅
    | _ => True
    end -> elect (claims (claim l)) (own (claim l)) = true) as He.
  { intros l Hs Hd Hp. unfold serving in Hs. rewrite Hd in Hp. destruct (l_phase l); try done;
      by destruct Hp. }
  pose proof (He l1 S1 D1 H1) as E1. pose proof (He l2 S2 D2 H2) as E2. rewrite E in E1 |- *.
  split; [by apply (elect_agree (claims (claim l2)))|done].
Qed.

Lemma no_double_service_witness :
  exists l, run loop_step (loop_init example_claim) one_client = Some l /\
    elect (claims (claim l)) (own (claim l)) = true.
Proof.
  assert ((fun l => (serving l, died (claim l))) <$> run loop_step (loop_init example_claim) one_client = Some (true, false))
    as Ht by (vm_compute; reflexivity).
  destruct (run loop_step (loop_init example_claim) one_client) as [l|] eqn:E; [|discriminate Ht].
  injection Ht as Hs Hd. exists l. split; [reflexivity|].
  by apply (no_double_service example_claim example_claim one_client one_client l l E E Hs Hs Hd Hd eq_refl).
Defined.

(** What the drain leaves alive. *)
Lemma drain_finishes why hs l :
  l_phase l = Draining why hs ->
  exists es l', run loop_step l es = Some l' /\ length es = S (length hs) /\
    l_phase l' = after_drain why /\ (forall ch, ch ∈ hs -> tasks (clients l') !! ch = None) /\
    (forall ch, tasks (clients l) !! ch = None -> tasks (clients l') !! ch = None).
Proof.
  revert l. induction hs as [|ch hs IH]; intros l E.
  - exists [HandleJoined]. simpl. rewrite E. simpl. eexists. split_and!; try done. intros ch Hin. set_solver.
  - destruct (IH (set_loop (Draining why hs) (claim l) (abort_task ch (clients l)))) as
      (es & l' & Hr & Hl & Hp & Hg & Hk); [done|].
    exists (HandleDeadline :: es), l'. assert (loop_step l HandleDeadline =
      Some (set_loop (Draining why hs) (claim l) (abort_task ch (clients l)))) as Hs
      by (simpl; by rewrite E).
    cbn [run]. rewrite Hs. split_and!; [done|simpl; lia|done| |].
    + intros ch' [->|Hin]%elem_of_cons; [|auto]. apply Hk. simpl. by rewrite lookup_delete_eq.
    + intros ch' Hn. apply Hk. simpl. rewrite lookup_delete_None. auto.
Qed.

(** C19: a shutdown or a demotion ends in a bounded number of steps and leaves no
    client of the old role behind: the drain empties the table at once, cancels
    every task in it, and after one step per handle the loop is stopped, or standing
    by again, with every one of those tasks joined or aborted. *)
Theorem drain_leaves_nothing c0 es l why :
  run loop_step (loop_init c0) es = Some l ->
  let l1 := begin_drain why (claim l) (clients l) in
  table (clients l1) = ∅ /\
  (forall ch t, tasks (clients l1) !! ch = Some t -> t_cancelled t = true) /\
  exists es' l', run loop_step l1 es' = Some l' /\ length es' = S (size (table (clients l))) /\
    l_phase l' = after_drain why /\
    (forall c ch, table (clients l) !! c = Some ch -> tasks (clients l') !! ch = None).
Proof.
  intros Hr l1. destruct (run_loop_inv _ _ _ Hr) as [Hi _].
  pose proof (table_inv_drain _ Hi) as [Hd _]. split_and!; [done| |].
  - intros ch [c b] Ht. destruct b; [done|]. apply Hd in Ht. simpl in Ht. by rewrite lookup_empty in Ht.
  - destruct (drain_finishes why (fst (drain_start (clients l))) l1) as (es' & l' & H1 & H2 & H3 & H4 & _);
      [done|].
    exists es', l'. split_and!; [done| |done|].
    + rewrite H2. simpl. by rewrite length_fmap, length_map_to_list.
    + intros c ch Hc. apply H4, drain_handles. eauto.
Qed.

Lemma drain_leaves_nothing_witness :
  exists l es l', run loop_step (loop_init example_claim) one_client = Some l /\
    run loop_step (begin_drain EndDemoted (claim l) (clients l)) es = Some l' /\ l_phase l' = Standby.
Proof.
  assert (exists l, run loop_step (loop_init example_claim) one_client = Some l) as [l Hl]
    by (eexists; vm_compute; reflexivity).
  destruct (drain_leaves_nothing example_claim one_client l EndDemoted Hl) as (_ & _ & es & l' & H1 & _ & H2 & _).
  exists l, es, l'. split; [exact Hl|]. split; [exact H1|exact H2].
Defined.
