(* ===== verification/Roster.v ===== *)
(** * Roster: an exporter and the client tokens of its scope ([serve_active] of
    [src/export/bridge.rs])

    The loop of [ExportLoop] with the bus it listens to: the tokens that are declared,
    the changes on their way to the loop's subscriber, and the replies its query still
    owes.  The subscriber is declared before the query is made, so a token that comes or
    goes in between shows up in both; changes of different tokens may overtake each
    other. *)

From S2P Require Import Prelude Text KeySpace Election ExportLoop.

(** [news]: changes on their way, once the subscriber is declared; [owed]: clients the
    query has found and not yet reported; [cut]: a shutdown ended the replay; [ended]:
    clients whose task has ended by itself since their token was last reported. *)
Record Roster : Type := {
  r_loop : Loop;
  tokens : gset str;
  news : option (list (SampleKind * str));
  owed : gset str;
  cut : bool;
  ended : gset str;
}.

Inductive RosterEvent : Type :=
| TokenDeclared (c : str)
| TokenWithdrawn (c : str)
| SubscriberUp                     (** [declare_subscriber] succeeds *)
| QueryUp                          (** [liveliness().get] succeeds *)
| ServeFails                       (** one of them does not *)
| Reply (c : str)
| RepliesEnd
| RepliesCut
| News (k : nat)                   (** the [k]-th of the changes reaches the loop *)
| Own (e : LoopEvent).             (** anything else the loop does *)

Definition in_tenure (l : Loop) : bool :=
  match l_phase l with Subscribing | Replaying | Serving => true | _ => false end.

(** The loop's events that are not about client tokens. *)
Definition own_event (e : LoopEvent) : bool :=
  match e with Subscribe _ | ReplayReply _ | ReplayEnds | LivePut _ | LiveDelete _ => false | _ => true end.

(** A client whose task ends without having been cancelled. *)
Definition ends_itself (l : Loop) (e : LoopEvent) : gset str :=
  match e with
  | TaskEnds ch =>
      match tasks (clients l) !! ch with
      | Some t => if t_cancelled t then ∅ else {[t_client t]}
      | None => ∅
      end
  | _ => ∅
  end.

Section Roster.
Context (service : str) (dns_suffix : option str).
Implicit Types r : Roster.

Definition token (c : str) : str := import_token_key service dns_suffix c.

(** The subscriber is undeclared when [serve_active] returns. *)
Definition set_roster_loop (l : Loop) r : Roster :=
  if in_tenure l then
    {| r_loop := l; tokens := tokens r; news := news r; owed := owed r; cut := cut r; ended := ended r |}
  else {| r_loop := l; tokens := tokens r; news := None; owed := ∅; cut := false; ended := ∅ |}.

Definition set_tokens (ts : gset str) (change : SampleKind * str) r : Roster :=
  {| r_loop := r_loop r; tokens := ts; news := (fun q => q ++ [change]) <$> news r; owed := owed r; cut := cut r;
     ended := ended r |}.

(** A report about [c] is handed to the loop. *)
Definition report (e : LoopEvent) (c : str) (news' : option (list (SampleKind * str))) (owed' : gset str) r : option Roster :=
  l ← loop_step (r_loop r) e;
  Some {| r_loop := l; tokens := tokens r; news := news'; owed := owed'; cut := cut r; ended := ended r ∖ {[c]} |}.

(** Only changes of one token keep their order. *)
Definition take_news (k : nat) (q : list (SampleKind * str)) : option (SampleKind * str) :=
  change ← q !! k;
  if decide (Forall (fun earlier => earlier.2 <> change.2) (take k q)) then Some change else None.

Definition live_event (change : SampleKind * str) : LoopEvent :=
  match change with (Put, c) => LivePut (token c) | (Delete, c) => LiveDelete (token c) end.

Definition roster_step r (e : RosterEvent) : option Roster :=
  match e with
  | TokenDeclared c =>
      if decide (c ∈ tokens r \/ c = [] \/ sep ∈ c) then None else Some (set_tokens ({[c]} ∪ tokens r) (Put, c) r)
  | TokenWithdrawn c => if decide (c ∈ tokens r) then Some (set_tokens (tokens r ∖ {[c]}) (Delete, c) r) else None
  | SubscriberUp =>
      match l_phase (r_loop r), news r with
      | Subscribing, None =>
          Some {| r_loop := r_loop r; tokens := tokens r; news := Some []; owed := ∅; cut := false; ended := ∅ |}
      | _, _ => None
      end
  | QueryUp =>
      _ ← news r; l ← loop_step (r_loop r) (Subscribe true);
      Some {| r_loop := l; tokens := tokens r; news := news r; owed := tokens r; cut := false; ended := ∅ |}
  | ServeFails => l ← loop_step (r_loop r) (Subscribe false); Some (set_roster_loop l r)
  | Reply c => if decide (c ∈ owed r) then report (ReplayReply (token c)) c (news r) (owed r ∖ {[c]}) r else None
  | RepliesEnd =>
      if decide (owed r = ∅) then l ← loop_step (r_loop r) ReplayEnds; Some (set_roster_loop l r) else None
  | RepliesCut =>
      l ← loop_step (r_loop r) ReplayEnds;
      Some {| r_loop := l; tokens := tokens r; news := news r; owed := ∅; cut := true; ended := ended r |}
  | News k =>
      q ← news r; change ← take_news k q;
      report (live_event change) (snd change) (Some (delete k q)) (owed r) r
  | Own e =>
      if own_event e then
        l ← loop_step (r_loop r) e;
        Some (set_roster_loop l {| r_loop := r_loop r; tokens := tokens r; news := news r; owed := owed r; cut := cut r;
                                   ended := ended r ∪ ends_itself (r_loop r) e |})
      else None
  end.

(** An exporter that starts when these tokens are there. *)
Definition roster_at (ts : gset str) (c : Claim) : Roster :=
  {| r_loop := loop_init c; tokens := ts; news := None; owed := ∅; cut := false; ended := ∅ |}.

(** The step of the loop in a step of the roster. *)
Definition loop_event r (e : RosterEvent) : option LoopEvent :=
  match e with
  | TokenDeclared _ | TokenWithdrawn _ | SubscriberUp => None
  | QueryUp => Some (Subscribe true)
  | ServeFails => Some (Subscribe false)
  | Reply c => Some (ReplayReply (token c))
  | RepliesEnd | RepliesCut => Some ReplayEnds
  | News k => q ← news r; live_event <$> take_news k q
  | Own e => Some e
  end.
End Roster.

Definition client_ok (c : str) : Prop := c <> [] /\ sep ∉ c.

(** ** The news of a token *)

Definition last_news (c : str) (q : list (SampleKind * str)) : option SampleKind :=
  last (fst <$> filter (fun change => change.2 = c) q).

Lemma last_news_app c a b :
  last_news c (a ++ b) = match last_news c b with Some k => Some k | None => last_news c a end.
Proof. unfold last_news. by rewrite filter_app, fmap_app, last_app. Qed.

Lemma last_news_one c k c' : last_news c [(k, c')] = if decide (c' = c) then Some k else None.
Proof. unfold last_news. rewrite filter_cons. simpl. by case_decide. Qed.

Lemma last_news_none c q : Forall (fun change => change.2 <> c) q -> last_news c q = None.
Proof.
  intros Hq. unfold last_news. assert (filter (fun change => change.2 = c) q = []) as ->; [|done].
  induction Hq as [|ch q Hne _ IH]; [done|]. by rewrite filter_cons_False.
Qed.

Lemma last_news_snoc c q k c' :
  last_news c (q ++ [(k, c')]) = if decide (c' = c) then Some k else last_news c q.
Proof. rewrite last_news_app, last_news_one. by case_decide. Qed.

(** The change that is taken was the oldest of its token. *)
Lemma take_news_spec n q k c :
  take_news n q = Some (k, c) ->
  (forall x, x <> c -> last_news x (delete n q) = last_news x q) /\
  last_news c q = Some (default k (last_news c (delete n q))) /\ (k, c) ∈ q /\ n < length q.
Proof.
  unfold take_news. intros (ch & Hk & Ht)%bind_Some. case_decide as Hf; [|done]. injection Ht as ->. simpl in Hf.
  pose proof (lookup_lt_Some _ _ _ Hk) as Hn. pose proof (take_drop_middle q n (k, c) Hk) as Hq.
  assert (delete n q = take n q ++ drop (S n) q) as -> by apply delete_take_drop.
  assert (last_news c (take n q) = None) as Hno by by apply last_news_none.
  assert (forall x, last_news x q = last_news x (take n q ++ (k, c) :: drop (S n) q)) as E by (intros; by rewrite Hq).
  split_and!; [| |by eapply list_elem_of_lookup_2|done].
  - intros x Hx. rewrite E. rewrite (cons_middle _ (take n q)), !last_news_app, last_news_one, decide_False by done.
    by destruct (last_news x (drop (S n) q)).
  - rewrite E. rewrite (cons_middle _ (take n q)), !last_news_app, last_news_one, decide_True, Hno by done.
    by destruct (last_news c (drop (S n) q)).
Qed.

(** ** What the loop knows *)

(** A client it has a task for, or had one that ended by itself. *)
Definition knows (l : Loop) (ended : gset str) (c : str) : Prop := is_Some (table (clients l) !! c) \/ c ∈ ended.

Lemma dispatch_table c s x :
  is_Some (table (dispatch_client_connect c s) !! x) <-> x = c \/ is_Some (table s !! x).
Proof.
  unfold dispatch_client_connect. destruct (table s !! c) as [ch|] eqn:E; simpl.
  - split; [auto|]. intros [->|?]; [by rewrite E|done].
  - rewrite lookup_insert_is_Some. destruct (decide (x = c)); naive_solver.
Qed.

Lemma disconnect_table c s x :
  is_Some (table (handle_client_disconnect c s) !! x) <-> x <> c /\ is_Some (table s !! x).
Proof.
  unfold handle_client_disconnect. destruct (table s !! c) as [ch|] eqn:E; simpl.
  - rewrite lookup_delete_is_Some. naive_solver.
  - split; [|naive_solver]. intros Hx. split; [|done]. intros ->. rewrite E in Hx. by destruct Hx.
Qed.

(** A task that ends by itself leaves the table for the clients that have ended. *)
Lemma task_ends_knows l ch cl E x :
  loop_inv l -> task_ends ch (clients l) = Some cl ->
  (is_Some (table cl !! x) \/ x ∈ E ∪ ends_itself l (TaskEnds ch)) <-> knows l E x.
Proof.
  intros [Hi _] Hs. unfold knows, ends_itself.
  assert (is_Some (table cl !! x) <-> exists ch', table (clients l) !! x = Some ch' /\ ch' <> ch) as ->.
  { split; intros [ch' H]; exists ch'; by apply (task_ends_table _ _ _ x ch' Hi Hs). }
  unfold task_ends in Hs. apply bind_Some in Hs as ([c b] & Htask & _). rewrite Htask. simpl.
  pose proof (proj1 Hi c ch) as Hc. destruct b.
  - rewrite union_empty_r_L. split; [by intros [(ch' & -> & _)|?]; [left|right]|]. intros [[ch' Hx]|?]; [left|by right].
    exists ch'. split; [done|]. intros ->. apply (proj1 Hi) in Hx. congruence.
  - rewrite elem_of_union, elem_of_singleton. rewrite Htask in Hc. split.
    + intros [(ch' & -> & _)|[?|Ex]]; [by left|by right|]. subst x. left. by rewrite (proj2 Hc).
    + intros [[ch' Hx]|?]; [|auto]. destruct (decide (ch' = ch)) as [->|Hne]; [|eauto].
      right; right. apply (proj1 Hi) in Hx. congruence.
Qed.

(** What an event that is not about tokens does inside a tenure. *)
Lemma own_step l e l' E :
  own_event e = true -> loop_inv l -> loop_step l e = Some l' -> in_tenure l' = true ->
  l_phase l' = l_phase l /\ (forall x, knows l' (E ∪ ends_itself l e) x <-> knows l E x) \/
  l_phase l = Standby /\ l_phase l' = Subscribing.
Proof.
  intros He Hi Hs Hin. unfold knows.
  destruct e as [s| | | |ok|key| |key|key| | | |ch| |]; try done; simpl in Hs; unfold in_tenure in Hin.
  1-2: simplify_eq; left; simpl; by rewrite union_empty_r_L.
  6: { apply bind_Some in Hs as (cl & Hcl & [= <-]). left. split; [done|]. intros x. by apply task_ends_knows. }
  all: destruct (l_phase l) as [| | | |why [|ch rest]| |] eqn:Ep; try done; simplify_eq/=.
  - right. split; [done|]. by destruct (_ || _).
  - left. rewrite Ep, union_empty_r_L. by split.
  - left. rewrite union_empty_r_L. unfold on_claim_changed in Hs. destruct (pending (claim l)) as [|s more].
    + destruct (died (claim l)); simplify_eq. by rewrite Ep.
    + simpl in Hs. destruct (elect _ _); by simplify_eq/=.
  - by destruct why.
  - by case_decide; simplify_eq.
Qed.

(** ** The invariant *)
Section Invariant.
Context (service : str) (dns_suffix : option str).
Implicit Types r : Roster.

Abbreviation step := (roster_step service dns_suffix).

(** The last news of a token is what became of it; a client without news is known, or
    about to be reported, only if its token is there, and always then unless the replay
    was cut short. *)
Record roster_inv r : Prop := {
  ri_loop : loop_inv (r_loop r);
  ri_idle : idle (r_loop r) = true -> table (clients (r_loop r)) = ∅;
  ri_out : in_tenure (r_loop r) = false -> news r = None;
  ri_up : serving (r_loop r) = true -> is_Some (news r);
  ri_replayed : l_phase (r_loop r) = Serving -> owed r = ∅;
  ri_ok c : c ∈ tokens r \/ c ∈ owed r -> client_ok c;
  ri_news q c k : news r = Some q -> last_news c q = Some k -> client_ok c /\ (c ∈ tokens r <-> k = Put);
  ri_sound q c : serving (r_loop r) = true -> news r = Some q -> last_news c q = None ->
    knows (r_loop r) (ended r) c \/ c ∈ owed r -> c ∈ tokens r;
  ri_complete q c : serving (r_loop r) = true -> cut r = false -> news r = Some q -> last_news c q = None ->
    c ∈ tokens r -> knows (r_loop r) (ended r) c \/ c ∈ owed r;
}.

Lemma roster_inv_at ts c : (forall x, x ∈ ts -> client_ok x) -> roster_inv (roster_at ts c).
Proof using Type. intros Hts. split; try done. intros x. simpl. set_solver. Qed.

Lemma client_of_ok c : client_ok c -> client_of_key (token service dns_suffix c) = Some c.
Proof using Type. intros [Hne Hs]. by apply client_of_token. Qed.

(** A token comes or goes. *)
Lemma roster_inv_tokens r c k ts :
  roster_inv r -> client_ok c -> (c ∈ ts <-> k = Put) -> (forall x, x <> c -> x ∈ ts <-> x ∈ tokens r) ->
  roster_inv (set_tokens ts (k, c) r).
Proof using Type.
  intros [] Hc Hk Hother.
  assert (forall q, (fun q => q ++ [(k, c)]) <$> news r = Some q -> exists q0, news r = Some q0 /\ q = q0 ++ [(k, c)]) as Hq.
  { intros q (q0 & Hq & E)%fmap_Some. by exists q0. }
  split; simpl; try done.
  - intros Hin. by rewrite ri_out0.
  - intros Hs. destruct (ri_up0 Hs) as [q ->]. by eexists.
  - intros x Hx. destruct (decide (x = c)) as [->|Hne]; [done|]. apply ri_ok0. rewrite <- Hother by done. naive_solver.
  - intros q x k' (q0 & Hq0 & ->)%Hq. rewrite last_news_snoc. case_decide as E.
    + intros [= <-]. by subst.
    + intros Hl. rewrite Hother by congruence. by eapply ri_news0.
  - intros q x Hs (q0 & Hq0 & ->)%Hq. rewrite last_news_snoc. case_decide; [done|]. intros Hl Hx.
    rewrite Hother by congruence. by eapply ri_sound0.
  - intros q x Hs Hcut (q0 & Hq0 & ->)%Hq. rewrite last_news_snoc. case_decide; [done|].
    rewrite Hother by congruence. by apply ri_complete0.
Qed.

(** Anything the loop does by itself. *)
Lemma roster_inv_own r e l :
  roster_inv r -> own_event e = true -> loop_step (r_loop r) e = Some l ->
  roster_inv (set_roster_loop l {| r_loop := r_loop r; tokens := tokens r; news := news r; owed := owed r; cut := cut r;
    ended := ended r ∪ ends_itself (r_loop r) e |}).
Proof using Type.
  intros Hr He Hs. pose proof Hr as [].
  pose proof (loop_inv_step _ _ _ ri_loop0 Hs) as Hl. pose proof (idle_table _ _ _ ri_loop0 ri_idle0 Hs) as Hidle.
  unfold set_roster_loop. destruct (in_tenure l) eqn:Hin.
  - destruct (own_step _ _ _ (ended r) He ri_loop0 Hs Hin) as [[Hp Hk]|[Hp Hp']].
    + assert (serving l = serving (r_loop r)) as Hsv by (unfold serving; by rewrite Hp).
      split; simpl; rewrite ?Hsv, ?Hp; try done; [congruence|..].
      * intros q x Hser Hq Hn. rewrite Hk. by eapply ri_sound0.
      * intros q x Hser Hc Hq Hn. rewrite Hk. by eapply ri_complete0.
    + assert (serving l = false) as Hsv by (unfold serving; by rewrite Hp').
      split; simpl; rewrite ?Hsv, ?Hp'; try done. congruence.
  - assert (serving l = false) as Hsv by (unfold serving, in_tenure in *; by destruct (l_phase l)).
    split; simpl; rewrite ?Hsv; try done. intros c [Hc|Hc]; [apply ri_ok0; auto|set_solver].
Qed.

Lemma roster_inv_left r l :
  roster_inv r -> loop_inv l -> (idle l = true -> table (clients l) = ∅) -> in_tenure l = false ->
  roster_inv (set_roster_loop l r).
Proof using Type.
  intros [] Hl Hidle Hin. unfold set_roster_loop. rewrite Hin.
  assert (serving l = false) as Hsv by (unfold serving, in_tenure in *; by destruct (l_phase l)).
  split; simpl; rewrite ?Hsv; try done. intros c [Hc|Hc]; [apply ri_ok0; auto|set_solver].
Qed.

(** The subscriber is up: nothing has happened since. *)
Lemma roster_inv_subscriber r r' : roster_inv r -> step r SubscriberUp = Some r' -> roster_inv r'.
Proof using Type.
  intros [] Hs. simpl in Hs. destruct (l_phase (r_loop r)) eqn:Ep; try done. destruct (news r); [done|]. simplify_eq.
  assert (serving (r_loop r) = false) as Hsv by (unfold serving; by rewrite Ep).
  split; simpl; rewrite ?Hsv; try done.
  - unfold in_tenure. by rewrite Ep.
  - intros c [Hc|Hc]; [apply ri_ok0; auto|set_solver].
  - intros q c k [= <-]. done.
Qed.

(** The query finds the tokens there are. *)
Lemma roster_inv_query r r' : roster_inv r -> step r QueryUp = Some r' -> roster_inv r'.
Proof using Type.
  intros Hr Hs. simpl in Hs. destruct (news r) as [q|] eqn:Eq; [|done]. simpl in Hs.
  apply bind_Some in Hs as (l & Hl & [= <-]). pose proof Hr as [].
  pose proof (loop_inv_step _ (Subscribe true) _ ri_loop0 Hl) as Hinv.
  simpl in Hl. destruct (l_phase (r_loop r)) as [| | | |why []| |] eqn:Ep; try done. simplify_eq.
  split; simpl; rewrite ?Eq; try done.
  - intros c [Hc|Hc]; apply ri_ok0; auto.
  - intros q' c k [= <-]. by apply ri_news0.
  - intros q' c _ _ _ [[Hc|Hc]|Hc]; [|set_solver|done]. exfalso. simpl in Hc.
    rewrite ri_idle0 in Hc by (unfold idle; by rewrite Ep). rewrite lookup_empty in Hc. by destruct Hc.
  - auto.
Qed.

Lemma roster_inv_replayed r l :
  roster_inv r -> loop_step (r_loop r) ReplayEnds = Some l -> owed r = ∅ -> roster_inv (set_roster_loop l r).
Proof using Type.
  intros [] Hl Ho. pose proof (loop_inv_step _ _ _ ri_loop0 Hl) as Hinv. simpl in Hl.
  destruct (l_phase (r_loop r)) as [| | | |why []| |] eqn:Ep; try done. simplify_eq.
  assert (serving (r_loop r) = true) as Hsv by (unfold serving; by rewrite Ep).
  split; simpl; try done.
  - auto.
  - intros q c _. by apply ri_sound0.
  - intros q c _. by apply ri_complete0.
Qed.

Lemma roster_inv_cut r r' : roster_inv r -> step r RepliesCut = Some r' -> roster_inv r'.
Proof using Type.
  intros [] Hs. simpl in Hs. apply bind_Some in Hs as (l & Hl & [= <-]).
  pose proof (loop_inv_step _ ReplayEnds _ ri_loop0 Hl) as Hinv. simpl in Hl.
  destruct (l_phase (r_loop r)) as [| | | |why []| |] eqn:Ep; try done. simplify_eq.
  assert (serving (r_loop r) = true) as Hsv by (unfold serving; by rewrite Ep).
  split; simpl; try done.
  - auto.
  - intros c [Hc|Hc]; [apply ri_ok0; auto|set_solver].
  - intros q c _ Hq Hn [Hk|Hc]; [|set_solver]. apply (ri_sound0 q c Hsv Hq Hn). by left.
Qed.

(** A client is reported. *)
Lemma announced_knows l c E x :
  client_ok c ->
  knows (set_loop (l_phase l) (claim l) (on_client dispatch_client_connect (token service dns_suffix c) (clients l)))
    (E ∖ {[c]}) x <-> x = c \/ knows l E x.
Proof using Type.
  intros Hc. unfold on_client, knows. rewrite client_of_ok by done. simpl. rewrite dispatch_table.
  destruct (decide (x = c)); set_solver.
Qed.

Lemma departed_knows l c E x :
  client_ok c ->
  knows (set_loop (l_phase l) (claim l) (on_client handle_client_disconnect (token service dns_suffix c) (clients l)))
    (E ∖ {[c]}) x <-> x <> c /\ knows l E x.
Proof using Type.
  intros Hc. unfold on_client, knows. rewrite client_of_ok by done. simpl. rewrite disconnect_table, elem_of_difference, elem_of_singleton. naive_solver.
Qed.

Lemma roster_inv_reply r c r' : roster_inv r -> step r (Reply c) = Some r' -> roster_inv r'.
Proof using Type.
  intros Hr Hs. simpl in Hs. case_decide as Hc; [|done]. unfold report in Hs.
  apply bind_Some in Hs as (l & Hl & [= <-]). pose proof Hr as [].
  pose proof (loop_inv_step _ (ReplayReply _) _ ri_loop0 Hl) as Hinv. assert (client_ok c) as Hok by auto.
  simpl in Hl. destruct (l_phase (r_loop r)) as [| | | |why []| |] eqn:Ep; try done. simplify_eq.
  assert (serving (r_loop r) = true) as Hsv by (unfold serving; by rewrite Ep).
  pose proof (announced_knows (r_loop r) c (ended r)) as Hk. rewrite Ep in Hk.
  split; simpl; try done.
  - auto.
  - intros x Hx. apply ri_ok0. set_solver.
  - intros q x _ Hq Hn. rewrite Hk by done. intros Hx. apply (ri_sound0 q x Hsv Hq Hn). set_solver.
  - intros q x _ Hcut Hq Hn Hx. rewrite Hk by done.
    destruct (ri_complete0 q x Hsv Hcut Hq Hn Hx) as [?|?]; [auto|]. destruct (decide (x = c)); set_solver.
Qed.

Lemma roster_inv_change r n r' : roster_inv r -> step r (News n) = Some r' -> roster_inv r'.
Proof using Type.
  intros Hr Hs. simpl in Hs. destruct (news r) as [q|] eqn:Eq; [|done]. simpl in Hs.
  apply bind_Some in Hs as ([k c] & Ht & Hs). unfold report in Hs. apply bind_Some in Hs as (l & Hl & [= <-]).
  pose proof Hr as []. pose proof (loop_inv_step _ (live_event _ _ (k, c)) _ ri_loop0 Hl) as Hinv.
  destruct (take_news_spec _ _ _ _ Ht) as (Hother & Hlast & _ & _).
  destruct (ri_news0 q c _ Eq Hlast) as [Hok Hc].
  assert (l_phase (r_loop r) = Serving /\ l_phase l = Serving /\
    forall x, knows l (ended r ∖ {[c]}) x <-> (k = Put /\ x = c) \/ (x <> c \/ k = Put) /\ knows (r_loop r) (ended r) x)
    as (Ep & Ep' & Hk).
  { destruct k; simpl in Hl; destruct (l_phase (r_loop r)) as [| | | |why []| |] eqn:Ep; try done; simplify_eq; (split_and!; [done|done|]).
    - intros x. pose proof (announced_knows (r_loop r) c (ended r) x Hok) as H. rewrite Ep in H. rewrite H. naive_solver.
    - intros x. pose proof (departed_knows (r_loop r) c (ended r) x Hok) as H. rewrite Ep in H. rewrite H. naive_solver. }
  assert (serving (r_loop r) = true) as Hsv by (unfold serving; by rewrite Ep).
  assert (forall x k', last_news x (delete n q) = Some k' -> last_news x q = Some k') as Hkeep.
  { intros x k' Hx. destruct (decide (x = c)) as [->|]; [|by rewrite <- Hother]. by rewrite Hlast, Hx. }
  split; simpl; rewrite ?Ep'; try done.
  - unfold idle. by rewrite Ep'.
  - unfold in_tenure. by rewrite Ep'.
  - auto.
  - intros q' x k' [= <-] Hx%Hkeep. by eapply ri_news0.
  - intros q' x _ [= <-] Hn Hx. destruct (decide (x = c)) as [->|Hne].
    + rewrite Hn in Hc. apply Hc. rewrite Hk in Hx. simpl. rewrite ri_replayed0 in Hx by done. set_solver.
    + rewrite Hother in Hn by done. apply (ri_sound0 q x Hsv Eq Hn). rewrite Hk in Hx. naive_solver.
  - intros q' x _ Hcut [= <-] Hn Hx. rewrite Hk. destruct (decide (x = c)) as [->|Hne].
    + rewrite Hn in Hc. simpl in Hc. left; left. by split; [apply Hc|].
    + rewrite Hother in Hn by done. destruct (ri_complete0 q x Hsv Hcut Eq Hn Hx); auto.
Qed.

Lemma roster_inv_step r e r' : roster_inv r -> step r e = Some r' -> roster_inv r'.
Proof using Type.
  intros Hr. destruct e as [c|c| | | |c| | |n|e]; intros Hs;
    eauto using roster_inv_subscriber, roster_inv_query, roster_inv_reply, roster_inv_cut, roster_inv_change; simpl in Hs.
  - case_decide as Hc; [done|]. injection Hs as <-. apply roster_inv_tokens; [done|split; tauto|set_solver|set_solver].
  - case_decide as Hc; [|done]. injection Hs as <-.
    apply roster_inv_tokens; [done|apply (ri_ok _ Hr); auto|set_solver|set_solver].
  - apply bind_Some in Hs as (l & Hl & [= <-]). apply roster_inv_left; [done|by apply (loop_inv_step _ (Subscribe false) _ (ri_loop _ Hr) Hl)| |].
    + by apply (idle_table _ (Subscribe false) _ (ri_loop _ Hr) (ri_idle _ Hr) Hl).
    + simpl in Hl. destruct (l_phase (r_loop r)) as [| | | |why []| |]; by simplify_eq.
  - case_decide; [|done]. apply bind_Some in Hs as (l & Hl & [= <-]). by apply roster_inv_replayed.
  - destruct (own_event e) eqn:He; [|done]. apply bind_Some in Hs as (l & Hl & [= <-]). by apply roster_inv_own.
Qed.

Lemma run_roster_inv ts c es r :
  (forall x, x ∈ ts -> client_ok x) -> run step (roster_at ts c) es = Some r -> roster_inv r.
Proof using Type. intros Hts. apply run_invariant; [by apply roster_inv_at|apply roster_inv_step]. Qed.

(** The loop takes a step of its own, or none; only clients change the tokens. *)
Lemma roster_step_loop r e r' :
  step r e = Some r' ->
  match loop_event service dns_suffix r e with
  | Some le => loop_step (r_loop r) le = Some (r_loop r')
  | None => r_loop r' = r_loop r
  end /\ match e with TokenDeclared _ | TokenWithdrawn _ => True | _ => tokens r' = tokens r end.
Proof using Type.
  assert (forall l r0, r_loop (set_roster_loop l r0) = l /\ tokens (set_roster_loop l r0) = tokens r0) as Hset
    by (intros l r0; unfold set_roster_loop; by destruct (in_tenure l)).
  intros Hs. destruct e as [c|c| | | |c| | |n|e]; cbn [loop_event] in *; unfold roster_step, report in Hs;
    repeat (case_decide; try done); try (by simplify_eq).
  - by destruct (l_phase (r_loop r)), (news r); simplify_eq.
  - apply bind_Some in Hs as (q & _ & Hs). by apply bind_Some in Hs as (l & Hl & [= <-]).
  - apply bind_Some in Hs as (l & Hl & [= <-]). by destruct (Hset l r) as [-> ->].
  - by apply bind_Some in Hs as (l & Hl & [= <-]).
  - apply bind_Some in Hs as (l & Hl & [= <-]). by destruct (Hset l r) as [-> ->].
  - by apply bind_Some in Hs as (l & Hl & [= <-]).
  - apply bind_Some in Hs as (q & -> & Hs). apply bind_Some in Hs as (ch & Ht & Hs). simpl. rewrite Ht. simpl.
    by apply bind_Some in Hs as (l & Hl & [= <-]).
  - destruct (own_event e); [|done]. apply bind_Some in Hs as (l & Hl & [= <-]). by rewrite !(proj1 (Hset _ _)), !(proj2 (Hset _ _)).
Qed.

(** *** What is on its way can be heard *)

(** The reports: replies and changes. *)
Definition is_report (e : RosterEvent) : bool :=
  match e with Reply _ | RepliesEnd | News _ => true | _ => false end.

Definition settled r r' : Prop := tokens r' = tokens r /\ cut r' = cut r.

Lemma settled_trans r1 r2 r3 : settled r1 r2 -> settled r2 r3 -> settled r1 r3.
Proof using Type. intros [] []. split; congruence. Qed.

Lemma replies_arrive n r :
  l_phase (r_loop r) = Replaying -> size (owed r) = n ->
  exists es r', run step r es = Some r' /\ length es = S n /\ forallb is_report es = true /\ settled r r' /\
    l_phase (r_loop r') = Serving /\ owed r' = ∅ /\ news r' = news r.
Proof using Type.
  revert r. induction n as [|n IH]; intros r Ep Hn.
  - apply size_empty_inv, leibniz_equiv in Hn. exists [RepliesEnd]. eexists. simpl. rewrite decide_True by done.
    rewrite Ep. simpl. by split_and!.
  - destruct (set_choose_L (owed r)) as [c Hc]; [intros E; by rewrite E, size_empty in Hn|].
    set (r1 := {| r_loop := set_loop Replaying (claim (r_loop r))
      (on_client dispatch_client_connect (token service dns_suffix c) (clients (r_loop r)));
      tokens := tokens r; news := news r; owed := owed r ∖ {[c]}; cut := cut r; ended := ended r ∖ {[c]} |}).
    destruct (IH r1) as (es & r' & Hr & Hl & Hf & Hs & Hrest); [done| |].
    { simpl. rewrite size_difference by set_solver. rewrite size_singleton. lia. }
    exists (Reply c :: es), r'. cbn [run]. assert (step r (Reply c) = Some r1) as ->.
    { simpl. rewrite decide_True by done. unfold report. simpl. by rewrite Ep. }
    split_and!; [done|simpl; lia|done|exact Hs|apply Hrest..].
Qed.

Lemma changes_arrive q r :
  l_phase (r_loop r) = Serving -> news r = Some q ->
  exists es r', run step r es = Some r' /\ length es = length q /\ forallb is_report es = true /\ settled r r' /\
    l_phase (r_loop r') = Serving /\ owed r' = owed r /\ news r' = Some [].
Proof using Type.
  revert r. induction q as [|[k c] q IH]; intros r Ep Hq.
  - exists [], r. by split_and!.
  - assert (exists r1, step r (News 0) = Some r1 /\ l_phase (r_loop r1) = Serving /\ news r1 = Some q /\
      owed r1 = owed r /\ settled r r1) as (r1 & Hs & Hp & Hn & Ho & Hsettled).
    { simpl. rewrite Hq. simpl. unfold take_news. simpl. unfold report.
      destruct k; simpl; rewrite Ep; simpl; eexists; by split_and!. }
    destruct (IH r1 Hp Hn) as (es & r' & Hr & Hl & Hf & Hse & Hp' & Ho' & Hn').
    exists (News 0 :: es), r'. cbn [run]. rewrite Hs. split_and!; try done; simpl.
    + by rewrite Hl.
    + by apply (settled_trans r r1 r').
    + by rewrite Ho'.
Qed.

Lemma reports_arrive r q :
  roster_inv r -> serving (r_loop r) = true -> news r = Some q ->
  exists es r', run step r es = Some r' /\ length es <= S (size (owed r) + length q) /\ forallb is_report es = true /\
    settled r r' /\ l_phase (r_loop r') = Serving /\ owed r' = ∅ /\ news r' = Some [].
Proof using Type.
  intros Hr Hs Hq. unfold serving in Hs. destruct (l_phase (r_loop r)) eqn:Ep; try done.
  - destruct (replies_arrive _ r Ep eq_refl) as (es1 & r1 & H1 & Hl1 & Hf1 & Hs1 & Hp1 & Ho1 & Hn1).
    destruct (changes_arrive q r1 Hp1) as (es2 & r2 & H2 & Hl2 & Hf2 & Hs2 & Hp2 & Ho2 & Hn2); [by rewrite Hn1|].
    exists (es1 ++ es2), r2. rewrite run_app, H1, length_app, forallb_app, Hf1, Hf2.
    split_and!; try done; [simpl; lia|by apply (settled_trans r r1 r2)|by rewrite Ho2].
  - destruct (changes_arrive q r Ep Hq) as (es & r' & H1 & Hl1 & Hf1 & Hs1 & Hp1 & Ho1 & Hn1).
    exists es, r'. split_and!; try done; [lia|]. rewrite Ho1. by apply (ri_replayed _ Hr).
Qed.
End Invariant.

(** ** Properties *)

(** A task for this client that was not told to stop. *)
Definition has_task (l : Loop) (c : str) : Prop :=
  exists ch, tasks (clients l) !! ch = Some {| t_client := c; t_cancelled := false |}.

Lemma has_task_table l c : loop_inv l -> has_task l c <-> is_Some (table (clients l) !! c).
Proof. intros [[Hi _] _]. split; intros [ch H]; exists ch; by apply Hi. Qed.

(** A running task only for a token that is there; and for that, a running task or one
    that ended by itself. *)
Definition follows (r : Roster) (c : str) : Prop :=
  (has_task (r_loop r) c -> c ∈ tokens r) /\
  (cut r = false -> c ∈ tokens r -> has_task (r_loop r) c \/ c ∈ ended r).

Lemma roster_follows r q c :
  roster_inv r -> serving (r_loop r) = true -> news r = Some q -> last_news c q = None -> c ∉ owed r -> follows r c.
Proof.
  intros Hr Hs Hq Hn Ho. pose proof (has_task_table _ c (ri_loop _ Hr)) as Ht. split.
  - intros H%Ht. apply (ri_sound _ Hr q c Hs Hq Hn). left. by left.
  - intros Hc Hin. destruct (ri_complete _ Hr q c Hs Hc Hq Hn Hin) as [[H|H]|H]; [left; by apply Ht|by right|done].
Qed.

(** C17: an active exporter misses no client.  However tokens come and go, before,
    between and after its subscriber, its query and its replies, and however the changes
    overtake each other: while the exporter serves, a client about which nothing is on its
    way has a running task only if its token is there; and if its token is there, it has
    one, or had one that ended by itself (unless a shutdown cut the replay short).  What
    is on its way can be heard, in at most one step per report and one more, and then that
    holds of every client. *)
Theorem exporter_follows_clients service dns ts c0 es r q :
  let step := roster_step service dns in
  (forall x, x ∈ ts -> client_ok x) -> run step (roster_at ts c0) es = Some r -> serving (r_loop r) = true -> news r = Some q ->
  (forall c, last_news c q = None -> c ∉ owed r -> follows r c) /\
  exists es' r', run step r es' = Some r' /\ forallb is_report es' = true /\
    length es' <= S (size (owed r) + length q) /\ tokens r' = tokens r /\ cut r' = cut r /\ forall c, follows r' c.
Proof.
  intros step Hts Hr Hs Hq. apply run_roster_inv in Hr; [|done]. split; [intros c; by apply roster_follows|].
  destruct (reports_arrive service dns r q Hr Hs Hq) as (es' & r' & Hrun & Hl & Hf & [Ht Hc] & Hp & Ho & Hn).
  exists es', r'. split_and!; try done. intros c. apply (roster_follows r' []); [|by unfold serving; rewrite Hp|done|done|by rewrite Ho].
  by eapply (run_invariant step roster_inv); [exact Hr|apply roster_inv_step|exact Hrun].
Qed.

(** ** Examples *)

(** One client waits for the exporter, one comes between subscriber and query and one
    leaves while the replies arrive. *)
Definition takeover : list RosterEvent :=
  [TokenDeclared "c1"; TokenDeclared "c3"; Own StandbyPoll; SubscriberUp; TokenDeclared "c2"; QueryUp; Reply "c1";
   TokenWithdrawn "c3"; Reply "c3"].

Definition overtaken : list (SampleKind * str) := [(Put, "c2" : str); (Delete, "c3" : str)].

Lemma no_tokens_ok (x : str) : x ∈ (∅ : gset str) -> client_ok x.
Proof. set_solver. Qed.

Lemma takeover_runs :
  match run (roster_step "web" None) (roster_at ∅ example_claim) takeover with
  | Some r => bool_decide (serving (r_loop r) = true /\ news r = Some overtaken /\ size (owed r) = 1 /\
      tokens r = {["c1" : str; "c2" : str]} /\ cut r = false)
  | None => false
  end = true.
Proof. vm_compute. reflexivity. Qed.

Lemma exporter_follows_clients_witness :
  exists r, run (roster_step "web" None) (roster_at ∅ example_claim) takeover = Some r /\
    exists es r', run (roster_step "web" None) r es = Some r' /\ length es <= 4 /\ (has_task (r_loop r') "c2" \/ ("c2" : str) ∈ ended r') /\
      ~ has_task (r_loop r') "c3".
Proof.
  pose proof takeover_runs as H.
  destruct (run (roster_step "web" None) (roster_at ∅ example_claim) takeover) as [r|] eqn:E; [|discriminate H].
  apply bool_decide_eq_true in H as (Hs & Hn & Ho & Ht & Hc). exists r. split; [reflexivity|].
  destruct (exporter_follows_clients "web" None ∅ example_claim takeover r overtaken no_tokens_ok E Hs Hn)
    as (_ & es & r' & Hr & _ & Hl & Ht' & Hc' & Hf).
  exists es, r'. split; [exact Hr|]. split; [rewrite Ho in Hl; exact Hl|]. rewrite Ht in Ht'. rewrite Hc in Hc'. split.
  - apply (Hf "c2"); [exact Hc'|]. rewrite Ht'. set_solver.
  - intros H. apply (Hf "c3") in H. rewrite Ht' in H. apply elem_of_union in H as [H|H]; apply elem_of_singleton in H; discriminate H.
Defined.

(** A client that appears between the subscriber and the query is reported twice.  The
    second report is ignored while the first one's task runs; when that has ended, it
    starts another. *)
Example redelivered_put_redials :
  (fun r => map_to_list (tasks (clients (r_loop r)))) <$> run (roster_step "web" None) (roster_at ∅ example_claim)
    [Own StandbyPoll; SubscriberUp; TokenDeclared "c1"; QueryUp; Reply "c1"; Own (TaskEnds 0); RepliesEnd; News 0] =
  Some [(1, {| t_client := "c1"; t_cancelled := false |})].
Proof. vm_compute. reflexivity. Qed.
