(* ===== verification/Fleet.v ===== *)
(** * Fleet: the exporters of one scope together ([src/export/election.rs],
    [src/export/bridge.rs])

    Any number of exporters, each a [Loop], share a scope.  Joining declares the claim
    subscriber, with history, and then the token; leaving (the loop returns, the process
    dies) withdraws the token.  Liveliness changes travel to each subscriber at their own
    pace; only those of one claim keep their order. *)

From S2P Require Import Prelude Text KeySpace Election ExportLoop.

(** [incoming]: changes on their way to its claim subscriber. *)
Record Member : Type := { up : bool; incoming : list ClaimSample; loop : Loop }.

(** [live]: the claims whose token is declared. *)
Record Fleet : Type := { members : list Member; live : gset str }.

Inductive FleetEvent : Type :=
| Join (ts : N) (zid uuid : str)
| Leave (i : nat)
| Arrive (i k : nat)                  (** the [k]-th of the changes on their way *)
| Local (i : nat) (e : LoopEvent).

(** The function returned: its claim is dropped. *)
Definition returned (l : Loop) : bool :=
  match l_phase l with LoopStopped | LoopFailed => true | _ => false end.

Definition segment_of (s : ClaimSample) : str := rsplit_first sep (claim_sample_key s).

Section Fleet.
Context (scope : str).
Implicit Types f : Fleet.

Definition announce (k : SampleKind) (segment : str) : ClaimSample :=
  {| kind := k; claim_sample_key := claim_key scope segment |}.

(** Every subscriber is told of a change. *)
Definition tell (s : ClaimSample) (m : Member) : Member :=
  {| up := up m; incoming := incoming m ++ [s]; loop := loop m |}.

(** The history of the subscriber replays the claims that are older. *)
Definition newcomer (ts : N) (zid uuid : str) (older : gset str) : Member :=
  {| up := true; incoming := announce Put <$> elements older; loop := loop_init (establish ts zid uuid []) |}.

Definition join (ts : N) (zid uuid : str) f : option Fleet :=
  let own := claim_segment ts zid uuid in
  if decide (own ∈ live f \/ sep ∈ zid \/ sep ∈ uuid) then None
  else Some {| members := tell (announce Put own) <$> (members f ++ [newcomer ts zid uuid (live f)]);
               live := {[own]} ∪ live f |}.

Definition stop (m : Member) : Member := {| up := false; incoming := []; loop := loop m |}.

Definition leave (i : nat) (m : Member) f : Fleet :=
  let segment := own (claim (loop m)) in
  {| members := tell (announce Delete segment) <$> <[i := stop m]> (members f); live := live f ∖ {[segment]} |}.

Definition set_member (i : nat) (m : Member) f : Fleet := {| members := <[i := m]> (members f); live := live f |}.

Definition set_member_loop (l : Loop) (m : Member) : Member := {| up := up m; incoming := incoming m; loop := l |}.

(** A member that is up. *)
Definition running (i : nat) f : option Member :=
  m ← members f !! i; if up m then Some m else None.

Definition arrive (k : nat) (m : Member) : option Member :=
  s ← incoming m !! k;
  if decide (Forall (fun s' => claim_sample_key s' <> claim_sample_key s) (take k (incoming m))) then
    l ← loop_step (loop m) (ClaimArrives s);
    Some {| up := up m; incoming := delete k (incoming m); loop := l |}
  else None.

Definition fleet_step f (e : FleetEvent) : option Fleet :=
  match e with
  | Join ts zid uuid => join ts zid uuid f
  | Leave i => m ← running i f; Some (leave i m f)
  | Arrive i k => m ← running i f; m ← arrive k m; Some (set_member i m f)
  | Local i (ClaimArrives _) => None
  | Local i e =>
      m ← running i f; l ← loop_step (loop m) e;
      let m := set_member_loop l m in
      Some (if returned l then leave i m f else set_member i m f)
  end.

Definition no_fleet : Fleet := {| members := []; live := ∅ |}.
End Fleet.

(** ** Views of the claims *)

(** The set a subscriber will have seen when everything on its way has arrived. *)
Definition apply_all (cs : gset str) (l : list ClaimSample) : gset str := fold_left apply_claim l cs.

Lemma apply_claim_spec cs s x :
  x ∈ apply_claim cs s <-> (x = segment_of s /\ kind s = Put) \/ (x <> segment_of s /\ x ∈ cs).
Proof.
  unfold apply_claim, segment_of. destruct (kind s), (decide (x = rsplit_first sep (claim_sample_key s))); set_solver.
Qed.

Lemma apply_claim_swap cs s s' :
  segment_of s <> segment_of s' -> apply_claim (apply_claim cs s) s' = apply_claim (apply_claim cs s') s.
Proof. intros Hne. apply set_eq. intros x. rewrite !apply_claim_spec. naive_solver. Qed.

Lemma apply_all_app cs a b : apply_all cs (a ++ b) = apply_all (apply_all cs a) b.
Proof. apply fold_left_app. Qed.

(** A change overtakes those of other claims. *)
Lemma apply_all_overtake cs a s b :
  Forall (fun s' => segment_of s' <> segment_of s) a ->
  apply_all cs (a ++ s :: b) = apply_all cs (s :: a ++ b).
Proof.
  intros Ha. revert cs. induction Ha as [|s' a Hs _ IH]; intros cs; [done|].
  simpl. rewrite IH. simpl. by rewrite apply_claim_swap.
Qed.

Section Invariant.
Context (scope : str).
Implicit Types f : Fleet.

#[local] Notation announce := (announce scope).
Abbreviation step := (fleet_step scope).

Lemma segment_announce k x : sep ∉ x -> segment_of (announce k x) = x.
Proof.
  intros Hx. unfold segment_of, announce. cbn [claim_sample_key].
  assert (claim_key scope x = (scope ++ lit "/exporter-claim") ++ sep :: x) as ->
    by (unfold claim_key; by rewrite <- app_assoc).
  by apply rsplit_first_app.
Qed.

Lemma apply_announce cs k x :
  sep ∉ x -> apply_claim cs (announce k x) = match k with Put => {[x]} ∪ cs | Delete => cs ∖ {[x]} end.
Proof.
  intros Hx. apply set_eq. intros y. rewrite apply_claim_spec, segment_announce by done.
  destruct k; simpl; destruct (decide (y = x)); set_solver.
Qed.

Lemma apply_all_puts cs (l : list str) :
  Forall (fun x => sep ∉ x) l -> apply_all cs (announce Put <$> l) = list_to_set l ∪ cs.
Proof.
  intros Hl. revert cs. induction Hl as [|x l Hx _ IH]; intros cs; csimpl; [set_solver|].
  rewrite apply_announce by done. change (apply_all ({[x]} ∪ cs) (announce Put <$> l) = {[x]} ∪ list_to_set l ∪ cs).
  rewrite IH. set_solver.
Qed.

Lemma claim_segment_sep ts zid uuid : sep ∉ zid -> sep ∉ uuid -> sep ∉ claim_segment ts zid uuid.
Proof.
  intros Hz Hu. unfold claim_segment, pad_zero. rewrite !elem_of_app, !elem_of_cons, elem_of_app, elem_of_cons.
  intros [[H%elem_of_replicate|H]|[H|[H|[H|H]]]]; try done; [by destruct H|]. by apply show_N_not_in in H.
Qed.

(** What a running member has heard, with what is on its way, is the live claims;
    its own is one of them; standing by with nothing unread it is not the elected
    one, unless its own claim has yet to arrive. *)
Definition standing_by (l : Loop) : bool :=
  match l_phase l with Standby | Draining EndDemoted _ => true | _ => false end.

Record member_inv (claims_live : gset str) (m : Member) : Prop := {
  mi_view : apply_all (claims (claim (loop m))) (pending (claim (loop m)) ++ incoming m) = claims_live;
  mi_own : own (claim (loop m)) ∈ claims_live;
  mi_keys : Forall (fun s => exists k x, s = announce k x /\ sep ∉ x) (incoming m);
  mi_loop : loop_inv (loop m);
  mi_running : returned (loop m) = false;
  mi_idle : standing_by (loop m) = true -> pending (claim (loop m)) = [] ->
    elect (claims (claim (loop m))) (own (claim (loop m))) = false \/ announce Put (own (claim (loop m))) ∈ incoming m;
  mi_table : idle (loop m) = true -> table (clients (loop m)) = ∅;
}.

Record fleet_inv f : Prop := {
  fi_members i m : running i f = Some m -> member_inv (live f) m;
  fi_distinct i j m m' : running i f = Some m -> running j f = Some m' ->
    own (claim (loop m)) = own (claim (loop m')) -> i = j;
  fi_live x : x ∈ live f -> exists i m, running i f = Some m /\ own (claim (loop m)) = x;
  fi_segments x : x ∈ live f -> sep ∉ x;
}.

Lemma running_Some i f m : running i f = Some m <-> members f !! i = Some m /\ up m = true.
Proof.
  unfold running. destruct (members f !! i) as [m'|]; simpl; [|split; [done|by intros []]].
  destruct (up m') eqn:E; split; try done.
  - by intros [= <-].
  - by intros [[= <-] _].
  - intros [[= <-] Hm]. congruence.
Qed.

(** *** Steps of one member's loop *)

Lemma drain_pending_view (c : Claim) l :
  apply_all (claims c) (pending c ++ l) = apply_all (claims (drain_pending c)) (pending (drain_pending c) ++ l).
Proof. unfold drain_pending. simpl. by rewrite apply_all_app. Qed.

(** A step other than an arrival reads pending changes or none. *)
Lemma loop_step_view l e l' :
  (forall s, e <> ClaimArrives s) -> loop_step l e = Some l' ->
  own (claim l') = own (claim l) /\
  forall rest, apply_all (claims (claim l')) (pending (claim l') ++ rest) =
    apply_all (claims (claim l)) (pending (claim l) ++ rest).
Proof.
  intros He Hs. destruct e as [s| | | |ok|key| |key|key| | | |ch| |]; simpl in Hs; [by destruct (He s)|..].
  1: by simplify_eq.
  11: by apply bind_Some in Hs as (cl & _ & [= <-]).
  all: destruct (l_phase l) as [| | | |why [|ch rest0]| |]; try done; simplify_eq; try done.
  - unfold on_standby_poll, poll. simpl. split; [done|]. intros rest. symmetry. apply drain_pending_view.
  - unfold on_claim_changed in Hs. destruct (pending (claim l)) as [|s more] eqn:Ep.
    + destruct (died (claim l)); simplify_eq. by rewrite Ep.
    + simpl in Hs. destruct (elect _ _); simplify_eq/=; (split; [done|]); intros rest; by rewrite apply_all_app.
  - case_decide; by simplify_eq.
Qed.

Lemma standing_unread l e l' :
  (forall s, e <> ClaimArrives s) -> loop_step l e = Some l' -> standing_by l' = true -> pending (claim l') = [] ->
  elect (claims (claim l')) (own (claim l')) = false \/
  standing_by l = true /\ pending (claim l) = [] /\ claims (claim l') = claims (claim l) /\ own (claim l') = own (claim l).
Proof.
  intros He Hs. destruct e as [s| | | |ok|key| |key|key| | | |ch| |]; simpl in Hs; [by destruct (He s)|..].
  1: simplify_eq; simpl; auto.
  11: apply bind_Some in Hs as (cl & _ & [= <-]); simpl; auto.
  all: unfold standing_by; destruct (l_phase l) as [| | | |why [|ch rest]| |] eqn:E; try done; simplify_eq; simpl; auto.
  - destruct (elect _ _) eqn:Ee; [done|]. by destruct (died (claim l)); auto.
  - by destruct ok.
  - by rewrite E.
  - unfold on_claim_changed in Hs. destruct (pending (claim l)) as [|s more].
    + destruct (died (claim l)); simplify_eq. by rewrite E.
    + simpl in Hs. destruct (elect _ _) eqn:Ee; simplify_eq/=; [done|]. auto.
  - destruct why; auto.
  - case_decide; simplify_eq. simpl. destruct why; auto.
Qed.

Lemma member_local cs m e l :
  member_inv cs m -> (forall s, e <> ClaimArrives s) -> loop_step (loop m) e = Some l -> returned l = false ->
  member_inv cs (set_member_loop l m).
Proof.
  intros [Hv Ho Hk Hl Hr Hi Ht] He Hs Hret. pose proof (loop_step_view _ _ _ He Hs) as [Ho' Hv']. split; simpl.
  - by rewrite Hv'.
  - by rewrite Ho'.
  - done.
  - by eapply loop_inv_step.
  - done.
  - intros Hst Hp. destruct (standing_unread _ _ _ He Hs Hst Hp) as [?|(Hst0 & Hp0 & -> & ->)]; auto.
  - by eapply idle_table.
Qed.

Lemma member_tell cs m k x :
  member_inv cs m -> sep ∉ x -> k = Put \/ x <> own (claim (loop m)) ->
  member_inv (apply_claim cs (announce k x)) (tell (announce k x) m).
Proof.
  intros [Hv Ho Hk Hl Hr Hi Ht] Hx Hkx. split; simpl; try done.
  - by rewrite app_assoc, apply_all_app, Hv.
  - rewrite apply_announce by done. destruct k; [set_solver|]. destruct Hkx; [done|set_solver].
  - apply Forall_app_2; [done|]. constructor; [|done]. by exists k, x.
  - intros Hst Hp. destruct (Hi Hst Hp) as [?|?]; [by left|right]. set_solver.
Qed.

Lemma member_newcomer ts zid uuid older :
  let own := claim_segment ts zid uuid in
  sep ∉ own -> (forall x, x ∈ older -> sep ∉ x) ->
  member_inv ({[own]} ∪ older) (tell (announce Put own) (newcomer scope ts zid uuid older)).
Proof.
  intros own Hown Holder.
  assert (Forall (fun x => sep ∉ x) (elements older)) as Hel.
  { apply Forall_forall. intros x Hx%elem_of_elements. auto. }
  split; simpl; try done.
  - rewrite apply_all_app, apply_all_puts by done. simpl. rewrite apply_announce by done. set_solver.
  - set_solver.
  - apply Forall_app_2; [|by constructor; [exists Put, own|]]. apply Forall_forall. intros s (x & -> & Hx)%list_elem_of_fmap.
    exists Put, x. split; [done|]. by apply Holder, elem_of_elements.
  - intros _ _. right. set_solver.
Qed.

Lemma member_arrive cs m k m' : member_inv cs m -> arrive k m = Some m' -> member_inv cs m'.
Proof.
  intros [Hv Ho Hk Hl Hr Hi Ht] Hs. unfold arrive in Hs. apply bind_Some in Hs as (s & Hsk & Hs).
  case_decide as Hord; [|done]. simpl in Hs. injection Hs as <-.
  assert (incoming m = take k (incoming m) ++ s :: drop (S k) (incoming m)) as E by (symmetry; by apply take_drop_middle).
  assert (delete k (incoming m) = take k (incoming m) ++ drop (S k) (incoming m)) as Ed by apply delete_take_drop.
  assert (Forall (fun s' => segment_of s' <> segment_of s) (take k (incoming m))) as Hseg.
  { rewrite Forall_forall in Hk, Hord |- *. intros s' Hs'. specialize (Hord s' Hs').
    destruct (Hk s) as (k1 & x1 & -> & H1); [by eapply list_elem_of_lookup_2|].
    destruct (Hk s') as (k2 & x2 & -> & H2); [by eapply elem_of_prefix, prefix_take|].
    rewrite !segment_announce by done. intros ->. done. }
  split; simpl; try done.
  - rewrite <- Hv, Ed, <- app_assoc, !(apply_all_app _ (pending (claim (loop m)))).
    simpl app. rewrite <- (apply_all_overtake _ (take k (incoming m))) by done. by rewrite <- E.
  - rewrite Ed. rewrite E in Hk. rewrite Forall_app, Forall_cons in Hk. apply Forall_app_2; naive_solver.
  - intros _. by destruct (pending (claim (loop m))).
Qed.

(** *** Steps of the fleet *)

Lemma running_set i j m m0 f :
  running i f = Some m0 -> up m = true ->
  running j (set_member i m f) = if decide (j = i) then Some m else running j f.
Proof.
  intros Hr Hu. apply running_Some in Hr as [Hi _]. unfold running, set_member. simpl. case_decide as E.
  - subst j. rewrite list_lookup_insert_eq by (by eapply lookup_lt_Some). simpl. by rewrite Hu.
  - by rewrite list_lookup_insert_ne.
Qed.

Lemma fleet_inv_set i m m0 f :
  fleet_inv f -> running i f = Some m0 -> member_inv (live f) m -> up m = true ->
  own (claim (loop m)) = own (claim (loop m0)) -> fleet_inv (set_member i m f).
Proof.
  intros [Hm Hd Hl Hs] Hr Hmi Hu Ho.
  assert (forall j m1, running j (set_member i m f) = Some m1 ->
    exists m2, running j f = Some m2 /\ own (claim (loop m1)) = own (claim (loop m2))) as Hown.
  { intros j m1. rewrite (running_set i j m m0) by done. case_decide; [intros [= <-]; subst|]; eauto. }
  split; simpl; [| | |done].
  - intros j m1. rewrite (running_set i j m m0) by done. case_decide; [by intros [= <-]|]. apply Hm.
  - intros j k m1 m2 (m1' & H1 & ->)%Hown (m2' & H2 & ->)%Hown. by eapply Hd.
  - intros x Hx. destruct (Hl x Hx) as (j & mj & Hj & <-). exists j.
    rewrite (running_set i j m m0) by done. case_decide; [subst|by eauto]. exists m. by simplify_eq.
Qed.

Lemma running_leave i j m f m' :
  running j (leave scope i m f) = Some m' ->
  j <> i /\ exists m1, running j f = Some m1 /\ m' = tell (announce Delete (own (claim (loop m)))) m1.
Proof.
  intros [Hj Hu]%running_Some. unfold leave in Hj. simpl in Hj. apply list_lookup_fmap_Some in Hj as (m1 & -> & Hj).
  destruct (decide (j = i)) as [->|Hne].
  - destruct (decide (i < length (members f))) as [Hlt|Hge].
    + rewrite list_lookup_insert_eq in Hj by done. by simplify_eq.
    + rewrite list_insert_ge in Hj by lia. apply lookup_lt_Some in Hj. lia.
  - rewrite list_lookup_insert_ne in Hj by done. split; [done|]. exists m1. split; [|done]. by apply running_Some.
Qed.

Lemma running_leave_other i j m f m1 :
  j <> i -> running j f = Some m1 -> exists m', running j (leave scope i m f) = Some m' /\ loop m' = loop m1.
Proof.
  intros Hne [Hj Hu]%running_Some. exists (tell (announce Delete (own (claim (loop m)))) m1). split; [|done].
  apply running_Some. split; [|done]. unfold leave. simpl. by rewrite list_lookup_fmap, list_lookup_insert_ne, Hj.
Qed.

Lemma fleet_inv_leave i m m0 f :
  fleet_inv f -> running i f = Some m0 -> own (claim (loop m)) = own (claim (loop m0)) -> fleet_inv (leave scope i m f).
Proof.
  intros [Hm Hd Hl Hs] Hr Ho.
  pose proof (mi_own _ _ (Hm _ _ Hr)) as Hin. rewrite <- Ho in Hin.
  assert (sep ∉ own (claim (loop m))) as Hsep by auto. split.
  - intros j m' (Hne & m1 & Hj & ->)%running_leave.
    replace (live (leave scope i m f)) with (apply_claim (live f) (announce Delete (own (claim (loop m)))))
      by (by rewrite apply_announce).
    apply member_tell; [by eapply Hm|done|]. right. rewrite Ho. intros E. apply Hne. symmetry. by eapply Hd.
  - intros j k m1 m2 (_ & m1' & Hj & ->)%running_leave (_ & m2' & Hk & ->)%running_leave. by apply (Hd j k m1' m2').
  - simpl. intros x [Hx Hne]%elem_of_difference. destruct (Hl x Hx) as (j & mj & Hj & <-).
    assert (j <> i) as Hji by (intros ->; rewrite Hr in Hj; injection Hj as ->; apply Hne; rewrite Ho; by apply elem_of_singleton).
    destruct (running_leave_other i j m f mj Hji Hj) as (m' & Hj' & Hlp). exists j, m'. by rewrite Hlp.
  - simpl. intros x Hx. apply Hs. set_solver.
Qed.

Lemma running_join ts zid uuid f f' j m' :
  join scope ts zid uuid f = Some f' -> running j f' = Some m' ->
  exists m1, m' = tell (announce Put (claim_segment ts zid uuid)) m1 /\
    (running j f = Some m1 \/ j = length (members f) /\ m1 = newcomer scope ts zid uuid (live f)).
Proof.
  unfold join. intros Hjoin [Hj Hu]%running_Some. case_decide; [done|]. injection Hjoin as <-. simpl in Hj.
  apply list_lookup_fmap_Some in Hj as (m1 & -> & Hj). exists m1. split; [done|].
  apply lookup_snoc_Some in Hj as [[_ Hj]|[-> ->]]; [left|by right]. by apply running_Some.
Qed.

Lemma running_join_old ts zid uuid f f' j m1 :
  join scope ts zid uuid f = Some f' -> running j f = Some m1 ->
  exists m', running j f' = Some m' /\ loop m' = loop m1.
Proof.
  unfold join. intros Hjoin [Hj Hu]%running_Some. case_decide; [done|]. injection Hjoin as <-.
  exists (tell (announce Put (claim_segment ts zid uuid)) m1). split; [|done]. apply running_Some. split; [|done]. simpl.
  rewrite list_lookup_fmap, lookup_app_l by (by eapply lookup_lt_Some). by rewrite Hj.
Qed.

Lemma fleet_inv_join ts zid uuid f f' : fleet_inv f -> join scope ts zid uuid f = Some f' -> fleet_inv f'.
Proof.
  intros [Hm Hd Hl Hs] Hjoin. set (new := claim_segment ts zid uuid).
  assert (new ∉ live f /\ sep ∉ new /\ live f' = {[new]} ∪ live f) as (Hnew & Hsep & Hlive).
  { unfold join in Hjoin. case_decide as Hc; [done|]. injection Hjoin as <-.
    split; [tauto|]. split; [apply claim_segment_sep; tauto|done]. }
  assert (forall j m', running j f' = Some m' -> exists m1, m' = tell (announce Put new) m1 /\
    (running j f = Some m1 /\ own (claim (loop m')) ∈ live f \/ j = length (members f) /\ m1 = newcomer scope ts zid uuid (live f)))
    as Hold.
  { intros j m' Hj. destruct (running_join _ _ _ _ _ _ _ Hjoin Hj) as (m1 & -> & [Hj1|Hj1]); exists m1; split; auto.
    left. split; [done|]. by apply (mi_own _ _ (Hm _ _ Hj1)). }
  split.
  - intros j m' Hj. destruct (Hold j m' Hj) as (m1 & -> & [[Hj1 _]|[_ ->]]); rewrite Hlive.
    + rewrite <- (apply_announce (live f) Put new) by done. apply member_tell; [by eapply Hm|done|by left].
    + by apply member_newcomer.
  - intros j k m1 m2 Hj Hk E. destruct (Hold j m1 Hj) as (m1' & -> & [[Hj1 Hj2]|[-> ->]]),
      (Hold k m2 Hk) as (m2' & -> & [[Hk1 Hk2]|[-> ->]]); simpl in *; [by eapply Hd| | |done].
    + by rewrite E in Hj2.
    + by rewrite <- E in Hk2.
  - rewrite Hlive. intros x [->%elem_of_singleton|Hx]%elem_of_union.
    + exists (length (members f)), (tell (announce Put new) (newcomer scope ts zid uuid (live f))). split; [|done].
      unfold join in Hjoin. case_decide; [done|]. injection Hjoin as <-. apply running_Some. split; [|done]. simpl.
      by rewrite list_lookup_fmap, lookup_app_r, Nat.sub_diag by done.
    + destruct (Hl x Hx) as (j & mj & Hj & <-). destruct (running_join_old _ _ _ _ _ _ _ Hjoin Hj) as (m' & Hj' & Hlp).
      exists j, m'. by rewrite Hlp.
  - rewrite Hlive. intros x [->%elem_of_singleton|Hx]%elem_of_union; auto.
Qed.

Lemma local_event e : (forall s, e <> ClaimArrives s) \/ exists s, e = ClaimArrives s.
Proof. destruct e; eauto; left; by intros. Qed.

(** A member's own step, as the fleet takes it. *)
Lemma fleet_local i e f f' :
  step f (Local i e) = Some f' ->
  (forall s, e <> ClaimArrives s) /\ exists m l, running i f = Some m /\ loop_step (loop m) e = Some l /\
    f' = (if returned l then leave scope i (set_member_loop l m) f else set_member i (set_member_loop l m) f).
Proof.
  intros Hs. destruct (local_event e) as [He|[s ->]]; [|done]. split; [done|].
  assert (mbind (fun m => l ← loop_step (loop m) e;
    Some (if returned l then leave scope i (set_member_loop l m) f else set_member i (set_member_loop l m) f))
    (running i f) = Some f') as Hs' by (destruct e; try done; by destruct (He s)).
  apply bind_Some in Hs' as (m & Hr & Hs'). apply bind_Some in Hs' as (l & Hl & [= <-]). eauto 10.
Qed.

Lemma fleet_inv_step f e f' : fleet_inv f -> step f e = Some f' -> fleet_inv f'.
Proof.
  intros Hf Hs. destruct e as [ts zid uuid|i|i k|i e].
  - by eapply fleet_inv_join.
  - simpl in Hs. apply bind_Some in Hs as (m & Hr & [= <-]). by eapply fleet_inv_leave.
  - simpl in Hs. apply bind_Some in Hs as (m & Hr & Hs). apply bind_Some in Hs as (m' & Ha & [= <-]).
    pose proof (fi_members _ Hf _ _ Hr) as Hm. apply (fleet_inv_set i m' m); [done|done|by eapply member_arrive|..];
      unfold arrive in Ha; apply bind_Some in Ha as (s & _ & Ha); case_decide; try done; injection Ha as <-; [|done].
    by apply running_Some in Hr as [_ ?].
  - apply fleet_local in Hs as (He & m & l & Hr & Hl & ->). pose proof (fi_members _ Hf _ _ Hr) as Hm.
    pose proof (loop_step_view _ _ _ He Hl) as [Ho _]. destruct (returned l) eqn:E.
    + by apply (fleet_inv_leave i _ m).
    + apply (fleet_inv_set i _ m); [done|done|by eapply member_local| |done]. by apply running_Some in Hr as [_ ?].
Qed.

Lemma run_fleet_inv es f : run step no_fleet es = Some f -> fleet_inv f.
Proof.
  apply (run_invariant step fleet_inv).
  - split; simpl; try done; intros i; by rewrite ?lookup_nil.
  - intros ???. apply fleet_inv_step.
Qed.

(** ** Settling *)

(** What happens by itself: changes arrive, what arrived is read, and what is under way
    completes (the liveliness subscription and its query, the replay, the drain). *)
Definition settles_loop (l : Loop) (e : LoopEvent) : bool :=
  match e with
  | StandbyPoll | ClaimChanged => negb (bool_decide (pending (claim l) = []))
  | Subscribe ok => ok
  | ReplayEnds | HandleJoined | HandleDeadline => true
  | _ => false
  end.

Definition settles f (e : FleetEvent) : bool :=
  match e with
  | Arrive _ _ => true
  | Local i e => match running i f with Some m => settles_loop (loop m) e | None => false end
  | _ => false
  end.

Definition at_rest (l : Loop) : bool :=
  match l_phase l with Standby | Serving => bool_decide (pending (claim l) = []) | _ => false end.

(** Every subscriber is up to date, and no role change is under way. *)
Definition settled f : Prop :=
  forall i m, running i f = Some m -> incoming m = [] /\ at_rest (loop m) = true.

Definition subscribers_alive f : Prop := forall i m, running i f = Some m -> died (claim (loop m)) = false.

(** A settled fleet: who serves, and who holds clients. *)
Lemma settled_view f i m :
  fleet_inv f -> settled f -> running i f = Some m -> claims (claim (loop m)) = live f.
Proof.
  intros Hf Hst Hr. destruct (Hst _ _ Hr) as [Hi Ha]. destruct (fi_members _ Hf _ _ Hr).
  rewrite Hi, app_nil_r in mi_view0. unfold at_rest in Ha.
  assert (pending (claim (loop m)) = []) as E by (destruct (l_phase (loop m)); try done; by apply bool_decide_eq_true in Ha).
  by rewrite E in mi_view0.
Qed.

Lemma settled_serving f i m :
  fleet_inv f -> settled f -> subscribers_alive f -> running i f = Some m ->
  serving (loop m) = elect (live f) (own (claim (loop m))).
Proof.
  intros Hf Hst Hal Hr. pose proof (settled_view f i m Hf Hst Hr) as Hv. destruct (Hst _ _ Hr) as [Hi Ha].
  pose proof (Hal _ _ Hr) as Hd. destruct (fi_members _ Hf _ _ Hr). unfold at_rest in Ha. unfold serving, standing_by in *.
  rewrite <- Hv. destruct (l_phase (loop m)) eqn:E; try done; apply bool_decide_eq_true in Ha.
  - destruct (mi_idle0 eq_refl Ha) as [-> | Hin]; [done|]. rewrite Hi in Hin. by apply not_elem_of_nil in Hin.
  - destruct mi_loop0 as [_ Hl]. rewrite E in Hl. destruct Hl as [-> | Hl]; [done|congruence].
Qed.

(** *** It comes to rest *)

Definition rank (l : Loop) : nat :=
  match l_phase l with
  | Standby | Serving | LoopStopped | LoopFailed => 0
  | Replaying => 1
  | Subscribing => 2
  | Draining _ handles => S (length handles)
  end.

(** A change read can start the drain of the whole table. *)
Definition loop_measure (n : nat) (l : Loop) : nat :=
  (n + length (pending (claim l))) * (size (table (clients l)) + 3) + rank l.

Definition member_measure (m : Member) : nat :=
  if up m then loop_measure (2 * length (incoming m)) (loop m) else 0.

Definition total f : nat := sum_list_with member_measure (members f).
Definition count f : nat := sum_list_with (fun m => if up m then 1 else 0) (members f).

Lemma settles_loop_measure n l e l' :
  settles_loop l e = true -> loop_step l e = Some l' -> loop_measure n l' < loop_measure n l.
Proof.
  intros He Hs. destruct e as [s| | | |ok|key| |key|key| | | |ch| |]; try done; simpl in He, Hs;
    destruct (l_phase l) as [| | | |why [|ch rest]| |] eqn:E; try done; unfold loop_measure, rank.
  - simplify_eq. apply negb_true_iff, bool_decide_eq_false in He. simpl. rewrite E.
    destruct (pending (claim l)) as [|s p]; [done|]. simpl. destruct (_ || _); simpl; nia.
  - destruct ok; [|done]. simplify_eq. simpl. rewrite E. lia.
  - simplify_eq. simpl. rewrite E. lia.
  - apply negb_true_iff, bool_decide_eq_false in He. unfold on_claim_changed in Hs.
    destruct (pending (claim l)) as [|s p]; [done|]. simpl in Hs. injection Hs as <-. rewrite E.
    destruct (elect _ _); simpl; [nia|]. rewrite map_size_empty, length_fmap, length_map_to_list. nia.
  - simplify_eq. simpl. rewrite E. destruct why; simpl; lia.
  - case_decide; [|done]. simplify_eq. simpl. rewrite E. simpl. lia.
  - simplify_eq. simpl. rewrite E. simpl. lia.
Qed.

Lemma arrive_measure k m m' : up m = true -> arrive k m = Some m' -> up m' = true /\ member_measure m' < member_measure m.
Proof.
  intros Hu Ha. unfold arrive in Ha. apply bind_Some in Ha as (s & Hk & Ha). case_decide; [|done]. simpl in Ha.
  injection Ha as <-. split; [done|]. unfold member_measure, loop_measure, rank. simpl. rewrite Hu.
  rewrite (length_delete _ _ (mk_is_Some _ _ Hk)), length_app. simpl. apply lookup_lt_Some in Hk. nia.
Qed.

Lemma sum_list_insert {A} (g : A -> nat) (l : list A) i x y :
  l !! i = Some x -> sum_list_with g (<[i := y]> l) + g x = sum_list_with g l + g y.
Proof.
  revert i. induction l as [|z l IH]; intros [|i] Hi; simplify_eq/=; [lia|]. specialize (IH i Hi). lia.
Qed.

Lemma sum_list_fmap {A B} (g : B -> nat) (h : A -> B) (l : list A) :
  sum_list_with g (h <$> l) = sum_list_with (fun x => g (h x)) l.
Proof. induction l as [|x l IH]; csimpl; [done|]. by rewrite IH. Qed.

Lemma set_member_measure i m m0 f :
  running i f = Some m0 -> up m = true -> member_measure m < member_measure m0 ->
  count (set_member i m f) = count f /\ total (set_member i m f) < total f.
Proof.
  intros [Hi Hu0]%running_Some Hu Hlt. unfold count, total, set_member. simpl.
  pose proof (sum_list_insert (fun m => if up m then 1 else 0) (members f) i m0 m Hi) as H1.
  pose proof (sum_list_insert member_measure (members f) i m0 m Hi) as H2. cbn beta in H1. rewrite Hu, Hu0 in H1. lia.
Qed.

Lemma leave_count i m m0 f : running i f = Some m0 -> count (leave scope i m f) < count f.
Proof.
  intros [Hi Hu0]%running_Some. unfold count, leave. simpl. rewrite sum_list_fmap. simpl.
  pose proof (sum_list_insert (fun m => if up m then 1 else 0) (members f) i m0 (stop m) Hi) as H1.
  cbn beta in H1. rewrite Hu0 in H1. simpl in H1. lia.
Qed.

Definition settle f f' : Prop := exists e, settles f e = true /\ step f e = Some f'.

Lemma settle_measure f f' : settle f f' -> lex lt lt (count f', total f') (count f, total f).
Proof.
  intros (e & He & Hs). unfold lex. simpl. destruct e as [ts zid uuid|i|i k|i e]; try done.
  - simpl in Hs. apply bind_Some in Hs as (m & Hr & Hs). apply bind_Some in Hs as (m' & Ha & [= <-]). right.
    pose proof Hr as [_ Hu]%running_Some. destruct (arrive_measure _ _ _ Hu Ha). by apply (set_member_measure i m' m).
  - apply fleet_local in Hs as (_ & m & l & Hr & Hl & ->). destruct (returned l); [left; by eapply leave_count|right].
    pose proof Hr as [_ Hu]%running_Some. apply (set_member_measure i _ m); [done|done|].
    unfold member_measure. simpl. rewrite Hu. simpl in He. rewrite Hr in He. by eapply settles_loop_measure.
Qed.

(** No schedule of settling events goes on for ever. *)
Lemma settle_sn f : sn settle f.
Proof.
  apply (sn_measure settle (fun _ => True) (lex lt lt) (fun f => (count f, total f))); [|by split; [|apply settle_measure]|done].
  apply lex_wf; apply lt_wf.
Qed.

(** One that has none left is settled. *)
Definition next_settling (i : nat) (m : Member) : option FleetEvent :=
  match incoming m with
  | _ :: _ => Some (Arrive i 0)
  | [] =>
      match l_phase (loop m) with
      | Standby => if decide (pending (claim (loop m)) = []) then None else Some (Local i StandbyPoll)
      | Serving => if decide (pending (claim (loop m)) = []) then None else Some (Local i ClaimChanged)
      | Subscribing => Some (Local i (Subscribe true))
      | Replaying => Some (Local i ReplayEnds)
      | Draining _ [] => Some (Local i HandleJoined)
      | Draining _ (_ :: _) => Some (Local i HandleDeadline)
      | LoopStopped | LoopFailed => None
      end
  end.

Lemma next_settling_enabled i m f e :
  running i f = Some m -> next_settling i m = Some e -> settles f e = true /\ exists f', step f e = Some f'.
Proof.
  intros Hr Hn. unfold next_settling in Hn. destruct (incoming m) as [|s inc] eqn:Ei.
  - destruct (l_phase (loop m)) as [| | | |why [|ch rest]| |] eqn:E; simplify_eq; repeat (case_decide; simplify_eq);
      simpl; rewrite Hr; simpl; rewrite E; (split; [by rewrite ?bool_decide_false by done|]); try (by eexists).
    unfold on_claim_changed. destruct (pending (claim (loop m))); [done|]. by eexists.
  - simplify_eq. split; [done|]. simpl. rewrite Hr. simpl. unfold arrive. rewrite Ei. simpl.
    by eexists.
Qed.

Lemma next_settling_none m i :
  returned (loop m) = false -> next_settling i m = None -> incoming m = [] /\ at_rest (loop m) = true.
Proof.
  unfold next_settling, returned, at_rest. intros Hr Hn. destruct (incoming m); [|done]. split; [done|].
  destruct (l_phase (loop m)) as [| | | |why [|ch rest]| |]; try done; case_decide; try done; by rewrite bool_decide_true.
Qed.

Lemma nf_settled f : fleet_inv f -> nf settle f -> settled f.
Proof.
  intros Hf Hnf i m Hr. destruct (fi_members _ Hf _ _ Hr). apply (next_settling_none m i); [done|].
  destruct (next_settling i m) as [e|] eqn:E; [|done]. exfalso. apply Hnf.
  destruct (next_settling_enabled _ _ _ _ Hr E) as [He [f' Hs]]. by exists f', e.
Qed.

(** Only its death kills a subscriber. *)
Lemma step_died l e l' : e <> ClaimSubscriberDies -> loop_step l e = Some l' -> died (claim l') = died (claim l).
Proof.
  intros He Hs. destruct e as [s| | | |ok|key| |key|key| | | |ch| |]; try done; simpl in Hs; try (by simplify_eq).
  11: by apply bind_Some in Hs as (cl & _ & [= <-]).
  all: destruct (l_phase l) as [| | | |why [|ch rest]| |]; try done; simplify_eq; try done.
  - unfold on_claim_changed in Hs. destruct (pending (claim l)); [destruct (died (claim l)) eqn:Ed; by simplify_eq|].
    simpl in Hs. injection Hs as <-. by destruct (elect _ _).
  - by case_decide; simplify_eq.
Qed.

Lemma alive_step f e f' :
  (forall i, e <> Local i ClaimSubscriberDies) -> step f e = Some f' -> subscribers_alive f -> subscribers_alive f'.
Proof.
  intros He Hs Ha j m' Hj.
  assert (forall i m m0, running i f = Some m0 -> up m = true -> died (claim (loop m)) = died (claim (loop m0)) ->
    running j (set_member i m f) = Some m' -> died (claim (loop m')) = false) as Hset.
  { intros i m m0 Hr Hu Hd. rewrite (running_set i j m m0) by done. case_decide; [intros [= <-]|by apply Ha].
    rewrite Hd. by eapply Ha. }
  destruct e as [ts zid uuid|i|i k|i e].
  - destruct (running_join _ _ _ _ _ _ _ Hs Hj) as (m1 & -> & [Hm1|[_ ->]]); [|done]. by apply (Ha j m1).
  - simpl in Hs. apply bind_Some in Hs as (m & _ & [= <-]). apply running_leave in Hj as (_ & m1 & Hj & ->). by apply (Ha j m1).
  - simpl in Hs. apply bind_Some in Hs as (m & Hr & Hs). apply bind_Some in Hs as (m1 & Har & [= <-]).
    pose proof Hr as [_ Hu]%running_Some. destruct (arrive_measure _ _ _ Hu Har) as [Hu1 _].
    apply (Hset i m1 m); [done|done| |done]. unfold arrive in Har. apply bind_Some in Har as (s & _ & Har).
    case_decide; [|done]. simpl in Har. by injection Har as <-.
  - apply fleet_local in Hs as (_ & m & l & Hr & Hl & ->). destruct (returned l).
    + apply running_leave in Hj as (_ & m1 & Hj & ->). by apply (Ha j m1).
    + pose proof Hr as [_ Hu]%running_Some. apply (Hset i (set_member_loop l m) m); [done|done| |done].
      eapply step_died; [|done]. intros ->. by apply (He i).
Qed.

Lemma settle_alive f f' : subscribers_alive f -> settle f f' -> subscribers_alive f'.
Proof.
  intros Ha (e & He & Hs). apply (alive_step f e); [|done|done]. intros i ->. simpl in He. by destruct (running i f).
Qed.
End Invariant.

(** ** Properties *)

(** One exporter serves, the one with the least claim, and no other holds a client. *)
Definition one_serves (f : Fleet) : Prop :=
  live f = ∅ \/
  exists i m, running i f = Some m /\ elect (live f) (own (claim (loop m))) = true /\
    forall j m', running j f = Some m' ->
      (serving (loop m') = true <-> j = i) /\ (j <> i -> table (clients (loop m')) = ∅).

(** A fleet of exporters settles on one.  Whatever exporters joined and left the
    scope and whatever their clients did, under every interleaving and with changes
    that overtake each other on the bus: from then on, while no claim subscriber dies,
    every schedule of what happens by itself (changes arrive and are read, role changes
    under way complete) comes to an end, and where it ends every exporter sees exactly
    the live claims, exactly one serves, the one the election names, and none of the
    others holds a client. *)
Theorem fleet_settles scope es f :
  run (fleet_step scope) no_fleet es = Some f -> subscribers_alive f ->
  sn (settle scope) f /\
  forall f', rtc (settle scope) f f' -> nf (settle scope) f' ->
    (forall i m, running i f' = Some m -> claims (claim (loop m)) = live f') /\ one_serves f'.
Proof.
  intros Hr%run_fleet_inv Ha. split; [apply settle_sn|]. intros f' Hs Hnf.
  assert (fleet_inv scope f' /\ subscribers_alive f') as [Hi Ha'].
  { clear Hnf. revert Hr Ha. induction Hs as [f|f f1 f' Hs _ IH]; [done|]. intros Hr Ha. apply IH; [|by eapply settle_alive].
    destruct Hs as (e & _ & Hs). by eapply fleet_inv_step. }
  pose proof (nf_settled _ _ Hi Hnf) as Hst. split; [by intros i m; eapply settled_view|].
  unfold one_serves. destruct (decide (live f' = ∅)) as [?|Hne]; [by left|right].
  destruct (elect_nonempty _ Hne) as (o & Ho & He). destruct (fi_live _ _ Hi o Ho) as (i & m & Hm & <-).
  exists i, m. split; [done|]. split; [done|]. intros j m' Hj. pose proof (settled_serving _ _ _ _ Hi Hst Ha' Hj) as Hsv.
  assert (j <> i -> serving (loop m') = false) as Hno.
  { intros Hji. rewrite Hsv. destruct (elect (live f') (own (claim (loop m')))) eqn:E; [|done].
    destruct Hji. eapply (fi_distinct _ _ Hi); [done..|]. by eapply elect_agree. }
  split.
  - split; [|intros ->; by simplify_eq; rewrite Hsv]. destruct (decide (j = i)); [done|]. by rewrite Hno.
  - intros Hji. apply (mi_table _ _ _ (fi_members _ _ Hi _ _ Hj)). destruct (Hst _ _ Hj) as [_ Hat].
    specialize (Hno Hji). unfold at_rest, serving, idle in *. by destruct (l_phase (loop m')).
Qed.

(** Two exporters of [web]; the second, the older one, comes when the first already
    serves a client. *)
Definition handover : list FleetEvent :=
  [Join 7 "z1" "u1"; Arrive 0 0; Local 0 StandbyPoll; Local 0 (Subscribe true);
   Local 0 (ReplayReply "web/clients/c1"); Local 0 ReplayEnds; Join 5 "z2" "u2"].

(** It settles: the first reads the older claim, drains, and the second takes over. *)
Definition handover_settles : list FleetEvent :=
  [Arrive 0 0; Local 0 ClaimChanged; Local 0 HandleDeadline; Local 0 HandleJoined;
   Arrive 1 1; Local 1 StandbyPoll; Arrive 1 0; Local 1 (Subscribe true); Local 1 ReplayEnds; Local 1 ClaimChanged].

Definition settling_step (scope : str) (f : Fleet) (e : FleetEvent) : option Fleet :=
  if settles f e then fleet_step scope f e else None.

Lemma run_settling scope es f f' : run (settling_step scope) f es = Some f' -> rtc (settle scope) f f'.
Proof.
  revert f. induction es as [|e es IH]; intros f; simpl; [by intros [= ->]|].
  intros (f1 & Hs & Hr)%bind_Some. eapply rtc_l; [|by apply IH]. unfold settling_step in Hs.
  destruct (settles f e) eqn:E; [|done]. by exists e.
Qed.

Definition settled_b (f : Fleet) : bool :=
  forallb (fun m => negb (up m) || (bool_decide (incoming m = []) && at_rest (loop m))) (members f).

Lemma settled_b_settled f : settled_b f = true -> settled f.
Proof.
  unfold settled_b. rewrite forallb_forall. intros Hb i m [Hi Hu]%running_Some. specialize (Hb m).
  rewrite Hu in Hb. simpl in Hb. apply andb_prop in Hb as [Hb ?]; [by apply bool_decide_eq_true in Hb|].
  by eapply list_elem_of_In, list_elem_of_lookup_2.
Qed.

Lemma settled_b_nf scope f : settled_b f = true -> nf (settle scope) f.
Proof.
  intros Hst%settled_b_settled [f' (e & He & Hs)].
  destruct e as [ts zid uuid|i|i k|i e]; try done.
  - simpl in Hs. apply bind_Some in Hs as (m & Hr & Hs). apply bind_Some in Hs as (m' & Ha & _).
    destruct (Hst _ _ Hr) as [Hi _]. unfold arrive in Ha. by rewrite Hi in Ha.
  - apply fleet_local in Hs as (_ & m & l & Hr & Hl & _). destruct (Hst _ _ Hr) as [_ Hat].
    simpl in He. rewrite Hr in He. unfold at_rest in Hat.
    destruct e as [s| | | |ok|key| |key|key| | | |ch| |]; try done; simpl in Hl, He;
      destruct (l_phase (loop m)) eqn:E; try done; by rewrite Hat in He.
Qed.

Definition alive_b (f : Fleet) : bool := forallb (fun m => negb (up m) || negb (died (claim (loop m)))) (members f).

Lemma alive_b_alive f : alive_b f = true -> subscribers_alive f.
Proof.
  unfold alive_b. rewrite forallb_forall. intros Hb i m [Hi Hu]%running_Some. specialize (Hb m).
  rewrite Hu in Hb. simpl in Hb. by apply negb_true_iff, Hb, list_elem_of_In, (list_elem_of_lookup_2 _ i).
Qed.

(** The fleet before it settles, and after. *)
Definition handed_over : option (Fleet * Fleet) :=
  f ← run (fleet_step "web") no_fleet handover; f' ← run (settling_step "web") f handover_settles; Some (f, f').

Definition roles (f : Fleet) : list LoopPhase := (fun m => l_phase (loop m)) <$> members f.

Lemma handed_over_checked :
  match handed_over with
  | Some (f, f') => alive_b f = true /\ settled_b f' = true /\ roles f = [Serving; Standby] /\ roles f' = [Standby; Serving]
  | None => False
  end.
Proof. vm_compute. done. Qed.

Lemma fleet_settles_witness :
  exists f f', run (fleet_step "web") no_fleet handover = Some f /\ roles f = [Serving; Standby] /\
    rtc (settle "web") f f' /\ roles f' = [Standby; Serving] /\ one_serves f'.
Proof.
  pose proof handed_over_checked as H. unfold handed_over in H.
  destruct (run (fleet_step "web") no_fleet handover) as [f|] eqn:E1; [|destruct H]. cbn [mbind option_bind] in H.
  destruct (run (settling_step "web") f handover_settles) as [f'|] eqn:E2; [|destruct H]. cbn [mbind option_bind] in H.
  destruct H as (Ha & Hs & Hf & Hf'). apply run_settling in E2. exists f, f'. split_and!; [first [assumption|reflexivity]..|].
  exact (proj2 (proj2 (fleet_settles "web" handover f E1 (alive_b_alive f Ha)) f' E2 (settled_b_nf "web" f' Hs))).
Defined.
