(* ===== verification/Failover.v ===== *)
(** * Failover: a fleet of exporters and the clients of its scope

    [Fleet] and [Roster] in lock step: the exporters of one scope, the claims on their
    way between them, the client tokens, and what the bus reports of those to each.
    Neither has code here that it does not have alone; a step of the whole is a step of
    the fleet and the step of a roster that it is part of. *)

From S2P Require Import Prelude Text KeySpace Election ExportLoop Roster Fleet.

(** [declared]: the client tokens; [rosters]: one per member of the fleet. *)
Record Failover : Type := { fleet : Fleet; declared : gset str; rosters : list Roster }.

Inductive FailoverEvent : Type :=
| Exporter (e : FleetEvent)               (** [Join], [Leave] or [Arrive] *)
| Client (k : SampleKind) (c : str)       (** its token is declared or withdrawn *)
| At (i : nat) (e : RosterEvent).         (** anything else a member does or hears *)

Section Failover.
Context (service : str) (dns_suffix : option str).
Implicit Types s : Failover.

Abbreviation fleet_scope := (scope service dns_suffix).
Abbreviation fstep := (fleet_step fleet_scope).
Abbreviation rstep := (roster_step service dns_suffix).

Definition set_roster (i : nat) (r : Roster) (f : Fleet) s : Failover :=
  {| fleet := f; declared := declared s; rosters := <[i := r]> (rosters s) |}.

(** A change of the client tokens, which every subscriber will hear of. *)
Definition change_tokens (ts : gset str) (k : SampleKind) (c : str) s : Failover :=
  {| fleet := fleet s; declared := ts; rosters := set_tokens ts (k, c) <$> rosters s |}.

(** A claim sample is read by the loop of the member it arrives at. *)
Definition arrived (i k : nat) s : option ClaimSample := m ← running i (fleet s); incoming m !! k.

Definition at_member (i : nat) (e : RosterEvent) s : option Failover :=
  _ ← running i (fleet s); r ← rosters s !! i; r' ← rstep r e;
  f ← (match loop_event service dns_suffix r e with Some le => fstep (fleet s) (Local i le) | None => Some (fleet s) end);
  Some (set_roster i r' f s).

Definition failover_step s (e : FailoverEvent) : option Failover :=
  match e with
  | Exporter (Join ts zid uuid) =>
      f ← fstep (fleet s) (Join ts zid uuid);
      Some {| fleet := f; declared := declared s;
              rosters := rosters s ++ [roster_at (declared s) (establish ts zid uuid [])] |}
  | Exporter (Leave i) =>
      f ← fstep (fleet s) (Leave i); Some {| fleet := f; declared := declared s; rosters := rosters s |}
  | Exporter (Arrive i k) =>
      f ← fstep (fleet s) (Arrive i k); sample ← arrived i k s; r ← rosters s !! i; r' ← rstep r (Own (ClaimArrives sample));
      Some (set_roster i r' f s)
  | Exporter (Local _ _) => None
  | Client Put c =>
      if decide (c ∈ declared s \/ c = [] \/ sep ∈ c) then None else Some (change_tokens ({[c]} ∪ declared s) Put c s)
  | Client Delete c => if decide (c ∈ declared s) then Some (change_tokens (declared s ∖ {[c]}) Delete c s) else None
  | At _ (TokenDeclared _ | TokenWithdrawn _) => None
  | At i e => at_member i e s
  end.

Definition no_failover : Failover := {| fleet := no_fleet; declared := ∅; rosters := [] |}.

(** ** The invariant *)

Definition roster_ok s (r : Roster) : Prop := roster_inv r /\ tokens r = declared s.

(** Each member's loop is the one its roster has. *)
Record failover_inv s : Prop := {
  fo_fleet : fleet_inv fleet_scope (fleet s);
  fo_length : length (rosters s) = length (members (fleet s));
  fo_tokens c : c ∈ declared s -> client_ok c;
  fo_rosters : Forall (roster_ok s) (rosters s);
  fo_same i m r : running i (fleet s) = Some m -> rosters s !! i = Some r -> r_loop r = loop m;
}.

Lemma failover_inv_init : failover_inv no_failover.
Proof using Type.
  split; done.
Qed.

(** A member's step, as both see it. *)
Lemma failover_inv_set i r r' f m s :
  failover_inv s -> fleet_inv fleet_scope f -> length (members f) = length (members (fleet s)) ->
  rosters s !! i = Some r -> roster_ok s r' ->
  (forall m', running i f = Some m' -> r_loop r' = loop m') ->
  (forall j m', j <> i -> running j f = Some m' -> exists m0, running j (fleet s) = Some m0 /\ loop m' = loop m0) ->
  running i (fleet s) = Some m -> failover_inv (set_roster i r' f s).
Proof using Type.
  intros [] Hf Hlen Hi Hok Hown Hother Hm. split; simpl.
  - done.
  - by rewrite length_insert, Hlen.
  - done.
  - by apply Forall_insert.
  - intros j m' rj Hj. destruct (decide (j = i)) as [->|Hne].
    + rewrite list_lookup_insert_eq by (by eapply lookup_lt_Some). intros [= <-]. auto.
    + rewrite list_lookup_insert_ne by done. intros Hrj. destruct (Hother j m' Hne Hj) as (m0 & Hm0 & ->). by eapply fo_same0.
Qed.

(** The members after a step of one of them. *)
Lemma running_after f f' i m m1 (leaves : bool) :
  running i f = Some m -> up m1 = true ->
  f' = (if leaves then leave fleet_scope i m1 f else set_member i m1 f) ->
  length (members f') = length (members f) /\
  (forall m', running i f' = Some m' -> loop m' = loop m1) /\
  (forall j m', j <> i -> running j f' = Some m' -> exists m0, running j f = Some m0 /\ loop m' = loop m0).
Proof using Type.
  intros Hr Hu ->. destruct leaves; split_and!.
  - simpl. by rewrite length_fmap, length_insert.
  - by intros m' [? _]%running_leave.
  - intros j m' Hne (_ & m0 & Hj & ->)%running_leave. by exists m0.
  - simpl. by rewrite length_insert.
  - intros m'. rewrite (running_set i i m1 m) by done. rewrite decide_True by done. by intros [= <-].
  - intros j m' Hne. rewrite (running_set i j m1 m) by done. rewrite decide_False by done. eauto.
Qed.

Lemma roster_ok_step s i r e r' :
  failover_inv s -> rosters s !! i = Some r -> rstep r e = Some r' ->
  (match e with TokenDeclared _ | TokenWithdrawn _ => False | _ => True end) -> roster_ok s r'.
Proof using Type.
  intros Hs Hi Hr He. destruct (Forall_lookup_1 _ _ _ _ (fo_rosters _ Hs) Hi) as [Hinv Ht].
  split; [by eapply roster_inv_step|]. destruct (roster_step_loop _ _ _ _ _ Hr) as [_ H]. rewrite <- Ht. by destruct e.
Qed.

Lemma failover_inv_at i e s s' :
  failover_inv s -> (match e with TokenDeclared _ | TokenWithdrawn _ => False | _ => True end) ->
  at_member i e s = Some s' -> failover_inv s'.
Proof using Type.
  intros Hs He H. unfold at_member in H. apply bind_Some in H as (m & Hm & H). apply bind_Some in H as (r & Hi & H).
  apply bind_Some in H as (r' & Hr & H). apply bind_Some in H as (f & Hf & [= <-]).
  pose proof (roster_ok_step _ _ _ _ _ Hs Hi Hr He) as Hok. destruct (roster_step_loop _ _ _ _ _ Hr) as [Hl _].
  pose proof (fo_same _ Hs i m r Hm Hi) as Hsame. destruct (loop_event service dns_suffix r e) as [le|].
  - pose proof (fleet_inv_step _ _ _ _ (fo_fleet _ Hs) Hf) as Hinv.
    apply fleet_local in Hf as (_ & m0 & l & Hm0 & Hl' & Ef). rewrite Hm in Hm0. injection Hm0 as <-.
    rewrite Hsame, Hl' in Hl. injection Hl as El.
    pose proof Hm as [_ Hu]%running_Some.
    destruct (running_after (fleet s) f i m (set_member_loop l m) (returned l) Hm Hu Ef) as (Hlen & Hown & Hother).
    eapply failover_inv_set; [done..| |done|done]. intros m' Hm'%Hown. by rewrite Hm'.
  - injection Hf as <-. eapply failover_inv_set; [done|apply Hs|done|done|done| |eauto|done].
    intros m' Hm'. rewrite Hl. by eapply fo_same.
Qed.

Lemma failover_inv_arrive i k s s' :
  failover_inv s -> failover_step s (Exporter (Arrive i k)) = Some s' -> failover_inv s'.
Proof using Type.
  intros Hs H. unfold failover_step in H. apply bind_Some in H as (f & Hf & H). apply bind_Some in H as (sample & Ha & H).
  apply bind_Some in H as (r & Hi & H). apply bind_Some in H as (r' & Hr & [= <-]).
  pose proof (fleet_inv_step _ _ _ _ (fo_fleet _ Hs) Hf) as Hinv.
  pose proof (roster_ok_step _ _ _ _ _ Hs Hi Hr I) as Hok. destruct (roster_step_loop _ _ _ _ _ Hr) as [Hl _].
  simpl in Hf. apply bind_Some in Hf as (m & Hm & Hf). apply bind_Some in Hf as (m' & Har & Ef).
  pose proof (fo_same _ Hs i m r Hm Hi) as Hsame. unfold arrived in Ha. rewrite Hm in Ha. simpl in Ha.
  unfold arrive in Har. rewrite Ha in Har. simpl in Har. case_decide; [|done]. injection Har as <-. injection Ef as Ef.
  pose proof Hm as [_ Hu]%running_Some. symmetry in Ef.
  set (m' := {| up := up m; incoming := delete k (incoming m);
    loop := set_loop (l_phase (loop m)) (buffer_claim sample (claim (loop m))) (clients (loop m)) |}) in *.
  destruct (running_after (fleet s) f i m m' false Hm Hu Ef) as (Hlen & Hown & Hother).
  eapply failover_inv_set; [done..| |done|done]. intros m1 Hm1%Hown. rewrite Hm1.
  simpl in Hl. injection Hl as Hl. by rewrite <- Hl, Hsame.
Qed.

Lemma failover_inv_join ts zid uuid s s' :
  failover_inv s -> failover_step s (Exporter (Join ts zid uuid)) = Some s' -> failover_inv s'.
Proof using Type.
  intros Hs H. unfold failover_step in H. apply bind_Some in H as (f & Hf & [= <-]).
  pose proof (fleet_inv_step _ _ _ _ (fo_fleet _ Hs) Hf) as Hinv. simpl in Hf.
  pose proof Hs as []. split; simpl; [done| |done| |].
  - unfold join in Hf. case_decide; [done|]. injection Hf as <-. simpl.
    by rewrite length_fmap, !length_app, fo_length0.
  - apply Forall_app_2; [done|]. constructor; [|done]. split; [by apply roster_inv_at|done].
  - intros i m r Hm Hr. destruct (running_join _ _ _ _ _ _ _ _ Hf Hm) as (m1 & -> & [Hm1|[-> ->]]); simpl.
    + apply (fo_same0 i m1 r Hm1). apply running_Some in Hm1 as [Hm1%lookup_lt_Some _].
      by rewrite lookup_app_l in Hr by lia.
    + rewrite <- fo_length0 in Hr. rewrite lookup_app_r, Nat.sub_diag in Hr by lia. simpl in Hr. by injection Hr as <-.
Qed.

Lemma failover_inv_client k c s s' :
  failover_inv s -> failover_step s (Client k c) = Some s' -> failover_inv s'.
Proof using Type.
  intros [] H. assert (exists ts, s' = change_tokens ts k c s /\ client_ok c /\ (c ∈ ts <-> k = Put) /\
    forall x, x <> c -> x ∈ ts <-> x ∈ declared s) as (ts & -> & Hc & Hk & Hother).
  { destruct k; simpl in H; case_decide as Hd; try done; injection H as <-; eexists; (split; [done|]).
    - split; [split; tauto|]. split; set_solver.
    - split; [auto|]. split; set_solver. }
  split; simpl; [done|by rewrite length_fmap| | |].
  - intros x Hx. destruct (decide (x = c)) as [->|Hne]; [done|]. by apply fo_tokens0, Hother.
  - apply Forall_fmap. eapply Forall_impl; [done|]. intros r [Hinv Ht]. split; [|done]. simpl.
    apply roster_inv_tokens; [done..|]. intros x Hx. by rewrite Ht, Hother.
  - intros i m r Hm (r0 & -> & Hr0)%list_lookup_fmap_Some. simpl. by eapply fo_same0.
Qed.

Lemma failover_inv_leave i s s' :
  failover_inv s -> failover_step s (Exporter (Leave i)) = Some s' -> failover_inv s'.
Proof using Type.
  intros Hs H. unfold failover_step in H. apply bind_Some in H as (f & Hf & [= <-]).
  pose proof (fleet_inv_step _ _ _ _ (fo_fleet _ Hs) Hf) as Hinv. simpl in Hf. apply bind_Some in Hf as (m & Hm & [= <-]).
  pose proof Hs as []. split; simpl; [done|by rewrite length_fmap, length_insert|done|done|].
  intros j m' r (_ & m0 & Hm0 & ->)%running_leave Hr. simpl. by eapply fo_same0.
Qed.

Lemma failover_inv_step s e s' : failover_inv s -> failover_step s e = Some s' -> failover_inv s'.
Proof using Type.
  intros Hs H. destruct e as [[ts zid uuid|i|i k|i e]|k c|i e].
  - by eapply failover_inv_join.
  - by eapply failover_inv_leave.
  - by eapply failover_inv_arrive.
  - done.
  - by eapply failover_inv_client.
  - assert (forall e0, failover_step s (At i e0) = Some s' -> match e0 with TokenDeclared _ | TokenWithdrawn _ => False | _ => True end)
      as H' by (by intros []).
    apply (failover_inv_at i e s s'); [done|by apply H'|by destruct e].
Qed.

Lemma run_failover_inv es s : run failover_step no_failover es = Some s -> failover_inv s.
Proof using Type. apply run_invariant; [apply failover_inv_init|apply failover_inv_step]. Qed.

(** A settled fleet with an exporter left has one that serves. *)
Lemma settled_serves s :
  failover_inv s -> subscribers_alive (fleet s) -> settled (fleet s) -> live (fleet s) <> ∅ ->
  exists i m r, running i (fleet s) = Some m /\ rosters s !! i = Some r /\ r_loop r = loop m /\ roster_ok s r /\
    elect (live (fleet s)) (own (claim (loop m))) = true /\ serving (loop m) = true.
Proof using Type.
  intros Hs Ha Hst Hne. destruct (elect_nonempty _ Hne) as (o & Ho & He).
  destruct (fi_live _ _ (fo_fleet _ Hs) o Ho) as (i & m & Hm & <-).
  assert (is_Some (rosters s !! i)) as [r Hr].
  { apply lookup_lt_is_Some. rewrite (fo_length _ Hs). apply running_Some in Hm as [Hm _]. by eapply lookup_lt_Some. }
  exists i, m, r. split_and!; [done|done|by eapply fo_same|by eapply Forall_lookup_1; [apply Hs|]|done|].
  by rewrite (settled_serving _ _ _ _ (fo_fleet _ Hs) Hst Ha Hm).
Qed.

(** In a settled fleet the others are idle. *)
Lemma settled_idle s i j m m' :
  failover_inv s -> subscribers_alive (fleet s) -> settled (fleet s) -> running i (fleet s) = Some m ->
  elect (live (fleet s)) (own (claim (loop m))) = true -> running j (fleet s) = Some m' -> j <> i -> idle (loop m') = true.
Proof using Type.
  intros Hs Ha Hst Hm He Hm' Hne. pose proof (settled_serving _ _ _ _ (fo_fleet _ Hs) Hst Ha Hm') as Hsv.
  destruct (elect (live (fleet s)) (own (claim (loop m')))) eqn:E.
  - destruct Hne. eapply (fi_distinct _ _ (fo_fleet _ Hs)); [done..|]. by eapply elect_agree.
  - destruct (Hst _ _ Hm') as [_ Hat]. unfold at_rest, serving, idle in *. by destruct (l_phase (loop m')).
Qed.

(** They run no client's task. *)
Lemma others_idle s i j m m' c :
  failover_inv s -> subscribers_alive (fleet s) -> settled (fleet s) -> running i (fleet s) = Some m ->
  elect (live (fleet s)) (own (claim (loop m))) = true -> running j (fleet s) = Some m' -> j <> i ->
  serving (loop m') = false /\ ~ has_task (loop m') c.
Proof using Type.
  intros Hs Ha Hst Hm He Hm' Hne. pose proof (settled_idle _ _ _ _ _ Hs Ha Hst Hm He Hm' Hne) as Hidle.
  pose proof (fi_members _ _ (fo_fleet _ Hs) _ _ Hm') as Hmi. split.
  - unfold idle, serving in *. by destruct (l_phase (loop m')).
  - rewrite (has_task_table _ c (mi_loop _ _ _ Hmi)), (mi_table _ _ _ Hmi Hidle), lookup_empty. by intros [].
Qed.
End Failover.

(** ** Properties *)


(** ** Example *)

(** An older exporter comes while the first serves a client, and takes it over; a second
    client appears before it has subscribed. *)
Definition taken_over : list FailoverEvent :=
  [Exporter (Join 7 "z1" "u1"); Exporter (Arrive 0 0); Client Put "c1"; At 0 (Own StandbyPoll); At 0 SubscriberUp; At 0 QueryUp;
   At 0 (Reply "c1"); At 0 RepliesEnd;
   Exporter (Join 5 "z2" "u2"); Exporter (Arrive 0 0); At 0 (Own ClaimChanged); At 0 (Own HandleDeadline); At 0 (Own HandleJoined);
   Exporter (Arrive 1 1); Exporter (Arrive 1 0); Client Put "c2"; At 1 (Own StandbyPoll); At 1 SubscriberUp; At 1 QueryUp;
   At 1 (Reply "c1"); At 1 (Reply "c2"); At 1 RepliesEnd].

Definition client_roles (s : Failover) : list (LoopPhase * option (list (SampleKind * str)) * nat * bool) :=
  zip_with (fun m r => (l_phase (loop m), news r, size (owed r), cut r)) (members (fleet s)) (rosters s).

Lemma taken_over_runs :
  match run (failover_step "web" None) no_failover taken_over with
  | Some s => alive_b (fleet s) && settled_b (fleet s) && bool_decide (live (fleet s) <> ∅) &&
      bool_decide (client_roles s = [(Standby, None, 0, false); (Serving, Some [], 0, false)]) &&
      bool_decide (declared s = {["c1" : str; "c2" : str]})
  | None => false
  end = true.
Proof. vm_compute. reflexivity. Qed.

