(* ===== verification/Recovery.v ===== *)
(** * Recovery: the fleet and its clients come to rest together

    [Failover] under the schedules of what happens by itself: changes of claims and of
    client tokens arrive, what arrived is read, subscriptions, queries, replays and drains
    under way complete.  Nothing of it goes on for ever, and where it ends the one exporter
    that the election names serves every declared client. *)

From S2P Require Import Prelude Text KeySpace Election ExportLoop Roster Fleet Failover.

Section Recovery.
Context (service : str) (dns_suffix : option str).
Implicit Types s : Failover.

Abbreviation fleet_scope := (scope service dns_suffix).
Abbreviation rstep := (roster_step service dns_suffix).
Abbreviation step := (failover_step service dns_suffix).
Abbreviation inv := (failover_inv service dns_suffix).

(** What a member does or hears by itself. *)
Definition settles_member (l : Loop) (e : RosterEvent) : bool :=
  match e with
  | SubscriberUp | QueryUp | Reply _ | RepliesEnd | News _ => true
  | Own e => settles_loop l e
  | _ => false
  end.

Definition settles_failover s (e : FailoverEvent) : bool :=
  match e with
  | Exporter (Arrive _ _) => true
  | At i e => match running i (fleet s) with Some m => settles_member (loop m) e | None => false end
  | _ => false
  end.

Definition recover s s' : Prop := exists e, settles_failover s e = true /\ step s e = Some s'.

(** ** It comes to an end *)

(** The changes of claims that a member has still to read. *)
Definition unread (m : Member) : nat := if up m then 2 * length (incoming m) + length (pending (claim (loop m))) else 0.

(** What a member has still to do in its role: changes of tokens to hear, replies,
    the steps to the next role. *)
Definition work (r : Roster) : nat :=
  match l_phase (r_loop r) with
  | Subscribing => length (default [] (news r)) + 2 + size (tokens r) + (if news r then 0 else 1)
  | Replaying => length (default [] (news r)) + 1 + size (owed r)
  | Serving => length (default [] (news r))
  | Draining _ handles => S (length handles)
  | _ => 0
  end.

Definition reads (f : Fleet) : nat := sum_list_with unread (members f).

Definition measure s : nat * nat * nat := (count (fleet s), reads (fleet s), sum_list_with work (rosters s)).

Definition lower : relation (nat * nat * nat) := lex (lex lt lt) lt.

Lemma lower_wf : well_founded lower.
Proof using Type. repeat apply lex_wf; apply lt_wf. Qed.

(** A member's own step reads what arrived, or does some of its work. *)
Lemma own_work r e r' :
  rstep r (Own e) = Some r' -> settles_loop (r_loop r) e = true ->
  length (pending (claim (r_loop r'))) < length (pending (claim (r_loop r))) \/
  pending (claim (r_loop r')) = pending (claim (r_loop r)) /\ work r' < work r.
Proof using Type.
  intros Hs He. simpl in Hs. destruct (own_event e) eqn:Ho; [|done]. apply bind_Some in Hs as (l & Hl & [= <-]).
  assert (forall r0, r_loop (set_roster_loop l r0) = l) as Hloop by (intros; unfold set_roster_loop; by destruct (in_tenure l)).
  rewrite Hloop. unfold work. rewrite Hloop.
  destruct e as [s| | | |ok|key| |key|key| | | |ch| |]; try done; simpl in Hl, He;
    destruct (l_phase (r_loop r)) as [| | | |why [|ch rest]| |] eqn:E; try done.
  - injection Hl as <-. left. apply negb_true_iff, bool_decide_eq_false in He. simpl. by destruct (pending _); [|simpl; lia].
  - left. apply negb_true_iff, bool_decide_eq_false in He. unfold on_claim_changed in Hl.
    destruct (pending (claim (r_loop r))) as [|s p]; [done|]. simpl in Hl. injection Hl as <-. destruct (elect _ _); simpl; lia.
  - injection Hl as <-. right. split; [done|]. by destruct why; simpl; lia.
  - case_decide; [|done]. injection Hl as <-. right. split; [done|]. simpl. lia.
  - injection Hl as <-. right. split; [done|]. simpl. lia.
Qed.

(** Hearing of clients is work done. *)
Lemma report_work r e r' :
  rstep r e = Some r' -> (match e with SubscriberUp | QueryUp | Reply _ | RepliesEnd | News _ => True | _ => False end) ->
  claim (r_loop r') = claim (r_loop r) /\ work r' < work r.
Proof using Type.
  intros Hs He. destruct e as [c|c| | | |c| | |n|e]; try done; unfold roster_step, report in Hs.
  - unfold work. destruct (l_phase (r_loop r)) eqn:E, (news r); try done. injection Hs as <-. simpl. rewrite E. split; [done|]. lia.
  - unfold work. destruct (news r) as [q|] eqn:Eq; [|done]. simpl in Hs.
    destruct (l_phase (r_loop r)) as [| | | |why []| |] eqn:E; try done. injection Hs as <-. simpl. split; [done|]. lia.
  - case_decide as Hc; [|done]. unfold work. simpl in Hs. destruct (l_phase (r_loop r)) as [| | | |why []| |] eqn:E; try done.
    injection Hs as <-. simpl. split; [done|]. rewrite size_difference by set_solver. rewrite size_singleton.
    assert (size (owed r) <> 0); [|lia]. intros H%size_empty_inv. set_solver.
  - case_decide; [|done]. unfold work. simpl in Hs. destruct (l_phase (r_loop r)) as [| | | |why []| |] eqn:E; try done.
    injection Hs as <-. simpl. split; [done|]. lia.
  - apply bind_Some in Hs as (q & Hq & Hs). apply bind_Some in Hs as ([k c] & Ht & Hs). apply bind_Some in Hs as (l & Hl & [= <-]).
    destruct (take_news_spec _ _ _ _ Ht) as (_ & _ & _ & Hn). apply lookup_lt_is_Some in Hn as Hn'.
    unfold work. simpl. rewrite Hq. simpl.
    destruct k; simpl in Hl; destruct (l_phase (r_loop r)) as [| | | |why []| |] eqn:E; try done; injection Hl as <-;
      simpl; rewrite length_delete by done; (split; [done|]; lia).
Qed.

Lemma member_work l r e r' :
  rstep r e = Some r' -> settles_member (r_loop r) e = true -> r_loop r' = l ->
  length (pending (claim l)) < length (pending (claim (r_loop r))) \/
  pending (claim l) = pending (claim (r_loop r)) /\ work r' < work r.
Proof using Type.
  intros Hs He <-. destruct e as [c|c| | | |c| | |n|e]; try done; [..|by eapply own_work];
    right; destruct (report_work _ _ _ Hs I) as [-> ?]; done.
Qed.

Lemma reads_set i m m0 f :
  running i f = Some m0 -> up m = true ->
  count (set_member i m f) = count f /\ reads (set_member i m f) + unread m0 = reads f + unread m.
Proof using Type.
  intros [Hi Hu0]%running_Some Hu. unfold count, reads, set_member. simpl.
  pose proof (sum_list_insert (fun m => if up m then 1 else 0) (members f) i m0 m Hi) as H1.
  pose proof (sum_list_insert unread (members f) i m0 m Hi) as H2. cbn beta in H1. rewrite Hu, Hu0 in H1. lia.
Qed.

Lemma measure_at i e s s' m :
  inv s -> running i (fleet s) = Some m -> settles_member (loop m) e = true ->
  at_member service dns_suffix i e s = Some s' -> lower (measure s') (measure s).
Proof using Type.
  intros Hs Hm He H. unfold at_member in H. rewrite Hm in H. cbn [mbind option_bind] in H. apply bind_Some in H as (r & Hi & H).
  apply bind_Some in H as (r' & Hr & H). apply bind_Some in H as (f & Hf & [= <-]).
  destruct (roster_step_loop _ _ _ _ _ Hr) as [Hl _]. pose proof (fo_same _ _ _ Hs i m r Hm Hi) as Hsame. rewrite <- Hsame in He.
  pose proof (sum_list_insert work (rosters s) i r r' Hi) as Hw. unfold lower, lex, measure. simpl.
  pose proof (member_work _ _ _ _ Hr He eq_refl) as Hmw. destruct (loop_event service dns_suffix r e) as [le|].
  - apply fleet_local in Hf as (_ & m0 & l & Hm0 & Hl' & ->). rewrite Hm in Hm0. injection Hm0 as <-.
    rewrite Hsame, Hl' in Hl. injection Hl as El. rewrite <- El, Hsame in Hmw.
    destruct (returned l); [left; left; by eapply leave_count|].
    pose proof Hm as [_ Hu]%running_Some. destruct (reads_set i (set_member_loop l m) m (fleet s) Hm Hu) as [-> Hrd].
    unfold unread in Hrd. simpl in Hrd. rewrite Hu in Hrd. destruct Hmw as [Hlt|[Heq Hlt]]; [left; right; split; [done|lia]|].
    right. rewrite Heq in Hrd. split; [f_equal; lia|lia].
  - injection Hf as <-. rewrite Hl in Hmw. destruct Hmw as [Hlt|[_ Hlt]]; [lia|]. right. split; [done|lia].
Qed.

Lemma measure_arrive i k s s' :
  step s (Exporter (Arrive i k)) = Some s' -> lower (measure s') (measure s).
Proof using Type.
  intros H. unfold failover_step in H. apply bind_Some in H as (f & Hf & H). apply bind_Some in H as (sample & _ & H).
  apply bind_Some in H as (r & _ & H). apply bind_Some in H as (r' & _ & [= <-]).
  simpl in Hf. apply bind_Some in Hf as (m & Hm & Hf). apply bind_Some in Hf as (m' & Ha & [= <-]).
  left. right. simpl. unfold arrive in Ha. apply bind_Some in Ha as (c & Hk & Ha). case_decide; [|done]. simpl in Ha. injection Ha as <-.
  pose proof Hm as [_ Hu]%running_Some.
  set (m' := {| up := up m; incoming := delete k (incoming m);
    loop := set_loop (l_phase (loop m)) (buffer_claim c (claim (loop m))) (clients (loop m)) |}) in *.
  destruct (reads_set i m' m (fleet s) Hm Hu) as [-> Hrd]. split; [done|].
  unfold unread in Hrd. simpl in Hrd. rewrite Hu, length_app in Hrd. simpl in Hrd.
  rewrite (length_delete _ _ (mk_is_Some _ _ Hk)) in Hrd. apply lookup_lt_Some in Hk. lia.
Qed.

Lemma recover_measure s s' : inv s -> recover s s' -> inv s' /\ lower (measure s') (measure s).
Proof using Type.
  intros Hs (e & He & H). split; [by eapply failover_inv_step|].
  destruct e as [[ts zid uuid|i|i k|i e]|k c|i e]; try done; [by eapply measure_arrive|].
  simpl in He. destruct (running i (fleet s)) as [m|] eqn:Hm; [|done].
  apply (measure_at i e s s' m); [done..|]. by destruct e.
Qed.

Lemma recover_inv s s' : inv s -> rtc recover s s' -> inv s'.
Proof using Type. intros Hs Hr. induction Hr as [s|s s1 s' H1 _ IH]; [done|]. apply IH. by eapply recover_measure. Qed.

Lemma recover_sn s : inv s -> sn recover s.
Proof using Type. apply (sn_measure recover inv lower measure); [apply lower_wf|apply recover_measure]. Qed.

(** ** Where it ends *)

(** What a member would do next. *)
Definition next_recovery (i : nat) (m : Member) (r : Roster) : option FailoverEvent :=
  match incoming m, l_phase (loop m) with
  | _ :: _, _ => Some (Exporter (Arrive i 0))
  | [], Standby => if decide (pending (claim (loop m)) = []) then None else Some (At i (Own StandbyPoll))
  | [], Subscribing => Some (At i (match news r with None => SubscriberUp | Some _ => QueryUp end))
  | [], Replaying => Some (At i (match elements (owed r) with c :: _ => Reply c | [] => RepliesEnd end))
  | [], Serving =>
      if decide (pending (claim (loop m)) = [])
      then match news r with Some (_ :: _) => Some (At i (News 0)) | _ => None end else Some (At i (Own ClaimChanged))
  | [], Draining _ [] => Some (At i (Own HandleJoined))
  | [], Draining _ (_ :: _) => Some (At i (Own HandleDeadline))
  | [], (LoopStopped | LoopFailed) => None
  end.

(** What the roster can do, the whole can. *)
Lemma at_member_enabled i e s m r r' :
  running i (fleet s) = Some m -> rosters s !! i = Some r -> r_loop r = loop m -> rstep r e = Some r' ->
  (match e with Own (ClaimArrives _) => False | _ => True end) -> exists s', at_member service dns_suffix i e s = Some s'.
Proof using Type.
  intros Hm Hi Hsame Hr He. destruct (roster_step_loop _ _ _ _ _ Hr) as [Hl _]. unfold at_member. rewrite Hm. simpl.
  rewrite Hi. simpl. rewrite Hr. simpl. destruct (loop_event service dns_suffix r e) as [le|] eqn:El; [|by eexists].
  assert (match le with ClaimArrives _ => False | _ => True end) as Hle.
  { destruct e as [c|c| | | |c| | |n|e]; simpl in El; simplify_eq; try done.
    apply bind_Some in El as (q & _ & El). apply fmap_Some in El as ([[] c] & _ & ->); done. }
  rewrite Hsame in Hl. destruct le; try done; cbn [fleet_step]; rewrite Hm; cbn [mbind option_bind]; rewrite Hl; by eexists.
Qed.

Lemma next_recovery_enabled i m r s e :
  inv s -> running i (fleet s) = Some m -> rosters s !! i = Some r -> next_recovery i m r = Some e ->
  settles_failover s e = true /\ exists s', step s e = Some s'.
Proof using Type.
  intros Hs Hm Hi Hn. pose proof (fo_same _ _ _ Hs i m r Hm Hi) as Hsame.
  destruct (Forall_lookup_1 _ _ _ _ (fo_rosters _ _ _ Hs) Hi) as [Hr _].
  assert (forall e0, e = At i e0 -> settles_member (loop m) e0 = true -> is_Some (rstep r e0) ->
    settles_failover s e = true /\ exists s', step s e = Some s') as Hat.
  { intros e0 -> He [r' Hr']. simpl. rewrite Hm. split; [done|].
    assert (exists s', at_member service dns_suffix i e0 s = Some s') as [s' Hs'].
    { eapply at_member_enabled; [done..|]. by destruct e0 as [| | | | | | | | |[]]. }
    exists s'. by destruct e0. }
  unfold next_recovery in Hn. destruct (incoming m) as [|c inc] eqn:Ei.
  - pose proof (ri_up _ Hr) as Hup. pose proof (ri_replayed _ Hr) as Hrep. rewrite Hsame in Hup, Hrep.
    unfold serving in Hup.
    destruct (l_phase (loop m)) as [| | | |why [|ch rest]| |] eqn:E; try done; repeat (case_decide; try done).
    + injection Hn as <-. apply (Hat _ eq_refl); simpl; [by rewrite bool_decide_false|]. rewrite Hsame, E. by eexists.
    + injection Hn as <-. destruct (news r) as [q|] eqn:Eq; apply (Hat _ eq_refl); try done; simpl; rewrite Hsame, E, Eq; by eexists.
    + injection Hn as <-. destruct (elements (owed r)) as [|c els] eqn:Eo; apply (Hat _ eq_refl); try done; simpl.
      * apply elements_empty_inv, leibniz_equiv in Eo. rewrite decide_True by done. rewrite Hsame, E. by eexists.
      * rewrite decide_True by (apply elem_of_elements; rewrite Eo; set_solver). unfold report. simpl. rewrite Hsame, E. by eexists.
    + destruct (news r) as [[|[k c] q]|] eqn:Eq; try done. injection Hn as <-. apply (Hat _ eq_refl); [done|]. simpl.
      rewrite Eq. simpl. unfold take_news. simpl. unfold report. destruct k; simpl; rewrite Hsame, E; by eexists.
    + injection Hn as <-. apply (Hat _ eq_refl); simpl; [by rewrite bool_decide_false|]. rewrite Hsame, E. unfold on_claim_changed.
      destruct (pending (claim (loop m))); [done|]. by eexists.
    + injection Hn as <-. apply (Hat _ eq_refl); [done|]. simpl. rewrite Hsame, E. by eexists.
    + injection Hn as <-. apply (Hat _ eq_refl); [done|]. simpl. rewrite Hsame, E. by eexists.
  - injection Hn as <-. split; [done|]. unfold failover_step, arrived. cbn [fleet_step]. rewrite Hm. simpl. unfold arrive.
    rewrite Ei. simpl. rewrite Hi. simpl. by eexists.
Qed.

Lemma next_recovery_none i m r :
  roster_inv r -> r_loop r = loop m -> returned (loop m) = false -> next_recovery i m r = None ->
  incoming m = [] /\ at_rest (loop m) = true /\ (serving (loop m) = true -> news r = Some [] /\ owed r = ∅).
Proof using Type.
  intros Hr Hsame Hret Hn. unfold next_recovery, returned, at_rest, serving in *. destruct (incoming m); [|done]. split; [done|].
  pose proof (ri_up _ Hr) as Hup. pose proof (ri_replayed _ Hr) as Hrep. rewrite Hsame in Hup, Hrep. unfold serving in Hup.
  destruct (l_phase (loop m)) as [| | | |why [|ch rest]| |] eqn:E; try done; case_decide; try done; rewrite bool_decide_true by done.
  - done.
  - split; [done|]. intros _. destruct (Hup eq_refl) as [q Hq]. rewrite Hq in Hn |- *. split; [by destruct q|auto].
Qed.

(** Nothing is left to happen: the fleet is settled, and the one that serves is told of
    every client. *)
Lemma nf_recovered s :
  inv s -> nf recover s ->
  settled (fleet s) /\ forall i m r, running i (fleet s) = Some m -> rosters s !! i = Some r -> serving (loop m) = true ->
    news r = Some [] /\ owed r = ∅.
Proof using Type.
  intros Hs Hnf.
  assert (forall i m r, running i (fleet s) = Some m -> rosters s !! i = Some r ->
    incoming m = [] /\ at_rest (loop m) = true /\ (serving (loop m) = true -> news r = Some [] /\ owed r = ∅)) as H.
  { intros i m r Hm Hi. destruct (Forall_lookup_1 _ _ _ _ (fo_rosters _ _ _ Hs) Hi) as [Hr _].
    destruct (fi_members _ _ (fo_fleet _ _ _ Hs) _ _ Hm).
    apply (next_recovery_none i m r); [done|by eapply fo_same|done|].
    destruct (next_recovery i m r) as [e|] eqn:E; [|done]. destruct Hnf.
    destruct (next_recovery_enabled _ _ _ _ _ Hs Hm Hi E) as [He [s' Hs']]. by exists s', e. }
  split; [|intros i m r Hm Hi; by destruct (H i m r Hm Hi) as (_ & _ & ?)].
  intros i m Hm. assert (is_Some (rosters s !! i)) as [r Hi].
  { apply lookup_lt_is_Some. rewrite (fo_length _ _ _ Hs). apply running_Some in Hm as [Hm _]. by eapply lookup_lt_Some. }
  by destruct (H i m r Hm Hi) as (? & ? & _).
Qed.

(** It declares and withdraws no token, and kills no subscriber. *)
Lemma recover_keeps s s' :
  recover s s' -> declared s' = declared s /\ (subscribers_alive (fleet s) -> subscribers_alive (fleet s')).
Proof using Type.
  intros (e & He & H). destruct e as [[ts zid uuid|i|i k|i e]|k c|i e]; try done.
  - unfold failover_step in H. apply bind_Some in H as (f & Hf & H). apply bind_Some in H as (sample & _ & H).
    apply bind_Some in H as (r & _ & H). apply bind_Some in H as (r' & _ & [= <-]). split; [done|]. simpl. by apply (alive_step fleet_scope _ (Arrive i k)).
  - assert (at_member service dns_suffix i e s = Some s') as Hat by (by destruct e). simpl in He.
    unfold at_member in Hat. destruct (running i (fleet s)) as [m|]; [|done]. simpl in Hat.
    apply bind_Some in Hat as (r & _ & Hat). apply bind_Some in Hat as (r' & _ & Hat). apply bind_Some in Hat as (f & Hf & [= <-]).
    split; [done|]. simpl. destruct (loop_event service dns_suffix r e) as [le|] eqn:El; [|by injection Hf as <-].
    eapply (alive_step fleet_scope _ (Local i le)); [|exact Hf]. intros j [= _ ->]. destruct e as [c|c| | | |c| | |n|e]; simpl in El; simplify_eq.
    apply bind_Some in El as (q & _ & El). by apply fmap_Some in El as ([[] c] & _ & [=]).
Qed.
End Recovery.

(** ** Properties *)

(** C5: every failover completes.  Whatever exporters joined, left, died or were demoted,
    and however client tokens came and went: from then on, while no claim subscriber dies,
    no schedule of what happens by itself (changes of claims and tokens arrive in any
    order, what arrived is read, subscriptions, queries, replays and drains under way
    complete) goes on for ever, and where it ends every exporter sees exactly the live
    claims and, if one is left, exactly one serves, the one the election names.  That one
    has a running task exactly for the clients whose token is declared, apart from those
    whose task ended by itself (and unless a shutdown cut its replay short); no other
    exporter has any. *)
Theorem failover_settles service dns es s :
  run (failover_step service dns) no_failover es = Some s -> subscribers_alive (fleet s) ->
  sn (recover service dns) s /\
  forall s', rtc (recover service dns) s s' -> nf (recover service dns) s' ->
    declared s' = declared s /\
    (forall i m, running i (fleet s') = Some m -> claims (claim (loop m)) = live (fleet s')) /\
    (live (fleet s') = ∅ \/
     exists i m r, running i (fleet s') = Some m /\ rosters s' !! i = Some r /\
       elect (live (fleet s')) (own (claim (loop m))) = true /\ serving (loop m) = true /\
       (forall j m' c, running j (fleet s') = Some m' -> j <> i -> serving (loop m') = false /\ ~ has_task (loop m') c) /\
       forall c, (has_task (loop m) c -> c ∈ declared s) /\
         (cut r = false -> c ∈ declared s -> has_task (loop m) c \/ c ∈ ended r)).
Proof.
  intros Hr%run_failover_inv Ha. split; [by apply recover_sn|]. intros s' Hs Hnf.
  pose proof (recover_inv _ _ _ _ Hr Hs) as Hi.
  assert (subscribers_alive (fleet s') /\ declared s' = declared s) as [Ha' Hd].
  { clear Hnf Hr Hi. induction Hs as [s|s s1 s' H1 _ IH]; [done|]. destruct (recover_keeps _ _ _ _ H1) as [<- Hk]. auto. }
  destruct (nf_recovered _ _ _ Hi Hnf) as [Hst Hq]. pose proof (fo_fleet _ _ _ Hi) as Hf.
  split; [done|]. split; [by intros i m; eapply settled_view|].
  destruct (decide (live (fleet s') = ∅)) as [?|Hne]; [by left|right].
  destruct (settled_serves _ _ _ Hi Ha' Hst Hne) as (i & m & r & Hm & Hri & Hl & [Hinv Ht] & He & Hsv).
  exists i, m, r. split_and!; try done; [intros j m' c Hm' Hne'; by apply (others_idle service dns s' i j m)|].
  intros c. rewrite <- Hd, <- Ht, <- Hl. destruct (Hq i m r Hm Hri Hsv) as [Hn Ho].
  apply (roster_follows r []); [done|by rewrite Hl|done|done|by rewrite Ho].
Qed.

(** ** Example *)

(** An older exporter joins while the first serves a client; a second client comes. *)
Definition newly_joined : list FailoverEvent :=
  [Exporter (Join 7 "z1" "u1"); Exporter (Arrive 0 0); Client Put "c1"; At 0 (Own StandbyPoll); At 0 SubscriberUp; At 0 QueryUp;
   At 0 (Reply "c1"); At 0 RepliesEnd; Exporter (Join 5 "z2" "u2"); Client Put "c2"].

(** What follows by itself. *)
Definition takes_over : list FailoverEvent :=
  [At 0 (News 0); Exporter (Arrive 0 0); At 0 (Own ClaimChanged); At 0 (Own HandleDeadline); At 0 (Own HandleDeadline);
   At 0 (Own HandleJoined); Exporter (Arrive 1 1); At 1 (Own StandbyPoll); Exporter (Arrive 1 0); At 1 SubscriberUp; At 1 QueryUp;
   At 1 (Reply "c2"); At 1 (Reply "c1"); At 1 RepliesEnd; At 1 (Own ClaimChanged)].

Definition recovering (service : str) (dns : option str) (s : Failover) (e : FailoverEvent) : option Failover :=
  if settles_failover s e then failover_step service dns s e else None.

Lemma run_recovering service dns es s s' : run (recovering service dns) s es = Some s' -> rtc (recover service dns) s s'.
Proof.
  revert s. induction es as [|e es IH]; intros s; simpl; [by intros [= ->]|].
  intros (s1 & Hs & Hr)%bind_Some. eapply rtc_l; [|by apply IH]. unfold recovering in Hs.
  destruct (settles_failover s e) eqn:E; [|done]. by exists e.
Qed.

Definition recovered_b (s : Failover) : bool :=
  settled_b (fleet s) && forallb (fun r => negb (serving (r_loop r)) || bool_decide (news r = Some [])) (rosters s).

Lemma recovered_b_nf service dns s :
  failover_inv service dns s -> recovered_b s = true -> nf (recover service dns) s.
Proof.
  intros Hs [Hst%settled_b_settled Hq]%andb_prop [s' (e & He & H)]. rewrite forallb_forall in Hq.
  destruct e as [[ts zid uuid|i|i k|i e]|k c|i e]; try done.
  - unfold failover_step in H. apply bind_Some in H as (f & Hf & _). simpl in Hf. apply bind_Some in Hf as (m & Hm & Hf).
    apply bind_Some in Hf as (m' & Ha & _). destruct (Hst _ _ Hm) as [Hi _]. unfold arrive in Ha. by rewrite Hi in Ha.
  - assert (at_member service dns i e s = Some s') as Hat by (by destruct e). simpl in He. unfold at_member in Hat.
    destruct (running i (fleet s)) as [m|] eqn:Hm; [|done]. cbn [mbind option_bind] in Hat.
    apply bind_Some in Hat as (r & Hi & Hat). apply bind_Some in Hat as (r' & Hr & _).
    pose proof (fo_same _ _ _ Hs i m r Hm Hi) as Hsame. destruct (Hst _ _ Hm) as [_ Hrest].
    specialize (Hq r (proj1 (list_elem_of_In _ _) (list_elem_of_lookup_2 _ _ _ Hi))).
    rewrite <- Hsame in He, Hrest. destruct (roster_step_loop _ _ _ _ _ Hr) as [Hl _].
    unfold at_rest, serving in *. destruct e as [c|c| | | |c| | |n|e]; try done; cbn [loop_event] in Hl.
    1: simpl in Hr.
    6: unfold roster_step in Hr; destruct (own_event e); [|done]; destruct e; try done.
    5: unfold roster_step in Hr; apply bind_Some in Hr as (q & Hn & Hr); apply bind_Some in Hr as ([k c] & Ht & _);
       rewrite Hn in Hl, Hq; simpl in Hl; rewrite Ht in Hl; destruct q; [done|]; destruct k.
    all: simpl in Hl, He; destruct (l_phase (r_loop r)); try done; by rewrite Hrest in He.
Qed.

Lemma newly_joined_runs :
  match run (failover_step "web" None) no_failover newly_joined with
  | Some s => match run (recovering "web" None) s takes_over with
    | Some s' => alive_b (fleet s) && recovered_b s' && bool_decide (live (fleet s') <> ∅) &&
        bool_decide (client_roles s' = [(Standby, None, 0, false); (Serving, Some [], 0, false)]) &&
        bool_decide (declared s = {["c1" : str; "c2" : str]})
    | None => false
    end
  | None => false
  end = true.
Proof. vm_compute. reflexivity. Qed.

Lemma failover_settles_witness :
  exists s s' i m r, run (failover_step "web" None) no_failover newly_joined = Some s /\ rtc (recover "web" None) s s' /\
    running i (fleet s') = Some m /\ rosters s' !! i = Some r /\ serving (loop m) = true /\
    (has_task (loop m) "c2" \/ ("c2" : str) ∈ ended r).
Proof.
  pose proof newly_joined_runs as H.
  destruct (run (failover_step "web" None) no_failover newly_joined) as [s|] eqn:E; [|discriminate H].
  destruct (run (recovering "web" None) s takes_over) as [s'|] eqn:E'; [|discriminate H].
  apply andb_prop in H as [H Hd%bool_decide_eq_true]. apply andb_prop in H as [H Hr%bool_decide_eq_true].
  apply andb_prop in H as [H Hl%bool_decide_eq_true]. apply andb_prop in H as [Ha Hs]. apply run_recovering in E'.
  destruct (failover_settles "web" None newly_joined s E (alive_b_alive _ Ha)) as [_ Hf].
  destruct (Hf s' E' (recovered_b_nf _ _ _ (recover_inv _ _ _ _ (run_failover_inv _ _ _ _ E) E') Hs)) as (_ & _ & Hc).
  destruct Hc as [Hc|(i & m & r & Hm & Hi & _ & Hsv & _ & Hc)]; [contradiction|].
  exists s, s', i, m, r. split_and!; [reflexivity|assumption..|].
  assert (client_roles s' !! i = Some (l_phase (loop m), news r, size (owed r), cut r)) as Hrole.
  { apply running_Some in Hm as [Hm _]. unfold client_roles. by rewrite lookup_zip_with, Hm, Hi. }
  rewrite Hr in Hrole. destruct i as [|[|i]]; [|injection Hrole as _ _ _ Hcut|discriminate Hrole].
  - injection Hrole as Hp _ _ _. unfold serving in Hsv. rewrite <- Hp in Hsv. discriminate Hsv.
  - apply (Hc "c2"); [by symmetry|]. rewrite Hd. by apply elem_of_union_r, elem_of_singleton.
Defined.
