(* ===== verification/ExportDrain.v ===== *)
(** * ExportDrain: the drain of an exporter's clients ([drain_all_clients] of
    [src/export/bridge.rs]) against the teardown of each ([run_client],
    [handle_client_bridge])

    Times are in milliseconds.  A client's task is caught by the cancel message
    somewhere in its life; from there its end is computed from how long each await
    takes, and the drain joins the tasks against one deadline. *)

From S2P Require Import Prelude Text Config Backpressure Transport Relay ExportBridge ZenohUtil.

(** ** The teardown of one client *)

(** How a relay task ends once its token has tripped, and how long that takes; [None]
    if it never does by itself. *)
Definition Half : Type := option (DirectionEnd * N).

Record Teardown : Type := {
  b2z : Half;
  z2b : Half;
  undeclare_publisher : option N;
  undeclare_subscriber : option N;
  signal : SignalEnv;
}.

(** Where the cancel message finds the task.  In the set-up it waits in its channel. *)
Inductive Caught : Type :=
| InDial
| InSetup (rest : N) (setup : option (result BridgeError unit * N)) (t : Teardown)   (** [rest] of [read_timeout] *)
| InRelay (t : Teardown)
| InSignal (res : ClientResult) (since : N) (env : SignalEnv).

(** What became of the task: its result, what became of its attempt at the error signal if
    it owed one, and when it was over. *)
Record TaskEnd : Type := { e_result : ClientResult; e_signal : option (result SignalError unit); e_at : N }.

Section Teardown.
Context (availability_timeout drain_timeout : N).

(** The watchdog aborts what still runs [drain_timeout] after the trip. *)
Definition watched (tripped : N) (h : Half) : option DirectionEnd * N :=
  match h with
  | Some (e, took) => if (took <=? drain_timeout)%N then (Some e, tripped + took)%N else (None, tripped + drain_timeout)%N
  | None => (None, tripped + drain_timeout)%N
  end.

(** A task that joined hands its Zenoh entity back. *)
Definition undeclare (joined : option DirectionEnd) (took : option N) (now : N) : option N :=
  match joined with Some _ => d ← took; Some (now + d)%N | None => Some now end.

Definition bridge_ends (tripped : N) (t : Teardown) : option (ConnectionOutcome * N) :=
  let (b2z_end, t1) := watched tripped (b2z t) in
  let (z2b_end, t2) := watched tripped (z2b t) in
  now ← undeclare b2z_end (undeclare_publisher t) (N.max t1 t2);
  now ← undeclare z2b_end (undeclare_subscriber t) now;
  Some (fold_outcome b2z_end z2b_end, now).

(** The rest of [run_client] after the bridge. *)
Definition signal_unless_clean (res : result BridgeError ConnectionOutcome) (now : N) (env : SignalEnv) : TaskEnd :=
  if run_bridge res then {| e_result := BridgeEnded res; e_signal := None; e_at := now |}
  else
    let (r, t) := publish_error_signal availability_timeout now env in
    {| e_result := BridgeEnded res; e_signal := Some r; e_at := t |}.

Definition torn_down (tripped : N) (t : Teardown) : option TaskEnd :=
  '(outcome, now) ← bridge_ends tripped t; Some (signal_unless_clean (Ok outcome) now (signal t)).

(** [timeout(read_timeout, setup)], then the external-teardown task finds the message. *)
Definition set_up_then (now rest : N) (setup : option (result BridgeError unit * N)) (t : Teardown) : option TaskEnd :=
  let timed_out := signal_unless_clean (Err BridgeSetupTimeout) (now + rest) (signal t) in
  match setup with
  | Some (res, took) =>
      if (took <=? rest)%N then
        match res with
        | Ok _ => torn_down (now + took) t
        | Err e => Some (signal_unless_clean (Err e) (now + took) (signal t))
        end
      else Some timed_out
  | None => Some timed_out
  end.

(** [None] when an await of the teardown never ends. *)
Definition caught_ends (now : N) (c : Caught) : option TaskEnd :=
  match c with
  | InDial => Some {| e_result := DialAborted; e_signal := None; e_at := now |}
  | InSetup rest setup t => set_up_then now rest setup t
  | InRelay t => torn_down now t
  | InSignal res since env =>
      let (r, t) := publish_error_signal availability_timeout since env in
      Some {| e_result := res; e_signal := Some r; e_at := N.max now t |}
  end.
End Teardown.

(** ** [drain_all_clients] *)

Definition drain_margin : N := from_secs 5.

Inductive JoinEnd : Type := Drained | TaskError | DrainAborted.

#[export] Instance JoinEnd_eq_dec : EqDecision JoinEnd.
Proof. solve_decision. Defined.

(** [timeout_at(deadline, handle)] on a task that ends, cleanly or by a panic, at a
    given time or never. *)
Definition join_at (deadline now : N) (ends : option (bool * N)) : JoinEnd * N :=
  match ends with
  | Some (ok, t) =>
      if (t <=? deadline)%N then (if ok then Drained else TaskError, N.max now t)
      else (DrainAborted, N.max now deadline)
  | None => (DrainAborted, N.max now deadline)
  end.

Fixpoint join_all (deadline now : N) (entries : list (option (bool * N))) : list JoinEnd * N :=
  match entries with
  | [] => ([], now)
  | h :: entries' =>
      let (e, now) := join_at deadline now h in
      let (es, now) := join_all deadline now entries' in
      (e :: es, now)
  end.

Definition drain_all_clients (drain_timeout now : N) (entries : list (option (bool * N))) : list JoinEnd * N :=
  join_all (now + drain_timeout + drain_margin) now entries.

(** The entries of clients that the message catches at [now]. *)
Definition drained_clients (config : BridgeConfig) (now : N) (cs : list Caught) : list JoinEnd * N :=
  drain_all_clients (drain_timeout config) now
    ((fun c => (fun e => (true, e_at e)) <$> caught_ends (availability_timeout config) (drain_timeout config) now c) <$> cs).

(** ** Bounds *)

(** What the teardown takes besides the watchdog's wait and the error signal: the rest
    of the set-up and the two undeclares. *)
Definition undeclares (t : Teardown) : option N :=
  p ← undeclare_publisher t; s ← undeclare_subscriber t; Some (p + s)%N.

Definition overhead (c : Caught) : option N :=
  match c with
  | InDial | InSignal _ _ _ => Some 0%N
  | InSetup rest setup t =>
      u ← undeclares t;
      Some (match setup with Some (_, took) => N.min rest took | None => rest end + u)%N
  | InRelay t => undeclares t
  end.

(** Only a task that owes a signal is publishing one, since before the drain. *)
Definition caught_ok (now : N) (c : Caught) : Prop :=
  match c with InSignal res since _ => (since <= now)%N /\ silent_result res = false | _ => True end.

Section Bounds.
Context (availability drain : N).

#[local] Notation signal_by := (signal_unless_clean availability).

Lemma signal_bounded now env :
  (now <= snd (publish_error_signal availability now env) <= now + budget availability)%N.
Proof.
  unfold publish_error_signal. pose proof (N.le_0_l (budget availability)).
  destruct (publish_error_signal_inner availability now env) as [[r t]|] eqn:E; simpl; [|lia].
  destruct (N.leb_spec t (now + budget availability)); simpl; [|lia]. split; [|done].
  unfold publish_error_signal_inner, await in E. destruct (key_valid env); [|simplify_eq; lia].
  destruct (declare env) as [[[] d]|]; simpl in E; [|simplify_eq; lia|done].
  unfold await_matching_subscriber in E. rewrite decide_True in E by done.
  destruct (gate_loop _ _ _) as [[g t1]|] eqn:Eg; simpl in E; [|done].
  apply gate_loop_spec in Eg as [Hb _]; [|lia].
  destruct (put_signal env) as [[p d']|]; simpl in E; [|done]. simplify_eq. lia.
Qed.

(** A task's record is in order, and its end in time. *)
Definition ends_by (t : N) (o : option TaskEnd) : Prop :=
  exists e, o = Some e /\ (e_at e <= t)%N /\ (e_signal e = None <-> silent_result (e_result e) = true).

Lemma ends_by_mono t t' o : (t <= t')%N -> ends_by t o -> ends_by t' o.
Proof. intros Ht (e & -> & Ha & Hs). exists e. split_and!; [done|lia|done]. Qed.

Lemma signal_unless_clean_ends res now env :
  ends_by (now + budget availability) (Some (signal_by res now env)).
Proof.
  unfold signal_unless_clean. destruct (run_bridge res) eqn:E.
  - eexists. split_and!; [done|simpl; lia|]. simpl. by rewrite E.
  - pose proof (signal_bounded now env). destruct (publish_error_signal availability now env) as [r t]. eexists.
    split_and!; [done|simpl in *; lia|]. simpl. by rewrite E.
Qed.

Lemma watched_bounded tripped h : (tripped <= snd (watched drain tripped h) <= tripped + drain)%N.
Proof. unfold watched. destruct h as [[e took]|]; [|simpl; lia]. destruct (N.leb_spec took drain); simpl; lia. Qed.

Lemma undeclare_bounded joined took now :
  exists t, undeclare joined (Some took) now = Some t /\ (t <= now + took)%N.
Proof. destruct joined; simpl; eexists; (split; [done|lia]). Qed.

Lemma torn_down_ends tripped t u :
  undeclares t = Some u -> ends_by (tripped + drain + u + budget availability) (torn_down availability drain tripped t).
Proof.
  unfold undeclares. intros Hu. destruct (undeclare_publisher t) as [p|] eqn:Ep; [|done].
  destruct (undeclare_subscriber t) as [s|] eqn:Es; [|done]. simplify_eq/=.
  unfold torn_down, bridge_ends. rewrite Ep, Es.
  pose proof (watched_bounded tripped (b2z t)). pose proof (watched_bounded tripped (z2b t)).
  destruct (watched drain tripped (b2z t)) as [e1 t1], (watched drain tripped (z2b t)) as [e2 t2]. simpl in *.
  destruct (undeclare_bounded e1 p (N.max t1 t2)) as (t3 & -> & H3). simpl.
  destruct (undeclare_bounded e2 s t3) as (t4 & -> & H4). simpl.
  eapply ends_by_mono; [|apply signal_unless_clean_ends]. lia.
Qed.

Lemma set_up_then_ends now rest setup t u :
  undeclares t = Some u ->
  ends_by (now + match setup with Some (_, took) => N.min rest took | None => rest end + drain + u + budget availability)
    (set_up_then availability drain now rest setup t).
Proof.
  intros Hu. unfold set_up_then. destruct setup as [[res took]|].
  - destruct (N.leb_spec took rest).
    + replace (N.min rest took) with took by lia. destruct res as [v|e]; [by apply torn_down_ends|].
      eapply ends_by_mono; [|apply signal_unless_clean_ends]. lia.
    + eapply ends_by_mono; [|apply signal_unless_clean_ends]. lia.
  - eapply ends_by_mono; [|apply signal_unless_clean_ends]. lia.
Qed.

Lemma caught_ends_by now c o :
  caught_ok now c -> overhead c = Some o ->
  ends_by (now + drain + o + budget availability) (caught_ends availability drain now c).
Proof.
  destruct c as [|rest setup t|t|res since env]; simpl; intros Hok Ho.
  - eexists. split_and!; [done|simpl; lia|done].
  - apply bind_Some in Ho as (u & Hu & [= <-]). eapply ends_by_mono; [|by apply set_up_then_ends]. lia.
  - by apply torn_down_ends.
  - destruct Hok as [Hs Hr]. pose proof (signal_bounded since env) as Hb.
    destruct (publish_error_signal availability since env) as [r t]. simpl in Hb. eexists.
    split_and!; [done|simpl; lia|]. simpl. by rewrite Hr.
Qed.
End Bounds.

(** What a caught task comes to: a direction of its relay that has not ended
    [drain_timeout] after the trip is aborted ([None]). *)
Definition half_end (drain : N) (h : Half) : option DirectionEnd :=
  '(e, took) ← h; if (took <=? drain)%N then Some e else None.

Definition relay_result (drain : N) (t : Teardown) : ClientResult :=
  BridgeEnded (Ok (fold_outcome (half_end drain (b2z t)) (half_end drain (z2b t)))).

Definition caught_result (drain : N) (c : Caught) : ClientResult :=
  match c with
  | InDial => DialAborted
  | InSetup rest (Some (res, took)) t =>
      if (took <=? rest)%N then match res with Ok _ => relay_result drain t | Err e => BridgeEnded (Err e) end
      else BridgeEnded (Err BridgeSetupTimeout)
  | InSetup _ None _ => BridgeEnded (Err BridgeSetupTimeout)
  | InRelay t => relay_result drain t
  | InSignal res _ _ => res
  end.

(** The session, as its error signal finds it. *)
Definition caught_signal (c : Caught) : option SignalEnv :=
  match c with InDial => None | InSetup _ _ t | InRelay t => Some (signal t) | InSignal _ _ env => Some env end.

(** The error signal was attempted on [env]: it is published if the session answers in
    time, and the attempt succeeds only if it was. *)
Definition signalled (availability : N) (env : SignalEnv) (r : result SignalError unit) : Prop :=
  (forall od op, prompt availability env od op -> r = if od then ensure op PutFailed else Err DeclareFailed) /\
  (r = Ok tt -> signal_put env).

Lemma signalled_by availability now env : signalled availability env (fst (publish_error_signal availability now env)).
Proof.
  split; [intros od op; apply publish_error_signal_prompt|].
  destruct (publish_error_signal availability now env) as [r t] eqn:E. simpl. intros ->. by eapply publish_error_signal_Ok.
Qed.

Definition came_to (availability : N) (res : ClientResult) (env : option SignalEnv) (e : TaskEnd) : Prop :=
  e_result e = res /\ forall r, e_signal e = Some r -> exists v, env = Some v /\ signalled availability v r.

Lemma signal_unless_clean_came availability res now env :
  came_to availability (BridgeEnded res) (Some env) (signal_unless_clean availability res now env).
Proof.
  unfold signal_unless_clean. destruct (run_bridge res); [done|].
  pose proof (signalled_by availability now env). destruct (publish_error_signal availability now env) as [r t].
  split; [done|]. intros r' [= <-]. eauto.
Qed.

Lemma watched_end drain tripped h : fst (watched drain tripped h) = half_end drain h.
Proof. unfold watched, half_end. destruct h as [[e took]|]; [|done]. simpl. by destruct (_ <=? _)%N. Qed.

Lemma torn_down_came availability drain tripped t e :
  torn_down availability drain tripped t = Some e -> came_to availability (relay_result drain t) (Some (signal t)) e.
Proof.
  unfold torn_down, bridge_ends, relay_result. rewrite <- !(watched_end drain tripped).
  destruct (watched drain tripped (b2z t)) as [e1 t1], (watched drain tripped (z2b t)) as [e2 t2]. simpl.
  intros H. apply bind_Some in H as ([o n] & H & [= <-]). apply bind_Some in H as (n1 & _ & H).
  apply bind_Some in H as (n2 & _ & [= <- <-]). apply signal_unless_clean_came.
Qed.

Lemma caught_came availability drain now c e :
  caught_ends availability drain now c = Some e -> came_to availability (caught_result drain c) (caught_signal c) e.
Proof.
  destruct c as [|rest setup t|t|res since env]; simpl.
  - by intros [= <-].
  - unfold set_up_then. destruct setup as [[res took]|]; [|intros [= <-]; apply signal_unless_clean_came].
    destruct (took <=? rest)%N; [|intros [= <-]; apply signal_unless_clean_came].
    destruct res as [v|x]; [apply torn_down_came|intros [= <-]; apply signal_unless_clean_came].
  - apply torn_down_came.
  - pose proof (signalled_by availability since env). destruct (publish_error_signal availability since env) as [r t].
    intros [= <-]. split; [done|]. intros r' [= <-]. eauto.
Qed.

(** The verdict on a task does not depend on those joined before it. *)
Definition verdict (deadline : N) (h : option (bool * N)) : JoinEnd := fst (join_at deadline 0 h).

Lemma join_at_spec deadline now h :
  (now <= deadline)%N ->
  fst (join_at deadline now h) = verdict deadline h /\ (now <= snd (join_at deadline now h) <= deadline)%N.
Proof.
  intros Hn. unfold verdict, join_at. destruct h as [[ok t]|]; [|split; [done|simpl; lia]].
  destruct (N.leb_spec t deadline); simpl; (split; [done|lia]).
Qed.

Lemma join_all_spec deadline entries now :
  (now <= deadline)%N ->
  fst (join_all deadline now entries) = verdict deadline <$> entries /\
  (now <= snd (join_all deadline now entries) <= deadline)%N.
Proof.
  revert now. induction entries as [|h entries IH]; intros now Hn; simpl; [split; [done|lia]|].
  destruct (join_at_spec deadline now h Hn) as [H1 H2]. destruct (join_at deadline now h) as [e t]. simpl in *.
  destruct (IH t ltac:(lia)) as [H3 H4]. destruct (join_all deadline t entries) as [es t']. simpl in *.
  csimpl. subst. split; [done|lia].
Qed.

Lemma verdict_Drained deadline h :
  verdict deadline h = Drained <-> exists t, h = Some (true, t) /\ (t <= deadline)%N.
Proof.
  unfold verdict, join_at. destruct h as [[ok t]|]; [|naive_solver].
  destruct (N.leb_spec t deadline), ok; simpl; naive_solver lia.
Qed.

Lemma drained_clients_lookup config now cs i :
  let deadline := (now + drain_timeout config + drain_margin)%N in
  fst (drained_clients config now cs) !! i =
  (fun c => verdict deadline ((fun e => (true, e_at e)) <$>
     caught_ends (availability_timeout config) (drain_timeout config) now c)) <$> cs !! i.
Proof.
  cbn zeta. unfold drained_clients, drain_all_clients.
  destruct (join_all_spec (now + drain_timeout config + drain_margin) ((fun c => (fun e => (true, e_at e)) <$>
    caught_ends (availability_timeout config) (drain_timeout config) now c) <$> cs) now ltac:(lia)) as [-> _].
  rewrite !list_lookup_fmap. by destruct (cs !! i).
Qed.

(** ** Properties *)

(** C29: a drain waits for the teardown it starts.  However its clients are caught (in
    the dial, the set-up, the relay or the error signal) and whatever stalls, an
    exporter's drain is over within [drain_timeout] and five seconds.  A client is let go
    exactly when its task is over by then, whatever the order in which they are joined;
    and when the rest of its set-up, the two undeclares and the error signal's budget fit
    in five seconds, it is.  Its result is then the dial's cancellation, the set-up's
    failure, or the outcome of its relay, in which a direction that had not ended
    [drain_timeout] after the cancel counts as aborted by the watchdog; and it has
    attempted the error signal, unless its bridge was clean or its dial cancelled: the
    signal is published if the session answers its declaration and its put in time and
    they succeed, and the attempt is a success only if they did. *)
Theorem drain_lets_clients_end config now cs :
  let '(ends, t) := drained_clients config now cs in
  let deadline := (now + drain_timeout config + drain_margin)%N in
  let caught_ends := caught_ends (availability_timeout config) (drain_timeout config) now in
  length ends = length cs /\ (now <= t <= deadline)%N /\
  forall i c, cs !! i = Some c ->
    (ends !! i = Some Drained <-> exists e, caught_ends c = Some e /\ (e_at e <= deadline)%N) /\
    (forall o, caught_ok now c -> overhead c = Some o -> (o + budget (availability_timeout config) <= drain_margin)%N ->
       ends !! i = Some Drained /\
       exists e, caught_ends c = Some e /\ e_result e = caught_result (drain_timeout config) c /\
         match e_signal e with
         | None => silent_result (e_result e) = true
         | Some r => silent_result (e_result e) = false /\
             exists env, caught_signal c = Some env /\ signalled (availability_timeout config) env r
         end).
Proof.
  pose proof (fun i => drained_clients_lookup config now cs i) as Hlook.
  assert (length (fst (drained_clients config now cs)) = length cs /\
    (now <= snd (drained_clients config now cs) <= now + drain_timeout config + drain_margin)%N) as [Hlen Ht].
  { unfold drained_clients, drain_all_clients. set (entries := _ <$> cs).
    destruct (join_all_spec (now + drain_timeout config + drain_margin) entries now ltac:(lia)) as [-> Hb].
    split; [|done]. subst entries. by rewrite !length_fmap. }
  destruct (drained_clients config now cs) as [ends t]. cbn [fst snd] in *. split_and!; [done|lia|lia|].
  intros i c Hi. specialize (Hlook i). cbn zeta in Hlook. rewrite Hi in Hlook. simpl in Hlook.
  assert (ends !! i = Some Drained <-> exists e,
    caught_ends (availability_timeout config) (drain_timeout config) now c = Some e /\
    (e_at e <= now + drain_timeout config + drain_margin)%N) as Hiff.
  { rewrite Hlook, (inj_iff Some), verdict_Drained. destruct (caught_ends _ _ _ c); simpl; naive_solver. }
  split; [done|]. intros o Hok Ho Hfit.
  destruct (caught_ends_by (availability_timeout config) (drain_timeout config) _ _ _ Hok Ho) as (e & He & Ha & Hs).
  split; [apply Hiff; exists e; split; [done|lia]|]. exists e. destruct (caught_came _ _ _ _ _ He) as [Hres Hsig].
  split_and!; [done|done|]. destruct (e_signal e) as [r|] eqn:Er; [|by apply Hs].
  split; [|by apply Hsig]. apply not_true_is_false. intros H%Hs. discriminate H.
Qed.

(** ** Examples *)

#[local] Notation default := BridgeConfig_default.

(** A peer that never answers the gate, over a session that does. *)
Definition no_listener : SignalEnv :=
  {| key_valid := true; declare := Some (true, 20%N); gate_queries := replicate 6001 (Answered (Some false) 0%N);
     put_signal := Some (true, 10%N) |}.

(** A backend that takes no bytes: the bus task hangs in its write. *)
Definition wedged : Teardown :=
  {| b2z := Some (Relay.Reset, 0%N); z2b := None; undeclare_publisher := Some 30%N; undeclare_subscriber := Some 30%N;
     signal := no_listener |}.

(** At the defaults the watchdog's abort, the undeclares and the signal all fit. *)
Lemma drain_lets_clients_end_witness :
  let '(ends, t) := drained_clients default 100 [InDial; InRelay wedged] in
  (t <= 10100)%N /\ ends !! 1 = Some Drained /\
  exists e, caught_ends 1000 5000 100 (InRelay wedged) = Some e /\ e_result e = BridgeEnded (Ok Failed) /\
    e_signal e = Some (Ok tt).
Proof.
  pose proof (drain_lets_clients_end default 100 [InDial; InRelay wedged]) as H.
  destruct (drained_clients default 100 [InDial; InRelay wedged]) as [ends t].
  destruct H as (_ & Ht & H). split; [apply Ht|]. destruct (H 1 (InRelay wedged) eq_refl) as [_ Hd].
  destruct (Hd 60%N I eq_refl ltac:(vm_compute; discriminate)) as (H1 & e & He & Hr & Hsig). split; [exact H1|].
  exists e. split; [exact He|]. split; [exact Hr|].
  destruct (e_signal e) as [r|]; [|rewrite Hr in Hsig; discriminate Hsig].
  destruct Hsig as (_ & env & [= <-] & Hp & _). f_equal. apply (Hp true true).
  split_and!; [reflexivity|vm_compute; reflexivity|exists 20%N, 10%N; split_and!; [reflexivity|reflexivity|vm_compute; discriminate..]].
Defined.

(** [--availability-timeout-ms 6000]: the same client is aborted before its signal. *)
Example long_availability_loses_signal :
  let config := {| buffer_size := buffer_size default; read_timeout := read_timeout default; drain_timeout := 5000;
    reliability := Stream; max_connections := max_connections default; cache_size := cache_size default;
    max_header_size := max_header_size default; heartbeat_interval := heartbeat_interval default;
    availability_timeout := 6000; max_response_size := max_response_size default;
    response_idle_timeout := response_idle_timeout default; connect_timeout := connect_timeout default;
    rx_channel_capacity := rx_channel_capacity default |} in
  fst (drained_clients config 0 [InRelay wedged]) = [DrainAborted] /\
  e_signal <$> caught_ends 6000 5000 0 (InRelay wedged) = Some (Some (Ok tt)).
Proof. by vm_compute. Qed.

(** At the defaults, a client whose set-up stalls is aborted before its signal. *)
Example stalled_setup_loses_signal :
  fst (drained_clients default 0 [InSetup 9999 None wedged]) = [DrainAborted] /\
  e_signal <$> caught_ends 1000 5000 0 (InSetup 9999 None wedged) = Some (Some (Ok tt)).
Proof. by vm_compute. Qed.
