(* ===== verification/Bus.v ===== *)
(** * Bus: two sides of a connection over Zenoh

    What the composition of two sides needs to know of each is the class [BusSide]
    with [BusSideLaws]; an import connection, an exported client ([EndToEnd]) and a
    routed request ([RequestPipe]) are instances.  The bus hands each side's samples
    to the other in the order they were published, at any later time (the publisher's
    cache and the subscriber's history query recover those published before it was
    declared); it may lose one, and then reports it to the subscriber, if that
    listens, or does not. *)

From S2P Require Import Prelude Text.

Class BusSide (Sd Ev : Type) : Type := {
  side_step : Sd -> Ev -> option Sd;
  (** What its publisher accepted, in order. *)
  sent : Sd -> list bytes;
  (** It has given the connection up. *)
  was_reset : Sd -> bool;
  (** A loss would be reported to it. *)
  listens : Sd -> bool;
  arrival : bytes -> Ev;
  miss : Ev;
  (** Whether the bus makes this event. *)
  from_bus : Ev -> bool;
  (** The samples an event hands to its subscriber. *)
  heard : Ev -> list bytes;
}.

Class BusSideLaws {Sd Ev} (B : BusSide Sd Ev) (s0 : Sd) : Prop := {
  sent_grows es s e s' :
    run side_step s0 es = Some s -> side_step s e = Some s' -> sent s `prefix_of` sent s';
  reset_stays s e s' : side_step s e = Some s' -> was_reset s = true -> was_reset s' = true;
  miss_resets s s' : listens s = true -> side_step s miss = Some s' -> was_reset s' = true;
  heard_arrival x : heard (arrival x) = [x];
  heard_miss : heard miss = [];
  heard_own e : from_bus e = false -> heard e = [];
}.

(** A side with its history, how far its subscriber is in the other side's samples,
    and whether one was lost that nobody reported. *)
Record Node {Sd Ev : Type} : Type := {
  side : Sd;
  trace : list Ev;
  position : nat;
  gap : bool;
}.
Arguments Node : clear implicits.

Inductive BusEvent {Ev : Type} : Type :=
| Own (e : Ev)
| Deliver
| Lose (reported : bool).
Arguments BusEvent : clear implicits.

Section Node.
Context {Sd Ev : Type} {B : BusSide Sd Ev}.
Implicit Types n : Node Sd Ev.

Definition node_init (s : Sd) : Node Sd Ev := {| side := s; trace := []; position := 0; gap := false |}.

Definition advance (e : Ev) (pos : nat) n : option (Node Sd Ev) :=
  s ← side_step (side n) e;
  Some {| side := s; trace := trace n ++ [e]; position := pos; gap := gap n |}.

(** [other]: what the other side's publisher accepted so far. *)
Definition node_step (other : list bytes) n (e : BusEvent Ev) : option (Node Sd Ev) :=
  match e with
  | Own e => if from_bus e then None else advance e (position n) n
  | Deliver => x ← other !! position n; advance (arrival x) (S (position n)) n
  | Lose true => _ ← other !! position n; if listens (side n) then advance miss (S (position n)) n else None
  | Lose false =>
      _ ← other !! position n;
      Some {| side := side n; trace := trace n; position := S (position n); gap := true |}
  end.

Definition all_heard (es : list Ev) : list bytes := concat (heard <$> es).

(** Everything its subscriber was handed. *)
Definition received n : list bytes := all_heard (trace n).

(** Nothing went wrong that would excuse a difference. *)
Definition unharmed n : Prop := was_reset (side n) = false /\ gap n = false.

Context {s0 : Sd} {BL : BusSideLaws B s0}.

(** In any case the subscriber saw a selection of the other side's samples, in
    order; unharmed, all of them up to its position. *)
Record follows (other : list bytes) n : Prop := {
  fw_run : run side_step s0 (trace n) = Some (side n);
  fw_pos : position n <= length other;
  fw_some : received n `sublist_of` take (position n) other;
  fw_all : unharmed n -> received n = take (position n) other;
}.

Lemma take_lookup_S {A} (l : list A) k x : l !! k = Some x -> take (S k) l = take k l ++ [x].
Proof using Type. apply take_S_r. Qed.

Lemma all_heard_snoc es e : all_heard (es ++ [e]) = all_heard es ++ heard e.
Proof using Type. unfold all_heard. rewrite fmap_app. apply concat_snoc. Qed.

Lemma follows_init other : follows other (node_init s0).
Proof using Type. by split; simpl; [|lia| |]. Qed.

(** The other side publishes more. *)
Lemma follows_grows other other' n : follows other n -> other `prefix_of` other' -> follows other' n.
Proof using Type.
  intros [Hr Hp Hs Ha] [rest ->]. split; [done| | |].
  - rewrite length_app. lia.
  - by rewrite take_app_le.
  - by rewrite take_app_le.
Qed.

(** The side moves by an event that hands over what the position says. *)
Lemma follows_advance other n n' e pos :
  follows other n -> advance e pos n = Some n' -> position n <= pos <= length other ->
  heard e `sublist_of` drop (position n) (take pos other) ->
  (unharmed n' -> heard e = drop (position n) (take pos other)) -> follows other n'.
Proof using BL.
  intros [Hr Hp Hs Ha] Hst Hpos Hsub Hall. unfold advance in Hst.
  apply bind_Some in Hst as (s & Hstep & [= <-]).
  assert (take pos other = take (position n) other ++ drop (position n) (take pos other)) as Ht.
  { rewrite <- (take_drop (position n) (take pos other)) at 1. by rewrite take_take, Nat.min_l by lia. }
  split; unfold received in *; simpl in *; rewrite ?all_heard_snoc.
  - by rewrite run_snoc, Hr.
  - lia.
  - rewrite Ht. by apply sublist_app.
  - intros [Hc Hg]. rewrite Ht, <- Hall by done. f_equal. apply Ha. split; [|done]. simpl in Hc.
    destruct (was_reset (side n)) eqn:E; [|done]. by rewrite (reset_stays _ _ _ Hstep E) in Hc.
Qed.

Lemma follows_step other n e n' : follows other n -> node_step other n e = Some n' -> follows other n'.
Proof using BL.
  intros Hf Hs. pose proof Hf as [Hr Hp Hsub Ha].
  assert (forall x, other !! position n = Some x ->
    S (position n) <= length other /\ drop (position n) (take (S (position n)) other) = [x]) as Hnext.
  { intros x Hx. pose proof (lookup_lt_Some _ _ _ Hx). split; [lia|].
    rewrite (take_lookup_S _ _ _ Hx), drop_app_ge by (rewrite length_take; lia).
    by rewrite length_take, Nat.min_l, Nat.sub_diag by lia. }
  destruct e as [e| |[]]; simpl in Hs.
  - destruct (from_bus e) eqn:Ee; [done|]. apply heard_own in Ee.
    eapply follows_advance; [done|exact Hs|lia|..]; rewrite Ee, drop_ge by (rewrite length_take; lia); done.
  - apply bind_Some in Hs as (x & Hx & Hs). destruct (Hnext x Hx) as [Hle Hd].
    eapply follows_advance; [done|exact Hs|lia|..]; by rewrite Hd, heard_arrival.
  - apply bind_Some in Hs as (x & Hx & Hs). destruct (Hnext x Hx) as [Hle Hd].
    destruct (listens (side n)) eqn:El; [|done].
    eapply follows_advance; [done|exact Hs|lia|..]; rewrite heard_miss; [by apply sublist_nil_l|].
    intros [Hc _]. apply bind_Some in Hs as (s & Hstep & [= <-]). simpl in Hc.
    by rewrite (miss_resets _ _ El Hstep) in Hc.
  - apply bind_Some in Hs as (x & Hx & [= <-]). destruct (Hnext x Hx) as [Hle _]. split; simpl.
    + done.
    + done.
    + etrans; [exact Hsub|]. rewrite (take_lookup_S _ _ _ Hx). by apply sublist_inserts_r.
    + by intros [_ [=]].
Qed.

Lemma node_sent_grows other n e n' :
  follows other n -> node_step other n e = Some n' -> sent (side n) `prefix_of` sent (side n').
Proof using BL.
  intros [Hr _ _ _] Hs.
  assert (forall e pos, advance e pos n = Some n' -> sent (side n) `prefix_of` sent (side n')) as Hadv.
  { intros e' pos Ha. apply bind_Some in Ha as (s & Hstep & [= <-]). by eapply sent_grows. }
  destruct e as [e| |[]]; simpl in Hs.
  - destruct (from_bus e); [done|]. by eapply Hadv.
  - apply bind_Some in Hs as (x & _ & Hs). by eapply Hadv.
  - apply bind_Some in Hs as (x & _ & Hs). destruct (listens _); [|done]. by eapply Hadv.
  - apply bind_Some in Hs as (x & _ & [= <-]). done.
Qed.
End Node.
Arguments follows {Sd Ev B} s0 other n.

(** ** Two sides *)
Section Bus.
Context {S1 E1 S2 E2 : Type} {B1 : BusSide S1 E1} {B2 : BusSide S2 E2}.

Definition bus_step (s : Node S1 E1 * Node S2 E2) (e : BusEvent E1 + BusEvent E2)
    : option (Node S1 E1 * Node S2 E2) :=
  match e with
  | inl e => n ← node_step (sent (side (snd s))) (fst s) e; Some (n, snd s)
  | inr e => n ← node_step (sent (side (fst s))) (snd s) e; Some (fst s, n)
  end.

Context {s1 : S1} {s2 : S2} {L1 : BusSideLaws B1 s1} {L2 : BusSideLaws B2 s2}.

(** Each side follows the other, under every interleaving. *)
Theorem bus_follows es n1 n2 :
  run bus_step (node_init s1, node_init s2) es = Some (n1, n2) ->
  follows s1 (sent (side n2)) n1 /\ follows s2 (sent (side n1)) n2.
Proof using L1 L2.
  intros Hr. revert es Hr.
  cut (forall es s, run bus_step (node_init s1, node_init s2) es = Some s ->
    follows s1 (sent (side (snd s))) (fst s) /\ follows s2 (sent (side (fst s))) (snd s)).
  { intros H es Hr. apply (H es _ Hr). }
  apply (run_invariant bus_step (fun s => follows s1 (sent (side (snd s))) (fst s) /\
    follows s2 (sent (side (fst s))) (snd s))); [split; apply follows_init|].
  intros [m1 m2] [e|e] s' [H1 H2] Hs; simpl in Hs; apply bind_Some in Hs as (n & Hs & [= <-]); simpl in *.
  - split; [by eapply follows_step|]. eapply follows_grows; [done|]. by eapply node_sent_grows.
  - split; [|by eapply follows_step]. eapply follows_grows; [done|]. by eapply node_sent_grows.
Qed.
End Bus.
