(* ===== verification/EndToEnd.v ===== *)
(** * EndToEnd: an import connection, the bus and an exported client together

    The specification of the whole bridge is a pair of byte pipes: in byte-exact
    mode, what one end of the TCP connection sends is what the other end gets.
    Here the two implementations, [ImportBridge] and [ExportBridge], are the sides of
    a [Bus], and refine that specification. *)

From S2P Require Import Prelude Text Config Backpressure Transport Relay KeySpace ImportBridge ExportBridge Bus.

(** ** The two sides *)

(** The events of a relay that the bus makes, and what they hand over. *)
Definition relay_from_bus (e : RelayEvent) : bool :=
  match e with Sample _ | Miss => true | _ => false end.

Section Sides.
Context {M : Mpsc bytes} {W T : Type} {TW : TransportWriter W}.
Context (config : BridgeConfig).

Definition import_side (tap : option (bytes -> T -> T)) (service_name : str) (dns : option str)
    (client_id : str) (initial : option bytes) : BusSide (Import W T) ImportEvent := {|
  side_step := import_step config tap service_name dns client_id initial;
  sent := tx_samples;
  was_reset i := cancelled (rxs (relay i));
  listens i := miss_listening (relay i);
  arrival x := InRelay (Sample x);
  miss := InRelay Miss;
  from_bus e := match e with InRelay e => relay_from_bus e | _ => false end;
  heard e := samples (relay_events_of e);
|}.

Definition export_side : BusSide (Bridge W) BridgeEvent := {|
  side_step := bridge_step config;
  sent b := published (b_relay b);
  was_reset b := cancelled (rxs (b_relay b));
  listens b := miss_listening (b_relay b);
  arrival x := BridgeRelay (Sample x);
  miss := BridgeRelay Miss;
  from_bus e := match e with BridgeRelay e => relay_from_bus e | _ => false end;
  heard e := samples (bridge_relay_event e);
|}.

Lemma relay_own e : relay_from_bus e = false -> samples [e] = [].
Proof using Type. by destruct e. Qed.

(** A lost sample that is reported trips the token. *)
Lemma listened_miss mode (tap : option (bytes -> T -> T)) (r r' : Relay W T) :
  miss_listening r = true -> relay_step mode tap r Miss = Some r' -> cancelled (rxs r') = true.
Proof using Type.
  simpl. unfold on_miss. intros -> Hs. by destruct (session_gone r); simplify_eq.
Qed.
End Sides.

Lemma samples_concat ess : samples (concat ess) = concat (samples <$> ess).
Proof. induction ess as [|es ess IH]; simpl; [done|]. by rewrite samples_app, IH. Qed.

Section Laws.
Context {M : Mpsc bytes} {L : MpscLaws M} {W T : Type}.
Context {TW : TransportWriter W} {TL : TransportWriterLaws TW}.
Context (config : BridgeConfig) (tap : option (bytes -> T -> T)).
Context (service_name : str) (dns : option str) (client_id : str) (initial : option bytes).

Abbreviation istep := (import_step (TW := TW) config tap service_name dns client_id initial).

(** While a relay has not started, nothing is published; afterwards the initial
    buffer stays as it was. *)
Lemma import_tx_grows i e i' :
  idle_inv i -> istep i e = Some i' -> tx_samples i `prefix_of` tx_samples i'.
Proof using Type.
  intros Hi Hs. pose proof (import_step_relay _ _ _ _ _ _ _ _ _ Hs) as Hr.
  apply run_published_grows in Hr. unfold tx_samples.
  assert (initial_sent i' = initial_sent i \/ published (relay i) = []) as [->| ->].
  { unfold import_step in Hs. unfold idle_inv in Hi. destruct e as [ok| | |ok|ok| | | |e|];
      destruct (phase i) eqn:E; try done; try (right; by apply Hi); left;
      unfold on_monitor, on_join in Hs; repeat case_match; simplify_eq; try done;
      apply bind_Some in Hs as (r & _ & [= <-]); done. }
  - by apply prefix_app.
  - rewrite app_nil_r.
    assert (initial_sent i `prefix_of` initial_sent i') as Hp.
    { unfold import_step in Hs. destruct e as [ok| | |ok|ok| | | |e|];
        destruct (phase i) eqn:E; try done;
        unfold on_declare, on_matched, on_initial_put, on_listener, on_monitor, on_join, after_initial in Hs;
        repeat case_match; simplify_eq; try done; try (simpl; by apply prefix_app_r);
        apply bind_Some in Hs as (r & _ & [= <-]); try done; by destruct ok. }
    etrans; [exact Hp|]. by apply prefix_app_r.
Qed.

#[export] Instance import_side_laws (w : W) (t : T) :
  BusSideLaws (import_side (M := M) config tap service_name dns client_id initial) (import_init config w t).
Proof using L TL.
  constructor; simpl.
  - intros es i e i' Hr Hs. destruct (run_phase _ _ _ _ _ _ _ _ _ _ Hr) as [_ Hidle]. by eapply import_tx_grows.
  - intros i e i' Hs%import_step_relay. by apply (run_cancelled _ _ _ _ _ Hs).
  - intros i i' Hl Hs%import_step_relay. simpl in Hs. destruct (session_gone (relay i)); [done|].
    injection Hs as <-. unfold on_miss. by rewrite Hl.
  - done.
  - done.
  - intros [ok| | |ok|[]| | | |e|]; try done. apply relay_own.
Qed.

#[export] Instance export_side_laws (w : W) :
  BusSideLaws (export_side (M := M) config) (bridge_init config false w).
Proof using L TL.
  constructor; simpl.
  - intros _ b e b' _ (res & Hr & _)%bridge_step_relay. by eapply run_published_grows.
  - intros b e b' (res & Hr & _)%bridge_step_relay. by apply (run_cancelled _ _ _ _ _ Hr).
  - intros b b' Hl Hs. unfold bridge_step in Hs. destruct (b_phase b); try done;
      (destruct (bridge_relay_enabled _ _); [|done]); apply bind_Some in Hs as (r & Hr & [= <-]);
      by apply (listened_miss _ _ _ _ Hl Hr).
  - done.
  - done.
  - intros [ok| | | |e|]; try done. apply relay_own.
Qed.
End Laws.

(** ** What a side was written, against what the other one sent *)

Lemma concat_prefix (a b : list bytes) : a `prefix_of` b -> concat a `prefix_of` concat b.
Proof. intros [k ->]. rewrite concat_app. by apply prefix_app_r. Qed.

Lemma eof_position (a b rest : list bytes) :
  no_eof a -> no_eof b -> a ++ [] :: rest `prefix_of` b ++ [[]] -> a = b.
Proof.
  intros Ha Hb [k E]. rewrite <- app_assoc in E. apply (f_equal until_eof) in E.
  simpl in E. by rewrite !until_eof_marker in E.
Qed.

Section Written.
Context {M : Mpsc bytes} {L : MpscLaws M} {W T : Type}.
Context {TW : TransportWriter W} {TL : TransportWriterLaws TW}.
Context (config : BridgeConfig).

(** [taken]: the chunks written, against [other], what the other side published. *)
Record Delivery (w0 w : W) (other : list bytes) (exact ended : Prop) : Prop := {
  wr_some : exists taken, taken `sublist_of` other /\ wire w `prefix_of` wire w0 ++ concat taken;
  wr_all : exact -> exists taken, no_eof taken /\ wire w = wire w0 ++ concat taken /\ taken `prefix_of` other /\
    (ended -> half_closed w = true /\ exists rest, taken ++ [] :: rest `prefix_of` other);
}.

Section Import.
Context (tap : option (bytes -> T -> T)).
Context (service_name : str) (dns : option str) (client_id : str) (initial : option bytes).

Lemma import_written (w0 : W) (t : T) other (n : Node (Import W T) ImportEvent) :
  follows (B := import_side config tap service_name dns client_id initial) (import_init config w0 t) other n ->
  Delivery w0 (sink (relay (side n))) other
    (reliability config = Stream /\ unharmed (B := import_side config tap service_name dns client_id initial) n)
    (bus_task (relay (side n)) = BDone Eof).
Proof using L TL.
  intros [Hr Hp Hs Ha]. apply import_relay_run in Hr.
  assert (received n (B := import_side config tap service_name dns client_id initial) = samples (relay_events (trace n))) as E.
  { unfold received, all_heard, relay_events. rewrite samples_concat, <- list_fmap_compose. done. }
  rewrite E in *. split.
  - eapply relay_selected; [done|]. etrans; [exact Hs|]. apply sublist_take.
  - intros [Hm Hu]. eapply relay_taken; [done|done|apply Hu|]. rewrite (Ha Hu). apply prefix_take.
Qed.
End Import.

Lemma export_written (w0 : W) other (n : Node (Bridge W) BridgeEvent) :
  follows (B := export_side config) (bridge_init config false w0) other n ->
  Delivery w0 (sink (b_relay (side n))) other
    (reliability config = Stream /\ unharmed (B := export_side config) n)
    (bus_task (b_relay (side n)) = BDone Eof).
Proof using L TL.
  intros [Hr Hp Hs Ha]. apply bridge_relay_run in Hr as (res & Hr & Hsr & _).
  assert (received n (B := export_side config) = samples res) as E.
  { rewrite Hsr. unfold received, all_heard, bridge_relay_events. rewrite samples_concat, <- list_fmap_compose. done. }
  rewrite E in *. split.
  - eapply relay_selected; [done|]. etrans; [exact Hs|]. apply sublist_take.
  - intros [Hm Hu]. eapply relay_taken; [done|done|apply Hu|]. rewrite (Ha Hu). apply prefix_take.
Qed.
End Written.

(** ** The bridge *)
Section Bridge.
Context {M : Mpsc bytes} {W1 W2 T : Type} {TW1 : TransportWriter W1} {TW2 : TransportWriter W2}.
Context (config : BridgeConfig) (tap : option (bytes -> T -> T)).
Context (service_name : str) (dns : option str) (client_id : str) (initial : option bytes).

Definition System : Type := Node (Import W1 T) ImportEvent * Node (Bridge W2) BridgeEvent.
Definition SystemEvent : Type := BusEvent ImportEvent + BusEvent BridgeEvent.

Definition system_step : System -> SystemEvent -> option System :=
  bus_step (B1 := import_side config tap service_name dns client_id initial) (B2 := export_side config).

Definition system_init (w1 : W1) (w2 : W2) (t : T) : System :=
  (node_init (import_init config w1 t), node_init (bridge_init config false w2)).

(** What the client sent, as the import's reader returned it, the head that was read
    while routing first; and what the backend sent. *)
Definition client_sent (s : System) : list bytes := option_list initial ++ reads (relay_events (trace (fst s))).
Definition backend_sent (s : System) : list bytes := reads (bridge_relay_events (trace (snd s))).

Definition import_unharmed (s : System) : Prop :=
  unharmed (B := import_side config tap service_name dns client_id initial) (fst s).
Definition export_unharmed (s : System) : Prop := unharmed (B := export_side config) (snd s).

Definition import_relay (s : System) : Relay W1 T := relay (side (fst s)).
Definition export_relay (s : System) : Relay W2 unit := b_relay (side (snd s)).
End Bridge.
Arguments System {M} W1 W2 T.

(** ** Properties *)
Section Properties.
Context {M : Mpsc bytes} {L : MpscLaws M} {W1 W2 T : Type}.
Context {TW1 : TransportWriter W1} {TL1 : TransportWriterLaws TW1}.
Context {TW2 : TransportWriter W2} {TL2 : TransportWriterLaws TW2}.
Context (config : BridgeConfig) (tap : option (bytes -> T -> T)).
Context (service_name : str) (dns : option str) (client_id : str) (initial : option bytes).
Context (w1 : W1) (w2 : W2) (t0 : T).
Implicit Types s : System W1 W2 T.

Abbreviation sstep := (system_step (TW1 := TW1) (TW2 := TW2) config tap service_name dns client_id initial).
Abbreviation sinit := (system_init (M := M) config w1 w2 t0).
Abbreviation istep := (import_step (TW := TW1) config tap service_name dns client_id initial).

Lemma tx_prefix es i :
  run istep (import_init config w1 t0) es = Some i ->
  tx_samples i `prefix_of` option_list initial ++ reads (relay_events es).
Proof using L TL1.
  intros Hi. destruct (run_phase _ _ _ _ _ _ _ _ _ _ Hi) as [Hp Hidle].
  destruct (initial_first _ _ _ _ _ _ Hp Hidle) as [H1 H2].
  apply import_relay_run, run_published_prefix in Hi. unfold tx_samples.
  destruct (published (relay i)) eqn:E.
  - rewrite app_nil_r. etrans; [exact H1|]. by apply prefix_app_r.
  - rewrite H2 by done. by apply prefix_app.
Qed.

(** An end-of-stream marker on the tx key is the client's own end of stream. *)
Lemma tx_marker es i :
  run istep (import_init config w1 t0) es = Some i -> initial <> Some [] -> [] ∈ tx_samples i ->
  exists chunks, reads (relay_events es) = chunks ++ [[]] /\ no_eof (option_list initial ++ chunks) /\
    tx_samples i = (option_list initial ++ chunks) ++ [[]].
Proof using L TL1 TL2.
  intros Hi Hini Hin. destruct (run_phase _ _ _ _ _ _ _ _ _ _ Hi) as [Hph Hidle].
  destruct (initial_first _ _ _ _ _ _ Hph Hidle) as [H1 H2]. apply import_relay_run in Hi.
  assert (no_eof (option_list initial)) as Hnei.
  { destruct initial as [[|c b]|]; simpl; by repeat constructor. }
  unfold tx_samples in Hin. apply elem_of_app in Hin as [Hin|Hin].
  - destruct H1 as [k E]. exfalso. apply (no_eof_elem (option_list initial)); [done|]. rewrite E. set_solver.
  - destruct (run_published_eof _ _ _ _ _ _ _ Hi Hin) as (chunks & E1 & E2 & Hnc). exists chunks.
    rewrite E2, E1. split_and!; [done|by apply Forall_app_2|].
    unfold tx_samples. rewrite H2, E1, app_assoc; [done|]. rewrite E1. by destruct chunks.
Qed.

Lemma rx_prefix es (b : Bridge W2) :
  run (bridge_step config) (bridge_init config false w2) es = Some b ->
  published (b_relay b) `prefix_of` reads (bridge_relay_events es).
Proof using L TL2.
  intros He. apply bridge_relay_run in He as (res & Hr & _ & <-). by eapply run_published_prefix.
Qed.

Lemma rx_marker es (b : Bridge W2) :
  run (bridge_step config) (bridge_init config false w2) es = Some b -> [] ∈ published (b_relay b) ->
  exists chunks, reads (bridge_relay_events es) = chunks ++ [[]] /\ no_eof chunks /\
    published (b_relay b) = chunks ++ [[]].
Proof using L TL2.
  intros He Hin. apply bridge_relay_run in He as (res & Hr & _ & <-).
  destruct (run_published_eof _ _ _ _ _ _ _ Hr Hin) as (chunks & E1 & E2 & Hnc). exists chunks. by rewrite E2, E1.
Qed.

Lemma prefix_sublist {A} (a b c : list A) : a `sublist_of` b -> b `prefix_of` c -> a `sublist_of` c.
Proof using Type. intros H [k ->]. by apply sublist_inserts_r. Qed.

Lemma run_written es s :
  run sstep sinit es = Some s ->
  run istep (import_init config w1 t0) (trace (fst s)) = Some (side (fst s)) /\
  run (bridge_step config) (bridge_init config false w2) (trace (snd s)) = Some (side (snd s)) /\
  Delivery w2 (sink (export_relay s)) (tx_samples (side (fst s)))
    (reliability config = Stream /\ export_unharmed config s) (bus_task (export_relay s) = BDone Eof) /\
  Delivery w1 (sink (import_relay s)) (published (export_relay s))
    (reliability config = Stream /\ import_unharmed config tap service_name dns client_id initial s)
    (bus_task (import_relay s) = BDone Eof).
Proof using L TL1 TL2.
  destruct s as [i x]. intros Hr. unfold system_step, system_init in Hr.
  eapply (bus_follows (L1 := import_side_laws config tap service_name dns client_id initial w1 t0)
    (L2 := export_side_laws config w2)) in Hr as [Hi Hx].
  split; [apply Hi|]. split; [apply Hx|]. split; [by eapply export_written|by eapply import_written].
Qed.

(** The upload, and the download, of a run in byte-exact mode: in part, and when its
    relay has ended on the marker. *)
Lemma upload_prefix es s :
  run sstep sinit es = Some s -> reliability config = Stream -> export_unharmed config s ->
  wire (sink (export_relay s)) `prefix_of` wire w2 ++ concat (client_sent initial s).
Proof using L TL1 TL2.
  intros (Hi%tx_prefix & _ & [_ Hup] & _)%run_written Hm Hok.
  destruct (Hup (conj Hm Hok)) as (taken & _ & -> & Hp & _). apply prefix_app, concat_prefix. by etrans.
Qed.

Lemma download_prefix es s :
  run sstep sinit es = Some s -> reliability config = Stream ->
  import_unharmed config tap service_name dns client_id initial s ->
  wire (sink (import_relay s)) `prefix_of` wire w1 ++ concat (backend_sent s).
Proof using L TL1 TL2.
  intros (_ & Hx%rx_prefix & _ & [_ Hdown])%run_written Hm Hok.
  destruct (Hdown (conj Hm Hok)) as (taken & _ & -> & Hp & _). apply prefix_app, concat_prefix. by etrans.
Qed.

Lemma upload_exact es s :
  run sstep sinit es = Some s -> reliability config = Stream -> initial <> Some [] ->
  export_unharmed config s -> bus_task (export_relay s) = BDone Eof ->
  exists chunks, client_sent initial s = option_list initial ++ chunks ++ [[]] /\ no_eof chunks /\
    wire (sink (export_relay s)) = wire w2 ++ concat (option_list initial ++ chunks) /\
    half_closed (sink (export_relay s)) = true.
Proof using L TL1 TL2.
  intros (Hi & _ & [_ Hup] & _)%run_written Hm Hini Hok Hb.
  destruct (Hup (conj Hm Hok)) as (taken & Hne & -> & _ & Hend). destruct (Hend Hb) as [Hh [rest Hp]].
  destruct (tx_marker _ _ Hi Hini) as (chunks & E1 & Hnc & E2); [destruct Hp as [k ->]; set_solver|].
  exists chunks. unfold client_sent. rewrite E1. apply Forall_app in Hnc as Hnc2. destruct Hnc2 as [_ Hnc2].
  assert (taken = option_list initial ++ chunks) as ->; [|done].
  apply (eof_position _ _ rest); [done|done|by rewrite <- E2].
Qed.

Lemma download_exact es s :
  run sstep sinit es = Some s -> reliability config = Stream ->
  import_unharmed config tap service_name dns client_id initial s -> bus_task (import_relay s) = BDone Eof ->
  exists chunks, backend_sent s = chunks ++ [[]] /\ no_eof chunks /\
    wire (sink (import_relay s)) = wire w1 ++ concat chunks /\ half_closed (sink (import_relay s)) = true.
Proof using L TL1 TL2.
  intros (_ & Hx & _ & [_ Hdown])%run_written Hm Hok Hb.
  destruct (Hdown (conj Hm Hok)) as (taken & Hne & -> & _ & Hend). destruct (Hend Hb) as [Hh [rest Hp]].
  destruct (rx_marker _ _ Hx) as (chunks & E1 & Hnc & E2); [destruct Hp as [k Hk]; unfold export_relay in Hk; rewrite Hk; set_solver|].
  exists chunks. unfold backend_sent. rewrite E1. assert (taken = chunks) as ->; [|done].
  apply (eof_position _ _ rest); [done|done|by rewrite <- E2].
Qed.

(** C2: the bridge is a pair of byte pipes, under every interleaving of the two
    sides, the bus and the scheduler, over a bus that keeps each side's order and may
    lose samples.  In either mode, even on a reset, what an end was written is a
    selection of the chunks the other end sent, in order, cut short at most in the
    last of them: nothing is duplicated, reordered or invented on the way.  In
    byte-exact mode, as long as a side is not reset and no loss went unreported, it is
    a prefix of all the bytes the other end sent, the buffered head first: nothing is
    missing either. *)
Theorem byte_pipe_prefix es s :
  run sstep sinit es = Some s ->
  (exists taken, taken `sublist_of` client_sent initial s /\
     wire (sink (export_relay s)) `prefix_of` wire w2 ++ concat taken) /\
  (exists taken, taken `sublist_of` backend_sent s /\
     wire (sink (import_relay s)) `prefix_of` wire w1 ++ concat taken) /\
  (reliability config = Stream ->
   (export_unharmed config s ->
    wire (sink (export_relay s)) `prefix_of` wire w2 ++ concat (client_sent initial s)) /\
   (import_unharmed config tap service_name dns client_id initial s ->
    wire (sink (import_relay s)) `prefix_of` wire w1 ++ concat (backend_sent s))).
Proof using L TL1 TL2.
  intros Hr. pose proof (run_written _ _ Hr) as (Hi%tx_prefix & Hx%rx_prefix & [[up [Hu Hwu]] _] & [[down [Hd Hwd]] _]).
  split_and!; [exists up|exists down|intros Hm; split].
  - split; [|done]. by eapply prefix_sublist.
  - split; [|done]. by eapply prefix_sublist.
  - by eapply upload_prefix.
  - by eapply download_prefix.
Qed.

(** C1: a pipe that closes has delivered everything.  In byte-exact mode, under the
    same interleavings, when the backend side's upload direction has ended on the
    end-of-stream marker, unharmed, the backend was written exactly what the client
    sent, to the last byte, the client had ended its stream cleanly, and the backend
    was half-closed after it; and likewise for the download direction. *)
Theorem byte_pipe_exact es s :
  reliability config = Stream -> initial <> Some [] -> run sstep sinit es = Some s ->
  (export_unharmed config s -> bus_task (export_relay s) = BDone Eof ->
   exists chunks, client_sent initial s = option_list initial ++ chunks ++ [[]] /\ no_eof chunks /\
     wire (sink (export_relay s)) = wire w2 ++ concat (option_list initial ++ chunks) /\
     half_closed (sink (export_relay s)) = true) /\
  (import_unharmed config tap service_name dns client_id initial s -> bus_task (import_relay s) = BDone Eof ->
   exists chunks, backend_sent s = chunks ++ [[]] /\ no_eof chunks /\
     wire (sink (import_relay s)) = wire w1 ++ concat chunks /\
     half_closed (sink (import_relay s)) = true).
Proof using L TL1 TL2.
  intros Hm Hini Hr. split; [by eapply upload_exact|by eapply download_exact].
Qed.
End Properties.

(** ** A concrete run *)

#[local] Notation example_step :=
  (system_step (M := list_mpsc bytes) (W1 := TcpWriter) (W2 := TcpWriter) BridgeConfig_default None (lit "web") None (lit "c1")
    (Some (lit "GET ")))
  (only parsing).

Definition example_system (es : list SystemEvent) : option (System (M := list_mpsc bytes) TcpWriter TcpWriter unit) :=
  run example_step (system_init BridgeConfig_default fresh_tcp fresh_backend tt) es.

Definition by_import (e : ImportEvent) : SystemEvent := inl (Own e).
Definition by_export (e : BridgeEvent) : SystemEvent := inr (Own e).
Definition i_relay (e : RelayEvent) : SystemEvent := by_import (InRelay e).
Definition x_relay (e : RelayEvent) : SystemEvent := by_export (BridgeRelay e).

Definition request_reply : list SystemEvent :=
  (by_import <$> setup_done ++ [InitialPut true; ListenerRegistered true]) ++
  (by_export <$> declared_stream) ++
  [i_relay (Read (Ok (lit "/"))); inr Deliver; i_relay (PutDone true);
   x_relay Take; inr Deliver; x_relay (WriteDone Written);
   i_relay (Read (Ok [])); x_relay Take; i_relay (PutDone true);
   x_relay (WriteDone Written); inr Deliver; x_relay Take;
   x_relay (EofDone true); x_relay (Read (Ok (lit "200")));
   x_relay (PutDone true); inl Deliver; i_relay Take; i_relay (WriteDone Written)].

Lemma byte_pipe_prefix_witness :
  exists s, example_system request_reply = Some s /\
    wire (sink (import_relay s)) = lit "200" /\
    wire (sink (import_relay s)) `prefix_of` concat (backend_sent s).
Proof.
  eexists. split; [vm_compute; reflexivity|]. split; [reflexivity|].
  match goal with |- context [backend_sent ?s] =>
    apply (byte_pipe_prefix (L := list_mpsc_laws bytes) (TL1 := tcp_writer_laws) (TL2 := tcp_writer_laws)
      BridgeConfig_default None (lit "web") None (lit "c1") (Some (lit "GET ")) fresh_tcp fresh_backend tt
      request_reply s) end.
  - vm_compute. reflexivity.
  - reflexivity.
  - split; reflexivity.
Defined.

Lemma byte_pipe_exact_witness :
  exists s, example_system request_reply = Some s /\
    exists chunks, client_sent (Some (lit "GET ")) s = [lit "GET "] ++ chunks ++ [[]] /\
      wire (sink (export_relay s)) = concat ([lit "GET "] ++ chunks).
Proof.
  eexists. split; [vm_compute; reflexivity|].
  match goal with |- context [client_sent _ ?s] =>
    destruct (byte_pipe_exact (L := list_mpsc_laws bytes) (TL1 := tcp_writer_laws) (TL2 := tcp_writer_laws)
      BridgeConfig_default None (lit "web") None (lit "c1") (Some (lit "GET ")) fresh_tcp fresh_backend tt
      request_reply s) as [H _]; [reflexivity|done|vm_compute; reflexivity|] end.
  destruct H as (chunks & H1 & _ & H2 & _); [split; reflexivity|reflexivity|].
  exists chunks. split; [exact H1|exact H2].
Defined.
