(* ===== verification/Heads.v ===== *)
(** * Heads: reading just enough of a connection to route it ([src/import/connection.rs])

    The protocol parsers are flowscope's: the class [Parser] holds the incremental
    interface the readers drive and [ParserLaws] what they rely on (a push accepts a
    prefix, events run out); [Flowscope] holds the rest.  The readers relay, they
    never retain: whatever was read is in the buffer they return. *)

From S2P Require Import Prelude Text Config Dns.

(** ** flowscope's interface *)

Inductive FlowSide : Type := Initiator | Responder.

#[export] Instance FlowSide_eq_dec : EqDecision FlowSide.
Proof. solve_decision. Defined.

(** [pushed]: the bytes a parser has accepted from a side; [events]: a bound on the
    events it can still give without another push. *)
Class Parser (P Ev : Type) : Type := {
  push : FlowSide -> P -> bytes -> nat * P;
  next_event : P -> option (Ev * P);
  pushed : FlowSide -> P -> bytes;
  events : P -> nat;
}.

Class ParserLaws {P Ev} (Pa : Parser P Ev) : Prop := {
  push_prefix sd p b : fst (push sd p b) <= length b /\
    pushed sd (snd (push sd p b)) = pushed sd p ++ take (fst (push sd p b)) b;
  event_pushed sd p ev p' : next_event p = Some (ev, p') -> pushed sd p' = pushed sd p;
  event_measure p ev p' : next_event p = Some (ev, p') -> events p' < events p;
}.

(** ** Reading a head *)

Inductive ReadOutcome : Type :=
| ReadChunk (chunk : bytes)      (** at most 4096 bytes; none is the end of stream *)
| ReadFailed (reason : str)
| DeadlinePassed.

Inductive HeadError : Type :=
| ReadError (reason : str)
| ClosedEarly
| HeadTooLarge
| Unroutable (e : DnsError)
| UnroutableTarget (reason : str)
| NoAuthority
| MalformedHttp (reason : str)
| MalformedHttp2 (reason : str)
| ProtocolSwitch
| HeadTimeout (consumed : nat).

Inductive ReadHeadOutcome (T : Type) : Type :=
| Parsed (value : T) (buffer : bytes)
| Timeout (buffer : bytes).
Arguments Parsed {T} value buffer.
Arguments Timeout {T} buffer.

Section ReadUntil.
Context {St T : Type} (step : St -> bytes -> result HeadError (option T * St)) (max_header_size : nat).

(** [None] while the socket has given nothing more and the deadline has not passed. *)
Fixpoint read_until (st : St) (buffer : bytes) (reads : list ReadOutcome)
    : option (result HeadError (ReadHeadOutcome T)) :=
  match reads with
  | [] => None
  | DeadlinePassed :: _ => Some (Ok (Timeout buffer))
  | ReadFailed reason :: _ => Some (Err (ReadError reason))
  | ReadChunk [] :: _ => Some (Err ClosedEarly)
  | ReadChunk chunk :: reads' =>
      let buffer := buffer ++ chunk in
      match step st chunk with
      | Err e => Some (Err e)
      | Ok (Some value, _) => Some (Ok (Parsed value buffer))
      | Ok (None, st) =>
          if max_header_size <=? length buffer then Some (Err HeadTooLarge)
          else read_until st buffer reads'
      end
  end.

Fixpoint chunks (reads : list ReadOutcome) : list bytes :=
  match reads with
  | ReadChunk c :: reads' => c :: chunks reads'
  | _ => []
  end.

(** Whatever the step does, the buffer is what was read, and it is bounded. *)
Lemma read_until_verbatim st buffer reads out k :
  Forall (fun c => length c <= k) (chunks reads) -> length buffer < max_header_size ->
  read_until st buffer reads = Some (Ok out) ->
  match out with
  | Parsed value b => exists n, n < length (chunks reads) /\ b = buffer ++ concat (take (S n) (chunks reads)) /\
      b <> [] /\ length b < max_header_size + k
  | Timeout b => b = buffer ++ concat (chunks reads) /\ length b < max_header_size
  end.
Proof using Type.
  revert st buffer. induction reads as [|r reads IH]; intros st buffer Hf Hb; simpl; [done|].
  destruct r as [chunk|reason|]; [|done|intros [= <-]; simpl; rewrite app_nil_r; done].
  destruct chunk as [|c chunk]; [done|]. simpl chunks in *. inversion Hf as [|x l Hc Hf']; subst.
  destruct (step st (c :: chunk)) as [[[value|] st']|e]; [| |done].
  - intros [= <-]. exists 0. rewrite length_app. simpl. rewrite app_nil_r.
    simpl in Hc.
    split_and!; [lia|done|by destruct buffer|lia].
  - destruct (max_header_size <=? length (buffer ++ c :: chunk)) eqn:E; [done|].
    apply Nat.leb_gt in E. intros H. specialize (IH st' _ Hf' E H). destruct out as [value b|b].
    + destruct IH as (n & Hn & -> & Hne & Hl). exists (S n). rewrite <- app_assoc in *.
      split_and!; [simpl; lia|done| |done]. by destruct buffer.
    + destruct IH as [-> Hl]. rewrite <- app_assoc in *. split; done.
Qed.

(** The loop ends: by the size cap at the latest, or when the socket or the clock do. *)
Definition ends_reading (r : ReadOutcome) : Prop := match r with ReadChunk (_ :: _) => False | _ => True end.

Lemma read_until_returns st buffer reads :
  max_header_size - length buffer < length reads \/ Exists ends_reading reads ->
  exists out, read_until st buffer reads = Some out.
Proof using Type.
  revert st buffer. induction reads as [|r reads IH]; intros st buffer Hl; simpl in *.
  { destruct Hl as [|Hl]; [lia|by inversion Hl]. }
  destruct r as [[|c chunk]|reason|]; eauto.
  destruct (step st (c :: chunk)) as [[[value|] st']|e]; eauto.
  destruct (max_header_size <=? length (buffer ++ c :: chunk)) eqn:E; eauto.
  apply Nat.leb_gt in E. apply IH. rewrite length_app in *. simpl in *.
  destruct Hl as [Hl|Hl]; [left; lia|right]. by inversion Hl.
Qed.

(** Where the loop stopped: the read that gave the value is the first at which the step
    gave one, over the state that the chunks before it led to. *)
Lemma read_until_parsed_from (I : list bytes -> St -> Prop) (Q : list bytes -> T -> Prop) cs st reads value b :
  I cs st ->
  (forall cs st c st', I cs st -> step st c = Ok (None, st') -> I (cs ++ [c]) st') ->
  (forall cs st c v st', I cs st -> step st c = Ok (Some v, st') -> Q (cs ++ [c]) v) ->
  read_until st (concat cs) reads = Some (Ok (Parsed value b)) ->
  exists n, Q (cs ++ take (S n) (chunks reads)) value /\
    read_until st (concat cs) (take n reads) = None /\
    read_until st (concat cs) (take (S n) reads) = Some (Ok (Parsed value b)) /\
    n < length (chunks reads) /\ b = concat (cs ++ take (S n) (chunks reads)).
Proof using Type.
  intros Hi Hnone Hsome. revert st cs Hi. induction reads as [|r reads IH]; intros st cs Hi; simpl; [done|].
  destruct r as [[|c chunk]|reason|]; try done. rewrite <- concat_snoc.
  destruct (step st (c :: chunk)) as [[[v|] st']|e] eqn:E; [|destruct (_ <=? _) eqn:El; [done|]|done].
  - intros [= <- <-]. exists 0. simpl. rewrite take_0. split_and!; [by eapply Hsome|done|done|lia|done].
  - intros (n & Hq & Hbefore & Hat & Hn & Hb)%IH; [|by eapply Hnone]. exists (S n). simpl.
    rewrite E, <- concat_snoc, El. rewrite <- app_assoc in Hq, Hb. split_and!; [done..|lia|done].
Qed.

Lemma read_until_parsed (I : list bytes -> St -> Prop) (Q : list bytes -> T -> Prop) st reads value b :
  I [] st ->
  (forall cs st c st', I cs st -> step st c = Ok (None, st') -> I (cs ++ [c]) st') ->
  (forall cs st c v st', I cs st -> step st c = Ok (Some v, st') -> Q (cs ++ [c]) v) ->
  read_until st [] reads = Some (Ok (Parsed value b)) ->
  exists n, Q (take (S n) (chunks reads)) value /\ read_until st [] (take n reads) = None /\
    read_until st [] (take (S n) reads) = Some (Ok (Parsed value b)) /\
    n < length (chunks reads) /\ b = concat (take (S n) (chunks reads)).
Proof using Type. intros Hi Hn Hs. by apply (read_until_parsed_from I Q []). Qed.
End ReadUntil.

(** ** Driving a parser *)

Section Drive.
Context {P Ev : Type} {Pa : Parser P Ev}.

(** [concat_pending]: the refused tail goes before the new bytes. *)
Definition concat_pending (pending chunk : bytes) : bytes :=
  if decide (pending = []) then chunk else pending ++ chunk.

(** [while !pending.is_empty()]: each turn but the last consumes a byte. *)
Fixpoint feed (side : FlowSide) (fuel : nat) (parser : P) (pending : bytes) : P * bytes :=
  match fuel with
  | 0 => (parser, pending)
  | S fuel' =>
      if decide (pending = []) then (parser, pending)
      else
        let (accepted, parser) := push side parser pending in
        if accepted =? 0 then (parser, pending) else feed side fuel' parser (drop accepted pending)
  end.

Definition feed_all (side : FlowSide) (parser : P) (pending : bytes) : P * bytes :=
  feed side (length pending) parser pending.

(** [while let Some(ev) = parser.next_event()], until one is picked. *)
Fixpoint scan_events {A} (pick : Ev -> option A) (fuel : nat) (parser : P) : option A * P :=
  match fuel with
  | 0 => (None, parser)
  | S fuel' =>
      match next_event parser with
      | None => (None, parser)
      | Some (ev, parser) =>
          match pick ev with
          | Some a => (Some a, parser)
          | None => scan_events pick fuel' parser
          end
      end
  end.

Definition scan_all {A} (pick : Ev -> option A) (parser : P) : option A * P :=
  scan_events pick (S (events parser)) parser.

Context {PL : ParserLaws Pa}.

Lemma concat_pending_app pending chunk : concat_pending pending chunk = pending ++ chunk.
Proof. unfold concat_pending. by case_decide; subst. Qed.

(** The parser sees a contiguous stream: nothing refused is lost. *)
Lemma feed_contiguous side fuel parser pending parser' pending' :
  feed side fuel parser pending = (parser', pending') ->
  pushed side parser' ++ pending' = pushed side parser ++ pending.
Proof using PL.
  revert parser pending. induction fuel as [|fuel IH]; intros parser pending; simpl.
  { by intros [= <- <-]. }
  case_decide; [by intros [= <- <-]|].
  pose proof (push_prefix side parser pending) as [Hl Hp]. destruct (push side parser pending) as [n q]. simpl in *.
  destruct (Nat.eqb_spec n 0) as [->|Hn].
  - intros [= <- <-]. rewrite Hp, take_0, app_nil_r. done.
  - intros E. rewrite (IH _ _ E), Hp, <- app_assoc. by rewrite take_drop.
Qed.

(** The fuel is enough: the loop stops because nothing is left or nothing more is
    accepted. *)
Lemma feed_done side fuel parser pending parser' pending' :
  length pending <= fuel -> feed side fuel parser pending = (parser', pending') ->
  pending' = [] \/ exists q, fst (push side q pending') = 0 /\ snd (push side q pending') = parser'.
Proof using PL.
  revert parser pending. induction fuel as [|fuel IH]; intros parser pending Hle; simpl.
  { intros [= <- <-]. left. by destruct pending; [|simpl in Hle; lia]. }
  case_decide; [intros [= <- <-]; by left|].
  pose proof (push_prefix side parser pending) as [Hl _]. destruct (push side parser pending) as [n q] eqn:E. simpl in *.
  destruct (Nat.eqb_spec n 0) as [->|Hn].
  - intros [= <- <-]. right. exists parser. by rewrite E.
  - apply IH. rewrite length_drop. destruct pending; [done|]. simpl in *. lia.
Qed.

(** Scanning leaves the stream alone and, unless it picks, exhausts the events. *)
Lemma scan_events_spec {A} (pick : Ev -> option A) fuel parser a parser' :
  events parser < fuel -> scan_events pick fuel parser = (a, parser') ->
  (forall sd, pushed sd parser' = pushed sd parser) /\
  match a with
  | Some x => exists p ev, next_event p = Some (ev, parser') /\ pick ev = Some x
  | None => next_event parser' = None
  end.
Proof using PL.
  revert parser. induction fuel as [|fuel IH]; intros parser Hlt; simpl; [lia|].
  destruct (next_event parser) as [[ev q]|] eqn:E; [|by intros [= <- <-]].
  pose proof (fun sd => event_pushed sd _ _ _ E) as Hp. pose proof (event_measure _ _ _ E) as Hm.
  destruct (pick ev) as [x|] eqn:Ep.
  - intros [= <- <-]. split; [done|]. by exists parser, ev.
  - intros Hs. apply IH in Hs as [Hq Hs]; [|lia]. split; [|done]. intros sd. by rewrite Hq.
Qed.

(** A parser fed from its fresh state, and the events it gave so far, however the bytes
    were cut. *)
Inductive drives (p0 : P) : list Ev -> P -> Prop :=
| drives_fresh : drives p0 [] p0
| drives_push evs p b : drives p0 evs p -> drives p0 evs (snd (push Initiator p b))
| drives_event evs p ev p' : drives p0 evs p -> next_event p = Some (ev, p') -> drives p0 (evs ++ [ev]) p'.

Definition passed {A} (pick : Ev -> option A) (evs : list Ev) : Prop := Forall (fun ev => pick ev = None) evs.

(** [x] is what the first event that [pick] takes holds, of those that a fresh parser
    gives over a part of [b]. *)
Definition first_event {A} (pick : Ev -> option A) (p0 : P) (b : bytes) (x : A) : Prop :=
  exists evs ev p rest, drives p0 (evs ++ [ev]) p /\ passed pick evs /\ pick ev = Some x /\ pushed Initiator p ++ rest = b.

Lemma feed_drives p0 evs fuel p pending :
  drives p0 evs p -> drives p0 evs (fst (feed Initiator fuel p pending)).
Proof using Type.
  revert p pending. induction fuel as [|fuel IH]; intros p pending Hd; simpl; [done|]. case_decide; [done|].
  pose proof (drives_push p0 evs p pending Hd) as Hd'. destruct (push Initiator p pending) as [n q].
  destruct (n =? 0); [done|]. by apply IH.
Qed.

Lemma scan_drives {A} (pick : Ev -> option A) p0 evs fuel p a p' :
  drives p0 evs p -> passed pick evs -> scan_events pick fuel p = (a, p') ->
  match a with
  | Some x => exists evs ev, drives p0 (evs ++ [ev]) p' /\ passed pick evs /\ pick ev = Some x
  | None => exists evs, drives p0 evs p' /\ passed pick evs
  end.
Proof using Type.
  revert evs p. induction fuel as [|fuel IH]; intros evs p Hd Hn; simpl.
  { intros [= <- <-]. by exists evs. }
  destruct (next_event p) as [[ev q]|] eqn:E; [|intros [= <- <-]; by exists evs].
  pose proof (drives_event p0 evs p ev q Hd E) as Hd'. destruct (pick ev) as [x|] eqn:Ep.
  - intros [= <- <-]. by exists evs, ev.
  - apply (IH (evs ++ [ev])); [done|]. apply Forall_app. split; [done|]. by constructor.
Qed.

(** The incremental step both head readers share: [pick] routes an event, [stuck]
    is the parser's own refusal. *)
Section HeadStep.
Context (pick : Ev -> option (result HeadError str)) (stuck : P -> option HeadError).

Definition head_step (st : P * bytes) (chunk : bytes)
    : result HeadError (option str * (P * bytes)) :=
  let (parser, pending) := st in
  let (parser, pending) := feed_all Initiator parser (concat_pending pending chunk) in
  match scan_all pick parser with
  | (Some (Ok key), parser) => Ok (Some key, (parser, pending))
  | (Some (Err e), _) => Err e
  | (None, parser) =>
      match stuck parser with
      | Some e => Err e
      | None => Ok (None, (parser, pending))
      end
  end.

Lemma head_step_Ok st chunk o st' :
  head_step st chunk = Ok (o, st') ->
  pushed Initiator (fst st') ++ snd st' = pushed Initiator (fst st) ++ snd st ++ chunk /\
  match o with
  | Some key => exists p ev, next_event p = Some (ev, fst st') /\ pick ev = Some (Ok key)
  | None => next_event (fst st') = None /\ stuck (fst st') = None
  end.
Proof using PL.
  unfold head_step. destruct st as [parser pending].
  destruct (feed_all Initiator parser (concat_pending pending chunk)) as [q rest] eqn:Ef.
  unfold feed_all in Ef. apply feed_contiguous in Ef. rewrite concat_pending_app in Ef.
  destruct (scan_all pick q) as [[[key|e]|] q'] eqn:Es; [|done|];
    (apply scan_events_spec in Es as [Hp Hn]; [|lia]).
  - intros [= <- <-]. simpl. rewrite Hp. by split.
  - destruct (stuck q') eqn:Et; [done|]. intros [= <- <-]. simpl. by rewrite Hp.
Qed.

(** A reader driven by [head_step]: its first read that holds a head, and the key of
    that head. *)
Lemma read_head_parsed max parser reads key b :
  (forall sd, pushed sd parser = []) ->
  read_until head_step max (parser, []) [] reads = Some (Ok (Parsed key b)) ->
  exists n, first_event pick parser (concat (take (S n) (chunks reads))) (Ok key) /\
    read_until head_step max (parser, []) [] (take n reads) = None /\
    read_until head_step max (parser, []) [] (take (S n) reads) = Some (Ok (Parsed key b)) /\
    n < length (chunks reads) /\ b = concat (take (S n) (chunks reads)).
Proof using PL.
  intros H0. set (I := fun cs (st : P * bytes) => pushed Initiator (fst st) ++ snd st = concat cs /\
    exists evs, drives parser evs (fst st) /\ passed pick evs).
  assert (forall cs st c o st', I cs st -> head_step st c = Ok (o, st') ->
    match o with
    | Some key => first_event pick parser (concat (cs ++ [c])) (Ok key)
    | None => I (cs ++ [c]) st'
    end) as Hstep.
  { intros cs st c o st' [Hb (evs & Hd & Hn)] Hs. pose proof (head_step_Ok st c o st' Hs) as [Hp _].
    unfold head_step in Hs. destruct st as [p pending]. simpl in *.
    assert (pushed Initiator (fst st') ++ snd st' = concat (cs ++ [c])) as Hb'
      by (by rewrite concat_snoc, Hp, app_assoc, Hb).
    pose proof (feed_drives parser evs (length (concat_pending pending c)) p (concat_pending pending c) Hd) as Hf.
    fold (feed_all Initiator p (concat_pending pending c)) in Hf. destruct (feed_all _ _ _) as [q rest]. simpl in Hf.
    destruct (scan_all pick q) as [[[k|e]|] q'] eqn:Es; [|done|];
      (eapply scan_drives in Es; [|exact Hf|exact Hn]).
    - injection Hs as <- <-. destruct Es as (evs' & ev & H1 & H2 & H3). by exists evs', ev, q', rest.
    - destruct (stuck q') eqn:Et; [done|]. injection Hs as <- <-. by split. }
  apply (read_until_parsed head_step max I (fun cs key => first_event pick parser (concat cs) (Ok key))).
  - split; [by rewrite H0|]. exists []. split; [apply drives_fresh|constructor].
  - intros cs st c st' Hi Hs. by apply (Hstep _ _ _ _ _ Hi Hs).
  - intros cs st c v st' Hi Hs. by apply (Hstep _ _ _ _ _ Hi Hs).
Qed.
End HeadStep.
End Drive.

(** ** The rest of flowscope *)

(** The constructors the source matches on; every other class is opaque to it. *)
Inductive WireProtocol : Type := Tls | Http1 | Http2Preface | Raw | OtherProtocol.

Class Flowscope : Type := {
  classify_first_bytes : bytes -> option WireProtocol;  (** [Decided], or not *)
  HttpProxyParser : Type;
  HttpEvent : Type;
  RequestHead : Type;
  http_ops : Parser HttpProxyParser HttpEvent;
  http_with_config : N -> N -> HttpProxyParser;         (** head cap, buffer cap *)
  request_head : HttpEvent -> option RequestHead;
  http_authority : RequestHead -> result str str;       (** the host, without the port *)
  is_websocket_upgrade : RequestHead -> bool;
  poison : HttpProxyParser -> option str;
  is_tunnelled : HttpProxyParser -> bool;
  Http2Parser : Type;
  Http2Event : Type;
  StreamHead : Type;
  GrpcStatus : Type;
  h2_ops : Parser Http2Parser Http2Event;
  h2_with_config : bool -> Http2Parser;                 (** [require_preface] *)
  stream_head : Http2Event -> option StreamHead;
  head_dir : StreamHead -> FlowSide;
  h2_authority : StreamHead -> option str;
  h2_error : Http2Parser -> option str;                 (** [is_failed], and why *)
  end_stream : StreamHead -> bool;
  head_stream_id : StreamHead -> N;
  grpc_status_of : StreamHead -> option GrpcStatus;
  trailers_status : Http2Event -> option (N * option GrpcStatus);
  grpc_code : GrpcStatus -> N;
  TlsParser : Type;
  ClientHello : Type;
  tls_default : TlsParser;
  feed_initiator : TlsParser -> bytes -> list (option ClientHello) * TlsParser;
  sni : ClientHello -> option str;
}.
#[export] Existing Instance http_ops.
#[export] Existing Instance h2_ops.

Class FlowscopeLaws (F : Flowscope) : Prop := {
  http_laws : ParserLaws http_ops;
  h2_laws : ParserLaws h2_ops;
  http_fresh a b sd : pushed sd (http_with_config a b) = [];
  h2_fresh b sd : pushed sd (h2_with_config b) = [];
  classify_stable b c p : classify_first_bytes b = Some p -> classify_first_bytes (b ++ c) = Some p;
}.
#[export] Existing Instance http_laws.
#[export] Existing Instance h2_laws.

Section Readers.
Context {F : Flowscope} {U : UnicodeCase} (config : BridgeConfig).

Definition max_header : nat := N.to_nat (max_header_size config).

(** ** HTTP/1.1 *)

Definition http_head_parser : HttpProxyParser :=
  http_with_config (max_header_size config) (N.max (max_header_size config) (256 * 1024)).

Definition routing_key_from_head (head : RequestHead) : result HeadError str :=
  host ← map_err UnroutableTarget (http_authority head);
  map_err Unroutable (routing_key host).

Definition http_pick (ev : HttpEvent) : option (result HeadError str) :=
  routing_key_from_head <$> request_head ev.

Definition http_stuck (parser : HttpProxyParser) : option HeadError :=
  match poison parser with
  | Some reason => Some (MalformedHttp reason)
  | None => if is_tunnelled parser then Some ProtocolSwitch else None
  end.

Definition read_http_head (reads : list ReadOutcome) : option (result HeadError (str * bytes)) :=
  outcome ← read_until (head_step http_pick http_stuck) max_header (http_head_parser, []) [] reads;
  Some match outcome with
       | Ok (Parsed dns buffer) => Ok (dns, buffer)
       | Ok (Timeout partial) => Err (HeadTimeout (length partial))
       | Err e => Err e
       end.

Inductive PeekOutcome : Type :=
| Head (head : RequestHead)
| NeedMore
| Refused.

Definition peek_http_head_outcome (peek : bytes) : PeekOutcome :=
  let (parser, _) := feed_all Initiator http_head_parser peek in
  match scan_all request_head parser with
  | (Some head, _) => Head head
  | (None, parser) => match http_stuck parser with Some _ => Refused | None => NeedMore end
  end.

(** ** HTTP/2 *)

Definition h2_routing_key (head : StreamHead) : result HeadError str :=
  authority ← ok_or (h2_authority head) NoAuthority;
  map_err Unroutable (routing_key authority).

Definition h2_pick (ev : Http2Event) : option (result HeadError str) :=
  head ← stream_head ev;
  if decide (head_dir head = Initiator) then Some (h2_routing_key head) else None.

Definition h2_stuck (parser : Http2Parser) : option HeadError := MalformedHttp2 <$> h2_error parser.

Definition read_h2_head (require_preface : bool) (reads : list ReadOutcome)
    : option (result HeadError (ReadHeadOutcome str)) :=
  read_until (head_step h2_pick h2_stuck) max_header (h2_with_config require_preface, []) [] reads.

(** ** TLS *)

Definition first_hello (msgs : list (option ClientHello)) : option ClientHello :=
  head (omap id msgs).

Definition tls_step (parser : TlsParser) (chunk : bytes)
    : result HeadError (option (option str) * TlsParser) :=
  let (msgs, parser) := feed_initiator parser chunk in
  match first_hello msgs with
  | Some ch =>
      match sni ch with
      | Some name => key ← map_err Unroutable (routing_key name); Ok (Some (Some key), parser)
      | None => Ok (Some None, parser)
      end
  | None => Ok (None, parser)
  end.

Definition read_tls_sni (reads : list ReadOutcome) : option (result HeadError (option str * bytes)) :=
  outcome ← read_until tls_step max_header tls_default [] reads;
  Some match outcome with
       | Ok (Parsed dns buffer) => Ok (dns, buffer)
       | Ok (Timeout partial) => Err (HeadTimeout (length partial))
       | Err e => Err e
       end.

(** ** gRPC completion statuses, off the response stream *)

Record GrpcStatusScanner : Type := { scan_parser : Http2Parser; seen : gset N }.

Definition GrpcStatusScanner_new : GrpcStatusScanner :=
  {| scan_parser := h2_with_config false; seen := ∅ |}.

Definition found_status (ev : Http2Event) : option (N * GrpcStatus) :=
  match trailers_status ev with
  | Some (stream_id, status) => pair stream_id <$> status
  | None =>
      head ← stream_head ev;
      if end_stream head then pair (head_stream_id head) <$> grpc_status_of head else None
  end.

(** The calls of [on_status], in order. *)
Fixpoint scan_statuses (fuel : nat) (sc : GrpcStatusScanner) : list (N * GrpcStatus) * GrpcStatusScanner :=
  match fuel with
  | 0 => ([], sc)
  | S fuel' =>
      match next_event (scan_parser sc) with
      | None => ([], sc)
      | Some (ev, parser) =>
          match found_status ev with
          | Some (stream_id, status) =>
              if decide (stream_id ∈ seen sc) then
                scan_statuses fuel' {| scan_parser := parser; seen := seen sc |}
              else
                let (l, sc) := scan_statuses fuel' {| scan_parser := parser; seen := {[stream_id]} ∪ seen sc |} in
                ((stream_id, status) :: l, sc)
          | None => scan_statuses fuel' {| scan_parser := parser; seen := seen sc |}
          end
      end
  end.

Definition grpc_feed (sc : GrpcStatusScanner) (chunk : bytes) : list (N * GrpcStatus) * GrpcStatusScanner :=
  let (parser, _) := feed_all Responder (scan_parser sc) chunk in
  scan_statuses (S (events parser)) {| scan_parser := parser; seen := seen sc |}.

Fixpoint grpc_feeds (sc : GrpcStatusScanner) (response : list bytes) : list (N * GrpcStatus) :=
  match response with
  | [] => []
  | chunk :: rest => let (l, sc) := grpc_feed sc chunk in l ++ grpc_feeds sc rest
  end.

Lemma scan_statuses_once fuel sc l sc' :
  scan_statuses fuel sc = (l, sc') ->
  NoDup (fst <$> l) /\ Forall (fun x => fst x ∉ seen sc) l /\
  seen sc' = list_to_set (fst <$> l) ∪ seen sc.
Proof.
  revert sc l sc'. induction fuel as [|fuel IH]; intros sc l sc'; simpl.
  { intros [= <- <-]. split_and!; [constructor|constructor|set_solver]. }
  destruct (next_event _) as [[ev parser]|]; [|intros [= <- <-]; split_and!; [constructor|constructor|set_solver]].
  destruct (found_status ev) as [[id st]|]; [|intros H; by apply IH in H].
  case_decide as Hin; [intros H; by apply IH in H|].
  destruct (scan_statuses fuel _) as [l0 sc0] eqn:E. intros [= <- <-]. apply IH in E as (Hnd & Hf & Hs).
  simpl in *. rewrite Hs. split_and!.
  - constructor; [|done]. intros ([id' st'] & -> & Hx)%list_elem_of_fmap.
    rewrite Forall_forall in Hf. specialize (Hf _ Hx). simpl in Hf. set_solver.
  - constructor; [done|]. eapply Forall_impl; [exact Hf|]. set_solver.
  - set_solver.
Qed.

Lemma grpc_feeds_fresh response sc :
  NoDup (fst <$> grpc_feeds sc response) /\ Forall (fun x => fst x ∉ seen sc) (grpc_feeds sc response).
Proof.
  revert sc. induction response as [|chunk rest IH]; intros sc; simpl; [split; constructor|].
  unfold grpc_feed. destruct (feed_all _ _ _) as [parser pending].
  destruct (scan_statuses _ _) as [l sc'] eqn:E. apply scan_statuses_once in E as (Hnd & Hf & Hs).
  destruct (IH sc') as [Hnd' Hf']. simpl in *. rewrite fmap_app. split.
  - apply NoDup_app. split_and!; [done| |done]. intros id Hi ([id' st] & -> & Hx)%list_elem_of_fmap.
    rewrite Forall_forall in Hf'. specialize (Hf' _ Hx). simpl in Hf'. apply Hf'. rewrite Hs. set_solver.
  - apply Forall_app. split; [done|]. eapply Forall_impl; [exact Hf'|]. intros x Hx. rewrite Hs in Hx. set_solver.
Qed.
End Readers.

(** ** What the readers hand on *)

Definition routable (key : str) : Prop := key <> [] /\ key_char_ok key.

Lemma routing_key_routable {U : UnicodeCase} h k : routing_key h = Ok k -> routable k.
Proof. intros (_ & ? & _ & ?)%routing_key_Ok. by split. Qed.

(** The socket gives at most 4096 bytes a read, and an empty read only at its end. *)
Definition socket_reads (reads : list ReadOutcome) : Prop :=
  Forall (fun c => length c <= 4096) (chunks reads).

Section HandedOn.
Context {F : Flowscope} {FL : FlowscopeLaws F} {U : UnicodeCase} (config : BridgeConfig).

(** The replay buffer after [S n] reads: none dropped, none changed. *)
Definition handed_after (n : nat) (reads : list ReadOutcome) (buffer : bytes) : Prop :=
  n < length (chunks reads) /\ buffer = concat (take (S n) (chunks reads)) /\
  buffer <> [] /\ length buffer < max_header config + 4096.

Definition handed_on (reads : list ReadOutcome) (buffer : bytes) : Prop := exists n, handed_after n reads buffer.

(** A reader that needs [S n] reads: it has no verdict before, and reads no further. *)
Definition stops_after {A} (reader : list ReadOutcome -> option A) (n : nat) (reads : list ReadOutcome) : Prop :=
  reader (take n reads) = None /\ reader (take (S n) reads) = reader reads.

(** What the first head in some bytes names. *)
Definition http_names (b : bytes) (key : str) : Prop :=
  exists head host, first_event request_head (http_head_parser config) b head /\
    http_authority head = Ok host /\ routing_key host = Ok key.

Definition initiator_head (ev : Http2Event) : option StreamHead :=
  head ← stream_head ev; if decide (head_dir head = Initiator) then Some head else None.

Definition h2_names (require_preface : bool) (b : bytes) (key : str) : Prop :=
  exists head host, first_event initiator_head (h2_with_config require_preface) b head /\
    h2_authority head = Some host /\ routing_key host = Ok key.

(** The messages a TLS parser gives over the chunks of a stream, and the server name of
    the first ClientHello among them. *)
Fixpoint tls_messages (p : TlsParser) (cs : list bytes) : list (option ClientHello) :=
  match cs with
  | [] => []
  | c :: cs => let (msgs, p) := feed_initiator p c in msgs ++ tls_messages p cs
  end.

Definition tls_names (cs : list bytes) (d : option str) : Prop :=
  exists ch, first_hello (tls_messages tls_default cs) = Some ch /\
    match sni ch with Some name => exists key, routing_key name = Ok key /\ d = Some key | None => d = None end.

Lemma http_names_routable b key : http_names b key -> routable key.
Proof using Type. intros (_ & host & _ & _ & ?). by eapply routing_key_routable. Qed.

Lemma h2_names_routable pre b key : h2_names pre b key -> routable key.
Proof using Type. intros (_ & host & _ & _ & ?). by eapply routing_key_routable. Qed.

Lemma tls_names_routable cs key : tls_names cs (Some key) -> routable key.
Proof using Type.
  intros (ch & _ & H). destruct (sni ch) as [name|]; [|done]. destruct H as (k & ? & [= ->]). by eapply routing_key_routable.
Qed.

(** What [pick] takes in two steps. *)
Lemma first_event_fmap {P Ev} {Pa : Parser P Ev} {A B} (pick : Ev -> option A) (f : A -> B) p0 b y :
  first_event (fun ev => f <$> pick ev) p0 b y -> exists x, first_event pick p0 b x /\ f x = y.
Proof using Type.
  intros (evs & ev & p & rest & Hd & Hn & Hp & Hb). destruct (pick ev) as [x|] eqn:E; [|done].
  injection Hp as <-. exists x. split; [|done]. exists evs, ev, p, rest. split_and!; [done| |done|done].
  eapply Forall_impl; [exact Hn|]. intros e He. simpl in He. by destruct (pick e).
Qed.

(** The size of a buffer that a reader hands on. *)
Lemma handed_size {St T} (step : St -> bytes -> result HeadError (option T * St)) st reads n value b :
  socket_reads reads -> 0 < max_header config ->
  read_until step (max_header config) st [] reads = Some (Ok (Parsed value b)) ->
  n < length (chunks reads) -> b = concat (take (S n) (chunks reads)) -> handed_after n reads b.
Proof using Type.
  intros Hr Hm H Hn Hb. destruct (read_until_verbatim step (max_header config) st [] reads _ 4096 Hr Hm H) as (_ & _ & _ & Hne & Hl).
  by split_and!.
Qed.

(** The three readers: what they hand on, after how many reads, and what it names. *)
Lemma read_http_head_spec reads key b :
  socket_reads reads -> 0 < max_header config -> read_http_head config reads = Some (Ok (key, b)) ->
  exists n, handed_after n reads b /\ stops_after (read_http_head config) n reads /\ http_names b key.
Proof using FL.
  intros Hr Hm H. unfold read_http_head, stops_after in *. apply bind_Some in H as ([[value b'|b']|e] & H & E); try done.
  injection E as -> ->. pose proof H as H'.
  apply (read_head_parsed (PL := http_laws)) in H' as (n & Hf & Hbefore & Hat & Hn & Hb); [|apply http_fresh].
  exists n. split_and!; [by eapply handed_size|by rewrite Hbefore|by rewrite Hat, H|].
  rewrite <- Hb in Hf. apply first_event_fmap in Hf as (head & Hf & Hk).
  unfold routing_key_from_head in Hk. inv_guards. exists head. eauto.
Qed.

Lemma h2_pick_head ev : h2_pick ev = h2_routing_key <$> initiator_head ev.
Proof using Type.
  unfold h2_pick, initiator_head. destruct (stream_head ev) as [head|]; [|done]. simpl. by case_decide.
Qed.

Lemma read_h2_head_spec pre reads key b :
  socket_reads reads -> 0 < max_header config -> read_h2_head config pre reads = Some (Ok (Parsed key b)) ->
  exists n, handed_after n reads b /\ stops_after (read_h2_head config pre) n reads /\ h2_names pre b key.
Proof using FL.
  intros Hr Hm H. unfold read_h2_head, stops_after in *. pose proof H as H'.
  apply (read_head_parsed (PL := h2_laws)) in H' as (n & Hf & Hbefore & Hat & Hn & Hb); [|apply h2_fresh].
  exists n. split_and!; [by eapply handed_size|done|by rewrite Hat, H|].
  rewrite <- Hb in Hf. destruct Hf as (evs & ev & p & rest & Hd & Hp & Hk & Hrest).
  assert (first_event (fun ev => h2_routing_key <$> initiator_head ev) (h2_with_config pre) b (Ok key)) as Hf.
  { exists evs, ev, p, rest. rewrite <- h2_pick_head. split_and!; [done| |done|done].
    eapply Forall_impl; [exact Hp|]. intros e He. simpl. by rewrite <- h2_pick_head. }
  apply first_event_fmap in Hf as (head & Hf & Hkey). unfold h2_routing_key in Hkey. inv_guards. exists head. eauto.
Qed.

Lemma tls_messages_app p cs c :
  tls_messages p (cs ++ [c]) = tls_messages p cs ++ fst (feed_initiator (foldl (fun p c => snd (feed_initiator p c)) p cs) c).
Proof using Type.
  revert p. induction cs as [|x cs IH]; intros p; simpl.
  - destruct (feed_initiator p c) as [msgs q]. by rewrite app_nil_r.
  - destruct (feed_initiator p x) as [msgs q]. by rewrite IH, app_assoc.
Qed.

Lemma first_hello_app a b :
  first_hello (a ++ b) = match first_hello a with Some ch => Some ch | None => first_hello b end.
Proof using Type. unfold first_hello. rewrite omap_app. by destruct (omap id a). Qed.

Lemma tls_step_names cs c o st' :
  first_hello (tls_messages tls_default cs) = None ->
  tls_step (foldl (fun p c => snd (feed_initiator p c)) tls_default cs) c = Ok (o, st') ->
  match o with
  | Some d => tls_names (cs ++ [c]) d
  | None => st' = foldl (fun p c => snd (feed_initiator p c)) tls_default (cs ++ [c]) /\
      first_hello (tls_messages tls_default (cs ++ [c])) = None
  end.
Proof using Type.
  intros Hn Hs. unfold tls_step in Hs. unfold tls_names. rewrite tls_messages_app, first_hello_app, Hn, foldl_app. simpl.
  destruct (feed_initiator _ c) as [msgs q]. simpl.
  destruct (first_hello msgs) as [ch|]; [|by injection Hs as <- <-].
  destruct (sni ch) as [name|] eqn:E.
  - inv_guards. simplify_eq/=. exists ch. rewrite E. split; [done|]. eauto.
  - injection Hs as <- <-. exists ch. by rewrite E.
Qed.

Lemma read_tls_sni_spec reads d b :
  socket_reads reads -> 0 < max_header config -> read_tls_sni config reads = Some (Ok (d, b)) ->
  exists n, handed_after n reads b /\ stops_after (read_tls_sni config) n reads /\ tls_names (take (S n) (chunks reads)) d.
Proof using Type.
  intros Hr Hm H. unfold read_tls_sni, stops_after in *. apply bind_Some in H as ([[value b'|b']|e] & H & E); try done.
  injection E as -> ->.
  destruct (read_until_parsed tls_step (max_header config)
    (fun cs st => st = foldl (fun p c => snd (feed_initiator p c)) tls_default cs /\ first_hello (tls_messages tls_default cs) = None)
    tls_names tls_default reads d b) as (n & Hk & Hbefore & Hat & Hn & Hb); [done| | |done|].
  - intros cs st c st' [-> Hf] Hs. by apply (tls_step_names cs c None st').
  - intros cs st c v st' [-> Hf] Hs. by apply (tls_step_names cs c (Some v) st').
  - exists n. split_and!; [by eapply handed_size|by rewrite Hbefore|by rewrite Hat, H|done].
Qed.
End HandedOn.

(** ** A line protocol, to evaluate the readers on

    A head is the first line; its text is the host. *)
Module LineProtocol.
Record parser : Type := { got_initiator : bytes; got_responder : bytes; emitted : bool }.

Definition fresh : parser := {| got_initiator := []; got_responder := []; emitted := false |}.

Definition got (sd : FlowSide) (p : parser) : bytes :=
  match sd with Initiator => got_initiator p | Responder => got_responder p end.

(** At most eight bytes a push: the readers must loop. *)
Definition line_push (sd : FlowSide) (p : parser) (b : bytes) : nat * parser :=
  let b := take 8 b in
  (length b,
   match sd with
   | Initiator => {| got_initiator := got_initiator p ++ b; got_responder := got_responder p; emitted := emitted p |}
   | Responder => {| got_initiator := got_initiator p; got_responder := got_responder p ++ b; emitted := emitted p |}
   end).

Definition line_next (p : parser) : option (str * parser) :=
  if emitted p then None
  else '(line, _) ← split_once (ascii_of_N 10) (got_initiator p);
       Some (line, {| got_initiator := got_initiator p; got_responder := got_responder p; emitted := true |}).

Definition line_parser : Parser parser str := {|
  push := line_push;
  next_event := line_next;
  pushed := got;
  events p := if emitted p then 0 else 1;
|}.

Lemma line_laws : ParserLaws line_parser.
Proof.
  constructor.
  - intros sd p b. simpl. split; [rewrite length_take; lia|].
    assert (take 8 b = take (length (take 8 b)) b) as <-; [|by destruct sd].
    rewrite length_take. destruct (decide (8 <= length b)); [by rewrite Nat.min_l by lia|].
    by rewrite Nat.min_r, !take_ge by lia.
  - intros sd p ev p'. simpl. unfold line_next. destruct (emitted p); [done|].
    destruct (split_once _ _) as [[l r]|]; [|done]. simpl. intros [= <- <-]. by destruct sd.
  - intros p ev p'. simpl. unfold line_next. destruct (emitted p); [done|].
    destruct (split_once _ _) as [[l r]|]; [|done]. simpl. intros [= <- <-]. simpl. lia.
Qed.

Definition starts (c : N) (b : bytes) : bool :=
  match b with x :: _ => N.eqb (code x) c | [] => false end.

Definition line_flowscope : Flowscope := {|
  classify_first_bytes b :=
    if starts 22 b then Some Tls else if starts 80 b then Some Http2Preface
    else if starts 71 b then Some Http1 else match b with [] => None | _ => Some Raw end;
  HttpProxyParser := parser; HttpEvent := str; RequestHead := str;
  http_ops := line_parser; http_with_config _ _ := fresh;
  request_head ev := Some ev; http_authority head := Ok head;
  is_websocket_upgrade head := contains_char "!" head;
  poison _ := None; is_tunnelled _ := false;
  Http2Parser := parser; Http2Event := str; StreamHead := str; GrpcStatus := N;
  h2_ops := line_parser; h2_with_config _ := fresh;
  stream_head ev := Some ev; head_dir _ := Initiator; h2_authority head := Some head;
  h2_error _ := None; end_stream _ := true; head_stream_id _ := 1%N;
  grpc_status_of _ := Some 0%N; trailers_status _ := None; grpc_code st := st;
  TlsParser := bytes; ClientHello := bytes; tls_default := [];
  feed_initiator p b := ([fst <$> split_once (ascii_of_N 10) (p ++ b)], p ++ b);
  sni ch := if bool_decide (ch = []) then None else Some ch;
|}.

Lemma line_flowscope_laws : FlowscopeLaws line_flowscope.
Proof.
  constructor; try apply line_laws; try (by intros; destruct sd).
  intros [|x b] c p; by simpl.
Qed.
End LineProtocol.

(** ** Properties *)
Section Properties.
Context {F : Flowscope} {FL : FlowscopeLaws F} {U : UnicodeCase} (config : BridgeConfig).

(** C14: a head reader that routes a connection takes exactly the reads it needs and hands
    on exactly their bytes, in order, under [max_header_size] plus one read: it has no
    verdict before its last read, and looks at none after it.  The key it returns is the
    routing key of the authority of the first request head that a fresh parser of the
    configured limits gives over those bytes, however they were cut into reads and
    however much of each the parser refused at first; for TLS, of the server name of the
    first ClientHello in those reads, and no key only if that one has no name.  An HTTP/2
    read that timed out hands on all that was read. *)
Theorem head_readers_faithful reads :
  socket_reads reads -> 0 < max_header config ->
  (forall dns buffer, read_http_head config reads = Some (Ok (dns, buffer)) ->
     exists n, handed_after config n reads buffer /\ stops_after (read_http_head config) n reads /\
       routable dns /\ http_names config buffer dns) /\
  (forall pre dns buffer, read_h2_head config pre reads = Some (Ok (Parsed dns buffer)) ->
     exists n, handed_after config n reads buffer /\ stops_after (read_h2_head config pre) n reads /\
       routable dns /\ h2_names pre buffer dns) /\
  (forall pre buffer, read_h2_head config pre reads = Some (Ok (Timeout buffer)) ->
     buffer = concat (chunks reads) /\ length buffer < max_header config) /\
  (forall dns buffer, read_tls_sni config reads = Some (Ok (dns, buffer)) ->
     exists n, handed_after config n reads buffer /\ stops_after (read_tls_sni config) n reads /\
       match dns with Some key => routable key | None => True end /\ tls_names (take (S n) (chunks reads)) dns).
Proof using FL.
  intros Hr Hm. split_and!.
  - intros dns buffer (n & ? & ? & H)%read_http_head_spec; [|done..]. exists n. split_and!; [done..|by eapply http_names_routable|done].
  - intros pre dns buffer (n & ? & ? & H)%read_h2_head_spec; [|done..]. exists n. split_and!; [done..|by eapply h2_names_routable|done].
  - intros pre buffer H. by pose proof (read_until_verbatim _ _ _ [] reads _ 4096 Hr Hm H).
  - intros dns buffer (n & ? & ? & H)%read_tls_sni_spec; [|done..]. exists n. split_and!; [done..| |done].
    destruct dns; [by eapply tls_names_routable|done].
Qed.

(** C39: every head read ends.  All three readers give a verdict before
    [max_header_size] + 1 reads, whatever the parsers make of the bytes, and at once when
    the stream ends, a read fails or the deadline passes: a client that dribbles cannot hold
    a task open past the size cap, nor one that closes or stalls. *)
Theorem head_readers_terminate reads :
  max_header config < length reads \/ Exists ends_reading reads ->
  is_Some (read_http_head config reads) /\ (forall pre, is_Some (read_h2_head config pre reads)) /\
  is_Some (read_tls_sni config reads).
Proof using Type.
  intros Hl.
  assert (forall St T (step : St -> bytes -> result HeadError (option T * St)) st,
            exists out, read_until step (max_header config) st [] reads = Some out) as H.
  { intros St T step st. apply read_until_returns. simpl. by rewrite Nat.sub_0_r. }
  unfold read_http_head, read_h2_head, read_tls_sni. split_and!.
  - destruct (H _ _ (head_step http_pick http_stuck) (http_head_parser config, [])) as [out ->]. by eexists.
  - intros pre. destruct (H _ _ (head_step h2_pick h2_stuck) (h2_with_config pre, [])) as [out ->]. by eexists.
  - destruct (H _ _ tls_step tls_default) as [out ->]. by eexists.
Qed.

(** Over a whole response, however cut into chunks, each HTTP/2 stream's gRPC
    status is reported at most once. *)
Theorem grpc_status_once (response : list bytes) :
  NoDup (fst <$> grpc_feeds GrpcStatusScanner_new response).
Proof using Type. apply grpc_feeds_fresh. Qed.
End Properties.

(** Evaluate the bound on each read. *)
Ltac short_reads :=
  unfold socket_reads; cbn [chunks];
  repeat (apply Forall_cons_2; [apply Nat.leb_le; vm_compute; reflexivity|]); apply Forall_nil_2.

Module Examples.
#[local] Existing Instances LineProtocol.line_flowscope LineProtocol.line_flowscope_laws ascii_case.

Definition newline : str := [ascii_of_N 10].

Definition request : list ReadOutcome :=
  [ReadChunk "GET."; ReadChunk ("Example.ORG:80" ++ newline ++ "body"); ReadChunk "more"].

Definition h2_request : list ReadOutcome := [ReadChunk ("PRI.example:443" ++ newline)].

Example http_example :
  read_http_head BridgeConfig_default request =
  Some (Ok (lit "get.example.org", lit "GET.Example.ORG:80" ++ newline ++ "body")).
Proof. by vm_compute. Qed.

Lemma head_readers_faithful_witness :
  http_names BridgeConfig_default ("GET.Example.ORG:80" ++ newline ++ "body") "get.example.org" /\
  stops_after (read_http_head BridgeConfig_default) 1 request /\
  h2_names true ("PRI.example:443" ++ newline) "pri.example".
Proof.
  assert (forall r, r = request \/ r = h2_request -> socket_reads r) as Hs.
  { intros r [-> | ->]; short_reads. }
  assert (0 < max_header BridgeConfig_default) as Hm by (vm_compute; lia).
  destruct (head_readers_faithful BridgeConfig_default request) as [H _]; [by apply Hs; left|done|].
  destruct (head_readers_faithful BridgeConfig_default h2_request) as (_ & H2 & _); [by apply Hs; right|done|].
  destruct (H "get.example.org" ("GET.Example.ORG:80" ++ newline ++ "body")) as (n & (_ & Hb & _) & Hst & _ & Hk); [by vm_compute|].
  destruct (H2 true "pri.example" ("PRI.example:443" ++ newline)) as (_ & _ & _ & _ & Hk2); [by vm_compute|].
  split; [exact Hk|]. split; [|exact Hk2].
  destruct n as [|[|n]]; [vm_compute in Hb; discriminate Hb|exact Hst|].
  destruct Hst as [Hst _]. exfalso. vm_compute in Hst. destruct n; discriminate Hst.
Defined.

Lemma head_readers_terminate_witness :
  let closed := [ReadChunk "GET"; ReadChunk []] in
  is_Some (read_http_head BridgeConfig_default closed) /\ is_Some (read_tls_sni BridgeConfig_default closed).
Proof.
  destruct (head_readers_terminate BridgeConfig_default [ReadChunk "GET"; ReadChunk []]) as (? & _ & ?).
  - right. apply Exists_cons. right. by apply Exists_cons_hd.
  - by split.
Defined.
End Examples.
