(* ===== verification/Routing.v ===== *)
(** * Routing: from an accepted connection to a route ([src/import/connection.rs],
    [src/import/auto.rs], [src/import/tls.rs], [src/import/ws.rs])

    A listener's handler classifies a connection, reads just enough of it to name a
    backend ([Heads]), consults liveliness, and either hands the connection with the
    bytes consumed to [bridge_import_connection] ([ImportBridge]) or refuses it.
    What the handlers observe of the socket, the bus and the clock is a [Conn]. *)

From S2P Require Import Prelude Text Config Dns HttpUtil KeySpace Metrics Heads.

(** ** Liveliness *)

(** A one-shot query under [availability_timeout]. *)
Inductive Probe : Type :=
| Declared (replied : bool)    (** the reply channel gave a reply, or closed *)
| DeclareFailed
| ProbeTimeout.

Inductive RouteError : Type := LivelinessFailed.

Definition token_alive (p : Probe) : result RouteError bool :=
  match p with
  | Declared replied => Ok replied
  | DeclareFailed => Err LivelinessFailed
  | ProbeTimeout => Ok false
  end.

Inductive BackendRoute : Type := Host | Default | Unavailable.

#[export] Instance BackendRoute_eq_dec : EqDecision BackendRoute.
Proof. solve_decision. Defined.

(** The two probes run concurrently and each completes once: the scheduler decides
    which is first. *)
Definition resolve_backend (probe : str -> Probe) (default_first : bool)
    (service_name : str) (dns : option str) : result RouteError BackendRoute :=
  let default_key := default_available_key service_name in
  let or_default d := if d : bool then Default else Unavailable in
  match dns with
  | None => or_default <$> token_alive (probe default_key)
  | Some dns =>
      let host_fut := token_alive (probe (host_available_key service_name dns)) in
      let default_fut := token_alive (probe default_key) in
      default_done ← (if default_first then Some <$> default_fut else Ok None);
      host_alive ← host_fut;
      if host_alive : bool then Ok Host
      else
        default_alive ← (match default_done with Some d => Ok d | None => default_fut end);
        Ok (or_default default_alive)
  end.

Definition alive (p : Probe) : Prop := p = Declared true.

Lemma token_alive_true p : token_alive p = Ok true <-> alive p.
Proof. unfold alive. destruct p as [[]| |]; simpl; split; congruence. Qed.

(** What a route promises, whatever the order of the probes and their errors. *)
Lemma resolve_backend_Ok probe df s dns r :
  resolve_backend probe df s dns = Ok r ->
  match r with
  | Host => exists k, dns = Some k /\ alive (probe (host_available_key s k))
  | Default => alive (probe (default_available_key s)) /\
      forall k, dns = Some k -> ~ alive (probe (host_available_key s k))
  | Unavailable => ~ alive (probe (default_available_key s)) /\
      forall k, dns = Some k -> ~ alive (probe (host_available_key s k))
  end.
Proof.
  unfold resolve_backend, alive. destruct dns as [k|].
  - destruct (probe (host_available_key s k)) as [[]| |] eqn:Eh;
      destruct (probe (default_available_key s)) as [[]| |] eqn:Ed;
      destruct df; simpl; try done; intros [= <-]; try (by eauto); (split; [congruence|intros ? [= <-]; congruence]).
  - destruct (probe _) as [[]| |]; simpl; try done; intros [= <-]; (split; [congruence|done]).
Qed.

(** ** What a handler sees of a connection *)

Inductive Peek : Type := Peeked (prefix : bytes) | PeekFailed | PeekTimeout.

(** Each later peek comes with whether the deadline has passed when the handler
    next looks at the clock. *)
Record Conn : Type := {
  peek16 : Peek;                       (** [peek] into 16 bytes, under [read_timeout] *)
  peek64 : list (Peek * bool);         (** the classification loop's peeks *)
  peek_head : list (Peek * bool);      (** [peek_full_http_head]'s peeks *)
  reads : list ReadOutcome;            (** the consuming reads of a head reader *)
  probe : str -> Probe;
  default_first : bool;
  accept_ws : bool;                    (** tungstenite's handshake succeeded *)
}.

Inductive Framing : Type := ByteFraming | WsFraming.

(** The arguments a handler gives to [bridge_import_connection]. *)
Record Route : Type := {
  dns : option str;
  initial_buffer : option bytes;
  response_tap : bool;
  framing : Framing;
}.

Inductive Verdict : Type :=
| Bridge (r : Route)
| Refuse (response : bytes)            (** written, then the socket is shut down *)
| Drop.                                (** closed without a word *)

Section Handlers.
Context {F : Flowscope} {U : UnicodeCase} (reason : HeadError -> str).
Context (config : BridgeConfig) (service_name : str) (conn : Conn).

Definition resolve (dns : option str) : result RouteError BackendRoute :=
  resolve_backend (probe conn) (default_first conn) service_name dns.

(** [match resolve_backend(.., Some(&dns), ..)]: the connection keeps its key only
    for a [Host] backend. *)
Definition keyed (key : str) (bridge : option str -> Verdict) (unavailable : Verdict) : Verdict :=
  match resolve (Some key) with
  | Err _ => Drop
  | Ok Host => bridge (Some key)
  | Ok Default => bridge None
  | Ok Unavailable => unavailable
  end.

(** [match resolve_backend(.., None, ..)]. *)
Definition unkeyed (bridge : Verdict) : Verdict :=
  match resolve None with
  | Err _ | Ok Unavailable => Drop
  | Ok Host | Ok Default => bridge
  end.

Definition relayed (buffer : bytes) (tap : bool) (d : option str) : Verdict :=
  Bridge {| dns := d; initial_buffer := Some buffer; response_tap := tap; framing := ByteFraming |}.

(** ** [handle_import_connection] *)
Definition handle_import_connection (http_mode : bool) : option Verdict :=
  if http_mode then
    match peek16 conn with
    | PeekFailed | PeekTimeout => Some Drop
    | Peeked prefix =>
        match classify_first_bytes prefix with
        | Some Tls =>
            head ← read_tls_sni config (reads conn);
            Some match head with
                 | Ok (Some key, buffer) => keyed key (relayed buffer false) Drop
                 | Ok (None, buffer) => unkeyed (relayed buffer false None)
                 | Err _ => Drop
                 end
        | _ =>
            head ← read_http_head config (reads conn);
            Some match head with
                 | Ok (key, buffer) => keyed key (relayed buffer false) (Refuse (http_502_response key))
                 | Err e => Refuse (http_400_response (reason e))
                 end
        end
    end
  else
    Some (Bridge {| dns := None; initial_buffer := None; response_tap := false; framing := ByteFraming |}).

(** ** [handle_h2c_connection] *)
Definition handle_h2c_connection : option Verdict :=
  head ← read_h2_head config true (reads conn);
  Some match head with
       | Err _ => Drop
       | Ok (Parsed key buffer) => keyed key (relayed buffer true) Drop
       | Ok (Timeout partial) => unkeyed (relayed partial false None)
       end.

(** ** [handle_auto_http_connection] *)
Fixpoint peek_full_http_head (last_len : nat) (peeks : list (Peek * bool)) : option (option RequestHead) :=
  match peeks with
  | [] => None
  | (PeekFailed, _) :: _ | (PeekTimeout, _) :: _ | (Peeked [], _) :: _ => Some None
  | (Peeked buf, late) :: peeks' =>
      let n := length buf in
      let wait last_len := if late : bool then Some None else peek_full_http_head last_len peeks' in
      if last_len <? n then
        match peek_http_head_outcome config buf with
        | Head head => Some (Some head)
        | Refused => Some None
        | NeedMore => if max_header config <=? n then Some None else wait n
        end
      else wait last_len
  end.

Definition handle_ws_upgrade (head : RequestHead) : Verdict :=
  match routing_key_from_head head with
  | Err e => Refuse (http_400_response (reason e))
  | Ok key =>
      keyed key
        (fun d => if accept_ws conn
                  then Bridge {| dns := d; initial_buffer := None; response_tap := false; framing := WsFraming |}
                  else Drop)
        (Refuse (http_502_response key))
  end.

Definition handle_auto_http_connection : option Verdict :=
  head ← peek_full_http_head 0 (peek_head conn);
  match head with
  | Some head =>
      if is_websocket_upgrade head then Some (handle_ws_upgrade head) else handle_import_connection true
  | None => handle_import_connection true
  end.

(** ** [handle_auto_import_connection] *)

(** The classification and whether it gave up undecided. *)
Fixpoint classify_loop (peeks : list (Peek * bool)) : option (option (WireProtocol * bool)) :=
  match peeks with
  | [] => None
  | (PeekFailed, _) :: _ | (PeekTimeout, _) :: _ | (Peeked [], _) :: _ => Some None
  | (Peeked prefix, late) :: peeks' =>
      match classify_first_bytes prefix with
      | Some p => Some (Some (p, false))
      | None => if late || (length prefix =? 64) then Some (Some (Raw, true)) else classify_loop peeks'
      end
  end.

Definition handle_auto_import_connection : option Verdict :=
  protocol ← classify_loop (peek64 conn);
  match protocol with
  | None => Some Drop
  | Some (Tls, _) => handle_import_connection true
  | Some (Http1, _) => handle_auto_http_connection
  | Some (Http2Preface, _) => handle_h2c_connection
  | Some (_, _) => handle_import_connection false
  end.

(** ** [handle_tls_terminated_connection] *)

(** [is_h2]: ALPN negotiated [h2]; the reads are of the decrypted stream. *)
Definition handle_tls_terminated_connection (is_h2 : bool) : option Verdict :=
  head ← (if is_h2 then
            outcome ← read_h2_head config false (reads conn);
            Some match outcome with
                 | Ok (Parsed key buffer) => Ok (key, buffer)
                 | Ok (Timeout _) | Err _ => Err Drop
                 end
          else
            outcome ← read_http_head config (reads conn);
            Some match outcome with
                 | Ok parsed => Ok parsed
                 | Err e => Err (Refuse (http_400_response (reason e)))
                 end);
  Some match head with
       | Ok (key, buffer) =>
           keyed key (relayed buffer is_h2) (if is_h2 then Drop else Refuse (http_502_response key))
       | Err v => v
       end.

(** ** [handle_ws_import_connection] *)
Definition handle_ws_import_connection : Verdict :=
  if accept_ws conn
  then Bridge {| dns := None; initial_buffer := None; response_tap := false; framing := WsFraming |}
  else Drop.
End Handlers.

(** ** [h2_response_tap] *)
Section Tap.
Context {F : Flowscope}.

Definition h2_response_tap (service : str) (chunk : bytes) (st : GrpcStatusScanner * Metrics)
    : GrpcStatusScanner * Metrics :=
  let (statuses, scanner) := grpc_feed (fst st) chunk in
  (scanner, foldl (fun m s => record_grpc_status service (grpc_code (snd s)) m) (snd st) statuses).
End Tap.

(** ** What a verdict promises *)
Section Verdicts.
Context {F : Flowscope} {FL : FlowscopeLaws F} {U : UnicodeCase} (reason : HeadError -> str).
Context (config : BridgeConfig) (service_name : str) (conn : Conn).

(** The heads a door may route by. *)
Inductive HeadKind : Type :=
| HttpHead
| H2Head (require_preface : bool)
| TlsHello
| UpgradeHead.                        (** peeked, and left for the WebSocket handshake *)

(** What the head of a connection names, given the bytes that are replayed: the head is in
    those bytes, or, for a WebSocket upgrade, in what was peeked.  An HTTP/2 client that
    sends no head in time names nothing. *)
Definition head_names (kind : HeadKind) (initial : option bytes) (named : option str) : Prop :=
  match kind, initial with
  | HttpHead, Some b => exists key, named = Some key /\ http_names config b key
  | H2Head pre, Some b =>
      match named with
      | Some key => h2_names pre b key
      | None => read_h2_head config pre (reads conn) = Some (Ok (Timeout b))
      end
  | TlsHello, Some b => exists n, handed_after config n (reads conn) b /\ tls_names (take (S n) (chunks (reads conn))) named
  | UpgradeHead, None => exists key peeked late, named = Some key /\ (Peeked peeked, late) ∈ peek_head conn /\
      http_names config peeked key
  | _, _ => False
  end.

(** The backend that a name leads to: its own if that is alive, else the default one. *)
Definition decided (named d : option str) : Prop :=
  match d with
  | Some k => named = Some k /\ routable k /\ alive (probe conn (host_available_key service_name k))
  | None => alive (probe conn (default_available_key service_name)) /\
      forall k, named = Some k -> ~ alive (probe conn (host_available_key service_name k))
  end.

(** A bridged connection goes to the live backend that its own head names, or to the live
    default one when that is not alive or the head names none; and whatever was consumed
    is replayed. *)
Definition route_ok (kinds : HeadKind -> Prop) (r : Route) : Prop :=
  (exists kind named, kinds kind /\ head_names kind (initial_buffer r) named /\ decided named (dns r)) /\
  match initial_buffer r with
  | Some b => handed_on config (reads conn) b /\ framing r = ByteFraming
  | None => framing r = WsFraming
  end.

Definition verdict_ok (kinds : HeadKind -> Prop) (v : Verdict) : Prop :=
  match v with
  | Bridge r => route_ok kinds r
  | Refuse response =>
      (exists why, response = http_400_response why) \/
      (exists kind initial k, kinds kind /\ head_names kind initial (Some k) /\ routable k /\ response = http_502_response k /\
         ~ alive (probe conn (host_available_key service_name k)) /\
         ~ alive (probe conn (default_available_key service_name)))
  | Drop => True
  end.

(** The heads that each door reads. *)
Definition import_kinds (kind : HeadKind) : Prop :=
  exists prefix, peek16 conn = Peeked prefix /\
    kind = match classify_first_bytes prefix with Some Tls => TlsHello | _ => HttpHead end.

Definition auto_http_kinds (kind : HeadKind) : Prop := kind = UpgradeHead \/ import_kinds kind.

Definition auto_kinds (kind : HeadKind) : Prop :=
  exists p undecided, classify_loop (peek64 conn) = Some (Some (p, undecided)) /\
    match p with
    | Tls => import_kinds kind
    | Http1 => auto_http_kinds kind
    | Http2Preface => kind = H2Head true
    | _ => False
    end.

Definition terminated_kinds (is_h2 : bool) (kind : HeadKind) : Prop := kind = if is_h2 then H2Head false else HttpHead.

Lemma verdict_ok_weaken (k1 k2 : HeadKind -> Prop) v : (forall k, k1 k -> k2 k) -> verdict_ok k1 v -> verdict_ok k2 v.
Proof using Type.
  intros Hk. destruct v as [r|response|]; simpl; [|intros [|]; [by left|right]|done].
  - intros [(kind & named & ? & ?) ?]. split; [|done]. exists kind, named. auto.
  - naive_solver.
Qed.

Lemma head_names_routable kind initial key : head_names kind initial (Some key) -> routable key.
Proof using Type.
  destruct kind, initial; simpl; try done.
  - intros (k & [= ->] & ?). by eapply http_names_routable.
  - apply h2_names_routable.
  - intros (n & _ & ?). by eapply tls_names_routable.
  - intros (k & peeked & late & [= ->] & _ & ?). by eapply http_names_routable.
Qed.

Lemma keyed_ok (kinds : HeadKind -> Prop) kind initial key bridge unavailable :
  kinds kind -> head_names kind initial (Some key) ->
  (forall d, decided (Some key) d -> verdict_ok kinds (bridge d)) ->
  unavailable = Drop \/ unavailable = Refuse (http_502_response key) ->
  verdict_ok kinds (keyed service_name conn key bridge unavailable).
Proof using Type.
  intros Hkd Hn Hb Hu. pose proof (head_names_routable _ _ _ Hn) as Hk. unfold keyed, resolve.
  destruct (resolve_backend _ _ _ _) as [r|e] eqn:E; [|done]. apply resolve_backend_Ok in E. destruct r.
  - destruct E as (k & [= <-] & Ha). by apply Hb.
  - by apply Hb.
  - destruct E as [Hd Hh]. specialize (Hh key eq_refl). destruct Hu as [->| ->]; [done|]. right. exists kind, initial, key. by split_and!.
Qed.

Lemma unkeyed_ok kinds v :
  (decided None None -> verdict_ok kinds v) -> verdict_ok kinds (unkeyed service_name conn v).
Proof using Type.
  intros Hv. unfold unkeyed, resolve.
  destruct (resolve_backend _ _ _ _) as [r|e] eqn:E; [|done]. apply resolve_backend_Ok in E. destruct r.
  - destruct E as (k & [=] & _).
  - by apply Hv.
  - done.
Qed.

Context (Hreads : socket_reads (reads conn)) (Hmax : 0 < max_header config).

(** The consuming readers, as the doors use them. *)
Lemma http_head_ok key buffer :
  read_http_head config (reads conn) = Some (Ok (key, buffer)) ->
  head_names HttpHead (Some buffer) (Some key) /\ handed_on config (reads conn) buffer.
Proof using FL Hreads Hmax.
  intros (n & Hh & _ & Hk)%read_http_head_spec; [|done..]. split; [by exists key|by exists n].
Qed.

Lemma h2_head_ok pre key buffer :
  read_h2_head config pre (reads conn) = Some (Ok (Parsed key buffer)) ->
  head_names (H2Head pre) (Some buffer) (Some key) /\ handed_on config (reads conn) buffer.
Proof using FL Hreads Hmax.
  intros (n & Hh & _ & Hk)%read_h2_head_spec; [|done..]. split; [done|by exists n].
Qed.

Lemma tls_sni_ok d buffer :
  read_tls_sni config (reads conn) = Some (Ok (d, buffer)) ->
  head_names TlsHello (Some buffer) d /\ handed_on config (reads conn) buffer.
Proof using Hreads Hmax.
  intros (n & Hh & _ & Hk)%read_tls_sni_spec; [|done..]. split; by exists n.
Qed.

(** A timed-out h2 head still hands on what it read, the peeked bytes first. *)
Definition first_read_ready : Prop := exists c rest, reads conn = ReadChunk c :: rest.

Lemma h2_timeout_ok pre buffer :
  first_read_ready -> read_h2_head config pre (reads conn) = Some (Ok (Timeout buffer)) ->
  handed_on config (reads conn) buffer.
Proof using Hreads Hmax.
  unfold read_h2_head. intros (c & rest & E) H.
  pose proof (read_until_verbatim _ _ _ [] (reads conn) _ 4096 Hreads Hmax H) as [Hb Hl].
  rewrite E in H, Hb |- *. simpl in H, Hb. destruct c as [|x c]; [done|].
  exists (length (chunks rest)). rewrite Hb in Hl. unfold handed_after. rewrite Hb. simpl in *.
  split_and!; [lia|by rewrite firstn_all|done|lia].
Qed.

Lemma relayed_ok (kinds : HeadKind -> Prop) kind named buffer tap d :
  kinds kind -> head_names kind (Some buffer) named -> handed_on config (reads conn) buffer ->
  decided named d -> verdict_ok kinds (relayed buffer tap d).
Proof using Type. intros Hk Hn Hb Hd. split; [by exists kind, named|done]. Qed.

Lemma import_connection_ok v :
  handle_import_connection reason config service_name conn true = Some v -> verdict_ok import_kinds v.
Proof using FL Hreads Hmax.
  unfold handle_import_connection. destruct (peek16 conn) as [prefix| |] eqn:Ep; try (by intros [= <-]).
  assert (import_kinds HttpHead -> (head ← read_http_head config (reads conn);
           Some match head with
                | Ok (key, buffer) => keyed service_name conn key (relayed buffer false) (Refuse (http_502_response key))
                | Err e => Refuse (http_400_response (reason e))
                end) = Some v -> verdict_ok import_kinds v) as Hhttp.
  { intros Hk H. inv_guards. destruct a as [[key buffer]|e]; subst v; [|left; by eexists].
    apply http_head_ok in Ha as [Hn Hb]. eapply keyed_ok; [done|done| |by right].
    intros d. by eapply relayed_ok. }
  assert (forall kind, kind = match classify_first_bytes prefix with Some Tls => TlsHello | _ => HttpHead end -> import_kinds kind)
    as Hkind by (intros kind ->; by exists prefix).
  destruct (classify_first_bytes prefix) as [[]|]; try (apply Hhttp; by apply Hkind). clear Hhttp.
  specialize (Hkind TlsHello eq_refl). intros H. inv_guards. destruct a as [[[key|] buffer]|e]; subst v; [| |done];
    apply tls_sni_ok in Ha as [Hn Hb].
  - eapply keyed_ok; [done|done| |by left]. intros d. by eapply relayed_ok.
  - apply unkeyed_ok. by eapply relayed_ok.
Qed.

Lemma h2c_ok v : first_read_ready -> handle_h2c_connection config service_name conn = Some v -> verdict_ok (eq (H2Head true)) v.
Proof using FL Hreads Hmax.
  unfold handle_h2c_connection. intros Hf H. inv_guards. destruct a as [[key buffer|partial]|e]; subst v; [| |done].
  - apply h2_head_ok in Ha as [Hn Hb]. eapply keyed_ok; [done|done| |by left]. intros d. by eapply relayed_ok.
  - pose proof (h2_timeout_ok _ _ Hf Ha) as Hb. apply unkeyed_ok. by apply (relayed_ok (eq (H2Head true)) (H2Head true) None).
Qed.

(** The peeked head of a WebSocket upgrade. *)
Lemma peek_full_head_spec last_len peeks head :
  peek_full_http_head config last_len peeks = Some (Some head) ->
  exists b late, (Peeked b, late) ∈ peeks /\ first_event request_head (http_head_parser config) b head.
Proof using FL.
  revert last_len. induction peeks as [|[[[|x b]| |] late] peeks IH]; intros last_len; try done.
  assert (forall l, (if late then Some None else peek_full_http_head config l peeks) = Some (Some head) ->
    exists b0 l0, (Peeked b0, l0) ∈ (Peeked (x :: b), late) :: peeks /\ first_event request_head (http_head_parser config) b0 head) as Hrec.
  { intros l. destruct late; [done|]. intros (b' & l' & Hin & H)%IH. exists b', l'. split; [by right|done]. }
  cbn [peek_full_http_head]. destruct (_ <? _); [|apply Hrec].
  destruct (peek_http_head_outcome config (x :: b)) as [head'| |] eqn:E; [|destruct (_ <=? _); [done|apply Hrec]|done].
  intros [= ->]. exists (x :: b), late. split; [by left|]. clear Hrec IH.
  unfold peek_http_head_outcome in E.
  pose proof (feed_drives (http_head_parser config) [] (length (x :: b)) (http_head_parser config) (x :: b) (drives_fresh _)) as Hd.
  fold (feed_all Initiator (http_head_parser config) (x :: b)) in Hd.
  destruct (feed_all _ _ _) as [p rest] eqn:Ef. unfold feed_all in Ef. apply feed_contiguous in Ef.
  rewrite (http_fresh _ _ Initiator : pushed Initiator (http_head_parser config) = []) in Ef. simpl in Hd, Ef. destruct (scan_all request_head p) as [[h|] p'] eqn:Es; [|by destruct (http_stuck p')].
  injection E as ->. unfold scan_all in Es. pose proof Es as Es'. eapply scan_drives in Es'; [|exact Hd|constructor].
  destruct Es' as (evs & ev & H1 & H2 & H3). apply scan_events_spec in Es as [Hp _]; [|apply Nat.lt_succ_diag_r].
  exists evs, ev, p', rest. by rewrite Hp.
Qed.

Lemma ws_upgrade_ok head :
  (exists b late, (Peeked b, late) ∈ peek_head conn /\ first_event request_head (http_head_parser config) b head) ->
  verdict_ok (eq UpgradeHead) (handle_ws_upgrade reason service_name conn head).
Proof using Type.
  intros (b & late & Hin & Hf). unfold handle_ws_upgrade. destruct (routing_key_from_head head) as [key|e] eqn:E; [|left; by eexists].
  assert (head_names UpgradeHead None (Some key)) as Hn.
  { unfold routing_key_from_head in E. inv_guards. exists key, b, late. split_and!; [done|done|]. exists head. eauto. }
  eapply keyed_ok; [done|exact Hn| |by right].
  intros d Hd. destruct (accept_ws conn); [|done]. split; [by exists UpgradeHead, (Some key)|done].
Qed.

Lemma auto_http_ok v :
  handle_auto_http_connection reason config service_name conn = Some v -> verdict_ok auto_http_kinds v.
Proof using FL Hreads Hmax.
  assert (handle_import_connection reason config service_name conn true = Some v -> verdict_ok auto_http_kinds v) as Himport.
  { intros ?%import_connection_ok. eapply verdict_ok_weaken; [|done]. by right. }
  unfold handle_auto_http_connection. intros H. inv_guards.
  destruct a as [head|]; [|by apply Himport]. destruct (is_websocket_upgrade head); [|by apply Himport].
  injection H as <-. eapply verdict_ok_weaken; [|apply ws_upgrade_ok; by eapply peek_full_head_spec]. intros k <-. by left.
Qed.

Lemma tls_terminated_ok is_h2 v :
  handle_tls_terminated_connection reason config service_name conn is_h2 = Some v -> verdict_ok (terminated_kinds is_h2) v.
Proof using FL Hreads Hmax.
  unfold handle_tls_terminated_connection. intros H. inv_guards. subst v. destruct is_h2; inv_guards; subst a.
  - destruct a0 as [[key buffer|partial]|e]; [|done|done]. apply h2_head_ok in Ha0 as [Hn Hb].
    eapply keyed_ok; [done|done| |by left]. intros d. by eapply relayed_ok.
  - destruct a0 as [[key buffer]|e]; [|left; by eexists]. apply http_head_ok in Ha0 as [Hn Hb].
    eapply keyed_ok; [done|done| |by right]. intros d. by eapply relayed_ok.
Qed.
End Verdicts.

(** ** Classification *)
Section Classify.
Context {F : Flowscope} {FL : FlowscopeLaws F}.

(** The peeks of one connection: each shows a prefix of the client's stream. *)
Definition peeks_of (stream : bytes) (peeks : list (Peek * bool)) : Prop :=
  forall b late, (Peeked b, late) ∈ peeks -> b `prefix_of` stream.

Lemma classify_loop_spec peeks p undecided :
  classify_loop peeks = Some (Some (p, undecided)) ->
  exists b late, (Peeked b, late) ∈ peeks /\ b <> [] /\
    if undecided then p = Raw /\ classify_first_bytes b = None /\ (late = true \/ length b = 64)
    else classify_first_bytes b = Some p.
Proof using Type.
  induction peeks as [|[[[|x b]| |] late] peeks IH]; try done. cbn [classify_loop].
  destruct (classify_first_bytes (x :: b)) as [q|] eqn:E.
  - intros [= <- <-]. exists (x :: b), late. split_and!; [by left|done|done].
  - destruct (late || (length (x :: b) =? 64)) eqn:El.
    + intros [= <- <-]. exists (x :: b), late. split_and!; [by left|done|done|done|].
      apply orb_true_iff in El as [?|?%Nat.eqb_eq]; auto.
    + intros (b' & l' & Hin & H)%IH. exists b', l'. split; [by right|done].
Qed.
End Classify.

(** ** Properties *)
Section Properties.
Context {F : Flowscope} {FL : FlowscopeLaws F} {U : UnicodeCase} (reason : HeadError -> str).

(** C10: every routing door is sound.  A connection that the HTTP/TLS door, the
    WebSocket-aware HTTP door, the plaintext HTTP/2 door or the TLS-terminating
    door bridges is scoped to the valid key that its own head names, whose backend token is
    alive, or else goes to the service's live default backend, because the named one is
    not alive or the head names none; the bytes consumed to decide are
    replayed exactly and are never empty; the only replies the door itself writes
    are a 400, or a 502 for the named key when neither token is alive. *)
Theorem doors_route_soundly config service conn :
  socket_reads (reads conn) -> 0 < max_header config ->
  (forall v, handle_import_connection reason config service conn true = Some v ->
     verdict_ok config service conn (import_kinds conn) v) /\
  (forall v, handle_auto_http_connection reason config service conn = Some v ->
     verdict_ok config service conn (auto_http_kinds conn) v) /\
  (forall v, first_read_ready conn -> handle_h2c_connection config service conn = Some v ->
     verdict_ok config service conn (eq (H2Head true)) v) /\
  (forall is_h2 v, handle_tls_terminated_connection reason config service conn is_h2 = Some v ->
     verdict_ok config service conn (terminated_kinds is_h2) v).
Proof using FL.
  intros Hr Hm. split_and!.
  - intros v. by apply import_connection_ok.
  - intros v. by apply auto_http_ok.
  - intros v. by apply h2c_ok.
  - intros is_h2 v. by apply tls_terminated_ok.
Qed.

(** C13: auto-detection never lets a recognisable client slip past its host key.  The
    auto door tunnels a connection unrouted only when the classifier decided, from
    the first bytes and hence from every longer prefix too, that it is not TLS or
    HTTP, or when it could not decide before the deadline or within 64 bytes. *)
Theorem auto_tunnels_only_opaque config service conn stream r :
  peeks_of stream (peek64 conn) -> socket_reads (reads conn) -> 0 < max_header config ->
  first_read_ready conn ->
  handle_auto_import_connection reason config service conn = Some (Bridge r) ->
  route_ok config service conn (auto_kinds conn) r \/
  (r = {| dns := None; initial_buffer := None; response_tap := false; framing := ByteFraming |} /\
   ((exists p, classify_first_bytes stream = Some p /\ p <> Tls /\ p <> Http1 /\ p <> Http2Preface) \/
    (exists b late, (Peeked b, late) ∈ peek64 conn /\ classify_first_bytes b = None /\
       (late = true \/ length b = 64)))).
Proof using FL.
  intros Hp Hr Hm Hf H. unfold handle_auto_import_connection in H. inv_guards.
  destruct a as [[p undecided]|]; [|done]. pose proof Ha as Hp'. apply classify_loop_spec in Ha as (b & late & Hin & Hne & Hc).
  assert (undecided = false -> classify_first_bytes stream = Some p) as Hs.
  { intros ->. destruct (Hp _ _ Hin) as [k ->]. by apply classify_stable. }
  destruct p.
  1: left; apply (import_connection_ok reason config service conn Hr Hm) in H; apply (verdict_ok_weaken _ _ _ (import_kinds conn) (auto_kinds conn) (Bridge r)); [|done].
  2: left; apply (auto_http_ok reason config service conn Hr Hm) in H; apply (verdict_ok_weaken _ _ _ (auto_http_kinds conn) (auto_kinds conn) (Bridge r)); [|done].
  3: left; apply (h2c_ok config service conn Hr Hm) in H; [|done]; apply (verdict_ok_weaken _ _ _ (eq (H2Head true)) (auto_kinds conn) (Bridge r)); [|done].
  1-3: intros kind Hk; eexists _, undecided; (split; [exact Hp'|]); simpl; congruence || done.
  all: right; injection H as <-; split; [done|]; destruct undecided;
    [right; exists b, late; by destruct Hc as (_ & ? & ?)|left; eexists; split; [by apply Hs|done]].
Qed.

(** C36: backend resolution.  When both liveliness queries can be made, the route is
    the host's backend if its token is alive, else the default one, else none,
    whichever probe finishes first; a positive host probe that finishes first
    decides alone; but a default probe that fails first fails the connection,
    whatever the host token says. *)
Theorem resolve_backend_correct probe service key :
  let host := probe (host_available_key service key) in
  let default := probe (default_available_key service) in
  (host <> DeclareFailed -> default <> DeclareFailed -> forall default_first,
     exists r, resolve_backend probe default_first service (Some key) = Ok r /\
       (r = Host <-> alive host) /\ (r = Default <-> ~ alive host /\ alive default) /\
       (r = Unavailable <-> ~ alive host /\ ~ alive default)) /\
  (alive host -> resolve_backend probe false service (Some key) = Ok Host) /\
  (default = DeclareFailed -> resolve_backend probe true service (Some key) = Err LivelinessFailed).
Proof using Type.
  intros host default. subst host default. unfold resolve_backend, alive.
  destruct (probe (host_available_key service key)) as [[]| |] eqn:Eh;
    destruct (probe (default_available_key service)) as [[]| |] eqn:Ed;
    (split_and!; [intros ?? []; try done; eexists; (split; [done|]); split_and!; naive_solver|done|done]).
Qed.
End Properties.

Module Examples.
#[local] Existing Instances LineProtocol.line_flowscope LineProtocol.line_flowscope_laws ascii_case.

Definition some_reason (e : HeadError) : str := "bad head".

Definition newline : str := [ascii_of_N 10].

(** Backend [api.local] is registered; the default is not. *)
Definition only_host (key : str) : Probe :=
  Declared (bool_decide (key = host_available_key "web" "get.api.local")).

Definition web_conn : Conn := {|
  peek16 := Peeked "GET.api.local:80";
  peek64 := [(Peeked "GET.", false)];
  peek_head := [(Peeked "GET.", false); (Peeked ("GET.api.local:80" ++ newline), false)];
  reads := [ReadChunk "GET."; ReadChunk ("api.local:80" ++ newline ++ "body")];
  probe := only_host; default_first := true; accept_ws := true;
|}.

Definition web_route : Route := {|
  dns := Some (lit "get.api.local");
  initial_buffer := Some ("GET.api.local:80" ++ newline ++ "body");
  response_tap := false; framing := ByteFraming;
|}.

Lemma web_reads : socket_reads (reads web_conn).
Proof. unfold web_conn. short_reads. Qed.

Lemma default_max : 0 < max_header BridgeConfig_default.
Proof. vm_compute. lia. Qed.

Lemma doors_route_soundly_witness :
  handle_import_connection some_reason BridgeConfig_default "web" web_conn true = Some (Bridge web_route) /\
  route_ok BridgeConfig_default "web" web_conn (import_kinds web_conn) web_route.
Proof.
  assert (handle_import_connection some_reason BridgeConfig_default "web" web_conn true = Some (Bridge web_route))
    as H by (vm_compute; reflexivity).
  split; [exact H|].
  by apply (doors_route_soundly some_reason BridgeConfig_default "web" web_conn web_reads default_max) in H.
Defined.

Lemma auto_tunnels_only_opaque_witness :
  handle_auto_import_connection some_reason BridgeConfig_default "web" web_conn = Some (Bridge web_route) /\
  route_ok BridgeConfig_default "web" web_conn (auto_kinds web_conn) web_route.
Proof.
  assert (handle_auto_import_connection some_reason BridgeConfig_default "web" web_conn = Some (Bridge web_route))
    as H by (vm_compute; reflexivity).
  split; [exact H|].
  apply (auto_tunnels_only_opaque some_reason BridgeConfig_default "web" web_conn "GET.api.local:80") in H
    as [H|[[=] _]]; [exact H| |apply web_reads|apply default_max|].
  - intros b late Hin. apply list_elem_of_singleton in Hin as [= -> _]. by exists "api.local:80".
  - by eexists _, _.
Defined.

Lemma resolve_backend_correct_witness :
  resolve_backend only_host true "web" (Some (lit "get.api.local")) = Ok Host /\
  exists r, resolve_backend only_host true "web" (Some (lit "other")) = Ok r /\ r = Unavailable.
Proof.
  split; [by vm_compute|].
  destruct (resolve_backend_correct only_host "web" "other") as [H _].
  destruct (H ltac:(done) ltac:(done) true) as (r & Hr & _ & _ & Hu). exists r. split; [exact Hr|].
  apply Hu. split; intros [= E]; by vm_compute in E.
Defined.
End Examples.
