(* ===== verification/Multiroute.v ===== *)
(** * Multiroute: per-request routing on one client connection
    ([src/import/multiroute.rs])

    One HTTP parser owns both directions of a client connection.  Each request is
    routed on its own host and exchanged over its own pair of keys; what the parser
    frames is relayed as the raw bytes, and events of the next, pipelined request
    wait in a queue.  The parser is flowscope's ([Heads.Flowscope]); the events and
    the response head show the fields the source reads. *)

From S2P Require Import Prelude Text Config Dns HttpUtil KeySpace Metrics Heads Routing.

Record ResponseHead : Type := {
  rh_raw : bytes;
  rh_interim : bool;
  rh_until_close : bool;                (** [BodyFraming::UntilClose] *)
  rh_http10 : bool;
  rh_connection : list (option str);    (** [Connection] values, when they are UTF-8 *)
}.

Inductive Event {F : Flowscope} : Type :=
| RequestHeadEv (h : RequestHead)
| BodyEv (dir : FlowSide) (raw : bytes)
| TrailersEv (dir : FlowSide) (raw : bytes)
| EndEv (dir : FlowSide)
| ResponseHeadEv (rh : ResponseHead)
| SwitchProtocols
| OtherEv.

Class HttpProxy (F : Flowscope) : Type := {
  event_view : HttpEvent -> Event;
  head_raw : RequestHead -> bytes;
  fin : FlowSide -> HttpProxyParser -> HttpProxyParser;
  is_done : HttpProxyParser -> bool;
  client_fault : HttpProxyParser -> bool;   (** [implies_client_fault().unwrap_or(true)] *)
  take_tunnel_residue : FlowSide -> HttpProxyParser -> bytes * HttpProxyParser;
}.

(** A parser without waiting events refuses everything only when it has stopped for
    good: poisoned, or tunnelled after a protocol switch. *)
Class HttpProxyLaws (F : Flowscope) : Prop := {
  refuses_stopped p b : next_event p = None -> b <> [] -> fst (push Initiator p b) = 0 ->
    let p' := snd (push Initiator p b) in
    next_event p' = None /\ (poison p' <> None \/ is_tunnelled p' = true);
}.

(** ** [response_wants_close] *)

Definition has_token (token : str) (values : list (option str)) : bool :=
  existsb (fun v => match v with
                    | Some v => existsb (fun t => bool_decide ((ascii_lower <$> trim t) = token)) (split_list "," v)
                    | None => false
                    end) values.

Definition response_wants_close (rh : ResponseHead) : bool :=
  rh_until_close rh || has_token "close" (rh_connection rh) ||
  (rh_http10 rh && negb (has_token "keep-alive" (rh_connection rh))).

(** ** The client's side of a connection *)

Section Multiroute.
Context {F : Flowscope} {H : HttpProxy F} {U : UnicodeCase} (config : BridgeConfig).

(** [leftover]: client bytes the parser refused; [to_client]: what was written;
    [framed]: the history of the events the parser gave. *)
Record Door : Type := {
  d_parser : HttpProxyParser;
  queue : list Event;
  leftover : bytes;
  client_eof : bool;
  to_client : list bytes;
  framed : list Event;
}.

Definition set_queue (q : list Event) (d : Door) : Door :=
  {| d_parser := d_parser d; queue := q; leftover := leftover d; client_eof := client_eof d;
     to_client := to_client d; framed := framed d |}.

Definition write_client (b : bytes) (d : Door) : Door :=
  {| d_parser := d_parser d; queue := queue d; leftover := leftover d; client_eof := client_eof d;
     to_client := to_client d ++ [b]; framed := framed d |}.

(** Whether the n-th put succeeds, and after how many bytes the n-th write to the client
    fails, if it does. *)
Context (put_ok : nat -> bool) (write_cut : nat -> option nat).

Definition next_cut (d : Door) : option nat := write_cut (length (to_client d)).

Definition written (cut : option nat) (b : bytes) : bytes := match cut with Some n => take n b | None => b end.

(** [let _ = stream.write_all(..)]: a page of the gateway's own. *)
Definition write_page (page : bytes) (d : Door) : Door := write_client (written (next_cut d) page) d.

Definition with_parser (p : HttpProxyParser) (l : bytes) (d : Door) : Door :=
  {| d_parser := p; queue := queue d; leftover := l; client_eof := client_eof d;
     to_client := to_client d; framed := framed d |}.

(** [while let Some(ev) = parser.next_event()]. *)
Fixpoint drain (fuel : nat) (p : HttpProxyParser) : list Event * HttpProxyParser :=
  match fuel with
  | 0 => ([], p)
  | S fuel' =>
      match next_event p with
      | None => ([], p)
      | Some (ev, p) => let (evs, p) := drain fuel' p in (event_view ev :: evs, p)
      end
  end.

Definition drain_events (d : Door) : Door :=
  let (evs, p) := drain (S (events (d_parser d))) (d_parser d) in
  {| d_parser := p; queue := queue d ++ evs; leftover := leftover d; client_eof := client_eof d;
     to_client := to_client d; framed := framed d ++ evs |}.

(** [*leftover = push_bytes(parser, Initiator, bytes); drain_events(..)]. *)
Definition offer_client (b : bytes) (d : Door) : Door :=
  let (p, l) := feed_all Initiator (d_parser d) b in drain_events (with_parser p l d).

(** End of the client's stream. *)
Definition set_eof (d : Door) : Door :=
  {| d_parser := fin Initiator (d_parser d); queue := queue d; leftover := leftover d; client_eof := true;
     to_client := to_client d; framed := framed d |}.

Definition client_ends (d : Door) : Door := drain_events (set_eof d).

(** ** Between requests *)

Inductive HeadRead : Type :=
| HRead (chunk : bytes)
| HReadFailed                (** an error or the idle timeout *)
| HShutdown.

Inductive NextRequest : Type :=
| NextHead (h : RequestHead)
| CleanEnd
| Malformed (fault : bool) (reason : str).

(** A framed head wins; stray events before it are discarded. *)
Fixpoint pop_head (q : list Event) : option RequestHead * list Event :=
  match q with
  | [] => (None, [])
  | RequestHeadEv h :: q' => (Some h, q')
  | _ :: q' => pop_head q'
  end.

Definition malformed (d : Door) : option NextRequest :=
  match poison (d_parser d) with
  | Some reason => Some (Malformed (client_fault (d_parser d)) reason)
  | None => None
  end.

(** One turn of the loop per unit of fuel; [None] while it waits or turns. *)
Fixpoint next_request_head (fuel : nat) (first : bool) (reads : list HeadRead) (d : Door)
    : option (NextRequest * Door) :=
  match fuel with
  | 0 => None
  | S fuel' =>
      let (h, q) := pop_head (queue d) in
      let d := set_queue q d in
      match h with
      | Some h => Some (NextHead h, d)
      | None =>
          if client_eof d then Some (CleanEnd, d)
          else if is_tunnelled (d_parser d) then
            Some (Malformed false (lit "connection switched protocols before a routable request head"), d)
          else if negb (bool_decide (leftover d = [])) then
            let d := offer_client (leftover d) d in
            match malformed d with
            | Some m => Some (m, d)
            | None => next_request_head fuel' first reads d
            end
          else
            match reads with
            | [] => None
            | HReadFailed :: _ =>
                Some (if first then Malformed true (lit "timeout or error reading the request") else CleanEnd, d)
            | HShutdown :: _ => Some (CleanEnd, d)
            | HRead [] :: reads' => next_request_head fuel' first reads' (client_ends d)
            | HRead chunk :: reads' =>
                let d := offer_client chunk d in
                match malformed d with
                | Some m => Some (m, d)
                | None => next_request_head fuel' first reads' d
                end
            end
      end
  end.

(** The rest of a refused request's body; the next head is left in the queue. *)
Fixpoint skip_body (q : list Event) : bool * list Event :=
  match q with
  | [] => (false, [])
  | EndEv Initiator :: q' => (true, q')
  | RequestHeadEv h :: q' => (true, RequestHeadEv h :: q')
  | _ :: q' => skip_body q'
  end.

Definition stuck (d : Door) : bool :=
  match poison (d_parser d) with Some _ => true | None => is_tunnelled (d_parser d) end.

Fixpoint consume_request_body (fuel : nat) (reads : list HeadRead) (d : Door) : option Door :=
  match fuel with
  | 0 => None
  | S fuel' =>
      let d' := if bool_decide (leftover d = []) then d else offer_client (leftover d) d in
      if negb (bool_decide (leftover d = [])) && stuck d' then Some d'
      else
        let (over, q) := skip_body (queue d') in
        let d := set_queue q d' in
        if over || client_eof d then Some d
        else if negb (bool_decide (leftover d = [])) then consume_request_body fuel' reads d
        else
          match reads with
          | [] => None
          | HReadFailed :: _ | HShutdown :: _ => Some d
          | HRead [] :: reads' => consume_request_body fuel' reads' (client_ends d)
          | HRead chunk :: reads' =>
              let d := offer_client chunk d in
              if stuck d then Some d else consume_request_body fuel' reads' d
          end
  end.

(** ** One exchange *)

Inductive ExchangeEnd : Type := EndOk | Timeout | Overflow | Truncated | Poisoned | BackendGone | Drained.

(** [published]: the puts on the request's tx key; [bytes_written]: response bytes,
    the gateway's own error pages not counted. *)
Record Exchange : Type := {
  door : Door;
  request_done : bool;
  response_done : bool;
  switched : bool;
  keep_alive : bool;
  ending : ExchangeEnd;
  bytes_written : N;
  resp_pending : bytes;
  published : list bytes;
}.

Definition set_door (d : Door) (x : Exchange) : Exchange :=
  {| door := d; request_done := request_done x; response_done := response_done x; switched := switched x;
     keep_alive := keep_alive x; ending := ending x; bytes_written := bytes_written x;
     resp_pending := resp_pending x; published := published x |}.

Definition publish (b : bytes) (x : Exchange) : Exchange :=
  {| door := door x; request_done := request_done x; response_done := response_done x; switched := switched x;
     keep_alive := keep_alive x; ending := ending x; bytes_written := bytes_written x;
     resp_pending := resp_pending x; published := published x ++ [b] |}.

Definition write_response (b : bytes) (x : Exchange) : Exchange :=
  {| door := write_client b (door x); request_done := request_done x; response_done := response_done x;
     switched := switched x; keep_alive := keep_alive x; ending := ending x;
     bytes_written := bytes_written x + N.of_nat (length b); resp_pending := resp_pending x;
     published := published x |}.

(** The exits: how it ended, and no further request on this connection. *)
Definition end_with (e : ExchangeEnd) (x : Exchange) : Exchange :=
  {| door := door x; request_done := request_done x; response_done := response_done x; switched := switched x;
     keep_alive := false; ending := e; bytes_written := bytes_written x;
     resp_pending := resp_pending x; published := published x |}.

Definition set_flags (rq rs sw ka : bool) (x : Exchange) : Exchange :=
  {| door := door x; request_done := rq; response_done := rs; switched := sw; keep_alive := ka;
     ending := ending x; bytes_written := bytes_written x; resp_pending := resp_pending x;
     published := published x |}.

Definition set_resp (b : bytes) (x : Exchange) : Exchange :=
  {| door := door x; request_done := request_done x; response_done := response_done x; switched := switched x;
     keep_alive := keep_alive x; ending := ending x; bytes_written := bytes_written x;
     resp_pending := b; published := published x |}.

Definition over_cap (raw : bytes) (x : Exchange) : bool :=
  (max_response_size config <? bytes_written x + N.of_nat (length raw))%N.

Inductive Status : Type := Waiting | Finished | Failed.

Definition try_publish (b : bytes) (x : Exchange) (k : Exchange -> Exchange * Status) : Exchange * Status :=
  if put_ok (length (published x)) then k (publish b x) else (x, Failed).

(** A write that fails has written a part, which is counted nowhere. *)
Definition try_write (b : bytes) (x : Exchange) (k : Exchange -> Exchange * Status) : Exchange * Status :=
  match next_cut (door x) with
  | None => k (write_response b x)
  | Some n => (set_door (write_client (take n b) (door x)) x, Failed)
  end.

(** The event pass.  [carry]: the next request's events; an exit puts them back in
    front of what was not looked at. *)
Fixpoint process (carry q : list Event) (x : Exchange) : Exchange * Status :=
  match q with
  | [] => (set_door (set_queue carry (door x)) x, Waiting)
  | ev :: q' =>
      let stop x := (set_door (set_queue (carry ++ q') (door x)) x, Finished) in
      let defer := process (carry ++ [ev]) q' x in
      match ev with
      | BodyEv Initiator raw | TrailersEv Initiator raw =>
          if request_done x then defer else try_publish raw x (process carry q')
      | EndEv Initiator =>
          if request_done x then defer
          else process carry q' (set_flags true (response_done x) (switched x) (keep_alive x) x)
      | ResponseHeadEv rh =>
          let closes := negb (rh_interim rh) && response_wants_close rh in
          try_write (rh_raw rh)
            (set_flags (request_done x) (response_done x) (switched x) (keep_alive x && negb closes) x)
            (process carry q')
      | BodyEv Responder raw | TrailersEv Responder raw =>
          if over_cap raw x then stop (end_with Truncated x) else try_write raw x (process carry q')
      | EndEv Responder => stop (set_flags (request_done x) true (switched x) (keep_alive x) x)
      | SwitchProtocols => stop (set_flags (request_done x) (response_done x) true (keep_alive x) x)
      | RequestHeadEv _ | OtherEv => defer
      end
  end.

(** [resp_pending = push_bytes(parser, Responder, bytes); drain_events(..)]. *)
Definition offer_response (b : bytes) (x : Exchange) : Exchange :=
  let (p, l) := feed_all Responder (d_parser (door x)) b in
  set_resp l (set_door (drain_events (with_parser p (leftover (door x)) (door x))) x).

Definition response_ends (x : Exchange) : Exchange :=
  set_door (drain_events (with_parser (fin Responder (d_parser (door x))) (leftover (door x)) (door x))) x.

(** An error page, when nothing of a response has reached the client. *)
Definition error_page (page : bytes) (x : Exchange) : Exchange :=
  if decide (bytes_written x = 0%N) then set_door (write_page page (door x)) x else x.

(** The loop's body up to its [select!]. *)
Definition turn (host : str) (x : Exchange) : Exchange * Status :=
  let x := if bool_decide (leftover (door x) = []) then x
           else set_door (offer_client (leftover (door x)) (door x)) x in
  let x := if bool_decide (resp_pending x = []) then x else offer_response (resp_pending x) x in
  match process [] (queue (door x)) x with
  | (x, Waiting) =>
      match poison (d_parser (door x)) with
      | Some reason =>
          let page := if client_fault (d_parser (door x)) then http_400_response reason
                      else http_502_response host in
          (end_with Poisoned (error_page page x), Finished)
      | None => (x, Waiting)
      end
  | r => r
  end.

Inductive ExchangeEvent : Type :=
| ClientRead (r : result unit bytes)
| RxSample (payload : bytes)
| RxClosed
| IdleTimeout
| RxOverflow
| ListenerDrains.

(** An arm of the [select!], then the next turn. *)
Definition exchange_step (host : str) (s : Exchange * Status) (e : ExchangeEvent) : option (Exchange * Status) :=
  let (x, st) := s in
  match st with
  | Finished | Failed => None
  | Waiting =>
      match e with
      | ClientRead r =>
          if negb (request_done x) && negb (client_eof (door x)) && bool_decide (leftover (door x) = []) then
            Some match r with
                 | Err _ => (x, Failed)
                 | Ok [] => turn host (set_door (client_ends (door x)) x)
                 | Ok chunk => turn host (set_door (offer_client chunk (door x)) x)
                 end
          else None
      | RxSample [] => Some (turn host (response_ends x))
      | RxSample payload => Some (turn host (offer_response payload x))
      | RxClosed => Some (end_with BackendGone (error_page (http_502_response host) x), Finished)
      | IdleTimeout => Some (end_with Timeout (error_page http_504_response x), Finished)
      | RxOverflow => Some (end_with Overflow x, Finished)
      | ListenerDrains => Some (end_with Drained x, Finished)
      end
  end.

(** The exchange, its head not yet published. *)
Definition exchange_init (d : Door) : Exchange :=
  {| door := d; request_done := false; response_done := false; switched := false; keep_alive := true;
     ending := EndOk; bytes_written := 0; resp_pending := []; published := [] |}.

Definition exchange_start (host : str) (head : RequestHead) (d : Door) : Exchange * Status :=
  try_publish (head_raw head) (exchange_init d) (turn host).

(** ** After a protocol switch *)

Inductive SpliceEvent : Type :=
| SpliceUp (r : result unit bytes) (ok : bool)
| SpliceDown (sample : option bytes) (cut : option nat)
| SpliceStop.

(** A splice counts nothing against the response cap. *)
Definition splice_down (b : bytes) (x : Exchange) : Exchange := set_door (write_client b (door x)) x.

Definition try_splice_down (b : bytes) (x : Exchange) (k : Exchange -> Exchange * Status) : Exchange * Status :=
  match next_cut (door x) with None => k (splice_down b x) | Some n => (splice_down (take n b) x, Failed) end.

(** The residue of each direction goes first. *)
Definition splice_first (x : Exchange) : Exchange * Status :=
  let (up1, p) := take_tunnel_residue Initiator (d_parser (door x)) in
  let up := List.filter (fun c => negb (bool_decide (c = []))) [up1; leftover (door x)] in
  let (down1, p) := take_tunnel_residue Responder p in
  let down := List.filter (fun c => negb (bool_decide (c = []))) [down1; resp_pending x] in
  let x := set_resp [] (set_door (with_parser p [] (door x)) x) in
  foldr (fun c k x => try_publish c x k)
    (fun x => foldr (fun c k x => try_splice_down c x k) (fun x => (x, Waiting)) down x) up x.

(** An arm of the splice's [select!], and whether the loop goes on. *)
Definition splice_step (ev : SpliceEvent) (x : Exchange) : Exchange * bool :=
  match ev with
  | SpliceUp (Ok (c :: chunk)) true => (publish (c :: chunk) x, true)
  | SpliceDown (Some (c :: payload)) None => (splice_down (c :: payload) x, true)
  | SpliceDown (Some (c :: payload)) (Some n) => (splice_down (take n (c :: payload)) x, false)
  | _ => (x, false)
  end.

Fixpoint splice (evs : list SpliceEvent) (x : Exchange) : option Exchange :=
  match evs with
  | [] => None
  | ev :: evs' => match splice_step ev x with (x', true) => splice evs' x' | (x', false) => Some x' end
  end.

(** The end-of-stream marker is published at every orderly end. *)
Definition tear_down (x : Exchange) : Exchange :=
  if put_ok (length (published x)) then publish [] x else x.

Inductive ExchangeOutcome : Type :=
| ExchangeCompleted (keep_alive : bool) (e : ExchangeEnd)
| ExchangeSwitched
| ExchangeFailed.

Definition run_exchange (host : str) (head : RequestHead) (d : Door) (evs : list ExchangeEvent)
    (splice_evs : list SpliceEvent) : option (ExchangeOutcome * Exchange) :=
  s ← run (exchange_step host) (exchange_start host head d) evs;
  match s with
  | (x, Failed) => Some (ExchangeFailed, x)
  | (x, Waiting) => None
  | (x, Finished) =>
      if switched x then
        match splice_first x with
        | (x, Waiting) => x ← splice splice_evs x; Some (ExchangeSwitched, tear_down x)
        | (x, _) => Some (ExchangeFailed, x)
        end
      else
        let keep := keep_alive x && response_done x && negb (client_eof (door x)) in
        Some (ExchangeCompleted keep (ending x), tear_down x)
  end.

(** ** The connection *)

(** What the environment does during one request. *)
Record RequestEnv : Type := {
  head_reads : list HeadRead;
  body_reads : list HeadRead;           (** of a request that is refused *)
  r_probe : str -> Probe;
  r_default_first : bool;
  setup_ok : bool;                      (** the exchange's Zenoh entities *)
  exchange_events : list ExchangeEvent;
  splice_events : list SpliceEvent;
}.

(** [s_sent]: what the exchange of this request published. *)
Record Served : Type := {
  s_head : RequestHead;
  s_key : str;
  s_route : option str;
  s_env : RequestEnv;
  s_sent : list bytes;
  s_end : ExchangeOutcome;
}.

Definition outcome_after (e : ExchangeEnd) (o : ConnOutcome) : ConnOutcome :=
  match e with
  | EndOk => o
  | Timeout | Truncated | BackendGone => ConnFailed
  | Overflow | Poisoned | Drained => ConnReset
  end.

Context (reason : HeadError -> str) (service_name : str).

(** A query that cannot be made refuses the one request. *)
Definition request_route (env : RequestEnv) (key : str) : BackendRoute :=
  match resolve_backend (r_probe env) (r_default_first env) service_name (Some key) with
  | Ok r => r
  | Err _ => Unavailable
  end.

Definition serve_request (env : RequestEnv) (key : str) (head : RequestHead) (d : Door)
    : option (ExchangeOutcome * list bytes * Door) :=
  if setup_ok env then
    '(o, x) ← run_exchange key head d (exchange_events env) (splice_events env); Some (o, published x, door x)
  else Some (ExchangeFailed, [], d).

(** How an exchange's end decides about the next. *)
Definition after_exchange (s : Served) (outcome : ConnOutcome) (d : Door)
    (continue : ConnOutcome -> Door -> option (ConnOutcome * list Served * Door)) : option (ConnOutcome * list Served * Door) :=
  match s_end s with
  | ExchangeFailed => Some (ConnFailed, [s], d)
  | ExchangeSwitched => Some (outcome, [s], d)
  | ExchangeCompleted keep e =>
      let outcome := outcome_after e outcome in
      if negb keep || is_done (d_parser d) then Some (outcome, [s], d)
      else '(o, log, d) ← continue outcome d; Some (o, s :: log, d)
  end.

(** [fuel] bounds the turns of the two inner loops. *)
Fixpoint handle_multiroute (fuel : nat) (first : bool) (outcome : ConnOutcome) (envs : list RequestEnv)
    (d : Door) : option (ConnOutcome * list Served * Door) :=
  match envs with
  | [] => None
  | env :: envs' =>
      '(next, d) ← next_request_head fuel first (head_reads env) d;
      match next with
      | CleanEnd => Some (outcome, [], d)
      | Malformed fault why =>
          Some (ConnReset, [], if fault : bool then write_page (http_400_response why) d else d)
      | NextHead head =>
          match routing_key_from_head head with
          | Err e => Some (ConnReset, [], write_page (http_400_response (reason e)) d)
          | Ok key =>
              let serve route :=
                '(o, sent, d) ← serve_request env key head d;
                after_exchange
                  {| s_head := head; s_key := key; s_route := route; s_env := env; s_sent := sent; s_end := o |}
                  outcome d (fun outcome d => handle_multiroute fuel false outcome envs' d) in
              match request_route env key with
              | Host => serve (Some key)
              | Default => serve None
              | Unavailable =>
                  d ← consume_request_body fuel (body_reads env)
                        (write_page (http_502_response_keep_alive key) d);
                  handle_multiroute fuel false outcome envs' d
              end
          end
      end
  end.

(** ** What an exchange does with the events of the parser *)

(** Events that wait for the next request. *)
Definition defers (over : bool) (ev : Event) : bool :=
  match ev with
  | RequestHeadEv _ | OtherEv => true
  | BodyEv Initiator _ | TrailersEv Initiator _ | EndEv Initiator => over
  | _ => false
  end.

Definition ends_request (ev : Event) : bool := match ev with EndEv Initiator => true | _ => false end.

Fixpoint deferred (over : bool) (evs : list Event) : list Event :=
  match evs with
  | [] => []
  | ev :: evs' =>
      if defers over ev then ev :: deferred over evs' else deferred (over || ends_request ev) evs'
  end.

(** The request's own chunks: its body and trailers, up to its end. *)
Fixpoint request_chunks (over : bool) (evs : list Event) : list bytes :=
  match evs with
  | [] => []
  | ev :: evs' =>
      match ev with
      | BodyEv Initiator raw | TrailersEv Initiator raw =>
          if over then request_chunks over evs' else raw :: request_chunks over evs'
      | _ => request_chunks (over || ends_request ev) evs'
      end
  end.

Definition response_chunk (ev : Event) : option bytes :=
  match ev with
  | ResponseHeadEv rh => Some (rh_raw rh)
  | BodyEv Responder raw | TrailersEv Responder raw => Some raw
  | _ => None
  end.

Definition response_chunks (evs : list Event) : list bytes := omap response_chunk evs.

Definition body_chunk (ev : Event) : option bytes :=
  match ev with BodyEv Responder raw | TrailersEv Responder raw => Some raw | _ => None end.

Definition size (cs : list bytes) : N := N.of_nat (length (concat cs)).

Definition done_after (over : bool) (evs : list Event) : bool := over || existsb ends_request evs.

Lemma deferred_app over a b : deferred over (a ++ b) = deferred over a ++ deferred (done_after over a) b.
Proof using Type.
  unfold done_after. revert over. induction a as [|ev a IH]; intros over; simpl; [by rewrite orb_false_r|].
  destruct (defers over ev) eqn:E; rewrite IH; simpl; [|by rewrite orb_assoc].
  destruct ev as [|[]|[]|[]| | |], over; try done.
Qed.

Lemma request_chunks_app over a b :
  request_chunks over (a ++ b) = request_chunks over a ++ request_chunks (done_after over a) b.
Proof using Type.
  unfold done_after. revert over. induction a as [|ev a IH]; intros over; simpl; [by rewrite orb_false_r|].
  destruct ev as [|[]|[]|[]| | |]; simpl; rewrite ?orb_false_r, ?IH; simpl; try done;
    destruct over; simpl; rewrite ?IH; try done.
Qed.

Lemma done_after_app over a b : done_after over (a ++ b) = done_after (done_after over a) b.
Proof using Type. unfold done_after. by rewrite existsb_app, orb_assoc. Qed.

(** What was deferred stays deferred. *)
Lemma deferred_defers over evs : Forall (fun ev => defers (done_after over evs) ev = true) (deferred over evs).
Proof using Type.
  revert over. induction evs as [|ev evs IH]; intros over; simpl; [done|].
  assert (done_after over (ev :: evs) = done_after (over || ends_request ev) evs) as ->.
  { unfold done_after. simpl. by rewrite orb_assoc. }
  destruct (defers over ev) eqn:E; [|apply IH]. constructor.
  - by destruct ev as [|[]|[]|[]| | |], over.
  - destruct ev as [|[]|[]|[]| | |], over; simpl in *; try done; first [apply (IH true)|apply (IH false)].
Qed.

Lemma process_deferred carry l q x :
  Forall (fun ev => defers (request_done x) ev = true) l ->
  process carry (l ++ q) x = process (carry ++ l) q x.
Proof using Type.
  intros Hl. revert carry. induction Hl as [|ev l Hev _ IH]; intros carry; simpl; [by rewrite app_nil_r|].
  destruct ev as [|[]|[]|[]| | |]; simpl in Hev; try done; rewrite ?Hev, IH, <- app_assoc; done.
Qed.

Definition sound_end (x : Exchange) : Prop := ending x = EndOk \/ keep_alive x = false.

(** The part of the next response chunk that a failed write got out. *)
Definition cut_write (st : Status) (q : list Event) (tail : list bytes) : Prop :=
  st = Failed /\ exists ev q' chunk n, q = ev :: q' /\ response_chunk ev = Some chunk /\ tail = [take n chunk].

(** What a pass did: [seen] was acted on, [skipped] was refused for its size, and a write
    that failed left its [tail]. *)
Record Pass (carry q : list Event) (x x' : Exchange) (st : Status) (seen skipped rest : list Event) (tail : list bytes) : Prop := {
  pass_split : q = seen ++ skipped ++ rest;
  pass_up : published x' = published x ++ request_chunks (request_done x) seen;
  pass_down : to_client (door x') = to_client (door x) ++ response_chunks seen ++ tail;
  pass_tail : tail = [] \/ cut_write st (skipped ++ rest) tail;
  pass_done : request_done x' = done_after (request_done x) seen;
  pass_count : bytes_written x' = (bytes_written x + size (response_chunks seen))%N;
  pass_cap b0 : (b0 <= bytes_written x)%N -> (b0 <= max_response_size config)%N ->
    (b0 + size (omap body_chunk seen) <= bytes_written x')%N /\
    (b0 + size (omap body_chunk seen) <= max_response_size config)%N;
  pass_framed : framed (door x') = framed (door x);
  pass_waiting : st = Waiting -> skipped = [] /\ rest = [];
  pass_queue : st <> Failed -> queue (door x') = carry ++ deferred (request_done x) seen ++ rest;
  pass_skipped : skipped <> [] -> ending x' = Truncated;
  pass_end : sound_end x -> sound_end x';
}.

Lemma size_cons c cs : size (c :: cs) = (N.of_nat (length c) + size cs)%N.
Proof using Type. unfold size. simpl. rewrite length_app. lia. Qed.

Lemma size_app a b : size (a ++ b) = (size a + size b)%N.
Proof using Type. unfold size. rewrite concat_app, length_app. lia. Qed.

(** One event acted on, then the rest of the pass. *)
Lemma pass_cons carry carry' ev q x x1 x' st seen skipped rest tail :
  published x1 = published x ++ request_chunks (request_done x) [ev] ->
  to_client (door x1) = to_client (door x) ++ response_chunks [ev] ->
  request_done x1 = request_done x || ends_request ev ->
  bytes_written x1 = (bytes_written x + size (response_chunks [ev]))%N ->
  (body_chunk ev <> None -> bytes_written x1 <= max_response_size config)%N ->
  framed (door x1) = framed (door x) ->
  carry' = carry ++ deferred (request_done x) [ev] ->
  (sound_end x -> sound_end x1) ->
  Pass carry' q x1 x' st seen skipped rest tail -> Pass carry (ev :: q) x x' st (ev :: seen) skipped rest tail.
Proof using Type.
  intros Hup Hdown Hdone Hcount Hcap Hfr -> Hend [].
  assert (done_after (request_done x) [ev] = request_done x1) as Hda.
  { unfold done_after. simpl. by rewrite orb_false_r. }
  constructor.
  - by rewrite pass_split0.
  - rewrite pass_up0, Hup. change (ev :: seen) with ([ev] ++ seen).
    by rewrite request_chunks_app, Hda, app_assoc.
  - rewrite pass_down0, Hdown. change (ev :: seen) with ([ev] ++ seen). unfold response_chunks.
    by rewrite omap_app, <- !app_assoc.
  - done.
  - change (ev :: seen) with ([ev] ++ seen). by rewrite done_after_app, Hda.
  - rewrite pass_count0, Hcount. change (ev :: seen) with ([ev] ++ seen). unfold response_chunks.
    rewrite omap_app, size_app. lia.
  - intros b0 Hb1 Hb2. change (ev :: seen) with ([ev] ++ seen). rewrite omap_app, size_app.
    destruct (pass_cap0 (b0 + size (omap body_chunk [ev]))%N) as [H1 H2]; [| |split; lia].
    + rewrite Hcount. unfold response_chunks. destruct ev as [|[]|[]|[]| | |]; simpl; rewrite ?size_cons; unfold size; simpl; lia.
    + destruct ev as [|[]|[]|[]| | |]; simpl in *; unfold response_chunks in *; simpl in *; rewrite ?size_cons in *;
        unfold size in *; simpl in *; try lia; specialize (Hcap ltac:(done)); lia.
  - by rewrite pass_framed0.
  - done.
  - intros Hst. rewrite (pass_queue0 Hst). change (ev :: seen) with ([ev] ++ seen).
    by rewrite deferred_app, Hda, <- !app_assoc.
  - done.
  - auto.
Qed.

Lemma pass_nil carry x q skipped rest tail x' st :
  q = skipped ++ rest -> published x' = published x -> to_client (door x') = to_client (door x) ++ tail ->
  (tail = [] \/ cut_write st q tail) ->
  request_done x' = request_done x -> bytes_written x' = bytes_written x ->
  framed (door x') = framed (door x) -> (st = Waiting -> skipped = [] /\ rest = []) ->
  (st <> Failed -> queue (door x') = carry ++ rest) -> (skipped <> [] -> ending x' = Truncated) ->
  (sound_end x -> sound_end x') -> Pass carry q x x' st [] skipped rest tail.
Proof using Type.
  intros Hq Hup Hdown Htail Hdone Hcount. constructor; try done.
  - by rewrite Hup, app_nil_r.
  - by rewrite <- Hq.
  - rewrite Hdone. unfold done_after. by rewrite orb_false_r.
  - rewrite Hcount. unfold size. simpl. lia.
  - intros b0. rewrite Hcount. unfold size. simpl. lia.
Qed.

Lemma sound_end_keep x x' : ending x' = ending x -> (keep_alive x = false -> keep_alive x' = false) ->
  sound_end x -> sound_end x'.
Proof using Type. unfold sound_end. intros -> Hk [?|?]; auto. Qed.

(** Leaving the pass with [q'] unread, after one last event. *)
Lemma pass_stop carry ev q' x x1 :
  published x1 = published x -> to_client (door x1) = to_client (door x) ->
  request_done x1 = request_done x -> bytes_written x1 = bytes_written x -> door x1 = door x ->
  ends_request ev = false -> request_chunks (request_done x) [ev] = [] -> response_chunks [ev] = [] ->
  body_chunk ev = None -> deferred (request_done x) [ev] = [] -> (sound_end x -> sound_end x1) ->
  Pass carry (ev :: q') x (set_door (set_queue (carry ++ q') (door x1)) x1) Finished [ev] [] q' [].
Proof using Type.
  intros Hup Hdown Hdone Hcount Hdoor He Hrq Hrs Hb Hdf Hs.
  apply (pass_cons carry carry ev q' x x1).
  - by rewrite Hrq, app_nil_r.
  - by rewrite Hrs, app_nil_r.
  - by rewrite He, orb_false_r.
  - rewrite Hrs, Hcount. unfold size. simpl. lia.
  - by rewrite Hb.
  - by rewrite Hdoor.
  - by rewrite Hdf, app_nil_r.
  - done.
  - apply pass_nil; try done; [by rewrite app_nil_r|by left].
Qed.

Definition passed (carry q : list Event) (x : Exchange) (r : Exchange * Status) : Prop :=
  exists seen skipped rest tail, Pass carry q x (fst r) (snd r) seen skipped rest tail.

Lemma passed_defer carry ev q x r :
  defers (request_done x) ev = true -> passed (carry ++ [ev]) q x r -> passed carry (ev :: q) x r.
Proof using Type.
  intros Hd (seen & skipped & rest & tail & Hp). exists (ev :: seen), skipped, rest, tail.
  assert (request_chunks (request_done x) [ev] = [] /\ response_chunks [ev] = [] /\
    request_done x = request_done x || ends_request ev /\ body_chunk ev = None) as (H1 & H2 & H3 & H4).
  { destruct (request_done x), ev as [|[]|[]|[]| | |]; simpl in *; done. }
  eapply pass_cons; [..|exact Hp]; try done.
  - by rewrite H1, app_nil_r.
  - by rewrite H2, app_nil_r.
  - rewrite H2. unfold size. simpl. lia.
  - simpl. by rewrite Hd.
Qed.

Lemma passed_publish carry ev q x raw :
  request_done x = false -> request_chunks false [ev] = [raw] -> ends_request ev = false ->
  response_chunks [ev] = [] -> body_chunk ev = None -> deferred false [ev] = [] ->
  (forall y, passed carry q y (process carry q y)) ->
  passed carry (ev :: q) x (try_publish raw x (process carry q)).
Proof using Type.
  intros Hd Hc He Hr Hb Hdf IH. unfold try_publish. destruct (put_ok _).
  - destruct (IH (publish raw x)) as (seen & skipped & rest & tail & Hp). exists (ev :: seen), skipped, rest, tail.
    eapply (pass_cons carry carry _ _ _ (publish raw x)); [..|exact Hp];
      rewrite ?Hd, ?Hc, ?He, ?Hr, ?Hb, ?Hdf, ?app_nil_r; try done.
    unfold size. simpl. lia.
  - exists [], [], (ev :: q), []. apply pass_nil; try done; [by rewrite app_nil_r|by left].
Qed.

(** [x1]: the flags may have changed before the write. *)
Lemma passed_write carry ev q x x1 raw :
  published x1 = published x -> door x1 = door x -> request_done x1 = request_done x ->
  bytes_written x1 = bytes_written x -> (sound_end x -> sound_end x1) ->
  response_chunks [ev] = [raw] -> ends_request ev = false -> request_chunks (request_done x) [ev] = [] ->
  deferred (request_done x) [ev] = [] -> (body_chunk ev <> None -> over_cap raw x = false) ->
  (forall y, passed carry q y (process carry q y)) ->
  passed carry (ev :: q) x (try_write raw x1 (process carry q)).
Proof using Type.
  intros Hup Hdoor Hd Hct Hs Hr He Hrq Hdf Hcap IH. unfold try_write. rewrite Hdoor.
  destruct (next_cut (door x)) as [n|].
  { exists [], [], (ev :: q), [take n raw]. apply pass_nil; simpl; rewrite ?Hdoor; try done. right. split; [done|].
    exists ev, q, raw, n. split_and!; [done| |done]. unfold response_chunks in Hr. simpl in Hr.
    destruct (response_chunk ev) as [c|]; [by injection Hr as ->|done]. }
  destruct (IH (write_response raw x1)) as (seen & skipped & rest & tail & Hp). exists (ev :: seen), skipped, rest, tail.
  eapply (pass_cons carry carry _ _ _ (write_response raw x1)); [..|exact Hp];
    rewrite ?Hrq, ?Hr, ?He, ?Hdf, ?app_nil_r, ?orb_false_r;
    cbn [write_response published door to_client write_client request_done bytes_written framed];
    rewrite ?Hup, ?Hdoor, ?Hct, ?Hd; try done.
  - rewrite size_cons. unfold size. simpl. lia.
  - intros Hb. specialize (Hcap Hb). unfold over_cap in Hcap. apply N.ltb_ge in Hcap. lia.
Qed.

Lemma passed_body carry ev q x raw :
  response_chunks [ev] = [raw] -> ends_request ev = false ->
  request_chunks (request_done x) [ev] = [] -> deferred (request_done x) [ev] = [] ->
  (forall y, passed carry q y (process carry q y)) ->
  passed carry (ev :: q) x
    (if over_cap raw x
     then (set_door (set_queue (carry ++ q) (door (end_with Truncated x))) (end_with Truncated x), Finished)
     else try_write raw x (process carry q)).
Proof using Type.
  intros Hr He Hrq Hdf IH. destruct (over_cap raw x) eqn:Eo; [|by apply passed_write].
  exists [], [ev], q, []. apply pass_nil; try done; [by rewrite app_nil_r|by left|]. intros _. by right.
Qed.

Lemma process_spec q carry x : passed carry q x (process carry q x).
Proof using Type.
  revert carry x. induction q as [|ev q IH]; intros carry x.
  { exists [], [], [], []. apply pass_nil; try done; [by rewrite app_nil_r|by left|by rewrite app_nil_r]. }
  destruct ev as [h|[] raw|[] raw|[]|rh| |]; cbn [process].
  - by apply passed_defer.
  - destruct (request_done x) eqn:Ed; [by apply passed_defer; rewrite ?Ed|by apply passed_publish].
  - by apply passed_body.
  - destruct (request_done x) eqn:Ed; [by apply passed_defer; rewrite ?Ed|by apply passed_publish].
  - by apply passed_body.
  - destruct (request_done x) eqn:Ed; [by apply passed_defer; rewrite ?Ed|].
    destruct (IH carry (set_flags true (response_done x) (switched x) (keep_alive x) x)) as (seen & skipped & rest & tail & Hp).
    exists (EndEv Initiator :: seen), skipped, rest, tail.
    eapply pass_cons; [..|exact Hp]; simpl; rewrite ?Ed, ?app_nil_r; try done. unfold size. simpl. lia.
  - exists [EndEv Responder], [], q, [].
    by apply (pass_stop carry _ q x (set_flags (request_done x) true (switched x) (keep_alive x) x)).
  - apply passed_write; try done. apply sound_end_keep; [done|]. simpl. by intros ->.
  - exists [SwitchProtocols], [], q, [].
    by apply (pass_stop carry _ q x (set_flags (request_done x) (response_done x) true (keep_alive x) x)).
  - by apply passed_defer.
Qed.

(** ** Over a whole exchange *)
Section ExchangeRun.
Context (head : RequestHead) (d0 : Door).

(** The request up to [seen]; when the put of its head fails, that is all there is. *)
Definition request_sent (x : Exchange) (st : Status) (seen : list Event) : Prop :=
  put_ok 0 = true /\ published x = head_raw head :: request_chunks false seen \/
  put_ok 0 = false /\ st = Failed /\ published x = [].

(** Between turns: [seen] has been acted on, [more] waits to be. *)
Record Between (x : Exchange) (seen more : list Event) : Prop := {
  bt_framed : exists new, framed (door x) = framed d0 ++ new /\ queue d0 ++ new = seen ++ more;
  bt_put : put_ok 0 = true;
  bt_up : published x = head_raw head :: request_chunks false seen;
  bt_down : to_client (door x) = to_client d0 ++ response_chunks seen;
  bt_done : request_done x = done_after false seen;
  bt_count : bytes_written x = size (response_chunks seen);
  bt_cap : (size (omap body_chunk seen) <= max_response_size config)%N;
  bt_cap_count : (size (omap body_chunk seen) <= bytes_written x)%N;
  bt_queue : queue (door x) = deferred false seen ++ more;
  bt_end : sound_end x;
}.

(** At an end: an error page may have been written, or a part of one, but only alone, or a
    part of the chunk whose write failed. *)
Record Ended (x : Exchange) (st : Status) (seen skipped rest : list Event) (page : list bytes) : Prop := {
  en_framed : exists new, framed (door x) = framed d0 ++ new /\ queue d0 ++ new = seen ++ skipped ++ rest;
  en_up : request_sent x st seen;
  en_down : to_client (door x) = to_client d0 ++ response_chunks seen ++ page;
  en_cap : (size (omap body_chunk seen) <= max_response_size config)%N;
  en_page : page = [] \/ length page = 1 /\ concat (response_chunks seen) = [] /\ keep_alive x = false \/
    cut_write st (skipped ++ rest) page;
  en_queue : st <> Failed -> queue (door x) = deferred false seen ++ rest;
  en_skipped : skipped <> [] -> ending x = Truncated;
  en_end : sound_end x;
}.

Definition exchange_inv (s : Exchange * Status) : Prop :=
  match s with
  | (x, Waiting) => exists seen, Between x seen []
  | (x, st) => exists seen skipped rest page, Ended x st seen skipped rest page
  end.

(** The parser frames more. *)
Lemma between_drain x seen more d p l :
  Between x seen more -> d = with_parser p l (door x) -> exists more', Between (set_door (drain_events d) x) seen more'.
Proof using Type.
  intros [[new [Hf Hn]]] ->. unfold drain_events.
  destruct (drain (S (events (d_parser (with_parser p l (door x))))) _) as [evs q]. exists (more ++ evs). constructor; simpl; try done.
  - exists (new ++ evs). rewrite Hf, <- app_assoc. split; [done|]. by rewrite app_assoc, Hn, <- app_assoc.
  - by rewrite bt_queue0, <- app_assoc.
Qed.

Lemma between_offer_client b x seen more :
  Between x seen more -> exists more', Between (set_door (offer_client b (door x)) x) seen more'.
Proof using Type.
  intros Hb. unfold offer_client. destruct (feed_all _ _ _) as [p l]. by eapply between_drain.
Qed.

Lemma between_client_ends x seen more :
  Between x seen more -> exists more', Between (set_door (client_ends (door x)) x) seen more'.
Proof using Type.
  intros [[new [Hf Hn]]]. unfold client_ends, drain_events.
  destruct (drain (S (events (d_parser (set_eof (door x))))) _) as [evs q]. exists (more ++ evs). constructor; simpl; try done.
  - exists (new ++ evs). rewrite Hf, <- app_assoc. split; [done|]. by rewrite app_assoc, Hn, <- app_assoc.
  - by rewrite bt_queue0, <- app_assoc.
Qed.

Lemma between_set_resp b x seen more : Between x seen more -> Between (set_resp b x) seen more.
Proof using Type. by intros []. Qed.

Lemma between_offer_response b x seen more :
  Between x seen more -> exists more', Between (offer_response b x) seen more'.
Proof using Type.
  intros Hb. unfold offer_response. destruct (feed_all _ _ _) as [p l].
  edestruct (between_drain x seen more) as [more' Hb']; [exact Hb|reflexivity|].
  exists more'. by apply between_set_resp.
Qed.

Lemma between_response_ends x seen more :
  Between x seen more -> exists more', Between (response_ends x) seen more'.
Proof using Type. intros Hb. unfold response_ends. by eapply between_drain. Qed.

(** The event pass, from one turn to the next. *)
Lemma between_process x seen more x' st :
  Between x seen more -> process [] (queue (door x)) x = (x', st) -> exchange_inv (x', st).
Proof using Type.
  intros [[new [Hf Hn]]] Hp. rewrite bt_queue0, process_deferred in Hp
    by (rewrite bt_done0; apply deferred_defers).
  pose proof (process_spec more ([] ++ deferred false seen) x) as (sn & sk & rs & tl & HP).
  rewrite Hp in HP. simpl in HP. destruct HP.
  assert (published x' = head_raw head :: request_chunks false (seen ++ sn)) as Hup.
  { by rewrite pass_up0, bt_up0, bt_done0, request_chunks_app. }
  assert (to_client (door x') = to_client d0 ++ response_chunks (seen ++ sn) ++ tl) as Hdn.
  { rewrite pass_down0, bt_down0, <- !app_assoc. unfold response_chunks. by rewrite omap_app, <- app_assoc. }
  assert (exists new, framed (door x') = framed d0 ++ new /\ queue d0 ++ new = (seen ++ sn) ++ sk ++ rs) as Hfr.
  { exists new. rewrite pass_framed0, Hf. split; [done|]. by rewrite Hn, pass_split0, <- !app_assoc. }
  assert (st <> Failed -> queue (door x') = deferred false (seen ++ sn) ++ rs) as Hq.
  { intros Hst. by rewrite (pass_queue0 Hst), deferred_app, bt_done0, <- app_assoc. }
  destruct (pass_cap0 (size (omap body_chunk seen))) as [Hc1 Hc2]; [done|done|].
  rewrite <- size_app, <- omap_app in Hc1, Hc2.
  assert (st <> Waiting -> exists seen skipped rest page, Ended x' st seen skipped rest page) as Hend.
  { intros _. exists (seen ++ sn), sk, rs, tl. constructor; try done; [by left| |by apply pass_end0].
    destruct pass_tail0; auto. }
  destruct st; simpl; [|by apply Hend..]. destruct (pass_waiting0 eq_refl) as [-> ->].
  assert (tl = []) as -> by (by destruct pass_tail0 as [|[? _]]). rewrite app_nil_r in Hdn.
  exists (seen ++ sn). constructor; try done; [| | |by apply pass_end0].
  - by rewrite pass_done0, bt_done0, done_after_app.
  - rewrite pass_count0, bt_count0. unfold response_chunks. by rewrite omap_app, size_app.
  - by rewrite Hq.
Qed.

(** Leaving from the [select!] or on a framing violation. *)
Lemma between_exit x seen e page :
  Between x seen [] -> page = None \/ (exists p, page = Some p) ->
  exchange_inv (end_with e (match page with Some p => error_page p x | None => x end), Finished).
Proof using Type.
  intros [[new [Hf Hn]]] _. assert (forall x1, door x1 = door x -> published x1 = published x ->
    Ended (end_with e x1) Finished seen [] [] []) as Hno.
  { intros x1 Hd Hu. constructor; unfold request_sent; simpl; rewrite ?Hd, ?Hu; try done; [by exists new|by left|by rewrite app_nil_r|by left|by right]. }
  destruct page as [p|]; [|by exists seen, [], [], []; apply Hno].
  unfold error_page. case_decide as Hz; [|by exists seen, [], [], []; apply Hno].
  exists seen, [], [], [written (next_cut (door x)) p]. constructor; simpl; try done.
  - by exists new.
  - by left.
  - by rewrite bt_down0, <- app_assoc.
  - right; left. rewrite bt_count0 in Hz. unfold size in Hz. split_and!; [done| |done].
    by destruct (concat (response_chunks seen)).
  - by right.
Qed.

Lemma between_turn host x seen more : Between x seen more -> exchange_inv (turn host x).
Proof using Type.
  intros Hb. unfold turn.
  assert (exists more, Between (if bool_decide (leftover (door x) = []) then x
            else set_door (offer_client (leftover (door x)) (door x)) x) seen more) as [m1 H1].
  { case_bool_decide; [eauto|]. eapply between_offer_client; eauto. }
  revert H1. generalize (if bool_decide (leftover (door x) = []) then x
            else set_door (offer_client (leftover (door x)) (door x)) x). intros y Hy.
  assert (exists more, Between (if bool_decide (resp_pending y = []) then y else offer_response (resp_pending y) y) seen more)
    as [m2 H2].
  { case_bool_decide; [eauto|]. eapply between_offer_response; eauto. }
  revert H2. generalize (if bool_decide (resp_pending y = []) then y else offer_response (resp_pending y) y). intros z Hz.
  destruct (process [] (queue (door z)) z) as [x' st] eqn:Ep. apply (between_process z seen m2) in Ep; [|done].
  destruct st; [|done..]. destruct (poison _) as [why|]; [|done]. destruct Ep as [sn Hsn].
  eapply (between_exit x' sn Poisoned (Some _)); [exact Hsn|]. right. by eexists.
Qed.

Lemma exchange_inv_step host s e s' : exchange_inv s -> exchange_step host s e = Some s' -> exchange_inv s'.
Proof using Type.
  destruct s as [x []]; [|done..]. intros [seen Hb] Hs. destruct e as [r|payload| | | |]; simpl in Hs.
  - destruct (_ && _); [|done]. injection Hs as <-. destruct r as [[|c chunk]|].
    + edestruct between_client_ends as [? ?]; [exact Hb|]. by eapply between_turn.
    + edestruct (between_offer_client (c :: chunk)) as [? ?]; [exact Hb|]. by eapply between_turn.
    + exists seen, [], [], []. destruct Hb. constructor; try done; [by left|by rewrite app_nil_r|by left].
  - destruct payload as [|c payload]; injection Hs as <-.
    + edestruct between_response_ends as [? ?]; [exact Hb|]. by eapply between_turn.
    + edestruct (between_offer_response (c :: payload)) as [? ?]; [exact Hb|]. by eapply between_turn.
  - injection Hs as <-. eapply (between_exit x seen BackendGone (Some _)); [done|]. right. by eexists.
  - injection Hs as <-. eapply (between_exit x seen Timeout (Some _)); [done|]. right. by eexists.
  - injection Hs as <-. eapply (between_exit x seen Overflow None); [done|]. by left.
  - injection Hs as <-. eapply (between_exit x seen Drained None); [done|]. by left.
Qed.

Lemma exchange_inv_start host : exchange_inv (exchange_start host head d0).
Proof using Type.
  unfold exchange_start, try_publish. simpl.
  destruct (put_ok 0) eqn:E.
  - apply (between_turn _ _ [] (queue d0)). constructor; simpl; try done.
    + exists []. by rewrite !app_nil_r.
    + by rewrite app_nil_r.
    + unfold size. simpl. lia.
    + by left.
  - exists [], [], (queue d0), []. constructor; simpl; try done.
    + exists []. by rewrite !app_nil_r.
    + by right.
    + by rewrite app_nil_r.
    + unfold size. simpl. lia.
    + by left.
    + by left.
Qed.

Lemma exchange_run_ended host evs x st :
  run (exchange_step host) (exchange_start host head d0) evs = Some (x, st) ->
  exists seen skipped rest page, Ended x st seen skipped rest page /\
    (st = Waiting -> skipped = [] /\ rest = [] /\ page = []).
Proof using Type.
  intros Hr. assert (exchange_inv (x, st)) as Hi.
  { refine (run_invariant (exchange_step host) exchange_inv _ (exchange_inv_start host) _ evs _ Hr).
    intros ???. apply exchange_inv_step. }
  destruct st; [|destruct Hi as (seen & skipped & rest & page & He); by exists seen, skipped, rest, page..].
  destruct Hi as [seen []]. exists seen, [], [], []. split; [|done]. constructor; try done.
  - by left.
  - by rewrite app_nil_r.
  - by left.
Qed.
End ExchangeRun.

(** ** Over a whole connection *)

(** A served request: its key is that of its own head, which is the first thing its exchange
    published; and the route is the key's backend, if that is alive. *)
Definition served_ok (s : Served) : Prop :=
  routing_key_from_head (s_head s) = Ok (s_key s) /\ routable (s_key s) /\
  (s_sent s = [] \/ exists more, s_sent s = head_raw (s_head s) :: more) /\
  match s_route s with
  | Some k => k = s_key s /\ alive (r_probe (s_env s) (host_available_key service_name k))
  | None => alive (r_probe (s_env s) (default_available_key service_name)) /\
      ~ alive (r_probe (s_env s) (host_available_key service_name (s_key s)))
  end.

(** The request heads among some events. *)
Definition head_event (ev : Event) : option RequestHead := match ev with RequestHeadEv h => Some h | _ => None end.

Definition heads (evs : list Event) : list RequestHead := omap head_event evs.

(** From one request to the next, the heads that wait are among those that waited or were
    framed since, in order; [hs] were taken. *)
Definition advances (hs : list RequestHead) (d d' : Door) : Prop :=
  exists new, framed d' = framed d ++ new /\ hs ++ heads (queue d') `sublist_of` heads (queue d ++ new).

Lemma heads_app a b : heads (a ++ b) = heads a ++ heads b.
Proof using Type. apply omap_app. Qed.

Lemma advances_refl d : advances [] d d.
Proof using Type. exists []. by rewrite !app_nil_r. Qed.

Lemma advances_trans hs hs' d d1 d2 : advances hs d d1 -> advances hs' d1 d2 -> advances (hs ++ hs') d d2.
Proof using Type.
  intros (n1 & F1 & S1) (n2 & F2 & S2). exists (n1 ++ n2). split; [by rewrite F2, F1, app_assoc|].
  rewrite app_assoc, heads_app, <- app_assoc. etrans; [|apply sublist_app; [exact S1|reflexivity]].
  rewrite <- app_assoc. apply sublist_app; [done|]. by rewrite <- heads_app.
Qed.

Lemma advances_frame hs d d' : framed d' = framed d -> hs ++ heads (queue d') `sublist_of` heads (queue d) -> advances hs d d'.
Proof using Type. intros Hf Hs. exists []. by rewrite Hf, !app_nil_r. Qed.

Lemma advances_drain d : advances [] d (drain_events d).
Proof using Type.
  unfold drain_events. destruct (drain _ _) as [evs p]. exists evs. by split.
Qed.

Lemma advances_offer_client b d : advances [] d (offer_client b d).
Proof using Type.
  unfold offer_client. destruct (feed_all _ _ _) as [p l].
  apply (advances_trans [] [] d (with_parser p l d)); [by apply advances_frame|apply advances_drain].
Qed.

Lemma advances_client_ends d : advances [] d (client_ends d).
Proof using Type. apply (advances_trans [] [] d (set_eof d)); [by apply advances_frame|apply advances_drain]. Qed.

Lemma pop_head_heads q h q' : pop_head q = (h, q') -> option_list h ++ heads q' = heads q.
Proof using Type.
  induction q as [|ev q IH]; simpl; [by intros [= <- <-]|]. destruct ev; try exact IH. by intros [= <- <-].
Qed.

Lemma skip_body_heads q over q' : skip_body q = (over, q') -> heads q' = heads q.
Proof using Type.
  induction q as [|ev q IH]; simpl; [by intros [= <- <-]|].
  destruct ev as [h|[] raw|[] raw|[]|rh| |]; try exact IH; by intros [= <- <-].
Qed.

Definition next_heads (n : NextRequest) : list RequestHead := match n with NextHead h => [h] | _ => [] end.

Lemma next_request_advances fuel first reads d n d' :
  next_request_head fuel first reads d = Some (n, d') -> advances (next_heads n) d d'.
Proof using Type.
  revert first reads d. induction fuel as [|fuel IH]; intros first reads d; simpl; [done|].
  destruct (pop_head (queue d)) as [h q] eqn:Ep. apply pop_head_heads in Ep.
  assert (advances (option_list h) d (set_queue q d)) as Hq by (apply advances_frame; [done|by rewrite <- Ep]).
  destruct h as [h|]; [by intros [= <- <-]|]. simpl in Hq.
  assert (forall d1, advances [] d d1 -> next_request_head fuel first reads d1 = Some (n, d') -> advances (next_heads n) d d') as Hgo.
  { intros d1 H1 H2%IH. by apply (advances_trans [] _ d d1). }
  destruct (client_eof d); [by intros [= <- <-]|].
  destruct (is_tunnelled _); [by intros [= <- <-]|].
  assert (forall b, advances [] d (offer_client b (set_queue q d))) as Ho
    by (intros b; apply (advances_trans [] [] d (set_queue q d)); [done|apply advances_offer_client]).
  assert (forall b reads, match malformed (offer_client b (set_queue q d)) with
     | Some m => Some (m, offer_client b (set_queue q d))
     | None => next_request_head fuel first reads (offer_client b (set_queue q d))
     end = Some (n, d') -> advances (next_heads n) d d') as Hoffer.
  { intros b reads'. unfold malformed. destruct (poison _) as [why|]; [intros [= <- <-]; apply Ho|].
    intros H2%IH. by eapply (advances_trans []), H2. }
  destruct (negb _); [apply Hoffer|]. destruct reads as [|[[|c chunk]| |] reads]; [done| | | |].
  - intros H2%IH. apply (advances_trans [] _ d (client_ends (set_queue q d))); [|done].
    apply (advances_trans [] [] d (set_queue q d)); [done|apply advances_client_ends].
  - apply Hoffer.
  - intros [= <- <-]. by destruct first.
  - by intros [= <- <-].
Qed.

Lemma consume_advances fuel reads d d' : consume_request_body fuel reads d = Some d' -> advances [] d d'.
Proof using Type.
  revert reads d. induction fuel as [|fuel IH]; intros reads d; simpl; [done|].
  set (e := if bool_decide (leftover d = []) then d else offer_client (leftover d) d).
  assert (advances [] d e) as He by (unfold e; case_bool_decide; [apply advances_refl|apply advances_offer_client]).
  destruct (_ && _); [by intros [= <-]|]. destruct (skip_body (queue e)) as [over q] eqn:Eq. apply skip_body_heads in Eq.
  assert (advances [] d (set_queue q e)) as Hq.
  { apply (advances_trans [] [] d e); [done|]. apply advances_frame; [done|]. simpl. by rewrite Eq. }
  assert (forall d1 reads, advances [] (set_queue q e) d1 -> consume_request_body fuel reads d1 = Some d' -> advances [] d d') as Hgo.
  { intros d1 reads' H1 H2%IH. apply (advances_trans [] [] d d1); [|done]. by apply (advances_trans [] [] d (set_queue q e)). }
  destruct (_ || _); [by intros [= <-]|]. destruct (negb _); [apply Hgo, advances_refl|].
  destruct reads as [|[[|c chunk]| |] reads]; [done| | |by intros [= <-]..].
  - apply Hgo, advances_client_ends.
  - destruct (stuck _); [|apply Hgo, advances_offer_client]. intros [= <-].
    apply (advances_trans [] [] d (set_queue q e)); [done|apply advances_offer_client].
Qed.

Lemma write_page_advances page d : advances [] d (write_page page d).
Proof using Type. by apply advances_frame. Qed.

Lemma heads_deferred over evs : heads (deferred over evs) = heads evs.
Proof using Type.
  revert over. induction evs as [|ev evs IH]; intros over; simpl; [done|].
  destruct ev as [h|[] raw|[] raw|[]|rh| |], over; simpl; unfold heads in *; simpl; by rewrite ?IH.
Qed.

Definition clean (o : ExchangeOutcome) : Prop :=
  match o with ExchangeCompleted _ e => e = EndOk | ExchangeSwitched => True | ExchangeFailed => False end.

Definition keeps (o : ExchangeOutcome) : Prop := exists e, o = ExchangeCompleted true e.

(** One exchange on the door: how it may end, what it published first, and which heads it
    leaves for the next. *)
Record exchanged (head : RequestHead) (d : Door) (o : ExchangeOutcome) (sent : list bytes) (d' : Door) : Prop := {
  ed_keep : match o with ExchangeCompleted keep e => keep = true -> e = EndOk | _ => True end;
  ed_sent : sent = [] \/ exists more, sent = head_raw head :: more;
  ed_framed : exists new, framed d' = framed d ++ new;
  ed_heads : match o with ExchangeCompleted _ _ => advances [] d d' | _ => True end;
}.

Lemma try_publishes_door up k x :
  (forall x, framed (door (fst (k x))) = framed (door x) /\ published x `prefix_of` published (fst (k x))) ->
  framed (door (fst (foldr (fun c k x => try_publish c x k) k up x))) = framed (door x) /\
  published x `prefix_of` published (fst (foldr (fun c k x => try_publish c x k) k up x)).
Proof using Type.
  intros Hk. revert x. induction up as [|c up IH]; intros x; simpl; [apply Hk|]. unfold try_publish at 1 3.
  destruct (put_ok _); [|done]. destruct (IH (publish c x)) as [E P]. split; [by rewrite E|].
  etrans; [|exact P]. by apply prefix_app_r.
Qed.

Lemma try_splice_downs_door down x :
  framed (door (fst (foldr (fun c k x => try_splice_down c x k) (fun x => (x, Waiting)) down x))) = framed (door x) /\
  published (fst (foldr (fun c k x => try_splice_down c x k) (fun x => (x, Waiting)) down x)) = published x.
Proof using Type.
  revert x. induction down as [|c down IH]; intros x; simpl; [done|]. unfold try_splice_down at 1 3.
  destruct (next_cut _); [done|]. destruct (IH (splice_down c x)) as [E P]. by rewrite E, P.
Qed.

Lemma splice_first_door x :
  framed (door (fst (splice_first x))) = framed (door x) /\ published x `prefix_of` published (fst (splice_first x)).
Proof using Type.
  unfold splice_first. destruct (take_tunnel_residue Initiator _) as [up1 p]. destruct (take_tunnel_residue Responder p) as [down1 p'].
  match goal with |- context [foldr _ ?k ?up ?x0] => destruct (try_publishes_door up k x0) as [E P]; [|by rewrite E] end.
  intros y. destruct (try_splice_downs_door (List.filter (fun c => negb (bool_decide (c = []))) [down1; resp_pending x]) y) as [-> ->].
  done.
Qed.

Lemma splice_door evs x x' : splice evs x = Some x' -> framed (door x') = framed (door x) /\ published x `prefix_of` published x'.
Proof using Type.
  revert x. induction evs as [|ev evs IH]; intros x; simpl; [done|].
  assert (framed (door (fst (splice_step ev x))) = framed (door x) /\ published x `prefix_of` published (fst (splice_step ev x))) as [E P].
  { destruct ev as [[[|]|] []|[[|]|] []|]; simpl; split; try done. by apply prefix_app_r. }
  destruct (splice_step ev x) as [y []]; simpl in *; [|by intros [= <-]].
  intros [E' P']%IH. split; [by rewrite E'|by etrans].
Qed.

Lemma run_exchange_door host head d evs sevs o x :
  run_exchange host head d evs sevs = Some (o, x) -> exchanged head d o (published x) (door x).
Proof using Type.
  unfold run_exchange. intros Hr. apply bind_Some in Hr as ([y st] & Hrun & Hr).
  apply exchange_run_ended in Hrun as (seen & skipped & rest & page & [] & _). destruct en_framed0 as (new & Hf & Hn).
  assert (forall l, published y `prefix_of` l -> st = Finished -> l = [] \/ exists more, l = head_raw head :: more) as Hsent.
  { intros l [k ->] ->. destruct en_up0 as [[_ ->]|(_ & [=] & _)]. right. by eexists. }
  destruct st; [done| |injection Hr as <- <-; split; [done| |by exists new|done]].
  2:{ destruct en_up0 as [[_ ->]|(_ & _ & ->)]; [right; by eexists|by left]. }
  destruct (switched y).
  - destruct (splice_first_door y) as [Ef Ep]. destruct (splice_first y) as [z st']. simpl in Ef, Ep.
    assert (framed (door z) = framed d ++ new) as Hz by (by rewrite Ef).
    destruct st'; [|injection Hr as <- <-; split; [done|by apply Hsent|by exists new|done]..].
    apply bind_Some in Hr as (w & Hw & [= <- <-]). apply splice_door in Hw as [Ew Pw]. unfold tear_down.
    split; [done| |exists new; destruct (put_ok _); simpl; congruence|done].
    apply Hsent; [|done]. etrans; [exact Ep|]. etrans; [exact Pw|]. destruct (put_ok _); [by apply prefix_app_r|done].
  - injection Hr as <- <-. assert (door (tear_down y) = door y) as -> by (unfold tear_down; by destruct (put_ok _)). split.
    + intros [[Hk _]%andb_prop _]%andb_prop. destruct en_end0; [done|congruence].
    + apply Hsent; [|done]. unfold tear_down. destruct (put_ok _); [by apply prefix_app_r|done].
    + by exists new.
    + exists new. split; [done|]. rewrite (en_queue0 ltac:(done)), Hn, !heads_app, heads_deferred. simpl.
      apply sublist_app; [done|]. by apply sublist_inserts_l.
Qed.

(** The log: every entry routed soundly, all but the last kept the connection, and
    the outcome says whether the last ended cleanly. *)
Definition log_ok (o : ConnOutcome) (log : list Served) : Prop :=
  Forall served_ok log /\
  (forall pre s post, log = pre ++ s :: post -> post <> [] -> keeps (s_end s) /\ clean (s_end s)) /\
  (o = ConnCompleted -> Forall (fun s => clean (s_end s)) log).

Lemma log_ok_cons o s log :
  served_ok s -> keeps (s_end s) -> clean (s_end s) -> log_ok o log -> log_ok o (s :: log).
Proof using Type.
  intros Hs Hk Hc (Hf & Ho & Hl). split_and!; [by constructor| |by constructor; auto].
  intros [|s0 pre] s' post; simpl; [by intros [= <- _]|]. intros [= <- E] Hne. by eapply Ho.
Qed.

Lemma log_ok_last o s : served_ok s -> (o = ConnCompleted -> clean (s_end s)) -> log_ok o [s].
Proof using Type.
  intros Hs Hc. split_and!; [by constructor| |intros ->; constructor; auto].
  intros [|s0 [|]] s' post; simpl; [by intros [= _ <-]|done..].
Qed.

Lemma log_ok_nil o : log_ok o [].
Proof using Type. split_and!; [done| |done]. by intros [|]. Qed.

(** The heads that were served are among those framed, in order. *)
Definition heads_served (log : list Served) (d d' : Door) : Prop :=
  exists new, framed d' = framed d ++ new /\ (s_head <$> log) `sublist_of` heads (queue d ++ new).

Lemma heads_after hs d d1 log d' :
  advances hs d d1 -> heads_served log d1 d' ->
  exists new, framed d' = framed d ++ new /\ hs ++ (s_head <$> log) `sublist_of` heads (queue d ++ new).
Proof using Type.
  intros (n1 & F1 & S1) (n2 & F2 & S2). exists (n1 ++ n2). split; [by rewrite F2, F1, app_assoc|].
  rewrite app_assoc, heads_app. rewrite heads_app in S2. etrans; [apply sublist_app; [reflexivity|exact S2]|].
  rewrite app_assoc. by apply sublist_app.
Qed.

Lemma heads_framed d d' : (exists new, framed d' = framed d ++ new) -> heads_served [] d d'.
Proof using Type. intros [new Hf]. exists new. split; [done|]. apply sublist_nil_l. Qed.

Definition connection_ok (d : Door) (r : ConnOutcome * list Served * Door) : Prop :=
  log_ok (fst (fst r)) (snd (fst r)) /\ heads_served (snd (fst r)) d (snd r).

Lemma after_exchange_ok s outcome d0 d1 d continue r :
  served_ok s -> advances [s_head s] d0 d1 -> exchanged (s_head s) d1 (s_end s) (s_sent s) d ->
  (forall o r, continue o d = Some r -> connection_ok d r) ->
  after_exchange s outcome d continue = Some r -> connection_ok d0 r.
Proof using Type.
  intros Hok Ha [] Hc Hr. unfold after_exchange in Hr.
  assert (heads_served [s] d0 d) as Hlast.
  { destruct (heads_after [s_head s] d0 d1 [] d Ha) as (new & Hf & Hs); [by apply heads_framed|]. by exists new. }
  destruct (s_end s) as [keep e| |] eqn:Es.
  - destruct (negb keep || is_done (d_parser d)) eqn:Ek.
    + injection Hr as <-. split; [|done]. apply log_ok_last; [done|]. rewrite Es. by destruct e.
    + apply bind_Some in Hr as ([[o log] d'] & Hrec & [= <-]). apply Hc in Hrec as [Hl Hh]. simpl in *.
      apply orb_false_iff in Ek as [Hkp _]. destruct keep; [|done]. specialize (ed_keep0 eq_refl) as ->. split.
      * apply log_ok_cons; [done| | |done]; rewrite Es; [by exists EndOk|done].
      * destruct (heads_after [s_head s] d0 d log d' (advances_trans [s_head s] [] d0 d1 d Ha ed_heads0) Hh) as (new & Hf & Hs).
        by exists new.
  - injection Hr as <-. split; [|done]. apply log_ok_last; [done|]. by rewrite Es.
  - injection Hr as <-. split; [|done]. by apply log_ok_last.
Qed.

Lemma serve_request_exchanged env key head d o sent d' :
  serve_request env key head d = Some (o, sent, d') -> exchanged head d o sent d'.
Proof using Type.
  unfold serve_request. destruct (setup_ok env).
  - intros Hx0. apply bind_Some in Hx0 as ([o' x] & Hx & [= <- <- <-]). by eapply run_exchange_door.
  - intros [= <- <- <-]. split; [done|by left|exists []; by rewrite app_nil_r|done].
Qed.

Lemma connection_ok_nil hs o d d' : advances hs d d' -> connection_ok d (o, [], d').
Proof using Type. intros (new & Hf & _). split; [apply log_ok_nil|]. apply heads_framed. by exists new. Qed.

Lemma connection_ok_after hs d d1 r : advances hs d d1 -> connection_ok d1 r -> connection_ok d r.
Proof using Type.
  intros Ha [Hl Hh]. split; [done|]. destruct (heads_after hs d d1 _ _ Ha Hh) as (new & Hf & Hs). exists new.
  split; [done|]. etrans; [by apply sublist_inserts_l|exact Hs].
Qed.

Lemma handle_multiroute_ok fuel first o envs d r :
  handle_multiroute fuel first o envs d = Some r -> connection_ok d r.
Proof using Type.
  revert first o d r. induction envs as [|env envs IH]; intros first o d r Hh; simpl in Hh; [done|].
  apply bind_Some in Hh as ([next d1] & Hn & Hh). apply next_request_advances in Hn.
  destruct next as [head| |fault why]; simpl in Hn.
  2:{ injection Hh as <-. by eapply connection_ok_nil. }
  2:{ injection Hh as <-. destruct fault; [|by eapply connection_ok_nil].
      eapply connection_ok_nil, (advances_trans [] []); [exact Hn|apply write_page_advances]. }
  destruct (routing_key_from_head head) as [key|e] eqn:Ek.
  2:{ injection Hh as <-. eapply connection_ok_nil, (advances_trans [head] []); [exact Hn|apply write_page_advances]. }
  assert (routable key) as Hkey.
  { unfold routing_key_from_head in Ek. inv_guards. by eapply routing_key_routable. }
  assert (forall route, match route with
    | Some k => k = key /\ alive (r_probe env (host_available_key service_name k))
    | None => alive (r_probe env (default_available_key service_name)) /\ ~ alive (r_probe env (host_available_key service_name key))
    end -> ('(o0, sent, d) ← serve_request env key head d1;
     after_exchange {| s_head := head; s_key := key; s_route := route; s_env := env; s_sent := sent; s_end := o0 |}
       o d (fun outcome d => handle_multiroute fuel false outcome envs d)) = Some r -> connection_ok d r) as Hserve.
  { intros route Hroute Hs. apply bind_Some in Hs as ([[o0 sent] d2] & Hx%serve_request_exchanged & Hs).
    eapply after_exchange_ok in Hs; [exact Hs| |exact Hn|exact Hx|intros o1 r1; apply IH].
    split_and!; [done|done| |done]. by destruct Hx. }
  assert (forall d2, consume_request_body fuel (body_reads env) (write_page (http_502_response_keep_alive key) d1) = Some d2 ->
    handle_multiroute fuel false o envs d2 = Some r -> connection_ok d r) as Hrefuse.
  { intros d2 Hc%consume_advances Hrec%IH. eapply connection_ok_after; [|exact Hrec].
    apply (advances_trans [head] []  d d1); [done|]. eapply (advances_trans [] []); [apply write_page_advances|done]. }
  unfold request_route in Hh.
  destruct (resolve_backend _ _ _ _) as [br|] eqn:Er; [apply resolve_backend_Ok in Er; destruct br|].
  - destruct Er as (k & [= <-] & Ha). by apply (Hserve (Some key)).
  - destruct Er as [Ha Hn']. apply (Hserve None); [|done]. split; [done|by apply Hn'].
  - apply bind_Some in Hh as (d2 & Hc & Hh). by eapply Hrefuse.
  - apply bind_Some in Hh as (d2 & Hc & Hh). by eapply Hrefuse.
Qed.

(** ** The two loops between requests end *)

Section Termination.
Context {FL : FlowscopeLaws F} {HL : HttpProxyLaws F}.

Definition exhausted (p : HttpProxyParser) : Prop := next_event p = None.

Lemma drain_drained fuel p : events p < fuel -> exhausted (snd (drain fuel p)).
Proof using FL.
  revert p. induction fuel as [|fuel IH]; intros p Hlt; simpl; [lia|].
  destruct (next_event p) as [[ev p']|] eqn:E; [|done].
  pose proof (event_measure _ _ _ E). specialize (IH p' ltac:(lia)).
  by destruct (drain fuel p').
Qed.

Lemma drain_events_frame d :
  leftover (drain_events d) = leftover d /\ client_eof (drain_events d) = client_eof d /\
  exhausted (d_parser (drain_events d)).
Proof using FL.
  unfold drain_events. pose proof (drain_drained (S (events (d_parser d))) (d_parser d) ltac:(lia)).
  by destruct (drain _ _).
Qed.

Lemma drain_nothing d : exhausted (d_parser d) -> d_parser (drain_events d) = d_parser d.
Proof using Type. unfold exhausted, drain_events. simpl. by intros ->. Qed.

Lemma feed_shrinks fuel p b p' b' :
  feed Initiator fuel p b = (p', b') -> length b' <= length b /\
  (fuel <> 0 -> exhausted p -> b <> [] -> length b' < length b \/
     exhausted p' /\ (poison p' <> None \/ is_tunnelled p' = true)).
Proof using FL HL.
  revert p b. induction fuel as [|fuel IH]; intros p b; simpl; [by intros [= <- <-]|].
  case_decide; [by intros [= <- <-]|].
  pose proof (push_prefix Initiator p b) as [Hl _]. pose proof (refuses_stopped p b) as Hr.
  destruct (push Initiator p b) as [n q] eqn:E. simpl in *.
  destruct (Nat.eqb_spec n 0) as [->|Hn].
  - intros [= <- <-]. split; [done|]. intros _ Hd Hb. right. by apply Hr.
  - intros Hf. apply IH in Hf as [Hle _]. rewrite length_drop in Hle.
    split; [lia|]. intros _ _ _. left. destruct b; simpl in *; lia.
Qed.

(** A re-offer shrinks the tail, unless the parser has stopped. *)
Lemma offer_client_shrinks b d :
  let d' := offer_client b d in
  length (leftover d') <= length b /\ client_eof d' = client_eof d /\ exhausted (d_parser d') /\
  (exhausted (d_parser d) -> b <> [] -> length (leftover d') < length b \/
     (poison (d_parser d') <> None \/ is_tunnelled (d_parser d') = true)).
Proof using FL HL.
  unfold offer_client, feed_all. destruct (feed _ _ _ _) as [p l] eqn:E.
  apply feed_shrinks in E as [Hle Hd]. simpl.
  destruct (drain_events_frame (with_parser p l d)) as (Hl & He & Hdr). rewrite Hl, He. simpl.
  split_and!; [done..|]. intros Hp Hb. destruct Hd as [?|[Hq Hs]]; [by destruct b|done|done|by left|].
  right. by rewrite (drain_nothing (with_parser p l d) Hq).
Qed.

Definition read_bytes (r : HeadRead) : nat := match r with HRead chunk => S (length chunk) | _ => 1 end.

(** Reads until an error, the idle timeout or the shutdown. *)
Definition reads_end (reads : list HeadRead) : Prop := HReadFailed ∈ reads \/ HShutdown ∈ reads.

Definition turns (reads : list HeadRead) (d : Door) : nat :=
  sum_list_with read_bytes reads + length (leftover d).

(** A first re-offer may only drain the parser. *)
Definition undrained (d : Door) : nat := match next_event (d_parser d) with None => 0 | Some _ => 1 end.

Lemma undrained_drained d : exhausted (d_parser d) -> undrained d = 0.
Proof using Type. unfold exhausted, undrained. by intros ->. Qed.

Lemma reads_end_cons r reads :
  reads_end (r :: reads) -> r = HReadFailed \/ r = HShutdown \/ reads_end reads.
Proof using Type. unfold reads_end. rewrite !elem_of_cons. naive_solver. Qed.

Lemma reads_end_positive reads : reads_end reads -> 0 < sum_list_with read_bytes reads.
Proof using Type. destruct reads as [|[] reads]; simpl; [|lia..]. intros [H1|H1]; by apply not_elem_of_nil in H1. Qed.

Lemma offer_turns b reads d :
  turns reads (offer_client b d) + undrained (offer_client b d) <= sum_list_with read_bytes reads + length b.
Proof using FL HL.
  destruct (offer_client_shrinks b d) as (Hle & _ & Hdr & _). rewrite (undrained_drained _ Hdr). unfold turns. lia.
Qed.

Lemma reoffer_turns reads d :
  leftover d <> [] -> let d' := offer_client (leftover d) d in
  turns reads d' + undrained d' < turns reads d + undrained d \/
  (poison (d_parser d') <> None \/ is_tunnelled (d_parser d') = true).
Proof using FL HL.
  intros Hl d'. destruct (offer_client_shrinks (leftover d) d) as (Hle & _ & Hdr & Hs). fold d' in Hle, Hdr, Hs.
  rewrite (undrained_drained d' Hdr). unfold turns.
  destruct (next_event (d_parser d)) eqn:E; unfold undrained; rewrite E; [left; lia|].
  destruct (Hs E Hl) as [?|?]; [left; lia|by right].
Qed.

Lemma client_ends_turns reads d :
  client_eof (client_ends d) = true /\ turns reads (client_ends d) + undrained (client_ends d) = turns reads d.
Proof using FL.
  unfold client_ends. destruct (drain_events_frame (set_eof d)) as (Hl & He & Hdr).
  rewrite (undrained_drained _ Hdr). unfold turns. by rewrite Hl, He, Nat.add_0_r.
Qed.

Lemma next_head_at_end fuel first reads d :
  fuel <> 0 -> client_eof d = true \/ is_tunnelled (d_parser d) = true ->
  is_Some (next_request_head fuel first reads d).
Proof using Type.
  intros Hf He. destruct fuel as [|fuel]; [done|]. simpl. destruct (pop_head (queue d)) as [[h|] q]; [done|].
  simpl. destruct He as [-> | ->]; [done|]. by destruct (client_eof d).
Qed.

Lemma malformed_poison d : poison (d_parser d) <> None -> malformed d <> None.
Proof using Type. unfold malformed. by destruct (poison (d_parser d)). Qed.

Lemma next_request_head_returns fuel first reads d :
  reads_end reads -> turns reads d + undrained d <= fuel -> is_Some (next_request_head fuel first reads d).
Proof using FL HL.
  revert reads d. induction fuel as [|fuel IH]; intros reads d Hr Hf;
    pose proof (reads_end_positive _ Hr) as Hp; [unfold turns in Hf; lia|].
  simpl. destruct (pop_head (queue d)) as [[h|] q]; [done|].
  set (d1 := set_queue q d). change (client_eof d1) with (client_eof d). change (leftover d1) with (leftover d).
  change (turns reads d1 + undrained d1 <= S fuel) in Hf. change (d_parser d1) with (d_parser d).
  destruct (client_eof d); [done|]. destruct (is_tunnelled (d_parser d)); [done|]. simpl.
  case_bool_decide as Hl; simpl.
  - assert (sum_list_with read_bytes reads <= S fuel) as Hs by (unfold turns in Hf; lia).
    destruct reads as [|[[|b chunk]| |] reads]; [by destruct Hr as [Hn|Hn]; apply not_elem_of_nil in Hn| | |done|done];
      apply reads_end_cons in Hr as [?|[?|Hr]]; try done; pose proof (reads_end_positive _ Hr); simpl in Hs.
    + apply next_head_at_end; [lia|]. left. apply (client_ends_turns reads).
    + destruct (malformed _); [done|]. apply IH; [done|]. etransitivity; [apply offer_turns|]. simpl. lia.
  - destruct (reoffer_turns reads d1 Hl) as [Hlt|[Hs|Hs]]; change (leftover d1) with (leftover d) in *.
    + destruct (malformed _); [done|]. apply IH; [done|]. lia.
    + apply malformed_poison in Hs. by destruct (malformed _).
    + destruct (malformed _); [done|]. apply next_head_at_end; [|by right].
      assert (length (leftover d) <> 0) by by destruct (leftover d). unfold turns in Hf.
      change (leftover d1) with (leftover d) in Hf. lia.
Qed.

Lemma consume_at_end fuel reads d :
  fuel <> 0 -> client_eof d = true -> is_Some (consume_request_body fuel reads d).
Proof using FL HL.
  intros Hf He. destruct fuel as [|fuel]; [done|]. simpl.
  assert (client_eof (if bool_decide (leftover d = []) then d else offer_client (leftover d) d) = true) as He'.
  { case_bool_decide; [done|]. by destruct (offer_client_shrinks (leftover d) d) as (_ & -> & _). }
  destruct (_ && _); [done|]. destruct (skip_body _) as [o q]. simpl. rewrite He', orb_true_r. done.
Qed.

Lemma stopped_stuck d :
  poison (d_parser d) <> None \/ is_tunnelled (d_parser d) = true -> stuck d = true.
Proof using Type. unfold stuck. destruct (poison _); [done|]. by intros [?|?]. Qed.

Lemma consume_request_body_returns fuel reads d :
  reads_end reads -> turns reads d + undrained d <= fuel -> is_Some (consume_request_body fuel reads d).
Proof using FL HL.
  revert reads d. induction fuel as [|fuel IH]; intros reads d Hr Hf;
    pose proof (reads_end_positive _ Hr) as Hp; [unfold turns in Hf; lia|]. simpl.
  set (d' := if bool_decide (leftover d = []) then d else offer_client (leftover d) d).
  assert (turns reads d' + undrained d' <= S fuel /\
    (leftover d <> [] -> stuck d' = true \/ turns reads d' + undrained d' <= fuel)) as [Ht Hst].
  { unfold d'. case_bool_decide as Hl; [by split|].
    destruct (reoffer_turns reads d Hl) as [?|?%stopped_stuck]; split; [lia|intros _; right; lia| |by left].
    etransitivity; [apply offer_turns|]. unfold turns in Hf. lia. }
  assert (leftover d = [] -> d' = d) as Hd by (intros Hn; unfold d'; by rewrite bool_decide_true).
  clearbody d'. destruct (_ && _) eqn:E; [done|]. destruct (skip_body (queue d')) as [o q].
  destruct (o || _); [done|]. set (d1 := set_queue q d').
  change (turns reads d1 + undrained d1 <= S fuel) in Ht.
  destruct (bool_decide_reflect (leftover d' = [])) as [Hl|Hl]; simpl.
  - assert (sum_list_with read_bytes reads <= S fuel) as Hs by (unfold turns in Ht; lia).
    destruct reads as [|[[|b chunk]| |] reads]; [by destruct Hr as [Hn|Hn]; apply not_elem_of_nil in Hn| | |done|done];
      apply reads_end_cons in Hr as [?|[?|Hr]]; try done; pose proof (reads_end_positive _ Hr); simpl in Hs.
    + apply consume_at_end; [lia|]. apply (client_ends_turns reads).
    + destruct (stuck (offer_client (b :: chunk) d1)); [done|]. apply IH; [done|]. etransitivity; [apply offer_turns|]. simpl. lia.
  - apply IH; [done|]. change (turns reads d' + undrained d' <= fuel).
    destruct (decide (leftover d = [])) as [Hn|Hn].
    { exfalso. apply Hl. by rewrite (Hd Hn). }
    destruct (Hst Hn) as [Hs|?]; [|done]. rewrite Hs, bool_decide_false in E by done. done.
Qed.

(** The loops between two requests end.  Whatever the client pipelined, however
    the parser refuses and re-offers, once the reads reach an error, the idle time-out
    or the shutdown, both the wait for the next head and the discarding of a refused
    body have returned, after at most one turn per byte and per read. *)
Theorem between_requests_return reads d fuel first :
  reads_end reads -> S (turns reads d) <= fuel ->
  is_Some (next_request_head fuel first reads d) /\ is_Some (consume_request_body fuel reads d).
Proof using FL HL.
  intros Hr Hf. assert (undrained d <= 1) by (unfold undrained; by destruct (next_event _); lia).
  split; [apply next_request_head_returns|apply consume_request_body_returns]; (done || lia).
Qed.
End Termination.

(** ** Properties *)

(** C11: one exchange on a pipelined connection.  At every point, under every
    interleaving of client reads, samples, time-outs, overflow and drain: what was
    published is the request's head and then exactly its own body and trailer
    chunks, in order, none of the next request's (or nothing, when the put of the head
    fails, which ends the exchange); what the client got is exactly
    the response chunks framed so far, followed by at most one error page, as far as it could
    be written, and that only if no response byte preceded it and the connection then
    closes, or by the part of the next chunk that a failed write, which ends the exchange,
    got out; body and
    trailers never exceed [max_response_size]; and every other event framed, those
    of the pipelined requests included, is still queued in order for the next
    exchange, unless a chunk was cut for its size. *)
Theorem exchange_faithful host head d evs x st :
  run (exchange_step host) (exchange_start host head d) evs = Some (x, st) ->
  exists new seen skipped rest page,
    framed (door x) = framed d ++ new /\ queue d ++ new = seen ++ skipped ++ rest /\
    (put_ok 0 = true /\ published x = head_raw head :: request_chunks false seen \/
     put_ok 0 = false /\ st = Failed /\ published x = []) /\
    to_client (door x) = to_client d ++ response_chunks seen ++ page /\
    (page = [] \/ length page = 1 /\ concat (response_chunks seen) = [] /\ keep_alive x = false \/
     cut_write st (skipped ++ rest) page) /\
    (size (omap body_chunk seen) <= max_response_size config)%N /\
    (st <> Failed -> queue (door x) = deferred false seen ++ rest) /\
    (skipped <> [] -> ending x = Truncated) /\ (ending x = EndOk \/ keep_alive x = false) /\
    (st = Waiting -> skipped = [] /\ rest = [] /\ page = []).
Proof using Type.
  intros (seen & skipped & rest & page & [[new [Hf Hn]]] & Hw)%exchange_run_ended.
  exists new, seen, skipped, rest, page. by split_and!.
Qed.

(** C12: per-request routing.  On a connection served to its end, every exchanged
    request was routed by the valid host key of its own head, which is the head its exchange
    published first, to that host's live backend, or to the live default backend when the
    host had none; the requests served are heads that the parser framed, each at most
    once and in order; only an exchange that ended
    cleanly and kept the connection is followed by another; and a connection
    recorded as completed had no exchange that ended otherwise. *)
Theorem multiroute_routes_each_request fuel envs d o log d' :
  handle_multiroute fuel true ConnCompleted envs d = Some (o, log, d') ->
  Forall served_ok log /\
  (exists new, framed d' = framed d ++ new /\ (s_head <$> log) `sublist_of` heads (queue d ++ new)) /\
  (forall pre s post, log = pre ++ s :: post -> post <> [] -> keeps (s_end s) /\ clean (s_end s)) /\
  (o = ConnCompleted -> Forall (fun s => clean (s_end s)) log).
Proof using Type. intros Hh%handle_multiroute_ok. destruct Hh as [(Hf & Ho & Hl) Hs]. by split_and!. Qed.
End Multiroute.

(** ** A token protocol, to evaluate exchanges on

    Each byte is an event; at most [window] events wait in the parser, which then
    refuses more. *)
Module TokenProtocol.
Record parser : Type := { got_initiator : bytes; got_responder : bytes; waiting : list (FlowSide * ascii) }.

Definition fresh : parser := {| got_initiator := []; got_responder := []; waiting := [] |}.

Definition got (sd : FlowSide) (p : parser) : bytes :=
  match sd with Initiator => got_initiator p | Responder => got_responder p end.

Section Window.
Context (window : nat).

Definition token_push (sd : FlowSide) (p : parser) (b : bytes) : nat * parser :=
  let b := take (window - length (waiting p)) b in
  (length b,
   match sd with
   | Initiator => {| got_initiator := got_initiator p ++ b; got_responder := got_responder p;
                     waiting := waiting p ++ (pair Initiator <$> b) |}
   | Responder => {| got_initiator := got_initiator p; got_responder := got_responder p ++ b;
                     waiting := waiting p ++ (pair Responder <$> b) |}
   end).

Definition token_next (p : parser) : option ((FlowSide * ascii) * parser) :=
  match waiting p with
  | [] => None
  | ev :: w => Some (ev, {| got_initiator := got_initiator p; got_responder := got_responder p; waiting := w |})
  end.

Definition token_parser : Parser parser (FlowSide * ascii) :=
  {| push := token_push; next_event := token_next; pushed := got; events p := length (waiting p) |}.

Definition token_flowscope : Flowscope := {|
  classify_first_bytes b := Some Http1;
  HttpProxyParser := parser; HttpEvent := FlowSide * ascii; RequestHead := ascii;
  http_ops := token_parser; http_with_config _ _ := fresh;
  request_head ev := match ev with
                     | (Initiator, c) => if is_ascii_upper c then Some c else None
                     | _ => None
                     end;
  http_authority h := Ok [h; "."%char; "o"%char];
  is_websocket_upgrade _ := false; poison _ := None; is_tunnelled _ := false;
  Http2Parser := parser; Http2Event := FlowSide * ascii; StreamHead := ascii; GrpcStatus := N;
  h2_ops := token_parser; h2_with_config _ := fresh;
  stream_head ev := None; head_dir _ := Initiator; h2_authority h := None;
  h2_error _ := None; end_stream _ := true; head_stream_id _ := 1%N;
  grpc_status_of _ := None; trailers_status _ := None; grpc_code st := st;
  TlsParser := unit; ClientHello := unit; tls_default := tt;
  feed_initiator p b := ([], tt); sni ch := None;
|}.

(** An upper-case letter is a head, [.] the end of a message, anything else body. *)
Definition token_view (ev : FlowSide * ascii) : @Event token_flowscope :=
  let (sd, c) := ev in
  if Ascii.eqb c "." then EndEv sd
  else if is_ascii_upper c then
    match sd with
    | Initiator => RequestHeadEv (F := token_flowscope) c
    | Responder => ResponseHeadEv {| rh_raw := [c]; rh_interim := false; rh_until_close := false;
                                     rh_http10 := false; rh_connection := [] |}
    end
  else BodyEv sd [c].

Definition token_proxy : HttpProxy token_flowscope :=
  @Build_HttpProxy token_flowscope token_view (fun h => [h]) (fun sd p => p) (fun p => false) (fun p => true)
    (fun sd p => ([], p)).

#[local] Instance token_parser_laws : ParserLaws token_parser.
Proof.
  constructor; simpl.
  - intros [] p b; simpl; rewrite length_take;
      (split; [lia|]); destruct (Nat.min_spec (window - length (waiting p)) (length b)) as [[? ->]|[? ->]];
      by rewrite ?take_ge by lia.
  - intros sd p ev p'. unfold token_next. destruct (waiting p); [done|]. by intros [= <- <-]; destruct sd.
  - intros p ev p'. unfold token_next. destruct (waiting p) as [|x w]; [done|]. intros [= <- <-]. simpl. lia.
Qed.

Lemma token_laws : FlowscopeLaws token_flowscope.
Proof.
  split; simpl.
  - apply token_parser_laws.
  - apply token_parser_laws.
  - by intros a b [].
  - by intros b [].
  - done.
Qed.

(** A exhausted parser with a window refuses nothing. *)
Lemma token_proxy_laws : window <> 0 -> HttpProxyLaws token_flowscope.
Proof.
  intros Hw. constructor. intros p b Hd Hb Ha. exfalso. cbn in Hd, Ha. unfold token_next in Hd.
  destruct (waiting p); [|done]. rewrite length_take in Ha. simpl in Ha. destruct b; simpl in Ha; lia || done.
Qed.
End Window.
End TokenProtocol.

Module Examples.
Import TokenProtocol.
#[local] Existing Instance ascii_case.

Definition always (n : nat) : bool := true.
Definition whole (n : nat) : option nat := None.

(** Nothing received yet. *)
Definition fresh_door (window : nat) : Door (F := token_flowscope window) :=
  {| d_parser := (fresh : @HttpProxyParser (token_flowscope window)); queue := []; leftover := []; client_eof := false;
     to_client := []; framed := [] |}.

(** A request [Ab.] with a second one, [C], in the same segment; its response
    [Rx.] in two samples. *)
Definition pipelined : list ExchangeEvent :=
  [ClientRead (Ok (lit "b.C")); RxSample "R"; RxSample "x."].

#[local] Notation run_pipelined window evs :=
  (run (exchange_step (F := token_flowscope window) (H := token_proxy window) BridgeConfig_default always whole "a.o")
      (exchange_start (F := token_flowscope window) (H := token_proxy window) BridgeConfig_default always whole
         "a.o" "A"%char (fresh_door window)) evs).

Lemma exchange_faithful_witness :
  exists x seen rest,
    run_pipelined 8 pipelined = Some (x, Finished) /\
    published x = [lit "A"; lit "b"] /\ to_client (door x) = [lit "R"; lit "x"] /\
    queue (door x) = deferred (F := token_flowscope 8) false seen ++ rest /\
    published x = lit "A" :: request_chunks (F := token_flowscope 8) false seen.
Proof.
  assert ((fun s => (published (fst s), to_client (door (fst s)), snd s)) <$> run_pipelined 8 pipelined =
    Some ([lit "A"; lit "b"], [lit "R"; lit "x"], Finished)) as H by (vm_compute; reflexivity).
  destruct (run_pipelined 8 pipelined) as [[x st]|] eqn:E; [|discriminate H].
  simpl in H. injection H as H1 H2 H3. rewrite H3 in E.
  apply exchange_faithful in E as (new & seen & skipped & rest & page & _ & _ & Hp & _ & _ & _ & Hq & _).
  subst st. destruct Hp as [[_ Hp]|(Hput & _)]; [|discriminate Hput]. exists x, seen, rest.
  refine (conj eq_refl (conj H1 (conj H2 (conj (Hq _) Hp)))). discriminate.
Defined.

(** Two requests on one connection: the first host has a backend, the second does
    not, and neither is there a default. *)
Definition one_host (key : str) : Probe := Declared (bool_decide (key = host_available_key "web" "a.o")).

Definition two_requests : list RequestEnv :=
  [{| head_reads := [HRead "A"]; body_reads := []; r_probe := one_host; r_default_first := true; setup_ok := true;
      exchange_events := pipelined; splice_events := [] |};
   {| head_reads := []; body_reads := [HRead "."]; r_probe := one_host; r_default_first := true; setup_ok := true;
      exchange_events := []; splice_events := [] |};
   {| head_reads := [HRead []]; body_reads := []; r_probe := one_host; r_default_first := true; setup_ok := true;
      exchange_events := []; splice_events := [] |}].

#[local] Notation serve_two :=
  (handle_multiroute (F := token_flowscope 8) (H := token_proxy 8) BridgeConfig_default always whole
    (fun _ => lit "bad head") "web" 5 true ConnCompleted two_requests (fresh_door 8)).

Lemma multiroute_routes_each_request_witness :
  exists s d, serve_two = Some (ConnCompleted, [s], d) /\
    routing_key_from_head (F := token_flowscope 8) (s_head s) = Ok (s_key s) /\ s_route s = Some (lit "a.o") /\ clean (s_end s) /\
    to_client d = [lit "R"; lit "x"; http_502_response_keep_alive "c.o"].
Proof.
  assert ((fun r => (fst (fst r), map (fun s => (s_route s, s_end s)) (snd (fst r)), to_client (snd r))) <$> serve_two =
    Some (ConnCompleted, [(Some (lit "a.o"), ExchangeCompleted true EndOk)],
          [lit "R"; lit "x"; http_502_response_keep_alive "c.o"])) as H by (vm_compute; reflexivity).
  destruct serve_two as [[[o log] d]|] eqn:E; [|discriminate H].
  simpl in H. injection H as -> Hlog Hto.
  apply multiroute_routes_each_request in E as (Hok & _ & _ & Hc).
  destruct log as [|s [|s' log]]; try discriminate Hlog. exists s, d.
  simpl in Hlog. injection Hlog as Hr He. inversion Hok as [|x y [Hkey _] _]; subst.
  split_and!; [done|exact Hkey|exact Hr| |exact Hto]. by specialize (Hc eq_refl); inversion Hc.
Defined.

(** A refused body of five bytes and a second head behind it, offered to a parser
    that takes two events at a time. *)
Definition refused_body : Door (F := token_flowscope 2) :=
  {| d_parser := (fresh : @HttpProxyParser (token_flowscope 2)); queue := []; leftover := lit "bb"; client_eof := false;
     to_client := []; framed := [] |}.

Lemma between_requests_return_witness :
  reads_end [HRead "bb.C"; HShutdown] /\
  is_Some (consume_request_body (F := token_flowscope 2) (H := token_proxy 2) 9 [HRead "bb.C"; HShutdown] refused_body).
Proof.
  assert (reads_end [HRead "bb.C"; HShutdown]) as Hr by (right; do 2 constructor).
  split; [done|].
  refine (proj2 (between_requests_return (F := token_flowscope 2) (H := token_proxy 2) (FL := token_laws 2)
    (HL := token_proxy_laws 2 _) [HRead "bb.C"; HShutdown] refused_body 9 true Hr _)); [lia|].
  vm_compute. lia.
Defined.

(** A tail of a sample that the parser refuses twice is overwritten by the next
    sample: the read of the client waits for its tail to be accepted, that of the
    bus does not.  With a window of two events, the sample [R1234] followed by [5.]
    reaches the client as [R, 1, 2, 3, 5]. *)
Theorem response_tail_overwritten :
  option_map (fun s => (to_client (door (fst s)), snd s, ending (fst s)))
    (run_pipelined 2 [ClientRead (Ok (lit ".")); RxSample "R1234"; RxSample "5."]) =
  Some ([lit "R"; lit "1"; lit "2"; lit "3"; lit "5"], Finished, EndOk).
Proof. vm_compute. reflexivity. Qed.
End Examples.
