(* ===== verification/RequestPipe.v ===== *)
(** * RequestPipe: a routed request, the bus and an exported client together

    [Multiroute.run_exchange] seen from the bus: the exchange with its reception channel
    ([rx_channel] of [src/backpressure.rs]) is a side of the [Bus], and the exported
    client of [EndToEnd] is the other.  An import connection listens for lost samples; a
    routed request registers no miss listener, so a loss on its way back is never
    reported. *)

From S2P Require Import Prelude Text Config Dns Backpressure Transport Relay ExportBridge Heads Multiroute Bus EndToEnd.

(** ** The exchange as a side of the bus *)

Inductive RequestPhase {F : Flowscope} : Type :=
| Announced                       (** the entities are declared, the head is not published *)
| Exchanging (s : Exchange * Status)
| Splicing (x : Exchange)
| Over (o : ExchangeOutcome) (x : Exchange).

Record Request {F : Flowscope} {M : Mpsc bytes} : Type := {
  rq_phase : RequestPhase;
  rq_rxs : RxState bytes;
  rq_gone : bool;                 (** the subscriber's callback is gone *)
}.

Inductive RequestEvent : Type :=
| RqSample (payload : bytes)      (** the bus delivers a sample *)
| RqMiss
| RqGone
| RqStart
| RqRead (r : result unit bytes)
| RqTake (payload : bytes)        (** [rx.recv()] gives this sample *)
| RqTakeNone
| RqIdle
| RqOverflow
| RqDrain
| RqFinish                        (** the loop is left *)
| RqSpliceRead (r : result unit bytes) (ok : bool)
| RqSpliceTake (payload : bytes) (cut : option nat)
| RqSpliceTakeNone
| RqSpliceStop.

Section Request.
Context {F : Flowscope} {H : HttpProxy F} {M : Mpsc bytes} (config : BridgeConfig).
Context (put_ok : nat -> bool) (write_cut : nat -> option nat) (host : str) (head : RequestHead) (d0 : Door).
Implicit Types q : Request.

Abbreviation xstep := (exchange_step config put_ok write_cut host).
Abbreviation xstart := (exchange_start config put_ok write_cut host head d0).

Definition set_rq_phase (p : RequestPhase) q : Request :=
  {| rq_phase := p; rq_rxs := rq_rxs q; rq_gone := rq_gone q |}.

Definition set_rq_rxs (s : RxState bytes) q : Request :=
  {| rq_phase := rq_phase q; rq_rxs := s; rq_gone := rq_gone q |}.

(** What [run_exchange] does when its loop is left. *)
Definition leave (x : Exchange) : RequestPhase :=
  if switched x then
    match splice_first put_ok write_cut x with
    | (x, Waiting) => Splicing x
    | (x, _) => Over ExchangeFailed x
    end
  else Over (ExchangeCompleted (keep_alive x && response_done x && negb (client_eof (door x))) (ending x))
         (tear_down put_ok x).

Definition on_splice (ev : SpliceEvent) (x : Exchange) : RequestPhase :=
  match splice_step ev x with
  | (x, true) => Splicing x
  | (x, false) => Over ExchangeSwitched (tear_down put_ok x)
  end.

(** One arm of the exchange's [select!]. *)
Definition on_arm (e : ExchangeEvent) (s : Exchange * Status) q : option Request :=
  s' ← xstep s e; Some (set_rq_phase (Exchanging s') q).

(** [rx.recv()] completes with this sample. *)
Definition take_sample (payload : bytes) q : option Request :=
  '(p, c) ← try_recv (rx (rq_rxs q));
  if decide (p = payload) then Some (set_rq_rxs (with_rx c (rq_rxs q)) q) else None.

(** It completes with [None]. *)
Definition channel_over q : bool :=
  match try_recv (rx (rq_rxs q)) with None => rq_gone q | Some _ => false end.

(** The loop was left, or [?] returned from it. *)
Definition on_finish (s : Exchange * Status) q : option Request :=
  match s with
  | (x, Waiting) => None
  | (x, Finished) => Some (set_rq_phase (leave x) q)
  | (x, Failed) => Some (set_rq_phase (Over ExchangeFailed x) q)
  end.

Definition request_step q (e : RequestEvent) : option Request :=
  match rq_phase q, e with
  | Over _ _, _ => None
  | _, RqSample p => if rq_gone q then None else Some (set_rq_rxs (rx_callback (reliability config) p (rq_rxs q)) q)
  | _, RqGone => Some {| rq_phase := rq_phase q; rq_rxs := rq_rxs q; rq_gone := true |}
  | Announced, RqStart => Some (set_rq_phase (Exchanging xstart) q)
  | Exchanging s, RqRead r => on_arm (ClientRead r) s q
  | Exchanging s, RqTake p => q ← take_sample p q; on_arm (RxSample p) s q
  | Exchanging s, RqTakeNone => if channel_over q then on_arm RxClosed s q else None
  | Exchanging s, RqIdle => on_arm IdleTimeout s q
  | Exchanging s, RqOverflow => if cancelled (rq_rxs q) then on_arm RxOverflow s q else None
  | Exchanging s, RqDrain => on_arm ListenerDrains s q
  | Exchanging s, RqFinish => on_finish s q
  | Splicing x, RqSpliceRead r ok => Some (set_rq_phase (on_splice (SpliceUp r ok) x) q)
  | Splicing x, RqSpliceTake p cut => q ← take_sample p q; Some (set_rq_phase (on_splice (SpliceDown (Some p) cut) x) q)
  | Splicing x, RqSpliceTakeNone =>
      if channel_over q then Some (set_rq_phase (on_splice (SpliceDown None None) x) q) else None
  | Splicing x, RqSpliceStop => Some (set_rq_phase (on_splice SpliceStop x) q)
  | _, _ => None
  end.

Definition request_init : Request :=
  {| rq_phase := Announced; rq_rxs := rx_channel (N.to_nat (rx_channel_capacity config)); rq_gone := false |}.

Definition request_sent q : list bytes :=
  match rq_phase q with
  | Announced => []
  | Exchanging (x, _) | Splicing x | Over _ x => published x
  end.

Definition request_side : BusSide Request RequestEvent := {|
  side_step := request_step;
  sent := request_sent;
  was_reset q := cancelled (rq_rxs q);
  listens _ := false;
  arrival := RqSample;
  miss := RqMiss;
  from_bus e := match e with RqSample _ | RqMiss => true | _ => false end;
  heard e := match e with RqSample p => [p] | _ => [] end;
|}.

(** ** What happened *)

Definition exchange_event (e : RequestEvent) : list ExchangeEvent :=
  match e with
  | RqRead r => [ClientRead r]
  | RqTake p => [RxSample p]
  | RqTakeNone => [RxClosed]
  | RqIdle => [IdleTimeout]
  | RqOverflow => [RxOverflow]
  | RqDrain => [ListenerDrains]
  | _ => []
  end.

Definition splice_event (e : RequestEvent) : list SpliceEvent :=
  match e with
  | RqSpliceRead r ok => [SpliceUp r ok]
  | RqSpliceTake p cut => [SpliceDown (Some p) cut]
  | RqSpliceTakeNone => [SpliceDown None None]
  | RqSpliceStop => [SpliceStop]
  | _ => []
  end.

Definition taken_sample (e : RequestEvent) : list bytes :=
  match e with RqTake p | RqSpliceTake p _ => [p] | _ => [] end.

Definition exchange_log (es : list RequestEvent) : list ExchangeEvent := concat (exchange_event <$> es).
Definition splice_log (es : list RequestEvent) : list SpliceEvent := concat (splice_event <$> es).
Definition taken (es : list RequestEvent) : list bytes := concat (taken_sample <$> es).

Lemma log_snoc {A} (f : RequestEvent -> list A) es e : concat (f <$> (es ++ [e])) = concat (f <$> es) ++ f e.
Proof. rewrite fmap_app. apply concat_snoc. Qed.
End Request.

(** ** It is [run_exchange] *)
Section Runs.
Context {F : Flowscope} {H : HttpProxy F} {M : Mpsc bytes} {L : MpscLaws M} (config : BridgeConfig).
Context (put_ok : nat -> bool) (write_cut : nat -> option nat) (host : str) (head : RequestHead) (d0 : Door).
Implicit Types q : Request.

Abbreviation xstep := (exchange_step config put_ok write_cut host).
Abbreviation xstart := (exchange_start config put_ok write_cut host head d0).
Abbreviation step := (request_step config put_ok write_cut host head d0).
Abbreviation init := (request_init (F := F) (M := M) config).

Definition phase_log (es : list RequestEvent) (p : RequestPhase) : Prop :=
  match p with
  | Announced => exchange_log es = [] /\ splice_log es = []
  | Exchanging s => run xstep xstart (exchange_log es) = Some s /\ splice_log es = []
  | Splicing x => exists y z, run xstep xstart (exchange_log es) = Some (y, Finished) /\ switched y = true /\
      splice_first put_ok write_cut y = (z, Waiting) /\ forall more, splice (splice_log es ++ more) z = splice more x
  | Over o x => run_exchange config put_ok write_cut host head d0 (exchange_log es) (splice_log es) = Some (o, x)
  end.

Lemma exchange_log_snoc es e : exchange_log (es ++ [e]) = exchange_log es ++ exchange_event e.
Proof using Type. apply log_snoc. Qed.

Lemma splice_log_snoc es e : splice_log (es ++ [e]) = splice_log es ++ splice_event e.
Proof using Type. apply log_snoc. Qed.

Lemma taken_snoc es e : taken (es ++ [e]) = taken es ++ taken_sample e.
Proof using Type. apply log_snoc. Qed.

(** An arm of the loop. *)
Lemma phase_log_arm es e ev s s' :
  phase_log es (Exchanging s) -> exchange_event e = [ev] -> splice_event e = [] -> xstep s ev = Some s' ->
  phase_log (es ++ [e]) (Exchanging s').
Proof using Type.
  intros [Hr Hs] He Hse Hst. simpl. rewrite exchange_log_snoc, splice_log_snoc, He, Hse, Hs, run_snoc, Hr. done.
Qed.

Lemma phase_log_silent es e p :
  exchange_event e = [] -> splice_event e = [] -> phase_log es p -> phase_log (es ++ [e]) p.
Proof using Type.
  intros He Hs. unfold phase_log. by rewrite exchange_log_snoc, splice_log_snoc, He, Hs, !app_nil_r.
Qed.

Lemma phase_log_leave es x :
  phase_log es (Exchanging (x, Finished)) -> phase_log es (leave put_ok write_cut x).
Proof using Type.
  intros [Hr Hs]. unfold leave. destruct (switched x) eqn:Esw; [destruct (splice_first put_ok write_cut x) as [z []] eqn:Ef|].
  - simpl. exists x, z. by rewrite Hs.
  - simpl. unfold run_exchange. rewrite Hr. simpl. by rewrite Esw, Ef.
  - simpl. unfold run_exchange. rewrite Hr. simpl. by rewrite Esw, Ef.
  - simpl. unfold run_exchange. rewrite Hr. simpl. by rewrite Esw.
Qed.

Lemma phase_log_splice es e ev x :
  phase_log es (Splicing x) -> exchange_event e = [] -> splice_event e = [ev] ->
  phase_log (es ++ [e]) (on_splice put_ok ev x).
Proof using Type.
  intros (y & z & Hr & Hsw & Hf & Hm) He Hse. unfold on_splice. destruct (splice_step ev x) as [x' []] eqn:Es; simpl.
  - exists y, z. rewrite exchange_log_snoc, splice_log_snoc, He, Hse, app_nil_r. split_and!; try done.
    intros more. rewrite <- app_assoc, Hm. simpl. by rewrite Es.
  - rewrite exchange_log_snoc, splice_log_snoc, He, Hse, app_nil_r. unfold run_exchange. rewrite Hr. simpl.
    rewrite Hsw, Hf, Hm. simpl. by rewrite Es.
Qed.

(** How a step moves the phase. *)
Inductive phase_view : RequestPhase -> RequestEvent -> RequestPhase -> Prop :=
| PvSilent p e : exchange_event e = [] -> splice_event e = [] -> phase_view p e p
| PvStart : phase_view Announced RqStart (Exchanging xstart)
| PvArm s e ev s' :
    exchange_event e = [ev] -> splice_event e = [] -> xstep s ev = Some s' -> phase_view (Exchanging s) e (Exchanging s')
| PvLeave x : phase_view (Exchanging (x, Finished)) RqFinish (leave put_ok write_cut x)
| PvFail x : phase_view (Exchanging (x, Failed)) RqFinish (Over ExchangeFailed x)
| PvSplice x e ev : exchange_event e = [] -> splice_event e = [ev] -> phase_view (Splicing x) e (on_splice put_ok ev x).

Lemma on_arm_view s e ev q q' :
  exchange_event e = [ev] -> splice_event e = [] -> on_arm config put_ok write_cut host ev s q = Some q' ->
  phase_view (Exchanging s) e (rq_phase q').
Proof using Type. unfold on_arm. intros He Hs Ha. apply bind_Some in Ha as (s' & Hst & [= <-]). by eapply PvArm. Qed.

Lemma step_phase q e q' : step q e = Some q' -> phase_view (rq_phase q) e (rq_phase q').
Proof using Type.
  intros Hs. unfold request_step in Hs.
  destruct (rq_phase q) as [|s|x|o x] eqn:E; [| | |done]; destruct e as [p| | | | |p| | | | | | |p| |]; try done;
    try (by eapply on_arm_view);
    try (destruct (rq_gone q); [done|]; injection Hs as <-; cbn [rq_phase set_rq_rxs]; rewrite ?E; by apply PvSilent);
    try (injection Hs as <-; cbn [rq_phase]; rewrite ?E; by apply PvSilent).
  - injection Hs as <-. apply PvStart.
  - apply bind_Some in Hs as (q1 & _ & Ha). by eapply on_arm_view.
  - destruct (channel_over q); [|done]. by eapply on_arm_view.
  - destruct (cancelled (rq_rxs q)); [|done]. by eapply on_arm_view.
  - destruct s as [x []]; [done| |]; injection Hs as <-; [apply PvLeave|apply PvFail].
  - injection Hs as <-. by apply PvSplice.
  - apply bind_Some in Hs as (q1 & _ & [= <-]). by apply PvSplice.
  - destruct (channel_over q); [|done]. injection Hs as <-. by apply PvSplice.
  - injection Hs as <-. by apply PvSplice.
Qed.

Lemma phase_log_step es q e q' :
  phase_log es (rq_phase q) -> step q e = Some q' -> phase_log (es ++ [e]) (rq_phase q').
Proof using Type.
  intros Hp Hv%step_phase. destruct Hv as [p e He Hs| |s e ev s' He Hs Hst|x|x|x e ev He Hs].
  - by apply phase_log_silent.
  - apply phase_log_silent; [done..|]. destruct Hp as [E1 E2]. simpl. by rewrite E1, E2.
  - by eapply phase_log_arm.
  - by apply phase_log_silent, phase_log_leave.
  - apply phase_log_silent; [done..|]. destruct Hp as [Hr _]. simpl. unfold run_exchange. by rewrite Hr.
  - by apply phase_log_splice.
Qed.

(** Every run of the side is a run of [run_exchange] as [Multiroute] has it. *)
Lemma run_phase_log es q : run step init es = Some q -> phase_log es (rq_phase q).
Proof using Type.
  apply (run_history_invariant step (fun es q => phase_log es (rq_phase q))); [done|].
  intros ?????. by apply phase_log_step.
Qed.

(** ** What it takes from the bus *)

Abbreviation side := (request_side (M := M) config put_ok write_cut host head d0).

Inductive rx_view q q' : RequestEvent -> Prop :=
| ViewArrives p : rq_rxs q' = rx_callback (reliability config) p (rq_rxs q) -> rx_view q q' (RqSample p)
| ViewTakes e p :
    taken_sample e = [p] -> heard (BusSide := side) e = [] ->
    contents (rx (rq_rxs q)) = p :: contents (rx (rq_rxs q')) ->
    is_closed (rx (rq_rxs q')) = is_closed (rx (rq_rxs q)) -> cancelled (rq_rxs q') = cancelled (rq_rxs q) -> rx_view q q' e
| ViewOther e :
    taken_sample e = [] -> heard (BusSide := side) e = [] -> rq_rxs q' = rq_rxs q -> rx_view q q' e.

Lemma on_arm_rxs ev s q q' : on_arm config put_ok write_cut host ev s q = Some q' -> rq_rxs q' = rq_rxs q.
Proof using Type. unfold on_arm. intros Ha. by apply bind_Some in Ha as (s' & _ & [= <-]). Qed.

Lemma view_takes e p q q1 q' :
  taken_sample e = [p] -> heard (BusSide := side) e = [] -> take_sample p q = Some q1 -> rq_rxs q' = rq_rxs q1 ->
  rx_view q q' e.
Proof using L.
  unfold take_sample. intros He Hh Hs E. apply bind_Some in Hs as ([p' c] & Hr & Hs). case_decide; [|done].
  simplify_eq/=. apply try_recv_inv in Hr as (? & _ & ?). apply (ViewTakes _ _ e p); try done; by rewrite E.
Qed.

Lemma step_view q e q' : step q e = Some q' -> rx_view q q' e.
Proof using L.
  intros Hs. unfold request_step in Hs.
  destruct (rq_phase q) as [|s|x|o x] eqn:E; [| | |done];
    destruct e as [p| | | | |p| | | | | | |p| |]; try done; unfold on_finish in Hs;
    try (apply on_arm_rxs in Hs; by apply ViewOther);
    try (destruct (rq_gone q); [done|]; injection Hs as <-; by apply ViewArrives);
    try (injection Hs as <-; by apply ViewOther);
    try (apply bind_Some in Hs as (q1 & Ht & Hs); eapply view_takes; [done|done|exact Ht|];
         first [by eapply on_arm_rxs|by injection Hs as <-]).
  - destruct (channel_over q); [|done]. apply on_arm_rxs in Hs. by apply ViewOther.
  - destruct (cancelled (rq_rxs q)); [|done]. apply on_arm_rxs in Hs. by apply ViewOther.
  - destruct s as [x []]; [done| |]; injection Hs as <-; by apply ViewOther.
  - destruct (channel_over q); [|done]. injection Hs as <-. by apply ViewOther.
Qed.

(** What it took and what waits in the channel is a selection of what arrived; in
    byte-exact mode, all of it, until the channel overflows. *)
Record took (es : list RequestEvent) q : Prop := {
  tk_open : is_closed (rx (rq_rxs q)) = false;
  tk_some : taken es ++ contents (rx (rq_rxs q)) `sublist_of` all_heard (B := side) es;
  tk_all : reliability config = Stream -> cancelled (rq_rxs q) = false ->
    taken es ++ contents (rx (rq_rxs q)) = all_heard (B := side) es;
}.

Lemma took_init : took [] init.
Proof using L.
  destruct (channel_new (A := bytes) (N.to_nat (rx_channel_capacity config))) as (E & _ & Hc).
  split; simpl; rewrite ?E; by try constructor.
Qed.

Lemma took_step es q e q' : took es q -> step q e = Some q' -> took (es ++ [e]) q'.
Proof using L.
  intros [Ho Hs Ha] Hv%step_view. 
  destruct Hv as [p Hrx|e p He Hh Hc Hcl Hcan|e He Hh Hrx].
  - split; rewrite ?taken_snoc, ?all_heard_snoc; cbn [taken_sample heard request_side]; rewrite ?app_nil_r, Hrx.
    + by rewrite rx_callback_closed.
    + destruct (rx_callback_any (reliability config) p (rq_rxs q)) as [-> | ->].
      * by apply sublist_inserts_r.
      * rewrite app_assoc. by apply sublist_app.
    + intros Hm Hcan. rewrite Hm in Hcan |- *.
      destruct (rx_callback_stream p (rq_rxs q) Ho) as (_ & _ & [[Hc Hca]|[_ Hca]]); [|congruence].
      rewrite Hc, app_assoc, Ha; [done|done|congruence].
  - split; rewrite ?taken_snoc, ?all_heard_snoc, ?He, ?Hh, ?app_nil_r, <- ?app_assoc; cbn [app]; rewrite <- ?Hc, ?Hcl, ?Hcan; done.
  - split; rewrite ?taken_snoc, ?all_heard_snoc, ?He, ?Hh, ?app_nil_r, Hrx; done.
Qed.

Lemma run_took es q : run step init es = Some q -> took es q.
Proof using L.
  apply (run_history_invariant step took); [apply took_init|]. intros ?????. by apply took_step.
Qed.
End Runs.

(** ** What it publishes *)

(** What flowscope documents of the raw bytes of its events: a head and a chunk of a
    request are never empty, so that none is taken for the end-of-stream marker. *)
Definition chunk_ok {F : Flowscope} (ev : Event) : Prop :=
  match ev with BodyEv Initiator raw | TrailersEv Initiator raw => raw <> [] | _ => True end.

Class RawLaws (F : Flowscope) (H : HttpProxy F) : Prop := {
  head_raw_nonempty h : head_raw h <> [];
  event_raw_nonempty ev : chunk_ok (event_view ev);
}.

Section Publishes.
Context {F : Flowscope} {H : HttpProxy F} {R : RawLaws F H} (config : BridgeConfig).
Context (put_ok : nat -> bool) (write_cut : nat -> option nat) (host : str) (head : RequestHead) (d0 : Door).

Abbreviation xstep := (exchange_step config put_ok write_cut host).
Abbreviation xstart := (exchange_start config put_ok write_cut host head d0).

(** A turn appends to what was published, and to what was framed only events of the
    parser. *)
Record extends (x x' : Exchange) : Prop := {
  ex_published : published x `prefix_of` published x';
  ex_framed : Forall chunk_ok (framed (door x)) -> Forall chunk_ok (framed (door x'));
}.

Lemma extends_refl x : extends x x.
Proof using Type. by split. Qed.

Lemma extends_trans x y z : extends x y -> extends y z -> extends x z.
Proof using Type. intros [P1 F1] [P2 F2]. split; [by etrans|auto]. Qed.

Lemma extends_same x x' : published x' = published x -> framed (door x') = framed (door x) -> extends x x'.
Proof using Type. intros E1 E2. split; by rewrite ?E1, ?E2. Qed.

Lemma drain_chunks fuel p : Forall chunk_ok (fst (drain (F := F) fuel p)).
Proof using R.
  revert p. induction fuel as [|fuel IH]; intros p; simpl; [done|].
  destruct (next_event p) as [[ev p']|]; [|done]. specialize (IH p'). destruct (drain fuel p') as [evs q].
  constructor; [apply event_raw_nonempty|done].
Qed.

Lemma extends_drain d x : framed d = framed (door x) -> extends x (set_door (drain_events d) x).
Proof using R.
  intros E. unfold drain_events. pose proof (drain_chunks (S (events (d_parser d))) (d_parser d)) as Hd.
  destruct (drain _ _) as [evs p]. split; [done|]. simpl in *. rewrite E. intros Hf. by apply Forall_app_2.
Qed.

Lemma extends_offer_client b x : extends x (set_door (offer_client b (door x)) x).
Proof using R. unfold offer_client. destruct (feed_all _ _ _). by apply extends_drain. Qed.

Lemma extends_client_ends x : extends x (set_door (client_ends (door x)) x).
Proof using R. by apply extends_drain. Qed.

Lemma extends_offer_response b x : extends x (offer_response b x).
Proof using R.
  unfold offer_response. destruct (feed_all _ _ _) as [p l].
  eapply extends_trans; [by apply (extends_drain (with_parser p (leftover (door x)) (door x)))|by apply extends_same].
Qed.

Lemma extends_response_ends x : extends x (response_ends x).
Proof using R. by apply extends_drain. Qed.

Lemma extends_page e page x : extends x (end_with e (error_page write_cut page x)).
Proof using Type. unfold error_page. case_decide; by apply extends_same. Qed.

Lemma extends_turn x : extends x (fst (turn config put_ok write_cut host x)).
Proof using R.
  unfold turn.
  set (y := if bool_decide (leftover (door x) = []) then x else _).
  assert (extends x y) as H1 by (unfold y; case_bool_decide; [apply extends_refl|apply extends_offer_client]).
  set (z := if bool_decide (resp_pending y = []) then y else _).
  assert (extends y z) as H2 by (unfold z; case_bool_decide; [apply extends_refl|apply extends_offer_response]).
  pose proof (process_spec config put_ok write_cut (queue (door z)) [] z) as (sn & sk & rs & tl & HP).
  destruct (process _ _ _ _ _ _) as [x' st] eqn:E. simpl in HP.
  assert (extends z x') as H3.
  { split; [rewrite (pass_up _ _ _ _ _ _ _ _ _ _ HP); by apply prefix_app_r|by rewrite (pass_framed _ _ _ _ _ _ _ _ _ _ HP)]. }
  assert (extends x x') as H4 by (eapply extends_trans; [exact H1|]; by eapply extends_trans).
  destruct st; [|done..]. destruct (poison _); [|done]. simpl.
  eapply extends_trans; [exact H4|apply extends_page].
Qed.

Lemma extends_step s e s' : xstep s e = Some s' -> extends (fst s) (fst s').
Proof using R.
  destruct s as [x []]; [|done..]. destruct e as [r|p| | | |]; simpl.
  - destruct (_ && _); [|done]. destruct r as [[|c chunk]|]; intros [= <-]; [..|apply extends_refl];
      (eapply extends_trans; [|apply extends_turn]).
    + apply extends_client_ends.
    + apply extends_offer_client.
  - destruct p as [|c p]; intros [= <-]; (eapply extends_trans; [|apply extends_turn]).
    + apply extends_response_ends.
    + apply extends_offer_response.
  - intros [= <-]. apply extends_page.
  - intros [= <-]. apply extends_page.
  - intros [= <-]. by apply extends_same.
  - intros [= <-]. by apply extends_same.
Qed.

Lemma request_chunks_no_eof over evs : Forall chunk_ok evs -> no_eof (request_chunks over evs).
Proof using Type.
  intros Hc. revert over. induction Hc as [|ev evs Hev _ IH]; intros over; simpl; [constructor|].
  destruct ev as [|[]|[]|[]| | |]; try apply IH; destruct over; try apply IH; (constructor; [exact Hev|apply IH]).
Qed.

(** Events the parser gave. *)
Definition sound_door : Prop := Forall chunk_ok (queue d0) /\ Forall chunk_ok (framed d0).

Lemma extends_start : extends (exchange_init d0) (fst xstart).
Proof using R.
  unfold exchange_start, try_publish. simpl. destruct (put_ok 0); [|apply extends_refl].
  eapply extends_trans; [|apply extends_turn]. split; [apply prefix_nil|done].
Qed.

Lemma extends_run es s : run xstep xstart es = Some s -> extends (exchange_init d0) (fst s).
Proof using R.
  apply (run_invariant xstep (fun s => extends (exchange_init d0) (fst s))); [apply extends_start|].
  intros s1 e s2 H1 H2%extends_step. by eapply extends_trans.
Qed.

(** A running exchange never publishes the end-of-stream marker. *)
Lemma exchange_no_eof es x st : sound_door -> run xstep xstart es = Some (x, st) -> no_eof (published x).
Proof using R.
  intros [Hq Hf] Hr. destruct (extends_run es (x, st) Hr) as [_ Hfx]. specialize (Hfx Hf).
  destruct (exchange_run_ended config put_ok write_cut head d0 host es x st Hr) as (seen & skipped & rest & page & [] & _).
  destruct en_framed as (new & Hfr & Hn). destruct en_up as [[_ ->]|(_ & _ & ->)]; [|constructor]. constructor; [apply head_raw_nonempty|]. apply request_chunks_no_eof.
  simpl in Hfx. rewrite Hfr in Hfx. apply Forall_app in Hfx as [_ Hnew].
  assert (Forall chunk_ok (queue d0 ++ new)) as Hall by by apply Forall_app_2.
  rewrite Hn in Hall. by apply Forall_app in Hall as [? _].
Qed.

(** *** The splice *)

(** The residues are published in full, or up to a failed put. *)
Lemma splice_downs_published down x :
  published (fst (foldr (fun c k x => try_splice_down write_cut c x k) (fun x => (x, Waiting)) down x)) = published x.
Proof using Type.
  revert x. induction down as [|c down IH]; intros x; simpl; [done|]. unfold try_splice_down.
  destruct (next_cut _ _); [done|]. by rewrite IH.
Qed.

Lemma splice_ups_published up k x :
  (forall x, published (fst (k x)) = published x) ->
  exists ups, ups `sublist_of` up /\
    published (fst (foldr (fun c k x => try_publish put_ok c x k) k up x)) = published x ++ ups.
Proof using Type.
  intros Hk. revert x. induction up as [|c up IH]; intros x; simpl; [exists []; by rewrite Hk, app_nil_r|].
  unfold try_publish at 1. destruct (put_ok _).
  - destruct (IH (publish c x)) as (ups & Hs & E). exists (c :: ups). split; [by apply sublist_skip|].
    rewrite E. simpl. by rewrite <- app_assoc.
  - exists []. split; [apply sublist_nil_l|]. by rewrite app_nil_r.
Qed.

Lemma filter_no_eof (l : list bytes) : no_eof (List.filter (fun c => negb (bool_decide (c = []))) l).
Proof using Type.
  apply Forall_forall. intros c Hc%list_elem_of_In%filter_In. destruct Hc as [_ Hc].
  by apply negb_true_iff, bool_decide_eq_false in Hc.
Qed.

Lemma sublist_no_eof (a b : list bytes) : a `sublist_of` b -> no_eof b -> no_eof a.
Proof using Type.
  unfold no_eof. induction 1 as [|c a b _ IH|c a b _ IH]; [done|rewrite !Forall_cons; naive_solver..].
Qed.

Lemma splice_first_published x :
  exists ups, no_eof ups /\ published (fst (splice_first put_ok write_cut x)) = published x ++ ups.
Proof using Type.
  unfold splice_first. destruct (take_tunnel_residue Initiator _) as [up1 p]. destruct (take_tunnel_residue Responder p) as [down1 p'].
  edestruct splice_ups_published as (ups & Hs & E); [intros y; apply splice_downs_published|].
  exists ups. split; [by eapply sublist_no_eof, filter_no_eof|]. exact E.
Qed.

Lemma splice_step_published ev x :
  exists ups, no_eof ups /\ published (fst (splice_step ev x)) = published x ++ ups.
Proof using Type.
  destruct ev as [[[|c chunk]|] []|[[|c p]|] []|]; try (exists []; split; [constructor|]; simpl; by rewrite app_nil_r).
  exists [c :: chunk]. split; [by repeat constructor|done].
Qed.

(** *** The whole request *)

Definition closed_with (x : Exchange) (req : list bytes) : Prop := published x = req ++ [[]] /\ no_eof req.

Definition phase_chunks (p : RequestPhase) : Prop :=
  match p with
  | Announced => True
  | Exchanging (x, _) | Splicing x => no_eof (published x)
  | Over o x => no_eof (published x) \/ o <> ExchangeFailed /\ exists req, closed_with x req
  end.

Lemma tear_down_chunks o x :
  o <> ExchangeFailed -> no_eof (published x) -> phase_chunks (Over o (tear_down put_ok x)).
Proof using Type.
  intros Ho Hn. simpl. unfold tear_down. destruct (put_ok _); [|by left]. right. split; [done|]. by exists (published x).
Qed.

Lemma leave_chunks x : no_eof (published x) -> phase_chunks (leave put_ok write_cut x).
Proof using Type.
  intros Hn. unfold leave. destruct (switched x); [|by apply tear_down_chunks].
  destruct (splice_first_published x) as (ups & Hu & E). destruct (splice_first put_ok write_cut x) as [z []];
    simpl in *; rewrite E; [|left|left]; by apply Forall_app_2.
Qed.

Lemma on_splice_chunks ev x : no_eof (published x) -> phase_chunks (on_splice put_ok ev x).
Proof using Type.
  intros Hn. unfold on_splice. destruct (splice_step_published ev x) as (ups & Hu & E).
  assert (no_eof (published (fst (splice_step ev x)))) as Hp by (rewrite E; by apply Forall_app_2).
  destruct (splice_step ev x) as [x' []]; [exact Hp|by apply tear_down_chunks].
Qed.
End Publishes.

(** ** The side's laws *)
Section Laws.
Context {F : Flowscope} {H : HttpProxy F} {R : RawLaws F H} {M : Mpsc bytes} {L : MpscLaws M} (config : BridgeConfig).
Context (put_ok : nat -> bool) (write_cut : nat -> option nat) (host : str) (head : RequestHead) (d0 : Door).

Abbreviation step := (request_step (M := M) config put_ok write_cut host head d0).
Abbreviation init := (request_init (F := F) (M := M) config).

Lemma run_chunks es q : sound_door d0 -> run step init es = Some q -> phase_chunks (rq_phase q).
Proof using R.
  intros Hd. apply (run_history_invariant step (fun _ q => phase_chunks (rq_phase q))); [done|].
  clear es q. intros es q e q' Hr%run_phase_log IH Hs. pose proof (phase_log_step _ _ _ _ _ _ _ _ _ _ Hr Hs) as Hl.
  apply step_phase in Hs. destruct Hs as [p e He Hs| |s e ev s' He Hs Hst|x|x|x e ev He Hs]; [done|..].
  - destruct (exchange_start _ _ _ _ _ _) as [x st] eqn:E. destruct Hl as [Hl _]. by eapply exchange_no_eof.
  - destruct s' as [x st]. destruct Hl as [Hl _]. by eapply exchange_no_eof.
  - by apply leave_chunks.
  - by left.
  - by apply on_splice_chunks.
Qed.

Lemma phase_published_grows p e p' :
  phase_view config put_ok write_cut host head d0 p e p' ->
  match p with Announced => [] | Exchanging (x, _) | Splicing x | Over _ x => published x end `prefix_of`
  match p' with Announced => [] | Exchanging (x, _) | Splicing x | Over _ x => published x end.
Proof using R.
  assert (forall x, published x `prefix_of` published (tear_down put_ok x)) as Ht.
  { intros x. unfold tear_down. destruct (put_ok _); [|done]. by apply prefix_app_r. }
  intros [p0 e0 He Hs| |s e0 ev s' He Hs Hst|x|x|x e0 ev He Hs]; try done.
  - apply prefix_nil.
  - apply extends_step in Hst as [Hst _]. by destruct s, s'.
  - unfold leave. destruct (switched x).
    + destruct (splice_first_published put_ok write_cut x) as (ups & _ & E).
      destruct (splice_first put_ok write_cut x) as [z []]; simpl in E; rewrite E; by apply prefix_app_r.
    + apply Ht.
  - unfold on_splice. destruct (splice_step_published ev x) as (ups & _ & E).
    destruct (splice_step ev x) as [x' []]; simpl in E; [|etrans; [|apply Ht]]; rewrite E; by apply prefix_app_r.
Qed.

#[export] Instance request_side_laws : BusSideLaws (request_side (M := M) config put_ok write_cut host head d0) init.
Proof using L R.
  constructor; simpl; try done.
  - intros _ q e q' _ Hs%step_phase. by eapply phase_published_grows.
  - intros q e q' [p Hrx|e0 p _ _ _ _ Hc|e0 _ _ E]%step_view.
    + rewrite Hrx. apply rx_callback_cancelled.
    + by rewrite Hc.
    + by rewrite E.
  - intros []; done.
Qed.
End Laws.

(** ** Properties *)
Section Properties.
Context {F : Flowscope} {H : HttpProxy F} {R : RawLaws F H} {M : Mpsc bytes} {L : MpscLaws M}.
Context {W : Type} {TW : TransportWriter W} {TL : TransportWriterLaws TW} (config : BridgeConfig).
Context (put_ok : nat -> bool) (write_cut : nat -> option nat) (host : str) (head : RequestHead) (d0 : Door) (w0 : W).

Definition pipe_step :=
  bus_step (B1 := request_side (M := M) config put_ok write_cut host head d0) (B2 := export_side (TW := TW) config).

Definition pipe_init : Node Request RequestEvent * Node (Bridge W) BridgeEvent :=
  (node_init (request_init config), node_init (bridge_init config false w0)).

(** C4: one routed request end to end, under every interleaving of the exchange, the
    exporter, the bus and the scheduler.  The exchange is [run_exchange] on the samples
    it took, and those are a selection of the backend's own chunks, in order; what the
    backend was written is a selection of what the exchange published.  In byte-exact
    mode: as long as the exporter is unharmed, the backend was written a prefix of the
    request; once it is half-closed it was written all of it, and the exchange had ended
    orderly; and as long as no response sample was lost or overflowed, the exchange saw
    exactly the first chunks the backend sent, as if it were connected to it directly. *)
Theorem request_pipe es q x :
  sound_door d0 -> run pipe_step pipe_init es = Some (q, x) ->
  phase_log config put_ok write_cut host head d0 (trace q) (rq_phase (side q)) /\
  taken (trace q) `sublist_of` reads (bridge_relay_events (trace x)) /\
  (exists up, up `sublist_of` request_sent (side q) /\
     wire (sink (b_relay (side x))) `prefix_of` wire w0 ++ concat up) /\
  (reliability config = Stream ->
   (unharmed (B := export_side config) x ->
    wire (sink (b_relay (side x))) `prefix_of` wire w0 ++ concat (request_sent (side q)) /\
    (bus_task (b_relay (side x)) = BDone Eof ->
     exists o y req, rq_phase (side q) = Over o y /\ o <> ExchangeFailed /\ closed_with y req /\
       wire (sink (b_relay (side x))) = wire w0 ++ concat req /\ half_closed (sink (b_relay (side x))) = true)) /\
   (unharmed (B := request_side config put_ok write_cut host head d0) q ->
    taken (trace q) `prefix_of` reads (bridge_relay_events (trace x)))).
Proof using L R TL.
  intros Hd Hr. eapply (bus_follows (L1 := request_side_laws config put_ok write_cut host head d0)
    (L2 := export_side_laws config w0)) in Hr as [Hq Hx].
  pose proof (fw_run _ _ Hq) as Hrq. pose proof (fw_run _ _ Hx) as Hrx. simpl in Hrq, Hrx.
  pose proof (run_took _ _ _ _ _ _ _ _ Hrq) as [_ Hsome Hall].
  pose proof (rx_prefix config w0 _ _ Hrx) as Hback.
  pose proof (export_written config w0 _ _ Hx) as [Hup Hexact].
  split_and!.
  - by apply run_phase_log.
  - eapply prefix_sublist; [|exact Hback]. etrans; [by apply sublist_inserts_r|].
    etrans; [exact Hsome|]. etrans; [apply (fw_some _ _ Hq)|]. apply sublist_take.
  - exact Hup.
  - intros Hm. split.
    + intros Hu. destruct (Hexact (conj Hm Hu)) as (up & Hne & -> & Hp & Hend).
      split; [by apply prefix_app, concat_prefix|]. intros Hb. destruct (Hend Hb) as [Hh [rest Hpre]].
      pose proof (run_chunks _ _ _ _ _ _ _ _ Hd Hrq) as Hc. simpl in Hpre. unfold request_sent in Hpre.
      assert (forall l, no_eof l -> up ++ [] :: rest `prefix_of` l -> False) as Hno.
      { intros l Hl [k E]. apply (no_eof_elem l Hl). rewrite E. set_solver. }
      destruct (rq_phase (side q)) as [|[y st]|y|o y].
      * exfalso. apply (Hno [] ltac:(constructor) Hpre).
      * exfalso. apply (Hno _ Hc Hpre).
      * exfalso. apply (Hno _ Hc Hpre).
      * destruct Hc as [Hc|(Ho & req & Ey & Hreq)]; [exfalso; apply (Hno _ Hc Hpre)|].
        exists o, y, req. rewrite Ey in Hpre. by rewrite (eof_position up req rest).
    + intros Hu. etrans; [|exact Hback]. pose proof (fw_all _ _ Hq Hu) as Ha. unfold received in Ha. rewrite Ha in Hall.
      etrans; [apply (prefix_app_r _ (taken (trace q)) (contents (rx (rq_rxs (side q))))); done|].
      rewrite (Hall Hm (proj1 Hu)). apply prefix_take.
Qed.
End Properties.

(** ** Examples *)
Module Examples.
Import TokenProtocol Multiroute.Examples.
#[local] Existing Instance ascii_case.

Lemma token_raw window : RawLaws (token_flowscope window) (token_proxy window).
Proof.
  split; [done|]. intros [[] c]; unfold chunk_ok, event_view; simpl; destruct (Ascii.eqb c "."), (is_ascii_upper c); done.
Qed.

#[local] Notation run_request es :=
  (run (pipe_step (F := token_flowscope 8) (H := token_proxy 8) (M := list_mpsc bytes) (W := TcpWriter) BridgeConfig_default
          always whole (lit "a.o") ("A"%char : @RequestHead (token_flowscope 8)) (fresh_door 8))
       (pipe_init BridgeConfig_default fresh_backend) es)
  (only parsing).

Definition by_request (e : RequestEvent) : BusEvent RequestEvent + BusEvent BridgeEvent := inl (Own e).
Definition by_exporter (e : BridgeEvent) : BusEvent RequestEvent + BusEvent BridgeEvent := inr (Own e).
Definition x_relay (e : RelayEvent) : BusEvent RequestEvent + BusEvent BridgeEvent := by_exporter (BridgeRelay e).
Definition to_backend : list (BusEvent RequestEvent + BusEvent BridgeEvent) :=
  [inr Deliver; x_relay Take; x_relay (WriteDone Written)].
Definition from_backend (c : bytes) : list (BusEvent RequestEvent + BusEvent BridgeEvent) :=
  [x_relay (Read (Ok c)); x_relay (PutDone true)].

(** The request [Ab.]; the response [R12.] in three samples, of which the second is
    [second]. *)
Definition response_in_three (second : BusEvent RequestEvent) (took : list RequestEvent) :=
  (by_exporter <$> declared_stream) ++ [by_request RqStart] ++ to_backend ++ [by_request (RqRead (Ok (lit "b.")))] ++
  to_backend ++ from_backend "R" ++ from_backend "1" ++ from_backend "2." ++
  [inl Deliver; inl second; inl Deliver] ++ (by_request <$> took) ++
  [by_request RqFinish; inr Deliver; x_relay Take; x_relay (EofDone true)].

Definition all_three := response_in_three Deliver [RqTake "R"; RqTake "1"; RqTake "2."].

(** What is looked at of a run. *)
Definition summary (s : Node (Request (F := token_flowscope 8) (M := list_mpsc bytes)) RequestEvent *
    Node (Bridge (M := list_mpsc bytes) TcpWriter) BridgeEvent) :=
  (match rq_phase (side (fst s)) with Over o y => Some (o, published y, to_client (door y)) | _ => None end,
   was_reset (BusSide := export_side BridgeConfig_default) (side (snd s)), gap (snd s), bus_task (b_relay (side (snd s)))).

Lemma request_pipe_witness :
  exists q x, run_request all_three = Some (q, x) /\
    exists o y req, rq_phase (side q) = Over o y /\ o <> ExchangeFailed /\ closed_with y req /\
      wire (sink (b_relay (side x))) = concat req /\ half_closed (sink (b_relay (side x))) = true.
Proof.
  assert (summary <$> run_request all_three =
    Some (Some (ExchangeCompleted true EndOk, [lit "A"; lit "b"; []], [lit "R"; lit "1"; lit "2"]), false, false, BDone Eof))
    as Hs by (vm_compute; reflexivity).
  destruct (run_request all_three) as [[q x]|] eqn:E; [|discriminate Hs]. exists q, x. split; [done|].
  apply (f_equal (from_option id (None, true, true, BIdle))) in Hs. cbn in Hs.
  injection Hs as Hp Hc Hg Hb.
  apply (request_pipe (R := token_raw 8) (L := list_mpsc_laws bytes) (TL := tcp_writer_laws)) in E as (_ & _ & _ & Hm);
    [|by split; constructor].
  destruct (Hm eq_refl) as [Hu _]. by destruct (Hu (conj Hc Hg)) as [_ He]; apply He.
Defined.

(** A response sample that the bus loses is reported to nobody: the client gets [R2]
    for [R12], and the exchange ends well and keeps the connection. *)
Theorem lost_response_sample :
  option_map (fun s => match rq_phase (side (fst s)) with Over o y => Some (o, to_client (door y)) | _ => None end)
    (run_request (response_in_three (Lose false) [RqTake "R"; RqTake "2."])) =
  Some (Some (ExchangeCompleted true EndOk, [lit "R"; lit "2"])).
Proof. vm_compute. reflexivity. Qed.
End Examples.
