(* ===== verification/Accounting.v ===== *)
(** * Accounting: what one routed connection adds to the metrics
    ([handle_multiroute_connection] and [run_exchange] of [src/import/multiroute.rs])

    [Multiroute] leaves the calls of the [ConnGuard] out; here is their trace, chunk by
    chunk, over [Metrics.metrics_step]. *)

From S2P Require Import Prelude Text Backpressure Metrics Heads Multiroute.

Definition add_ups (id : nat) (chunks : list bytes) : list MetricsEvent :=
  (fun c => AddUp id (N.of_nat (length c))) <$> chunks.

Definition add_downs (id : nat) (chunks : list bytes) : list MetricsEvent :=
  (fun c => AddDown id (N.of_nat (length c))) <$> chunks.

(** The chunks of an exchange that are counted: all that is published but the
    end-of-stream marker, which is empty, and what is written of responses, but no error
    page. *)
Definition exchange_events {F : Flowscope} (id : nat) (x : Exchange) (written : list bytes) : list MetricsEvent :=
  add_ups id (published x) ++ add_downs id written.

(** [conn_start], the exchanges' bytes, [finish], and the guard's drop. *)
Definition connection_events {F : Flowscope} (id : nat) (service_name : str)
    (exchanges : list (Exchange * list bytes)) (o : ConnOutcome) : list MetricsEvent :=
  ConnStart id service_name :: concat ((fun '(x, w) => exchange_events id x w) <$> exchanges) ++
  [Finish id o; DropGuard id].

Definition total_size (chunks : list bytes) : N := N.of_nat (length (concat chunks)).

(** Counters after [up] and [down] more bytes. *)
Definition moved (up down : N) (c : Counters) : Counters := add_down down (add_up up c).

(** A state in which the guard [id] of [svc] has moved bytes since [s]. *)
Definition moved_since (id : nat) (svc : str) (up down : N) (s s' : MetricsState) : Prop :=
  (exists g, guards s' = <[id := g]> (guards s) /\ guard_service g = svc) /\
  forall name, service name (registry s') =
    if decide (name = svc) then moved up down (service name (registry s)) else service name (registry s).

Definition counters_ok (c : Counters) : Prop := (bytes_up c < u64_mod /\ bytes_down c < u64_mod)%N.

Lemma fetch_add_add a b x : fetch_add b (fetch_add a x) = fetch_add (a + b) x.
Proof. unfold fetch_add. rewrite N.Div0.add_mod_idemp_l. f_equal. lia. Qed.

Lemma add_up_moved n up down c : add_up n (moved up down c) = moved (up + n) down c.
Proof. unfold moved, add_up, add_down. simpl. by rewrite fetch_add_add. Qed.

Lemma add_down_moved n up down c : add_down n (moved up down c) = moved up (down + n) c.
Proof. unfold moved, add_up, add_down. simpl. by rewrite fetch_add_add. Qed.

(** The events that move bytes, one or many. *)
Definition size_up (e : MetricsEvent) : N := match e with AddUp _ n => n | _ => 0 end.
Definition size_down (e : MetricsEvent) : N := match e with AddDown _ n => n | _ => 0 end.

Definition moves (id : nat) (e : MetricsEvent) : Prop := (exists n, e = AddUp id n) \/ (exists n, e = AddDown id n).

Lemma moved_step id svc up down s s1 e :
  moved_since id svc up down s s1 -> moves id e ->
  exists s2, metrics_step s1 e = Some s2 /\ moved_since id svc (up + size_up e) (down + size_down e) s s2.
Proof.
  intros [(g & Hg & Hs) Hc] [[n ->]|[n ->]]; simpl; rewrite Hg, lookup_insert_eq; simpl; eexists; (split; [reflexivity|]);
    (split; [eexists; split; [simpl; by rewrite insert_insert_eq|done]|]); intros name; simpl;
    rewrite service_update, Hs; specialize (Hc name); rewrite N.add_0_r;
    destruct (decide (svc = name)) as [<-|Hne]; rewrite ?decide_True in * by done;
    rewrite ?(decide_False (P := name = svc)) in * by congruence; rewrite Hc; try done.
  - by rewrite add_up_moved.
  - by rewrite add_down_moved.
Qed.

Lemma moved_run id svc es s s1 up down :
  moved_since id svc up down s s1 -> Forall (moves id) es ->
  exists s2, run metrics_step s1 es = Some s2 /\
    moved_since id svc (up + foldr N.add 0%N (size_up <$> es)) (down + foldr N.add 0%N (size_down <$> es)) s s2.
Proof.
  intros Hm Hf. revert s1 up down Hm. induction Hf as [|e es He _ IH]; intros s1 up down Hm; csimpl.
  - exists s1. by rewrite !N.add_0_r.
  - destruct (moved_step _ _ _ _ _ _ _ Hm He) as (s2 & Hs & Hm2). destruct (IH _ _ _ Hm2) as (s3 & Hr & Hm3).
    exists s3. rewrite Hs. simpl. split; [done|]. by rewrite !N.add_assoc in *.
Qed.

Lemma sum_ups id chunks :
  foldr N.add 0%N (size_up <$> add_ups id chunks) = total_size chunks /\
  foldr N.add 0%N (size_down <$> add_ups id chunks) = 0%N.
Proof.
  unfold total_size. induction chunks as [|c chunks [IH1 IH2]]; csimpl; [done|].
  rewrite IH1, IH2, length_app. split; lia.
Qed.

Lemma sum_downs id chunks :
  foldr N.add 0%N (size_up <$> add_downs id chunks) = 0%N /\
  foldr N.add 0%N (size_down <$> add_downs id chunks) = total_size chunks.
Proof.
  unfold total_size. induction chunks as [|c chunks [IH1 IH2]]; csimpl; [done|].
  rewrite IH1, IH2, length_app. split; lia.
Qed.

Lemma sum_app (f : MetricsEvent -> N) a b :
  foldr N.add 0%N (f <$> (a ++ b)) = (foldr N.add 0%N (f <$> a) + foldr N.add 0%N (f <$> b))%N.
Proof. induction a as [|e a IH]; csimpl; [done|]. rewrite IH. lia. Qed.

Lemma sum_exchange {F : Flowscope} id (x : Exchange) w :
  foldr N.add 0%N (size_up <$> exchange_events id x w) = total_size (published x) /\
  foldr N.add 0%N (size_down <$> exchange_events id x w) = total_size w.
Proof.
  unfold exchange_events. rewrite !sum_app. destruct (sum_ups id (published x)) as [-> ->].
  destruct (sum_downs id w) as [-> ->]. split; lia.
Qed.

(** ** Counters stay in their width *)

Lemma registry_ok_step s e s' :
  (forall name, counters_ok (service name (registry s))) -> metrics_step s e = Some s' ->
  forall name, counters_ok (service name (registry s')).
Proof.
  intros Hok H name. assert (forall n x, fetch_add n x < u64_mod)%N as Hlt
    by (intros n x; unfold fetch_add, u64_mod; apply N.mod_lt; lia).
  assert (exists svc f, registry s' = update_service svc f (registry s) /\ forall c, counters_ok c -> counters_ok (f c))
    as (svc & f & -> & Hf).
  { destruct e as [id svc|id n|id n|id o|id]; simpl in H; try apply bind_Some in H as (g & Hg & [= <-]).
    - destruct (guards s !! id); [done|]. injection H as <-. eexists _, _. split; [reflexivity|done].
    - eexists _, _. split; [reflexivity|]. intros c [H1 H2]. split; [apply Hlt|done].
    - eexists _, _. split; [reflexivity|]. intros c [H1 H2]. split; [done|apply Hlt].
    - eexists _, _. split; [reflexivity|]. done.
    - eexists _, _. split; [reflexivity|]. done. }
  rewrite service_update. case_decide; auto.
Qed.

Lemma registry_ok es s : run metrics_step metrics_init es = Some s -> forall name, counters_ok (service name (registry s)).
Proof.
  apply (run_invariant metrics_step (fun s => forall name, counters_ok (service name (registry s)))).
  - intros name. unfold service. simpl. by rewrite lookup_empty.
  - intros ???. apply registry_ok_step.
Qed.

Lemma moved_0 c : counters_ok c -> moved 0 0 c = c.
Proof.
  intros [H1 H2]. unfold moved, add_up, add_down, fetch_add. simpl. rewrite !N.add_0_r, !N.mod_small by done. by destruct c.
Qed.

(** ** Properties *)

(** A routed connection is accounted for exactly once: in any reachable state of the
    metrics, its trace runs; the service has served one connection more and has as many
    active as before; the bytes up and down are those of all its exchanges, wrapped at 64
    bits; one outcome is counted; the guard is gone; and no other service is touched. *)
Theorem connection_accounted {F : Flowscope} es s id svc (exchanges : list (Exchange * list bytes)) o :
  run metrics_step metrics_init es = Some s -> guards s !! id = None ->
  let ups := mjoin ((fun '(x, _) => published x) <$> exchanges) in
  let downs := mjoin (snd <$> exchanges) in
  exists s', run metrics_step s (connection_events id svc exchanges o) = Some s' /\ guards s' = guards s /\
    forall name, service name (registry s') =
      if decide (name = svc) then
        drop_counters (set_outcome o (moved (total_size ups) (total_size downs) (start_counters (service name (registry s)))))
      else service name (registry s).
Proof.
  intros Hr Hid ups downs. unfold connection_events. simpl. rewrite Hid. simpl.
  set (s1 := {| registry := update_service svc start_counters (registry s); guards := _ |}).
  set (es' := concat ((fun '(x, w) => exchange_events id x w) <$> exchanges)).
  assert (Forall (moves id) es') as Hmoves.
  { unfold es', exchange_events, add_ups, add_downs. apply Forall_concat, Forall_fmap, Forall_forall.
    intros [x w] _. simpl. apply Forall_app; split; apply Forall_fmap, Forall_forall; intros c _; simpl; unfold moves; eauto. }
  assert (forall name, counters_ok (service name (registry s1))) as Hok1.
  { intros name. simpl. rewrite service_update. pose proof (registry_ok es s Hr name). by case_decide. }
  destruct (moved_run id svc es' s1 s1 0 0) as (s2 & Hr2 & [(g & Hg & Hs) Hc]); [|done|].
  { split; [eexists; split; [symmetry; apply insert_id; simpl; apply lookup_insert_eq|done]|].
    intros name. rewrite moved_0 by done. by case_decide. }
  rewrite run_app, Hr2. simpl. rewrite Hg, lookup_insert_eq. simpl. rewrite lookup_insert_eq. simpl. eexists.
  split; [reflexivity|]. simpl.
  assert (foldr N.add 0%N (size_up <$> es') = total_size ups /\ foldr N.add 0%N (size_down <$> es') = total_size downs) as [Eu Ed].
  { unfold es', ups, downs, total_size. clear. induction exchanges as [|[x w] l [IH1 IH2]]; csimpl; [done|].
    rewrite !sum_app, IH1, IH2. destruct (sum_exchange id x w) as [-> ->]. unfold total_size.
    rewrite !concat_app, !length_app. split; lia. }
  split; [rewrite !insert_insert_eq; by apply delete_insert_id|].
  intros name. rewrite !service_update, Hs. specialize (Hc name). rewrite !N.add_0_l, Eu, Ed in Hc. simpl in Hc.
  rewrite service_update in Hc. destruct (decide (svc = name)) as [<-|Hne].
  - rewrite !decide_True in * by done. by rewrite Hc.
  - by rewrite !(decide_False (P := name = svc)) in * by congruence.
Qed.
