(* ===== verification/Accept.v ===== *)
(** * Accept: listeners and their accept loop ([src/import/mod.rs],
    [src/import/accept.rs], [src/import/listener.rs])

    [run_listener] picks a door for a parsed [--listen] value; every door runs the
    same loop, which bounds the connections in flight and drains them on shutdown. *)

From S2P Require Import Prelude Text Config Net Spec.

(** ** Starting a listener *)

Inductive StartError : Type :=
| BadImportSpec
| BadServiceName (e : NameError)
| BadListenAddress
| TlsMaterial (cert key : str)
| Unsupported (spec : str).

Definition parse_import_spec (import_spec : str) : result StartError (str * SocketAddr) :=
  match split_list "/" import_spec with
  | [service_name; addr] =>
      _ ← map_err BadServiceName (validate_service_name service_name);
      listen_addr ← ok_or (parse_socket_addr addr) BadListenAddress;
      Ok (service_name, listen_addr)
  | _ => Err BadImportSpec
  end.

Inductive Door : Type := RawTunnel | AutoDetect | PerRequest | TlsTerminate (cert key : str).

Record Listener : Type := { service : str; listen_addr : SocketAddr; door : Door }.

Section RunListener.
(** [load_tls_config] succeeds on a certificate and a key. *)
Context (load_tls_config : str -> str -> bool).

Definition start (d : Door) (mode_spec : str) : result StartError Listener :=
  '(s, a) ← parse_import_spec mode_spec;
  Ok {| service := s; listen_addr := a; door := d |}.

Definition run_listener (spec : ListenSpec) : result StartError Listener :=
  let mode_spec := l_service spec ++ "/"%char :: show_socket_addr (l_addr spec) in
  match l_proto spec, l_tls spec, l_route spec with
  | Raw, Passthrough, Connection => start RawTunnel mode_spec
  | Auto, Passthrough, Connection => start AutoDetect mode_spec
  | Auto, Passthrough, Request => start PerRequest mode_spec
  | Auto, Terminate cert key, Connection =>
      _ ← ensure (load_tls_config cert key) (TlsMaterial cert key);
      start (TlsTerminate cert key) mode_spec
  | _, _, _ => Err (Unsupported (show_listen spec))
  end.

Definition door_of (spec : ListenSpec) : Door :=
  match l_tls spec with
  | Terminate cert key => TlsTerminate cert key
  | Passthrough =>
      match l_proto spec, l_route spec with
      | Raw, _ => RawTunnel
      | Auto, Connection => AutoDetect
      | Auto, Request => PerRequest
      end
  end.

Lemma parse_import_spec_show s a :
  name_ok s -> addr_wf a -> parse_import_spec (s ++ "/"%char :: show_socket_addr a) = Ok (s, a).
Proof using Type.
  intros Hs Ha. unfold parse_import_spec.
  assert (split_list "/" (s ++ "/"%char :: show_socket_addr a) = [s; show_socket_addr a]) as ->.
  { change (s ++ "/"%char :: show_socket_addr a) with (join "/" s [show_socket_addr a]).
    unfold split_list. rewrite split_join; [done| |].
    - by apply name_no_char.
    - constructor; [|done]. by eapply addr_text_not_in; [|apply show_addr_chars]. }
  rewrite (proj2 (validate_service_name_Ok s tt) Hs). simpl.
  by rewrite (parse_show_socket_addr a Ha).
Qed.

Lemma run_listener_ok x :
  listen_ok x -> (forall cert key, l_tls x = Terminate cert key -> load_tls_config cert key = true) ->
  run_listener x = Ok {| service := l_service x; listen_addr := l_addr x; door := door_of x |}.
Proof using Type.
  intros (Hn & Ha & _ & Hc) Hload. unfold run_listener, start, door_of.
  rewrite (parse_import_spec_show _ _ Hn Ha).
  unfold combination_ok in Hc.
  destruct (l_proto x), (l_tls x) as [|cert key], (l_route x); simpl in *; try done; try tauto;
    by rewrite (Hload cert key).
Qed.
End RunListener.

(** ** The accept loop *)

Inductive Phase : Type :=
| Acquiring       (** waiting for a permit, or the shutdown *)
| Accepting       (** holding a permit: the second [select!] *)
| BackingOff      (** the 100 ms after a failed accept *)
| Draining        (** [drain_tasks]'s voluntary window *)
| Grace           (** after [conn_shutdown.cancel()] *)
| Stopped.

#[export] Instance Phase_eq_dec : EqDecision Phase.
Proof. solve_decision. Defined.

(** [finished]: tasks that ended and are not yet joined; [aborted]: tasks whose abort was
    requested, which end at their next await. *)
Record AcceptLoop : Type := {
  phase : Phase;
  permits : nat;
  running : gset nat;
  finished : gset nat;
  spawned : nat;
  shutdown : bool;
  conn_cancelled : bool;
  aborted : gset nat;
}.

Definition accept_init (max_connections : nat) : AcceptLoop := {|
  phase := Acquiring; permits := max_connections; running := ∅; finished := ∅; spawned := 0;
  shutdown := false; conn_cancelled := false; aborted := ∅;
|}.

Inductive AcceptEvent : Type :=
| Acquired                 (** [conn_limit.acquire_owned()] *)
| Accepted
| AcceptFailed
| BackoffOver
| Reaped (id : nat)        (** [tasks.join_next()] while idle *)
| SawShutdown
| Shutdown                 (** the token is cancelled, from outside *)
| TaskDone (id : nat)      (** a handler returns, or its abort lands; its permit is dropped *)
| Joined (id : nat)        (** [join_next] inside the drain *)
| DrainTimeout
| GraceExpired.

(** The parts of the state a transition leaves alone keep their old value. *)
Definition with_phase (p : Phase) (permits' : nat) (finished' : gset nat) (s : AcceptLoop) : AcceptLoop := {|
  phase := p; permits := permits'; running := running s; finished := finished'; spawned := spawned s;
  shutdown := shutdown s; conn_cancelled := conn_cancelled s; aborted := aborted s;
|}.

(** [drain_tasks] returns at once on an empty set, and as soon as it is. *)
Definition drained (running finished : gset nat) (p : Phase) : Phase :=
  if decide (running = ∅ /\ finished = ∅) then Stopped else p.

Definition accept_step (s : AcceptLoop) (e : AcceptEvent) : option AcceptLoop :=
  match e with
  | Shutdown => Some {| phase := phase s; permits := permits s; running := running s; finished := finished s;
                        spawned := spawned s; shutdown := true; conn_cancelled := conn_cancelled s;
                        aborted := aborted s |}
  | TaskDone id =>
      if decide (id ∈ running s) then
        Some {| phase := phase s; permits := S (permits s); running := running s ∖ {[id]};
                finished := {[id]} ∪ finished s; spawned := spawned s; shutdown := shutdown s;
                conn_cancelled := conn_cancelled s; aborted := aborted s |}
      else None
  | Acquired =>
      match phase s, permits s with
      | Acquiring, S p => Some (with_phase Accepting p (finished s) s)
      | _, _ => None
      end
  | Accepted =>
      if decide (phase s = Accepting) then
        Some {| phase := Acquiring; permits := permits s; running := {[spawned s]} ∪ running s;
                finished := ∅; spawned := S (spawned s); shutdown := shutdown s;
                conn_cancelled := conn_cancelled s; aborted := aborted s |}
      else None
  | AcceptFailed =>
      if decide (phase s = Accepting) then Some (with_phase BackingOff (S (permits s)) (finished s) s) else None
  | BackoffOver =>
      if decide (phase s = BackingOff) then Some (with_phase Acquiring (permits s) ∅ s) else None
  | Reaped id =>
      if decide (phase s = Accepting /\ id ∈ finished s) then
        Some (with_phase Acquiring (S (permits s)) (finished s ∖ {[id]}) s)
      else None
  | SawShutdown =>
      if shutdown s then
        match phase s with
        | Acquiring => Some (with_phase (drained (running s) (finished s) Draining) (permits s) (finished s) s)
        | Accepting => Some (with_phase (drained (running s) (finished s) Draining) (S (permits s)) (finished s) s)
        | _ => None
        end
      else None
  | Joined id =>
      if decide ((phase s = Draining \/ phase s = Grace) /\ id ∈ finished s) then
        Some (with_phase (drained (running s) (finished s ∖ {[id]}) (phase s)) (permits s) (finished s ∖ {[id]}) s)
      else None
  | DrainTimeout =>
      if decide (phase s = Draining) then
        Some {| phase := Grace; permits := permits s; running := running s; finished := finished s;
                spawned := spawned s; shutdown := shutdown s; conn_cancelled := true; aborted := aborted s |}
      else None
  | GraceExpired =>
      if decide (phase s = Grace) then
        Some {| phase := Stopped; permits := permits s; running := running s; finished := finished s;
                spawned := spawned s; shutdown := shutdown s; conn_cancelled := conn_cancelled s;
                aborted := running s |}
      else None
  end.

(** ** Its invariant *)

Definition held (s : AcceptLoop) : nat := match phase s with Accepting => 1 | _ => 0 end.

Definition stopping (p : Phase) : Prop := p = Draining \/ p = Grace \/ p = Stopped.

Definition accept_inv (max : nat) (s : AcceptLoop) : Prop :=
  permits s + held s + size (running s) = max /\
  (forall id, id ∈ running s -> id < spawned s) /\
  (stopping (phase s) -> shutdown s = true) /\
  (phase s = Stopped -> running s ⊆ aborted s) /\
  (phase s <> Stopped -> aborted s = ∅) /\
  (phase s = Grace \/ aborted s <> ∅ -> conn_cancelled s = true).

Lemma size_delete (X : gset nat) id : id ∈ X -> size X = S (size (X ∖ {[id]})).
Proof.
  intros Hin. replace X with ({[id]} ∪ X ∖ {[id]}) at 1.
  - rewrite size_union by set_solver. by rewrite size_singleton.
  - apply leibniz_equiv. rewrite <- union_difference_singleton; done.
Qed.

Lemma drained_cases X Y p :
  (drained X Y p = Stopped /\ X = ∅ /\ Y = ∅) \/ drained X Y p = p.
Proof. unfold drained. case_decide; [left; tauto|by right]. Qed.

Lemma accept_inv_step max s e s' : accept_inv max s -> accept_step s e = Some s' -> accept_inv max s'.
Proof.
  intros (Hp & Hid & Hst & Hrun & Hab & Hcc) H. unfold accept_inv, held, stopping in *.
  destruct e as [| | | |id| | |id|id| |]; simpl in H.
  - destruct (phase s) eqn:E, (permits s) eqn:Ep; try done. injection H as <-. simpl.
    split_and!; naive_solver lia.
  - case_decide as E; [|done]. injection H as <-. rewrite E in *. simpl.
    assert (spawned s ∉ running s) by (intros Hin%Hid; lia).
    rewrite size_union, size_singleton by set_solver.
    split_and!; [lia| |naive_solver..]. intros id [->%elem_of_singleton|Hin%Hid]%elem_of_union; lia.
  - case_decide as E; [|done]. injection H as <-. rewrite E in *. simpl. split_and!; naive_solver lia.
  - case_decide as E; [|done]. injection H as <-. rewrite E in *. simpl. split_and!; naive_solver lia.
  - case_decide as E; [|done]. destruct E as [E Hin]. injection H as <-. rewrite E in *. simpl.
    split_and!; naive_solver lia.
  - destruct (shutdown s) eqn:Es; [|done].
    destruct (phase s) eqn:E; try done; injection H as <-; simpl;
      destruct (drained_cases (running s) (finished s) Draining) as [(-> & HX & _)| ->];
      split_and!; first [by (intros _; rewrite HX; apply empty_subseteq) | naive_solver lia].
  - injection H as <-. simpl. split_and!; naive_solver.
  - case_decide as Hin; [|done]. injection H as <-. simpl. pose proof (size_delete _ _ Hin).
    split_and!; [lia|set_solver|done|set_solver|done|done].
  - case_decide as Hin; [|done]. destruct Hin as [Hph Hin]. injection H as <-. simpl.
    destruct (drained_cases (running s) (finished s ∖ {[id]}) (phase s)) as [(-> & HX & _)| ->];
      split_and!; destruct Hph as [E|E]; rewrite E in *;
      first [by (intros _; rewrite HX; apply empty_subseteq) | naive_solver lia].
  - case_decide as E; [|done]. injection H as <-. rewrite E in *. simpl. split_and!; naive_solver lia.
  - case_decide as E; [|done]. injection H as <-. rewrite E in *. simpl. split_and!; naive_solver lia.
Qed.

Lemma accept_inv_run max es s : run accept_step (accept_init max) es = Some s -> accept_inv max s.
Proof.
  apply (run_invariant accept_step (accept_inv max)); [|intros ???; apply accept_inv_step].
  unfold accept_inv, held, stopping.
  change (running (accept_init max)) with (∅ : gset nat). rewrite size_empty. simpl.
  split_and!; [lia|set_solver|intros [?|[?|?]]; done|done|done|intros [?|?]; done].
Qed.

(** Once stopping, a loop never accepts again. *)
Lemma stopping_closed s e s' :
  stopping (phase s) -> accept_step s e = Some s' -> stopping (phase s') /\ spawned s' = spawned s.
Proof.
  unfold stopping. intros Hs H. destruct e as [| | | |id| | |id|id| |]; simpl in H.
  8: { case_decide as Hd; [|done]. by injection H as <-. }
  8: { case_decide as Hd; [|done]. injection H as <-. simpl.
       destruct (drained_cases (running s) (finished s ∖ {[id]}) (phase s)) as [(-> & _)| ->]; auto. }
  7: by injection H as <-.
  6: { destruct (shutdown s); [|done]. destruct Hs as [E|[E|E]]; by rewrite E in H. }
  1: destruct Hs as [E|[E|E]]; by rewrite E in H.
  all: case_decide as Hd; [|done]; injection H as <-; simpl; try (by auto);
    destruct Hs as [E|[E|E]]; rewrite E in Hd; naive_solver.
Qed.

Lemma stopping_run es s s' :
  stopping (phase s) -> run accept_step s es = Some s' -> stopping (phase s') /\ spawned s' = spawned s.
Proof.
  intros Hs. apply (run_invariant accept_step (fun x => stopping (phase x) /\ spawned x = spawned s)); [done|].
  intros x e x' [Hx Hn] H. destruct (stopping_closed _ _ _ Hx H) as [? E]. split; [done|congruence].
Qed.

(** The two timers end a drain, whatever its tasks do. *)
Definition timers (p : Phase) : list AcceptEvent :=
  match p with Draining => [DrainTimeout; GraceExpired] | Grace => [GraceExpired] | _ => [] end.

Lemma timers_stop s :
  stopping (phase s) ->
  exists s', run accept_step s (timers (phase s)) = Some s' /\ phase s' = Stopped /\ running s' = running s.
Proof.
  unfold stopping. intros [E|[E|E]]; rewrite E; simpl; [|rewrite E; simpl; eauto|eauto].
  rewrite E. simpl. eauto.
Qed.

(** As its tasks end the loop stays where it is. *)
Lemma tasks_end l s :
  NoDup l -> (forall id, id ∈ l -> id ∈ running s) ->
  exists s', run accept_step s (TaskDone <$> l) = Some s' /\ phase s' = phase s /\
    forall id, id ∈ running s' <-> id ∈ running s /\ id ∉ l.
Proof.
  revert s. induction l as [|id l IH]; intros s Hnd Hin.
  - exists s. split_and!; [done|done|]. intros j. split; [intros Hj; split; [done|apply not_elem_of_nil]|tauto].
  - apply NoDup_cons in Hnd as [Hn Hnd].
    assert (accept_step s (TaskDone id) = Some {| phase := phase s; permits := S (permits s); running := running s ∖ {[id]};
      finished := {[id]} ∪ finished s; spawned := spawned s; shutdown := shutdown s;
      conn_cancelled := conn_cancelled s; aborted := aborted s |}) as Hs by (simpl; rewrite decide_True; [done|apply Hin; by left]).
    destruct (IH {| phase := phase s; permits := S (permits s); running := running s ∖ {[id]};
      finished := {[id]} ∪ finished s; spawned := spawned s; shutdown := shutdown s;
      conn_cancelled := conn_cancelled s; aborted := aborted s |} Hnd) as (s' & Hr & Hp & Hs').
    { intros j Hj. simpl. apply elem_of_difference. split; [apply Hin; by right|]. intros ->%elem_of_singleton. done. }
    exists s'. rewrite fmap_cons. cbn [run]. rewrite Hs. split_and!; [exact Hr|exact Hp|].
    intros j. rewrite Hs'. simpl. rewrite elem_of_difference, elem_of_singleton, not_elem_of_cons. tauto.
Qed.

(** The timers, and then the aborted tasks' ends. *)
Lemma drain_empties s :
  stopping (phase s) ->
  exists s', run accept_step s (timers (phase s) ++ (TaskDone <$> elements (running s))) = Some s' /\
    phase s' = Stopped /\ running s' = ∅.
Proof.
  intros (s1 & Hr & Hp & Hrun)%timers_stop.
  destruct (tasks_end (elements (running s)) s1) as (s' & Hr' & Hp' & Hl); [apply NoDup_elements|..].
  { intros id Hid%elem_of_elements. by rewrite Hrun. }
  exists s'. rewrite run_app, Hr. split_and!; [done|congruence|].
  apply leibniz_equiv, elem_of_equiv_empty. intros id [Hid Hn]%Hl. apply Hn, elem_of_elements. by rewrite <- Hrun.
Qed.

(** ** Properties *)

(** A [--listen] value that parses starts the door it asks for: its canonical
    'service/addr' form parses back to the same service and address, IPv6 included,
    and no combination of options that parsing admits is refused, so only the TLS
    material can fail. *)
Theorem listener_starts (load_tls_config : str -> str -> bool) (s : str) (x : ListenSpec) :
  parse_listen s = Ok x ->
  (forall cert key, l_tls x = Terminate cert key -> load_tls_config cert key = true) ->
  run_listener load_tls_config x =
    Ok {| service := l_service x; listen_addr := l_addr x; door := door_of x |}.
Proof. intros Hp Hl. apply run_listener_ok; [by eapply parse_listen_ok|done]. Qed.

Lemma listener_starts_witness :
  exists x, parse_listen "web/[2001:db8::1]:443,cert=c.pem,key=k.pem" = Ok x /\
    run_listener (fun _ _ => true) x =
      Ok {| service := l_service x; listen_addr := l_addr x; door := TlsTerminate "c.pem" "k.pem" |}.
Proof.
  eexists. split; [vm_compute; reflexivity|].
  by eapply (listener_starts (fun _ _ => true) "web/[2001:db8::1]:443,cert=c.pem,key=k.pem").
Defined.

(** C27: the accept loop.  Under every interleaving of clients, handlers, timers and
    the shutdown, at most [max_connections] connection tasks run, each holding
    exactly one permit, so none is lost; after the loop has seen the shutdown it
    accepts nothing more, in any continuation; no task is aborted before the
    connections were told to stop; once the loop has stopped every task that still runs
    has been aborted; and the drain always ends, by its two timers at the latest, and
    leaves no task when the aborted ones have reached their next await. *)
Theorem accept_loop_bounded max es s :
  run accept_step (accept_init max) es = Some s ->
  size (running s) <= max /\ permits s + held s + size (running s) = max /\
  (aborted s <> ∅ -> conn_cancelled s = true /\ phase s = Stopped) /\
  (phase s = Stopped -> running s ⊆ aborted s) /\
  (stopping (phase s) ->
     shutdown s = true /\
     (forall es' s', run accept_step s es' = Some s' -> spawned s' = spawned s) /\
     (exists s', run accept_step s (timers (phase s)) = Some s' /\ phase s' = Stopped) /\
     exists s', run accept_step s (timers (phase s) ++ (TaskDone <$> elements (running s))) = Some s' /\
       phase s' = Stopped /\ running s' = ∅).
Proof.
  intros (Hp & _ & Hst & Hrun & Hab & Hcc)%accept_inv_run. split_and!; [lia|done| |done|].
  - intros Hne. split; [by apply Hcc; right|]. destruct (decide (phase s = Stopped)); [done|].
    by destruct Hne; apply Hab.
  - intros Hs. split_and!; [by apply Hst| | |by apply drain_empties].
    + intros es' s' Hr. by apply (stopping_run es').
    + destruct (timers_stop _ Hs) as (s' & ? & ? & _). by exists s'.
Qed.

Definition busy_shutdown : list AcceptEvent :=
  [Acquired; Accepted; Acquired; Accepted; TaskDone 0; Shutdown; SawShutdown; DrainTimeout].

Lemma accept_loop_bounded_witness :
  exists s, run accept_step (accept_init 2) busy_shutdown = Some s /\ phase s = Grace /\
    spawned s = 2 /\ permits s = 1 /\ size (running s) = 1 /\
    exists s', run accept_step s (timers (phase s)) = Some s' /\ phase s' = Stopped.
Proof.
  assert ((fun s => (phase s, spawned s, permits s)) <$> run accept_step (accept_init 2) busy_shutdown
            = Some (Grace, 2, 1)) as H by (vm_compute; reflexivity).
  destruct (run accept_step (accept_init 2) busy_shutdown) as [s|] eqn:E; [|discriminate H].
  simpl in H. injection H as Hp Hn Hm. exists s.
  destruct (accept_loop_bounded 2 busy_shutdown s E) as (_ & Hsum & _ & _ & Hs).
  unfold held in Hsum. rewrite Hp, Hm in Hsum. simpl in Hsum.
  split_and!; [done|done|done|done|lia|]. apply Hs. right. by left.
Defined.
