(* ===== verification/Doors.v ===== *)
(** * Doors: from a listener to its connections ([run_listener_with_readiness] and the
    entry points of [src/import/mod.rs]; the mode runners of [listener.rs], [auto.rs],
    [tls.rs], [ws.rs] and [multiroute.rs]; the head of [run_accept_loop])

    A runner parses its spec, binds, reports readiness and enters the accept loop of
    [Accept]; each connection then runs the runner's own handler. *)

From S2P Require Import Prelude Text Config Net Dns Spec KeySpace Transport Dial Heads Routing Accept.

Inductive Runner : Type :=
| RunImport (http_mode : bool)
| RunAuto
| RunHttpsTerminate
| RunWs
| RunMultiroute.

Record AcceptLoopCfg : Type := { mode : str; client_id_prefix : str }.

Definition accept_cfg (r : Runner) : AcceptLoopCfg :=
  match r with
  | RunImport http_mode =>
      {| mode := if http_mode then lit "http_import" else lit "import"; client_id_prefix := lit "client_" |}
  | RunAuto => {| mode := lit "auto_import"; client_id_prefix := lit "client_" |}
  | RunHttpsTerminate => {| mode := lit "https_terminate"; client_id_prefix := lit "client_" |}
  | RunWs => {| mode := lit "ws_import"; client_id_prefix := lit "wsclient_" |}
  | RunMultiroute => {| mode := lit "http_multiroute"; client_id_prefix := lit "client_" |}
  end.

(** [format!("{}{}", client_id_prefix, uuid)]. *)
Definition client_id (cfg : AcceptLoopCfg) (uuid : str) : str := client_id_prefix cfg ++ uuid.

Definition runner_of (d : Door) : Runner :=
  match d with
  | RawTunnel => RunImport false
  | AutoDetect => RunAuto
  | PerRequest => RunMultiroute
  | TlsTerminate _ _ => RunHttpsTerminate
  end.

(** What becomes of the sender [on_bound]. *)
Inductive Report : Type := Sent | DroppedUnsent.

Inductive DoorError : Type :=
| NotStarted (e : StartError)
| BindFailed (addr : SocketAddr).

(** A listener that accepts: [bound_addr] is only logged. *)
Record Open : Type := {
  o_cfg : AcceptLoopCfg;
  o_service : str;
  bound_addr : SocketAddr;
  o_loop : AcceptLoop;
}.

Section OpenLoop.
(** [TcpListener::bind], with [local_addr] if that succeeds; the TLS files. *)
Context (bind : SocketAddr -> option (option SocketAddr)) (load_tls_config : str -> str -> bool).
Context (config : BridgeConfig).

(** [run_accept_loop], up to its loop. *)
Definition open_loop (cfg : AcceptLoopCfg) (service_name : str) (listen_addr : SocketAddr)
    : result DoorError Open * Report :=
  match bind listen_addr with
  | None => (Err (BindFailed listen_addr), DroppedUnsent)
  | Some local_addr =>
      (Ok {| o_cfg := cfg; o_service := service_name; bound_addr := default listen_addr local_addr;
             o_loop := accept_init (N.to_nat (max_connections config)) |}, Sent)
  end.

(** A mode runner, on a 'service/addr' text. *)
Definition run_mode (cfg : AcceptLoopCfg) (import_spec : str) : result DoorError Open * Report :=
  match parse_import_spec import_spec with
  | Ok (service_name, listen_addr) => open_loop cfg service_name listen_addr
  | Err e => (Err (NotStarted e), DroppedUnsent)
  end.

Definition run_import_mode_internal (http_mode : bool) := run_mode (accept_cfg (RunImport http_mode)).
Definition run_auto_import_mode := run_mode (accept_cfg RunAuto).
Definition run_https_terminate_import_mode := run_mode (accept_cfg RunHttpsTerminate).
Definition run_ws_import_mode := run_mode (accept_cfg RunWs).
Definition run_http_multiroute_import_mode := run_mode (accept_cfg RunMultiroute).

Definition run_import_mode := run_import_mode_internal false.
Definition run_http_import_mode := run_import_mode_internal true.

(** The runner of the door that [Accept.run_listener] picks. *)
Definition run_listener_with_readiness (spec : ListenSpec) : result DoorError Open * Report :=
  let mode_spec := l_service spec ++ "/"%char :: show_socket_addr (l_addr spec) in
  match run_listener load_tls_config spec with
  | Ok l =>
      match door l with
      | RawTunnel => run_import_mode_internal false mode_spec
      | AutoDetect => run_auto_import_mode mode_spec
      | PerRequest => run_http_multiroute_import_mode mode_spec
      | TlsTerminate _ _ => run_https_terminate_import_mode mode_spec
      end
  | Err e => (Err (NotStarted e), DroppedUnsent)
  end.
End OpenLoop.

(** ** One connection *)

Inductive Handled {F : Flowscope} : Type :=
| ByVerdict (v : option Verdict)
| ByRequest.                        (** [Multiroute.handle_multiroute] *)

Section Connection.
Context {F : Flowscope} {U : UnicodeCase} (reason : HeadError -> str).
Context (config : BridgeConfig) (service_name : str).

(** [timeout(read_timeout, tls_acceptor.accept(stream))]: the negotiated stream, which is
    h2 or not. *)
Definition tls_door (handshake : Connect bool) (conn : Conn) : option Verdict :=
  match fst (attempt (read_timeout config) handshake) with
  | Ok is_h2 => handle_tls_terminated_connection reason config service_name conn is_h2
  | Err _ => Some Drop
  end.

Definition handle_connection (r : Runner) (handshake : Connect bool) (conn : Conn) : Handled :=
  match r with
  | RunImport http_mode => ByVerdict (handle_import_connection reason config service_name conn http_mode)
  | RunAuto => ByVerdict (handle_auto_import_connection reason config service_name conn)
  | RunHttpsTerminate => ByVerdict (tls_door handshake conn)
  | RunWs => ByVerdict (Some (handle_ws_import_connection conn))
  | RunMultiroute => ByRequest
  end.
End Connection.

(** ** What a listener promises *)

Lemma client_id_segment r uuid : segment uuid -> segment (client_id (accept_cfg r) uuid) /\ client_id (accept_cfg r) uuid <> [].
Proof.
  intros Hu. split; [|by destruct r].
  unfold segment, client_id. rewrite elem_of_app. intros [Hin|]; [|done].
  destruct r as [http| | | |]; simpl in Hin; revert Hin; vm_compute; set_solver.
Qed.

(** A listener reports readiness exactly when its socket accepts: the report is sent if and
    only if the door opens and the bind succeeds, and the loop then starts empty, with
    every permit free; any other outcome drops the sender unsent.  The connections it
    accepts get identifiers that are single, non-empty key segments, distinct for distinct
    UUIDs. *)
Theorem listener_reports_when_accepting bind load_tls_config config s x :
  parse_listen s = Ok x ->
  (forall cert key, l_tls x = Terminate cert key -> load_tls_config cert key = true) ->
  let (r, report) := run_listener_with_readiness bind load_tls_config config x in
  (report = Sent <-> is_Some (bind (l_addr x))) /\
  (is_ok r = true <-> report = Sent) /\
  (forall o, r = Ok o -> o_service o = l_service x /\ o_loop o = accept_init (N.to_nat (max_connections config)) /\
     o_cfg o = accept_cfg (runner_of (door_of x)) /\
     forall u1 u2, segment u1 -> segment (client_id (o_cfg o) u1) /\ client_id (o_cfg o) u1 <> [] /\
       (client_id (o_cfg o) u1 = client_id (o_cfg o) u2 -> u1 = u2)).
Proof.
  intros Hp%parse_listen_ok Hload. unfold run_listener_with_readiness. rewrite run_listener_ok by done. cbn [door].
  destruct Hp as (Hn & Ha & _).
  assert (forall cfg, run_mode bind config cfg (l_service x ++ "/"%char :: show_socket_addr (l_addr x)) =
    open_loop bind config cfg (l_service x) (l_addr x)) as Hm by (intros cfg; unfold run_mode; by rewrite parse_import_spec_show).
  replace (match door_of x with RawTunnel => _ | AutoDetect => _ | PerRequest => _ | TlsTerminate _ _ => _ end)
    with (open_loop bind config (accept_cfg (runner_of (door_of x))) (l_service x) (l_addr x))
    by (rewrite <- Hm; by destruct (door_of x)).
  unfold open_loop. destruct (bind (l_addr x)) as [local|].
  - split_and!; [by split; [eauto|]|done|]. intros o [= <-]. simpl. split_and!; [done..|].
    intros u1 u2 Hu. destruct (client_id_segment (runner_of (door_of x)) u1 Hu) as [H1 H2]. split_and!; [done..|].
    unfold client_id. by intros ?%app_inv_head.
  - split_and!; [split; [done|by intros []]|done|done].
Qed.

Lemma listener_reports_when_accepting_witness :
  exists x, parse_listen "web/127.0.0.1:80" = Ok x /\
    snd (run_listener_with_readiness (fun _ => Some None) (fun _ _ => true) BridgeConfig_default x) = Sent.
Proof.
  eexists. split; [vm_compute; reflexivity|].
  match goal with |- snd (run_listener_with_readiness ?b ?l ?c ?x) = _ =>
    pose proof (listener_reports_when_accepting b l c "web/127.0.0.1:80" x eq_refl) as H;
    destruct (run_listener_with_readiness b l c x) as [r report] end.
  destruct H as [H _]; [done|]. apply H. by eexists.
Defined.
