(* ===== verification/Routed.v ===== *)
(** * Routed: an accepted connection, from its first byte to its backend

    The parts of the bridge on one connection together: the door that reads its head and
    picks a backend ([Doors], [Routing], [Heads]), the keys that decide which exporter
    hears of it ([KeySpace]), and the two relays with the bus between them ([EndToEnd]),
    started with what the door hands over. *)

From S2P Require Import Prelude Text Config Dns KeySpace Metrics Backpressure Transport Relay ImportBridge ExportBridge Bus EndToEnd.
From S2P Require Import Dial Heads Routing Doors.

Section Routed.
Context {F : Flowscope} {FL : FlowscopeLaws F} {U : UnicodeCase} (reason : HeadError -> str).
Context (config : BridgeConfig) (service : str) (runner : Runner) (handshake : Connect bool) (conn : Conn).

(** The bytes that the door read and replays, as the socket gave them. *)
Definition read_by_door (r : Route) (head : list bytes) : Prop :=
  head `prefix_of` chunks (Routing.reads conn) /\
  match initial_buffer r with Some b => b = concat head /\ b <> [] | None => head = [] end.

(** The head that each listener routes by, as far as it decides that itself. *)
Definition door_kinds (kind : HeadKind) : Prop :=
  match runner with
  | RunImport true => import_kinds conn kind
  | RunAuto => auto_kinds conn kind
  | RunHttpsTerminate => exists is_h2, fst (attempt (read_timeout config) handshake) = Ok is_h2 /\ terminated_kinds is_h2 kind
  | _ => False
  end.

(** A connection that its listener does not read: all those of a raw or WebSocket listener,
    and those that the auto listener does not recognise. *)
Definition unread : Prop :=
  match runner with
  | RunImport http_mode => http_mode = false
  | RunWs => True
  | RunAuto => exists p undecided, classify_loop (peek64 conn) = Some (Some (p, undecided)) /\
      p <> Tls /\ p <> Http1 /\ p <> Http2Preface
  | _ => False
  end.

(** Where the connection goes: to the backend its own head names if that is alive, to the
    live default one if it is not or the head names none; unread, to the default one. *)
Definition routed_by (r : Route) : Prop :=
  route_ok config service conn door_kinds r \/ unread /\ dns r = None /\ initial_buffer r = None.

Context (Hreads : socket_reads (Routing.reads conn)) (Hmax : 0 < max_header config).
Context (Hfirst : runner = RunAuto -> first_read_ready conn).

Lemma routed_read r : routed_by r -> exists head, read_by_door r head.
Proof using Type.
  unfold read_by_door. intros [[_ Hi]|(_ & _ & ->)]; [|exists []; split; [apply prefix_nil|done]].
  destruct (initial_buffer r) as [b|]; [|exists []; split; [apply prefix_nil|done]].
  destruct Hi as [(n & _ & -> & Hne & _) _]. exists (take (S n) (chunks (Routing.reads conn))). split; [apply prefix_take|done].
Qed.

Lemma routed_key r k : routed_by r -> dns r = Some k -> routable k.
Proof using Type.
  intros [[(kind & named & _ & _ & Hd) _]|(_ & -> & _)] Ek; [|done]. rewrite Ek in Hd. apply Hd.
Qed.

(** Whatever the listener's mode. *)
Lemma handled_route r :
  handle_connection reason config service runner handshake conn = ByVerdict (Some (Routing.Bridge r)) -> routed_by r.
Proof using FL Hreads Hmax Hfirst.
  unfold handle_connection, routed_by, unread, door_kinds. intros H. destruct runner as [[]| | | |].
  - left. injection H as H. by apply (import_connection_ok reason config service conn Hreads Hmax) in H.
  - right. by injection H as <-.
  - injection H as H. specialize (Hfirst eq_refl). unfold handle_auto_import_connection in H.
    apply bind_Some in H as ([[p undecided]|] & Hp & H); [|done]. destruct p.
    + left. apply (import_connection_ok reason config service conn Hreads Hmax) in H.
      eapply (verdict_ok_weaken _ _ _ _ _ (Routing.Bridge r)); [|exact H]. intros kind Hk. by exists Tls, undecided.
    + left. apply (auto_http_ok reason config service conn Hreads Hmax) in H.
      eapply (verdict_ok_weaken _ _ _ _ _ (Routing.Bridge r)); [|exact H]. intros kind Hk. by exists Http1, undecided.
    + left. apply (h2c_ok config service conn Hreads Hmax) in H; [|done].
      eapply (verdict_ok_weaken _ _ _ _ _ (Routing.Bridge r)); [|exact H]. intros kind <-. by exists Http2Preface, undecided.
    + right. injection H as <-. split; [by exists Raw, undecided|done].
    + right. injection H as <-. split; [by exists OtherProtocol, undecided|done].
  - left. injection H as H. unfold tls_door in H. destruct (fst (attempt _ handshake)) as [is_h2|]; [|done].
    apply (tls_terminated_ok reason config service conn Hreads Hmax) in H.
    eapply (verdict_ok_weaken _ _ _ _ _ (Routing.Bridge r)); [|exact H]. intros kind Hk. by exists is_h2.
  - right. injection H as H. unfold handle_ws_import_connection in H. destruct (accept_ws conn); by simplify_eq.
  - done.
Qed.
End Routed.

(** The observer of the backend's bytes that the door asks for. *)
Definition tap_of {F : Flowscope} (service : str) (r : Route) : option (bytes -> GrpcStatusScanner * Metrics -> GrpcStatusScanner * Metrics) :=
  if response_tap r then Some (h2_response_tap service) else None.

(** Which exporter the connection's token reaches, and the keys they share. *)
Lemma meets_exporter {K : KeyExprs} {KL : KeyExprLaws K} s d c s' d' :
  scope_ok s d -> segment c -> c <> [] -> scope_ok s' d' ->
  (key_matches (liveliness_key s' d') (import_token_key s d c) = true <-> s' = s /\ d' = d) /\
  client_of_key (import_token_key s d c) = Some c /\
  import_tx_key s d c = export_sub_key s d c /\ import_rx_key s d c = export_pub_key s d c.
Proof.
  intros Hs Hc Hne Hs'. split; [by apply liveliness_sees|]. split; [by apply client_of_token|].
  by destruct (keys_agree s d c) as (-> & -> & _).
Qed.

(** ** Properties *)
Section Properties.
Context {F : Flowscope} {FL : FlowscopeLaws F} {U : UnicodeCase} (reason : HeadError -> str).
Context {K : KeyExprs} {KL : KeyExprLaws K}.
Context {M : Mpsc bytes} {L : MpscLaws M} {W1 W2 : Type}.
Context {TW1 : TransportWriter W1} {TL1 : TransportWriterLaws TW1}.
Context {TW2 : TransportWriter W2} {TL2 : TransportWriterLaws TW2}.

Lemma concat_eof (a b : list bytes) : concat (a ++ b ++ [[]]) = concat (a ++ b).
Proof using Type. by rewrite app_assoc, concat_snoc, app_nil_r. Qed.

(** C3: a connection is a byte pipe to the backend that its own head names, from its very
    first byte.  Whatever the listener's mode, when its handler bridges a connection: it
    routes it by the key of the first head in its own bytes (the authority of its first
    request, the server name of its ClientHello, or the peeked WebSocket request, as the
    listener's door reads it), to that backend, whose token was there when the
    handler asked, or to the live default one when it was not or the head names none; only a
    connection that its listener does not read goes to the default one unasked.  Of all
    exporters, those of exactly that service and host, and no others, hear of the client,
    under the identifier its listener gave it, and write to and read from the keys the
    import uses.  And in byte-exact mode, under every interleaving of the two sides and the
    bus, while the exporter is not reset and no loss went unreported, the backend has been
    written a prefix of the client's bytes, those that the handler read to decide first,
    and when the upload has closed, all of them; and likewise back to the client, with the
    observer of gRPC statuses looking on or not. *)
Theorem routed_connection_is_a_pipe config service runner handshake conn r uuid w1 w2 t0 es s :
  let c := client_id (accept_cfg runner) uuid in
  let tap := tap_of service r in
  name_ok service -> segment uuid ->
  socket_reads (Routing.reads conn) -> 0 < max_header config -> (runner = RunAuto -> first_read_ready conn) ->
  handle_connection reason config service runner handshake conn = ByVerdict (Some (Routing.Bridge r)) ->
  run (system_step (TW1 := TW1) (TW2 := TW2) config tap service (dns r) c (initial_buffer r))
    (system_init (M := M) config w1 w2 t0) es = Some s ->
  routed_by config service runner handshake conn r /\
  (forall s' d', scope_ok s' d' ->
     (key_matches (liveliness_key s' d') (import_token_key service (dns r) c) = true <-> s' = service /\ d' = dns r) /\
     client_of_key (import_token_key service (dns r) c) = Some c /\
     import_tx_key service (dns r) c = export_sub_key service (dns r) c /\
     import_rx_key service (dns r) c = export_pub_key service (dns r) c) /\
  (reliability config = Stream -> exists head, read_by_door conn r head /\
    let upload := concat (head ++ Relay.reads (relay_events (trace (fst s)))) in
    let download := concat (backend_sent s) in
    (export_unharmed config s ->
     wire (sink (export_relay s)) `prefix_of` wire w2 ++ upload /\
     (bus_task (export_relay s) = BDone Eof ->
      wire (sink (export_relay s)) = wire w2 ++ upload /\ half_closed (sink (export_relay s)) = true)) /\
    (import_unharmed config tap service (dns r) c (initial_buffer r) s ->
     wire (sink (import_relay s)) `prefix_of` wire w1 ++ download /\
     (bus_task (import_relay s) = BDone Eof ->
      wire (sink (import_relay s)) = wire w1 ++ download /\ half_closed (sink (import_relay s)) = true))).
Proof using FL KL L TL1 TL2.
  intros c tap Hn Hu Hr Hx Hf Hh Hrun.
  pose proof (handled_route reason config service runner handshake conn Hr Hx Hf r Hh) as Hroute.
  split; [done|]. split.
  { destruct (client_id_segment runner uuid Hu) as [Hc Hne]. intros s' d'. apply meets_exporter; [|done..].
    split; [done|]. intros h. by apply (routed_key config service runner handshake conn). }
  intros Hm. destruct (routed_read _ _ _ _ _ _ Hroute) as [head [Hp Hb]].
  exists head. split; [done|]. intros upload download.
  assert (initial_buffer r <> Some [] /\ concat (client_sent (initial_buffer r) s) = upload) as [Hini Eup].
  { unfold upload, client_sent. destruct (initial_buffer r) as [b|]; [destruct Hb as [-> Hb]|by subst head].
    split; [by intros [=]|]. simpl. by rewrite concat_app. }
  split; intros Hok; (split; [|intros Hend]).
  - rewrite <- Eup. by eapply upload_prefix.
  - destruct (upload_exact _ _ _ _ _ _ _ _ _ _ _ Hrun Hm Hini Hok Hend) as (chunks & Es & _ & -> & Hhc).
    rewrite <- Eup, Es, concat_eof. done.
  - by eapply download_prefix.
  - destruct (download_exact _ _ _ _ _ _ _ _ _ _ _ Hrun Hm Hok Hend) as (chunks & Es & _ & -> & Hhc).
    unfold download. rewrite Es, concat_snoc, app_nil_r. done.
Qed.
End Properties.

(** ** Example *)
Module Examples.
#[local] Existing Instances LineProtocol.line_flowscope LineProtocol.line_flowscope_laws ascii_case.
Import Routing.Examples.

(** The connection of [Routing.Examples], from its head to the backend's answer. *)
#[local] Notation web_run :=
  (run (system_step (M := list_mpsc bytes) (TW1 := tcp_writer) (TW2 := tcp_writer) BridgeConfig_default (tap_of "web" web_route) "web"
      (dns web_route) (client_id (accept_cfg (RunImport true)) "u1") (initial_buffer web_route))
    (system_init BridgeConfig_default fresh_tcp fresh_backend (GrpcStatusScanner_new, Metrics_new)) request_reply) (only parsing).

Definition web_bytes : str := "GET.api.local:80" ++ newline ++ "body/".

Lemma web_system_runs :
  match web_run with
  | Some s => wire (sink (export_relay s)) = web_bytes /\ bus_task (export_relay s) = BDone Eof /\
      was_reset (BusSide := export_side BridgeConfig_default) (side (snd s)) = false /\ gap (snd s) = false
  | None => False
  end.
Proof. vm_compute. repeat split. Qed.

Lemma routed_connection_is_a_pipe_witness :
  exists s head, web_run = Some s /\ route_ok BridgeConfig_default "web" web_conn (import_kinds web_conn) web_route /\
    read_by_door web_conn web_route head /\
    web_bytes = concat (head ++ Relay.reads (relay_events (trace (fst s)))).
Proof.
  pose proof web_system_runs as H. destruct (web_run) as [s|] eqn:E; [|destruct H].
  destruct H as (Hw & Hb & Hreset & Hgap).
  destruct (routed_connection_is_a_pipe (KL := star_exprs_laws) (L := list_mpsc_laws bytes) (TL1 := tcp_writer_laws)
    (TL2 := tcp_writer_laws) some_reason BridgeConfig_default "web" (RunImport true) Hangs web_conn web_route "u1"
    fresh_tcp fresh_backend (GrpcStatusScanner_new, Metrics_new) request_reply s) as (Ha & _ & Hpipe).
  - split; [discriminate|repeat constructor].
  - apply contains_char_not_elem. reflexivity.
  - exact web_reads.
  - exact default_max.
  - discriminate.
  - vm_compute. reflexivity.
  - exact E.
  - destruct (Hpipe eq_refl) as (head & Hd & Hup & _).
    exists s, head. split; [reflexivity|]. split; [destruct Ha as [Ha|[Hu _]]; [exact Ha|discriminate Hu]|]. split; [exact Hd|].
    destruct (Hup (conj Hreset Hgap)) as [_ Hall]. destruct (Hall Hb) as [Hall' _]. rewrite <- Hw. exact Hall'.
Defined.
End Examples.
