(* ===== verification/TlsConfig.v ===== *)
(** * TlsConfig: TLS material of a terminating listener ([src/tls_config.rs])

    The file system, the PEM reader and rustls's builder are parameters. *)

From S2P Require Import Prelude Text Spec Net Accept.

Class TlsLib : Type := {
  IoError : Type; File : Type; PemError : Type; Cert : Type; Key : Type; RustlsError : Type; ServerConfig : Type;
  open : str -> result IoError File;                    (** [File::open] *)
  certs : File -> list (result PemError Cert);          (** [rustls_pemfile::certs] *)
  private_key : File -> result PemError (option Key);   (** [rustls_pemfile::private_key] *)
  with_single_cert : list Cert -> Key -> result RustlsError ServerConfig;
  alpn_protocols : ServerConfig -> list str;
  set_alpn : list str -> ServerConfig -> ServerConfig;  (** the field's assignment *)
}.

Class TlsLibLaws (T : TlsLib) : Prop :=
  alpn_set : forall ps c, alpn_protocols (set_alpn ps c) = ps.

Inductive TlsError {T : TlsLib} : Type :=
| OpenCert (path : str) (e : IoError)
| ParseCerts (e : PemError)
| NoCertificates (path : str)
| OpenKey (path : str) (e : IoError)
| ParseKey (e : PemError)
| NoPrivateKey (path : str)
| BuildTls (e : RustlsError).

Section Load.
Context {T : TlsLib}.

Definition load_tls_config (cert_path key_path : str) : result TlsError ServerConfig :=
  cert_file ← map_err (OpenCert cert_path) (open cert_path);
  cs ← map_err ParseCerts (collect id (certs cert_file));
  _ ← ensure (negb (bool_decide (cs = []))) (NoCertificates cert_path);
  key_file ← map_err (OpenKey key_path) (open key_path);
  ko ← map_err ParseKey (private_key key_file);
  key ← ok_or ko (NoPrivateKey key_path);
  config ← map_err BuildTls (with_single_cert cs key);
  Ok (set_alpn [lit "h2"; lit "http/1.1"] config).
End Load.

Section Laws.
Context {T : TlsLib} {TL : TlsLibLaws T}.

(** What the files must hold. *)
Definition material_ok (cert_path key_path : str) (chain : list Cert) (key : Key) : Prop :=
  (exists f, open cert_path = Ok f /\ certs f = Ok <$> chain) /\ chain <> [] /\
  (exists f, open key_path = Ok f /\ private_key f = Ok (Some key)) /\
  exists c, with_single_cert chain key = Ok c.

Lemma collect_id_Ok {E A} (l : list (result E A)) ys : collect id l = Ok ys <-> l = Ok <$> ys.
Proof using Type.
  rewrite collect_Ok. unfold id. split.
  - induction 1 as [|r y l' ys' Hr _ IH]; csimpl; [done|]. by rewrite Hr, IH.
  - intros ->. induction ys; simpl; by constructor.
Qed.

Lemma load_tls_config_Ok cert_path key_path c :
  load_tls_config cert_path key_path = Ok c <->
  exists chain key c0, material_ok cert_path key_path chain key /\ with_single_cert chain key = Ok c0 /\
    c = set_alpn [lit "h2"; lit "http/1.1"] c0.
Proof using Type.
  unfold load_tls_config, material_ok. split.
  - intros H. inv_guards. rename select (collect id _ = _) into Hc. apply collect_id_Ok in Hc.
    subst. naive_solver.
  - intros (chain & key & c0 & ((f & Hf & Hc) & Hn & (g & Hg & Hk) & _) & Hw & ->).
    apply collect_id_Ok in Hc. rewrite Hf. cbn. rewrite Hc. cbn.
    rewrite bool_decide_eq_false_2 by done. cbn. rewrite Hg. cbn. rewrite Hk. cbn. by rewrite Hw.
Qed.

(** A fault of the certificate file shows whatever the key file is. *)
Lemma cert_fault_first cert_path key_path key_path' e :
  load_tls_config cert_path key_path = Err e ->
  match e with OpenCert _ _ | ParseCerts _ | NoCertificates _ => True | _ => False end ->
  load_tls_config cert_path key_path' = Err e.
Proof using Type.
  unfold load_tls_config. destruct (open cert_path) as [f|]; cbn; [|congruence].
  destruct (collect id (certs f)) as [cs|]; cbn; [|congruence].
  destruct (negb (bool_decide (cs = []))); cbn; [|congruence].
  destruct (open key_path) as [g|]; cbn; [|by intros [= <-]].
  destruct (private_key g) as [[k|]|]; cbn; [|by intros [= <-]..].
  destruct (with_single_cert cs k); cbn; [done|by intros [= <-]].
Qed.

(** A terminating listener starts exactly on sound TLS material.  For a parsed
    [--listen] value with a certificate and a key, the listener starts if and only if the
    chain file opens, parses and holds a certificate, the key file opens and holds a key,
    and rustls accepts the pair; it then offers h2 before http/1.1, and is otherwise the
    listener asked for.  Every failure is the listener's TLS error, and a faulty chain is
    reported whatever the key file holds. *)
Theorem terminating_listener_starts s x cert_path key_path :
  parse_listen s = Ok x -> l_tls x = Terminate cert_path key_path ->
  let started := run_listener (fun c k => is_ok (load_tls_config c k)) x in
  (started = Ok {| service := l_service x; listen_addr := l_addr x; door := TlsTerminate cert_path key_path |} <->
     exists chain key, material_ok cert_path key_path chain key) /\
  (forall c, load_tls_config cert_path key_path = Ok c -> alpn_protocols c = [lit "h2"; lit "http/1.1"]) /\
  (forall e, load_tls_config cert_path key_path = Err e -> started = Err (TlsMaterial cert_path key_path) /\
     (match e with OpenCert _ _ | ParseCerts _ | NoCertificates _ => True | _ => False end ->
      forall key', load_tls_config cert_path key' = Err e)).
Proof using TL.
  intros Hp Htls started. apply parse_listen_ok in Hp as Hok.
  assert (forall e, load_tls_config cert_path key_path = Err e -> started = Err (TlsMaterial cert_path key_path)) as Herr.
  { intros e He. destruct Hok as (_ & _ & _ & Hc). unfold started, run_listener. rewrite Htls in *. rewrite He.
    unfold combination_ok in Hc. destruct (l_proto x), (l_route x); cbn; first [reflexivity|exfalso; simpl in Hc; tauto]. }
  split_and!.
  - split.
    + intros Hs. destruct (load_tls_config cert_path key_path) as [c|e] eqn:E; [|rewrite (Herr e) in Hs; done].
      apply load_tls_config_Ok in E as (chain & key & _ & Hm & _). by exists chain, key.
    + intros (chain & key & Hm). assert (exists c, load_tls_config cert_path key_path = Ok c) as [c Hc].
      { destruct (proj2 (proj2 (proj2 Hm))) as [c0 Hc0]. eexists. apply load_tls_config_Ok. by exists chain, key, c0. }
      unfold started. rewrite run_listener_ok; [by unfold door_of; rewrite Htls|done|].
      intros c' k'. rewrite Htls. intros [= <- <-]. by rewrite Hc.
  - intros c Hc. apply load_tls_config_Ok in Hc as (? & ? & c0 & _ & _ & ->). apply alpn_set.
  - intros e He. split; [by eapply Herr|]. intros Hm key'. by eapply cert_fault_first.
Qed.
End Laws.

(** ** A file system to evaluate it on: a certificate is a file of [C]s, a key is [K]. *)

#[local] Instance toy_tls : TlsLib := {|
  IoError := unit; File := str; PemError := unit; Cert := ascii; Key := unit; RustlsError := unit;
  ServerConfig := list ascii * list str;
  open path :=
    if decide (path = lit "c.pem") then Ok (lit "CC")
    else if decide (path = lit "bad.pem") then Ok (lit "CX")
    else if decide (path = lit "k.pem") then Ok (lit "K")
    else Err tt;
  certs f := (fun c => if decide (c = "C"%char) then Ok c else Err tt) <$> f;
  private_key f := Ok (if decide (f = lit "K") then Some tt else None);
  with_single_cert cs _ := Ok (cs, []);
  alpn_protocols := snd;
  set_alpn ps c := (fst c, ps);
|}.

#[local] Instance toy_tls_laws : TlsLibLaws toy_tls.
Proof. done. Qed.

Lemma terminating_listener_starts_witness :
  exists x, parse_listen "web/[2001:db8::1]:443,cert=c.pem,key=k.pem" = Ok x /\
    run_listener (fun c k => is_ok (load_tls_config c k)) x =
      Ok {| service := "web"; listen_addr := l_addr x; door := TlsTerminate "c.pem" "k.pem" |}.
Proof.
  eexists. split; [vm_compute; reflexivity|].
  eapply (terminating_listener_starts "web/[2001:db8::1]:443,cert=c.pem,key=k.pem"); [vm_compute; reflexivity..|].
  exists (lit "CC"), tt. unfold material_ok. repeat split; try (eexists; split; vm_compute; reflexivity); try done.
Defined.

(** A chain with one bad certificate stops the listener, key or no key. *)
Example bad_chain :
  load_tls_config "bad.pem" "missing.pem" = Err (ParseCerts tt) /\
  load_tls_config "c.pem" "bad.pem" = Err (NoPrivateKey "bad.pem").
Proof. split; vm_compute; reflexivity. Qed.
