(* ===== verification/Exports.v ===== *)
(** * Exports: backend attachment points ([src/export/mod.rs])

    [--backend] values and the three older export specifications both name a
    service and a backend for [run_export_loop] ([src/export/bridge.rs]), whose start is
    here and whose role loop is [ExportLoop]. *)

From S2P Require Import Prelude Text Config Dns Net Spec KeySpace Election ExportLoop.

Inductive ExportError : Type :=
| WrongParts
| ExportName (e : NameError)
| ExportHost (e : DnsError)
| BadBackendAddress
| NotWebSocket
| NoService.

Inductive ExportBackend : Type :=
| ExportTcp (addr : SocketAddr) (dns_suffix : option str)
| ExportWs (url : str) (dns_suffix : option str).

(** The arguments of [run_export_loop]. *)
Definition run_backend (spec : BackendSpec) : str * ExportBackend :=
  (b_service spec,
   match b_target spec with
   | Tcp addr => ExportTcp addr (b_host spec)
   | Ws url => ExportWs url (b_host spec)
   end).

Definition parse_export_spec (export_spec : str) : result ExportError (str * SocketAddr) :=
  match split_list "/" export_spec with
  | [service_name; addr] =>
      _ ← map_err ExportName (validate_service_name service_name);
      backend_addr ← ok_or (parse_socket_addr addr) BadBackendAddress;
      Ok (service_name, backend_addr)
  | _ => Err WrongParts
  end.

Section Exports.
Context {U : UnicodeCase}.

Definition parse_http_export_spec (export_spec : str) : result ExportError (str * str * SocketAddr) :=
  match split_list "/" export_spec with
  | [service_name; host; addr] =>
      _ ← map_err ExportName (validate_service_name service_name);
      dns ← map_err ExportHost (spec_host_key host);
      backend_addr ← ok_or (parse_socket_addr addr) BadBackendAddress;
      Ok (service_name, dns, backend_addr)
  | _ => Err WrongParts
  end.

Definition parse_ws_export_spec (export_spec : str) : result ExportError (str * str) :=
  '(service_name, ws_url) ← ok_or (split_once "/" export_spec) WrongParts;
  _ ← map_err ExportName (validate_service_name service_name);
  _ ← ensure (starts_with "ws://" ws_url || starts_with "wss://" ws_url) NotWebSocket;
  _ ← ensure (negb (bool_decide (service_name = []))) NoService;
  Ok (service_name, ws_url).

Definition run_export_mode (export_spec : str) : result ExportError (str * ExportBackend) :=
  '(s, a) ← parse_export_spec export_spec; Ok (s, ExportTcp a None).

Definition run_http_export_mode (export_spec : str) : result ExportError (str * ExportBackend) :=
  '(s, d, a) ← parse_http_export_spec export_spec; Ok (s, ExportTcp a (Some d)).

Definition run_ws_export_mode (export_spec : str) : result ExportError (str * ExportBackend) :=
  '(s, u) ← parse_ws_export_spec export_spec; Ok (s, ExportWs u None).

(** What a [--backend] value attaches. *)
Definition attach (spec : str) : result SpecError (str * ExportBackend) :=
  run_backend <$> parse_backend spec.

(** ** The start of [run_export_loop] *)

Definition dns_suffix (b : ExportBackend) : option str :=
  match b with ExportTcp _ d | ExportWs _ d => d end.

Definition export_mode (b : ExportBackend) : str :=
  match b with
  | ExportTcp _ (Some _) => lit "http_export"
  | ExportTcp _ None => lit "export"
  | ExportWs _ _ => lit "ws_export"
  end.

Inductive ExportStartError : Type := ServiceTokenFailed | ClaimFailed.

(** [e_available]: the service token, declared before the claim and held by standbys
    too. *)
Record ExportRun : Type := {
  e_mode : str;
  e_available : str;
  e_clients : str;
  e_scope : str;
  e_loop : Loop;
}.

(** [token_ok]: declaring the service token; [claim]: [Claim::establish]. *)
Definition start_export_loop (service_name : str) (backend : ExportBackend) (token_ok : bool) (claim : option Claim)
    : result ExportStartError ExportRun :=
  let d := dns_suffix backend in
  _ ← ensure token_ok ServiceTokenFailed;
  c ← ok_or claim ClaimFailed;
  Ok {| e_mode := export_mode backend; e_available := service_key service_name d;
        e_clients := liveliness_key service_name d; e_scope := scope service_name d; e_loop := loop_init c |}.

(** ** The two vocabularies agree *)

Definition no_slash (s : str) : Prop := "/"%char ∉ s.

Lemma not_ws a : no_slash a -> starts_with "ws://" a || starts_with "wss://" a = false.
Proof using Type.
  intros Ha. destruct (starts_with "ws://" a) eqn:E1; [|destruct (starts_with "wss://" a) eqn:E2; [|done]];
    destruct Ha; [apply starts_with_spec in E1 as [r ->]|apply starts_with_spec in E2 as [r ->]];
    simpl; repeat (apply elem_of_cons; (left; reflexivity) || right).
Qed.

Lemma two_parts s a : no_slash s -> no_slash a -> split_list "/" (s ++ "/"%char :: a) = [s; a].
Proof using Type.
  intros. change (s ++ "/"%char :: a) with (join "/" s [a]). unfold split_list. rewrite split_join; [done|done|].
  by constructor.
Qed.

Lemma three_parts s d a :
  no_slash s -> no_slash d -> no_slash a -> split_list "/" (s ++ "/"%char :: d ++ "/"%char :: a) = [s; d; a].
Proof using Type.
  intros. change (s ++ "/"%char :: d ++ "/"%char :: a) with (join "/" s [d; a]). unfold split_list.
  rewrite split_join; [done|done|]. by repeat constructor.
Qed.

(** Both sides of each agreement, as the same conjunction. *)
Lemma run_export_mode_Ok s a r :
  no_slash s -> no_slash a ->
  run_export_mode (s ++ "/"%char :: a) = Ok r <->
  name_ok s /\ exists x, parse_socket_addr a = Some x /\ r = (s, ExportTcp x None).
Proof using Type.
  intros Hs Ha. unfold run_export_mode, parse_export_spec.
  rewrite two_parts by done.
  rewrite <- (validate_service_name_Ok s tt). destruct (validate_service_name s) as [[]|e]; simpl; [|naive_solver].
  destruct (parse_socket_addr a); simpl; naive_solver.
Qed.

Lemma run_http_export_mode_Ok s d a r :
  no_slash s -> no_slash d -> no_slash a ->
  run_http_export_mode (s ++ "/"%char :: d ++ "/"%char :: a) = Ok r <->
  name_ok s /\ exists k x, spec_host_key d = Ok k /\ parse_socket_addr a = Some x /\ r = (s, ExportTcp x (Some k)).
Proof using Type.
  intros Hs Hd Ha. unfold run_http_export_mode, parse_http_export_spec.
  rewrite three_parts by done.
  rewrite <- (validate_service_name_Ok s tt). destruct (validate_service_name s) as [[]|e]; simpl; [|naive_solver].
  destruct (spec_host_key d); simpl; [|naive_solver]. destruct (parse_socket_addr a); simpl; naive_solver.
Qed.

Lemma run_ws_export_mode_Ok s u r :
  no_slash s ->
  run_ws_export_mode (s ++ "/"%char :: u) = Ok r <->
  name_ok s /\ starts_with "ws://" u || starts_with "wss://" u = true /\ r = (s, ExportWs u None).
Proof using Type.
  intros Hs. unfold run_ws_export_mode, parse_ws_export_spec. rewrite split_once_app by done. cbn -[starts_with].
  rewrite <- (validate_service_name_Ok s tt).
  destruct (validate_service_name s) as [[]|e] eqn:E; cbn -[starts_with]; [|naive_solver].
  apply validate_service_name_Ok in E as [Hne _]. rewrite (bool_decide_eq_false_2 _ Hne).
  destruct (_ || _); simpl; naive_solver.
Qed.

Lemma attach_Ok s d target r :
  no_slash s -> "@"%char ∉ s -> (forall h, d = Some h -> no_slash h) ->
  attach (match d with Some h => s ++ "@"%char :: h | None => s end ++ "/"%char :: target) = Ok r <->
  name_ok s /\ exists host t, match d with Some h => exists k, spec_host_key h = Ok k /\ host = Some k | None => host = None end /\
    parse_target target = Ok t /\
    r = (s, match t with Tcp x => ExportTcp x host | Ws u => ExportWs u host end).
Proof using Type.
  intros Hs Hat Hd. unfold attach, parse_backend.
  rewrite split_once_app.
  2: { destruct d as [h|]; [|done]. rewrite not_elem_of_app, not_elem_of_cons. split_and!; [done|done|by apply Hd]. }
  cbn [ok_or mbind result_bind].
  assert (parse_backend_head (match d with Some h => s ++ "@"%char :: h | None => s end) =
          match d with
          | Some h => _ ← ensure (negb (bool_decide (h = []))) EmptySpecHost;
                      key ← map_err BadHost (spec_host_key h); Ok (s, Some key)
          | None => Ok (s, None)
          end) as ->.
  { unfold parse_backend_head. destruct d as [h|]; [by rewrite split_once_app|].
    by rewrite (proj2 (split_once_None _ _)). }
  rewrite <- (validate_service_name_Ok s tt). destruct d as [h|].
  - destruct (spec_host_key h) as [k|e] eqn:Ek.
    + apply spec_host_key_chars in Ek as Hk. destruct Hk as [Hkne _].
      assert (h <> []) as Hh by (intros ->; by vm_compute in Ek).
      rewrite (bool_decide_eq_false_2 _ Hh). simpl. rewrite (bool_decide_eq_false_2 _ Hkne).
      destruct (validate_service_name s) as [[]|e]; simpl; [|naive_solver].
      destruct (parse_target target) as [[x|u]|e]; simpl; naive_solver.
    + destruct (ensure _ _); simpl; naive_solver.
  - simpl. destruct (validate_service_name s) as [[]|e]; simpl; [|naive_solver].
    destruct (parse_target target) as [[x|u]|e]; simpl; naive_solver.
Qed.

Lemma parse_target_addr a : no_slash a -> forall t, parse_target a = Ok t <-> exists x, parse_socket_addr a = Some x /\ t = Tcp x.
Proof using Type.
  intros Ha t. unfold parse_target. rewrite (not_ws a Ha). destruct (parse_socket_addr a); simpl; naive_solver.
Qed.
End Exports.

(** ** Properties *)

(** The older export specifications and [--backend] attach the same thing: the
    TCP form accepts exactly what the two-part spec does, the [@host] form exactly
    what the three-part HTTP spec does, registering the same host key, and the
    WebSocket form exactly what its spec does. *)
Theorem export_forms_agree {U : UnicodeCase} (s d a u : str) (r : str * ExportBackend) :
  no_slash s -> no_slash d -> no_slash a -> "@"%char ∉ s ->
  (run_export_mode (s ++ "/"%char :: a) = Ok r <-> attach (s ++ "/"%char :: a) = Ok r) /\
  (run_http_export_mode (s ++ "/"%char :: d ++ "/"%char :: a) = Ok r <->
     attach ((s ++ "@"%char :: d) ++ "/"%char :: a) = Ok r) /\
  (run_ws_export_mode (s ++ "/"%char :: u) = Ok r <->
     attach (s ++ "/"%char :: u) = Ok r /\ starts_with "ws://" u || starts_with "wss://" u = true).
Proof.
  intros Hs Hd Ha Hat. split_and!.
  - rewrite run_export_mode_Ok, (attach_Ok s None) by done. setoid_rewrite (parse_target_addr a Ha). naive_solver.
  - rewrite run_http_export_mode_Ok by done.
    rewrite (attach_Ok s (Some d)) by (try done; naive_solver). setoid_rewrite (parse_target_addr a Ha). naive_solver.
  - rewrite run_ws_export_mode_Ok, (attach_Ok s None) by done. unfold parse_target.
    destruct (starts_with "ws://" u || starts_with "wss://" u); naive_solver.
Qed.

Lemma export_forms_agree_witness :
  let U := ascii_case in
  exists r, run_http_export_mode "web/API.local/[::1]:80" = Ok r /\ attach "web@API.local/[::1]:80" = Ok r.
Proof.
  intros U. assert (exists r, run_http_export_mode "web/API.local/[::1]:80" = Ok r) as (r & Er)
    by (eexists; vm_compute; reflexivity).
  exists r. split; [exact Er|].
  apply (export_forms_agree "web" "API.local" "[::1]:80" []); [by apply contains_char_not_elem .. |exact Er].
Defined.

Lemma backend_scope_ok {U : UnicodeCase} {UL : UnicodeCaseLaws U} b : backend_ok b -> scope_ok (b_service b) (b_host b).
Proof. intros (Hn & Hh & _). split; [done|]. intros h Eh. by destruct (Hh h Eh) as (? & ? & _). Qed.

(** A backend attached from the command line serves its own clients and no others: it
    starts on standby with an empty table, its client subscription sees exactly the
    connections of its service and host, whatever a [*] in the text of the option, and
    the availability it announces is the one that [resolve_backend] asks for. *)
Theorem attached_backend_serves_its_clients {U : UnicodeCase} {UL : UnicodeCaseLaws U} {K : KeyExprs} {KL : KeyExprLaws K}
    spec b token_ok claim r :
  parse_backend spec = Ok b ->
  start_export_loop (fst (run_backend b)) (snd (run_backend b)) token_ok claim = Ok r ->
  clients (e_loop r) = no_clients /\ l_phase (e_loop r) = Standby /\
  (forall s d c, scope_ok s d -> segment c -> c <> [] ->
     key_matches (e_clients r) (import_token_key s d c) = true <-> s = b_service b /\ d = b_host b) /\
  e_available r = match b_host b with
                  | Some h => host_available_key (b_service b) h
                  | None => default_available_key (b_service b)
                  end.
Proof.
  intros Hb Hr. apply parse_backend_ok in Hb. unfold start_export_loop in Hr.
  assert (dns_suffix (snd (run_backend b)) = b_host b) as E by (unfold run_backend; simpl; by destruct (b_target b)).
  rewrite E in Hr. inv_guards. subst r. cbn [e_loop e_clients e_available fst run_backend].
  split_and!; [done|done| |by unfold service_key; destruct (b_host b)].
  intros s d c Hs Hc Hne. rewrite liveliness_sees; [naive_solver|by apply backend_scope_ok|done..].
Qed.

Lemma attached_backend_serves_its_clients_witness :
  let U := ascii_case in
  exists b r, parse_backend "web@API.local/[::1]:80" = Ok b /\
    start_export_loop (fst (run_backend b)) (snd (run_backend b)) true
      (Some (establish 7 (lit "z") (lit "u") [])) = Ok r /\ e_available r = lit "web/api.local/available".
Proof.
  intros U.
  assert (exists b, parse_backend "web@API.local/[::1]:80" = Ok b /\ b_service b = lit "web" /\ b_host b = Some (lit "api.local"))
    as (b & Eb & Es & Eh) by (eexists; split; [vm_compute; reflexivity|split; reflexivity]).
  set (claim := establish 7 (lit "z") (lit "u") []).
  assert (exists r, start_export_loop (fst (run_backend b)) (snd (run_backend b)) true (Some claim) = Ok r) as (r & Er)
    by (eexists; reflexivity).
  exists b, r. split; [exact Eb|]. split; [exact Er|].
  destruct (attached_backend_serves_its_clients (KL := star_exprs_laws) "web@API.local/[::1]:80" b true (Some claim) r Eb Er)
    as (_ & _ & _ & H).
  rewrite H, Eh, Es. vm_compute. reflexivity.
Defined.
