(* ===== verification/Args.v ===== *)
(** * Args: the command line ([src/args.rs])

    What clap parsed, its validation, and the configuration and specs that [main]
    takes from it. *)

From S2P Require Import Prelude Text Net Dns Config Spec KeySpace Exports Accept Heads Logging.

Record Args : Type := {
  a_listen : list str;
  a_backend : list str;
  zenoh_config : option str;
  zenoh_mode : str;
  zenoh_connect : option str;
  zenoh_listen : option str;
  a_buffer_size : N;
  a_read_timeout : N;               (** seconds *)
  a_drain_timeout : N;              (** seconds *)
  a_reliability : str;
  a_max_connections : N;
  a_cache_size : N;
  a_max_header_size : N;
  heartbeat_interval_ms : N;
  availability_timeout_ms : N;
  a_max_response_size : N;
  a_rx_channel_capacity : N;
  metrics_addr : option SocketAddr;
  log_level : str;
  log_format : str;
  log_target : list str;
  log_color : str;
}.

(** The flags' default values. *)
Definition Args_default : Args := {|
  a_listen := []; a_backend := [];
  zenoh_config := None; zenoh_mode := lit "peer"; zenoh_connect := None; zenoh_listen := None;
  a_buffer_size := 65536; a_read_timeout := 10; a_drain_timeout := 5; a_reliability := lit "stream";
  a_max_connections := 1024; a_cache_size := 256; a_max_header_size := 16384;
  heartbeat_interval_ms := 500; availability_timeout_ms := 1000; a_max_response_size := 10 * 1024 * 1024;
  a_rx_channel_capacity := 256; metrics_addr := None;
  log_level := lit "info"; log_format := lit "pretty"; log_target := []; log_color := lit "auto";
|}.

Inductive ArgsError : Type :=
| BadListen (e : SpecError)
| BadBackend (e : SpecError)
| DuplicateScope (scope : str)
| NothingToServe
| TlsNotBuilt (spec : str)
| BufferTooSmall (n : N)
| ReadTimeoutTooSmall (n : N)
| DrainTimeoutTooSmall (n : N)
| BadReliability (e : str)
| NoConnections
| NoCache
| NoRxChannel
| HeaderTooSmall (n : N)
| NoHeartbeat
| NoAvailability
| ResponseBelowHeader (response header : N)
| BadLog (e : LogError)
| BadLogLevel (level : str).

Section Args.
Context {U : UnicodeCase}.
(** [cfg(feature = "tls-termination")]. *)
Context (tls_termination : bool).

Definition listen_specs (a : Args) : result SpecError (list ListenSpec) := collect parse_listen (a_listen a).

Definition backend_specs (a : Args) : result SpecError (list BackendSpec) := collect parse_backend (a_backend a).

Definition log_options (a : Args) : result LogError LogOptions :=
  targets ← (if decide (log_target a = []) then Ok [Stdout] else collect parse_log_target (log_target a));
  format ← parse_format (log_format a);
  color ← parse_color (log_color a);
  Ok {| level := log_level a; format := format; color := color; targets := targets |}.

(** [scopes.insert((service, host))] of every backend. *)
Fixpoint unique_scopes (scopes : gset (str * option str)) (backends : list BackendSpec) : result ArgsError unit :=
  match backends with
  | [] => Ok tt
  | b :: backends' =>
      _ ← ensure (negb (bool_decide ((b_service b, b_host b) ∈ scopes)))
            (DuplicateScope match b_host b with
                            | Some h => b_service b ++ "@"%char :: h
                            | None => b_service b
                            end);
      unique_scopes ({[(b_service b, b_host b)]} ∪ scopes) backends'
  end.

Definition check_tls_built (listens : list ListenSpec) : result ArgsError unit :=
  if tls_termination then Ok tt
  else match List.find (fun x => terminates (l_tls x)) listens with
       | Some x => Err (TlsNotBuilt (show_listen x))
       | None => Ok tt
       end.

Definition at_least (n least : N) (e : ArgsError) : result ArgsError unit := ensure (least <=? n)%N e.

Definition log_levels : list str := [lit "trace"; lit "debug"; lit "info"; lit "warn"; lit "error"; lit "off"].

Definition validate (a : Args) : result ArgsError unit :=
  listens ← map_err BadListen (listen_specs a);
  backends ← map_err BadBackend (backend_specs a);
  _ ← unique_scopes ∅ backends;
  _ ← ensure (negb (bool_decide (a_listen a = []) && bool_decide (a_backend a = []))) NothingToServe;
  _ ← check_tls_built listens;
  _ ← at_least (a_buffer_size a) 1024 (BufferTooSmall (a_buffer_size a));
  _ ← at_least (a_read_timeout a) 1 (ReadTimeoutTooSmall (a_read_timeout a));
  _ ← at_least (a_drain_timeout a) 1 (DrainTimeoutTooSmall (a_drain_timeout a));
  _ ← map_err BadReliability (parse_reliability (a_reliability a));
  _ ← at_least (a_max_connections a) 1 NoConnections;
  _ ← at_least (a_cache_size a) 1 NoCache;
  _ ← at_least (a_rx_channel_capacity a) 1 NoRxChannel;
  _ ← at_least (a_max_header_size a) 1024 (HeaderTooSmall (a_max_header_size a));
  _ ← at_least (heartbeat_interval_ms a) 1 NoHeartbeat;
  _ ← at_least (availability_timeout_ms a) 1 NoAvailability;
  _ ← at_least (a_max_response_size a) (a_max_header_size a)
        (ResponseBelowHeader (a_max_response_size a) (a_max_header_size a));
  _ ← map_err BadLog (log_options a);
  ensure (bool_decide (log_level a ∈ log_levels)) (BadLogLevel (log_level a)).

Definition unwrap_or {E A} (m : result E A) (d : A) : A := match m with Ok a => a | Err _ => d end.

Definition bridge_config (a : Args) : BridgeConfig :=
  let config := BridgeConfig_new (a_buffer_size a) (a_read_timeout a) (a_drain_timeout a) in {|
    buffer_size := buffer_size config;
    reliability := unwrap_or (parse_reliability (a_reliability a)) ReliabilityMode_default;
    max_connections := a_max_connections a;
    cache_size := a_cache_size a;
    max_header_size := a_max_header_size a;
    read_timeout := read_timeout config;
    heartbeat_interval := from_millis (heartbeat_interval_ms a);
    availability_timeout := from_millis (availability_timeout_ms a);
    drain_timeout := drain_timeout config;
    max_response_size := a_max_response_size a;
    response_idle_timeout := response_idle_timeout config;
    connect_timeout := connect_timeout config;
    rx_channel_capacity := a_rx_channel_capacity a;
  |}.

(** ** Accepted arguments *)

Definition scope_of (b : BackendSpec) : str * option str := (b_service b, b_host b).

Lemma unique_scopes_Ok scopes bs u :
  unique_scopes scopes bs = Ok u <-> NoDup (scope_of <$> bs) /\ forall b, b ∈ bs -> scope_of b ∉ scopes.
Proof using Type.
  revert scopes. induction bs as [|b bs IH]; intros scopes; cbn [unique_scopes fmap list_fmap].
  - destruct u. split; [|done]. intros _. split; [constructor|]. by intros b Hb%not_elem_of_nil.
  - rewrite bind_Ok. setoid_rewrite ensure_Ok. setoid_rewrite IH. rewrite NoDup_cons, list_elem_of_fmap.
    fold (scope_of b). setoid_rewrite elem_of_cons. setoid_rewrite elem_of_union. setoid_rewrite elem_of_singleton.
    split.
    + intros ([] & Hb & Hnd & Hs). inv_guards. split; [split; [|done]|].
      * intros (b' & Hb' & Hin). destruct (Hs b' Hin). left. by rewrite Hb'.
      * intros b' [->|Hb']; [done|]. intros ?. destruct (Hs b' Hb'). by right.
    + intros [[Hn Hnd] Hs]. exists tt. split; [by rewrite bool_decide_eq_false_2 by auto|]. split; [done|].
      intros b' Hb' [E|Hin]; [apply Hn; by exists b'|]. apply (Hs b'); auto.
Qed.

Lemma at_least_Ok n least e u : at_least n least e = Ok u <-> (least <= n)%N.
Proof using Type. unfold at_least. by rewrite ensure_Ok, N.leb_le. Qed.

Definition limits_ok (c : BridgeConfig) : Prop :=
  (1024 <= buffer_size c /\ 1000 <= read_timeout c /\ 1000 <= drain_timeout c /\ 1 <= max_connections c /\
   1 <= cache_size c /\ 1 <= rx_channel_capacity c /\ 1024 <= max_header_size c /\ 1 <= heartbeat_interval c /\
   1 <= availability_timeout c /\ max_header_size c <= max_response_size c)%N.

(** What [validate] established, guard by guard. *)
Record accepted (a : Args) (listens : list ListenSpec) (backends : list BackendSpec) (opts : LogOptions) : Prop := {
  acc_listens : listen_specs a = Ok listens;
  acc_backends : backend_specs a = Ok backends;
  acc_log : log_options a = Ok opts;
  acc_scopes : NoDup (scope_of <$> backends);
  acc_some : a_listen a <> [] \/ a_backend a <> [];
  acc_tls : tls_termination = true \/ Forall (fun x => terminates (l_tls x) = false) listens;
  acc_reliability : parse_reliability (a_reliability a) = Ok (reliability (bridge_config a));
  acc_limits : limits_ok (bridge_config a);
  acc_level : log_level a ∈ log_levels;
}.

Lemma check_tls_built_Ok listens u :
  check_tls_built listens = Ok u <-> tls_termination = true \/ Forall (fun x => terminates (l_tls x) = false) listens.
Proof using Type.
  unfold check_tls_built. destruct tls_termination, u; [naive_solver|].
  destruct (List.find _ listens) as [x|] eqn:E.
  - apply List.find_some in E as [Hin%list_elem_of_In Ht]. split; [done|]. intros [|Hf]; [done|].
    eapply Forall_forall in Hf; [|done]. simpl in Hf. congruence.
  - split; [|done]. intros _. right. apply Forall_forall. intros x Hx%list_elem_of_In.
    apply (List.find_none _ _ E _ Hx).
Qed.

Lemma validate_Ok a : validate a = Ok tt <-> exists listens backends opts, accepted a listens backends opts.
Proof using Type.
  unfold validate. split.
  - intros H. inv_guards. rewrite ?at_least_Ok in *.
    repeat match goal with
           | H : at_least _ _ _ = Ok _ |- _ => apply at_least_Ok in H
           | H : unique_scopes _ _ = Ok _ |- _ => apply unique_scopes_Ok in H as [? _]
           | H : check_tls_built _ = Ok _ |- _ => apply check_tls_built_Ok in H
           | H : negb _ = true |- _ => apply negb_true_iff in H
           | H : _ && _ = false |- _ => apply andb_false_iff in H
           end.
    eexists _, _, _. constructor; try done.
    + match goal with H : _ \/ _ |- _ => destruct H as [H|H]; apply bool_decide_eq_false in H; auto end.
    + unfold bridge_config, unwrap_or. simpl. by destruct (parse_reliability _); simplify_eq.
    + unfold limits_ok, bridge_config, from_secs, from_millis. simpl. unfold from_secs. lia.
  - intros (ls & bs & o & []).
    assert (bool_decide (a_listen a = []) && bool_decide (a_backend a = []) = false) as Hsome.
    { apply andb_false_iff. destruct acc_some0; [left|right]; by apply bool_decide_eq_false_2. }
    destruct acc_limits0 as (H1 & H2 & H3 & H4 & H5 & H6 & H7 & H8 & H9 & H10).
    unfold bridge_config in H1, H2, H3, H4, H5, H6, H7, H8, H9, H10.
    simpl in H1, H2, H3, H4, H5, H6, H7, H8, H9, H10.
    unfold from_secs, from_millis in *.
    rewrite acc_listens0, acc_backends0. cbn [map_err mbind result_bind].
    rewrite (proj2 (unique_scopes_Ok ∅ bs tt)) by (split; [done|set_solver]). cbn [mbind result_bind].
    rewrite Hsome. cbn [negb ensure mbind result_bind].
    rewrite (proj2 (check_tls_built_Ok ls tt)) by done. cbn [mbind result_bind].
    repeat (rewrite (proj2 (at_least_Ok _ _ _ tt)) by lia; cbn [mbind result_bind]).
    rewrite acc_reliability0. cbn [map_err mbind result_bind].
    repeat (rewrite (proj2 (at_least_Ok _ _ _ tt)) by lia; cbn [mbind result_bind]).
    rewrite acc_log0. cbn [map_err mbind result_bind]. by rewrite bool_decide_eq_true_2.
Qed.
End Args.

(** The arguments with every spec and sink replaced by its printed form. *)
Definition printed (listens : list ListenSpec) (backends : list BackendSpec) (opts : LogOptions) (a : Args) : Args := {|
  a_listen := show_listen <$> listens; a_backend := show_backend <$> backends;
  zenoh_config := zenoh_config a; zenoh_mode := zenoh_mode a; zenoh_connect := zenoh_connect a;
  zenoh_listen := zenoh_listen a; a_buffer_size := a_buffer_size a; a_read_timeout := a_read_timeout a;
  a_drain_timeout := a_drain_timeout a; a_reliability := a_reliability a; a_max_connections := a_max_connections a;
  a_cache_size := a_cache_size a; a_max_header_size := a_max_header_size a;
  heartbeat_interval_ms := heartbeat_interval_ms a; availability_timeout_ms := availability_timeout_ms a;
  a_max_response_size := a_max_response_size a; a_rx_channel_capacity := a_rx_channel_capacity a;
  metrics_addr := metrics_addr a; log_level := log_level a; log_format := log_format a;
  log_target := show_log_target <$> targets opts; log_color := log_color a;
|}.

Section Accepted.
Context {U : UnicodeCase} {UL : UnicodeCaseLaws U}.

Lemma collect_ok_Forall {E A B} (f : A -> result E B) (P : B -> Prop) l ys :
  (forall x y, f x = Ok y -> P y) -> collect f l = Ok ys -> Forall P ys.
Proof. intros Hf H%collect_Ok. induction H; constructor; eauto. Qed.

Lemma collect_printed {E A B} (f : A -> result E B) (show : B -> A) ys :
  Forall (fun y => f (show y) = Ok y) ys -> collect f (show <$> ys) = Ok ys.
Proof. intros H. apply collect_Ok. induction H; simpl; by constructor. Qed.

Lemma collect_length {E A B} (f : A -> result E B) l ys : collect f l = Ok ys -> length l = length ys.
Proof. intros H%collect_Ok. by eapply Forall2_length. Qed.

Lemma log_targets_ok a opts :
  log_options a = Ok opts -> targets opts <> [] /\ Forall target_ok (targets opts).
Proof using Type.
  unfold log_options. intros H. inv_guards. subst opts. simpl. case_decide as Hn; inv_guards.
  - subst. split; [done|by repeat constructor].
  - split; [|eapply collect_ok_Forall; [apply parse_log_target_ok|done]].
    intros ->. match goal with H : collect _ _ = _ |- _ => apply collect_length in H end. by destruct (log_target a).
Qed.

(** C23: what validation establishes.  When the arguments pass it every spec and sink
    parses and there is something to serve; every listener opens its own door, if its TLS
    material loads where it has some; no client announcement is seen by two backends of the
    process; every limit of the configuration is at or above its minimum, the response cap
    no smaller than the header cap; and the reliability is the one that was asked for, never
    the fallback.  It sets no upper limits, so it does not promise that the process starts:
    a drain timeout near 2^64 seconds, for one, passes and panics in [main]. *)
Theorem validated_args_start {K : KeyExprs} {KL : KeyExprLaws K} tls_termination a
    (load_tls_config : str -> str -> bool) :
  validate tls_termination a = Ok tt ->
  exists listens backends opts,
    listen_specs a = Ok listens /\ backend_specs a = Ok backends /\ log_options a = Ok opts /\
    (listens <> [] \/ backends <> []) /\ targets opts <> [] /\
    Forall (fun x => (forall cert key, l_tls x = Terminate cert key -> load_tls_config cert key = true) ->
      run_listener load_tls_config x =
        Ok {| service := l_service x; listen_addr := l_addr x; door := door_of x |}) listens /\
    (forall i j b1 b2 s d c, backends !! i = Some b1 -> backends !! j = Some b2 ->
       scope_ok s d -> segment c -> c <> [] ->
       key_matches (liveliness_key (b_service b1) (b_host b1)) (import_token_key s d c) = true ->
       key_matches (liveliness_key (b_service b2) (b_host b2)) (import_token_key s d c) = true -> i = j) /\
    limits_ok (bridge_config a) /\ 0 < max_header (bridge_config a) /\
    parse_reliability (a_reliability a) = Ok (reliability (bridge_config a)).
Proof using UL.
  intros (ls & bs & o & [])%validate_Ok. exists ls, bs, o.
  pose proof (collect_length _ _ _ acc_listens0) as Hll. pose proof (collect_length _ _ _ acc_backends0) as Hlb.
  assert (Forall backend_ok bs) as Hbs by (eapply collect_ok_Forall; [apply parse_backend_ok|done]).
  pose proof (log_targets_ok _ _ acc_log0) as [Hne _]. split_and!; try done.
  - destruct acc_some0 as [H|H]; [left; intros ->|right; intros ->].
    + by destruct (a_listen a).
    + by destruct (a_backend a).
  - eapply collect_ok_Forall; [|done]. intros s x Hx%parse_listen_ok. by apply run_listener_ok.
  - intros i j b1 b2 s d c H1 H2 Hs Hc Hcne M1 M2.
    assert (scope_ok (b_service b1) (b_host b1)) as S1 by (apply backend_scope_ok; by eapply Forall_lookup_1).
    assert (scope_ok (b_service b2) (b_host b2)) as S2 by (apply backend_scope_ok; by eapply Forall_lookup_1).
    apply liveliness_sees in M1 as [<- <-]; [|done..]. apply liveliness_sees in M2 as [Es Eh]; [|done..].
    eapply (NoDup_lookup (scope_of <$> bs)); [done| |]; rewrite list_lookup_fmap.
    + by rewrite H1.
    + rewrite H2. simpl. unfold scope_of. by rewrite Es, Eh.
  - unfold max_header. destruct acc_limits0 as (_ & _ & _ & _ & _ & _ & ? & _). lia.
Qed.

(** C33: the command line survives printing.  Replacing every accepted [--listen],
    [--backend] and [--log-target] by its printed form gives arguments that are accepted
    again, with the same specs, sinks and configuration. *)
Theorem printed_args_agree tls_termination a listens backends opts :
  validate tls_termination a = Ok tt ->
  listen_specs a = Ok listens -> backend_specs a = Ok backends -> log_options a = Ok opts ->
  let a' := printed listens backends opts a in
  validate tls_termination a' = Ok tt /\ listen_specs a' = Ok listens /\ backend_specs a' = Ok backends /\
  log_options a' = Ok opts /\ bridge_config a' = bridge_config a.
Proof using UL.
  intros (ls & bs & o & Hacc)%validate_Ok Hl Hb Ho a'.
  destruct Hacc as [Hl' Hb' Ho']. rewrite Hl in Hl'. rewrite Hb in Hb'. rewrite Ho in Ho'. simplify_eq.
  assert (listen_specs a' = Ok ls) as Hpl.
  { apply collect_printed. eapply collect_ok_Forall; [|exact Hl]. intros s x Hx. by eapply parse_show_listen, parse_listen_ok. }
  assert (backend_specs a' = Ok bs) as Hpb.
  { apply collect_printed. eapply collect_ok_Forall; [|exact Hb]. intros s x Hx. by eapply parse_show_backend, parse_backend_ok. }
  assert (log_options a' = Ok o) as Hpo.
  { destruct (log_targets_ok _ _ Ho) as [Hne Hok]. unfold log_options in *. simpl in *.
    rewrite decide_False by (by destruct (targets o)).
    rewrite collect_printed by (eapply Forall_impl; [exact Hok|apply parse_show_log_target]).
    inv_guards. simpl in *. subst o. simpl.
    repeat match goal with H : parse_format _ = _ |- _ => rewrite H | H : parse_color _ = _ |- _ => rewrite H end. done. }
  split_and!; try done. apply validate_Ok. exists ls, bs, o. constructor; try done.
  destruct acc_some0 as [Hn|Hn].
  - left. simpl. pose proof (collect_length _ _ _ Hl). destruct ls; [|done]. by destruct (a_listen a).
  - right. simpl. pose proof (collect_length _ _ _ Hb). destruct bs; [|done]. by destruct (a_backend a).
Qed.
End Accepted.

(** ** Examples *)

Module Examples.
#[local] Existing Instance ascii_case.

Definition web_args : Args := {|
  a_listen := [lit "web/[::1]:8080,route=request"; lit "smtp/0.0.0.0:25,proto=raw"];
  a_backend := [lit "web@A.local/127.0.0.1:80"; lit "web/127.0.0.1:81"];
  zenoh_config := None; zenoh_mode := lit "peer"; zenoh_connect := None; zenoh_listen := None;
  a_buffer_size := 65536; a_read_timeout := 10; a_drain_timeout := 5; a_reliability := lit "Telemetry";
  a_max_connections := 1024; a_cache_size := 256; a_max_header_size := 16384;
  heartbeat_interval_ms := 500; availability_timeout_ms := 1000; a_max_response_size := 10 * 1024 * 1024;
  a_rx_channel_capacity := 256; metrics_addr := None;
  log_level := lit "info"; log_format := lit "pretty"; log_target := [lit "file=/tmp/a=b.log,rotation=daily"];
  log_color := lit "auto";
|}.

Lemma web_args_valid : validate false web_args = Ok tt.
Proof. vm_compute. reflexivity. Qed.

Lemma validated_args_start_witness :
  exists listens, listen_specs web_args = Ok listens /\
    reliability (bridge_config web_args) = Telemetry /\
    Forall (fun x => exists d, run_listener (fun _ _ => true) x = Ok d) listens.
Proof.
  destruct (validated_args_start (KL := star_exprs_laws) false web_args (fun _ _ => true)
    ltac:(vm_compute; reflexivity)) as (ls & bs & o & Hl & _ & _ & _ & _ & Hr & _ & _ & _ & Hrel).
  exists ls. split; [exact Hl|]. split; [vm_compute; reflexivity|].
  eapply Forall_impl; [exact Hr|]. intros x Hx. eexists. by apply Hx.
Defined.

Lemma printed_args_agree_witness :
  exists listens backends opts,
    backend_specs web_args = Ok backends /\ (show_backend <$> backends) !! 0 = Some (lit "web@a.local/127.0.0.1:80") /\
    validate false (printed listens backends opts web_args) = Ok tt.
Proof.
  destruct (listen_specs web_args) as [ls|] eqn:El; [|vm_compute in El; discriminate].
  destruct (backend_specs web_args) as [bs|] eqn:Eb; [|vm_compute in Eb; discriminate].
  destruct (log_options web_args) as [o|] eqn:Eo; [|vm_compute in Eo; discriminate].
  exists ls, bs, o. split; [done|]. split.
  - vm_compute in Eb. injection Eb as <-. vm_compute. reflexivity.
  - apply (printed_args_agree false web_args ls bs o); [vm_compute; reflexivity|done..].
Defined.

(** A second backend of the same scope is refused. *)
Example duplicate_scope_refused :
  validate false {|
    a_listen := []; a_backend := [lit "web@a/127.0.0.1:80"; lit "web@A/127.0.0.1:81"];
    zenoh_config := None; zenoh_mode := lit "peer"; zenoh_connect := None; zenoh_listen := None;
    a_buffer_size := 65536; a_read_timeout := 10; a_drain_timeout := 5; a_reliability := lit "stream";
    a_max_connections := 1024; a_cache_size := 256; a_max_header_size := 16384;
    heartbeat_interval_ms := 500; availability_timeout_ms := 1000; a_max_response_size := 10 * 1024 * 1024;
    a_rx_channel_capacity := 256; metrics_addr := None;
    log_level := lit "info"; log_format := lit "pretty"; log_target := []; log_color := lit "auto" |} =
  Err (DuplicateScope "web@a").
Proof. vm_compute. reflexivity. Qed.
End Examples.
