(* ===== verification/Main.v ===== *)
(** * Main: start-up, readiness and shutdown ([src/main.rs])

    [startup] is [main] up to the spawned tasks; from there the process is a step
    relation: [main] stands at an await, and the events are the ends of its awaits, its
    timers, and what listeners, backends, the signal and the health server do.  Time is
    in milliseconds; a [Tick] never passes one of [main]'s timers. *)

From S2P Require Import Prelude Text Net Dns Config Spec Backpressure Accept Exports Heads Logging Args Metrics HealthServer.

(** ** Start-up *)

(** The Zenoh library, as [main] uses it. *)
Class ZenohLib : Type := {
  ZConfig : Type; ZErr : Type; Session : Type;
  config_default : ZConfig;
  insert_json5 : ZConfig -> str -> str -> result ZErr ZConfig;
  from_file : str -> result ZErr ZConfig;
  zenoh_open : ZConfig -> result ZErr Session;
}.

Inductive MainError {Z : ZenohLib} : Type :=
| InvalidArgs (e : ArgsError)
| InvalidLogOptions (e : LogError)
| LoggingFailed (e : LogError)
| ZenohFile (e : ZenohFileError (ZErr := ZErr))
| ZenohFlags (e : ZenohConfigError (ZErr := ZErr))
| OpenFailed (e : ZErr)
| MetricsBind (addr : SocketAddr)
| InvalidSpec (e : SpecError)
| ListenerFailed (spec : str)
| ListenerNotReady (spec : str)
| AllTasksExited.

(** How the process ends. *)
Inductive Exit {Z : ZenohLib} : Type :=
| Returned (r : result MainError unit)
| PanickedLogFile (path : str)
| PanickedBudget.

(** What [main] holds once everything that can fail at start-up has not. *)
Record Startup {Z : ZenohLib} : Type := {
  session : Session;
  metrics_server : option SocketAddr;
  metrics_read_timeout : N;
  listens : list ListenSpec;
  backends : list BackendSpec;
  st_config : BridgeConfig;
  drain_secs : N;
}.

Section Startup.
Context {U : UnicodeCase} {Z : ZenohLib} {FS : Type}.
(** The feature flag, [Logging.init] at the environment's [RUST_LOG] and file system,
    and [TcpListener::bind]. *)
Context (tls_termination : bool) (init_logging : LogOptions -> BuildOutcome (list (str * str) * FS))
        (tcp_bind : SocketAddr -> result unit unit).

Definition fail {A} (e : MainError) : result Exit A := Err (Returned (Err e)).

(** [?] with the error's constructor. *)
Definition or_fail {E A} (wrap : E -> MainError) (m : result E A) : result Exit A :=
  map_err (fun e => Returned (Err (wrap e))) m.

Definition start_logging (opts : LogOptions) : result Exit (list (str * str)) :=
  match init_logging opts with
  | Built (guards, _) => Ok guards
  | BuildError e => fail (LoggingFailed e)
  | AppenderPanics path => Err (PanickedLogFile path)
  end.

Definition session_config (a : Args) : result Exit ZConfig :=
  match zenoh_config a with
  | Some config_file => or_fail ZenohFile (create_zenoh_config_from_file from_file config_file)
  | None => or_fail ZenohFlags (create_zenoh_config config_default insert_json5
                                  (zenoh_mode a) (zenoh_connect a) (zenoh_listen a))
  end.

Definition start_metrics (a : Args) : result Exit unit :=
  match metrics_addr a with
  | Some addr => or_fail (fun _ => MetricsBind addr) (HealthServer.bind tcp_bind addr)
  | None => Ok tt
  end.

Definition startup (a : Args) : result Exit Startup :=
  _ ← or_fail InvalidArgs (validate tls_termination a);
  opts ← or_fail InvalidLogOptions (log_options a);
  _log_guards ← start_logging opts;
  config ← session_config a;
  s ← or_fail OpenFailed (zenoh_open config);
  _ ← start_metrics a;
  ls ← or_fail InvalidSpec (listen_specs a);
  bs ← or_fail InvalidSpec (backend_specs a);
  Ok {| session := s; metrics_server := metrics_addr a; metrics_read_timeout := from_secs (a_read_timeout a);
        listens := ls; backends := bs; st_config := bridge_config a; drain_secs := a_drain_timeout a |}.
End Startup.

(** ** The running process *)

Inductive Sig : Type := SIGINT | SIGTERM | OtherSignal.

(** Which signals end the wait of [shutdown_signal]. *)
Definition shutdown_signal (s : Sig) : bool := match s with SIGINT | SIGTERM => true | OtherSignal => false end.

(** A spawned bridge task, by its mode and label. *)
Inductive Mode : Type := ModeListen | ModeBackend.

Definition spawn_bridge_tasks {S} (show : S -> str) (tasks : list (Mode * str)) (specs : list S) (mode : Mode)
    : list (Mode * str) :=
  tasks ++ ((fun spec => (mode, show spec)) <$> specs).

Inductive MainPhase {Z : ZenohLib} : Type :=
| AwaitBound (i : nat) (since : N)           (** [timeout(30s, bound_rx)] of listener [i] *)
| Serving                                    (** the [select!] *)
| Draining (since : N)                       (** [timeout(drain_budget, drain_all)] *)
| Closing (clean : bool)                     (** [session.close()] *)
| StoppingMetrics (clean : bool) (since : N) (** [timeout(2s, handle)] *)
| Exited (e : Exit).

(** [bound]: listeners that reported; [live]: tasks that have not returned. *)
Record Process {Z : ZenohLib} : Type := {
  phase : MainPhase;
  now : N;
  bound : gset nat;
  live : gset nat;
  shutdown : bool;
  signal_task : bool;
  session_closed : bool;
  metrics_up : bool;
  metrics_cancelled : bool;
  registry : Metrics;
}.

Inductive MainEvent : Type :=
(** the environment *)
| ListenerBound (i : nat)
| TaskReturned (i : nat)
| Signal (s : Sig)
| MetricsStopped
(** [main] *)
| SawBound
| SawDropped
| BoundTimeout
| SawShutdown
| SawAllReturned
| Drained
| DrainTimeout
| SessionClosed
| MetricsJoined
| MetricsTimeout
| Tick (d : N).

(** [Duration + Duration] panics past [u64::MAX] seconds. *)
Definition drain_budget (drain_secs : N) : option N :=
  if (drain_secs + 2 <? u64_mod)%N then Some (from_secs (drain_secs + 2)) else None.

Definition bound_timeout : N := from_secs 30.
Definition metrics_timeout : N := from_secs 2.

Section Process.
Context {Z : ZenohLib}.
(** The TLS files, and what start-up gave. *)
Context (load_tls_config : str -> str -> bool) (st : Startup).

(** The spawned tasks, listeners first: task [i] is the [i]th. *)
Definition all_tasks : list (Mode * str) :=
  spawn_bridge_tasks show_backend (spawn_bridge_tasks show_listen [] (listens st) ModeListen) (backends st) ModeBackend.

Definition with_phase (p : MainPhase) (s : Process) : Process := {|
  phase := p; now := now s; bound := bound s; live := live s; shutdown := shutdown s; signal_task := signal_task s;
  session_closed := session_closed s; metrics_up := metrics_up s; metrics_cancelled := metrics_cancelled s;
  registry := registry s;
|}.

(** [metrics::metrics().set_ready(b)], then on to [p]. *)
Definition with_ready (b : bool) (p : MainPhase) (s : Process) : Process := {|
  phase := p; now := now s; bound := bound s; live := live s; shutdown := shutdown s; signal_task := signal_task s;
  session_closed := session_closed s; metrics_up := metrics_up s; metrics_cancelled := metrics_cancelled s;
  registry := set_ready b (registry s);
|}.

(** The next [bound_rx], or past the loop: ready, and the budget computed. *)
Definition next_wait (i : nat) (s : Process) : Process :=
  if i <? length (listens st) then with_phase (AwaitBound i (now s)) s
  else match drain_budget (drain_secs st) with
       | Some _ => with_ready true Serving s
       | None => with_ready true (Exited PanickedBudget) s
       end.

Definition main_init : Process :=
  next_wait 0 {|
    phase := Serving; now := 0; bound := ∅; live := set_seq 0 (length all_tasks); shutdown := false; signal_task := true;
    session_closed := false; metrics_up := bool_decide (is_Some (metrics_server st)); metrics_cancelled := false;
    registry := Metrics_new;
  |}.

Definition label_of (i : nat) : str := default [] (show_listen <$> listens st !! i).

(** A listener that does not start: both tokens are cancelled, the signal task
    aborted. *)
Definition abort_start (e : MainError) (s : Process) : Process := {|
  phase := Exited (Returned (Err e)); now := now s; bound := bound s; live := live s; shutdown := true;
  signal_task := false; session_closed := session_closed s; metrics_up := metrics_up s; metrics_cancelled := true;
  registry := registry s;
|}.

Definition finish (clean : bool) (s : Process) : Process := {|
  phase := Exited (Returned (if clean then Ok tt else Err AllTasksExited)); now := now s; bound := bound s;
  live := live s; shutdown := shutdown s; signal_task := false; session_closed := session_closed s;
  metrics_up := metrics_up s; metrics_cancelled := metrics_cancelled s; registry := registry s;
|}.

(** After [session.close()]: the health server is told last. *)
Definition after_close (clean : bool) (s : Process) : Process :=
  let s' := {|
    phase := StoppingMetrics clean (now s); now := now s; bound := bound s; live := live s; shutdown := shutdown s;
    signal_task := signal_task s; session_closed := true; metrics_up := metrics_up s; metrics_cancelled := true;
    registry := registry s |} in
  match metrics_server st with Some _ => s' | None => finish clean s' end.

Definition budget : N := default 0%N (drain_budget (drain_secs st)).

(** When the await [main] stands at gives up. *)
Definition deadline (p : MainPhase) : option N :=
  match p with
  | AwaitBound _ since => Some (since + bound_timeout)%N
  | Draining since => Some (since + budget)%N
  | StoppingMetrics _ since => Some (since + metrics_timeout)%N
  | _ => None
  end.

Definition in_time (t : N) (p : MainPhase) : bool :=
  match deadline p with Some d => (t <=? d)%N | None => true end.

Definition due (s : Process) : bool :=
  match deadline (phase s) with Some d => (d <=? now s)%N | None => false end.

Definition environment_step (s : Process) (e : MainEvent) : option Process :=
  match e with
  | ListenerBound i =>
      match listens st !! i with
      | Some spec =>
          if decide (i ∈ live s /\ i ∉ bound s /\ is_ok (run_listener load_tls_config spec) = true) then
            Some {| phase := phase s; now := now s; bound := {[i]} ∪ bound s; live := live s; shutdown := shutdown s;
                    signal_task := signal_task s; session_closed := session_closed s; metrics_up := metrics_up s;
                    metrics_cancelled := metrics_cancelled s; registry := registry s |}
          else None
      | None => None
      end
  | TaskReturned i =>
      if decide (i ∈ live s) then
        Some {| phase := phase s; now := now s; bound := bound s; live := live s ∖ {[i]}; shutdown := shutdown s;
                signal_task := signal_task s; session_closed := session_closed s; metrics_up := metrics_up s;
                metrics_cancelled := metrics_cancelled s; registry := registry s |}
      else None
  | Signal sig =>
      if signal_task s && shutdown_signal sig then
        Some {| phase := phase s; now := now s; bound := bound s; live := live s; shutdown := true;
                signal_task := false; session_closed := session_closed s; metrics_up := metrics_up s;
                metrics_cancelled := metrics_cancelled s; registry := registry s |}
      else None
  | MetricsStopped =>
      if metrics_up s && metrics_cancelled s then
        Some {| phase := phase s; now := now s; bound := bound s; live := live s; shutdown := shutdown s;
                signal_task := signal_task s; session_closed := session_closed s; metrics_up := false;
                metrics_cancelled := true; registry := registry s |}
      else None
  | Tick d =>
      if in_time (now s + d) (phase s) then
        Some {| phase := phase s; now := (now s + d)%N; bound := bound s; live := live s; shutdown := shutdown s;
                signal_task := signal_task s; session_closed := session_closed s; metrics_up := metrics_up s;
                metrics_cancelled := metrics_cancelled s; registry := registry s |}
      else None
  | _ => None
  end.

(** A sender is dropped unsent when its task returns. *)
Definition main_step (s : Process) (e : MainEvent) : option Process :=
  match phase s, e with
  | Exited _, _ => None
  | AwaitBound i _, SawBound => if decide (i ∈ bound s) then Some (next_wait (S i) s) else None
  | AwaitBound i _, SawDropped =>
      if decide (i ∉ bound s /\ i ∉ live s) then Some (abort_start (ListenerFailed (label_of i)) s) else None
  | AwaitBound i _, BoundTimeout =>
      if decide (i ∉ bound s /\ i ∈ live s /\ due s = true) then Some (abort_start (ListenerNotReady (label_of i)) s) else None
  | Serving, SawShutdown => if shutdown s then Some (with_ready false (Draining (now s)) s) else None
  | Serving, SawAllReturned => if decide (live s = ∅) then Some (with_ready false (Closing false) s) else None
  | Draining _, Drained => if decide (live s = ∅) then Some (with_phase (Closing true) s) else None
  | Draining _, DrainTimeout => if decide (live s <> ∅ /\ due s = true) then Some (with_phase (Closing true) s) else None
  | Closing clean, SessionClosed => Some (after_close clean s)
  | StoppingMetrics clean _, MetricsJoined => if metrics_up s then None else Some (finish clean s)
  | StoppingMetrics clean _, MetricsTimeout => if metrics_up s && due s then Some (finish clean s) else None
  | _, _ => environment_step s e
  end.
End Process.

(** ** Its invariant *)

Section Invariant.
Context {Z : ZenohLib} (load_tls_config : str -> str -> bool) (st : Startup).
Abbreviation step := (main_step load_tls_config st).
Abbreviation init := (main_init st).

Definition all_bound (s : Process) : Prop := forall i, i < length (listens st) -> i ∈ bound s.

Definition starts (i : nat) : Prop :=
  exists x, listens st !! i = Some x /\ is_ok (run_listener load_tls_config x) = true.

Definition open_and_served (s : Process) : Prop := session_closed s = false /\ metrics_cancelled s = false.

Definition reason (clean : bool) (s : Process) : Prop := if clean then shutdown s = true else live s = ∅.

Definition exit_inv (e : Exit) (s : Process) : Prop :=
  match e with
  | Returned (Ok _) => all_bound s /\ ready (registry s) = false /\ session_closed s = true /\ shutdown s = true
  | Returned (Err AllTasksExited) =>
      all_bound s /\ ready (registry s) = false /\ session_closed s = true /\ live s = ∅
  | Returned (Err (ListenerFailed l)) =>
      ready (registry s) = false /\ exists i, i < length (listens st) /\ l = label_of st i /\ i ∉ bound s /\ i ∉ live s
  | Returned (Err (ListenerNotReady l)) =>
      ready (registry s) = false /\ exists i, i < length (listens st) /\ l = label_of st i /\ i ∉ bound s
  | PanickedBudget => all_bound s /\ open_and_served s /\ drain_budget (drain_secs st) = None
  | _ => False
  end.

Definition phase_inv (p : MainPhase) (s : Process) : Prop :=
  match p with
  | AwaitBound i since =>
      i < length (listens st) /\ (forall j, j < i -> j ∈ bound s) /\ ready (registry s) = false /\ open_and_served s /\
      (since <= now s)%N /\ (since <= N.of_nat i * bound_timeout)%N
  | Serving => all_bound s /\ ready (registry s) = true /\ open_and_served s /\ drain_budget (drain_secs st) = Some (budget st)
  | Draining since => all_bound s /\ ready (registry s) = false /\ open_and_served s /\ shutdown s = true /\
      drain_budget (drain_secs st) = Some (budget st) /\ (since <= now s)%N
  | Closing c => all_bound s /\ ready (registry s) = false /\ open_and_served s /\ reason c s
  | StoppingMetrics c since =>
      all_bound s /\ ready (registry s) = false /\ session_closed s = true /\ reason c s /\ (since <= now s)%N
  | Exited e => exit_inv e s
  end.

Definition main_inv (s : Process) : Prop :=
  (forall i, i ∈ bound s -> starts i) /\ in_time st (now s) (phase s) = true /\ phase_inv (phase s) s.

(** The environment only adds reports, takes tasks, requests the shutdown and lets time
    pass. *)
Lemma phase_inv_mono p s s' :
  (forall e, p <> Exited e) ->
  bound s ⊆ bound s' -> live s' ⊆ live s -> (shutdown s = true -> shutdown s' = true) ->
  session_closed s' = session_closed s -> metrics_cancelled s' = metrics_cancelled s ->
  registry s' = registry s -> (now s <= now s')%N -> phase_inv p s -> phase_inv p s'.
Proof using Type.
  intros Hp Hb Hl Hs Hc Hm Hr Hn. unfold phase_inv, open_and_served, all_bound, reason.
  assert (live s = ∅ -> live s' = ∅) as Hlive by set_solver. rewrite Hc, Hm, Hr.
  destruct p as [i since| |since|c|c since|e]; [..|by destruct (Hp e)]; intros H; destruct_and?; split_and?;
    try done; try lia; eauto; try (intros; eapply Hb; eauto).
  - by destruct c; auto.
  - by destruct c; auto.
Qed.

Lemma environment_inv s e s' :
  (forall x, phase s <> Exited x) -> main_inv s -> environment_step load_tls_config st s e = Some s' -> main_inv s'.
Proof using Type.
  intros Hp (Hb & Ht & Hi) H. unfold main_inv.
  destruct e; simpl in H; try done.
  - destruct (listens st !! i) as [x|] eqn:Ex; [|done]. case_decide as Hd; [|done]. injection H as <-. simpl.
    split; [|split; [done|]].
    + intros j [->%elem_of_singleton|Hj]%elem_of_union; [exists x; tauto|auto].
    + eapply phase_inv_mono; [done|..|exact Hi]; simpl; try done. set_solver.
  - case_decide; [|done]. injection H as <-. simpl. split; [done|split; [done|]].
    eapply phase_inv_mono; [done|..|exact Hi]; simpl; try done. set_solver.
  - destruct (_ && _); [|done]. injection H as <-. simpl. split; [done|split; [done|]].
    by eapply phase_inv_mono; [done|..|exact Hi].
  - destruct (metrics_up s && metrics_cancelled s) eqn:E; [|done]. apply andb_prop in E as [_ E].
    injection H as <-. simpl. split; [done|split; [done|]].
    by eapply phase_inv_mono; [done|..|exact Hi].
  - destruct (in_time st (now s + d) (phase s)) eqn:E; [|done]. injection H as <-. simpl. split; [done|split; [done|]].
    eapply phase_inv_mono; [done|..|exact Hi]; simpl; try done. lia.
Qed.

Lemma next_wait_inv i s :
  (forall j, j ∈ bound s -> starts j) -> (forall j, j < i -> j ∈ bound s) -> ready (registry s) = false ->
  open_and_served s -> (now s <= N.of_nat i * bound_timeout)%N -> main_inv (next_wait st i s).
Proof using Type.
  intros Hb Hi Hr Ho Hn. unfold next_wait. destruct (Nat.ltb_spec i (length (listens st))).
  - split; [done|]. split; [apply N.leb_le; simpl; lia|]. simpl. split_and!; [done..|lia|done].
  - assert (all_bound s) by (intros j Hj; apply Hi; lia).
    destruct (drain_budget (drain_secs st)) eqn:E; (split; [done|]; split; [done|]); [|done].
    simpl. unfold budget. by rewrite E.
Qed.

Lemma main_inv_step s e s' : main_inv s -> step s e = Some s' -> main_inv s'.
Proof using Type.
  intros Hinv H. unfold main_step in H.
  destruct (phase s) as [i since| |since|c|c since|x] eqn:Ep;
    [destruct e; try (eapply environment_inv; [by rewrite Ep|exact Hinv|exact H])..|done];
    destruct Hinv as (Hb & Ht & Hi); rewrite Ep in Ht, Hi; simpl in Hi; destruct_and?.
  - case_decide; [|done]. injection H as <-. unfold in_time, deadline in Ht. apply N.leb_le in Ht.
    apply next_wait_inv; [done| |done|done|lia]. intros j Hj. destruct (decide (j = i)) as [->|]; [done|].
    match goal with Hlt : forall _, _ |- _ => apply Hlt; lia end.
  - case_decide; [|done]. injection H as <-. split; [done|]. split; [done|]. simpl. split; [done|]. exists i. tauto.
  - case_decide; [|done]. injection H as <-. split; [done|]. split; [done|]. simpl. split; [done|]. exists i. tauto.
  - destruct (shutdown s) eqn:Es; [|done]. injection H as <-. split; [done|]. split; [apply N.leb_le; simpl; lia|].
    by split_and!.
  - case_decide; [|done]. injection H as <-. split; [done|]. split; [done|]. by split_and!.
  - case_decide; [|done]. injection H as <-. split; [done|]. split; [done|]. by split_and!.
  - case_decide; [|done]. injection H as <-. split; [done|]. split; [done|]. by split_and!.
  - injection H as <-. unfold after_close. destruct (metrics_server st).
    + split; [done|]. split; [apply N.leb_le; simpl; lia|]. by split_and!.
    + split; [done|]. split; [done|]. by destruct c; split_and!.
  - destruct (metrics_up s); [done|]. injection H as <-. split; [done|]. split; [done|]. by destruct c; split_and!.
  - destruct (_ && _); [|done]. injection H as <-. split; [done|]. split; [done|]. by destruct c; split_and!.
Qed.

Lemma main_inv_run es s : run step init es = Some s -> main_inv s.
Proof using Type.
  apply (run_invariant step main_inv); [|apply main_inv_step].
  apply next_wait_inv; simpl; [set_solver|lia|done|done|lia].
Qed.

(** The status line of [/readyz]. *)
Definition readyz (s : Process) : str := fst (fst (route (registry s) (lit "/readyz"))).

Lemma readyz_ready s : readyz s = if ready (registry s) then lit "200 OK" else lit "503 Service Unavailable".
Proof using Type. unfold readyz. destruct (registry s) as [a b r]. by destruct r. Qed.

(** The environment never moves [main]. *)
Lemma environment_phase s e s' :
  environment_step load_tls_config st s e = Some s' ->
  phase s' = phase s /\ registry s' = registry s /\ live s' ⊆ live s /\ session_closed s' = session_closed s /\
  (now s <= now s')%N /\ (metrics_cancelled s = false -> metrics_up s' = metrics_up s) /\
  metrics_cancelled s' = metrics_cancelled s.
Proof using Type.
  intros H. destruct e; simpl in H; try done.
  - destruct (listens st !! i); [|done]. case_decide; [|done]. injection H as <-. simpl. split_and!; try done; lia.
  - case_decide; [|done]. injection H as <-. simpl. split_and!; try done; set_solver.
  - destruct (_ && _); [|done]. injection H as <-. simpl. split_and!; try done; lia.
  - destruct (metrics_up s && metrics_cancelled s) eqn:E; [|done]. apply andb_prop in E as [_ E].
    injection H as <-. simpl. rewrite E. split_and!; try done; lia.
  - destruct (in_time _ _ _); [|done]. injection H as <-. simpl. split_and!; try done; lia.
Qed.

(** [main]'s own steps, phase by phase. *)
Lemma main_step_cases s e s' :
  step s e = Some s' ->
  environment_step load_tls_config st s e = Some s' \/
  match phase s with
  | AwaitBound i _ => s' = next_wait st (S i) s \/
      s' = abort_start (ListenerFailed (label_of st i)) s \/ s' = abort_start (ListenerNotReady (label_of st i)) s
  | Serving => s' = with_ready false (Draining (now s)) s \/ live s = ∅ /\ s' = with_ready false (Closing false) s
  | Draining since => s' = with_phase (Closing true) s /\ (live s = ∅ \/ (since + budget st <= now s)%N)
  | Closing c => s' = after_close st c s
  | StoppingMetrics c _ => s' = finish c s
  | Exited _ => False
  end.
Proof using Type.
  unfold main_step. intros H.
  destruct (phase s) as [i since| |since|c|c since|x] eqn:Ep; [destruct e; try (by left)..|done]; right.
  - case_decide; [|done]. injection H as <-. auto.
  - case_decide; [|done]. injection H as <-. auto.
  - case_decide; [|done]. injection H as <-. auto.
  - destruct (shutdown s); [|done]. injection H as <-. auto.
  - case_decide; [|done]. injection H as <-. auto.
  - case_decide; [|done]. injection H as <-. auto.
  - case_decide as Hd; [|done]. injection H as <-. split; [done|]. right.
    destruct Hd as [_ Hd]. unfold due, deadline in Hd. rewrite Ep in Hd. by apply N.leb_le.
  - by injection H as <-.
  - destruct (metrics_up s); [done|]. by injection H as <-.
  - destruct (_ && _); [|done]. by injection H as <-.
Qed.

(** Once past the [select!], never ready again. *)
Definition leaving (s : Process) : Prop :=
  match phase s with AwaitBound _ _ | Serving => False | _ => True end /\ ready (registry s) = false.

Lemma leaving_step s e s' : leaving s -> step s e = Some s' -> leaving s'.
Proof using Type.
  intros [Hp Hr] [He|Hc]%main_step_cases.
  - apply environment_phase in He as (E1 & E2 & _). unfold leaving. by rewrite E1, E2.
  - unfold leaving. destruct (phase s) as [i since| |since|c|c since|x]; try done.
    + by destruct Hc as [-> _].
    + subst s'. unfold after_close. by destruct (metrics_server st).
    + by subst s'.
Qed.

(** While the health server is not told to stop, it is up if there is one. *)
Lemma metrics_up_run es s :
  run step init es = Some s -> metrics_cancelled s = false ->
  metrics_up s = bool_decide (is_Some (metrics_server st)).
Proof using Type.
  apply (run_invariant step (fun s => metrics_cancelled s = false -> metrics_up s = bool_decide (is_Some (metrics_server st)))).
  - assert (forall i x, metrics_up (next_wait st i x) = metrics_up x) as Hn
      by (intros i x; unfold next_wait; destruct (_ <? _); [done|by destruct (drain_budget _)]).
    unfold main_init. by rewrite Hn.
  - intros x e x' Hx [He|Hc]%main_step_cases Hm.
    + apply environment_phase in He as (_ & _ & _ & _ & _ & Hu & Ec). rewrite Ec in Hm. rewrite Hu by done. auto.
    + revert Hm. destruct (phase x) as [i since| |since|c|c since|y]; [| | | | |done].
      * destruct Hc as [->|[->| ->]]; try done. unfold next_wait. destruct (_ <? _); [done|by destruct (drain_budget _)].
      * destruct Hc as [->|[_ ->]]; done.
      * destruct Hc as [-> _]; done.
      * subst x'. unfold after_close. by destruct (metrics_server st).
      * by subst x'.
Qed.


(** Past the wait for the tasks: the session is being closed, or is closed. *)
Definition closing_down (s : Process) : bool :=
  match phase s with Closing _ | StoppingMetrics _ _ => true | _ => session_closed s end.

(** In the run [es] the drain began at [t]. *)
Definition drain_began (es : list MainEvent) (t : N) : Prop :=
  exists es1 es2 s1, es = es1 ++ es2 /\ run step init es1 = Some s1 /\ phase s1 = Draining t /\ now s1 = t /\ shutdown s1 = true.

(** The tasks were waited for: all have returned, or the drain's budget is spent. *)
Definition waited_for (es : list MainEvent) (s : Process) : Prop :=
  live s = ∅ \/ exists t, drain_began es t /\ (t + budget st <= now s)%N.

Lemma drain_began_more es es' t : drain_began es t -> drain_began (es ++ es') t.
Proof using Type. intros (es1 & es2 & s1 & -> & H). exists es1, (es2 ++ es'), s1. by rewrite app_assoc. Qed.

Lemma waited_for_more es e s s' :
  live s' ⊆ live s -> (now s <= now s')%N -> waited_for es s -> waited_for (es ++ [e]) s'.
Proof using Type.
  intros Hl Hn [Hs|(t & Hb & Ht)]; [left; set_solver|right]. exists t. split; [by apply drain_began_more|lia].
Qed.

Lemma drain_history es s :
  run step init es = Some s ->
  (forall t, phase s = Draining t -> drain_began es t) /\ (closing_down s = true -> waited_for es s).
Proof using Type.
  apply (run_history_invariant step (fun es s => (forall t, phase s = Draining t -> drain_began es t) /\
    (closing_down s = true -> waited_for es s))).
  { unfold main_init, next_wait, closing_down. destruct (_ <? _); [done|]. by destruct (drain_budget _). }
  intros es' x e x' Hr [Hd Hc] Hs. assert (run step init (es' ++ [e]) = Some x') as Hr' by (by rewrite run_snoc, Hr).
  pose proof (main_inv_run _ _ Hr) as (_ & _ & Hp). apply main_step_cases in Hs as [He|Hs].
  - apply environment_phase in He as (Ep & _ & Hl & Ec & Hn & _). unfold closing_down in *. rewrite Ep, Ec. split.
    + intros t Ht. by apply drain_began_more, Hd.
    + intros Hcl. by apply (waited_for_more es' e x), Hc.
  - pose proof (main_inv_run _ _ Hr') as (_ & _ & Hp'). unfold closing_down in *. destruct (phase x) as [i since| |since|c|c since|y].
    + destruct Hp as (_ & _ & _ & [Ho _] & _). destruct Hs as [->|[->| ->]]; [|split; simpl; [done|congruence]..].
      unfold next_wait. destruct (_ <? _); [|destruct (drain_budget _)]; simpl; (split; [done|congruence]).
    + destruct Hp as (_ & _ & [Ho _] & _). destruct Hs as [->|[Hl ->]]; simpl in *.
      * split; [|congruence]. intros t [= <-]. exists (es' ++ [e]), [], (with_ready false (Draining (now x)) x).
        rewrite app_nil_r. split_and!; try done. apply Hp'.
      * split; [done|]. intros _. by left.
    + destruct Hs as [-> Hs]. simpl. split; [done|]. intros _. destruct Hs as [Hs|Hs]; [by left|right].
      exists since. split; [by apply drain_began_more, Hd|done].
    + subst x'. unfold after_close. specialize (Hc eq_refl).
      destruct (metrics_server st); simpl; (split; [done|intros _; by apply (waited_for_more es' e x)]).
    + subst x'. simpl. split; [done|]. intros _. apply (waited_for_more es' e x); [done..|by apply Hc].
    + done.
Qed.

(** ** Ends *)

Definition main_event (e : MainEvent) : bool :=
  match e with ListenerBound _ | TaskReturned _ | Signal _ | MetricsStopped => false | _ => true end.

(** By [main]'s own events, at most [n] of them, within [t]. *)
Definition ends_within (n : nat) (t : N) (s : Process) : Prop :=
  exists es s' x, run step s es = Some s' /\ phase s' = Exited x /\ Forall (fun e => main_event e = true) es /\
    length es <= n /\ (now s' <= now s + t)%N.

Lemma ends_cons e n t d s s1 :
  step s e = Some s1 -> main_event e = true -> (now s1 <= now s + d)%N -> ends_within n t s1 ->
  ends_within (S n) (d + t) s.
Proof using Type.
  intros He Hm Hd (es & s' & x & Hr & Hp & Hf & Hl & Ht). exists (e :: es), s', x.
  split_and!; [simpl; by rewrite He|done|by constructor|simpl; lia|lia].
Qed.

Lemma ends_more n t n' t' s : ends_within n t s -> n <= n' -> (t <= t')%N -> ends_within n' t' s.
Proof using Type. intros (es & s' & x & ? & ? & ? & ? & ?) ??. exists es, s', x. split_and!; try done; lia. Qed.

Lemma ends_exited n t s x : phase s = Exited x -> ends_within n t s.
Proof using Type. intros Hp. exists [], s, x. split_and!; [done..|simpl; lia|lia]. Qed.

(** Waiting out a timer: [main] takes the next event with the timer due. *)
Lemma ends_timer n t s d :
  main_inv s -> deadline st (phase s) = Some d ->
  (forall s1, main_inv s1 -> phase s1 = phase s -> bound s1 = bound s -> live s1 = live s ->
     metrics_up s1 = metrics_up s -> now s1 = d -> due st s1 = true -> ends_within n t s1) ->
  ends_within (S n) ((d - now s) + t) s.
Proof using Type.
  intros Hi Hd Hk. assert (now s <= d)%N as Hn.
  { destruct Hi as (_ & Ht & _). unfold in_time in Ht. rewrite Hd in Ht. by apply N.leb_le. }
  assert (in_time st (now s + (d - now s)) (phase s) = true) as Hin.
  { unfold in_time. rewrite Hd. apply N.leb_le. lia. }
  assert (step s (Tick (d - now s)) = environment_step load_tls_config st s (Tick (d - now s))) as He.
  { unfold main_step. by destruct (phase s). }
  cbn [environment_step] in He. rewrite Hin in He.
  eapply (ends_cons (Tick (d - now s))); [exact He|done|simpl; lia|].
  apply Hk; simpl; try done; [|lia|].
  - by eapply main_inv_step.
  - unfold due. simpl. rewrite Hd. apply N.leb_le. lia.
Qed.

Lemma ends_one n t s e s1 :
  step s e = Some s1 -> main_event e = true -> now s1 = now s -> ends_within n t s1 -> ends_within (S n) t s.
Proof using Type. intros He Hm Hn H. eapply ends_more; [eapply (ends_cons e n t 0); [done..|lia|done]|lia|lia]. Qed.

Lemma stopping_ends s c since :
  main_inv s -> phase s = StoppingMetrics c since -> (since <= now s)%N ->
  ends_within 2 metrics_timeout s.
Proof using Type.
  intros Hi Hp Hs. destruct (metrics_up s) eqn:Eu.
  - eapply ends_more; [eapply (ends_timer 1 0 s (since + metrics_timeout)); [done|by rewrite Hp|]|lia|lia].
    intros s1 _ Ep _ _ Em _ Hdue. eapply (ends_one 0 0 _ MetricsTimeout (finish c s1)); [|done|done|by eapply ends_exited].
    unfold main_step. by rewrite Ep, Hp, Em, Eu, Hdue.
  - eapply ends_more; [eapply (ends_one 0 0 _ MetricsJoined (finish c s)); [|done|done|by eapply ends_exited]|lia|lia].
    unfold main_step. by rewrite Hp, Eu.
Qed.

Lemma closing_ends s c :
  main_inv s -> phase s = Closing c -> ends_within 3 metrics_timeout s.
Proof using Type.
  intros Hi Hp. assert (step s SessionClosed = Some (after_close st c s)) as He by (unfold main_step; by rewrite Hp).
  eapply (ends_one 2 metrics_timeout _ SessionClosed); [exact He|done| |].
  - unfold after_close. by destruct (metrics_server st).
  - apply main_inv_step in He; [|done]. unfold after_close in *. destruct (metrics_server st).
    + eapply stopping_ends; [done|done|simpl; lia].
    + by eapply ends_exited.
Qed.

Lemma closing_step_ends s e c :
  main_inv s -> main_event e = true ->
  step s e = Some (with_phase (Closing c) s) \/ step s e = Some (with_ready false (Closing c) s) ->
  ends_within 4 metrics_timeout s.
Proof using Type.
  intros Hi Hm [He|He]; (eapply (ends_one 3); [exact He|done..|]);
    (eapply closing_ends; [by eapply main_inv_step|done]).
Qed.

Lemma draining_ends s since :
  main_inv s -> phase s = Draining since -> (since <= now s)%N ->
  ends_within 5 (budget st + metrics_timeout) s.
Proof using Type.
  intros Hi Hp Hs. destruct (decide (live s = ∅)) as [Hl|Hl].
  - eapply ends_more; [eapply (closing_step_ends s Drained true); [done..|left]|lia|lia].
    unfold main_step. by rewrite Hp, decide_True.
  - eapply ends_more; [eapply (ends_timer 4 metrics_timeout s (since + budget st)); [done|by rewrite Hp|]|lia|lia].
    intros s1 Hi1 Ep _ El _ _ Hdue. eapply (closing_step_ends s1 DrainTimeout true); [done..|left].
    unfold main_step. rewrite Ep, Hp, decide_True; [done|]. by rewrite El.
Qed.

Lemma serving_ends s :
  main_inv s -> phase s = Serving -> shutdown s = true \/ live s = ∅ ->
  ends_within 6 (budget st + metrics_timeout) s.
Proof using Type.
  intros Hi Hp [Hs|Hl].
  - assert (step s SawShutdown = Some (with_ready false (Draining (now s)) s)) as He.
    { unfold main_step. by rewrite Hp, Hs. }
    eapply (ends_one 5); [exact He|done..|]. eapply draining_ends; [by eapply main_inv_step|done|simpl; lia].
  - eapply ends_more; [eapply (closing_step_ends s SawAllReturned false); [done..|right]|lia|lia].
    unfold main_step. by rewrite Hp, decide_True.
Qed.

(** Waiting for the listeners: a report, a dropped sender, or the thirty seconds. *)
Lemma waiting_ends k s i since :
  main_inv s -> phase s = AwaitBound i since -> (since <= now s)%N ->
  shutdown s = true \/ live s = ∅ -> length (listens st) - i = k ->
  ends_within (k + 8) (bound_timeout + (budget st + metrics_timeout)) s.
Proof using Type.
  revert s i since. induction k as [|k IH]; intros s i since Hi Hp Hs Hend Hk.
  { destruct Hi as (_ & _ & Hi). rewrite Hp in Hi. simpl in Hi. lia. }
  destruct (decide (i ∈ bound s)) as [Hb|Hb]; [|destruct (decide (i ∈ live s)) as [Hl|Hl]].
  - assert (step s SawBound = Some (next_wait st (S i) s)) as He by (unfold main_step; by rewrite Hp, decide_True).
    pose proof (main_inv_step _ _ _ Hi He) as Hi'.
    eapply (ends_one (k + 8)); [exact He|done| |].
    + unfold next_wait. destruct (_ <? _); [done|by destruct (drain_budget _)].
    + unfold next_wait in *. destruct (S i <? length (listens st)) eqn:El.
      * eapply (IH _ (S i) (now s)); [done|done|simpl; lia|done|lia].
      * destruct (drain_budget (drain_secs st)); [|by eapply ends_exited].
        eapply ends_more; [by eapply serving_ends|lia|lia].
  - eapply ends_more; [eapply (ends_timer 1 0 s (since + bound_timeout)); [done|by rewrite Hp|]|lia|lia].
    intros s1 _ Ep Eb El _ _ Hdue. eapply (ends_one 0 0 _ BoundTimeout (abort_start _ s1)); [|done|done|by eapply ends_exited].
    unfold main_step. by rewrite Ep, Hp, decide_True by (by rewrite Eb, El).
  - eapply ends_more; [eapply (ends_one 0 0 _ SawDropped (abort_start _ s)); [|done|done|by eapply ends_exited]|lia|lia].
    unfold main_step. by rewrite Hp, decide_True.
Qed.

Lemma process_ends_from s :
  main_inv s -> shutdown s = true \/ live s = ∅ ->
  ends_within (length (listens st) + 8) (bound_timeout + (budget st + metrics_timeout)) s.
Proof using Type.
  intros Hi Hend. pose proof Hi as (_ & _ & Hp). destruct (phase s) as [i since| |since|c|c since|x] eqn:E; simpl in Hp.
  - eapply ends_more; [eapply waiting_ends; [done|done| |done|done]|lia|lia]. tauto.
  - eapply ends_more; [by eapply serving_ends|lia|lia].
  - eapply ends_more; [eapply draining_ends; [done..|tauto]|lia|lia].
  - eapply ends_more; [by eapply closing_ends|lia|lia].
  - eapply ends_more; [eapply stopping_ends; [done..|tauto]|lia|lia].
  - by eapply ends_exited.
Qed.

(** ** Properties *)

(** C20: readiness tells the truth.  Whatever listeners, backends, signals and timers
    do, [/readyz] answers 200 only if every listener has its door open and its socket
    bound, and then [main] is serving (the one exception is the panic on an unrepresentable
    drain budget, which ends the process); a serving process does answer 200; and from
    the moment it drains, the endpoint is still there and answers 503 until the end. *)
Theorem readiness_truthful es s :
  run step init es = Some s ->
  (readyz s = lit "200 OK" ->
     (forall i, i < length (listens st) -> i ∈ bound s /\ starts i) /\ (phase s = Serving \/ phase s = Exited PanickedBudget)) /\
  (phase s = Serving -> readyz s = lit "200 OK") /\
  (forall since, phase s = Draining since ->
     metrics_up s = bool_decide (is_Some (metrics_server st)) /\
     forall es' s', run step s es' = Some s' -> readyz s' = lit "503 Service Unavailable").
Proof using Type.
  intros Hr. pose proof (main_inv_run _ _ Hr) as (Hb & _ & Hp). rewrite readyz_ready. split_and!.
  - destruct (ready (registry s)) eqn:Er; [|done]. intros _.
    assert (all_bound s /\ (phase s = Serving \/ phase s = Exited PanickedBudget)) as [Ha Hph].
    { destruct (phase s) as [i since| |since|c|c since|x]; simpl in Hp; rewrite ?Er in Hp; try tauto; try (destruct_and?; done).
      destruct x as [[u|e]| |]; simpl in Hp; rewrite ?Er in Hp; [| | |by split; [apply Hp|right]]; try destruct e; destruct_and?; done. }
    split; [|done]. intros i Hi. apply Ha in Hi. auto.
  - intros E. rewrite E in Hp. destruct Hp as (_ & -> & _). done.
  - intros since E. rewrite E in Hp. destruct Hp as (_ & Hready & [_ Hm] & _). split; [by eapply metrics_up_run|].
    intros es' s' Hr'. assert (leaving s') as [_ Hl].
    { revert Hr'. apply (run_invariant step leaving); [|apply leaving_step]. unfold leaving. by rewrite E. }
    by rewrite readyz_ready, Hl.
Qed.

(** C21: an orderly shutdown.  [main] begins to close the Zenoh session, and has it
    closed, only after every bridge task has returned, or after a shutdown was requested,
    the drain began, and its whole budget has passed since; the health server is told to
    stop only after the session is closed, or when a listener failed to start; and the exit
    says why: success means a shutdown was requested and the session closed, the error
    that all tasks are gone means that they are, and a start-up error names a listener
    that never reported. *)
Theorem shutdown_ordered es s :
  run step init es = Some s ->
  (closing_down s = true -> live s = ∅ \/ exists t, drain_began es t /\ (t + budget st <= now s)%N) /\
  (metrics_cancelled s = true -> session_closed s = true \/
     exists l, phase s = Exited (Returned (Err (ListenerFailed l))) \/ phase s = Exited (Returned (Err (ListenerNotReady l)))) /\
  (forall x, phase s = Exited x -> exit_inv x s).
Proof using Type.
  intros Hr. pose proof (main_inv_run _ _ Hr) as (Hb & _ & Hp). split_and!.
  - apply (drain_history _ _ Hr).
  - intros Hm. destruct (phase s) as [i since| |since|c|c since|x]; simpl in Hp; unfold open_and_served in Hp;
      try (destruct_and?; congruence); [left; tauto|].
    destruct x as [[u|e]| |]; simpl in Hp; [left; tauto| |done|].
    + destruct e; try done; [right; eauto..|left; tauto].
    + destruct Hp as (_ & [_ ?] & _). congruence.
  - intros x E. by rewrite E in Hp.
Qed.

(** C22: the process ends.  Once a shutdown is requested, or every bridge task is gone,
    [main] needs nothing from the others (a task that hangs, a listener that never
    binds, a health server that never stops): its own steps, at most eight and one per
    listener, end the process within thirty seconds, the drain budget and two seconds,
    not counting the closing of the session itself. *)
Theorem process_ends es s :
  run step init es = Some s -> shutdown s = true \/ live s = ∅ ->
  exists es' s' x, run step s es' = Some s' /\ phase s' = Exited x /\ Forall (fun e => main_event e = true) es' /\
    length es' <= length (listens st) + 8 /\
    (now s' <= now s + (bound_timeout + (budget st + metrics_timeout)))%N.
Proof using Type. intros Hr Hend. by apply process_ends_from; [eapply main_inv_run|]. Qed.
End Invariant.

(** ** Start-up *)

Section StartupSpec.
Context {U : UnicodeCase} {Z : ZenohLib} {FS : Type} (tls_termination : bool)
        (init_logging : LogOptions -> BuildOutcome (list (str * str) * FS)) (tcp_bind : SocketAddr -> result unit unit).
Abbreviation startup := (startup tls_termination init_logging tcp_bind).

(** The stages before each failure, all of which have succeeded by then. *)
Definition logging_up (a : Args) : Prop :=
  validate tls_termination a = Ok tt /\
  exists opts guards fs, log_options a = Ok opts /\ init_logging opts = Built (guards, fs).

Definition configured (a : Args) (config : ZConfig) : Prop := logging_up a /\ session_config a = Ok config.

Definition opened (a : Args) (s : Session) : Prop := exists config, configured a config /\ zenoh_open config = Ok s.

(** What a failed start-up is: the stages before it succeeded, and its own failed with
    the error reported. *)
Definition startup_failure (a : Args) (x : Exit) : Prop :=
  match x with
  | Returned (Err (InvalidArgs e)) => validate tls_termination a = Err e
  | Returned (Err (LoggingFailed e)) =>
      validate tls_termination a = Ok tt /\ exists opts, log_options a = Ok opts /\ init_logging opts = BuildError e
  | PanickedLogFile path =>
      validate tls_termination a = Ok tt /\ exists opts, log_options a = Ok opts /\ init_logging opts = AppenderPanics path
  | Returned (Err (ZenohFile e)) =>
      logging_up a /\ exists file, zenoh_config a = Some file /\ create_zenoh_config_from_file from_file file = Err e
  | Returned (Err (ZenohFlags e)) =>
      logging_up a /\ zenoh_config a = None /\
      create_zenoh_config config_default insert_json5 (zenoh_mode a) (zenoh_connect a) (zenoh_listen a) = Err e
  | Returned (Err (OpenFailed e)) => exists config, configured a config /\ zenoh_open config = Err e
  | Returned (Err (MetricsBind addr)) =>
      (exists s, opened a s) /\ metrics_addr a = Some addr /\ is_ok (tcp_bind addr) = false
  | _ => False
  end.

Lemma session_config_Err a x : logging_up a -> session_config a = Err x -> startup_failure a x.
Proof using Type.
  intros Hl. unfold session_config, or_fail. destruct (zenoh_config a) as [f|] eqn:Ez.
  - destruct (create_zenoh_config_from_file _ _) as [c|e] eqn:E; [done|]. intros [= <-]. split; [done|by exists f].
  - destruct (create_zenoh_config _ _ _ _ _) as [c|e] eqn:E; [done|]. by intros [= <-].
Qed.

Lemma start_metrics_Err a x :
  start_metrics tcp_bind a = Err x ->
  exists addr, x = Returned (Err (MetricsBind addr)) /\ metrics_addr a = Some addr /\ is_ok (tcp_bind addr) = false.
Proof using Type.
  unfold start_metrics, or_fail, HealthServer.bind. destruct (metrics_addr a) as [addr|]; [|done].
  destruct (tcp_bind addr) eqn:E; [done|]. intros [= <-]. exists addr. by rewrite E.
Qed.

(** C24: start-up.  Either every stage succeeds, and the process holds exactly what the
    arguments describe and has at least one task to run; or the first stage that fails
    decides the exit, with its own error and every stage before it passed: bad arguments
    before anything is touched, then logging (whose file appender can still panic), the
    Zenoh configuration from its file or from the flags, the session, and the health port.
    The specs, parsed a second time, can no longer fail. *)
Theorem startup_outcome a :
  match startup a with
  | Ok st =>
      validate tls_termination a = Ok tt /\ listen_specs a = Ok (listens st) /\ backend_specs a = Ok (backends st) /\
      opened a (session st) /\
      (forall addr, metrics_addr a = Some addr -> tcp_bind addr = Ok tt) /\ metrics_server st = metrics_addr a /\
      st_config st = bridge_config a /\ drain_secs st = a_drain_timeout a /\ all_tasks st <> []
  | Err x => startup_failure a x
  end.
Proof using Type.
  unfold Main.startup, or_fail. destruct (validate tls_termination a) as [[]|e] eqn:Ev; cbn; [|done].
  pose proof Ev as (ls & bs & opts & Hacc)%validate_Ok.
  rewrite (acc_log _ _ _ _ _ Hacc). cbn. unfold start_logging.
  destruct (init_logging opts) as [[guards fs]|e|path] eqn:El; cbn;
    [|split; [done|exists opts; by rewrite (acc_log _ _ _ _ _ Hacc)]..].
  assert (logging_up a) as Hup by (split; [done|exists opts, guards, fs; by rewrite (acc_log _ _ _ _ _ Hacc)]).
  destruct (session_config a) as [config|x] eqn:Ec; cbn; [|by apply session_config_Err].
  destruct (zenoh_open config) as [s|e] eqn:Eo; cbn; [|by exists config].
  assert (opened a s) as Hop by (by exists config).
  destruct (start_metrics tcp_bind a) as [[]|x] eqn:Em; cbn;
    [|apply start_metrics_Err in Em as (addr & -> & H); split; [by exists s|done]].
  rewrite (acc_listens _ _ _ _ _ Hacc), (acc_backends _ _ _ _ _ Hacc). cbn. split_and!; try done.
  - intros addr Ha. unfold start_metrics, HealthServer.bind, or_fail in Em. rewrite Ha in Em.
    destruct (tcp_bind addr) as [[]|]; [done|discriminate].
  - unfold all_tasks, spawn_bridge_tasks. simpl. destruct (acc_some _ _ _ _ _ Hacc) as [Hn|Hn].
    + pose proof (collect_length _ _ _ (acc_listens _ _ _ _ _ Hacc)). destruct ls; [|done]. by destruct (a_listen a).
    + pose proof (collect_length _ _ _ (acc_backends _ _ _ _ _ Hacc)). destruct bs; [by destruct (a_backend a)|].
      by destruct ls.
Qed.
End StartupSpec.

(** ** Examples *)

Module Examples.
#[local] Existing Instance ascii_case.

#[local] Instance unit_zenoh : ZenohLib := {|
  ZConfig := unit; ZErr := unit; Session := unit; config_default := tt;
  insert_json5 _ _ _ := Ok tt; from_file _ := Err tt; zenoh_open _ := Ok tt;
|}.

(** [Args.Examples.web_args] with a health server. *)
#[local] Notation st := (Build_Startup unit_zenoh tt (Some (V4 127 0 0 1 9100)) 10000
  (match listen_specs Args.Examples.web_args with Ok l => l | Err _ => [] end) [] BridgeConfig_default 5).
#[local] Notation boot := [ListenerBound 1; ListenerBound 0; SawBound; SawBound].
#[local] Notation boot_and_stop := (boot ++ [Tick 50; Signal SIGTERM; SawShutdown]).
#[local] Notation start := (main_step (fun _ _ => true) st).

Lemma readiness_truthful_witness :
  exists s, run start (main_init st) boot = Some s /\ readyz s = lit "200 OK" /\
    forall i, i < 2 -> i ∈ bound s /\ starts (fun _ _ => true) st i.
Proof.
  destruct (run start (main_init st) boot) as [s|] eqn:E; [|vm_compute in E; discriminate].
  exists s. split; [done|]. destruct (readiness_truthful (fun _ _ => true) st boot s E) as (H & Hs & _).
  assert (readyz s = lit "200 OK") as Hr.
  { apply Hs. assert (phase <$> run start (main_init st) boot = Some Serving) as Hp by (vm_compute; reflexivity).
    rewrite E in Hp. by injection Hp. }
  split; [exact Hr|]. exact (proj1 (H Hr)).
Defined.

#[local] Notation stop := [Tick 7000; DrainTimeout; SessionClosed].

Lemma shutdown_ordered_witness :
  exists s, run start (main_init st) (boot_and_stop ++ stop) = Some s /\ live s <> ∅ /\
    exists t, drain_began (fun _ _ => true) st (boot_and_stop ++ stop) t /\ (t + 7000 <= now s)%N.
Proof.
  assert ((fun s => (bool_decide (live s = ∅), closing_down s)) <$> run start (main_init st) (boot_and_stop ++ stop)
    = Some (false, true)) as H by (vm_compute; reflexivity).
  destruct (run start (main_init st) (boot_and_stop ++ stop)) as [s|] eqn:E; [|discriminate H].
  injection H as Hl Hc. apply bool_decide_eq_false in Hl. exists s. split; [reflexivity|]. split; [exact Hl|].
  destruct (proj1 (shutdown_ordered (fun _ _ => true) st (boot_and_stop ++ stop) s E) Hc) as [Hn|Hw]; [by destruct Hl|exact Hw].
Defined.

Lemma process_ends_witness :
  exists s es s' x, run start (main_init st) boot_and_stop = Some s /\
    run start s es = Some s' /\ phase s' = Exited x /\ length es <= 10.
Proof.
  destruct (run start (main_init st) boot_and_stop) as [s|] eqn:E; [|vm_compute in E; discriminate].
  destruct (process_ends (fun _ _ => true) st boot_and_stop s E) as (es & s' & x & H1 & H2 & _ & H3 & _).
  - left. assert (shutdown <$> run start (main_init st) boot_and_stop = Some true) as H by (vm_compute; reflexivity).
    rewrite E in H. by injection H.
  - by exists s, es, s', x.
Defined.

(** The whole of it, from the command line to the exit. *)
Example web_process :
  match startup false (fun _ => Built ([], tt)) (fun _ => Ok tt) Args.Examples.web_args with
  | Ok p => phase <$> run (main_step (fun _ _ => true) p) (main_init p)
      (boot ++ [Signal SIGINT; SawShutdown; TaskReturned 0; TaskReturned 1; TaskReturned 2; TaskReturned 3; Drained; SessionClosed])
  | Err _ => None
  end = Some (Exited (Returned (Ok tt))).
Proof. vm_compute. reflexivity. Qed.

(** A drain timeout that clap and [validate] accept, and [main] panics on, ready. *)
Example drain_timeout_panics :
  let p := Build_Startup unit_zenoh tt None 10000 [] [] BridgeConfig_default 18446744073709551614 in
  phase (main_init p) = Exited PanickedBudget.
Proof. vm_compute. reflexivity. Qed.
End Examples.
