(* ===== verification/Drain.v ===== *)
(** * Drain: the accept loop's timers against the budget of [main]
    ([src/import/accept.rs], [src/import/mod.rs], [src/main.rs])

    [Accept.accept_step] with a clock: the back-off after a failed accept, the drain and
    its grace each last what the source says, and a [select!] whose shutdown branch is
    ready takes no time. *)

From S2P Require Import Prelude Text Config Backpressure ExportDrain Main Accept.

Definition backoff : N := from_millis 100.   (** [sleep(100ms)] after a failed accept *)
Definition grace : N := from_secs 1.         (** of [drain_tasks] *)

(** [entered]: when the phase began; [asked]: when the shutdown was requested;
    [backoffs]: failed accepts since. *)
Record Timed : Type := { loop : AcceptLoop; clock : N; entered : N; asked : option N; backoffs : nat }.

Inductive TimedEvent : Type := On (e : AcceptEvent) | Elapse (d : N).

Section Timed.
Context (max_connections : nat) (drain_timeout : N).

Definition phase_limit (p : Phase) : option N :=
  match p with
  | BackingOff => Some backoff
  | Draining => Some drain_timeout
  | Grace => Some grace
  | _ => None
  end.

(** The events that a timer triggers. *)
Definition timer_due (s : Timed) (e : AcceptEvent) : bool :=
  match e with
  | BackoffOver | DrainTimeout | GraceExpired =>
      match phase_limit (phase (loop s)) with Some l => (entered s + l <=? clock s)%N | None => false end
  | _ => true
  end.

(** Time passes while an await is pending: no timer is overrun, and the shutdown, once
    requested, is seen by a [select!] at once. *)
Definition may_wait (s : Timed) (d : N) : bool :=
  match phase (loop s) with
  | Acquiring | Accepting => negb (shutdown (loop s))
  | p => match phase_limit p with Some l => (clock s + d <=? entered s + l)%N | None => true end
  end.

Definition timed_step (s : Timed) (e : TimedEvent) : option Timed :=
  match e with
  | Elapse d =>
      if may_wait s d then
        Some {| loop := loop s; clock := (clock s + d)%N; entered := entered s; asked := asked s; backoffs := backoffs s |}
      else None
  | On e =>
      if timer_due s e then
        l ← accept_step (loop s) e;
        Some {| loop := l; clock := clock s;
                entered := if decide (phase l = phase (loop s)) then entered s else clock s;
                asked := match asked s, e with None, Shutdown => Some (clock s) | o, _ => o end;
                backoffs := match asked s, e with Some _, AcceptFailed => S (backoffs s) | _, _ => backoffs s end |}
      else None
  end.

Definition timed_init : Timed := {|
  loop := accept_init max_connections; clock := 0; entered := 0; asked := None; backoffs := 0 |}.

(** How far past the request the loop can be, phase by phase. *)
Definition waited (s : Timed) (t0 : N) : N := (t0 + backoff * N.of_nat (S (backoffs s)))%N.

Definition timed_phase (s : Timed) (t0 : N) : Prop :=
  match phase (loop s) with
  | Acquiring | Accepting => clock s <= waited s t0
  | BackingOff => entered s + backoff <= waited s t0 /\ clock s <= entered s + backoff
  | Draining => entered s <= waited s t0 /\ clock s <= entered s + drain_timeout
  | Grace => entered s <= waited s t0 + drain_timeout /\ clock s <= entered s + grace
  | Stopped => True
  end%N.

Definition timed_inv (s : Timed) : Prop :=
  (is_Some (asked s) <-> shutdown (loop s) = true) /\ (entered s <= clock s)%N /\
  (phase (loop s) = BackingOff -> clock s <= entered s + backoff)%N /\
  (shutdown (loop s) = false -> ~ stopping (phase (loop s))) /\
  forall t0, asked s = Some t0 -> timed_phase s t0.

Lemma timed_inv_init : timed_inv timed_init.
Proof using Type.
  split_and!; simpl; try done. intros _ [?|[?|?]]; done.
Qed.

Lemma timed_inv_elapse s d s' : timed_inv s -> timed_step s (Elapse d) = Some s' -> timed_inv s'.
Proof using Type.
  intros (Ha & He & Hb & Hs & Ht) H. simpl in H. destruct (may_wait s d) eqn:Em; [|done]. injection H as <-.
  unfold timed_inv, timed_phase, waited, may_wait, phase_limit in *. simpl.
  split_and!; [done|lia| |done|].
  - intros E. rewrite E in Em. by apply N.leb_le in Em.
  - intros t0 E. specialize (Ht t0 E). assert (shutdown (loop s) = true) as Hsh by (apply Ha; by rewrite E).
    rewrite Hsh in Em. destruct (phase (loop s)); simpl in *; try done; apply N.leb_le in Em; lia.
Qed.

(** Where each event takes the loop from, and to. *)
Lemma accept_moves s e s' :
  accept_step s e = Some s' ->
  shutdown s' = match e with Shutdown => true | _ => shutdown s end /\
  match e with
  | Acquired => phase s = Acquiring /\ phase s' = Accepting
  | Accepted | Reaped _ => phase s = Accepting /\ phase s' = Acquiring
  | AcceptFailed => phase s = Accepting /\ phase s' = BackingOff
  | BackoffOver => phase s = BackingOff /\ phase s' = Acquiring
  | SawShutdown => shutdown s = true /\ (phase s = Acquiring \/ phase s = Accepting) /\ (phase s' = Draining \/ phase s' = Stopped)
  | Shutdown | TaskDone _ => phase s' = phase s
  | Joined _ => (phase s = Draining \/ phase s = Grace) /\ (phase s' = phase s \/ phase s' = Stopped)
  | DrainTimeout => phase s = Draining /\ phase s' = Grace
  | GraceExpired => phase s = Grace /\ phase s' = Stopped
  end.
Proof using Type.
  intros H. destruct e as [| | | |id| | |id|id| |]; simpl in H.
  - destruct (phase s), (permits s); try done. by injection H as <-.
  - case_decide; [|done]. by injection H as <-.
  - case_decide; [|done]. by injection H as <-.
  - case_decide; [|done]. by injection H as <-.
  - case_decide as Hd; [|done]. destruct Hd. by injection H as <-.
  - destruct (shutdown s) eqn:Es; [|done].
    destruct (phase s) eqn:Ep; try done; injection H as <-; simpl;
      destruct (drained_cases (running s) (finished s) Draining) as [(-> & _)| ->]; auto.
  - by injection H as <-.
  - case_decide; [|done]. by injection H as <-.
  - case_decide as Hd; [|done]. destruct Hd. injection H as <-. simpl.
    destruct (drained_cases (running s) (finished s ∖ {[id]}) (phase s)) as [(-> & _)| ->]; auto.
  - case_decide; [|done]. by injection H as <-.
  - case_decide; [|done]. by injection H as <-.
Qed.

Lemma not_stopping_on s e s' :
  accept_step s e = Some s' -> (shutdown s = false -> ~ stopping (phase s)) -> shutdown s' = false -> ~ stopping (phase s').
Proof using Type.
  unfold stopping. intros [Hsh Hm]%accept_moves Hs E. rewrite E in Hsh.
  destruct e; try congruence; specialize (Hs (eq_sym Hsh)); try destruct Hm as [? Hm]; try congruence;
    try (rewrite Hm; intros [?|[?|?]]; congruence); tauto.
Qed.

Lemma asked_on s e l :
  accept_step (loop s) e = Some l -> (is_Some (asked s) <-> shutdown (loop s) = true) ->
  (is_Some (match asked s, e with None, Shutdown => Some (clock s) | o, _ => o end) <-> shutdown l = true).
Proof using Type.
  intros [Hsh _]%accept_moves Ha. rewrite Hsh. destruct e, (asked s); try done; by split.
Qed.

(** The request itself, and every later event. *)
Lemma timed_phase_asked s e s' :
  timed_inv s -> asked s = None -> timed_step s (On e) = Some s' ->
  forall t0, asked s' = Some t0 -> timed_phase s' t0.
Proof using Type.
  intros (Ha & He & Hb & Hs & Ht) Hn H t0. simpl in H. destruct (timer_due s e) eqn:Ed; [|done].
  apply bind_Some in H as (l & Hl & [= <-]). cbn [asked]. rewrite Hn. destruct e; try done. intros [= <-].
  simpl in Hl. injection Hl as <-. unfold timed_phase, waited. simpl. rewrite decide_True by done.
  assert (shutdown (loop s) = false) as Hsh.
  { apply not_true_is_false. intros E. apply Ha in E. rewrite Hn in E. by destruct E. }
  specialize (Hs Hsh). unfold stopping in Hs.
  destruct (phase (loop s)) eqn:Ep; try tauto; unfold backoff, from_millis in *; try lia.
  specialize (Hb eq_refl). lia.
Qed.

Lemma timed_phase_on s e s' t0 :
  timed_inv s -> asked s = Some t0 -> timed_step s (On e) = Some s' -> timed_phase s' t0.
Proof using Type.
  intros (Ha & He & Hb & Hs & Ht) Hn H. specialize (Ht t0 Hn). simpl in H. destruct (timer_due s e) eqn:Ed; [|done].
  apply bind_Some in H as (l & Hl & [= <-]). apply accept_moves in Hl as [_ Hm]. rewrite Hn.
  unfold timed_phase, waited, timer_due, phase_limit in *. cbn [loop clock entered asked backoffs].
  destruct e; repeat match goal with H : _ /\ _ |- _ => destruct H | H : _ \/ _ |- _ => destruct H end;
    repeat match goal with H : phase _ = _ |- _ => rewrite H in * end; simpl in *; try done; rewrite ?decide_True by done;
    try (apply N.leb_le in Ed); unfold backoff, from_millis in *; try lia;
    destruct (phase (loop s)); simpl in *; try done; lia.
Qed.

Lemma timed_inv_step s e s' : timed_inv s -> timed_step s e = Some s' -> timed_inv s'.
Proof using Type.
  destruct e as [e|d]; [|apply timed_inv_elapse]. intros Hi H.
  assert (forall t0, asked s' = Some t0 -> timed_phase s' t0) as Hph.
  { intros t0 E. destruct (asked s) as [t1|] eqn:En; [|by eapply timed_phase_asked].
    eapply timed_phase_on; [done| |done]. simpl in H. destruct (timer_due s e); [|done].
    apply bind_Some in H as (l & _ & [= <-]). simpl in E. rewrite En in E. destruct e; congruence. }
  destruct Hi as (Ha & He & Hb & Hs & Ht). simpl in H. destruct (timer_due s e) eqn:Ed; [|done].
  apply bind_Some in H as (l & Hl & [= <-]). split_and!; [by apply asked_on| | | |done]; cbn [loop clock entered].
  - case_decide; lia.
  - intros E. case_decide as Hp; [rewrite E in Hp; auto|lia].
  - by eapply not_stopping_on.
Qed.

Lemma timed_inv_run es s : run timed_step timed_init es = Some s -> timed_inv s.
Proof using Type. apply run_invariant; [apply timed_inv_init|apply timed_inv_step]. Qed.

(** ** Properties *)

(** C28: a listener's drain fits in the budget of the process.  From the shutdown's
    request, through the select, the drain window, the cancellation and the grace, up to
    the last abort, a listener takes at most [drain_timeout], one second, a tenth of a
    second for the back-off it may be in when asked, and another tenth for each accept that
    fails after the request; with fewer than nine of those it has stopped before [main]
    closes the session under it. *)
Theorem listener_drains_in_budget es s t0 secs b :
  run timed_step timed_init es = Some s -> asked s = Some t0 -> phase (loop s) <> Stopped ->
  drain_timeout = from_secs secs -> drain_budget secs = Some b ->
  (clock s <= t0 + drain_timeout + grace + backoff * N.of_nat (S (backoffs s)))%N /\
  (backoffs s < 9 -> (clock s < t0 + b)%N).
Proof using Type.
  intros Hr Ha Hp Hd Hb. apply timed_inv_run in Hr as (_ & _ & _ & _ & Ht). specialize (Ht t0 Ha).
  assert (clock s <= t0 + drain_timeout + grace + backoff * N.of_nat (S (backoffs s)))%N as Hc.
  { unfold timed_phase, waited in Ht. destruct (phase (loop s)); try done; lia. }
  split; [done|]. intros Hn. unfold drain_budget in Hb. case_match; [|done]. injection Hb as <-.
  unfold grace, backoff, from_secs, from_millis in *. lia.
Qed.
End Timed.

(** ** Examples *)

(** A drain that needs everything: a failed accept, the window, the grace. *)
#[local] Notation slow := [On Acquired; On Accepted; On Acquired; On Shutdown; On AcceptFailed; Elapse 100; On BackoffOver;
  On SawShutdown; Elapse 5000; On DrainTimeout; Elapse 1000].

Lemma listener_drains_in_budget_witness :
  exists s, run (timed_step 5000) (timed_init 8) slow = Some s /\ phase (loop s) = Grace /\ clock s = 6100%N /\ (clock s < 0 + 7000)%N.
Proof.
  assert ((fun s => (phase (loop s), clock s, asked s, backoffs s)) <$> run (timed_step 5000) (timed_init 8) slow
    = Some (Grace, 6100%N, Some 0%N, 1)) as H by (vm_compute; reflexivity).
  destruct (run (timed_step 5000) (timed_init 8) slow) as [s|] eqn:E; [|discriminate]. injection H as Hp Hc Ha Hb.
  exists s. split; [done|]. split; [done|]. split; [done|].
  apply (listener_drains_in_budget 8 5000 slow s 0 5 7000 E Ha); [by rewrite Hp|reflexivity|reflexivity|rewrite Hb; lia].
Defined.

(** The exporters' drain does not fit: [main] gives up three seconds before it. *)
Example export_drain_outlives_budget secs b :
  drain_budget secs = Some b -> (b + from_secs 3 = from_secs secs + drain_margin)%N.
Proof.
  unfold drain_budget. case_match; [|done]. intros [= <-]. unfold drain_margin, from_secs. lia.
Qed.
